(* ===== verification/_CoqProject ===== *)
-Q . S2P
Prelude.v
RustStr.v
Crypto.v
Merkle.v
Store.v
VectorCommit.v
CurveCommit.v
Witness.v
Security.v
Immutable.v
Sheaf.v
F64.v
Governor.v
Evictor.v
BlobStore.v
TypedValue.v
VectorIndex.v
Protocol.v
Did.v
Instances.v
ProtocolSpec.v
Evidence.v
Persistence.v
MultiTenant.v
Pcn.v
PcnSpec.v
Orchestrator.v
AgentPool.v
Container.v
Pod.v
PodSpec.v
Ledger.v
LedgerSpec.v
Envelope.v
EnvelopeSpec.v
Swarm.v
SwarmSpec.v
Vcs.v
VcsSpec.v
TypedText.v
Sql.v
SqlSpec.v
SqlTable.v
Verifier.v
Gate.v
VerifierSpec.v
GateSpec.v
PairTree.v
ShaRef.v
License.v
LicenseSpec.v
Trace.v
TraceSpec.v
Attest.v
AttestSpec.v
Codec.v
Kem.v
Didcomm.v
HaloComm.v
DidcommSpec.v
R1cs.v
ZkEx.v
Credential.v
CredentialSpec.v
Circuit.v
CircuitSpec.v
ZkCompute.v
ZkComputeSpec.v
CredentialHandler.v
CredentialHandlerSpec.v
