(* ===== verification/Prelude.v ===== *)
(** * NucleusDB / AgentHALO core

    ** The program

    The repository is a Rust workspace.  NucleusDB is a verifiable key-value database: a
    vector of 64-bit cells with named, typed keys, a commitment to the vector, a
    transparency log of commits, and a quorum of witnesses that sign every tree head.
    AgentHALO builds a host for software agents on it: payment channels, access control,
    proof envelopes, content exchange, encrypted messages, credentials with zero-knowledge
    proofs, an orchestrator of agent tasks.

    ** Files, from the bottom

    - [Prelude]: results, the state-and-error monad [action], machine integers, tactics.
      [RustStr], [Crypto], [F64]: the standard library the code uses (strings, hexadecimal
      text, byte arrays, binary64).  [Instances], [Codec] (codes of
      countable types), [ZkEx] (a toy proof system): executable stand-ins for outside
      crates, used by examples only.
    - The database.  [Merkle] ([transparency/ct6962.rs]) the RFC 6962 log; [Store]
      ([state.rs], [keymap.rs], [materialize.rs]) cells and keys; [VectorCommit],
      [CurveCommit] ([vc/]) commitments; [Witness] ([witness.rs]) signatures and quorum;
      [Security] ([security.rs], [commitment/]) parameter and reduction checks;
      [Immutable] ([immutable.rs]) append-only checks and seals; [Sheaf]
      ([sheaf/coherence.rs]); [Governor] ([halo/governor.rs]), [Evictor]
      ([chebyshev_evictor.rs]), [BlobStore], [VectorIndex]: bounded stores; [TypedValue].
      [Protocol] ([protocol.rs]) puts them together in [NucleusDb]: [commit] is the whole
      method with every early return, and [ProtocolSpec] its invariant and the theorems
      about it.  [Evidence] ([audit.rs]), [Persistence] ([persistence.rs]) and
      [MultiTenant] ([multitenant.rs]) are its three clients inside the database crate.
    - On top of the database.  [Pcn], [PcnSpec] ([pcn/]): payment channels as database
      keys and the ledger they refine.  [Did] ([halo/did.rs]), [Pod], [PodSpec] ([pod/]):
      grants, policies and capability tokens.  [Envelope], [EnvelopeSpec]
      ([pod/envelope.rs]): portable query answers and their provenance graph.  [Swarm],
      [SwarmSpec] ([swarm/] and two tools of [mcp/tools.rs]): chunks, manifests, peers and
      payment.  [Ledger], [LedgerSpec] ([halo/identity_ledger.rs], [halo/hash.rs] and the
      signatures of [halo/pq.rs]): the hash-chained, signed identity ledger.
      [Vcs], [VcsSpec] ([vcs/]): work records in cells of the database, and their merge.
      [TypedText] (the text of typed values), [Sql], [SqlSpec], [SqlTable]
      ([sql/executor.rs]): the SQL front end, from split texts to statements on the table
      that a reader sees.
      [PairTree]: Merkle trees built level by level, shared by licences and attestations.
      [License], [LicenseSpec] ([license.rs]): licence certificates; [ShaRef] is an
      executable SHA-256 for their constants.  [Trace], [TraceSpec] ([halo/trace.rs],
      [schema.rs], [pricing.rs]): the recorder of agent sessions, payments and skills over
      the database and its files.  [Attest], [AttestSpec] ([halo/attest.rs]): attestations
      of recorded sessions.
    - Messages.  [Kem] ([halo/hybrid_kem.rs]): a key from X25519 and ML-KEM.  [Didcomm]:
      the keys of documents and messages, and in its module [Mesh] the envelopes, tool calls
      and peer sessions of [comms/].  [HaloComm] ([halo/didcomm.rs],
      [halo/didcomm_handler.rs]): authenticated and anonymous envelopes and the table of
      handlers; [DidcommSpec] has the theorems about both.
    - Proofs.  [R1cs] is what the code relies on of arkworks: a field, constraint systems
      in their set-up and proving modes, Groth16 as a class.  [Credential]
      ([halo/zk_credential.rs]) and [CredentialSpec]; [Circuit] ([halo/circuit.rs],
      [circuit_policy.rs], [public_input_schema.rs]) and [CircuitSpec]; [ZkCompute]
      ([halo/zk_compute.rs], [halo/zk_guests/]) and [ZkComputeSpec].  [CredentialHandler] is
      the exchange of credentials by messages: it composes [HaloComm] with [Credential].
    - The host.  [Orchestrator] ([orchestrator/task.rs], [task_graph.rs], [mod.rs],
      [dispatch.rs]), [AgentPool] ([orchestrator/agent_pool.rs]), [Container]
      ([container/agent_lock.rs], [orchestrator/subsidiary_registry.rs]).  [Verifier],
      [Gate], [VerifierSpec], [GateSpec] ([verifier/]): proof certificates, their signature
      and the gate that asks for them.

    ** How code is rendered

    A struct is a [Record], an enum an inductive type, [HashMap] and [BTreeMap] are
    [gmap] (with the sorted enumeration where the code iterates), [Vec] is a list, an
    index out of range is the panic it causes.  A method on [&mut self] is an [action]: it
    returns the state also with [Err], so a partial update before an early return is
    visible.  Integers are [N], with wrap-around or saturation written out ([is_u64],
    [saturating_add64], [wrap32]); [f64] is the Standard Library's [spec_float].  Clock,
    environment, random numbers and file contents are arguments, and so is an error of the
    disk where a call ends by writing a file ([Ledger], [Swarm]); the clock is read once a
    call.  Locks hold for one whole method; where the code takes several, the steps are separate.

    Outside crates are class parameters: [Sha2], [Blake3], [Ristretto], [KzgLib],
    [SigLib], [DidLib], [SerdeJson] and the encoders of single types ([EvidenceJson],
    [PersistJson], [EnvelopeJson], [SwarmJson], [BitswapJson], [LedgerJson], [VcsJson],
    [JsonMake], [MeshJson], [HaloJson], [CredentialJson], [ComputeJson], ...), [AeadLib],
    [HkdfLib], [KemLib], [ArkField], [ArkGroth16], [CircuitLib], [SqlParser], [Chrono], [F64Text], [Base64Std], [Redb], [Libm].  Laws
    are separate classes ([SigLib_Laws], [BitswapJson_Laws], ...) that state documented
    behaviour: an honest signature verifies, decoding undoes encoding, an honest Groth16 proof verifies (its soundness is
    never assumed: [CredentialSpec] states what the constraints mean).  No hash is assumed
    to be injective.  A theorem that needs it has a disjunct [collides h S]
    ([Crypto.collides]): two different strings of the finite list [S] have one hash, where
    [S] is an explicit term, the strings that the code hashes for the two objects compared
    (the nodes of a tree or a proof, the texts of ledger entries, the chunks of an asset).
    [collides h S] is decidable and false of a hash without a collision on [S]; it does not
    follow from the existence of collisions as such.

    ** Groups of theorems

    - The log: completeness and soundness of inclusion and consistency proofs of the
      iterative verifiers, for every size ([Merkle]).
    - Commits: what a successful commit changes, the invariant, that nothing changes on
      an early error, that valid input commits, that the log only grows, that a signing
      failure leaves the database unusable ([ProtocolSpec]); quorums count distinct
      witnesses ([Witness]); seals and openings bind ([Immutable], [VectorCommit]).
    - Reading: verified queries and typed values ([ProtocolSpec], [TypedValue],
      [VectorIndex], [BlobStore]).
    - Durability and audit: evidence replays and is sound ([Evidence]), a log or snapshot
      reloads to the live database ([Persistence]), also through a tenant ([MultiTenant]),
      with isolation and access control between tenants.
    - Clients: refinement of a ledger and conservation ([PcnSpec]); exact authority of
      capability tokens ([PodSpec]); the provenance walk decides the graph property within its
      limits of depth and of nodes ([EnvelopeSpec]); integrity, access control, payment and the round trip of published
      assets ([SwarmSpec]); what the hash chain and the signatures of the identity ledger
      detect, the edits they do not, and what an append leaves when the disk fails
      ([LedgerSpec]); the store of work records, its
      queries, and a merge that does not depend on the order of arrival ([VcsSpec]).
    - SQL: splitting and recursion, what append-only mode protects ([SqlSpec]); every
      statement refines its effect on the table, up to the blobs that a full store gives up,
      SELECT is exact, COMMIT is durable, and
      what an INSERT does before it ([SqlTable]).
    - Records of agents: a recorded session reads back as it was written, two writers of
      one file overwrite each other ([TraceSpec]); which sessions can be attested,
      what a digest and a membership proof bind ([AttestSpec]); what the digest of a licence
      binds, and that no secret protects it ([LicenseSpec]).
    - Messages: a tool call reaches its recipient as it was sent and in time, pending
      requests are a map, the handler answers the sender, and what the signature of an
      envelope does not cover ([DidcommSpec]).
    - Proofs: what the credential circuit accepts and what it leaves open, completeness of
      credentials and anonymous membership, soundness of Merkle paths of full length
      ([CredentialSpec]); the exchange of offer, request and credential
      ([CredentialHandlerSpec]); which keys a production policy takes, and that the circuit
      of attestations shows no attestation ([CircuitSpec]); the built-in guests and their
      receipts, and that a receipt can be written without a run ([ZkComputeSpec]).
    - The host: acyclic pipes, termination of the cycle check, the budget of the pool, the
      life cycle of a container lock.  Signed certificates check, the gate opens under an
      exact condition, and what a signature proves ([VerifierSpec], [GateSpec]).
    Where the code falls short of its documentation the theorem states what it does.

    ** Fuel and bounds

    Loops that are not structural take fuel that a lemma shows to be enough: the iterative
    proof verifiers of [Merkle] (the tree size), [Swarm.pieces] (the payload length),
    [Orchestrator.reach_loop] (two more than the number of arcs: every round visits a new
    node or consumes a queued arc), [PairTree.pair_rounds] (the length of the level,
    [PairTree.pair_rounds_one]), and likewise [Credential.cred_rounds]
    ([CredentialSpec.cred_path_climbs]).  The provenance walk recurses on the remaining
    depth that its own limit gives it; [Sql.execute] recurses once
    ([SqlSpec.sql_execute_terminates]).  Hypotheses such as [is_u64] or a chunk
    count below 2^32 are the widths of the integers in the code.

    ** Not modelled

    HTTP, MCP, dashboard, terminal and command-line front ends, libp2p, Nym, EVM and LLM
    clients, container start-up: input and output around the components above.  Wrappers of
    outside cryptography (vault, password, hardware fingerprints).  The code behind the cargo
    feature [zk-compute] (guests on the risc0 machine, signed receipts).  Scores and loads
    over floating-point statistics (trust, evidence, topology, admission), reports and
    telemetry.  The SQL parser is outside: [Sql] starts from the parts of its syntax trees
    that the executor reads. *)
From stdpp Require Export base list list_numbers gmap strings sorting relations.
From Stdlib Require Export NArith ZArith Lia.

#[export] Set Default Proof Using "Type".

(** ** Results and the state-and-error monad

    A Rust [Result<T, E>] is a value of [result E T].  A method that takes
    [&mut self] and returns a [Result] is a function of type [action S E T]: the
    state survives an early [return Err(..)], exactly as the fields already
    written through [&mut self] do. *)

Inductive result (E T : Type) : Type :=
| Ok (t : T)
| Err (e : E).
Arguments Ok {E T} t.
Arguments Err {E T} e.

#[export] Instance result_eq_dec {E T} `{EqDecision E, EqDecision T} :
  EqDecision (result E T).
Proof. solve_decision. Defined.

#[export] Instance result_ret {E} : MRet (result E) := λ T x, Ok x.
#[export] Instance result_bind {E} : MBind (result E) := λ T U k r,
  match r with Ok x => k x | Err e => Err e end.
#[export] Instance result_fmap {E} : FMap (result E) := λ T U f r,
  match r with Ok x => Ok (f x) | Err e => Err e end.

Definition map_err {E F T} (f : E → F) (r : result E T) : result F T :=
  match r with Ok x => Ok x | Err e => Err (f e) end.

(** [Option::ok_or]. *)
Definition ok_or {E T} (o : option T) (e : E) : result E T :=
  match o with Some x => Ok x | None => Err e end.

(** [Result::ok]. *)
Definition res_ok {E T} (r : result E T) : option T :=
  match r with Ok x => Some x | Err _ => None end.

Definition is_ok {E T} (r : result E T) : bool :=
  match r with Ok _ => true | Err _ => false end.

(** [if c { return Err(e) }]. *)
Definition throw_if {E} (c : bool) (e : E) : result E () :=
  if c then Err e else Ok tt.

Definition action (S E T : Type) : Type := S → S * result E T.

#[export] Instance action_ret {S E} : MRet (action S E) := λ T x s, (s, Ok x).
#[export] Instance action_bind {S E} : MBind (action S E) := λ T U k m s,
  match m s with
  | (s', Ok x) => k x s'
  | (s', Err e) => (s', Err e)
  end.

Definition get_state {S E} : action S E S := λ s, (s, Ok s).
Definition modify {S E} (f : S → S) : action S E () := λ s, (f s, Ok tt).
Definition lift_res {S E T} (r : result E T) : action S E T := λ s, (s, r).

Section result_laws.
Context {E : Type}.

Lemma result_bind_ok {T U} (r : result E T) (k : T → result E U) (u : U) :
  (r ≫= k) = Ok u ↔ ∃ x, r = Ok x ∧ k x = Ok u.
Proof. destruct r; simpl; naive_solver. Qed.

Lemma result_bind_err {T U} (r : result E T) (k : T → result E U) (e : E) :
  (r ≫= k) = Err e ↔ r = Err e ∨ ∃ x, r = Ok x ∧ k x = Err e.
Proof. destruct r; simpl; naive_solver. Qed.

Lemma throw_if_ok (c : bool) (e : E) (u : ()) : throw_if c e = Ok u ↔ c = false.
Proof. destruct c, u; simpl; naive_solver. Qed.

Lemma throw_if_err (c : bool) (e e' : E) : throw_if c e = Err e' ↔ c = true ∧ e = e'.
Proof. destruct c; simpl; naive_solver. Qed.

Lemma map_err_ok {F T} (f : E → F) (r : result E T) (x : T) :
  map_err f r = Ok x ↔ r = Ok x.
Proof. destruct r; simpl; naive_solver. Qed.

Lemma ok_or_ok {T} (o : option T) (e : E) (x : T) : ok_or o e = Ok x ↔ o = Some x.
Proof. destruct o; simpl; naive_solver. Qed.
End result_laws.

(** A successful call of the state-and-error monad, step by step. *)
Section action_laws.
Context {S E : Type}.

Lemma action_bind_ok {T U} (m : action S E T) (k : T → action S E U) s s' u :
  (m ≫= k) s = (s', Ok u) ↔ ∃ x s1, m s = (s1, Ok x) ∧ k x s1 = (s', Ok u).
Proof. unfold mbind, action_bind. destruct (m s) as [s1 [x|e]]; naive_solver. Qed.
Lemma lift_res_ok {T} (r : result E T) (s s' : S) x : lift_res r s = (s', Ok x) ↔ s' = s ∧ r = Ok x.
Proof. unfold lift_res. split; [by intros [= -> ->]|by intros [-> ->]]. Qed.
Lemma modify_ok (f : S → S) s s' u : modify (E:=E) f s = (s', Ok u) ↔ s' = f s.
Proof. unfold modify. split; [by intros [= -> _]|intros ->; by destruct u]. Qed.
Lemma get_state_ok (s s' x : S) : get_state (E:=E) s = (s', Ok x) ↔ s' = s ∧ x = s.
Proof. unfold get_state. split; [by intros [= -> ->]|by intros [-> ->]]. Qed.
Lemma action_ret_ok {T} (x y : T) (s s' : S) :
  mret (M:=action S E) x s = (s', Ok y) ↔ s' = s ∧ y = x.
Proof. unfold mret, action_ret. split; [by intros [= -> ->]|by intros [-> ->]]. Qed.
End action_laws.

(** A relation between the state before and after that every part of a call respects,
    whatever the call returns. *)
Section action_keeps.
Context {S E : Type} (R : relation S) `{!PreOrder R}.

Definition keeps {T} (m : action S E T) : Prop := ∀ s, R s (m s).1.

Lemma keeps_ret {T} (x : T) : keeps (mret x).
Proof using All. intros s. simpl. reflexivity. Qed.
Lemma keeps_lift {T} (r : result E T) : keeps (lift_res r).
Proof using All. intros s. simpl. reflexivity. Qed.
Lemma keeps_get : keeps get_state.
Proof using All. intros s. simpl. reflexivity. Qed.
Lemma keeps_modify f : (∀ s, R s (f s)) → keeps (modify f).
Proof using Type. intros Hf s. apply Hf. Qed.
Lemma keeps_bind {T U} (m : action S E T) (k : T → action S E U) :
  keeps m → (∀ x, keeps (k x)) → keeps (m ≫= k).
Proof using All.
  intros Hm Hk s. unfold mbind, action_bind. specialize (Hm s).
  destruct (m s) as [s1 [x|e]]; [|done]. simpl in Hm. etrans; [done|apply Hk].
Qed.
End action_keeps.

(** ** Machine integers

    [u64] and [usize] values that the code computes with are [N]; the width is
    written out where an operation can leave it.  Vector indices and lengths
    are [nat]. *)

Definition u64_max : N := 18446744073709551615%N.
Definition u64_mod : N := 18446744073709551616%N.
Definition u32_mod : N := 4294967296%N.

Definition wrap64 (n : N) : N := (n mod u64_mod)%N.
Definition wrapping_add64 (a b : N) : N := wrap64 (a + b).
Definition wrapping_mul64 (a b : N) : N := wrap64 (a * b).
Definition saturating_add64 (a b : N) : N := N.min (a + b) u64_max.
Definition saturating_mul64 (a b : N) : N := N.min (a * b) u64_max.
(** [saturating_sub] on any unsigned width is truncated subtraction on [N]. *)
Definition saturating_sub (a b : N) : N := (a - b)%N.
Definition is_u64 (n : N) : Prop := (n ≤ u64_max)%N.

Lemma wrap64_small n : is_u64 n → wrap64 n = n.
Proof. unfold is_u64, wrap64, u64_max, u64_mod. intros. apply N.mod_small. lia. Qed.

Lemma wrap64_is_u64 n : is_u64 (wrap64 n).
Proof.
  unfold is_u64, wrap64, u64_max, u64_mod.
  pose proof (N.mod_lt n 18446744073709551616). lia.
Qed.

Lemma saturating_add64_is_u64 a b : is_u64 (saturating_add64 a b).
Proof. unfold is_u64, saturating_add64, u64_max. lia. Qed.

(** ** Ordered iteration over a [BTreeMap]

    A [BTreeMap<String, V>] is a [gmap string V]; iterating it visits the keys
    in byte order, so every loop over one runs over [entries m]. *)

Definition key_le {V} (p q : string * V) : Prop := String.le p.1 q.1.
#[export] Instance key_le_dec {V} : RelDecision (@key_le V).
Proof. intros p q. unfold key_le. apply _. Defined.
#[export] Instance key_le_trans {V} : Transitive (@key_le V).
Proof. intros p q r. unfold key_le. intros. by etrans. Qed.
#[export] Instance key_le_total {V} : Total (@key_le V).
Proof. intros p q. unfold key_le. apply (total String.le). Qed.

Definition entries {V} (m : gmap string V) : list (string * V) :=
  merge_sort key_le (map_to_list m).
Definition map_keys {V} (m : gmap string V) : list string := (entries m).*1.
Definition map_values {V} (m : gmap string V) : list V := (entries m).*2.

(** [BTreeSet<String>] iteration. *)
Definition set_elems (s : gset string) : list string :=
  merge_sort String.le (elements s).

Section entries.
Context {V : Type}.
Implicit Types m : gmap string V.

Lemma entries_perm m : entries m ≡ₚ map_to_list m.
Proof. apply merge_sort_Permutation. Qed.

Lemma elem_of_entries m k v : (k, v) ∈ entries m ↔ m !! k = Some v.
Proof. rewrite entries_perm. apply elem_of_map_to_list. Qed.

Lemma NoDup_entries_fst m : NoDup (entries m).*1.
Proof. rewrite entries_perm. apply NoDup_fst_map_to_list. Qed.

Lemma length_entries m : length (entries m) = size m.
Proof. by rewrite entries_perm, length_map_to_list. Qed.

Lemma entries_sorted m : StronglySorted key_le (entries m).
Proof. apply StronglySorted_merge_sort; apply _. Qed.

Lemma elem_of_map_keys m k : k ∈ map_keys m ↔ is_Some (m !! k).
Proof.
  unfold map_keys. rewrite list_elem_of_fmap. split.
  - intros ([k' v] & -> & H%elem_of_entries). eauto.
  - intros [v H%elem_of_entries]. by exists (k, v).
Qed.
End entries.

(** A map computed entry by entry is iterated in the same order. *)
Lemma entries_imap {V W} (g : string → V → W) (m : gmap string V) :
  entries (map_imap (λ k v, Some (g k v)) m) = (λ kv, (kv.1, g kv.1 kv.2)) <$> entries m.
Proof.
  set (h := λ kv : string * V, (kv.1, g kv.1 kv.2)).
  assert ((h <$> entries m).*1 = (entries m).*1) as Hfst by (by rewrite <-list_fmap_compose).
  pose proof (NoDup_entries_fst m) as Hnd. rewrite <-Hfst in Hnd.
  assert (entries (map_imap (λ k v, Some (g k v)) m) ≡ₚ h <$> entries m) as Hp.
  { apply NoDup_Permutation; [eapply NoDup_fmap_1, NoDup_entries_fst|by eapply NoDup_fmap_1|].
    intros [k w]. rewrite elem_of_entries, map_lookup_imap, list_elem_of_fmap. split.
    - intros (v & Hv & [= <-])%bind_Some. exists (k, v). by rewrite elem_of_entries.
    - intros ([k' v] & [= -> ->] & Hv%elem_of_entries). by rewrite Hv. }
  eapply (StronglySorted_unique_strong key_le); [|apply entries_sorted| |done].
  - intros [k1 w1] [k2 w2] H1 H2 Hle Hge. assert (k1 = k2) as -> by (by apply (anti_symm String.le)).
    rewrite <-Hp in H2. apply elem_of_entries in H1, H2. congruence.
  - by apply (StronglySorted_fmap _ key_le), entries_sorted.
Qed.

(** ** Lists *)

(** [slice::get(i).copied().unwrap_or(d)]. *)
Definition get_or {A} (d : A) (l : list A) (i : nat) : A := default d (l !! i).

(** [Vec::resize(n, d)] when [n] is at least the current length. *)
Definition resize_up {A} (d : A) (n : nat) (l : list A) : list A :=
  l ++ replicate (n - length l) d.

Lemma length_resize_up {A} (d : A) n (l : list A) :
  length (resize_up d n l) = length l `max` n.
Proof. unfold resize_up. rewrite length_app, length_replicate. lia. Qed.

Lemma get_or_resize_up {A} (d : A) n (l : list A) i :
  get_or d (resize_up d n l) i = get_or d l i.
Proof.
  unfold get_or, resize_up. destruct (decide (i < length l)).
  - by rewrite lookup_app_l.
  - rewrite lookup_app_r, (lookup_ge_None_2 l) by lia. simpl.
    destruct (replicate _ _ !! _) eqn:E; [|done].
    apply lookup_replicate in E as [-> _]. done.
Qed.

Lemma get_or_insert_eq {A} (d : A) (l : list A) i x :
  i < length l → get_or d (<[i:=x]> l) i = x.
Proof. intros. unfold get_or. by rewrite list_lookup_insert_eq. Qed.

Lemma get_or_insert_ne {A} (d : A) (l : list A) i j x :
  i ≠ j → get_or d (<[i:=x]> l) j = get_or d l j.
Proof. intros. unfold get_or. by rewrite list_lookup_insert_ne. Qed.

(** [iter().enumerate()] from an offset. *)
Definition enumerate {A} (l : list A) : list (nat * A) := imap pair l.

(** ** Tactics *)

(** Decompose hypotheses about computations in [result]. *)
Ltac inv_res :=
  repeat match goal with
  | H : @mret _ result_ret _ _ = _ |- _ => unfold mret, result_ret in H
  | H : Ok _ = Ok _ |- _ => injection H as H; subst
  | H : Err _ = Err _ |- _ => injection H as H; subst
  | H : Ok _ = Err _ |- _ => discriminate H
  | H : Err _ = Ok _ |- _ => discriminate H
  | H : (_ ≫= _) = Ok _ |- _ =>
      let x := fresh "x" in let H1 := fresh H in
      apply result_bind_ok in H as (x & H1 & H)
  | H : throw_if _ _ = Ok _ |- _ => apply throw_if_ok in H
  | H : throw_if _ _ = Err _ |- _ => apply throw_if_err in H as [H ?]; subst
  | H : map_err _ _ = Ok _ |- _ => apply map_err_ok in H
  | H : ok_or _ _ = Ok _ |- _ => apply ok_or_ok in H
  end.

(** The same for successful calls of the state-and-error monad. *)
Ltac inv_act :=
  repeat match goal with
  | H : (_ ≫= _) _ = (_, Ok _) |- _ =>
      let x := fresh "x" in let s := fresh "s" in let H1 := fresh H in
      apply action_bind_ok in H as (x & s & H1 & H)
  | H : lift_res _ _ = (_, Ok _) |- _ => apply lift_res_ok in H as [-> H]
  | H : modify _ _ = (_, Ok _) |- _ => apply modify_ok in H as ->
  | H : get_state _ = (_, Ok _) |- _ => apply get_state_ok in H as [-> ->]
  | H : mret _ _ = (_, Ok _) |- _ =>
      first [apply action_ret_ok in H as [-> ->] | apply action_ret_ok in H as [? ?]; simplify_eq]
  end; inv_res.

(** [lia] with the Euclidean equations of [/] and [mod]. *)
Ltac lia_div := zify; Z.to_euclidean_division_equations; lia.

(** Turn boolean guards into propositions. *)
Ltac bool_hyps :=
  repeat match goal with
  | H : _ && _ = true |- _ => apply andb_true_iff in H as [? H]
  | H : _ || _ = false |- _ => apply orb_false_iff in H as [? H]
  | H : negb _ = true |- _ => apply negb_true_iff in H
  | H : negb _ = false |- _ => apply negb_false_iff in H
  | H : bool_decide _ = true |- _ => apply bool_decide_eq_true in H
  | H : bool_decide _ = false |- _ => apply bool_decide_eq_false in H
  | H : (_ <=? _)%N = true |- _ => apply N.leb_le in H
  | H : (_ <=? _)%N = false |- _ => apply N.leb_gt in H
  | H : (_ <? _)%N = true |- _ => apply N.ltb_lt in H
  | H : (_ <? _)%N = false |- _ => apply N.ltb_ge in H
  | H : (_ =? _)%N = true |- _ => apply N.eqb_eq in H
  | H : (_ =? _)%N = false |- _ => apply N.eqb_neq in H
  | H : (_ <=? _) = true |- _ => apply Nat.leb_le in H
  | H : (_ <=? _) = false |- _ => apply Nat.leb_gt in H
  | H : (_ <? _) = true |- _ => apply Nat.ltb_lt in H
  | H : (_ <? _) = false |- _ => apply Nat.ltb_ge in H
  | H : (_ =? _) = true |- _ => apply Nat.eqb_eq in H
  | H : (_ =? _) = false |- _ => apply Nat.eqb_neq in H
  end.

Create HintDb nucleus.
#[export] Hint Resolve keeps_ret keeps_lift keeps_get keeps_modify keeps_bind : nucleus.
Create Rewrite HintDb nucleus_rw.
#[export] Hint Resolve wrap64_is_u64 saturating_add64_is_u64 : nucleus.
#[export] Hint Rewrite @length_resize_up @get_or_resize_up @length_entries : nucleus_rw.

(** ** Reading off a computed result *)

Lemma pair_snd {A B} (p : A * B) b : p.2 = b → p = (p.1, b).
Proof. by destruct p; simpl; intros ->. Qed.

Lemma is_ok_inv {E T} (P : T → Prop) (r : result E T) (d : T) :
  is_ok r = true → (∀ t, r = Ok t → P t) → P (match r with Ok t => t | Err _ => d end).
Proof. destruct r; simpl; [auto|done]. Qed.

Lemma is_ok_match {E T} (r : result E T) (d : T) :
  is_ok r = true → r = Ok (match r with Ok t => t | Err _ => d end).
Proof. by destruct r. Qed.

(** ** Reachability *)

(** A property that the relation preserves holds of all that can be reached. *)
Lemma rtc_closed {A} (R : relation A) (P : A → Prop) x y :
  (∀ a b, P a → R a b → P b) → P x → rtc R x y → P y.
Proof. intros Hc Hx. induction 1; eauto. Qed.
