(* ===== verification/RustStr.v ===== *)
(** * The Rust string and byte operations the code uses

    A Rust [String] is its UTF-8 byte sequence, held in a [string]; a [Vec<u8>]
    or a slice of [u8] is a [list byte].  This file gives the standard-library
    operations the modelled code calls on them, decimal and hexadecimal text,
    and the lemmas about them the components share. *)
From S2P Require Export Prelude.
From stdpp Require Export pretty.
From Stdlib Require Export Strings.Byte.
From Stdlib Require Export Strings.Ascii.

(** The byte codes are written [x00] .. [xff]. *)
#[export] Instance byte_eq_dec : EqDecision byte := Byte.byte_eq_dec.
#[export] Program Instance byte_countable : Countable byte :=
  inj_countable' Byte.to_N (λ n, default x00 (Byte.of_N n)) _.
Next Obligation. intros b. simpl. by rewrite Byte.of_to_N. Qed.

Definition bytes := list byte.

Lemma str_app_nil (s : string) : "" +:+ s = s.
Proof. done. Qed.
Lemma str_app_cons c (s t : string) : String c s +:+ t = String c (s +:+ t).
Proof. done. Qed.

(** [str::as_bytes]. *)
Definition as_bytes (s : string) : bytes := Stdlib.Strings.String.list_byte_of_string s.
(** The string with these bytes (the bytes of a [String] the code built). *)
Definition of_bytes (b : bytes) : string := Stdlib.Strings.String.string_of_list_byte b.

Lemma of_as_bytes s : of_bytes (as_bytes s) = s.
Proof. apply Stdlib.Strings.String.string_of_list_byte_of_string. Qed.
Lemma as_of_bytes b : as_bytes (of_bytes b) = b.
Proof. apply Stdlib.Strings.String.list_byte_of_string_of_list_byte. Qed.
#[export] Instance as_bytes_inj : Inj (=) (=) as_bytes.
Proof. intros s t H. by rewrite <-(of_as_bytes s), H, of_as_bytes. Qed.

Lemma as_bytes_app s t : as_bytes (s +:+ t) = as_bytes s ++ as_bytes t.
Proof.
  induction s as [|c s IH]; [done|].
  transitivity (byte_of_ascii c :: as_bytes (s +:+ t)); [done|]. by rewrite IH.
Qed.

(** [str::len]: the number of bytes. *)
Definition str_len (s : string) : nat := String.length s.

Lemma length_as_bytes s : length (as_bytes s) = str_len s.
Proof.
  induction s as [|c s IH]; [done|].
  transitivity (S (length (as_bytes s))); [done|]. by rewrite IH.
Qed.

(** ** Prefixes and suffixes *)

Fixpoint strip_prefix (p s : string) : option string :=
  match p, s with
  | EmptyString, _ => Some s
  | String a p', String b s' => if decide (a = b) then strip_prefix p' s' else None
  | String _ _, EmptyString => None
  end.

Definition starts_with (s p : string) : bool :=
  match strip_prefix p s with Some _ => true | None => false end.

Definition strip_suffix (p s : string) : option string :=
  String.rev <$> strip_prefix (String.rev p) (String.rev s).

Definition ends_with (s p : string) : bool :=
  match strip_suffix p s with Some _ => true | None => false end.

Lemma strip_prefix_Some p s r : strip_prefix p s = Some r ↔ s = p +:+ r.
Proof.
  revert s. induction p as [|a p IH]; intros [|b s]; simpl;
    rewrite ?str_app_nil, ?str_app_cons; try naive_solver.
  case_decide; [subst; rewrite IH|]; split; intros; simplify_eq; done.
Qed.

Lemma strip_prefix_app p r : strip_prefix p (p +:+ r) = Some r.
Proof. by apply strip_prefix_Some. Qed.

Lemma starts_with_true s p : starts_with s p = true ↔ ∃ r, s = p +:+ r.
Proof.
  unfold starts_with. split.
  - destruct (strip_prefix p s) as [r|] eqn:E; [|done].
    intros _. apply strip_prefix_Some in E. eauto.
  - intros [r ->]. by rewrite strip_prefix_app.
Qed.

Lemma str_app_assoc (s t u : string) : (s +:+ t) +:+ u = s +:+ (t +:+ u).
Proof. induction s; [done|]. rewrite !str_app_cons. by f_equal. Qed.
Lemma str_app_nil_r (s : string) : s +:+ "" = s.
Proof. induction s; [done|]. rewrite !str_app_cons. by f_equal. Qed.
Lemma str_app_inv_tail (s t u : string) : s +:+ u = t +:+ u → s = t.
Proof.
  intros H. apply (inj as_bytes). apply (f_equal as_bytes) in H.
  rewrite !as_bytes_app in H. by apply app_inv_tail in H.
Qed.
Lemma str_len_app (s t : string) : str_len (s +:+ t) = str_len s + str_len t.
Proof. by rewrite <-!length_as_bytes, as_bytes_app, length_app. Qed.

Lemma rev_app_spec s acc : String.rev_app s acc = String.rev_app s "" +:+ acc.
Proof.
  revert acc. induction s as [|c s IH]; intros acc; simpl; [done|].
  rewrite IH, (IH (String c "")). by rewrite str_app_assoc, str_app_cons.
Qed.
Lemma str_rev_cons c s : String.rev (String c s) = String.rev s +:+ String c "".
Proof. unfold String.rev. simpl. by rewrite rev_app_spec. Qed.
Lemma str_rev_app s t : String.rev (s +:+ t) = String.rev t +:+ String.rev s.
Proof.
  induction s as [|c s IH]; [by rewrite str_app_nil, str_app_nil_r|].
  by rewrite str_app_cons, !str_rev_cons, IH, str_app_assoc.
Qed.
Lemma str_rev_involutive s : String.rev (String.rev s) = s.
Proof.
  induction s as [|c s IH]; [done|]. by rewrite str_rev_cons, str_rev_app, IH.
Qed.

Lemma strip_suffix_Some p s r : strip_suffix p s = Some r ↔ s = r +:+ p.
Proof.
  unfold strip_suffix. rewrite fmap_Some. split.
  - intros (x & Hx%strip_prefix_Some & ->).
    by rewrite <-(str_rev_involutive s), Hx, str_rev_app, str_rev_involutive.
  - intros ->. exists (String.rev r). rewrite str_rev_involutive. split; [|done].
    apply strip_prefix_Some. apply str_rev_app.
Qed.

Lemma strip_suffix_app p r : strip_suffix p (r +:+ p) = Some r.
Proof. by apply strip_suffix_Some. Qed.

(** ** Whitespace

    [str::trim] removes the characters with the Unicode [White_Space] property;
    these are their UTF-8 encodings. *)
Definition byte_string (l : list byte) : string := of_bytes l.
Definition whitespace_codes : list string :=
  byte_string <$>
    ((λ b, [b]) <$> [x09; x0a; x0b; x0c; x0d; x20]) ++
    [[xc2; x85]; [xc2; xa0]; [xe1; x9a; x80]] ++
    ((λ b, [xe2; x80; b]) <$>
       [x80; x81; x82; x83; x84; x85; x86; x87; x88; x89; x8a; xa8; xa9; xaf]) ++
    [[xe2; x81; x9f]; [xe3; x80; x80]].

Fixpoint first_some {A B} (f : A → option B) (l : list A) : option B :=
  match l with
  | [] => None
  | x :: l' => match f x with Some y => Some y | None => first_some f l' end
  end.

(** One pass per character: fuel [str_len s] is enough, every pass that removes
    something removes at least one byte. *)
Fixpoint trim_with (strip : string → string → option string) (fuel : nat) (s : string) : string :=
  match fuel with
  | O => s
  | S fuel' =>
      match first_some (λ w, strip w s) whitespace_codes with
      | Some r => trim_with strip fuel' r
      | None => s
      end
  end.

Definition trim_start (s : string) : string := trim_with strip_prefix (str_len s) s.
Definition trim_end (s : string) : string := trim_with strip_suffix (str_len s) s.
Definition trim (s : string) : string := trim_end (trim_start s).

(** [s.trim().is_empty()]. *)
Definition is_blank (s : string) : bool := bool_decide (trim s = "").

Example trim_ex : trim "  ab c
" = "ab c".
Proof. vm_compute. reflexivity. Qed.

(** [eq_ignore_ascii_case] and [to_ascii_lowercase]. *)
Definition ascii_lower (c : ascii) : ascii :=
  let n := N_of_ascii c in
  if (65 <=? n)%N && (n <=? 90)%N then ascii_of_N (n + 32) else c.
Fixpoint to_ascii_lowercase (s : string) : string :=
  match s with
  | EmptyString => EmptyString
  | String c s' => String (ascii_lower c) (to_ascii_lowercase s')
  end.
Definition eq_ignore_ascii_case (s t : string) : bool :=
  bool_decide (to_ascii_lowercase s = to_ascii_lowercase t).

(** [str::split_once(c)] for a one-byte separator. *)
Fixpoint split_once (c : ascii) (s : string) : option (string * string) :=
  match s with
  | EmptyString => None
  | String d s' =>
      if decide (c = d) then Some ("", s')
      else '(a, b) ← split_once c s'; Some (String d a, b)
  end.

(** [str::rsplit_once(c)] for a one-byte separator. *)
Definition rsplit_once (c : ascii) (s : string) : option (string * string) :=
  '(a, b) ← split_once c (String.rev s); Some (String.rev b, String.rev a).

(** [str::trim_end_matches]: every trailing copy. *)
Fixpoint trim_end_matches (fuel : nat) (p s : string) : string :=
  match fuel with
  | O => s
  | S fuel' => match strip_suffix p s with Some r => trim_end_matches fuel' p r | None => s end
  end.

(** [str::split(c)]: at least one piece, empty pieces kept. *)
Fixpoint split_char (c : ascii) (s : string) : list string :=
  match s with
  | EmptyString => [""]
  | String a s' =>
      let rest := split_char c s' in
      if Ascii.eqb a c then "" :: rest
      else match rest with
           | [] => [String a ""]
           | p :: ps => String a p :: ps
           end
  end.

(** ** Decimal text: [u64::to_string] is stdpp's [pretty] on [N] *)

Definition dec (n : N) : string := pretty n.
Definition dec_nat (n : nat) : string := pretty n.

Definition digit_val (c : ascii) : option N :=
  let n := N_of_ascii c in
  if (48 <=? n)%N && (n <=? 57)%N then Some (n - 48)%N else None.

(** The checked accumulation of [u64::from_str]. *)
Fixpoint parse_digits (acc : N) (s : string) : option N :=
  match s with
  | EmptyString => Some acc
  | String c s' =>
      d ← digit_val c;
      let acc' := (acc * 10 + d)%N in
      if (acc' <=? u64_max)%N then parse_digits acc' s' else None
  end.

(** [str::parse::<u64>().ok()]. *)
Definition parse_u64 (s : string) : option N :=
  match s with
  | EmptyString => None
  | String c s' =>
      if decide (c = "+"%char) then
        match s' with EmptyString => None | _ => parse_digits 0 s' end
      else parse_digits 0 s
  end.

Lemma digit_val_char d : (d < 10)%N → digit_val (pretty_N_char d) = Some d.
Proof.
  intros. assert (d = 0 ∨ d = 1 ∨ d = 2 ∨ d = 3 ∨ d = 4 ∨ d = 5 ∨ d = 6 ∨ d = 7
    ∨ d = 8 ∨ d = 9)%N as Hd by lia.
  by destruct Hd as [-> | [-> | [-> | [-> | [-> | [-> | [-> | [-> | [-> | ->]]]]]]]]].
Qed.

Lemma parse_digits_go x s :
  is_u64 x → parse_digits 0 (pretty_N_go x s) = parse_digits x s.
Proof.
  revert s. induction (N.lt_wf_0 x) as [x _ IH]; intros s Hx.
  destruct (decide (x = 0)%N) as [->|]; [by rewrite pretty_N_go_0|].
  rewrite pretty_N_go_step by lia.
  rewrite IH; [|apply N.div_lt; lia|unfold is_u64 in *; clear IH; lia_div].
  simpl. rewrite digit_val_char by (apply N.mod_lt; lia). simpl.
  replace (x `div` 10 * 10 + x `mod` 10)%N with x by (clear IH; lia_div).
  by replace (x <=? u64_max)%N with true by (symmetry; apply N.leb_le; done).
Qed.

(** The decimal text of a positive number ends with a digit and starts with one. *)
Lemma pretty_N_go_cons x s :
  (0 < x)%N → ∃ d t, (d < 10)%N ∧ pretty_N_go x s = String (pretty_N_char d) t.
Proof.
  revert s. induction (N.lt_wf_0 x) as [x _ IH]; intros s Hx.
  rewrite pretty_N_go_step by done.
  destruct (decide (x / 10 = 0)%N) as [->|].
  - rewrite pretty_N_go_0. eexists _, _. split; [|done]. apply N.mod_lt. lia.
  - apply IH; [apply N.div_lt; lia|by apply N.neq_0_lt_0].
Qed.

Lemma dec_cons n : ∃ d t, (d < 10)%N ∧ dec n = String (pretty_N_char d) t.
Proof.
  unfold dec, pretty, pretty_N. case_decide.
  - by exists 0%N, "".
  - apply pretty_N_go_cons. lia.
Qed.

Lemma pretty_N_char_ne_plus d : (d < 10)%N → pretty_N_char d ≠ "+"%char.
Proof. intros Hd%digit_val_char E. by rewrite E in Hd. Qed.

(** [u64::to_string] followed by [parse::<u64>] is the identity. *)
Lemma parse_dec n : is_u64 n → parse_u64 (dec n) = Some n.
Proof.
  intros Hn. destruct (dec_cons n) as (d & t & Hd & E).
  unfold parse_u64. rewrite E, decide_False by by apply pretty_N_char_ne_plus.
  rewrite <-E. unfold dec, pretty, pretty_N. case_decide; [by subst|].
  by rewrite parse_digits_go.
Qed.

#[export] Instance dec_inj : Inj (=) (=) dec.
Proof. unfold dec. apply _. Qed.
#[export] Instance dec_nat_inj : Inj (=) (=) dec_nat.
Proof. unfold dec_nat. apply _. Qed.

(** Every character of a decimal numeral is a digit. *)
Fixpoint str_forall (P : ascii → bool) (s : string) : bool :=
  match s with EmptyString => true | String c s' => P c && str_forall P s' end.
Definition is_digit (c : ascii) : bool :=
  match digit_val c with Some _ => true | None => false end.

Lemma str_forall_app P s t : str_forall P (s +:+ t) = str_forall P s && str_forall P t.
Proof.
  induction s; [done|]. rewrite str_app_cons. simpl. by rewrite IHs, andb_assoc.
Qed.

Lemma dec_digits n : str_forall is_digit (dec n) = true.
Proof.
  cut (∀ x s, str_forall is_digit s = true → str_forall is_digit (pretty_N_go x s) = true).
  { intros H. unfold dec, pretty, pretty_N. case_decide; [done|]. by apply H. }
  intros x. induction (N.lt_wf_0 x) as [x _ IH]; intros s Hs.
  destruct (decide (x = 0)%N) as [->|]; [by rewrite pretty_N_go_0|].
  rewrite pretty_N_go_step by lia. apply IH; [apply N.div_lt; lia|].
  simpl. unfold is_digit. rewrite digit_val_char; [done|]. apply N.mod_lt. lia.
Qed.

(** Two fields separated by a character that the first field does not contain
    determine both fields. *)
Lemma sep_inj (P : ascii → bool) c (a a' r r' : string) :
  P c = false → str_forall P a = true → str_forall P a' = true →
  a +:+ String c r = a' +:+ String c r' → a = a' ∧ r = r'.
Proof.
  intros Hc. revert a'. induction a as [|x a IH]; intros [|y a'] Ha Ha' E; simpl in Ha, Ha';
    rewrite ?str_app_nil, ?str_app_cons in E.
  - by simplify_eq.
  - simplify_eq. by rewrite Hc in Ha'.
  - simplify_eq. by rewrite Hc in Ha.
  - bool_hyps. simplify_eq. by destruct (IH a') as [-> ->].
Qed.

(** ** Hexadecimal text *)

(** The low-level digit of [format!("{b:02x}")] and of [hex_digit]. *)
Definition hex_digit (v : N) : ascii :=
  if (v <=? 9)%N then ascii_of_N (48 + v) else ascii_of_N (97 + (v - 10)).
Definition byte_hi (b : byte) : N := (Byte.to_N b / 16)%N.
Definition byte_lo (b : byte) : N := (Byte.to_N b mod 16)%N.

Fixpoint hex_encode (l : bytes) : string :=
  match l with
  | [] => ""
  | b :: l' => String (hex_digit (byte_hi b)) (String (hex_digit (byte_lo b)) (hex_encode l'))
  end.

(** [hex_nibble], the decoder's table, accepting both cases. *)
Definition hex_nibble (c : ascii) : option N :=
  let n := N_of_ascii c in
  if (48 <=? n)%N && (n <=? 57)%N then Some (n - 48)%N
  else if (97 <=? n)%N && (n <=? 102)%N then Some (10 + (n - 97))%N
  else if (65 <=? n)%N && (n <=? 70)%N then Some (10 + (n - 65))%N
  else None.

(** [(hi << 4) | lo] for two nibbles. *)
Definition nibbles (hi lo : N) : byte := default x00 (Byte.of_N (N.lor (N.shiftl hi 4) lo)).

Fixpoint hex_decode (s : string) : option bytes :=
  match s with
  | EmptyString => Some []
  | String a (String b s') =>
      hi ← hex_nibble a; lo ← hex_nibble b;
      rest ← hex_decode s'; Some (nibbles hi lo :: rest)
  | String _ EmptyString => None
  end.

Lemma hex_byte_roundtrip b :
  hex_nibble (hex_digit (byte_hi b)) = Some (byte_hi b) ∧
  hex_nibble (hex_digit (byte_lo b)) = Some (byte_lo b) ∧
  nibbles (byte_hi b) (byte_lo b) = b.
Proof. by destruct b. Qed.

Lemma hex_decode_encode l : hex_decode (hex_encode l) = Some l.
Proof.
  induction l as [|b l IH]; cbn; [done|].
  destruct (hex_byte_roundtrip b) as (-> & -> & E). cbn. rewrite IH. cbn. by rewrite E.
Qed.

#[export] Instance hex_encode_inj : Inj (=) (=) hex_encode.
Proof.
  intros l k H. apply (f_equal hex_decode) in H.
  rewrite !hex_decode_encode in H. by simplify_eq.
Qed.

Lemma length_hex_encode l : str_len (hex_encode l) = 2 * length l.
Proof. induction l; cbn; [done|]. unfold str_len in *. lia. Qed.

(** Every character of an encoding is a hexadecimal digit. *)
Definition is_hex (c : ascii) : bool :=
  match hex_nibble c with Some _ => true | None => false end.

Lemma hex_encode_digits l : str_forall is_hex (hex_encode l) = true.
Proof.
  induction l as [|b l IH]; cbn; [done|]. unfold is_hex.
  destruct (hex_byte_roundtrip b) as (-> & -> & _). done.
Qed.

(** ** Integers as bytes *)

(** [to_le_bytes] and [to_be_bytes] of an [n]-byte unsigned integer. *)
Fixpoint le_bytes (n : nat) (v : N) : bytes :=
  match n with
  | O => []
  | S n' => default x00 (Byte.of_N (v mod 256)) :: le_bytes n' (v / 256)
  end.
Definition be_bytes (n : nat) (v : N) : bytes := rev (le_bytes n v).

Fixpoint of_le_bytes (l : bytes) : N :=
  match l with [] => 0 | b :: l' => Byte.to_N b + 256 * of_le_bytes l' end%N.
Definition of_be_bytes (l : bytes) : N := of_le_bytes (rev l).

Lemma length_le_bytes n v : length (le_bytes n v) = n.
Proof. revert v; induction n; intros; simpl; [done|]. by rewrite IHn. Qed.
Lemma length_be_bytes n v : length (be_bytes n v) = n.
Proof. unfold be_bytes. by rewrite length_rev, length_le_bytes. Qed.

Lemma byte_of_mod v : Byte.to_N (default x00 (Byte.of_N (v mod 256))) = (v mod 256)%N.
Proof.
  pose proof (N.mod_lt v 256).
  destruct (Byte.of_N (v mod 256)) eqn:E; simpl; [by apply Byte.to_of_N|].
  apply Byte.of_N_None_iff in E. lia.
Qed.

Lemma of_le_bytes_le_bytes n v : (v < 256 ^ N.of_nat n)%N → of_le_bytes (le_bytes n v) = v.
Proof.
  revert v. induction n as [|n IH]; intros v Hv.
  - cbn in *. lia.
  - cbn [le_bytes of_le_bytes]. rewrite byte_of_mod.
    rewrite Nat2N.inj_succ, N.pow_succ_r' in Hv.
    rewrite IH by (apply N.Div0.div_lt_upper_bound; lia).
    pose proof (N.div_mod' v 256). lia.
Qed.

Lemma of_be_bytes_be_bytes n v : (v < 256 ^ N.of_nat n)%N → of_be_bytes (be_bytes n v) = v.
Proof. intros. unfold of_be_bytes, be_bytes. rewrite rev_involutive. by apply of_le_bytes_le_bytes. Qed.

Lemma le_bytes_of_le_bytes l : le_bytes (length l) (of_le_bytes l) = l.
Proof.
  induction l as [|b l IH]; cbn [length le_bytes of_le_bytes]; [done|].
  pose proof (Byte.to_N_bounded b).
  assert (((Byte.to_N b + 256 * of_le_bytes l) mod 256)%N = Byte.to_N b) as E1.
  { rewrite N.mul_comm, N.Div0.mod_add. apply N.mod_small. lia. }
  assert (((Byte.to_N b + 256 * of_le_bytes l) / 256)%N = of_le_bytes l) as E2.
  { rewrite N.mul_comm, N.div_add by lia. rewrite N.div_small; lia. }
  by rewrite E1, E2, Byte.of_to_N, IH.
Qed.

Lemma be_bytes_of_be_bytes l : be_bytes (length l) (of_be_bytes l) = l.
Proof.
  unfold be_bytes, of_be_bytes. rewrite <-(length_rev l), le_bytes_of_le_bytes.
  apply rev_involutive.
Qed.

Lemma of_le_bytes_bound l : (of_le_bytes l < 256 ^ N.of_nat (length l))%N.
Proof.
  induction l as [|b l IH]; [cbn; lia|]. cbn [of_le_bytes length].
  rewrite Nat2N.inj_succ, N.pow_succ_r'. pose proof (Byte.to_N_bounded b). lia.
Qed.

Lemma of_be_bytes_bound l : (of_be_bytes l < 256 ^ N.of_nat (length l))%N.
Proof. unfold of_be_bytes. rewrite <-(length_rev l). apply of_le_bytes_bound. Qed.

(** ** UTF-8: [String::from_utf8] accepts exactly these byte sequences *)

Definition in_range (lo hi : N) (b : byte) : bool :=
  (lo <=? Byte.to_N b)%N && (Byte.to_N b <=? hi)%N.
Definition is_cont (b : byte) : bool := in_range 128 191 b.

Fixpoint utf8_valid (l : bytes) : bool :=
  match l with
  | [] => true
  | b :: r =>
      if in_range 0 127 b then utf8_valid r
      else if in_range 194 223 b then
        match r with c1 :: r1 => is_cont c1 && utf8_valid r1 | _ => false end
      else if in_range 224 239 b then
        match r with
        | c1 :: c2 :: r2 =>
            in_range (if (Byte.to_N b =? 224)%N then 160 else 128)
                     (if (Byte.to_N b =? 237)%N then 159 else 191) c1
            && is_cont c2 && utf8_valid r2
        | _ => false
        end
      else if in_range 240 244 b then
        match r with
        | c1 :: c2 :: c3 :: r3 =>
            in_range (if (Byte.to_N b =? 240)%N then 144 else 128)
                     (if (Byte.to_N b =? 244)%N then 143 else 191) c1
            && is_cont c2 && is_cont c3 && utf8_valid r3
        | _ => false
        end
      else false
  end.

(** ** Splitting at a separator *)

Lemma split_char_app c s t :
  str_forall (λ d, negb (Ascii.eqb d c)) s = true →
  split_char c (s +:+ String c t) = s :: split_char c t.
Proof.
  induction s as [|a s IH]; simpl; intros Hs; rewrite ?str_app_nil, ?str_app_cons; simpl.
  - by rewrite Ascii.eqb_refl.
  - bool_hyps. rewrite IH by done. by destruct (Ascii.eqb a c).
Qed.

Lemma split_char_cons c t : ∃ p ps, split_char c t = p :: ps.
Proof.
  destruct t as [|a t]; simpl; [by eexists _, _|].
  destruct (Ascii.eqb a c); [by eexists _, _|]. destruct (split_char c t); by eexists _, _.
Qed.

(** The pieces do not hold the separator. *)
Lemma split_char_free c s : Forall (λ p, str_forall (λ d, negb (Ascii.eqb d c)) p = true) (split_char c s).
Proof.
  induction s as [|a s IH]; cbn [split_char]; [by repeat constructor|].
  destruct (Ascii.eqb a c) eqn:Ea; [by constructor|].
  destruct (split_char c s) as [|p ps]; [constructor; [|constructor]|].
  - cbn [str_forall]. by rewrite Ea.
  - apply Forall_cons in IH as [Hp Hps]. constructor; [|done]. cbn [str_forall]. by rewrite Ea.
Qed.

(** ** Trimming twice *)

Lemma first_some_None {A B} (f : A → option B) l :
  first_some f l = None ↔ ∀ x, x ∈ l → f x = None.
Proof.
  induction l as [|x l IH]; simpl; [by split; [intros _ y Hy%not_elem_of_nil|]|].
  destruct (f x) eqn:E.
  - split; [done|]. intros H. by rewrite (H x (list_elem_of_here _ _)) in E.
  - rewrite IH. setoid_rewrite elem_of_cons. naive_solver.
Qed.
Lemma first_some_Some {A B} (f : A → option B) l y :
  first_some f l = Some y → ∃ x, x ∈ l ∧ f x = Some y.
Proof.
  induction l as [|x l IH]; simpl; [done|]. destruct (f x) eqn:E.
  - intros [= ->]. exists x. split; [constructor|done].
  - intros (z & ? & ?)%IH. exists z. split; [by constructor|done].
Qed.

Lemma whitespace_codes_nonempty w : w ∈ whitespace_codes → 0 < str_len w.
Proof.
  intros Hw. assert (forallb (λ w, 0 <? str_len w) whitespace_codes = true) as H by done.
  rewrite forallb_forall in H. specialize (H w (proj1 (list_elem_of_In _ _) Hw)). by apply Nat.ltb_lt in H.
Qed.

Section trim_with.
Context (strip : string → string → option string).
Context (strip_len : ∀ w s r, strip w s = Some r → str_len s = str_len w + str_len r).

Definition untrimmed (s : string) : option string := first_some (λ w, strip w s) whitespace_codes.

Lemma trim_with_stuck fuel s : str_len s ≤ fuel → untrimmed (trim_with strip fuel s) = None.
Proof using strip_len.
  revert s. induction fuel as [|fuel IH]; intros s Hs; cbn [trim_with].
  - apply first_some_None. intros w Hw. destruct (strip w s) as [r|] eqn:E; [|done].
    apply strip_len in E. apply whitespace_codes_nonempty in Hw. lia.
  - fold (untrimmed s). destruct (untrimmed s) as [r|] eqn:E; [|done].
    apply IH. apply first_some_Some in E as (w & Hw & E).
    apply strip_len in E. apply whitespace_codes_nonempty in Hw. lia.
Qed.

Lemma trim_with_id fuel s : untrimmed s = None → trim_with strip fuel s = s.
Proof using Type. intros H. destruct fuel; cbn [trim_with]; [done|]. fold (untrimmed s). by rewrite H. Qed.
End trim_with.

Lemma strip_prefix_len w s r : strip_prefix w s = Some r → str_len s = str_len w + str_len r.
Proof. intros ->%strip_prefix_Some. by rewrite str_len_app. Qed.
Lemma strip_suffix_len w s r : strip_suffix w s = Some r → str_len s = str_len w + str_len r.
Proof. intros ->%strip_suffix_Some. rewrite str_len_app. lia. Qed.

Lemma trim_end_prefix fuel s : ∃ r, s = trim_with strip_suffix fuel s +:+ r.
Proof.
  revert s. induction fuel as [|fuel IH]; intros s; cbn [trim_with]; [exists ""; by rewrite str_app_nil_r|].
  destruct (first_some _ _) as [t|] eqn:E; [|exists ""; by rewrite str_app_nil_r].
  apply first_some_Some in E as (w & _ & ->%strip_suffix_Some). destruct (IH t) as [r Hr].
  exists (r +:+ w). by rewrite Hr at 1; rewrite str_app_assoc.
Qed.

Lemma trim_end_stuck s : untrimmed strip_suffix (trim s) = None.
Proof. apply trim_with_stuck; [apply strip_suffix_len|done]. Qed.

Lemma trim_idem s : trim (trim s) = trim s.
Proof.
  pose proof (trim_end_stuck s) as He.
  assert (untrimmed strip_prefix (trim s) = None) as Hs.
  { pose proof (trim_with_stuck strip_prefix strip_prefix_len (str_len s) s ltac:(done)) as H.
    fold (trim_start s) in H. unfold trim. apply first_some_None. intros w Hw.
    destruct (strip_prefix w (trim_end (trim_start s))) as [r|] eqn:E; [|done].
    unfold untrimmed in H. rewrite first_some_None in H. specialize (H w Hw). simpl in H.
    destruct (trim_end_prefix (str_len (trim_start s)) (trim_start s)) as [r' Hr'].
    fold (trim_end (trim_start s)) in Hr'. apply strip_prefix_Some in E.
    rewrite Hr', E, str_app_assoc, strip_prefix_app in H. done. }
  unfold trim at 1. unfold trim_start, trim_end.
  rewrite (trim_with_id strip_prefix _ (trim s)) by done. by apply trim_with_id.
Qed.

(** Printing characters are never trimmed. *)
Definition graphic (c : ascii) : bool := let n := N_of_ascii c in (33 <=? n)%N && (n <=? 126)%N.
Definition first_graphic (s : string) : bool := match s with String c _ => graphic c | EmptyString => false end.
Definition last_graphic (s : string) : bool := first_graphic (String.rev s).

Lemma not_first_graphic w s : w ∈ whitespace_codes → first_graphic s = true → strip_prefix w s = None.
Proof.
  intros Hw Hs. assert (forallb (λ w, negb (first_graphic w) && (0 <? str_len w)) whitespace_codes = true) as Hall by done.
  rewrite forallb_forall in Hall. specialize (Hall w (proj1 (list_elem_of_In _ _) Hw)).
  apply andb_true_iff in Hall as [Hg%negb_true_iff Hn]. destruct w as [|a w]; [done|].
  destruct (strip_prefix (String a w) s) as [r|] eqn:E; [|done]. apply strip_prefix_Some in E. subst s.
  rewrite str_app_cons in Hs. simpl in Hs, Hg. congruence.
Qed.
Lemma not_last_graphic w s : w ∈ whitespace_codes → last_graphic s = true → strip_suffix w s = None.
Proof.
  intros Hw Hs. assert (forallb (λ w, negb (last_graphic w) && (0 <? str_len (String.rev w))) whitespace_codes = true) as Hall by done.
  rewrite forallb_forall in Hall. specialize (Hall w (proj1 (list_elem_of_In _ _) Hw)).
  apply andb_true_iff in Hall as [Hg%negb_true_iff Hn].
  destruct (strip_suffix w s) as [r|] eqn:E; [|done]. apply strip_suffix_Some in E. subst s.
  unfold last_graphic in *. rewrite str_rev_app in Hs. destruct (String.rev w) as [|a w']; [done|].
  rewrite str_app_cons in Hs. simpl in Hs, Hg. congruence.
Qed.
Lemma trim_start_graphic s : first_graphic s = true → trim_start s = s.
Proof.
  intros Hs. apply trim_with_id, first_some_None. intros w Hw. by apply not_first_graphic.
Qed.
Lemma trim_graphic s : first_graphic s = true → last_graphic s = true → trim s = s.
Proof.
  intros Hs He. unfold trim. rewrite trim_start_graphic by done.
  apply trim_with_id, first_some_None. intros w Hw. by apply not_last_graphic.
Qed.

(** ** Lists without repetition, in order *)

Lemma elem_of_set_elems (X : gset string) x : x ∈ set_elems X ↔ x ∈ X.
Proof. unfold set_elems. by rewrite merge_sort_Permutation, elem_of_elements. Qed.
Lemma set_elems_NoDup (X : gset string) : NoDup (set_elems X).
Proof. unfold set_elems. rewrite merge_sort_Permutation. apply NoDup_elements. Qed.
Lemma list_to_set_elems (X : gset string) : list_to_set (set_elems X) = X.
Proof. apply set_eq. intros x. by rewrite elem_of_list_to_set, elem_of_set_elems. Qed.

(** ** Reversed text, the last separator, hexadecimal text as a whole *)

Lemma str_forall_rev P s : str_forall P (String.rev s) = str_forall P s.
Proof.
  induction s as [|c s IH]; [done|]. rewrite str_rev_cons, str_forall_app, IH. simpl.
  by rewrite andb_true_r, andb_comm.
Qed.
Lemma str_app_inv_head (s t u : string) : s +:+ t = s +:+ u → t = u.
Proof.
  intros E. apply (inj as_bytes). apply (f_equal as_bytes) in E. rewrite !as_bytes_app in E.
  by apply app_inv_head in E.
Qed.
Lemma split_once_app c a b :
  str_forall (λ d, negb (Ascii.eqb d c)) a = true → split_once c (a +:+ String c b) = Some (a, b).
Proof.
  induction a as [|d a IH]; intros Ha; rewrite ?str_app_nil, ?str_app_cons; simpl.
  - by rewrite decide_True.
  - simpl in Ha. bool_hyps. rewrite decide_False; [by rewrite IH|].
    intros ->. by rewrite Ascii.eqb_refl in *.
Qed.
Lemma rsplit_once_app c a b :
  str_forall (λ d, negb (Ascii.eqb d c)) b = true → rsplit_once c (a +:+ String c b) = Some (a, b).
Proof.
  intros Hb. unfold rsplit_once. replace (a +:+ String c b) with (a +:+ String c "" +:+ b) by done.
  rewrite !str_rev_app, str_app_assoc. change (String.rev (String c "")) with (String c "").
  rewrite str_app_cons, str_app_nil, split_once_app by (by rewrite str_forall_rev).
  simpl. by rewrite !str_rev_involutive.
Qed.

(** A property that holds of all texts without a separator. *)
Lemma str_forall_impl (P Q : ascii → bool) s :
  (∀ c, P c = true → Q c = true) → str_forall P s = true → str_forall Q s = true.
Proof. intros HPQ. induction s as [|c s IH]; [done|]. simpl. intros Hs. bool_hyps. by rewrite HPQ, IH. Qed.
Lemma dec_no_colon n : str_forall (λ d, negb (Ascii.eqb d ":")) (dec n) = true.
Proof. apply (str_forall_impl is_digit); [|apply dec_digits]. intros c. by destruct (Ascii.eqb_spec c ":") as [->|]. Qed.
Lemma hex_no_colon l : str_forall (λ d, negb (Ascii.eqb d ":")) (hex_encode l) = true.
Proof. apply (str_forall_impl is_hex); [|apply hex_encode_digits]. intros c. by destruct (Ascii.eqb_spec c ":") as [->|]. Qed.

(** Printing characters only, at least one. *)
Definition is_word (s : string) : bool := negb (bool_decide (s = "")) && str_forall graphic s.
Lemma word_first s : is_word s = true → first_graphic s = true.
Proof. unfold is_word. destruct s as [|c s]; [done|]. simpl. intros Hs. by bool_hyps. Qed.
Lemma word_last s t : is_word t = true → last_graphic (s +:+ t) = true.
Proof.
  unfold is_word, last_graphic. intros Ht. bool_hyps. rewrite <-str_forall_rev in Ht.
  rewrite str_rev_app. destruct (String.rev t) as [|c r] eqn:E.
  - assert (t = "") as -> by (by rewrite <-(str_rev_involutive t), E). done.
  - rewrite str_app_cons. simpl in *. by bool_hyps.
Qed.
Lemma word_trim s : is_word s = true → trim s = s.
Proof. intros Hs. apply trim_graphic; [by apply word_first|]. apply (word_last "" s Hs). Qed.
Lemma dec_word n : is_word (dec n) = true.
Proof.
  unfold is_word. apply andb_true_iff. split.
  - destruct (dec_cons n) as (d & t & _ & ->). done.
  - apply (str_forall_impl is_digit); [|apply dec_digits]. intros c Hc. by destruct c as [[] [] [] [] [] [] [] []].
Qed.

(** A hexadecimal text has no [0x] to strip. *)
Lemma strip_0x_digits s : str_forall is_hex s = true → strip_prefix "0x" s = None.
Proof.
  intros Hd. destruct (strip_prefix "0x" s) as [r|] eqn:E; [|done]. apply strip_prefix_Some in E. by rewrite E in Hd.
Qed.
Lemma strip_0x_hex l : strip_prefix "0x" (hex_encode l) = None.
Proof. apply strip_0x_digits, hex_encode_digits. Qed.

Lemma hex_encode_app l k : hex_encode (l ++ k) = hex_encode l +:+ hex_encode k.
Proof. induction l as [|c l IH]; [done|]. simpl. by rewrite !str_app_cons, IH. Qed.
Lemma last_graphic_hex s l : l ≠ [] → last_graphic (s +:+ hex_encode l) = true.
Proof.
  intros Hl. destruct l as [|b l _] using rev_ind; [done|]. unfold last_graphic.
  rewrite hex_encode_app, !str_rev_app. by destruct b.
Qed.
(** No white space in a text of digits. *)
Lemma trim_hex s : str_forall is_hex s = true → trim s = s.
Proof.
  intros Hs.
  assert (∀ w, w ∈ whitespace_codes → str_forall is_hex w = false) as Hw.
  { intros w Hw. assert (forallb (λ w, negb (str_forall is_hex w)) whitespace_codes = true) as H by done.
    rewrite forallb_forall in H. apply negb_true_iff, (H w). by apply list_elem_of_In. }
  assert (untrimmed strip_prefix s = None) as Hp.
  { apply first_some_None. intros w Hin. destruct (strip_prefix w s) as [r|] eqn:E; [|done].
    apply strip_prefix_Some in E. subst s. by rewrite str_forall_app, (Hw w Hin) in Hs. }
  unfold trim, trim_start. rewrite (trim_with_id strip_prefix _ s Hp). unfold trim_end.
  apply trim_with_id. apply first_some_None. intros w Hin.
  destruct (strip_suffix w s) as [r|] eqn:E; [|done]. apply strip_suffix_Some in E.
  subst s. by rewrite str_forall_app, (Hw w Hin), andb_false_r in Hs.
Qed.
Lemma hex_encode_trim l : trim (hex_encode l) = hex_encode l.
Proof. apply trim_hex, hex_encode_digits. Qed.

(** ** Base64: the crate [base64] *)

(** [URL_SAFE_NO_PAD]. *)
Class Base64 := { b64_encode : bytes → string; b64_decode : string → option bytes }.
(** [STANDARD]. *)
Class Base64Std := { b64_std_encode : bytes → string; b64_std_decode : string → option bytes }.
