(* ===== verification/Crypto.v ===== *)
(** * Fixed-length byte arrays and the hash functions

    [[u8; N]] is [arr N]: a list of bytes together with its length, compared by
    its bytes.  The [sha2] crate is outside the repository, so SHA-256 and
    SHA-512 are the fields of the class [Sha2]; nothing is assumed about them.
    Theorems that rest on collision resistance conclude with a disjunct
    [collides h S]: two different strings of the explicit list [S] have one hash.  [S]
    holds the strings that the code hashes, so that a run shows the pair. *)
From S2P Require Export RustStr.

(** ** Byte arrays *)

Definition arr (n : nat) : Type := dsig (λ l : bytes, length l = n).
Definition arr_bytes {n} (a : arr n) : bytes := `a.

#[export] Instance arr_eq_dec n : EqDecision (arr n).
Proof.
  intros a b. destruct (decide (arr_bytes a = arr_bytes b)) as [H|H].
  - left. by apply dsig_eq.
  - right. intros ->. done.
Defined.

Lemma arr_length {n} (a : arr n) : length (arr_bytes a) = n.
Proof. apply (proj2_dsig a). Qed.

Lemma arr_eq {n} (a b : arr n) : arr_bytes a = arr_bytes b → a = b.
Proof. intros. by apply dsig_eq. Qed.
#[export] Instance arr_bytes_inj {n} : Inj (=) (=) (@arr_bytes n).
Proof. intros a b. apply arr_eq. Qed.

(** The first [n] bytes of a list, zero-filled: [copy_from_slice] into
    [[0u8; n]]. *)
Definition pad_to (n : nat) (l : bytes) : bytes := take n (l ++ replicate n x00).
Lemma length_pad_to n l : length (pad_to n l) = n.
Proof. unfold pad_to. rewrite length_take, length_app, length_replicate. lia. Qed.
Definition to_arr (n : nat) (l : bytes) : arr n := dexist (pad_to n l) (length_pad_to n l).

Lemma to_arr_bytes n l : length l = n → arr_bytes (to_arr n l) = l.
Proof.
  intros H. unfold to_arr, arr_bytes. simpl. unfold pad_to.
  rewrite take_app_le by lia. by rewrite take_ge by lia.
Qed.

(** Bytes in 64-bit words: [bytes.chunks(8)], each chunk filled up with zeros and read
    by [f]; one word per eight bytes, so the length is enough fuel. *)
Fixpoint chunk_words (f : bytes → N) (fuel : nat) (b : bytes) : list N :=
  match fuel, b with
  | S fuel', _ :: _ => f (pad_to 8 (take 8 b)) :: chunk_words f fuel' (drop 8 b)
  | _, _ => []
  end.

Section chunk_words.
Context (f : bytes → N) (g : N → bytes) (fg : ∀ l, length l = 8 → g (f l) = l).

Lemma chunk_words_bytes fuel b :
  length b ≤ fuel →
  (∃ pad, (chunk_words f fuel b ≫= g) = b ++ pad) ∧ length (chunk_words f fuel b) = (length b + 7) / 8.
Proof using fg.
  revert b. induction fuel as [|fuel IH]; intros b Hb.
  { destruct b; simpl in *; [|lia]. split; [by exists []|done]. }
  destruct b as [|x b'] eqn:Eb; [split; [by exists []|done]|]. rewrite <-Eb in *.
  assert (length b = S (length b')) as Hlb by (by rewrite Eb).
  replace (chunk_words f (S fuel) b) with (f (pad_to 8 (take 8 b)) :: chunk_words f fuel (drop 8 b))
    by (by rewrite Eb).
  clear Eb. destruct (IH (drop 8 b)) as [[pad Hp] Hl]; [rewrite length_drop; lia|].
  cbn [mbind list_bind length]. rewrite fg by apply length_pad_to.
  fold (mbind (M:=list) g (chunk_words f fuel (drop 8 b))). rewrite Hp, Hl, length_drop. split; cycle 1.
  { replace (length b + 7) with (length b - 1 + 1 * 8) by lia. rewrite Nat.div_add by lia.
    destruct (decide (8 ≤ length b)); [replace (length b - 8 + 7) with (length b - 1) by lia; lia|].
    rewrite !Nat.div_small by lia. done. }
  destruct (decide (8 ≤ length b)) as [Hge|Hlt].
  - exists pad. unfold pad_to. rewrite take_app_le, (take_ge (take 8 b)) by (rewrite length_take; lia).
    by rewrite app_assoc, take_drop.
  - rewrite drop_ge by lia. rewrite (take_ge b) by lia. unfold pad_to.
    rewrite take_app_ge by lia. exists (take (8 - length b) (replicate 8 x00) ++ pad).
    by rewrite <-app_assoc.
Qed.

Lemma chunk_words_roundtrip b : take (length b) (chunk_words f (length b) b ≫= g) = b.
Proof using fg. destruct (chunk_words_bytes (length b) b) as [[pad ->] _]; [done|]. by rewrite take_app_length. Qed.
Lemma length_chunk_words b : N.of_nat (length (chunk_words f (length b) b)) = ((N.of_nat (length b) + 7) / 8)%N.
Proof using fg.
  rewrite (proj2 (chunk_words_bytes _ _ (le_n _))). rewrite Nat2N.inj_div, Nat2N.inj_add. done.
Qed.
End chunk_words.

(** [<[u8; N]>::try_from(slice).ok()]. *)
Definition try_arr (n : nat) (l : bytes) : option (arr n) :=
  match decide (length l = n) with
  | left H => Some (dexist l H)
  | right _ => None
  end.

Lemma try_arr_Some n l a : try_arr n l = Some a ↔ arr_bytes a = l.
Proof.
  unfold try_arr. case_decide as H.
  - split; [by intros [= <-]|]. intros E. f_equal. by apply arr_eq.
  - split; [done|]. intros <-. by rewrite arr_length in H.
Qed.

Lemma try_arr_bytes {n} (a : arr n) : try_arr n (arr_bytes a) = Some a.
Proof. by apply try_arr_Some. Qed.

(** [[u8; N]] values are ordered lexicographically by [Ord]; only used to sort. *)
Fixpoint bytes_leb (a b : bytes) : bool :=
  match a, b with
  | [], _ => true
  | _ :: _, [] => false
  | x :: a', y :: b' =>
      if (Byte.to_N x <? Byte.to_N y)%N then true
      else if (Byte.to_N x =? Byte.to_N y)%N then bytes_leb a' b' else false
  end.

Definition hash_le (a b : arr 32) : Prop := bytes_leb (arr_bytes a) (arr_bytes b) = true.
#[export] Instance hash_le_dec : RelDecision hash_le.
Proof. intros a b. unfold hash_le. apply _. Defined.

Lemma bytes_leb_refl a : bytes_leb a a = true.
Proof. induction a as [|x a IH]; [done|]. simpl. by rewrite N.ltb_irrefl, N.eqb_refl. Qed.
Lemma bytes_leb_total a b : bytes_leb a b = true ∨ bytes_leb b a = true.
Proof.
  revert b. induction a as [|x a IH]; intros [|y b]; simpl; auto.
  destruct (N.ltb_spec (Byte.to_N x) (Byte.to_N y)); [by left|].
  destruct (N.ltb_spec (Byte.to_N y) (Byte.to_N x)); [by right|].
  rewrite !(proj2 (N.eqb_eq _ _)) by lia. apply IH.
Qed.
Lemma byte_to_N_inj x y : Byte.to_N x = Byte.to_N y → x = y.
Proof. intros E. apply (f_equal Byte.of_N) in E. rewrite !Byte.of_to_N in E. by injection E. Qed.
Lemma bytes_leb_antisym a b : bytes_leb a b = true → bytes_leb b a = true → a = b.
Proof.
  revert b. induction a as [|x a IH]; intros [|y b]; simpl; try done.
  destruct (N.ltb_spec (Byte.to_N x) (Byte.to_N y)), (N.ltb_spec (Byte.to_N y) (Byte.to_N x)),
    (N.eqb_spec (Byte.to_N x) (Byte.to_N y)), (N.eqb_spec (Byte.to_N y) (Byte.to_N x)); try done; try lia.
  intros H1 H2. by rewrite (IH b), (byte_to_N_inj x y).
Qed.
Lemma bytes_leb_trans a b c : bytes_leb a b = true → bytes_leb b c = true → bytes_leb a c = true.
Proof.
  revert b c. induction a as [|x a IH]; intros [|y b] [|z c]; simpl; try done.
  destruct (N.ltb_spec (Byte.to_N x) (Byte.to_N y)), (N.ltb_spec (Byte.to_N y) (Byte.to_N z)),
    (N.ltb_spec (Byte.to_N x) (Byte.to_N z)), (N.eqb_spec (Byte.to_N x) (Byte.to_N y)),
    (N.eqb_spec (Byte.to_N y) (Byte.to_N z)), (N.eqb_spec (Byte.to_N x) (Byte.to_N z)); try done; try lia. apply IH.
Qed.
#[export] Instance hash_le_order : PartialOrder hash_le.
Proof.
  split; [split|]; unfold hash_le.
  - intros a. apply bytes_leb_refl.
  - intros a b c. apply bytes_leb_trans.
  - intros a b H1 H2. apply arr_eq. by apply bytes_leb_antisym.
Qed.
#[export] Instance hash_le_total : Total hash_le.
Proof. intros a b. apply bytes_leb_total. Qed.

(** ** Hash functions *)

Definition NodeHash : Type := arr 32.

Class Sha2 : Type := {
  sha256 : bytes → arr 32;
  sha512 : bytes → arr 64
}.

(** A collision among the strings of [S]: what an attacker must have produced to break a
    theorem below.  It is decidable, and false of a hash that is injective on [S]. *)
Definition collides {B : Type} (h : bytes → B) (S : list bytes) : Prop :=
  ∃ x y, x ∈ S ∧ y ∈ S ∧ x ≠ y ∧ h x = h y.

Section collides.
Context {B : Type} (h : bytes → B).
Implicit Types S T : list bytes.

Lemma inj_or_collides x y : h x = h y → x = y ∨ collides h [x; y].
Proof using Type.
  intros E. destruct (decide (x = y)) as [|n]; [by left|]. right. exists x, y. set_solver.
Qed.
Lemma collides_mono S T : S ⊆ T → collides h S → collides h T.
Proof using Type. intros Hs (x & y & Hx & Hy & Hn). exists x, y. auto. Qed.
Lemma collides_pair x y S : x ∈ S → y ∈ S → collides h [x; y] → collides h S.
Proof using Type. intros Hx Hy. apply collides_mono. set_solver. Qed.
Lemma collides_not_inj S :
  (∀ x y, x ∈ S → y ∈ S → h x = h y → x = y) → ¬ collides h S.
Proof using Type. intros Hi (x & y & Hx & Hy & Hn & E). auto. Qed.
#[export] Instance collides_dec `{EqDecision B} S : Decision (collides h S).
Proof using Type.
  refine (cast_if (decide (Exists (λ x, Exists (λ y, x ≠ y ∧ h x = h y) S) S)));
    setoid_rewrite Exists_exists in e || setoid_rewrite Exists_exists in n.
  - destruct e as (x & Hx & Hy). apply Exists_exists in Hy as (y & Hy & Hn). exists x, y. naive_solver.
  - intros (x & y & Hx & Hy & Hn). apply n. exists x. split; [done|]. apply Exists_exists. eauto.
Defined.
End collides.

Lemma sha256_inj_or_collides `{Sha2} (x y : bytes) :
  sha256 x = sha256 y → x = y ∨ collides sha256 [x; y].
Proof. apply inj_or_collides. Qed.
Lemma sha512_inj_or_collides `{Sha2} (x y : bytes) :
  sha512 x = sha512 y → x = y ∨ collides sha512 [x; y].
Proof. apply inj_or_collides. Qed.

(** Closes [P ∨ collides h T] from a collision among fewer strings. *)
Ltac by_collision :=
  try right;
  match goal with
  | Hc : collides _ _ |- collides _ _ => revert Hc; apply collides_mono; set_solver
  end.

(** A concrete instance for the witnesses: the first bytes of the input.  It is
    not collision resistant, and no theorem needs it to be. *)
Definition prefix_sha : Sha2 :=
  {| sha256 := λ l, to_arr 32 l; sha512 := λ l, to_arr 64 l |}.

(** Two concatenations with equally long first parts. *)
Lemma app_len_inj {A} (a a' b b' : list A) :
  length a = length a' → a ++ b = a' ++ b' → a = a' ∧ b = b'.
Proof. apply app_inj_1. Qed.
