(* ===== verification/Merkle.v ===== *)
(** * RFC 6962 transparency log: [src/src/transparency/ct6962.rs]

    Merkle tree hashes, inclusion and consistency proofs, signed tree heads.
    The recursive prover and the iterative verifier are translated as written;
    the recursive [path_root] and [consistency_roots] are the specification that
    connects them. *)
From S2P Require Export Crypto.

(** ** Data *)

Record SignedTreeHead := {
  tree_size : N;
  root_hash : NodeHash;
  timestamp_unix_secs : N;
  sig : string
}.

Record InclusionProof := {
  ip_leaf_index : N;
  ip_tree_size : N;
  ip_leaf_hash : NodeHash;
  ip_path : list NodeHash
}.

Record ConsistencyProof := {
  cp_old_size : N;
  cp_new_size : N;
  cp_path : list NodeHash
}.

#[export] Instance SignedTreeHead_eq_dec : EqDecision SignedTreeHead.
Proof. solve_decision. Defined.
#[export] Instance InclusionProof_eq_dec : EqDecision InclusionProof.
Proof. solve_decision. Defined.
#[export] Instance ConsistencyProof_eq_dec : EqDecision ConsistencyProof.
Proof. solve_decision. Defined.

(** ** Arithmetic of the code: [x & 1 == 1] and [x >>= 1] on [usize] *)

Definition odd_bit (n : N) : bool := (N.land n 1 =? 1)%N.
Definition shr1 (n : N) : N := N.shiftr n 1.

(** [while (k << 1) < n { k <<= 1 }], the fuel bounding the number of doublings. *)
Fixpoint lp2_loop (fuel : nat) (k n : nat) : nat :=
  match fuel with
  | O => k
  | S fuel' => if 2 * k <? n then lp2_loop fuel' (2 * k) n else k
  end.
Definition largest_power_of_two_less_than (n : nat) : nat :=
  if n <? 2 then 0 else lp2_loop n 1 n.

(** [usize::is_power_of_two]. *)
Definition is_power_of_two (n : N) : bool :=
  negb (n =? 0)%N && (N.land n (N.pred n) =? 0)%N.

Section ct6962.
Context `{Sha2}.

Definition leaf_hash (payload : bytes) : NodeHash := sha256 (x00 :: payload).
Definition node_hash (left right : NodeHash) : NodeHash :=
  sha256 (x01 :: arr_bytes left ++ arr_bytes right).
Definition empty_hash : NodeHash := sha256 [].

(** ** The prover *)

Fixpoint mth_fuel (fuel : nat) (leaves : list NodeHash) : NodeHash :=
  match leaves, fuel with
  | [], _ => empty_hash
  | [l], _ => l
  | l :: _, O => l
  | _, S fuel' =>
      let k := largest_power_of_two_less_than (length leaves) in
      node_hash (mth_fuel fuel' (take k leaves)) (mth_fuel fuel' (drop k leaves))
  end.
Definition merkle_tree_hash (leaves : list NodeHash) : NodeHash :=
  mth_fuel (length leaves) leaves.

Fixpoint inclusion_path_fuel (fuel : nat) (leaves : list NodeHash) (leaf_index : nat)
  : option (list NodeHash) :=
  let n := length leaves in
  if n <=? leaf_index then None
  else if n <=? 1 then Some []
  else
    match fuel with
    | O => None
    | S fuel' =>
        let k := largest_power_of_two_less_than n in
        if leaf_index <? k then
          p ← inclusion_path_fuel fuel' (take k leaves) leaf_index;
          Some (p ++ [merkle_tree_hash (drop k leaves)])
        else
          p ← inclusion_path_fuel fuel' (drop k leaves) (leaf_index - k);
          Some (p ++ [merkle_tree_hash (take k leaves)])
    end.
Definition inclusion_path (leaves : list NodeHash) (leaf_index : nat)
  : option (list NodeHash) :=
  inclusion_path_fuel (length leaves) leaves leaf_index.

Definition make_inclusion_proof (leaves : list NodeHash) (leaf_index : nat)
  : option InclusionProof :=
  path ← inclusion_path leaves leaf_index;
  leaf ← leaves !! leaf_index;
  Some {| ip_leaf_index := N.of_nat leaf_index;
          ip_tree_size := N.of_nat (length leaves);
          ip_leaf_hash := leaf;
          ip_path := path |}.

(** ** The verifier *)

(** [while fn_idx != 0 && (fn_idx & 1) == 0 { fn_idx >>= 1; sn >>= 1 }]. *)
Fixpoint strip_zeros (fuel : nat) (fn_idx sn : N) : N * N :=
  match fuel with
  | O => (fn_idx, sn)
  | S fuel' =>
      if negb (fn_idx =? 0)%N && negb (odd_bit fn_idx)
      then strip_zeros fuel' (shr1 fn_idx) (shr1 sn)
      else (fn_idx, sn)
  end.

(** The body of [for p in &proof.path]; [None] is [return false]. *)
Definition inclusion_step (st : NodeHash * N * N) (p : NodeHash)
  : option (NodeHash * N * N) :=
  let '(r, fn_idx, sn) := st in
  if (sn =? 0)%N then None
  else if odd_bit fn_idx || (fn_idx =? sn)%N then
    let r' := node_hash p r in
    let '(fn', sn') := strip_zeros (N.size_nat fn_idx) fn_idx sn in
    Some (r', shr1 fn', shr1 sn')
  else Some (node_hash r p, shr1 fn_idx, shr1 sn).

Fixpoint inclusion_loop (st : NodeHash * N * N) (path : list NodeHash)
  : option (NodeHash * N * N) :=
  match path with
  | [] => Some st
  | p :: path' => st' ← inclusion_step st p; inclusion_loop st' path'
  end.

Definition verify_inclusion_proof (proof : InclusionProof) (expected_root : NodeHash) : bool :=
  if (ip_tree_size proof =? 0)%N || (ip_tree_size proof <=? ip_leaf_index proof)%N
  then false
  else
    match inclusion_loop
            (ip_leaf_hash proof, ip_leaf_index proof, (ip_tree_size proof - 1)%N)
            (ip_path proof) with
    | Some (r, _, sn) => bool_decide (r = expected_root) && (sn =? 0)%N
    | None => false
    end.

(** ** Consistency proofs *)

Fixpoint subproof_fuel (fuel : nat) (leaves : list NodeHash) (m : nat) (b : bool)
  : list NodeHash :=
  let n := length leaves in
  if m =? n then (if b then [] else [merkle_tree_hash leaves])
  else
    match fuel with
    | O => []
    | S fuel' =>
        let k := largest_power_of_two_less_than n in
        if m <=? k then
          subproof_fuel fuel' (take k leaves) m b ++ [merkle_tree_hash (drop k leaves)]
        else
          subproof_fuel fuel' (drop k leaves) (m - k) false ++
            [merkle_tree_hash (take k leaves)]
    end.
Definition subproof (leaves : list NodeHash) (m : nat) (b : bool) : list NodeHash :=
  subproof_fuel (length leaves) leaves m b.

Definition consistency_path (leaves : list NodeHash) (old_size : nat)
  : option (list NodeHash) :=
  let n := length leaves in
  if (old_size =? 0) || (n <? old_size) then None
  else if old_size =? n then Some []
  else Some (subproof leaves old_size true).

Definition make_consistency_proof (leaves : list NodeHash) (old_size : nat)
  : option ConsistencyProof :=
  path ← consistency_path leaves old_size;
  Some {| cp_old_size := N.of_nat old_size;
          cp_new_size := N.of_nat (length leaves);
          cp_path := path |}.

(** [while (fn_idx & 1) == 1 { fn_idx >>= 1; sn >>= 1 }]. *)
Fixpoint strip_ones (fuel : nat) (fn_idx sn : N) : N * N :=
  match fuel with
  | O => (fn_idx, sn)
  | S fuel' =>
      if odd_bit fn_idx then strip_ones fuel' (shr1 fn_idx) (shr1 sn) else (fn_idx, sn)
  end.

(** The body of [for c in &consistency_path[1..]]. *)
Definition consistency_step (st : NodeHash * NodeHash * N * N) (c : NodeHash)
  : option (NodeHash * NodeHash * N * N) :=
  let '(fr, sr, fn_idx, sn) := st in
  if (sn =? 0)%N then None
  else if odd_bit fn_idx || (fn_idx =? sn)%N then
    let '(fn', sn') :=
      if negb (odd_bit fn_idx) then strip_zeros (N.size_nat fn_idx) fn_idx sn
      else (fn_idx, sn) in
    Some (node_hash c fr, node_hash c sr, shr1 fn', shr1 sn')
  else Some (fr, node_hash sr c, shr1 fn_idx, shr1 sn).

Fixpoint consistency_loop (st : NodeHash * NodeHash * N * N) (path : list NodeHash)
  : option (NodeHash * NodeHash * N * N) :=
  match path with
  | [] => Some st
  | c :: path' => st' ← consistency_step st c; consistency_loop st' path'
  end.

Definition verify_consistency_proof (proof : ConsistencyProof) (old_root new_root : NodeHash)
  : bool :=
  let old_size := cp_old_size proof in
  let new_size := cp_new_size proof in
  if (old_size =? 0)%N || (new_size =? 0)%N || (new_size <? old_size)%N then false
  else if (old_size =? new_size)%N then
    bool_decide (old_root = new_root) && bool_decide (cp_path proof = [])
  else
    let path := (if is_power_of_two old_size then [old_root] else []) ++ cp_path proof in
    match path with
    | [] => false
    | c0 :: rest =>
        let '(fn_idx, sn) :=
          strip_ones (N.size_nat (old_size - 1)) (old_size - 1) (new_size - 1) in
        match consistency_loop (c0, c0, fn_idx, sn) rest with
        | Some (fr, sr, _, sn') =>
            bool_decide (fr = old_root) && bool_decide (sr = new_root) && (sn' =? 0)%N
        | None => false
        end
    end.

(** ** Signed tree heads *)

Definition sth_signature (size : N) (root : NodeHash) (ts : N) : string :=
  let msg := "nucleusdb.ct.sth.sig.v1|size=" +:+ dec size +:+ "|root=" +:+
               hex_encode (arr_bytes root) +:+ "|ts=" +:+ dec ts in
  hex_encode (arr_bytes (sha256 (as_bytes msg))).

Definition make_sth (leaves : list NodeHash) (ts : N) : SignedTreeHead :=
  let root := merkle_tree_hash leaves in
  let size := N.of_nat (length leaves) in
  {| tree_size := size; root_hash := root; timestamp_unix_secs := ts;
     sig := sth_signature size root ts |}.
End ct6962.

(** ** Powers of two and the split point *)

Inductive pow2 : N → Prop :=
| pow2_1 : pow2 1
| pow2_2 P : pow2 P → pow2 (2 * P).

Lemma pow2_pos P : pow2 P → (1 ≤ P)%N.
Proof. induction 1; lia. Qed.

Lemma pow2_inv P : pow2 P → P = 1%N ∨ ∃ Q, pow2 Q ∧ P = (2 * Q)%N.
Proof. destruct 1; [by left|right; eauto]. Qed.

Lemma odd_bit_mod n : odd_bit n = (n mod 2 =? 1)%N.
Proof.
  unfold odd_bit. change 1%N with (N.ones 1) at 1.
  by rewrite N.land_ones.
Qed.
Lemma shr1_div n : shr1 n = (n / 2)%N.
Proof. unfold shr1. by rewrite N.shiftr_div_pow2. Qed.

(** Between two powers of two there is room for a factor of two. *)
Lemma pow2_lt P Q : pow2 P → pow2 Q → (P < Q)%N → (2 * P ≤ Q)%N.
Proof.
  intros HP. revert Q. induction HP as [|P HP IH]; intros Q HQ Hlt.
  - destruct (pow2_inv Q HQ) as [->|(Q' & HQ' & ->)]; [lia|].
    pose proof (pow2_pos _ HQ'). lia.
  - destruct (pow2_inv Q HQ) as [->|(Q' & HQ' & ->)]; [lia|].
    assert (P < Q')%N by lia. pose proof (IH Q' HQ'). lia.
Qed.

Lemma lp2_loop_spec fuel k n :
  pow2 (N.of_nat k) → k < n → n ≤ k + fuel →
  pow2 (N.of_nat (lp2_loop fuel k n)) ∧
  lp2_loop fuel k n < n ≤ 2 * lp2_loop fuel k n.
Proof.
  revert k. induction fuel as [|fuel IH]; intros k Hk Hlt Hf; simpl; [lia|].
  pose proof (pow2_pos _ Hk).
  destruct (Nat.ltb_spec (k + (k + 0)) n).
  - apply IH; [|lia..]. replace (N.of_nat _) with (2 * N.of_nat k)%N by lia.
    by constructor.
  - split; [done|]. lia.
Qed.

(** The loop of [largest_power_of_two_less_than] terminates within its fuel on
    the largest power of two strictly below [n]. *)
Lemma lp2_spec n :
  2 ≤ n →
  let k := largest_power_of_two_less_than n in
  pow2 (N.of_nat k) ∧ 1 ≤ k ∧ k < n ∧ n ≤ 2 * k.
Proof.
  intros Hn. simpl. unfold largest_power_of_two_less_than.
  destruct (Nat.ltb_spec n 2); [lia|].
  destruct (lp2_loop_spec n 1 n) as [Hp Hb]; [constructor|lia|lia|].
  pose proof (pow2_pos _ Hp). repeat split; [done|lia..].
Qed.

Lemma lp2_unique n k :
  pow2 (N.of_nat k) → k < n → n ≤ 2 * k → largest_power_of_two_less_than n = k.
Proof.
  intros Hk H1 H2. pose proof (pow2_pos _ Hk).
  destruct (lp2_spec n) as (Hp & ? & ? & ?); [lia|].
  set (k' := largest_power_of_two_less_than n) in *.
  destruct (Nat.lt_trichotomy k k') as [Hlt|[?|Hlt]]; [|done|].
  - pose proof (pow2_lt _ _ Hk Hp). lia.
  - pose proof (pow2_lt _ _ Hp Hk). lia.
Qed.

(** ** The shape of a verifier run

    The directions a verifier takes depend only on the index and the size:
    [shape_step] is one iteration without the hashes. [true] puts the path
    element on the left. *)

Definition shape_step (fn_idx sn : N) : option (bool * N * N) :=
  if (sn =? 0)%N then None
  else if odd_bit fn_idx || (fn_idx =? sn)%N then
    let '(fn', sn') := strip_zeros (N.size_nat fn_idx) fn_idx sn in
    Some (true, shr1 fn', shr1 sn')
  else Some (false, shr1 fn_idx, shr1 sn).

Inductive run : N → N → list bool → N → N → Prop :=
| run_nil f s : run f s [] f s
| run_cons f s d f1 s1 ds f2 s2 :
    shape_step f s = Some (d, f1, s1) → run f1 s1 ds f2 s2 →
    run f s (d :: ds) f2 s2.

Lemma run_app f s ds1 f1 s1 ds2 f2 s2 :
  run f s ds1 f1 s1 → run f1 s1 ds2 f2 s2 → run f s (ds1 ++ ds2) f2 s2.
Proof. induction 1; simpl; eauto using run. Qed.

Lemma run_split f s ds1 ds2 f2 s2 :
  run f s (ds1 ++ ds2) f2 s2 → ∃ f1 s1, run f s ds1 f1 s1 ∧ run f1 s1 ds2 f2 s2.
Proof.
  revert f s. induction ds1 as [|d ds1 IH]; simpl; intros f s Hr.
  - eauto using run.
  - inversion Hr; subst. edestruct IH as (? & ? & ? & ?); [done|]. eauto 10 using run.
Qed.

Lemma strip_zeros_odd fuel f s : (f mod 2 = 1)%N → strip_zeros fuel f s = (f, s).
Proof.
  intros Ho. destruct fuel; simpl; [done|].
  rewrite odd_bit_mod, Ho. simpl. by rewrite andb_false_r.
Qed.

Lemma size_nat_bound f : (f < 2 ^ N.of_nat (N.size_nat f))%N.
Proof.
  destruct f as [|p]; [done|]. simpl N.size_nat.
  induction p as [p IH|p IH|]; cbn [Pos.size_nat]; [| |done];
    rewrite Nat2N.inj_succ, N.pow_succ_r'; lia.
Qed.

(** Stripping trailing zeros of [f] and of [P + f] with [f < P] goes in step, and
    the fuel of the code's loop is enough for both. *)
Lemma strip_zeros_shift fuel fuel' f s P :
  pow2 P → (0 < f)%N → (f < P)%N → (f ≤ s < P)%N →
  (f < 2 ^ N.of_nat fuel)%N → (P + f < 2 ^ N.of_nat fuel')%N →
  ∃ f1 s1 Q, strip_zeros fuel f s = (f1, s1) ∧
    strip_zeros fuel' (P + f) (P + s) = (Q + f1, Q + s1)%N ∧
    pow2 Q ∧ (f1 mod 2 = 1)%N ∧ (f1 ≤ s1 < Q)%N ∧ (0 < f1)%N.
Proof.
  revert fuel' f s P. induction fuel as [|fuel IH];
    intros fuel' f s P HP Hf HfP Hs Hb Hb'; [change (2 ^ N.of_nat 0)%N with 1%N in Hb; lia|].
  destruct (pow2_inv _ HP) as [->|(P' & HP' & ->)]; [lia|].
  destruct fuel' as [|fuel']; [change (2 ^ N.of_nat 0)%N with 1%N in Hb'; lia|].
  rewrite Nat2N.inj_succ, N.pow_succ_r' in Hb, Hb'.
  simpl. rewrite !odd_bit_mod, !shr1_div.
  replace ((2 * P' + f) mod 2)%N with (f mod 2)%N by lia_div.
  destruct (N.eqb_spec f 0); [lia|]. destruct (N.eqb_spec (2 * P' + f) 0); [lia|].
  destruct (N.eqb_spec (f mod 2) 1) as [Ho|He]; simpl.
  - exists f, s, (2 * P')%N. repeat split; [done..|lia|lia|lia].
  - replace ((2 * P' + f) / 2)%N with (P' + f / 2)%N by lia_div.
    replace ((2 * P' + s) / 2)%N with (P' + s / 2)%N by lia_div.
    apply IH; [done|lia_div..].
Qed.

Lemma strip_zeros_pow2 fuel P :
  pow2 P → (P < 2 ^ N.of_nat fuel)%N → strip_zeros fuel P P = (1, 1)%N.
Proof.
  intros HP. revert fuel. induction HP as [|P HP IH]; intros fuel Hb.
  - by apply strip_zeros_odd.
  - pose proof (pow2_pos _ HP).
    destruct fuel as [|fuel]; [change (2 ^ N.of_nat 0)%N with 1%N in Hb; lia|].
    rewrite Nat2N.inj_succ, N.pow_succ_r' in Hb.
    cbn [strip_zeros]. rewrite odd_bit_mod, shr1_div.
    replace ((2 * P) mod 2)%N with 0%N by lia_div.
    replace (2 * P / 2)%N with P by lia_div.
    destruct (N.eqb_spec (2 * P) 0); [lia|]. simpl. apply IH. lia.
Qed.

(** *** The three cases of a step *)

Lemma shape_step_done f d : shape_step f 0 ≠ Some d.
Proof. done. Qed.

Lemma shape_step_odd f s :
  (s ≠ 0)%N → (f mod 2 = 1)%N → shape_step f s = Some (true, f / 2, s / 2)%N.
Proof.
  intros Hs Ho. unfold shape_step. destruct (N.eqb_spec s 0); [done|].
  by rewrite odd_bit_mod, Ho, strip_zeros_odd, !shr1_div.
Qed.

Lemma shape_step_even f s :
  (s ≠ 0)%N → (f mod 2 = 0)%N → f ≠ s → shape_step f s = Some (false, f / 2, s / 2)%N.
Proof.
  intros Hs Ho Hne. unfold shape_step. destruct (N.eqb_spec s 0); [done|].
  rewrite odd_bit_mod, Ho, !shr1_div. by destruct (N.eqb_spec f s).
Qed.

Lemma shape_step_pow2 P : pow2 P → shape_step P P = Some (true, 0, 0)%N.
Proof.
  intros HP. pose proof (pow2_pos _ HP). unfold shape_step.
  destruct (N.eqb_spec P 0); [lia|]. rewrite N.eqb_refl, orb_true_r.
  rewrite strip_zeros_pow2; [done..|]. apply size_nat_bound.
Qed.

(** *** A run in a subtree is a run in the tree *)

(** The left subtree is complete: a run for it goes on in the larger tree up to
    the root of the left subtree. *)
Lemma run_left f ds fe s' P :
  pow2 P → (f < P)%N → (P ≤ s' < 2 * P)%N → run f (P - 1) ds fe 0 →
  run f s' ds 0 1.
Proof.
  revert f s' P. induction ds as [|d ds IH]; intros f s' P HP Hf Hs Hr;
    inversion Hr as [|? ? ? f1 s1 ? ? ? Hst Hr']; subst.
  - assert (P = 1)%N as -> by lia. replace fe with 0%N by lia. replace s' with 1%N by lia.
    constructor.
  - destruct (pow2_inv _ HP) as [->|(Q & HQ & ->)]; [done|].
    pose proof (pow2_pos _ HQ).
    assert (f mod 2 = 0 ∨ f mod 2 = 1)%N as [He|Ho] by lia_div.
    + assert (shape_step f (2 * Q - 1) = Some (false, f / 2, (2 * Q - 1) / 2)%N) as E
        by (apply shape_step_even; [lia|done|intros ->; lia_div]).
      rewrite E in Hst. injection Hst as <- <- <-.
      econstructor; [apply shape_step_even; [lia|done|lia]|].
      apply (IH _ _ Q); [done|lia_div|lia_div|].
      by replace (Q - 1)%N with ((2 * Q - 1) / 2)%N by lia_div.
    + rewrite shape_step_odd in Hst by (done || lia). injection Hst as <- <- <-.
      econstructor; [apply shape_step_odd; [lia|done]|].
      apply (IH _ _ Q); [done|lia_div|lia_div|].
      by replace (Q - 1)%N with ((2 * Q - 1) / 2)%N by lia_div.
Qed.

(** A step of the right subtree, seen in the tree. *)
Lemma shape_step_right f s d f1 s1 P :
  pow2 P → (f ≤ s < P)%N → shape_step f s = Some (d, f1, s1) →
  ∃ Q, pow2 Q ∧ (f1 ≤ s1 < Q)%N ∧
    shape_step (P + f) (P + s) = Some (d, Q + f1, Q + s1)%N.
Proof.
  intros HP Hs. unfold shape_step.
  destruct (N.eqb_spec s 0); [done|]. destruct (N.eqb_spec (P + s) 0); [lia|].
  destruct (pow2_inv _ HP) as [->|(Q & HQ & HPQ)]; [lia|].
  rewrite !odd_bit_mod. replace ((P + f) mod 2)%N with (f mod 2)%N by (subst; lia_div).
  replace (P + f =? P + s)%N with (f =? s)%N
    by (destruct (N.eqb_spec f s), (N.eqb_spec (P + f) (P + s)); lia).
  destruct (_ || _) eqn:Hc.
  - assert (0 < f)%N as Hf.
    { apply orb_true_iff in Hc as [?%N.eqb_eq|?%N.eqb_eq]; [|lia].
      destruct (N.eq_dec f 0%N) as [->|]; [done|lia]. }
    destruct (strip_zeros_shift (N.size_nat f) (N.size_nat (P + f)) f s P)
      as (g & t & R & -> & -> & HR & Hodd & Hb & Hg); [done|lia|lia|lia|apply size_nat_bound..|].
    intros [= <- <- <-]. destruct (pow2_inv _ HR) as [->|(R' & HR' & ->)]; [lia|].
    exists R'. rewrite !shr1_div. split_and!; [done|lia_div..|].
    do 2 f_equal; [|lia_div]. f_equal. lia_div.
  - intros [= <- <- <-]. exists Q. rewrite !shr1_div. subst P.
    split_and!; [done|lia_div..|]. do 2 f_equal; [|lia_div]. f_equal. lia_div.
Qed.

Lemma run_right f s ds fe P :
  pow2 P → (f ≤ s < P)%N → run f s ds fe 0 →
  ∃ Q, pow2 Q ∧ run (P + f) (P + s) ds Q Q.
Proof.
  revert f s P. induction ds as [|d ds IH]; intros f s P HP Hs Hr;
    inversion Hr as [|? ? ? f1 s1 ? ? ? Hst Hr']; subst.
  - exists P. split; [done|]. replace fe with 0%N by lia. rewrite N.add_0_r. constructor.
  - destruct (shape_step_right _ _ _ _ _ _ HP Hs Hst) as (Q & HQ & Hb & Hst').
    destruct (IH _ _ _ HQ Hb Hr') as (R & HR & ?). eauto using run.
Qed.

Lemma run_det f s ds1 f1 ds2 f2 :
  run f s ds1 f1 0 → run f s ds2 f2 0 → ds1 = ds2.
Proof.
  intros Hr1. remember 0%N as z eqn:Hz. revert ds2 f2.
  induction Hr1 as [f s|f s d g t ds f3 s3 Hst Hr1 IH]; intros ds2 f2 Hr2; subst;
    inversion Hr2 as [|? ? ? g' t' ? ? ? Hst' Hr2']; subst; [done|done| |].
  - done.
  - rewrite Hst in Hst'. injection Hst' as <- <- <-. f_equal. eauto.
Qed.

(** The directions from a leaf up to the root, top down as the prover splits. *)
Inductive split_dirs : nat → nat → list bool → Prop :=
| sd_leaf : split_dirs 1 0 []
| sd_left n m ds :
    2 ≤ n → m < largest_power_of_two_less_than n →
    split_dirs (largest_power_of_two_less_than n) m ds →
    split_dirs n m (ds ++ [false])
| sd_right n m ds :
    2 ≤ n → largest_power_of_two_less_than n ≤ m → m < n →
    split_dirs (n - largest_power_of_two_less_than n)
               (m - largest_power_of_two_less_than n) ds →
    split_dirs n m (ds ++ [true]).

Lemma split_dirs_total n m : m < n → ∃ ds, split_dirs n m ds.
Proof.
  revert m. induction (lt_wf n) as [n _ IH]; intros m Hm.
  destruct (decide (n = 1)) as [->|].
  { assert (m = 0) as -> by lia. eexists. constructor. }
  destruct (lp2_spec n) as (Hp & ? & ? & ?); [lia|].
  destruct (decide (m < largest_power_of_two_less_than n)) as [Hl|Hl].
  - destruct (IH (largest_power_of_two_less_than n)) with m as [ds Hds]; [lia..|].
    eexists. apply sd_left; [lia|done|done].
  - destruct (IH (n - largest_power_of_two_less_than n))
      with (m - largest_power_of_two_less_than n) as [ds Hds]; [lia..|].
    eexists. apply sd_right; [lia|lia|lia|done].
Qed.

(** The bit-level walk of the verifier follows the prover's splits. *)
Lemma split_dirs_run n m ds :
  split_dirs n m ds → ∃ f, run (N.of_nat m) (N.of_nat n - 1) ds f 0.
Proof.
  induction 1 as [|n m ds Hn Hm Hd [f IH]|n m ds Hn Hm Hlt Hd [f IH]].
  - eexists. constructor.
  - destruct (lp2_spec n) as (Hp & ? & ? & ?); [lia|].
    exists 0%N. eapply run_app; [eapply (run_left _ _ _ _ _ Hp); [lia|lia|done]|].
    econstructor; [|constructor]. by apply shape_step_even.
  - destruct (lp2_spec n) as (Hp & ? & ? & ?); [lia|].
    destruct (run_right (N.of_nat (m - largest_power_of_two_less_than n))
      (N.of_nat (n - largest_power_of_two_less_than n) - 1) ds f _ Hp) as (Q & HQ & Hr);
      [lia|done|].
    exists 0%N. eapply run_app.
    + replace (N.of_nat m) with (N.of_nat (largest_power_of_two_less_than n) +
        N.of_nat (m - largest_power_of_two_less_than n))%N by lia.
      replace (N.of_nat n - 1)%N with (N.of_nat (largest_power_of_two_less_than n) +
        (N.of_nat (n - largest_power_of_two_less_than n) - 1))%N by lia.
      exact Hr.
    + econstructor; [by apply shape_step_pow2|constructor].
Qed.

(** ** Correctness of the prover and the verifier *)

Section correctness.
Context `{Sha2}.
Implicit Types leaves : list NodeHash.

(** The strings that the prover and the verifiers hash. *)
Definition node_input (left right : NodeHash) : bytes := x01 :: arr_bytes left ++ arr_bytes right.
Fixpoint mth_strings (fuel : nat) (leaves : list NodeHash) : list bytes :=
  match leaves, fuel with
  | [], _ => [[]]
  | [_], _ | _, O => []
  | _, S fuel' =>
      let k := largest_power_of_two_less_than (length leaves) in
      node_input (mth_fuel fuel' (take k leaves)) (mth_fuel fuel' (drop k leaves)) ::
        mth_strings fuel' (take k leaves) ++ mth_strings fuel' (drop k leaves)
  end.
Definition tree_strings (leaves : list NodeHash) : list bytes := mth_strings (length leaves) leaves.
Fixpoint inclusion_loop_strings (st : NodeHash * N * N) (path : list NodeHash) : list bytes :=
  match path with
  | [] => []
  | p :: path' =>
      let '(r, fn_idx, sn) := st in
      (if odd_bit fn_idx || (fn_idx =? sn)%N then node_input p r else node_input r p) ::
        match inclusion_step st p with Some st' => inclusion_loop_strings st' path' | None => [] end
  end.
Definition inclusion_strings (proof : InclusionProof) : list bytes :=
  inclusion_loop_strings (ip_leaf_hash proof, ip_leaf_index proof, (ip_tree_size proof - 1)%N) (ip_path proof).

Lemma node_hash_inj a b c d :
  node_hash a b = node_hash c d → (a = c ∧ b = d) ∨ collides sha256 [node_input a b; node_input c d].
Proof.
  intros [E|?]%sha256_inj_or_collides; [left|by right].
  injection E as E. apply app_len_inj in E as [Ea Eb]; [|by rewrite !arr_length].
  split; by apply arr_eq.
Qed.

Lemma mth_fuel_S fuel leaves :
  2 ≤ length leaves →
  let k := largest_power_of_two_less_than (length leaves) in
  mth_fuel (S fuel) leaves =
    node_hash (mth_fuel fuel (take k leaves)) (mth_fuel fuel (drop k leaves)).
Proof. intros Hl. destruct leaves as [|? [|??]]; [simpl in Hl; lia..|]. reflexivity. Qed.

Lemma mth_fuel_enough fuel fuel' leaves :
  length leaves ≤ fuel → length leaves ≤ fuel' → mth_fuel fuel leaves = mth_fuel fuel' leaves.
Proof.
  revert fuel' leaves. induction fuel as [|fuel IH]; intros fuel' leaves Hf Hf'.
  { by destruct leaves, fuel'; simpl in *; try lia. }
  destruct leaves as [|l1 [|l2 ls]]; [by destruct fuel'..|].
  destruct fuel' as [|fuel']; [simpl in *; lia|].
  cbn [mth_fuel]. set (leaves := l1 :: l2 :: ls) in *.
  destruct (lp2_spec (length leaves)) as (_ & ? & ? & ?); [subst leaves; simpl; lia|].
  f_equal; apply IH; rewrite ?length_take, ?length_drop; lia.
Qed.

Lemma merkle_tree_hash_split leaves :
  2 ≤ length leaves →
  let k := largest_power_of_two_less_than (length leaves) in
  merkle_tree_hash leaves =
    node_hash (merkle_tree_hash (take k leaves)) (merkle_tree_hash (drop k leaves)).
Proof.
  intros Hn k. destruct (lp2_spec (length leaves)) as (_ & ? & ? & ?); [done|].
  unfold merkle_tree_hash at 1. destruct (length leaves) as [|n] eqn:Hl; [lia|].
  rewrite mth_fuel_S, Hl by lia. fold k. unfold merkle_tree_hash.
  f_equal; apply mth_fuel_enough; rewrite ?length_take, ?length_drop; lia.
Qed.

Lemma mth_strings_enough fuel fuel' leaves :
  length leaves ≤ fuel → length leaves ≤ fuel' → mth_strings fuel leaves = mth_strings fuel' leaves.
Proof.
  revert fuel' leaves. induction fuel as [|fuel IH]; intros fuel' leaves Hf Hf'.
  { by destruct leaves, fuel'; simpl in *; try lia. }
  destruct leaves as [|l1 [|l2 ls]]; [by destruct fuel'..|].
  destruct fuel' as [|fuel']; [simpl in *; lia|].
  cbn [mth_strings]. set (leaves := l1 :: l2 :: ls) in *.
  destruct (lp2_spec (length leaves)) as (_ & ? & ? & ?); [subst leaves; simpl; lia|].
  f_equal; [f_equal; apply mth_fuel_enough|f_equal; apply IH]; rewrite ?length_take, ?length_drop; lia.
Qed.
Lemma mth_strings_S fuel leaves :
  2 ≤ length leaves →
  let k := largest_power_of_two_less_than (length leaves) in
  mth_strings (S fuel) leaves =
    node_input (mth_fuel fuel (take k leaves)) (mth_fuel fuel (drop k leaves)) ::
      mth_strings fuel (take k leaves) ++ mth_strings fuel (drop k leaves).
Proof. intros Hl. destruct leaves as [|? [|??]]; [simpl in Hl; lia..|]. reflexivity. Qed.
Lemma tree_strings_split leaves :
  2 ≤ length leaves →
  let k := largest_power_of_two_less_than (length leaves) in
  tree_strings leaves =
    node_input (merkle_tree_hash (take k leaves)) (merkle_tree_hash (drop k leaves)) ::
      tree_strings (take k leaves) ++ tree_strings (drop k leaves).
Proof.
  intros Hn k. destruct (lp2_spec (length leaves)) as (_ & ? & ? & ?); [done|].
  unfold tree_strings at 1. destruct (length leaves) as [|n] eqn:Hl; [lia|].
  rewrite mth_strings_S, Hl by lia. fold k. unfold merkle_tree_hash, tree_strings.
  f_equal; [f_equal; apply mth_fuel_enough|f_equal; apply mth_strings_enough];
    rewrite ?length_take, ?length_drop; lia.
Qed.

(** Two equally long leaf lists with one root are equal, or SHA-256 collides. *)
Lemma merkle_tree_hash_inj l1 l2 :
  length l1 = length l2 → merkle_tree_hash l1 = merkle_tree_hash l2 →
  l1 = l2 ∨ collides sha256 (tree_strings l1 ++ tree_strings l2).
Proof.
  remember (length l1) as n eqn:Hn. revert l1 l2 Hn.
  induction (lt_wf n) as [n _ IH]; intros l1 l2 Hn Hl.
  destruct (decide (n ≤ 1)).
  { destruct l1 as [|x [|??]], l2 as [|y [|??]]; simpl in *; try lia; [by left|].
    cbv [merkle_tree_hash mth_fuel length]. intros ->. by left. }
  destruct (lp2_spec n) as (_ & ? & ? & ?); [lia|].
  rewrite (merkle_tree_hash_split l1), (merkle_tree_hash_split l2), <-Hn, <-Hl by lia.
  rewrite (tree_strings_split l1), (tree_strings_split l2), <-Hn, <-Hl by lia.
  set (k := largest_power_of_two_less_than n) in *.
  intros [[E1 E2]|?]%node_hash_inj; [|by_collision].
  destruct (IH k) with (take k l1) (take k l2) as [E3|?]; [lia| | |done| |by_collision];
    [rewrite length_take; lia..|].
  destruct (IH (n - k)) with (drop k l1) (drop k l2) as [E4|?]; [lia| | |done| |by_collision];
    [rewrite length_drop; lia..|].
  left. by rewrite <-(take_drop k l1), <-(take_drop k l2), E3, E4.
Qed.

Lemma inclusion_path_fuel_enough fuel fuel' leaves i :
  length leaves ≤ fuel → length leaves ≤ fuel' →
  inclusion_path_fuel fuel leaves i = inclusion_path_fuel fuel' leaves i.
Proof.
  revert fuel' leaves i. induction fuel as [|fuel IH]; intros fuel' leaves i Hf Hf'.
  { destruct leaves, fuel'; simpl in *; by try lia. }
  destruct fuel' as [|fuel']; [by destruct leaves; simpl in *; try lia|].
  cbn [inclusion_path_fuel]. destruct (_ <=? i); [done|].
  destruct (Nat.leb_spec (length leaves) 1); [done|].
  destruct (lp2_spec (length leaves)) as (_ & ? & ? & ?); [lia|].
  destruct (i <? _);
    (erewrite IH; [reflexivity| |]); rewrite ?length_take, ?length_drop; lia.
Qed.

Lemma inclusion_path_split leaves i :
  2 ≤ length leaves → i < length leaves →
  let k := largest_power_of_two_less_than (length leaves) in
  inclusion_path leaves i =
    if i <? k
    then (λ p, p ++ [merkle_tree_hash (drop k leaves)]) <$> inclusion_path (take k leaves) i
    else (λ p, p ++ [merkle_tree_hash (take k leaves)]) <$>
           inclusion_path (drop k leaves) (i - k).
Proof.
  intros Hn Hi k. destruct (lp2_spec (length leaves)) as (_ & ? & ? & ?); [done|].
  unfold inclusion_path at 1. destruct (length leaves) as [|n] eqn:Hl; [lia|].
  cbn [inclusion_path_fuel]. rewrite Hl. fold k.
  destruct (Nat.leb_spec (S n) i); [lia|]. destruct (Nat.leb_spec (S n) 1); [lia|].
  unfold inclusion_path.
  destruct (i <? k).
  - rewrite (inclusion_path_fuel_enough n (length (take k leaves)));
      [|rewrite length_take; lia..]. by destruct (inclusion_path_fuel _ _ _).
  - rewrite (inclusion_path_fuel_enough n (length (drop k leaves)));
      [|rewrite length_drop; lia..]. by destruct (inclusion_path_fuel _ _ _).
Qed.

(** The hashes of a run: combine with the path elements in the directions [ds]. *)
Definition join (d : bool) (p r : NodeHash) : NodeHash :=
  if d then node_hash p r else node_hash r p.
Definition climb (r : NodeHash) (ds : list bool) (path : list NodeHash) : NodeHash :=
  foldl (λ r '(d, p), join d p r) r (zip ds path).
Definition join_input (d : bool) (p r : NodeHash) : bytes :=
  if d then node_input p r else node_input r p.
Fixpoint climb_strings (r : NodeHash) (ds : list bool) (path : list NodeHash) : list bytes :=
  match ds, path with
  | d :: ds', p :: path' => join_input d p r :: climb_strings (join d p r) ds' path'
  | _, _ => []
  end.
Lemma climb_strings_snoc r ds path d p :
  length ds = length path →
  climb_strings r (ds ++ [d]) (path ++ [p]) = climb_strings r ds path ++ [join_input d p (climb r ds path)].
Proof.
  revert r path. induction ds as [|e ds IH]; intros r [|q path] Hl; try done.
  simpl in *. f_equal. apply IH. lia.
Qed.

Lemma climb_snoc r ds path d p :
  length ds = length path → climb r (ds ++ [d]) (path ++ [p]) = join d p (climb r ds path).
Proof.
  intros Hl. unfold climb. rewrite zip_with_app by done. by rewrite foldl_app.
Qed.

Lemma inclusion_step_shape r f s p :
  inclusion_step (r, f, s) p =
    '(d, f', s') ← shape_step f s; Some (join d p r, f', s').
Proof.
  unfold inclusion_step, shape_step. destruct (s =? 0)%N; [done|].
  destruct (_ || _); [|done]. by destruct (strip_zeros _ _ _).
Qed.

Lemma inclusion_loop_run r f s path r' f' s' :
  inclusion_loop (r, f, s) path = Some (r', f', s') ↔
  ∃ ds, length ds = length path ∧ run f s ds f' s' ∧ r' = climb r ds path.
Proof.
  revert r f s. induction path as [|p path IH]; intros r f s; cbn [inclusion_loop].
  - split.
    + intros [= <- <- <-]. exists []. split_and!; [done|constructor|done].
    + intros ([|??] & ? & Hr & ->); [|done]. by inversion Hr.
  - rewrite inclusion_step_shape. split.
    + destruct (shape_step f s) as [[[d g] t]|] eqn:Hst; [|done]. simpl.
      intros (ds & Hl & Hr & ->)%IH. exists (d :: ds).
      split_and!; [simpl; lia|by econstructor|done].
    + intros ([|d ds] & Hl & Hr & ->); [done|].
      inversion Hr as [|? ? ? g t ? ? ? Hst Hr']; subst. rewrite Hst. simpl.
      apply IH. exists ds. split_and!; [simpl in *; lia|done|done].
Qed.
Lemma inclusion_loop_run_strings r f s path ds f' s' :
  length ds = length path → run f s ds f' s' → inclusion_loop_strings (r, f, s) path = climb_strings r ds path.
Proof.
  revert r f s path. induction ds as [|d ds IH]; intros r f s [|p path] Hl Hr; try done.
  inversion Hr as [|? ? ? g t ? ? ? Hst Hr']; subst. cbn [inclusion_loop_strings climb_strings].
  rewrite inclusion_step_shape, Hst. simpl. rewrite (IH _ g t path) by (done || (simpl in *; lia)).
  f_equal. revert Hst. unfold shape_step. destruct (s =? 0)%N; [done|].
  destruct (_ || _); [by destruct (strip_zeros _ _ _); intros [= <- _ _]|by intros [= <- _ _]].
Qed.

(** The verifier accepts exactly the paths that climb to the root. *)
Lemma verify_inclusion_proof_climb proof root ds :
  split_dirs (N.to_nat (ip_tree_size proof)) (N.to_nat (ip_leaf_index proof)) ds →
  (ip_leaf_index proof < ip_tree_size proof)%N →
  verify_inclusion_proof proof root = true ↔
    length ds = length (ip_path proof) ∧ climb (ip_leaf_hash proof) ds (ip_path proof) = root.
Proof.
  intros Hds Hlt. destruct (split_dirs_run _ _ _ Hds) as [f Hrun].
  rewrite !N2Nat.id in Hrun. unfold verify_inclusion_proof.
  destruct (N.eqb_spec (ip_tree_size proof) 0); [lia|].
  destruct (N.leb_spec (ip_tree_size proof) (ip_leaf_index proof)); [lia|]. simpl. split.
  - destruct (inclusion_loop _ _) as [[[r g] t]|] eqn:Hloop; [|done].
    intros Ht. bool_hyps. subst. apply inclusion_loop_run in Hloop as (ds' & Hl & Hr & ->).
    by rewrite (run_det _ _ _ _ _ _ Hrun Hr).
  - intros [Hl <-].
    rewrite (proj2 (inclusion_loop_run _ _ _ _ (climb (ip_leaf_hash proof) ds (ip_path proof)) f 0));
      [|by exists ds].
    by rewrite bool_decide_eq_true_2.
Qed.

Lemma inclusion_path_climb leaves i ds :
  split_dirs (length leaves) i ds →
  ∃ path leaf, inclusion_path leaves i = Some path ∧ leaves !! i = Some leaf ∧
    length ds = length path ∧ climb leaf ds path = merkle_tree_hash leaves.
Proof.
  remember (length leaves) as n eqn:Hn. intros Hds. revert leaves Hn.
  induction Hds as [|n m ds Hn2 Hm Hd IH|n m ds Hn2 Hm Hlt Hd IH]; intros leaves Hn.
  - destruct leaves as [|l [|??]]; [done| |done]. by exists [], l.
  - destruct (lp2_spec n) as (_ & ? & ? & ?); [lia|]. rewrite Hn in *.
    destruct (IH (take (largest_power_of_two_less_than (length leaves)) leaves))
      as (path & leaf & Hp & Hleaf & Hl & Hc); [rewrite length_take; lia|].
    rewrite lookup_take_lt in Hleaf by lia.
    rewrite inclusion_path_split, Hp by lia.
    rewrite (proj2 (Nat.ltb_lt _ _)) by lia.
    do 2 eexists. split_and!; [done|done|rewrite !length_app; simpl; lia|].
    by rewrite climb_snoc, Hc, (merkle_tree_hash_split leaves) by lia.
  - destruct (lp2_spec n) as (_ & ? & ? & ?); [lia|]. rewrite Hn in *.
    destruct (IH (drop (largest_power_of_two_less_than (length leaves)) leaves))
      as (path & leaf & Hp & Hleaf & Hl & Hc); [rewrite length_drop; lia|].
    rewrite lookup_drop, Nat.add_comm, Nat.sub_add in Hleaf by lia.
    rewrite inclusion_path_split, Hp by lia.
    rewrite (proj2 (Nat.ltb_ge _ _)) by lia.
    do 2 eexists. split_and!; [done|done|rewrite !length_app; simpl; lia|].
    by rewrite climb_snoc, Hc, (merkle_tree_hash_split leaves) by lia.
Qed.

Lemma climb_sound leaves i ds r path :
  split_dirs (length leaves) i ds → length ds = length path →
  climb r ds path = merkle_tree_hash leaves →
  leaves !! i = Some r ∨ collides sha256 (tree_strings leaves ++ climb_strings r ds path).
Proof.
  remember (length leaves) as n eqn:Hn. intros Hds. revert leaves path Hn.
  induction Hds as [|n m ds Hn2 Hm Hd IH|n m ds Hn2 Hm Hlt Hd IH]; intros leaves path Hn Hl.
  - destruct path; [|done]. destruct leaves as [|l [|??]]; [done| |done].
    cbv [climb merkle_tree_hash mth_fuel length zip zip_with foldl]. intros ->. by left.
  - destruct path as [|p path _] using rev_ind; [rewrite length_app in Hl; simpl in Hl; lia|].
    rewrite !length_app in Hl. simpl in Hl.
    destruct (lp2_spec n) as (_ & ? & ? & ?); [lia|].
    rewrite climb_snoc, climb_strings_snoc, (merkle_tree_hash_split leaves), (tree_strings_split leaves) by lia.
    intros [[Hc _]|?]%node_hash_inj; [|by_collision]. rewrite <-Hn in *.
    apply IH in Hc as [Hc|?]; [|by_collision|rewrite length_take; lia|lia].
    rewrite lookup_take_lt in Hc by lia. by left.
  - destruct path as [|p path _] using rev_ind; [rewrite length_app in Hl; simpl in Hl; lia|].
    rewrite !length_app in Hl. simpl in Hl.
    destruct (lp2_spec n) as (_ & ? & ? & ?); [lia|].
    rewrite climb_snoc, climb_strings_snoc, (merkle_tree_hash_split leaves), (tree_strings_split leaves) by lia.
    intros [[_ Hc]|?]%node_hash_inj; [|by_collision]. rewrite <-Hn in *.
    apply IH in Hc as [Hc|?]; [|by_collision|rewrite length_drop; lia|lia].
    rewrite lookup_drop in Hc. left. rewrite <-Hc. f_equal. lia.
Qed.

(** The honest proof verifies. *)
Lemma inclusion_path_verifies leaves i :
  i < length leaves →
  ∃ path leaf, inclusion_path leaves i = Some path ∧ leaves !! i = Some leaf ∧
    verify_inclusion_proof
      {| ip_leaf_index := N.of_nat i; ip_tree_size := N.of_nat (length leaves);
         ip_leaf_hash := leaf; ip_path := path |} (merkle_tree_hash leaves) = true.
Proof.
  intros Hi. destruct (split_dirs_total _ _ Hi) as [ds Hds].
  destruct (inclusion_path_climb _ _ _ Hds) as (path & leaf & Hp & Hleaf & Hl & Hc).
  exists path, leaf. split_and!; [done..|].
  apply (verify_inclusion_proof_climb _ _ ds); simpl; [by rewrite !Nat2N.id|lia|done].
Qed.

(** An accepted proof proves its leaf, up to a collision. *)
Lemma verify_inclusion_proof_leaf leaves proof :
  ip_tree_size proof = N.of_nat (length leaves) →
  verify_inclusion_proof proof (merkle_tree_hash leaves) = true →
  leaves !! N.to_nat (ip_leaf_index proof) = Some (ip_leaf_hash proof) ∨
  collides sha256 (tree_strings leaves ++ inclusion_strings proof).
Proof.
  intros Hn Hv. assert (ip_leaf_index proof < ip_tree_size proof)%N as Hlt.
  { unfold verify_inclusion_proof in Hv. destruct (_ || _) eqn:E in Hv; [done|].
    bool_hyps. lia. }
  destruct (split_dirs_total (length leaves) (N.to_nat (ip_leaf_index proof))) as [ds Hds];
    [lia|].
  apply (verify_inclusion_proof_climb _ _ ds) in Hv as [Hl Hc];
    [|by rewrite Hn, Nat2N.id|done].
  destruct (split_dirs_run _ _ _ Hds) as [f Hrun]. rewrite <-Hn, N2Nat.id in Hrun.
  unfold inclusion_strings. erewrite inclusion_loop_run_strings by done.
  by eapply climb_sound.
Qed.
End correctness.

(** ** Consistency proofs: shape *)

Lemma pow2_multiple P Q : pow2 P → pow2 Q → (P < Q)%N → ∃ c, Q = (2 * c * P)%N.
Proof.
  intros HP. revert Q. induction HP as [|P HP IH]; intros Q HQ Hlt;
    destruct (pow2_inv Q HQ) as [->|(Q' & HQ' & ->)]; try lia.
  - exists Q'. lia.
  - pose proof (pow2_pos P HP). lia.
  - destruct (IH Q' HQ') as [c ->]; [lia|]. exists c. lia.
Qed.

Definition trues (P : N) : list bool := replicate (N.to_nat (N.log2 P)) true.

Lemma trues_double P : pow2 P → trues (2 * P) = true :: trues P.
Proof.
  intros HP%pow2_pos. unfold trues. rewrite N.log2_double, N2Nat.inj_succ by lia. done.
Qed.
Lemma trues_snoc P : pow2 P → trues (2 * P) = trues P ++ [true].
Proof.
  intros HP. rewrite trues_double by done. unfold trues.
  by rewrite <-replicate_cons_app.
Qed.

(** [strip_ones] is the run of the steps that fold the last complete block. *)
Lemma strip_ones_run P q fuel f s ds fe :
  pow2 P → (f + 1 = P * (2 * q + 1))%N → (f < 2 ^ N.of_nat fuel)%N →
  run f s (trues P ++ ds) fe 0 →
  run (strip_ones fuel f s).1 (strip_ones fuel f s).2 ds fe 0.
Proof.
  intros HP. revert fuel f s q. induction HP as [|P HP IH]; intros fuel f s q Hf Hb Hr.
  - replace (strip_ones fuel f s) with (f, s); [done|].
    destruct fuel; [done|]. simpl. rewrite odd_bit_mod.
    by replace (f mod 2)%N with 0%N by lia_div.
  - pose proof (pow2_pos _ HP).
    destruct fuel as [|fuel].
    { change (2 ^ N.of_nat 0)%N with 1%N in Hb. nia. }
    rewrite Nat2N.inj_succ, N.pow_succ_r' in Hb. rewrite trues_double in Hr by done.
    assert (f = 2 * (P * (2 * q + 1) - 1) + 1)%N as Ef by nia.
    assert (f mod 2 = 1)%N as Ho by lia_div.
    assert (f / 2 + 1 = P * (2 * q + 1))%N as Hhalf by (assert (1 ≤ P * (2 * q + 1))%N by nia; lia_div).
    clear Ef. inversion Hr as [|? ? ? f1 s1 ? ? ? Hst Hr']; subst.
    destruct (N.eq_dec s 0%N) as [->|Hs]; [done|].
    rewrite shape_step_odd in Hst by done. injection Hst as <- <-.
    cbn [strip_ones]. rewrite odd_bit_mod, Ho, !shr1_div. simpl.
    apply (IH _ _ _ q); [done|lia_div|done].
Qed.

(** How [subproof] descends: to the last complete block of [P] leaves of the old
    tree; [ds] are the directions from there up. *)
Inductive cons_dirs (P : nat) : nat → nat → list bool → Prop :=
| cd_stop : pow2 (N.of_nat P) → cons_dirs P P P []
| cd_left n m ds :
    2 ≤ n → m ≤ largest_power_of_two_less_than n →
    cons_dirs P (largest_power_of_two_less_than n) m ds →
    cons_dirs P n m (ds ++ [false])
| cd_right n m ds :
    2 ≤ n → largest_power_of_two_less_than n < m → m < n →
    cons_dirs P (n - largest_power_of_two_less_than n)
                (m - largest_power_of_two_less_than n) ds →
    cons_dirs P n m (ds ++ [true]).

Lemma cons_dirs_total n m : 1 ≤ m → m < n → ∃ P ds, cons_dirs P n m ds.
Proof.
  revert m. induction (lt_wf n) as [n _ IH]; intros m Hm Hmn.
  destruct (lp2_spec n) as (Hp & ? & ? & ?); [lia|].
  destruct (Nat.lt_trichotomy m (largest_power_of_two_less_than n)) as [Hl|[Hl|Hl]].
  - destruct (IH (largest_power_of_two_less_than n)) with m as (P & ds & ?); [lia..|].
    do 2 eexists. apply cd_left; [lia|lia|done].
  - do 2 eexists. apply cd_left; [lia|lia|]. rewrite Hl. by constructor.
  - destruct (IH (n - largest_power_of_two_less_than n))
      with (m - largest_power_of_two_less_than n) as (P & ds & ?); [lia..|].
    do 2 eexists. apply cd_right; [lia|lia|lia|done].
Qed.

Lemma cons_dirs_le P n m ds : cons_dirs P n m ds → 1 ≤ P ∧ P ≤ m ∧ m ≤ n.
Proof.
  induction 1 as [Hp|n m ds Hn Hm Hc IH|n m ds Hn Hm Hlt Hc IH].
  - pose proof (pow2_pos _ Hp). lia.
  - destruct (lp2_spec n) as (Hp & ? & ? & ?); [done|]. lia.
  - destruct (lp2_spec n) as (Hp & ? & ? & ?); [done|]. lia.
Qed.

Lemma cons_dirs_pow2 P n m ds : cons_dirs P n m ds → pow2 (N.of_nat P).
Proof. by induction 1. Qed.

Lemma cons_dirs_block P n m ds :
  cons_dirs P n m ds → ∃ q, N.of_nat m = (N.of_nat P * (2 * q + 1))%N.
Proof.
  induction 1 as [Hp|n m ds Hn Hm Hc IH|n m ds Hn Hm Hlt Hc [q IH]].
  - exists 0%N. lia.
  - done.
  - destruct (lp2_spec n) as (Hp & ? & ? & ?); [done|].
    destruct (cons_dirs_le _ _ _ _ Hc) as (_ & HP & _).
    destruct (pow2_multiple (N.of_nat P) _ (cons_dirs_pow2 _ _ _ _ Hc) Hp) as [c Hc']; [lia|].
    exists (c + q)%N. nia.
Qed.

Lemma split_dirs_last P :
  pow2 P → split_dirs (N.to_nat P) (N.to_nat P - 1) (trues P).
Proof.
  induction 1 as [|P HP IH]; [constructor|].
  pose proof (pow2_pos _ HP). rewrite trues_snoc by done.
  assert (largest_power_of_two_less_than (N.to_nat (2 * P)) = N.to_nat P) as E.
  { apply lp2_unique; [by rewrite N2Nat.id|lia..]. }
  apply sd_right; rewrite ?E; [lia..|].
  replace (N.to_nat (2 * P) - N.to_nat P) with (N.to_nat P) by lia.
  by replace (N.to_nat (2 * P) - 1 - N.to_nat P) with (N.to_nat P - 1) by lia.
Qed.

Lemma cons_dirs_split P n m ds :
  cons_dirs P n m ds → split_dirs n (m - 1) (trues (N.of_nat P) ++ ds).
Proof.
  induction 1 as [Hp|n m ds Hn Hm Hc IH|n m ds Hn Hm Hlt Hc IH].
  - apply split_dirs_last in Hp. rewrite Nat2N.id in Hp. by rewrite app_nil_r.
  - rewrite app_assoc. pose proof (cons_dirs_le _ _ _ _ Hc).
    apply sd_left; [done|lia|done].
  - rewrite app_assoc. pose proof (cons_dirs_le _ _ _ _ Hc).
    apply sd_right; [done|lia..|].
    by replace (m - 1 - _) with (m - largest_power_of_two_less_than n - 1) by lia.
Qed.

Lemma cons_dirs_run P n m ds :
  cons_dirs P n m ds →
  let st := strip_ones (N.size_nat (N.of_nat m - 1)) (N.of_nat m - 1) (N.of_nat n - 1) in
  ∃ fe, run st.1 st.2 ds fe 0.
Proof.
  intros Hc. destruct (cons_dirs_le _ _ _ _ Hc) as (? & ? & ?).
  destruct (cons_dirs_block _ _ _ _ Hc) as [q Hq].
  destruct (split_dirs_run _ _ _ (cons_dirs_split _ _ _ _ Hc)) as [fe Hr].
  exists fe. eapply (strip_ones_run (N.of_nat P) q).
  - by eapply cons_dirs_pow2.
  - lia.
  - apply size_nat_bound.
  - by replace (N.of_nat m - 1)%N with (N.of_nat (m - 1)) by lia.
Qed.

Lemma pow2_log2 P : pow2 P → P = (2 ^ N.log2 P)%N.
Proof.
  induction 1 as [|P HP IH]; [done|]. pose proof (pow2_pos _ HP).
  rewrite N.log2_double, N.pow_succ_r' by lia. lia.
Qed.

Lemma is_power_of_two_pow2 P : pow2 P → is_power_of_two P = true.
Proof.
  intros HP. pose proof (pow2_pos _ HP). unfold is_power_of_two.
  destruct (N.eqb_spec P 0); [lia|]. simpl.
  rewrite (pow2_log2 P HP).
  replace (N.pred (2 ^ N.log2 P)) with (N.ones (N.log2 P)) by (by rewrite N.ones_equiv).
  rewrite N.land_ones, N.Div0.mod_same. done.
Qed.

Lemma is_power_of_two_between P m :
  pow2 P → (P < m)%N → (m < 2 * P)%N → is_power_of_two m = false.
Proof.
  intros HP H1 H2. unfold is_power_of_two. apply andb_false_iff. right.
  apply N.eqb_neq. intros H0.
  assert (∀ x, P ≤ x → x < 2 * P → N.testbit x (N.log2 P) = true)%N as Hbit.
  { intros x ??. apply N.testbit_true.
    rewrite <-(pow2_log2 P HP). pose proof (pow2_pos _ HP).
    by rewrite <-(N.div_unique x P 1 (x - P)) by lia. }
  assert (N.testbit (N.land m (N.pred m)) (N.log2 P) = true) as Ht.
  { rewrite N.land_spec, !Hbit by lia. done. }
  by rewrite H0, N.bits_0 in Ht.
Qed.

(** ** Consistency proofs: hashes *)

Section consistency.
Context `{Sha2}.
Implicit Types leaves : list NodeHash.

Lemma subproof_fuel_enough fuel fuel' leaves m b :
  1 ≤ m ≤ length leaves → length leaves ≤ fuel → length leaves ≤ fuel' →
  subproof_fuel fuel leaves m b = subproof_fuel fuel' leaves m b.
Proof.
  revert fuel' leaves m b. induction fuel as [|fuel IH]; intros fuel' leaves m b Hm Hf Hf'; [lia|].
  destruct fuel' as [|fuel']; [lia|]. cbn [subproof_fuel].
  destruct (Nat.eqb_spec m (length leaves)); [done|].
  destruct (lp2_spec (length leaves)) as (_ & ? & ? & ?); [lia|].
  destruct (Nat.leb_spec m (largest_power_of_two_less_than (length leaves)));
    (erewrite IH; [reflexivity|..]); rewrite ?length_take, ?length_drop; lia.
Qed.

Lemma subproof_stop leaves b :
  subproof leaves (length leaves) b = if b then [] else [merkle_tree_hash leaves].
Proof.
  unfold subproof. destruct (length leaves) eqn:Hl; cbn [subproof_fuel];
    by rewrite Hl, Nat.eqb_refl.
Qed.

Lemma subproof_split leaves m b :
  1 ≤ m → m < length leaves →
  let k := largest_power_of_two_less_than (length leaves) in
  subproof leaves m b =
    if m <=? k then subproof (take k leaves) m b ++ [merkle_tree_hash (drop k leaves)]
    else subproof (drop k leaves) (m - k) false ++ [merkle_tree_hash (take k leaves)].
Proof.
  intros Hm Hlt k. destruct (lp2_spec (length leaves)) as (_ & ? & ? & ?); [lia|].
  unfold subproof at 1. destruct (length leaves) as [|n] eqn:Hl; [lia|].
  cbn [subproof_fuel]. rewrite Hl. fold k.
  destruct (Nat.eqb_spec m (S n)); [lia|]. unfold subproof.
  destruct (Nat.leb_spec m k); f_equal; apply subproof_fuel_enough;
    rewrite ?length_take, ?length_drop; lia.
Qed.

(** The old root of a consistency run: only the left siblings count. *)
Definition join_old (d : bool) (p r : NodeHash) : NodeHash :=
  if d then node_hash p r else r.
Definition climb_old (r : NodeHash) (ds : list bool) (path : list NodeHash) : NodeHash :=
  foldl (λ r '(d, p), join_old d p r) r (zip ds path).

Lemma climb_old_snoc r ds path d p :
  length ds = length path →
  climb_old r (ds ++ [d]) (path ++ [p]) = join_old d p (climb_old r ds path).
Proof.
  intros Hl. unfold climb_old. rewrite zip_with_app by done. by rewrite foldl_app.
Qed.

Lemma consistency_step_shape fr sr f s p :
  consistency_step (fr, sr, f, s) p =
    '(d, f', s') ← shape_step f s; Some (join_old d p fr, join d p sr, f', s').
Proof.
  unfold consistency_step, shape_step. destruct (s =? 0)%N; [done|].
  destruct (odd_bit f) eqn:Ho; simpl.
  - rewrite strip_zeros_odd; [done|]. rewrite odd_bit_mod in Ho. by bool_hyps.
  - destruct (f =? s)%N; [|done]. by destruct (strip_zeros _ _ _).
Qed.

Lemma consistency_loop_run fr sr f s path fr' sr' f' s' :
  consistency_loop (fr, sr, f, s) path = Some (fr', sr', f', s') ↔
  ∃ ds, length ds = length path ∧ run f s ds f' s' ∧
    fr' = climb_old fr ds path ∧ sr' = climb sr ds path.
Proof.
  revert fr sr f s. induction path as [|p path IH]; intros fr sr f s; cbn [consistency_loop].
  - split.
    + intros [= <- <- <- <-]. exists []. split_and!; [done|constructor|done..].
    + intros ([|??] & ? & Hr & -> & ->); [|done]. by inversion Hr.
  - rewrite consistency_step_shape. split.
    + destruct (shape_step f s) as [[[d g] t]|] eqn:Hst; [|done]. simpl.
      intros (ds & Hl & Hr & -> & ->)%IH. exists (d :: ds).
      split_and!; [simpl; lia|by econstructor|done..].
    + intros ([|d ds] & Hl & Hr & -> & ->); [done|].
      inversion Hr as [|? ? ? g t ? ? ? Hst Hr']; subst. rewrite Hst. simpl.
      apply IH. exists ds. split_and!; [simpl in *; lia|done..].
Qed.

Definition full_path (proof : ConsistencyProof) (old_root : NodeHash) : list NodeHash :=
  (if is_power_of_two (cp_old_size proof) then [old_root] else []) ++ cp_path proof.

(** The verifier accepts exactly the paths that climb to both roots. *)
Lemma verify_consistency_proof_climb proof old_root new_root P m n ds :
  cp_old_size proof = N.of_nat m → cp_new_size proof = N.of_nat n →
  1 ≤ m → m < n → cons_dirs P n m ds →
  verify_consistency_proof proof old_root new_root = true ↔
    ∃ c0 rest, full_path proof old_root = c0 :: rest ∧ length ds = length rest ∧
      climb_old c0 ds rest = old_root ∧ climb c0 ds rest = new_root.
Proof.
  intros Hm Hn Hm1 Hlt Hds. destruct (cons_dirs_run _ _ _ _ Hds) as [f Hrun].
  unfold verify_consistency_proof. fold (full_path proof old_root).
  rewrite Hn, <-Hm in *.
  destruct (N.eqb_spec (cp_old_size proof) 0); [lia|].
  destruct (N.eqb_spec (N.of_nat n) 0); [lia|].
  destruct (N.ltb_spec (N.of_nat n) (cp_old_size proof)); [lia|].
  destruct (N.eqb_spec (cp_old_size proof) (N.of_nat n)); [lia|]. simpl.
  fold (full_path proof old_root).
  destruct (full_path proof old_root) as [|c0 rest]; [split; [done|naive_solver]|].
  destruct (strip_ones _ _ _) as [g t]; simpl in Hrun. split.
  - destruct (consistency_loop _ _) as [[[[fr sr] g'] t']|] eqn:Hloop; [|done].
    intros Ht. bool_hyps. subst. apply consistency_loop_run in Hloop as (ds' & Hl & Hr & -> & ->).
    rewrite (run_det _ _ _ _ _ _ Hrun Hr). naive_solver.
  - intros (? & ? & [= <- <-] & Hl & <- & <-).
    rewrite (proj2 (consistency_loop_run _ _ _ _ _
      (climb_old c0 ds rest) (climb c0 ds rest) f 0)); [|by exists ds].
    by rewrite !bool_decide_eq_true_2.
Qed.

Lemma merkle_tree_hash_take_split leaves m :
  let k := largest_power_of_two_less_than (length leaves) in
  2 ≤ length leaves → k < m → m < length leaves →
  merkle_tree_hash (take m leaves) =
    node_hash (merkle_tree_hash (take k leaves))
              (merkle_tree_hash (take (m - k) (drop k leaves))).
Proof.
  intros k Hn Hkm Hm. destruct (lp2_spec (length leaves)) as (Hk & ? & ? & ?); [done|].
  fold k in Hk. assert (length (take m leaves) = m) as Hl by (rewrite length_take; lia).
  rewrite (merkle_tree_hash_split (take m leaves)), Hl, (lp2_unique m k) by (done || lia).
  by rewrite take_take, Nat.min_l, take_drop_commute, Nat.add_comm, Nat.sub_add by lia.
Qed.

Lemma subproof_climb P leaves m b ds :
  cons_dirs P (length leaves) m ds →
  ∃ c0 rest,
    (if b && is_power_of_two (N.of_nat m) then [merkle_tree_hash (take m leaves)] else [])
      ++ subproof leaves m b = c0 :: rest ∧
    length ds = length rest ∧
    climb_old c0 ds rest = merkle_tree_hash (take m leaves) ∧
    climb c0 ds rest = merkle_tree_hash leaves.
Proof.
  remember (length leaves) as n eqn:Hn. intros Hds. revert leaves b Hn.
  induction Hds as [Hp|n m ds Hn2 Hm Hc IH|n m ds Hn2 Hm Hlt Hc IH]; intros leaves b Hn.
  - exists (merkle_tree_hash leaves), []. rewrite Hn, subproof_stop, <-Hn, take_ge by lia.
    rewrite is_power_of_two_pow2 by done. by destruct b.
  - destruct (lp2_spec n) as (_ & ? & ? & ?); [lia|].
    pose proof (cons_dirs_le _ _ _ _ Hc). rewrite Hn in *.
    destruct (IH (take (largest_power_of_two_less_than (length leaves)) leaves) b)
      as (c0 & rest & Hp & Hl & Ho & Hr); [rewrite length_take; lia|].
    rewrite take_take, Nat.min_l in Hp, Ho by lia.
    rewrite subproof_split by lia. rewrite (proj2 (Nat.leb_le _ _)) by lia.
    rewrite app_assoc, Hp. do 2 eexists. split_and!; [done|rewrite !length_app; simpl; lia|..].
    + by rewrite climb_old_snoc.
    + by rewrite climb_snoc, Hr, (merkle_tree_hash_split leaves) by lia.
  - destruct (lp2_spec n) as (Hk & ? & ? & ?); [lia|]. rewrite Hn in *.
    set (k := largest_power_of_two_less_than (length leaves)) in *.
    destruct (IH (drop k leaves) false)
      as (c0 & rest & Hp & Hl & Ho & Hr); [rewrite length_drop; lia|].
    rewrite (is_power_of_two_between _ _ Hk), andb_false_r by lia. simpl in Hp |- *.
    rewrite subproof_split by lia. fold k. rewrite (proj2 (Nat.leb_gt _ _)), Hp by lia.
    do 2 eexists. split_and!; [done|rewrite !length_app; simpl; lia|..].
    + by rewrite climb_old_snoc, Ho, (merkle_tree_hash_take_split leaves m) by lia.
    + by rewrite climb_snoc, Hr, (merkle_tree_hash_split leaves) by lia.
Qed.

(** The strings hashed along the new root of a consistency proof. *)
Fixpoint consistency_loop_strings (st : NodeHash * NodeHash * N * N) (path : list NodeHash) : list bytes :=
  match path with
  | [] => []
  | c :: path' =>
      let '(fr, sr, fn_idx, sn) := st in
      (if odd_bit fn_idx || (fn_idx =? sn)%N then node_input c sr else node_input sr c) ::
        match consistency_step st c with Some st' => consistency_loop_strings st' path' | None => [] end
  end.
Definition consistency_strings (proof : ConsistencyProof) (old_root : NodeHash) : list bytes :=
  match full_path proof old_root with
  | [] => []
  | c0 :: rest =>
      let '(fn_idx, sn) :=
        strip_ones (N.size_nat (cp_old_size proof - 1)) (cp_old_size proof - 1) (cp_new_size proof - 1) in
      consistency_loop_strings (c0, c0, fn_idx, sn) rest
  end.
Lemma consistency_loop_run_strings fr sr f s path ds f' s' :
  length ds = length path → run f s ds f' s' →
  consistency_loop_strings (fr, sr, f, s) path = climb_strings sr ds path.
Proof.
  revert fr sr f s path. induction ds as [|d ds IH]; intros fr sr f s [|p path] Hl Hr; try done.
  inversion Hr as [|? ? ? g t ? ? ? Hst Hr']; subst. cbn [consistency_loop_strings climb_strings].
  rewrite consistency_step_shape, Hst. simpl. rewrite (IH _ _ g t path) by (done || (simpl in *; lia)).
  f_equal. revert Hst. unfold shape_step. destruct (s =? 0)%N; [done|].
  destruct (_ || _); [by destruct (strip_zeros _ _ _); intros [= <- _ _]|by intros [= <- _ _]].
Qed.

(** The new root determines the old one along any path of the right shape. *)
Lemma climb_consistent P m new ds c0 rest :
  cons_dirs P (length new) m ds → length ds = length rest →
  climb c0 ds rest = merkle_tree_hash new →
  climb_old c0 ds rest = merkle_tree_hash (take m new) ∨
  collides sha256 (tree_strings new ++ climb_strings c0 ds rest).
Proof.
  remember (length new) as n eqn:Hn. intros Hds. revert new Hn rest.
  induction Hds as [Hp|n m ds Hn2 Hle Hc IH|n m ds Hn2 Hle Hlt Hc IH]; intros new Hn rest Hl Hr.
  - destruct rest; [|done]. cbn in Hr |- *. rewrite take_ge by lia. by left.
  - destruct rest as [|p rest _] using rev_ind; [rewrite length_app in Hl; simpl in Hl; lia|].
    rewrite !length_app in Hl. simpl in Hl. destruct (lp2_spec n) as (_ & ? & ? & ?); [lia|].
    rewrite climb_old_snoc, climb_strings_snoc, (tree_strings_split new), <-Hn by lia.
    rewrite climb_snoc, (merkle_tree_hash_split new), <-Hn in Hr by lia.
    apply node_hash_inj in Hr as [[Hr _]|?]; [|by_collision].
    destruct (IH (take (largest_power_of_two_less_than n) new)) with rest as [E|?];
      [rewrite length_take; lia|lia|done| |by_collision].
    left. by rewrite take_take, Nat.min_l in E by lia.
  - destruct rest as [|p rest _] using rev_ind; [rewrite length_app in Hl; simpl in Hl; lia|].
    rewrite !length_app in Hl. simpl in Hl. destruct (lp2_spec n) as (Hk & ? & ? & ?); [lia|].
    rewrite climb_old_snoc, climb_strings_snoc, (tree_strings_split new), <-Hn by lia.
    rewrite climb_snoc, (merkle_tree_hash_split new), <-Hn in Hr by lia.
    apply node_hash_inj in Hr as [[Hr1 Hr2]|?]; [|by_collision].
    destruct (IH (drop (largest_power_of_two_less_than n) new)) with rest as [E|?];
      [rewrite length_drop; lia|lia|done| |by_collision].
    left. simpl. by rewrite E, Hr1, (merkle_tree_hash_take_split new m), <-Hn by (rewrite <-?Hn; lia).
Qed.

(** The text behind a tree-head signature. *)
Definition sth_input (size : N) (root : NodeHash) (ts : N) : bytes :=
  as_bytes ("nucleusdb.ct.sth.sig.v1|size=" +:+ dec size +:+ "|root=" +:+
    hex_encode (arr_bytes root) +:+ "|ts=" +:+ dec ts).
End consistency.

(** ** Properties *)

Section properties.
Context `{Sha2}.
Implicit Types leaves : list NodeHash.

(** Completeness of inclusion proofs: for every leaf index in range
    [make_inclusion_proof] succeeds and [verify_inclusion_proof] accepts the proof
    against the Merkle tree hash; out of range it returns [None]. *)
Theorem inclusion_proof_complete leaves i :
  match make_inclusion_proof leaves i with
  | Some proof =>
      leaves !! i = Some (ip_leaf_hash proof) ∧
      ip_leaf_index proof = N.of_nat i ∧ ip_tree_size proof = N.of_nat (length leaves) ∧
      verify_inclusion_proof proof (merkle_tree_hash leaves) = true
  | None => length leaves ≤ i
  end.
Proof.
  unfold make_inclusion_proof. destruct (decide (i < length leaves)) as [Hi|Hi].
  - destruct (inclusion_path_verifies _ _ Hi) as (path & leaf & Hp & Hleaf & Hv).
    rewrite Hp, Hleaf. simpl. done.
  - rewrite (lookup_ge_None_2 leaves) by lia.
    destruct (inclusion_path leaves i); simpl; lia.
Qed.

(** Claim C37. Soundness of inclusion proofs: a proof that
    [verify_inclusion_proof] accepts against the root of [leaves] for their size
    carries the leaf hash stored at its index, or two different ones of the strings
    hashed for the root and for the proof have one SHA-256 hash. *)
Theorem inclusion_proof_sound leaves proof :
  ip_tree_size proof = N.of_nat (length leaves) →
  verify_inclusion_proof proof (merkle_tree_hash leaves) = true →
  leaves !! N.to_nat (ip_leaf_index proof) = Some (ip_leaf_hash proof) ∨
  collides sha256 (tree_strings leaves ++ inclusion_strings proof).
Proof. apply verify_inclusion_proof_leaf. Qed.

Lemma make_consistency_proof_verifies leaves m :
  match make_consistency_proof leaves m with
  | Some proof =>
      cp_old_size proof = N.of_nat m ∧ cp_new_size proof = N.of_nat (length leaves) ∧
      verify_consistency_proof proof (merkle_tree_hash (take m leaves))
        (merkle_tree_hash leaves) = true
  | None => m = 0 ∨ length leaves < m
  end.
Proof.
  unfold make_consistency_proof, consistency_path.
  destruct (Nat.eqb_spec m 0) as [?|Hm]; simpl; [by left|].
  destruct (Nat.ltb_spec (length leaves) m); simpl; [by right|].
  destruct (Nat.eqb_spec m (length leaves)) as [->|Hne]; simpl; (split_and!; [done..|]).
  - unfold verify_consistency_proof. simpl. rewrite N.eqb_refl, N.ltb_irrefl, firstn_all.
    destruct (N.eqb_spec (N.of_nat (length leaves)) 0); [lia|]. simpl.
    by rewrite bool_decide_eq_true_2.
  - destruct (cons_dirs_total (length leaves) m) as (P & ds & Hds); [lia..|].
    destruct (subproof_climb P leaves m true ds Hds) as (c0 & rest & Hp & Hl & Ho & Hr).
    apply (verify_consistency_proof_climb _ _ _ P m (length leaves) ds);
      simpl; [done|done|lia|lia|done|].
    exists c0, rest. done.
Qed.

(** Completeness of consistency proofs: for every non-empty
    prefix of the log [make_consistency_proof] succeeds and
    [verify_consistency_proof] accepts the proof against the two roots. *)
Theorem consistency_proof_complete leaves m :
  match make_consistency_proof leaves m with
  | Some proof =>
      cp_old_size proof = N.of_nat m ∧ cp_new_size proof = N.of_nat (length leaves) ∧
      verify_consistency_proof proof (merkle_tree_hash (take m leaves))
        (merkle_tree_hash leaves) = true
  | None => m = 0 ∨ length leaves < m
  end.
Proof. apply make_consistency_proof_verifies. Qed.

(** A proof accepted for the root of [new] fixes the old root. *)
Lemma verify_consistency_proof_old_root old_root new m proof :
  cp_old_size proof = N.of_nat m → cp_new_size proof = N.of_nat (length new) →
  verify_consistency_proof proof old_root (merkle_tree_hash new) = true →
  1 ≤ m ∧ m ≤ length new ∧
  (old_root = merkle_tree_hash (take m new) ∨
   collides sha256 (tree_strings new ++ consistency_strings proof old_root)).
Proof.
  intros Hm Hn Hv.
  assert (m ≠ 0 ∧ m ≤ length new) as [Hm0 Hle].
  { unfold verify_consistency_proof in Hv. rewrite Hm, Hn in Hv.
    destruct (_ || _) eqn:E in Hv; [done|]. bool_hyps. lia. }
  split_and!; [lia|done|]. destruct (decide (m = length new)) as [Heq|Hne].
  - unfold verify_consistency_proof in Hv. rewrite Hm, Hn, Heq, N.eqb_refl in Hv.
    destruct (_ || _); [done|]. bool_hyps. left. by rewrite take_ge by lia.
  - destruct (cons_dirs_total (length new) m) as (P & ds & Hds); [lia..|].
    apply (verify_consistency_proof_climb _ _ _ P m (length new) ds)
      in Hv as (c0 & rest & Hf & Hl & Ho & Hr); [|done|done|lia|lia|done].
    destruct (cons_dirs_run _ _ _ _ Hds) as [f Hrun]. rewrite <-Hm, <-Hn in Hrun.
    unfold consistency_strings. rewrite Hf. destruct (strip_ones _ _ _) as [g t]. simpl in Hrun.
    erewrite consistency_loop_run_strings by done. rewrite <-Ho. by eapply climb_consistent.
Qed.
(** What a consistency proof between two logs hashes, with their roots and that of the
    same prefix of the new log. *)
Definition logs_strings (old new : list NodeHash) (proof : ConsistencyProof) : list bytes :=
  tree_strings old ++ tree_strings (take (length old) new) ++ tree_strings new ++
  consistency_strings proof (merkle_tree_hash old).

Lemma verify_consistency_proof_prefix old new proof :
  cp_old_size proof = N.of_nat (length old) →
  cp_new_size proof = N.of_nat (length new) →
  verify_consistency_proof proof (merkle_tree_hash old) (merkle_tree_hash new) = true →
  old `prefix_of` new ∨ collides sha256 (logs_strings old new proof).
Proof.
  intros Hm Hn Hv. unfold logs_strings.
  destruct (verify_consistency_proof_old_root _ _ _ _ Hm Hn Hv) as (_ & Hle & [E|?]); [|by_collision].
  apply merkle_tree_hash_inj in E as [E|?]; [|by_collision|rewrite length_take; lia].
  left. rewrite E. apply prefix_take.
Qed.

(** Claim C38. Soundness of consistency proofs: if
    [verify_consistency_proof] accepts a proof between the roots of two logs of the
    claimed sizes, the old log is a prefix of the new one (the log is append
    only), or two different ones of the strings hashed for the proof and for the roots of the
    two logs and of the same prefix of the new one have one SHA-256 hash. *)
Theorem consistency_proof_sound old new proof :
  cp_old_size proof = N.of_nat (length old) →
  cp_new_size proof = N.of_nat (length new) →
  verify_consistency_proof proof (merkle_tree_hash old) (merkle_tree_hash new) = true →
  old `prefix_of` new ∨ collides sha256 (logs_strings old new proof).
Proof. apply verify_consistency_proof_prefix. Qed.

(** The tree-head signature binds the head: two heads with one
    [sth_signature] agree on size, root and timestamp, or their texts collide. *)
Theorem sth_signature_binding size root ts size' root' ts' :
  sth_signature size root ts = sth_signature size' root' ts' →
  (size = size' ∧ root = root' ∧ ts = ts') ∨
  collides sha256 [sth_input size root ts; sth_input size' root' ts'].
Proof.
  intros E. apply (inj hex_encode), arr_eq in E.
  apply sha256_inj_or_collides in E as [E|?]; [left|by right].
  apply (f_equal of_bytes) in E. rewrite !of_as_bytes in E.
  apply (inj (String.append _)) in E.
  apply (sep_inj is_digit "|") in E as [E1 E]; [|done|apply dec_digits..].
  apply (inj (String.append "root=")) in E.
  apply (sep_inj is_hex "|") in E as [E2 E]; [|done|apply hex_encode_digits..].
  apply (inj (String.append "ts=")) in E.
  split_and!; [by apply dec_inj|by apply arr_eq, (inj hex_encode)|by apply dec_inj].
Qed.
End properties.

(** *** Witnesses *)

Definition ex_leaves : list NodeHash :=
  map (λ b, to_arr 32 [b]) [x61; x62; x63; x64; x65; x66; x67].
Definition ex_inclusion : InclusionProof :=
  {| ip_leaf_index := 4; ip_tree_size := 7; ip_leaf_hash := to_arr 32 [x65];
     ip_path := [to_arr 32 [x66]; to_arr 32 [x67];
                 merkle_tree_hash (H:=prefix_sha) (take 4 ex_leaves)] |}.
Definition ex_consistency : ConsistencyProof :=
  {| cp_old_size := 6; cp_new_size := 7;
     cp_path := default [] (consistency_path (H:=prefix_sha) ex_leaves 6) |}.

Lemma inclusion_proof_sound_witness :
  ex_leaves !! 4 = Some (to_arr 32 [x65]) ∨
  collides (@sha256 prefix_sha) (tree_strings (H:=prefix_sha) ex_leaves ++ inclusion_strings (H:=prefix_sha) ex_inclusion).
Proof.
  apply (inclusion_proof_sound (H:=prefix_sha) ex_leaves ex_inclusion); by vm_compute.
Defined.

Lemma consistency_proof_sound_witness :
  take 6 ex_leaves `prefix_of` ex_leaves ∨
  collides (@sha256 prefix_sha) (logs_strings (H:=prefix_sha) (take 6 ex_leaves) ex_leaves ex_consistency).
Proof.
  apply (consistency_proof_sound (H:=prefix_sha) _ _ ex_consistency); by vm_compute.
Defined.

Lemma sth_signature_binding_witness :
  let r := merkle_tree_hash (H:=prefix_sha) ex_leaves in
  (7 = 7 ∧ r = r ∧ 100 = 100)%N ∨
  collides (@sha256 prefix_sha) [sth_input 7 r 100; sth_input 7 r 100].
Proof. apply (sth_signature_binding (H:=prefix_sha)); by vm_compute. Defined.
