(* ===== verification/Store.v ===== *)
(** * The value vector and the key registry

    [src/src/state.rs], [src/src/keymap.rs] and [src/src/materialize.rs]: the
    database state is a [Vec<u64>]; a [Delta] is a list of indexed writes; the
    [KeyMap] gives user keys their indices.  [reads] is the abstract state, a
    total function from index to value, that [apply] refines. *)
From S2P Require Export RustStr.

(** ** State *)

Record State := mk_State { values : list N }.
Record Delta := mk_Delta { writes : list (nat * N) }.

#[export] Instance State_eq_dec : EqDecision State.
Proof. solve_decision. Defined.
#[export] Instance Delta_eq_dec : EqDecision Delta.
Proof. solve_decision. Defined.

(** [state.values.get(i).copied().unwrap_or(0)]. *)
Definition value_at (s : State) (i : nat) : N := get_or 0%N (values s) i.

(** The body of the loop of [apply]: [resize] when the index is new, then write. *)
Definition apply_write (next : list N) (w : nat * N) : list N :=
  let '(idx, value) := w in
  <[idx := value]> (if length next <=? idx then resize_up 0%N (idx + 1) next else next).

Definition apply (prev : State) (delta : Delta) : State :=
  mk_State (foldl apply_write (values prev) (writes delta)).

Definition materialize (state : State) : list N := values state.

(** ** Key map *)

Record KeyMap := mk_KeyMap {
  forward : gmap string nat;
  reverse : list (option string);
  next_index : nat
}.

#[export] Instance KeyMap_eq_dec : EqDecision KeyMap.
Proof. solve_decision. Defined.

Module KM.

Definition new : KeyMap := mk_KeyMap ∅ [] 0.

Definition get (km : KeyMap) (key : string) : option nat := forward km !! key.

Definition get_or_create (km : KeyMap) (key : string) : KeyMap * nat :=
  match forward km !! key with
  | Some idx => (km, idx)
  | None =>
      let idx := next_index km in
      (mk_KeyMap (<[key := idx]> (forward km))
                 (<[idx := Some key]> (resize_up None (idx + 1) (reverse km)))
                 (idx + 1), idx)
  end.

Definition key_at (km : KeyMap) (idx : nat) : option string := mjoin (reverse km !! idx).
Definition all_keys (km : KeyMap) : list (string * nat) := entries (forward km).
Definition len (km : KeyMap) : nat := size (forward km).
Definition is_empty (km : KeyMap) : bool := bool_decide (forward km = ∅).

Definition keys_matching (km : KeyMap) (pattern : string) : list (string * nat) :=
  match strip_suffix "%" pattern with
  | Some prefix => filter (λ kv, starts_with kv.1 prefix = true) (entries (forward km))
  | None =>
      match forward km !! pattern with
      | Some v => [(pattern, v)]
      | None => []
      end
  end.

End KM.

(** The cell of a key. *)
Definition cell (km : KeyMap) (l : list N) (key : string) : option N :=
  idx ← KM.get km key; l !! idx.

(** [get_or_create] for each key in turn, with the writes to their cells; the clients of
    the database build their deltas in this way. *)
Fixpoint put_keys (km : KeyMap) (kvs : list (string * N)) : KeyMap * list (nat * N) :=
  match kvs with
  | [] => (km, [])
  | (key, value) :: kvs' =>
      let '(km1, idx) := KM.get_or_create km key in
      let '(km2, ws) := put_keys km1 kvs' in
      (km2, (idx, value) :: ws)
  end.

(** The registry invariant: [forward] and [reverse] are inverse, and the indices
    in use are exactly those below [next_index]. *)
Record keymap_wf (km : KeyMap) : Prop := {
  kw_length : length (reverse km) = next_index km;
  kw_inverse : ∀ k i, forward km !! k = Some i ↔ reverse km !! i = Some (Some k);
  kw_dense : ∀ i, i < next_index km → is_Some (KM.key_at km i)
}.

(** ** Lemmas on the state *)

Lemma length_apply_write l w :
  length (apply_write l w) = length l `max` (w.1 + 1).
Proof.
  destruct w as [i v]. simpl. rewrite length_insert.
  destruct (Nat.leb_spec (length l) i); [rewrite length_resize_up|]; lia.
Qed.

Lemma get_or_apply_write l w i :
  get_or 0%N (apply_write l w) i = if decide (i = w.1) then w.2 else get_or 0%N l i.
Proof.
  destruct w as [j v]. simpl. case_decide as Hij.
  - subst. apply get_or_insert_eq.
    destruct (Nat.leb_spec (length l) j); [rewrite length_resize_up|]; lia.
  - rewrite get_or_insert_ne by done. destruct (_ <=? _); [apply get_or_resize_up|done].
Qed.

Definition read_after (ws : list (nat * N)) (f : nat → N) : nat → N :=
  foldl (λ f w i, if decide (i = w.1) then w.2 else f i) f ws.

Lemma read_after_cons w ws f :
  read_after (w :: ws) f = read_after ws (λ i, if decide (i = w.1) then w.2 else f i).
Proof. done. Qed.

Lemma value_at_apply_writes ws l i :
  get_or 0%N (foldl apply_write l ws) i = read_after ws (get_or 0%N l) i.
Proof.
  revert l. induction ws as [|w ws IH]; intros l; [done|]. simpl. rewrite IH.
  unfold read_after. simpl. clear IH.
  assert (∀ f g : nat → N, (∀ j, f j = g j) → ∀ j,
    foldl (λ f w i, if decide (i = w.1) then w.2 else f i) f ws j =
    foldl (λ f w i, if decide (i = w.1) then w.2 else f i) g ws j) as Hext.
  { induction ws as [|w' ws IH]; intros f g Hfg j; [apply Hfg|].
    simpl. apply IH. intros k. case_decide; auto. }
  apply Hext. intros j. apply get_or_apply_write.
Qed.

(** [apply] refines function update: reading after the writes is reading the last
    write to the index, or the old value. *)
Lemma value_at_apply s d i :
  value_at (apply s d) i = read_after (writes d) (value_at s) i.
Proof. apply value_at_apply_writes. Qed.

Lemma value_at_apply_single s i v j :
  value_at (apply s (mk_Delta [(i, v)])) j = if decide (j = i) then v else value_at s j.
Proof. by rewrite value_at_apply. Qed.

Lemma read_after_untouched ws f i : i ∉ ws.*1 → read_after ws f i = f i.
Proof.
  revert f. induction ws as [|[j v] ws IH]; intros f; [done|].
  intros [Hne Hi]%not_elem_of_cons. rewrite read_after_cons, IH by done.
  by rewrite decide_False.
Qed.

(** Writes to different cells, as a map. *)
Lemma read_after_map ws f i :
  NoDup ws.*1 → read_after ws f i = default (f i) ((list_to_map ws : gmap nat N) !! i).
Proof.
  revert f. induction ws as [|[j v] ws IH]; intros f; [done|].
  cbn [fmap list_fmap fst]. intros [Hj Hnd]%NoDup_cons. rewrite read_after_cons, IH by done.
  cbn [list_to_map foldr fst snd]. simpl. destruct (decide (i = j)) as [->|Hne].
  - rewrite lookup_insert_eq. by rewrite not_elem_of_list_to_map_1.
  - by rewrite lookup_insert_ne by done.
Qed.

(** The length [apply] leaves: the old length, or one past the largest index written. *)
Definition max_write_end (ws : list (nat * N)) : nat :=
  foldr (λ w n, (w.1 + 1) `max` n) 0 ws.

Lemma length_apply s d :
  length (values (apply s d)) = length (values s) `max` max_write_end (writes d).
Proof.
  destruct s as [l], d as [ws]. simpl. revert l.
  induction ws as [|w ws IH]; intros l; simpl; [lia|].
  rewrite IH, length_apply_write. lia.
Qed.

Lemma apply_u64 s d :
  Forall is_u64 (values s) → Forall (λ w, is_u64 w.2) (writes d) →
  Forall is_u64 (values (apply s d)).
Proof.
  destruct s as [l], d as [ws]. simpl. intros Hl Hw. revert l Hl.
  induction Hw as [|[i v] ws Hv Hw IH]; intros l Hl; simpl; [done|].
  apply IH. apply Forall_insert; [|done].
  destruct (_ <=? _); [|done]. apply Forall_app. split; [done|].
  apply Forall_replicate. unfold is_u64, u64_max. lia.
Qed.

(** ** Lemmas on the key map *)

Lemma keymap_new_wf : keymap_wf KM.new.
Proof.
  split; [done| |simpl; lia]. intros k i. simpl. by rewrite lookup_empty, lookup_nil.
Qed.

Lemma keymap_get_bound km k i : keymap_wf km → KM.get km k = Some i → i < next_index km.
Proof.
  intros Hwf Hk. apply (kw_inverse _ Hwf) in Hk. rewrite <-(kw_length _ Hwf).
  by apply lookup_lt_Some in Hk.
Qed.

Lemma keymap_get_inj km k k' i :
  keymap_wf km → KM.get km k = Some i → KM.get km k' = Some i → k = k'.
Proof.
  intros Hwf Hk%(kw_inverse _ Hwf) Hk'%(kw_inverse _ Hwf). congruence.
Qed.

Lemma keymap_key_at km k i : keymap_wf km → KM.key_at km i = Some k ↔ KM.get km k = Some i.
Proof.
  intros Hwf. unfold KM.get. rewrite (kw_inverse _ Hwf). unfold KM.key_at.
  destruct (reverse km !! i) as [[?|]|]; simpl; naive_solver.
Qed.

Lemma get_or_create_get km key : KM.get (KM.get_or_create km key).1 key = Some (KM.get_or_create km key).2.
Proof.
  unfold KM.get_or_create. destruct (forward km !! key) eqn:E; [done|].
  unfold KM.get. simpl. apply lookup_insert_eq.
Qed.

Lemma get_or_create_mono km key k i :
  KM.get km k = Some i → KM.get (KM.get_or_create km key).1 k = Some i.
Proof.
  unfold KM.get_or_create. destruct (forward km !! key) eqn:E; [done|].
  unfold KM.get. simpl. intros. rewrite lookup_insert_ne by congruence. done.
Qed.

Lemma get_or_create_wf km key : keymap_wf km → keymap_wf (KM.get_or_create km key).1.
Proof.
  intros Hwf. unfold KM.get_or_create. destruct (forward km !! key) as [j|] eqn:E; [done|].
  pose proof (kw_length _ Hwf) as Hlen. simpl.
  assert (∀ i, <[next_index km:=Some key]> (resize_up None (next_index km + 1) (reverse km)) !! i
    = if decide (i = next_index km) then Some (Some key) else reverse km !! i) as Hrev.
  { intros i. case_decide as Hi.
    - subst. apply list_lookup_insert_eq. rewrite length_resize_up. lia.
    - rewrite list_lookup_insert_ne by done. unfold resize_up.
      destruct (decide (i < length (reverse km))); [by apply lookup_app_l|].
      rewrite !lookup_ge_None_2; [done|lia|]. rewrite length_app, length_replicate. lia. }
  split; simpl.
  - rewrite length_insert, length_resize_up. lia.
  - intros k i. rewrite Hrev. case_decide as Hi.
    + subst. destruct (decide (k = key)) as [->|Hk]; [by rewrite lookup_insert_eq|].
      rewrite lookup_insert_ne by done. split; [|naive_solver].
      intros Hk'%(keymap_get_bound _ _ _ Hwf). lia.
    + rewrite <-(kw_inverse _ Hwf). destruct (decide (k = key)) as [->|Hk].
      * rewrite lookup_insert_eq, E. naive_solver.
      * by rewrite lookup_insert_ne.
  - intros i Hi. unfold KM.key_at. simpl. rewrite Hrev. case_decide; [by eexists|].
    apply (kw_dense _ Hwf). lia.
Qed.

Lemma get_or_create_fresh km key :
  forward km !! key = None → (KM.get_or_create km key).2 = next_index km.
Proof. unfold KM.get_or_create. by intros ->. Qed.

(** [keys_matching] returns the keys with the prefix (pattern [p%]) or the exact key,
    in key order, with their indices. *)
Lemma elem_of_keys_matching km pattern k i :
  (k, i) ∈ KM.keys_matching km pattern ↔
  KM.get km k = Some i ∧
  match strip_suffix "%" pattern with
  | Some prefix => ∃ rest, k = prefix +:+ rest
  | None => k = pattern
  end.
Proof.
  unfold KM.keys_matching, KM.get. destruct (strip_suffix "%" pattern) as [prefix|].
  - rewrite list_elem_of_filter, elem_of_entries. simpl. rewrite starts_with_true. naive_solver.
  - destruct (forward km !! pattern) eqn:E; set_solver.
Qed.

(** ** Cells of keys *)

Lemma apply_write_lookup l w i v : l !! i = Some v → i ≠ w.1 → apply_write l w !! i = Some v.
Proof.
  destruct w as [j x]. simpl. intros Hi Hne. rewrite list_lookup_insert_ne by done.
  destruct (_ <=? _); [|done]. by apply lookup_app_l_Some.
Qed.
Lemma apply_write_here l i v : apply_write l (i, v) !! i = Some v.
Proof.
  simpl. apply list_lookup_insert_eq.
  destruct (Nat.leb_spec (length l) i); [rewrite length_resize_up|]; lia.
Qed.

Lemma apply_writes_untouched ws l i v :
  l !! i = Some v → i ∉ ws.*1 → foldl apply_write l ws !! i = Some v.
Proof.
  revert l. induction ws as [|w ws IH]; intros l Hi Hn; [done|]. simpl.
  apply not_elem_of_cons in Hn as [Hne Hn]. apply IH; [by apply apply_write_lookup|done].
Qed.

(** Writes that agree on an index leave it with their value. *)
Lemma apply_writes_agree ws l i v :
  i ∈ ws.*1 → (∀ x, (i, x) ∈ ws → x = v) → foldl apply_write l ws !! i = Some v.
Proof.
  revert l. induction ws as [|[j x] ws IH]; intros l Hi Hv; [by apply not_elem_of_nil in Hi|].
  cbn [foldl]. destruct (decide (i ∈ ws.*1)) as [Hin|Hin].
  { apply IH; [done|]. intros y Hy. apply Hv. by right. }
  cbn in Hi. apply elem_of_cons in Hi as [->|Hi]; [|done].
  rewrite <-(Hv x) by left. apply apply_writes_untouched; [apply apply_write_here|done].
Qed.

Lemma put_keys_spec kvs (km km' : KeyMap) (ws : list (nat * N)) :
  keymap_wf km → put_keys km kvs = (km', ws) →
  keymap_wf km' ∧ (∀ k i, KM.get km k = Some i → KM.get km' k = Some i) ∧
  Forall2 (λ kv w, KM.get km' kv.1 = Some w.1 ∧ w.2 = kv.2) kvs ws.
Proof.
  revert km km' ws. induction kvs as [|[key v] kvs IH]; intros km km' ws Hwf E.
  { injection E as <- <-. split; [done|]. by split. }
  cbn [put_keys] in E. pose proof (get_or_create_wf km key Hwf) as Hwf1.
  pose proof (get_or_create_get km key) as Hk. pose proof (get_or_create_mono km key) as Hm.
  destruct (KM.get_or_create km key) as [km1 idx]. destruct (put_keys km1 kvs) as [km2 ws2] eqn:E2.
  injection E as <- <-. destruct (IH km1 km2 ws2 Hwf1 E2) as (Hwf2 & Hm2 & Hall).
  split; [done|]. split; [intros k i Hki; by apply Hm2, Hm|].
  constructor; [|done]. split; [|done]. by apply Hm2.
Qed.

Lemma put_keys_fst kvs km' ws i key :
  Forall2 (λ (kv : string * N) (w : nat * N), KM.get km' kv.1 = Some w.1 ∧ w.2 = kv.2) kvs ws →
  keymap_wf km' → KM.get km' key = Some i → ∀ v, (i, v) ∈ ws ↔ (key, v) ∈ kvs.
Proof.
  intros Hall Hwf Hk v. induction Hall as [|[k x] [j y] kvs ws [Hj Hy] Hall IH].
  { by rewrite !elem_of_nil. }
  rewrite !elem_of_cons, IH. simpl in *. subst y. split; intros [[= -> ->]|?]; try (by right); left.
  - f_equal. by eapply keymap_get_inj.
  - congruence.
Qed.

(** Putting keys and applying their writes keeps the cells of other keys, and sets the
    cells of the keys whose values agree. *)
Lemma put_keys_cells kvs km l km' ws :
  keymap_wf km → put_keys km kvs = (km', ws) →
  keymap_wf km' ∧
  (∀ k v, cell km l k = Some v → cell km' l k = Some v) ∧
  (∀ k v, cell km l k = Some v → k ∉ kvs.*1 → cell km' (foldl apply_write l ws) k = Some v) ∧
  (∀ k v, k ∈ kvs.*1 → (∀ x, (k, x) ∈ kvs → x = v) → cell km' (foldl apply_write l ws) k = Some v).
Proof.
  intros Hwf E. destruct (put_keys_spec _ _ _ _ Hwf E) as (Hwf' & Hm & Hall).
  split; [done|]. unfold cell. split; [|split].
  - intros k v Hc. apply bind_Some in Hc as (i & Hi & Hv). by rewrite (Hm k i Hi).
  - intros k v Hc Hk. apply bind_Some in Hc as (i & Hi & Hv). rewrite (Hm k i Hi). simpl.
    apply apply_writes_untouched; [done|]. intros ((j & x) & -> & Hx)%list_elem_of_fmap.
    apply Hk. apply list_elem_of_fmap. exists (k, x). split; [done|].
    eapply (put_keys_fst _ _ _ j); [done..|by apply Hm|done].
  - intros k v ((k' & x) & -> & Hx)%list_elem_of_fmap Hv. simpl in *.
    assert (∃ i, KM.get km' k' = Some i) as [i Hi].
    { apply list_elem_of_lookup in Hx as [n Hn].
      destruct (Forall2_lookup_l _ _ _ _ _ Hall Hn) as (w & _ & Hw & _). by eexists. }
    rewrite Hi. simpl. pose proof (put_keys_fst _ _ _ _ _ Hall Hwf' Hi) as Hiff.
    apply apply_writes_agree; [|intros y Hy%Hiff; by apply Hv].
    apply list_elem_of_fmap. exists (i, x). split; [done|]. by apply Hiff.
Qed.

#[export] Hint Resolve keymap_new_wf get_or_create_wf get_or_create_mono : nucleus.
