(* ===== verification/VectorCommit.v ===== *)
(** * Vector commitments: [src/src/vc/mod.rs] and [src/src/vc/binary_merkle.rs]

    The trait [VC] is the class [VC]; [VC_Laws] states what the protocol relies
    on: an honest opening verifies, and an accepted opening of a non-empty vector
    is the committed value.  The binary Merkle back end implements both; the IPA
    and KZG back ends compute with elliptic-curve crates outside the repository. *)
From S2P Require Export Merkle Store.

Definition FieldElem := N.
Definition RootDigest := NodeHash.

Class VC := {
  Commitment : Type;
  Proof : Type;
  vc_commit : list FieldElem → Commitment;
  vc_open : list FieldElem → nat → Proof;
  vc_verify : Commitment → nat → FieldElem → Proof → bool;
  vc_digest : Commitment → RootDigest
}.
Arguments Commitment _ : clear implicits.
Arguments Proof _ : clear implicits.

Class VC_Laws (B : VC) `{Sha2} := {
  vc_complete (v : list N) i x :
    v !! i = Some x → vc_verify (vc_commit v) i x (vc_open v i) = true;
  (** What is hashed for a vector, and for an opening. *)
  vc_strings : list FieldElem → list bytes;
  vc_opening_strings : list FieldElem → nat → FieldElem → Proof B → list bytes;
  vc_binding (v : list N) i x p :
    v ≠ [] → vc_verify (vc_commit v) i x p = true →
    v !! i = Some x ∨ collides sha256 (vc_strings v ++ vc_opening_strings v i x p);
  vc_digest_binding (v w : list N) :
    length v = length w → vc_digest (vc_commit v) = vc_digest (vc_commit w) →
    v = w ∨ collides sha256 (vc_strings v ++ vc_strings w)
}.

(** ** Binary Merkle trees *)

Record BMCommitment := { bm_root : NodeHash; leaf_count : nat }.
Record BMProof := {
  bp_index : nat;
  bp_leaf_hash : NodeHash;
  bp_path : list NodeHash;
  bp_tree_size : nat
}.

#[export] Instance BMCommitment_eq_dec : EqDecision BMCommitment.
Proof. solve_decision. Defined.
#[export] Instance BMProof_eq_dec : EqDecision BMProof.
Proof. solve_decision. Defined.

Section binary_merkle.
Context `{Sha2}.

Definition value_leaf_payload (index : nat) (value : FieldElem) : string :=
  "nucleusdb.vc.binary_merkle.leaf.v1|idx=" +:+ dec_nat index +:+ "|value=" +:+ dec value.
Definition value_leaf (index : nat) (value : FieldElem) : NodeHash :=
  leaf_hash (as_bytes (value_leaf_payload index value)).
Definition value_leaves (v : list FieldElem) : list NodeHash := imap value_leaf v.

Definition bm_commit (v : list FieldElem) : BMCommitment :=
  let leaves := value_leaves v in
  {| bm_root := merkle_tree_hash leaves; leaf_count := length leaves |}.

Definition bm_open (v : list FieldElem) (i : nat) : BMProof :=
  let leaves := value_leaves v in
  {| bp_index := i;
     bp_leaf_hash := default (value_leaf i 0%N) (leaves !! i);
     bp_path := default [] (inclusion_path leaves i);
     bp_tree_size := length leaves |}.

Definition bm_verify (c : BMCommitment) (i : nat) (value : FieldElem) (p : BMProof) : bool :=
  if negb (bp_index p =? i) || negb (bp_tree_size p =? leaf_count c) then false
  else if negb (bool_decide (bp_leaf_hash p = value_leaf i value)) then false
  else if bp_tree_size p =? 0 then bool_decide (bm_root c = merkle_tree_hash [])
  else verify_inclusion_proof
         {| ip_leaf_index := N.of_nat (bp_index p);
            ip_tree_size := N.of_nat (bp_tree_size p);
            ip_leaf_hash := bp_leaf_hash p;
            ip_path := bp_path p |} (bm_root c).

Definition bm_digest (c : BMCommitment) : RootDigest := bm_root c.

#[export] Instance DemoBinaryMerkle : VC := {|
  Commitment := BMCommitment; Proof := BMProof;
  vc_commit := bm_commit; vc_open := bm_open;
  vc_verify := bm_verify; vc_digest := bm_digest
|}.

(** ** Lemmas *)

Lemma length_value_leaves v : length (value_leaves v) = length v.
Proof. apply length_imap. Qed.

Lemma lookup_value_leaves v i : value_leaves v !! i = value_leaf i <$> v !! i.
Proof. apply list_lookup_imap. Qed.

(** The strings behind the leaves, and all strings hashed for a vector and for an opening. *)
Definition leaf_input (i : nat) (x : FieldElem) : bytes := x00 :: as_bytes (value_leaf_payload i x).
Definition bm_strings (v : list FieldElem) : list bytes :=
  imap leaf_input v ++ tree_strings (value_leaves v).
Definition bm_opening_strings (v : list FieldElem) (i : nat) (x : FieldElem) (p : BMProof) : list bytes :=
  leaf_input i x :: inclusion_strings
    {| ip_leaf_index := N.of_nat i; ip_tree_size := N.of_nat (length v);
       ip_leaf_hash := value_leaf i x; ip_path := bp_path p |}.

Lemma value_leaf_inj i x y :
  value_leaf i x = value_leaf i y → x = y ∨ collides sha256 [leaf_input i x; leaf_input i y].
Proof.
  unfold value_leaf, leaf_hash. intros [E|?]%sha256_inj_or_collides; [left|by right].
  apply (inj (cons x00)), (f_equal of_bytes) in E. rewrite !of_as_bytes in E.
  unfold value_leaf_payload in E. apply (inj (String.append _)) in E.
  apply (inj (String.append _)) in E. apply (inj (String.append _)) in E.
  by apply dec_inj.
Qed.

Lemma imap_inj_or_collides (f : nat → N → NodeHash) (g : nat → N → bytes) v w :
  (∀ i x y, f i x = f i y → x = y ∨ collides sha256 [g i x; g i y]) →
  imap f v = imap f w → v = w ∨ collides sha256 (imap g v ++ imap g w).
Proof.
  revert f g w. induction v as [|x v IH]; intros f g [|y w] Hf E; try done; [by left|].
  rewrite !imap_cons in E. rewrite !imap_cons. injection E as Exy E.
  apply Hf in Exy as [->|?]; [|by_collision].
  apply (IH _ (g ∘ S)) in E as [->|?]; [by left|by_collision|]. intros i. apply (Hf (S i)).
Qed.

Lemma value_leaves_inj v w :
  value_leaves v = value_leaves w → v = w ∨ collides sha256 (imap leaf_input v ++ imap leaf_input w).
Proof. apply imap_inj_or_collides, value_leaf_inj. Qed.

Lemma bm_verify_spec v i x p :
  v ≠ [] →
  bm_verify (bm_commit v) i x p = true ↔
    bp_index p = i ∧ bp_tree_size p = length v ∧ bp_leaf_hash p = value_leaf i x ∧
    verify_inclusion_proof
      {| ip_leaf_index := N.of_nat i; ip_tree_size := N.of_nat (length v);
         ip_leaf_hash := value_leaf i x; ip_path := bp_path p |}
      (merkle_tree_hash (value_leaves v)) = true.
Proof.
  intros Hv. unfold bm_verify. simpl. rewrite length_value_leaves.
  destruct p as [j lh path n]; simpl.
  destruct (Nat.eqb_spec j i) as [->|]; simpl; [|naive_solver].
  destruct (Nat.eqb_spec n (length v)) as [->|]; simpl; [|naive_solver].
  case_bool_decide as Hlh; simpl; [subst|naive_solver].
  destruct (Nat.eqb_spec (length v) 0) as [Hl|]; [by apply nil_length_inv in Hl|].
  naive_solver.
Qed.

Lemma bm_complete v i x :
  v !! i = Some x → bm_verify (bm_commit v) i x (bm_open v i) = true.
Proof.
  intros Hx. pose proof (lookup_lt_Some _ _ _ Hx) as Hi.
  apply bm_verify_spec; [by destruct v|]. unfold bm_open. simpl.
  rewrite length_value_leaves, lookup_value_leaves, Hx. split_and!; [done..|].
  destruct (inclusion_path_verifies (value_leaves v) i) as (path & leaf & Hp & Hleaf & Hv);
    [by rewrite length_value_leaves|].
  rewrite lookup_value_leaves, Hx in Hleaf. simplify_eq/=. rewrite Hp. simpl.
  by rewrite length_value_leaves in Hv.
Qed.

Lemma bm_binding v i x p :
  v ≠ [] → bm_verify (bm_commit v) i x p = true →
  v !! i = Some x ∨ collides sha256 (bm_strings v ++ bm_opening_strings v i x p).
Proof.
  intros Hv (_ & _ & _ & Hp)%bm_verify_spec; [|done].
  unfold bm_strings, bm_opening_strings. rewrite <-length_value_leaves in Hp |- *.
  apply verify_inclusion_proof_leaf in Hp as [Hp|?]; [|by_collision|done].
  simpl in Hp. rewrite Nat2N.id in Hp.
  rewrite lookup_value_leaves in Hp. apply fmap_Some in Hp as (y & Hy & Hxy).
  apply value_leaf_inj in Hxy as [->|?]; [by left|].
  assert (leaf_input i y ∈ imap leaf_input v) by (apply elem_of_lookup_imap; eauto). by_collision.
Qed.

#[export] Instance DemoBinaryMerkle_laws : VC_Laws DemoBinaryMerkle.
Proof.
  refine {| vc_strings := bm_strings; vc_opening_strings := bm_opening_strings |}.
  - intros v i x. apply bm_complete.
  - intros v i x p. apply bm_binding.
  - intros v w Hl E. cbn in E. unfold bm_digest in E. simpl in E.
    unfold bm_strings. apply merkle_tree_hash_inj in E as [E|?]; [|by_collision|by rewrite !length_value_leaves].
    apply value_leaves_inj in E as [->|?]; [by left|by_collision].
Defined.

(** ** Properties *)

(** Binary Merkle vector commitments are correct and position
    binding: for a non-empty vector the verifier accepts the honest opening of every
    index, and an opening accepted for index [i] and value [x] means that [x] is the
    committed value at [i], or SHA-256 collides on the strings hashed for both. *)
Theorem binary_merkle_opening v i x p :
  v ≠ [] → bm_verify (bm_commit v) i x p = true →
  (v !! i = Some x ∧ bm_verify (bm_commit v) i x (bm_open v i) = true) ∨
  collides sha256 (bm_strings v ++ bm_opening_strings v i x p).
Proof.
  intros Hv [Hx|?]%bm_binding; [left|by right|done]. split; [done|by apply bm_complete].
Qed.

(** The commitment to the empty vector binds nothing: [verify]
    accepts every value at every index. *)
Theorem binary_merkle_empty_opens_anything i x :
  ∃ p, bm_verify (bm_commit []) i x p = true.
Proof.
  exists {| bp_index := i; bp_leaf_hash := value_leaf i x; bp_path := []; bp_tree_size := 0 |}.
  unfold bm_verify. simpl. rewrite Nat.eqb_refl. by rewrite !bool_decide_eq_true_2.
Qed.
End binary_merkle.

Lemma binary_merkle_opening_witness :
  let sha := prefix_sha in
  ([3; 5; 8]%N !! 1 = Some 5%N ∧
     bm_verify (bm_commit [3; 5; 8]%N) 1 5%N (bm_open [3; 5; 8]%N 1) = true) ∨
  collides sha256 (bm_strings [3; 5; 8]%N ++ bm_opening_strings [3; 5; 8]%N 1 5%N (bm_open [3; 5; 8]%N 1)).
Proof.
  apply (binary_merkle_opening (H:=prefix_sha) [3; 5; 8]%N 1 5%N (bm_open (H:=prefix_sha) [3; 5; 8]%N 1));
    by vm_compute.
Defined.
