(* ===== verification/CurveCommit.v ===== *)
(** * Elliptic-curve vector commitments: [src/src/vc/ipa.rs], [src/src/vc/kzg.rs]

    The curve and polynomial arithmetic ([curve25519-dalek], the [ark-*] crates,
    [kzg-mini]) is outside the repository: its operations are the fields of the
    classes [Ristretto] and [KzgLib], with no laws assumed.  The adapters, their
    guards, and the trusted-setup checks are translated on top of them. *)
From S2P Require Export VectorCommit.

(** [copy_from_slice(&digest[..32])]. *)
Definition first32 (d : arr 64) : arr 32 := to_arr 32 (take 32 (arr_bytes d)).

(** [hex_decode_exact::<N>], written alike in [witness.rs] and [kzg.rs]. *)
Definition hex_decode_exact (n : nat) (s : string) : option (arr n) :=
  if negb (str_len s =? n * 2) then None else hex_decode s ≫= try_arr n.

(** ** Pedersen vector commitments *)

Class Ristretto := {
  RistrettoPoint : Type;
  ristretto_zero : RistrettoPoint;
  ristretto_add : RistrettoPoint → RistrettoPoint → RistrettoPoint;
  (** [g * Scalar::from(value)] for a [u64]. *)
  ristretto_scale : RistrettoPoint → N → RistrettoPoint;
  ristretto_from_hash : arr 64 → RistrettoPoint;
  ristretto_compress : RistrettoPoint → arr 32
}.

Record IpaCommitment := { ipa_encoded : arr 32; ipa_len : nat }.
Record IpaProof := { ipa_index : nat; ipa_value : N; ipa_vector : list N }.

#[export] Instance IpaCommitment_eq_dec : EqDecision IpaCommitment.
Proof. solve_decision. Defined.
#[export] Instance IpaProof_eq_dec : EqDecision IpaProof.
Proof. solve_decision. Defined.

Section ipa.
Context `{Sha2, Ristretto}.

Definition point_digest (point : arr 32) : RootDigest :=
  first32 (sha512 (as_bytes "nucleusdb.ipa.digest.v1" ++ arr_bytes point)).

Definition generator_for_index (i : nat) : RistrettoPoint :=
  ristretto_from_hash
    (sha512 (as_bytes "nucleusdb.ipa.generator.v1" ++ le_bytes 8 (N.of_nat i))).

Definition pedersen_vector_commit (v : list FieldElem) : arr 32 :=
  ristretto_compress
    (foldl (λ acc '(i, value), ristretto_add acc (ristretto_scale (generator_for_index i) value))
       ristretto_zero (enumerate v)).

Definition ipa_commit (v : list FieldElem) : IpaCommitment :=
  {| ipa_encoded := pedersen_vector_commit v; ipa_len := length v |}.

Definition ipa_open (v : list FieldElem) (i : nat) : IpaProof :=
  {| ipa_index := i; ipa_value := get_or 0%N v i; ipa_vector := v |}.

Definition ipa_verify (c : IpaCommitment) (i : nat) (value : FieldElem) (p : IpaProof) : bool :=
  if negb (ipa_index p =? i) || negb (ipa_value p =? value)%N then false
  else if negb (length (ipa_vector p) =? ipa_len c) then false
  else if negb (get_or 0%N (ipa_vector p) i =? value)%N then false
  else bool_decide (pedersen_vector_commit (ipa_vector p) = ipa_encoded c).

Definition ipa_digest (c : IpaCommitment) : RootDigest := point_digest (ipa_encoded c).

#[export] Instance DemoIpa : VC := {|
  Commitment := IpaCommitment; Proof := IpaProof;
  vc_commit := ipa_commit; vc_open := ipa_open;
  vc_verify := ipa_verify; vc_digest := ipa_digest
|}.

(** These two vectors are different, of one length and have one Pedersen commitment. *)
Definition pedersen_clash (v w : list N) : Prop :=
  v ≠ w ∧ length v = length w ∧ pedersen_vector_commit v = pedersen_vector_commit w.

Lemma ipa_opening_spec v i x :
  ipa_verify (ipa_commit v) i (get_or 0%N v i) (ipa_open v i) = true ∧
  (∀ p, ipa_verify (ipa_commit v) i x p = true → x = get_or 0%N v i ∨ pedersen_clash (ipa_vector p) v).
Proof.
  split.
  - unfold ipa_verify. simpl. rewrite !Nat.eqb_refl, !N.eqb_refl. simpl.
    by apply bool_decide_eq_true.
  - intros p Hp. unfold ipa_verify in Hp. simpl in Hp.
    destruct (_ || _); [done|]. destruct (Nat.eqb_spec (length (ipa_vector p)) (length v));
      [simpl in Hp|done].
    destruct (N.eqb_spec (get_or 0%N (ipa_vector p) i) x); [simpl in Hp|done]. bool_hyps.
    destruct (decide (ipa_vector p = v)) as [E|]; [left; congruence|].
    by right.
Qed.

(** The IPA back end opens every index of every vector, out of
    range to 0, and an accepted opening shows the committed value, unless the vector of
    the opening is another one with the same length and Pedersen commitment. *)
Theorem ipa_opening v i x :
  ipa_verify (ipa_commit v) i (get_or 0%N v i) (ipa_open v i) = true ∧
  (∀ p, ipa_verify (ipa_commit v) i x p = true → x = get_or 0%N v i ∨ pedersen_clash (ipa_vector p) v).
Proof. apply ipa_opening_spec. Qed.
End ipa.

(** ** KZG *)

Class KzgLib := {
  Fr : Type;
  Fr_eq_dec :: EqDecision Fr;
  Fr_from : N → Fr;
  Fr_neg : Fr → Fr;
  Fr_sub : Fr → Fr → Fr;
  Fr_mul : Fr → Fr → Fr;
  Fr_inverse : Fr → option Fr;
  Polynomial : Type;
  poly_zero : Polynomial;
  poly_new : list Fr → Polynomial;
  poly_mul : Polynomial → Polynomial → Polynomial;
  poly_add : Polynomial → Polynomial → Polynomial;
  poly_scale : Polynomial → Fr → Polynomial;
  poly_coeffs : Polynomial → list Fr;
  G1 : Type;
  serialize_G1 : G1 → bytes;
  deserialize_G1 : bytes → option G1;
  KZGCeremony : Type;
  (** [KZGCeremony::setup(degree, tau, g1, g2)] at the generators. *)
  kzg_setup : nat → Fr → KZGCeremony;
  ceremony_commit : KZGCeremony → Polynomial → G1;
  (** The proof point of [ceremony.open(&poly, point)]. *)
  ceremony_open : KZGCeremony → Polynomial → Fr → G1;
  (** [ceremony.verify(commitment, &MiniKzgProof { point, value, proof })]. *)
  ceremony_verify : KZGCeremony → G1 → Fr → Fr → G1 → bool
}.

Record KzgCommitment := { kzg_encoded : bytes; kzg_degree : nat }.
Record KzgProof := {
  kp_index : nat;
  kp_value : N;
  kp_degree : nat;
  kp_proof_encoded : bytes
}.

#[export] Instance KzgCommitment_eq_dec : EqDecision KzgCommitment.
Proof. solve_decision. Defined.
#[export] Instance KzgProof_eq_dec : EqDecision KzgProof.
Proof. solve_decision. Defined.

Definition CURVE_BLS12_381 : string := "bls12-381".

Record TrustedSetupArtifact := {
  setup_id : string;
  curve : string;
  setup_max_degree : N;
  tau_seed_hex : string;
  attestation_sha512 : string
}.

Inductive TrustedSetupError :=
| SetupIo (msg : string)
| SetupParse (msg : string)
| CurveMismatch (expected got : string)
| InvalidMaxDegree (max_degree : N)
| InvalidTauSeedHex (tau : string)
| SetupIdMismatch (expected got : string)
| ArtifactAttestationMismatch (expected got : string)
| ExpectedAttestationMismatch (expected got : string)
| DegreeExceedsSetup (requested max : N).

#[export] Instance TrustedSetupArtifact_eq_dec : EqDecision TrustedSetupArtifact.
Proof. solve_decision. Defined.
#[export] Instance TrustedSetupError_eq_dec : EqDecision TrustedSetupError.
Proof. solve_decision. Defined.

Section kzg.
Context `{Sha2}.

(** *** Trusted-setup artifacts *)

Definition attestation_preimage (id crv : string) (max_degree : N) (tau : arr 8) : bytes :=
  as_bytes "nucleusdb.kzg.attestation.v1" ++ as_bytes id ++ [x00] ++ as_bytes crv ++ [x00] ++
  le_bytes 8 max_degree ++ arr_bytes tau.

Definition compute_trusted_setup_attestation_hex (id crv : string) (max_degree : N) (tau : string)
  : result TrustedSetupError string :=
  tau_seed ← ok_or (hex_decode_exact 8 tau) (InvalidTauSeedHex tau);
  mret (hex_encode (arr_bytes (sha512 (attestation_preimage id crv max_degree tau_seed)))).

Definition validate_trusted_setup_artifact
    (artifact : TrustedSetupArtifact) (expected_setup_id expected_attestation : string)
  : result TrustedSetupError () :=
  _ ← throw_if (negb (bool_decide (curve artifact = CURVE_BLS12_381)))
        (CurveMismatch CURVE_BLS12_381 (curve artifact));
  _ ← throw_if (setup_max_degree artifact =? 0)%N (InvalidMaxDegree 0);
  _ ← throw_if (negb (bool_decide (setup_id artifact = expected_setup_id)))
        (SetupIdMismatch expected_setup_id (setup_id artifact));
  recomputed ← compute_trusted_setup_attestation_hex (setup_id artifact) (curve artifact)
                 (setup_max_degree artifact) (tau_seed_hex artifact);
  _ ← throw_if (negb (bool_decide (attestation_sha512 artifact = recomputed)))
        (ArtifactAttestationMismatch recomputed (attestation_sha512 artifact));
  throw_if (negb (bool_decide (attestation_sha512 artifact = expected_attestation)))
    (ExpectedAttestationMismatch expected_attestation (attestation_sha512 artifact)).

(** [load_and_validate_trusted_setup]: reading and parsing the file is a parameter. *)
Definition load_and_validate_trusted_setup
    (load_trusted_setup_artifact : string → result TrustedSetupError TrustedSetupArtifact)
    (path expected_setup_id expected_attestation : string)
  : result TrustedSetupError TrustedSetupArtifact :=
  artifact ← load_trusted_setup_artifact path;
  _ ← validate_trusted_setup_artifact artifact expected_setup_id expected_attestation;
  mret artifact.

Lemma validate_trusted_setup_ok a id att :
  validate_trusted_setup_artifact a id att = Ok tt ↔
  curve a = CURVE_BLS12_381 ∧ setup_max_degree a ≠ 0%N ∧ setup_id a = id ∧
  attestation_sha512 a = att ∧
  ∃ tau, hex_decode_exact 8 (tau_seed_hex a) = Some tau ∧
    att = hex_encode (arr_bytes (sha512
      (attestation_preimage id CURVE_BLS12_381 (setup_max_degree a) tau))).
Proof.
  unfold validate_trusted_setup_artifact, compute_trusted_setup_attestation_hex. split.
  - intros Hv. inv_res. bool_hyps. subst. unfold mret, result_ret in *. inv_res.
    naive_solver congruence.
  - intros (Hc & Hd & <- & <- & tau & Htau & Hatt). rewrite Hc, Htau.
    rewrite (bool_decide_eq_true_2 (_ = _)) by done. simpl.
    destruct (N.eqb_spec (setup_max_degree a) 0); [done|]. simpl.
    rewrite (bool_decide_eq_true_2 (setup_id a = _)) by done. simpl.
    by rewrite <-Hatt, (bool_decide_eq_true_2 (_ = _)).
Qed.

Lemma attestation_preimage_inj id crv d d' tau tau' :
  (d < 256 ^ 8)%N → (d' < 256 ^ 8)%N →
  attestation_preimage id crv d tau = attestation_preimage id crv d' tau' → d = d' ∧ tau = tau'.
Proof.
  intros Hd Hd' E. unfold attestation_preimage in E.
  do 5 apply app_inv_head in E.
  apply app_len_inj in E as [E1 E2]; [|by rewrite !length_le_bytes].
  split; [|by apply arr_eq].
  by rewrite <-(of_le_bytes_le_bytes 8 d), <-(of_le_bytes_le_bytes 8 d'), E1.
Qed.

(** The text behind the attestation of an artifact. *)
Definition setup_strings (a : TrustedSetupArtifact) : list bytes :=
  match hex_decode_exact 8 (tau_seed_hex a) with
  | Some tau => [attestation_preimage (setup_id a) (curve a) (setup_max_degree a) tau]
  | None => []
  end.

(** The trusted-setup check pins the artifact: two artifacts that
    [validate_trusted_setup_artifact] accepts for one id and one attestation have the
    same curve, degree and secret seed, or the texts of their attestations collide. *)
Theorem trusted_setup_pinned a b id att :
  is_u64 (setup_max_degree a) → is_u64 (setup_max_degree b) →
  validate_trusted_setup_artifact a id att = Ok tt →
  validate_trusted_setup_artifact b id att = Ok tt →
  (setup_id a = setup_id b ∧ curve a = curve b ∧ setup_max_degree a = setup_max_degree b ∧
   hex_decode_exact 8 (tau_seed_hex a) = hex_decode_exact 8 (tau_seed_hex b)) ∨
  collides sha512 (setup_strings a ++ setup_strings b).
Proof.
  intros Ha Hb (Hca & _ & Hida & _ & ta & Hta & Ea)%validate_trusted_setup_ok
               (Hcb & _ & Hidb & _ & tb & Htb & Eb)%validate_trusted_setup_ok.
  rewrite Ea in Eb. apply (inj hex_encode), arr_eq in Eb.
  unfold setup_strings. rewrite Hta, Htb, Hca, Hcb, Hida, Hidb.
  apply sha512_inj_or_collides in Eb as [Eb|?]; [left|by right].
  apply attestation_preimage_inj in Eb as [-> ->];
    [|unfold is_u64, u64_max in *; lia..].
  split_and!; congruence.
Qed.

Context `{KzgLib}.

(** *** Interpolation and the ceremony *)

Definition to_field (v : FieldElem) : Fr := Fr_from v.
Definition domain_point (i : nat) : Fr := Fr_from (N.of_nat i + 1).

(** The inner loop: the basis polynomial of point [j] and its denominator. *)
Definition basis_loop (j n : nat) : Polynomial * Fr :=
  foldl (λ '(basis, denom) m,
    if m =? j then (basis, denom)
    else (poly_mul basis (poly_new [Fr_neg (domain_point m); Fr_from 1]),
          Fr_mul denom (Fr_sub (domain_point j) (domain_point m))))
    (poly_new [Fr_from 1], Fr_from 1) (seq 0 n).

Definition interpolate_vector (v : list FieldElem) : Polynomial :=
  match v with
  | [] => poly_zero
  | _ =>
      foldl (λ poly '(j, y_raw),
        let '(basis, denom) := basis_loop j (length v) in
        let inv := default (Fr_from 0) (Fr_inverse denom) in
        poly_add poly (poly_scale basis (Fr_mul (to_field y_raw) inv)))
        poly_zero (enumerate v)
  end.

Definition setup_with_degree (degree : nat) : KZGCeremony :=
  let digest := sha512 (as_bytes "nucleusdb.kzg.setup.v1" ++ le_bytes 8 (N.of_nat degree)) in
  kzg_setup (degree `max` 1) (Fr_from (of_le_bytes (take 8 (arr_bytes digest)))).

Definition setup_from_artifact (degree : nat) (artifact : TrustedSetupArtifact)
  : result TrustedSetupError KZGCeremony :=
  _ ← throw_if (setup_max_degree artifact <? N.of_nat degree)%N
        (DegreeExceedsSetup (N.of_nat degree) (setup_max_degree artifact));
  tau_seed ← ok_or (hex_decode_exact 8 (tau_seed_hex artifact))
               (InvalidTauSeedHex (tau_seed_hex artifact));
  mret (kzg_setup (degree `max` 1) (Fr_from (of_le_bytes (arr_bytes tau_seed)))).

(** [decode_proof] rebuilds the proof from its public parts and the encoded point. *)
Definition decode_proof (index : nat) (value : FieldElem) (encoded : bytes)
  : option (Fr * Fr * G1) :=
  g1 ← deserialize_G1 encoded; Some (domain_point index, Fr_from value, g1).

Definition digest_bytes (b : bytes) : RootDigest :=
  first32 (sha512 (as_bytes "nucleusdb.kzg.digest.v1" ++ b)).

Definition kzg_commit_with (ceremony : KZGCeremony) (poly : Polynomial) : KzgCommitment :=
  {| kzg_encoded := serialize_G1 (ceremony_commit ceremony poly);
     kzg_degree := length (poly_coeffs poly) |}.

Definition kzg_open_with (ceremony : KZGCeremony) (poly : Polynomial)
    (v : list FieldElem) (i : nat) : KzgProof :=
  {| kp_index := i; kp_value := get_or 0%N v i; kp_degree := length (poly_coeffs poly);
     kp_proof_encoded := serialize_G1 (ceremony_open ceremony poly (domain_point i)) |}.

(** The part of [verify] and [verify_trusted] after the ceremony is built. *)
Definition kzg_verify_with (ceremony : KZGCeremony) (c : KzgCommitment) (i : nat)
    (value : FieldElem) (p : KzgProof) : bool :=
  match deserialize_G1 (kzg_encoded c) with
  | None => false
  | Some commitment =>
      match decode_proof (kp_index p) (kp_value p) (kp_proof_encoded p) with
      | None => false
      | Some (point, val, g1) =>
          if negb (bool_decide (point = domain_point i))
             || negb (bool_decide (val = Fr_from value)) then false
          else ceremony_verify ceremony commitment point val g1
      end
  end.

(** The guards shared by [verify] and [verify_trusted]. *)
Definition kzg_shape_ok (c : KzgCommitment) (i : nat) (value : FieldElem) (p : KzgProof) : bool :=
  (kp_index p =? i) && (kp_value p =? value)%N && (kp_degree p =? kzg_degree c).

Definition kzg_commit (v : list FieldElem) : KzgCommitment :=
  let poly := interpolate_vector v in
  kzg_commit_with (setup_with_degree (length (poly_coeffs poly))) poly.
Definition kzg_open (v : list FieldElem) (i : nat) : KzgProof :=
  let poly := interpolate_vector v in
  kzg_open_with (setup_with_degree (length (poly_coeffs poly))) poly v i.
Definition kzg_verify (c : KzgCommitment) (i : nat) (value : FieldElem) (p : KzgProof) : bool :=
  if negb (kzg_shape_ok c i value p) then false
  else kzg_verify_with (setup_with_degree (kzg_degree c)) c i value p.
Definition kzg_digest (c : KzgCommitment) : RootDigest := digest_bytes (kzg_encoded c).

#[export] Instance DemoKzg : VC := {|
  Commitment := KzgCommitment; Proof := KzgProof;
  vc_commit := kzg_commit; vc_open := kzg_open;
  vc_verify := kzg_verify; vc_digest := kzg_digest
|}.

Definition commit_trusted (v : list FieldElem) (setup : TrustedSetupArtifact)
  : result TrustedSetupError KzgCommitment :=
  let poly := interpolate_vector v in
  ceremony ← setup_from_artifact (length (poly_coeffs poly)) setup;
  mret (kzg_commit_with ceremony poly).
Definition open_trusted (v : list FieldElem) (i : nat) (setup : TrustedSetupArtifact)
  : result TrustedSetupError KzgProof :=
  let poly := interpolate_vector v in
  ceremony ← setup_from_artifact (length (poly_coeffs poly)) setup;
  mret (kzg_open_with ceremony poly v i).
Definition verify_trusted (c : KzgCommitment) (i : nat) (value : FieldElem) (p : KzgProof)
    (setup : TrustedSetupArtifact) : result TrustedSetupError bool :=
  if negb (kzg_shape_ok c i value p) then mret false
  else
    ceremony ← setup_from_artifact (kzg_degree c) setup;
    mret (kzg_verify_with ceremony c i value p).

(** What an honest opening asks of the external library. *)
Definition kzg_complete_at (ceremony : KZGCeremony) (v : list FieldElem) (i : nat) : Prop :=
  let poly := interpolate_vector v in
  let c := ceremony_commit ceremony poly in
  let w := ceremony_open ceremony poly (domain_point i) in
  deserialize_G1 (serialize_G1 c) = Some c ∧ deserialize_G1 (serialize_G1 w) = Some w ∧
  ceremony_verify ceremony c (domain_point i) (Fr_from (get_or 0%N v i)) w = true.

Lemma kzg_open_verifies v i :
  kzg_complete_at (setup_with_degree (length (poly_coeffs (interpolate_vector v)))) v i →
  kzg_verify (kzg_commit v) i (get_or 0%N v i) (kzg_open v i) = true.
Proof.
  intros (Hc & Hw & Hv). unfold kzg_verify, kzg_shape_ok. simpl.
  rewrite !Nat.eqb_refl, N.eqb_refl. simpl. unfold kzg_verify_with, decode_proof. simpl.
  rewrite Hc, Hw. simpl. by rewrite !bool_decide_eq_true_2.
Qed.

(** The trusted path and the demo path agree when their ceremonies do. *)
Lemma verify_trusted_ceremony c i value p setup ceremony :
  setup_from_artifact (kzg_degree c) setup = Ok ceremony →
  verify_trusted c i value p setup =
    Ok (kzg_shape_ok c i value p && kzg_verify_with ceremony c i value p).
Proof.
  intros Hs. unfold verify_trusted. rewrite Hs. by destruct (kzg_shape_ok _ _ _ _).
Qed.
End kzg.

Definition ex_setup : TrustedSetupArtifact :=
  {| setup_id := "s"; curve := "bls12-381"; setup_max_degree := 4;
     tau_seed_hex := "0102030405060708";
     attestation_sha512 := hex_encode (arr_bytes (to_arr 64 (take 64
       (as_bytes "nucleusdb.kzg.attestation.v1" ++ as_bytes "s" ++ [x00] ++
        as_bytes "bls12-381" ++ [x00] ++ le_bytes 8 4 ++ [x01;x02;x03;x04;x05;x06;x07;x08])))) |}.

Lemma trusted_setup_pinned_witness :
  let sha := prefix_sha in
  (setup_id ex_setup = setup_id ex_setup ∧ curve ex_setup = curve ex_setup ∧
   setup_max_degree ex_setup = setup_max_degree ex_setup ∧
   hex_decode_exact 8 (tau_seed_hex ex_setup) = hex_decode_exact 8 (tau_seed_hex ex_setup)) ∨
  collides sha512 (setup_strings ex_setup ++ setup_strings ex_setup).
Proof.
  apply (trusted_setup_pinned (H:=prefix_sha) ex_setup ex_setup "s"
           (attestation_sha512 ex_setup)); by vm_compute.
Defined.
