(* ===== verification/Witness.v ===== *)
(** * Witness signatures and quorum: [src/src/witness.rs]

    The signature algorithms ([ed25519-dalek], [ml_dsa]) are outside the
    repository: [SigLib] has the operations the code calls, and [SigLib_Laws] the
    one documented property used, that an honest signature verifies.  Environment
    variables are the argument [env]. *)
From S2P Require Export CurveCommit.

Class SigLib := {
  Ed25519SigningKey : Type;
  Ed25519VerifyingKey : Type;
  ed_from_bytes : arr 32 → Ed25519SigningKey;
  ed_verifying_key : Ed25519SigningKey → Ed25519VerifyingKey;
  ed_sign : Ed25519SigningKey → bytes → arr 64;
  ed_verify : Ed25519VerifyingKey → bytes → arr 64 → bool;
  MlDsaSigningKey : Type;
  MlDsaVerifyingKey : Type;
  MlDsaSignature : Type;
  MlDsaEncodedSignature : Type;
  ml_from_seed : arr 32 → MlDsaSigningKey * MlDsaVerifyingKey;
  (** [sign_deterministic(message, context)]; [None] is an [Err]. *)
  ml_sign_deterministic : MlDsaSigningKey → bytes → bytes → option MlDsaSignature;
  ml_verify_with_context : MlDsaVerifyingKey → bytes → bytes → MlDsaSignature → bool;
  ml_encode : MlDsaSignature → bytes;
  ml_encoded_try_from : bytes → option MlDsaEncodedSignature;
  ml_decode : MlDsaEncodedSignature → option MlDsaSignature
}.

Class SigLib_Laws (L : SigLib) : Prop := {
  ed_correct sk m : ed_verify (ed_verifying_key sk) m (ed_sign sk m) = true;
  ml_correct seed m ctx sig :
    ml_sign_deterministic (ml_from_seed seed).1 m ctx = Some sig →
    ml_verify_with_context (ml_from_seed seed).2 m ctx sig = true;
  ml_encode_decode sig : ml_encoded_try_from (ml_encode sig) ≫= ml_decode = Some sig
}.

Definition WITNESS_SIGALG_ED25519 : string := "ed25519".
Definition WITNESS_SIGALG_MLDSA65 : string := "ml_dsa65".

Inductive WitnessSignatureAlgorithm := Ed25519 | MlDsa65.
#[export] Instance WitnessSignatureAlgorithm_eq_dec : EqDecision WitnessSignatureAlgorithm.
Proof. solve_decision. Defined.

Definition as_tag (a : WitnessSignatureAlgorithm) : string :=
  match a with
  | Ed25519 => WITNESS_SIGALG_ED25519
  | MlDsa65 => WITNESS_SIGALG_MLDSA65
  end.
Definition from_tag (tag : string) : option WitnessSignatureAlgorithm :=
  if bool_decide (tag = WITNESS_SIGALG_ED25519) then Some Ed25519
  else if bool_decide (tag = WITNESS_SIGALG_MLDSA65) then Some MlDsa65
  else None.

Lemma from_tag_as_tag a : from_tag (as_tag a) = Some a.
Proof. by destruct a. Qed.

Inductive WitnessKeyMaterialSource := EnvMasterSeed | ProvidedMasterSeed | InsecureDefaultSeed.

Inductive WitnessError :=
| MissingSigningKey (witness : string)
| MissingVerifyingKey (witness : string)
| MissingMlDsaSigningKey (witness : string)
| MissingMlDsaVerifyingKey (witness : string)
| InvalidSignatureHex
| InvalidMlDsaSignatureHex
| MlDsaSigningFailed
| UnknownAlgorithmTag (tag : string).
#[export] Instance WitnessError_eq_dec : EqDecision WitnessError.
Proof. solve_decision. Defined.

Section witness.
Context `{Sha2, SigLib}.

Record WitnessConfig := {
  threshold : nat;
  witnesses : list string;
  signing_algorithm : WitnessSignatureAlgorithm;
  key_material_source : WitnessKeyMaterialSource;
  allowed_algorithms : list WitnessSignatureAlgorithm;
  ed25519_verifying_keys : gmap string Ed25519VerifyingKey;
  ed25519_signing_keys : gmap string Ed25519SigningKey;
  mldsa65_verifying_keys : gmap string MlDsaVerifyingKey;
  mldsa65_signing_keys : gmap string MlDsaSigningKey
}.

(** ** Key derivation *)

Definition ed_seed (seed witness : string) : arr 32 :=
  first32 (sha512 (as_bytes "nucleusdb.witness.sk.v2|ed25519" ++ as_bytes seed ++ [x00] ++
                   as_bytes witness)).
Definition ml_seed (seed witness : string) : arr 32 :=
  first32 (sha512 (as_bytes "nucleusdb.witness.sk.v2|ml_dsa65" ++ as_bytes seed ++ [x00] ++
                   as_bytes witness)).

(** The loop over the witnesses: later duplicates overwrite with the same key. *)
Definition keys_of {K} (f : string → K) (ws : list string) : gmap string K :=
  foldl (λ m w, <[w := f w]> m) ∅ ws.

Definition parse_allowed (env : string → option string) : list WitnessSignatureAlgorithm :=
  match env "NUCLEUSDB_WITNESS_ALLOWED_ALGORITHMS" with
  | Some csv =>
      match omap (λ tok, from_tag (trim tok)) (split_char "," csv) with
      | [] => [Ed25519; MlDsa65]
      | set => set
      end
  | None => [Ed25519; MlDsa65]
  end.

Definition with_seed_algorithm_source (env : string → option string) (threshold : nat)
    (witnesses : list string) (seed : string) (signing_algorithm : WitnessSignatureAlgorithm)
    (key_material_source : WitnessKeyMaterialSource) : WitnessConfig :=
  let allowed := parse_allowed env in
  {| threshold := threshold;
     witnesses := witnesses;
     signing_algorithm := signing_algorithm;
     key_material_source := key_material_source;
     allowed_algorithms :=
       if bool_decide (signing_algorithm ∈ allowed) then allowed
       else signing_algorithm :: allowed;
     ed25519_verifying_keys :=
       keys_of (λ w, ed_verifying_key (ed_from_bytes (ed_seed seed w))) witnesses;
     ed25519_signing_keys := keys_of (λ w, ed_from_bytes (ed_seed seed w)) witnesses;
     mldsa65_verifying_keys := keys_of (λ w, (ml_from_seed (ml_seed seed w)).2) witnesses;
     mldsa65_signing_keys := keys_of (λ w, (ml_from_seed (ml_seed seed w)).1) witnesses |}.

Definition with_generated_keys (env : string → option string) (threshold : nat)
    (witnesses : list string) : WitnessConfig :=
  let '(seed, source) :=
    match env "NUCLEUSDB_WITNESS_MASTER_SEED" with
    | Some s => (s, EnvMasterSeed)
    | None => ("nucleusdb.dev.witness.seed.v1", InsecureDefaultSeed)
    end in
  let alg := default MlDsa65
    (env "NUCLEUSDB_WITNESS_SIGNATURE_ALGORITHM" ≫= λ tag, from_tag (trim tag)) in
  with_seed_algorithm_source env threshold witnesses seed alg source.
Definition with_seed env threshold witnesses seed : WitnessConfig :=
  with_seed_algorithm_source env threshold witnesses seed MlDsa65 ProvidedMasterSeed.
Definition with_seed_and_algorithm env threshold witnesses seed alg : WitnessConfig :=
  with_seed_algorithm_source env threshold witnesses seed alg ProvidedMasterSeed.

(** ** Signing and verification *)

Definition hex_decode_dynamic (s : string) : result WitnessError bytes :=
  ok_or (hex_decode s) InvalidSignatureHex.

Definition parse_algorithm_tag (tag : string) : result WitnessError WitnessSignatureAlgorithm :=
  ok_or (from_tag tag) (UnknownAlgorithmTag tag).
Definition default_algorithm_tag : string := WITNESS_SIGALG_ED25519.

Definition MLDSA65_CONTEXT : bytes := [].

Definition sign_message_with_algorithm (cfg : WitnessConfig) (alg : WitnessSignatureAlgorithm)
    (witness message : string) : result WitnessError string :=
  match alg with
  | Ed25519 =>
      sk ← ok_or (ed25519_signing_keys cfg !! witness) (MissingSigningKey witness);
      mret (hex_encode (arr_bytes (ed_sign sk (as_bytes message))))
  | MlDsa65 =>
      sk ← ok_or (mldsa65_signing_keys cfg !! witness) (MissingMlDsaSigningKey witness);
      sig ← ok_or (ml_sign_deterministic sk (as_bytes message) MLDSA65_CONTEXT)
              MlDsaSigningFailed;
      mret (hex_encode (ml_encode sig))
  end.
Definition sign_message (cfg : WitnessConfig) (witness message : string) :=
  sign_message_with_algorithm cfg (signing_algorithm cfg) witness message.

Definition verify_signature_with_algorithm (cfg : WitnessConfig)
    (alg : WitnessSignatureAlgorithm) (witness message sig_hex : string)
  : result WitnessError bool :=
  match alg with
  | Ed25519 =>
      vk ← ok_or (ed25519_verifying_keys cfg !! witness) (MissingVerifyingKey witness);
      sig ← ok_or (hex_decode_exact 64 sig_hex) InvalidSignatureHex;
      mret (ed_verify vk (as_bytes message) sig)
  | MlDsa65 =>
      vk ← ok_or (mldsa65_verifying_keys cfg !! witness) (MissingMlDsaVerifyingKey witness);
      sig_bytes ← map_err (λ _, InvalidMlDsaSignatureHex) (hex_decode_dynamic sig_hex);
      enc ← ok_or (ml_encoded_try_from sig_bytes) InvalidMlDsaSignatureHex;
      sig ← ok_or (ml_decode enc) InvalidMlDsaSignatureHex;
      mret (ml_verify_with_context vk (as_bytes message) MLDSA65_CONTEXT sig)
  end.
Definition verify_signature (cfg : WitnessConfig) (witness message sig_hex : string) :=
  verify_signature_with_algorithm cfg (signing_algorithm cfg) witness message sig_hex.

(** [verify_signature_with_algorithm(..).unwrap_or(false)]. *)
Definition signature_valid (cfg : WitnessConfig) (alg : WitnessSignatureAlgorithm)
    (message : string) (ws : string * string) : bool :=
  default false (res_ok (verify_signature_with_algorithm cfg alg ws.1 message ws.2)).

Definition quorum_step (cfg : WitnessConfig) (alg : WitnessSignatureAlgorithm)
    (message : string) (ok_unique : gset string) (ws : string * string) : gset string :=
  if negb (bool_decide (ws.1 ∈ witnesses cfg)) then ok_unique
  else if signature_valid cfg alg message ws then {[ws.1]} ∪ ok_unique
  else ok_unique.

Definition verify_quorum_for_algorithm (cfg : WitnessConfig) (alg : WitnessSignatureAlgorithm)
    (message : string) (sigs : list (string * string)) : bool :=
  if negb (bool_decide (alg ∈ allowed_algorithms cfg)) then false
  else threshold cfg <=? size (foldl (quorum_step cfg alg message) ∅ sigs).
Definition verify_quorum (cfg : WitnessConfig) (message : string) (sigs : list (string * string)) :=
  verify_quorum_for_algorithm cfg (signing_algorithm cfg) message sigs.

(** ** Lemmas *)

Lemma quorum_set_spec cfg alg message sigs acc w :
  w ∈ foldl (quorum_step cfg alg message) acc sigs ↔
  w ∈ acc ∨ w ∈ witnesses cfg ∧ ∃ sig, (w, sig) ∈ sigs ∧
    signature_valid cfg alg message (w, sig) = true.
Proof.
  revert acc. induction sigs as [|[w' sig'] sigs IH]; intros acc; simpl; [set_solver|].
  rewrite IH. unfold quorum_step at 1. setoid_rewrite elem_of_cons. cbn [fst snd].
  case_bool_decide as Hin; cbn [negb];
    [destruct (signature_valid cfg alg message (w', sig')) eqn:Hv|].
  - rewrite elem_of_union, elem_of_singleton. naive_solver.
  - naive_solver congruence.
  - naive_solver.
Qed.

Lemma lookup_keys_of {K} (f : string → K) ws w :
  w ∈ ws → keys_of f ws !! w = Some (f w).
Proof.
  unfold keys_of. assert (∀ m : gmap string K, w ∈ ws ∨ m !! w = Some (f w) →
    foldl (λ m w, <[w := f w]> m) m ws !! w = Some (f w)) as Hgen; [|eauto].
  induction ws as [|w' ws IH]; intros m Hw; simpl; [set_solver|].
  apply IH. destruct (decide (w = w')) as [->|]; [right; apply lookup_insert_eq|].
  rewrite lookup_insert_ne by done. set_solver.
Qed.

Lemma hex_decode_exact_encode n (a : arr n) : hex_decode_exact n (hex_encode (arr_bytes a)) = Some a.
Proof.
  unfold hex_decode_exact. rewrite length_hex_encode, arr_length, Nat.mul_comm, Nat.eqb_refl.
  simpl. rewrite hex_decode_encode. simpl. apply try_arr_bytes.
Qed.

(** The signatures of a generated configuration verify. *)
Lemma sign_then_verify `{!SigLib_Laws _} env t ws seed alg src a w m sig :
  w ∈ ws →
  let cfg := with_seed_algorithm_source env t ws seed alg src in
  sign_message_with_algorithm cfg a w m = Ok sig →
  verify_signature_with_algorithm cfg a w m sig = Ok true.
Proof.
  intros Hw cfg. destruct a; simpl; rewrite !lookup_keys_of by done; simpl; intros Hs.
  - inv_res. rewrite hex_decode_exact_encode. simpl. by rewrite ed_correct.
  - inv_res. unfold hex_decode_dynamic. rewrite hex_decode_encode. simpl.
    pose proof (ml_encode_decode x) as Hx. destruct (ml_encoded_try_from _); [|done].
    simpl in Hx |- *. rewrite Hx. simpl. by erewrite ml_correct.
Qed.

Lemma quorum_spec cfg alg message sigs :
  verify_quorum_for_algorithm cfg alg message sigs = true ↔
  alg ∈ allowed_algorithms cfg ∧
  ∃ signers : gset string, threshold cfg ≤ size signers ∧
    ∀ w, w ∈ signers → w ∈ witnesses cfg ∧
      ∃ sig, (w, sig) ∈ sigs ∧ verify_signature_with_algorithm cfg alg w message sig = Ok true.
Proof.
  assert (∀ w sig, signature_valid cfg alg message (w, sig) = true ↔
    verify_signature_with_algorithm cfg alg w message sig = Ok true) as Hvalid.
  { intros w sig. unfold signature_valid. simpl.
    destruct (verify_signature_with_algorithm cfg alg w message sig); simpl; naive_solver. }
  unfold verify_quorum_for_algorithm. case_bool_decide as Ha; simpl; [|naive_solver].
  rewrite Nat.leb_le. split.
  - intros Hsize. split; [done|]. eexists. split; [exact Hsize|].
    intros w [?|(Hw & sig & Hin & Hv)]%quorum_set_spec; [set_solver|].
    split; [done|]. exists sig. by rewrite <-Hvalid.
  - intros (_ & signers & Hsize & Hs). etrans; [exact Hsize|]. apply subseteq_size.
    intros w (Hw & sig & Hin & Hv)%Hs. apply quorum_set_spec. right. split; [done|].
    exists sig. by rewrite Hvalid.
Qed.

(** The quorum counts distinct configured witnesses:
    [verify_quorum_for_algorithm] accepts exactly when the algorithm is allowed and at
    least [threshold] different members of the witness set each have a valid
    signature of the message among [sigs]. *)
Theorem quorum_iff cfg alg message sigs :
  verify_quorum_for_algorithm cfg alg message sigs = true ↔
  alg ∈ allowed_algorithms cfg ∧
  ∃ signers : gset string, threshold cfg ≤ size signers ∧
    ∀ w, w ∈ signers → w ∈ witnesses cfg ∧
      ∃ sig, (w, sig) ∈ sigs ∧ verify_signature_with_algorithm cfg alg w message sig = Ok true.
Proof. apply quorum_spec. Qed.
End witness.
