(* ===== verification/Security.v ===== *)
(** * Parameter, reduction and refinement checks

    [src/src/security.rs] and [src/src/commitment/mod.rs]: every check in the
    order of the code, each failing branch with the error it returns. *)
From S2P Require Export Witness.

Inductive VcProfile := Ipa | Kzg | BinaryMerkle.
#[export] Instance VcProfile_eq_dec : EqDecision VcProfile.
Proof. solve_decision. Defined.

(** ** Commitment policy *)

Record CommitmentPolicy := {
  cpol_scheme_id : string;
  cpol_domain_separator : string;
  cpol_max_degree : N
}.

Inductive CommitmentPolicyError :=
| EmptySchemeId
| EmptyDomainSeparator
| ZeroMaxDegree
| SchemeProfileMismatch (profile : VcProfile) (scheme_id : string)
| DegreeBoundInsufficient (required max_degree : N).

Definition scheme_id (profile : VcProfile) : string :=
  match profile with Ipa => "ipa" | Kzg => "kzg" | BinaryMerkle => "binary_merkle" end.
Definition default_domain_separator (profile : VcProfile) : string :=
  match profile with
  | Ipa => "nucleusdb.vc.ipa.v1"
  | Kzg => "nucleusdb.vc.kzg.v1"
  | BinaryMerkle => "nucleusdb.vc.binary_merkle.v1"
  end.

Definition validate_commitment_policy (profile : VcProfile) (max_vector_len : N)
    (policy : CommitmentPolicy) : result CommitmentPolicyError () :=
  _ ← throw_if (is_blank (cpol_scheme_id policy)) EmptySchemeId;
  _ ← throw_if (is_blank (cpol_domain_separator policy)) EmptyDomainSeparator;
  _ ← throw_if (cpol_max_degree policy =? 0)%N ZeroMaxDegree;
  _ ← throw_if (negb (bool_decide (cpol_scheme_id policy = "auto"))
                && negb (bool_decide (cpol_scheme_id policy = scheme_id profile)))
        (SchemeProfileMismatch profile (cpol_scheme_id policy));
  throw_if (cpol_max_degree policy <? max_vector_len)%N
    (DegreeBoundInsufficient max_vector_len (cpol_max_degree policy)).

Definition default_commitment_policy (profile : VcProfile) (max_degree : N) : CommitmentPolicy :=
  {| cpol_scheme_id := scheme_id profile;
     cpol_domain_separator := default_domain_separator profile;
     cpol_max_degree := max_degree |}.

(** ** Parameters *)

Inductive SecurityAssumption :=
| CollisionResistance | WitnessUnforgeability | CtAppendOnly
| IpaBinding | KzgTrustedSetup | MerkleBinding.

Record ReductionContract := {
  claim : string;
  assumption : SecurityAssumption;
  loss_bits : N;
  max_queries : N
}.

Record ParameterSet := {
  field_bits : N;
  max_vector_len : N;
  max_delta_writes : N;
  max_witnesses : N;
  min_witness_threshold : N;
  max_witness_threshold : N;
  require_kzg_trusted_setup : bool;
  kzg_trusted_setup_id : option string;
  kzg_trusted_setup_path : option string;
  kzg_trusted_setup_attestation_sha512 : option string;
  commitment_policy : CommitmentPolicy
}.

Inductive ParameterError :=
| ZeroFieldBits
| FieldBitsTooLarge (bits max_bits : N)
| MaxVectorLenZero
| MaxDeltaWritesZero
| WitnessSetTooLarge (witnesses max : N)
| WitnessThresholdTooSmall (threshold min : N)
| WitnessThresholdTooLarge (threshold max : N)
| ThresholdExceedsWitnessSet (threshold witnesses : N)
| MissingKzgTrustedSetup
| MissingKzgTrustedSetupPath
| MissingKzgTrustedSetupAttestation
| CommitmentPolicyErr (e : CommitmentPolicyError).

Inductive SecurityPolicyError :=
| ParameterErr (e : ParameterError)
| MissingReductionContracts
| ReductionLossTooLarge (claim : string) (loss_bits : N)
| ReductionMaxQueriesZero (claim : string)
| KzgTrustedSetupErr (e : TrustedSetupError)
| KzgSetupDegreeInsufficient (setup_id : string) (setup_max_degree required_max_vector_len : N).

Inductive RefinementError :=
| DeltaTooLarge (writes max : N)
| StateVectorTooLarge (len max : N)
| CommitHeightMismatch (expected got : N)
| PrevRootMismatch (expected got : NodeHash)
| SthSizeMismatch (expected got : N)
| InvalidSthSignature (expected got : string).

#[export] Instance CommitmentPolicyError_eq_dec : EqDecision CommitmentPolicyError.
Proof. solve_decision. Defined.
#[export] Instance ParameterError_eq_dec : EqDecision ParameterError.
Proof. solve_decision. Defined.
#[export] Instance SecurityPolicyError_eq_dec : EqDecision SecurityPolicyError.
Proof. solve_decision. Defined.
#[export] Instance RefinementError_eq_dec : EqDecision RefinementError.
Proof. solve_decision. Defined.

Definition default_parameter_set : ParameterSet :=
  {| field_bits := 64;
     max_vector_len := N.shiftl 1 20;
     max_delta_writes := N.shiftl 1 16;
     max_witnesses := 128;
     min_witness_threshold := 1;
     max_witness_threshold := 128;
     require_kzg_trusted_setup := true;
     kzg_trusted_setup_id := Some "demo-trusted-setup-v1";
     kzg_trusted_setup_path := Some "artifacts/kzg/demo-trusted-setup-v1.json";
     kzg_trusted_setup_attestation_sha512 :=
       Some "b1ba68a25d64fb0e29348404c7ef8ece8503ae5bd2eb0d8a172ddbc726d70df694cb5f6d323e7435649c35fa365339e93b354262735da11e01c00ad8b17923f1";
     commitment_policy :=
       {| cpol_scheme_id := "auto"; cpol_domain_separator := "nucleusdb.vc.auto.v1";
          cpol_max_degree := N.shiftl 1 20 |} |}.

Definition default_reduction_contracts (profile : VcProfile) : list ReductionContract :=
  [{| claim := "state_authentication_soundness"; assumption := CollisionResistance;
      loss_bits := 16; max_queries := 1000000 |};
   {| claim := "ct_append_only_history"; assumption := CtAppendOnly;
      loss_bits := 8; max_queries := 1000000 |};
   {| claim := "witness_quorum_unforgeability"; assumption := WitnessUnforgeability;
      loss_bits := 8; max_queries := 1000000 |};
   match profile with
   | Ipa => {| claim := "ipa_binding"; assumption := IpaBinding;
               loss_bits := 24; max_queries := 1000000 |}
   | Kzg => {| claim := "kzg_binding"; assumption := KzgTrustedSetup;
               loss_bits := 24; max_queries := 1000000 |}
   | BinaryMerkle => {| claim := "binary_merkle_binding"; assumption := MerkleBinding;
                        loss_bits := 24; max_queries := 1000000 |}
   end].

Definition MAX_FIELD_BITS : N := 4096.

Definition is_none {A} (o : option A) : bool := match o with None => true | Some _ => false end.

Section security.
Context `{Sha2, SigLib}.

Definition n_witnesses (cfg : WitnessConfig) : N := N.of_nat (length (witnesses cfg)).
Definition n_threshold (cfg : WitnessConfig) : N := N.of_nat (threshold cfg).

Definition kzg_required (params : ParameterSet) (profile : VcProfile) : bool :=
  bool_decide (profile = Kzg) && require_kzg_trusted_setup params.

Definition validate_parameters (params : ParameterSet) (profile : VcProfile)
    (cfg : WitnessConfig) : result ParameterError () :=
  _ ← throw_if (field_bits params =? 0)%N ZeroFieldBits;
  _ ← throw_if (MAX_FIELD_BITS <? field_bits params)%N
        (FieldBitsTooLarge (field_bits params) MAX_FIELD_BITS);
  _ ← throw_if (max_vector_len params =? 0)%N MaxVectorLenZero;
  _ ← throw_if (max_delta_writes params =? 0)%N MaxDeltaWritesZero;
  _ ← throw_if (max_witnesses params <? n_witnesses cfg)%N
        (WitnessSetTooLarge (n_witnesses cfg) (max_witnesses params));
  _ ← throw_if (n_threshold cfg <? min_witness_threshold params)%N
        (WitnessThresholdTooSmall (n_threshold cfg) (min_witness_threshold params));
  _ ← throw_if (max_witness_threshold params <? n_threshold cfg)%N
        (WitnessThresholdTooLarge (n_threshold cfg) (max_witness_threshold params));
  _ ← throw_if (n_witnesses cfg <? n_threshold cfg)%N
        (ThresholdExceedsWitnessSet (n_threshold cfg) (n_witnesses cfg));
  _ ← throw_if (kzg_required params profile && is_none (kzg_trusted_setup_id params))
        MissingKzgTrustedSetup;
  _ ← throw_if (kzg_required params profile && is_none (kzg_trusted_setup_path params))
        MissingKzgTrustedSetupPath;
  _ ← throw_if (kzg_required params profile &&
                is_none (kzg_trusted_setup_attestation_sha512 params))
        MissingKzgTrustedSetupAttestation;
  map_err CommitmentPolicyErr
    (validate_commitment_policy profile (max_vector_len params) (commitment_policy params)).

Fixpoint validate_contract_list (contracts : list ReductionContract)
  : result SecurityPolicyError () :=
  match contracts with
  | [] => Ok tt
  | c :: cs =>
      _ ← throw_if (128 <? loss_bits c)%N (ReductionLossTooLarge (claim c) (loss_bits c));
      _ ← throw_if (max_queries c =? 0)%N (ReductionMaxQueriesZero (claim c));
      validate_contract_list cs
  end.
Definition validate_reduction_contracts (contracts : list ReductionContract)
  : result SecurityPolicyError () :=
  match contracts with
  | [] => Err MissingReductionContracts
  | _ => validate_contract_list contracts
  end.

Definition validate_commit_shape (params : ParameterSet) (writes projected_state_len : N)
  : result RefinementError () :=
  _ ← throw_if (max_delta_writes params <? writes)%N
        (DeltaTooLarge writes (max_delta_writes params));
  throw_if (max_vector_len params <? projected_state_len)%N
    (StateVectorTooLarge projected_state_len (max_vector_len params)).

Definition verify_post_commit_refinement
    (expected_height : N) (expected_prev_root : NodeHash)
    (entry_height : N) (entry_prev_root : NodeHash)
    (sth_size : N) (sth_root : NodeHash) (sth_timestamp : N) (sth_sig : string)
  : result RefinementError () :=
  _ ← throw_if (negb (entry_height =? expected_height)%N)
        (CommitHeightMismatch expected_height entry_height);
  _ ← throw_if (negb (bool_decide (entry_prev_root = expected_prev_root)))
        (PrevRootMismatch expected_prev_root entry_prev_root);
  _ ← throw_if (negb (sth_size =? expected_height)%N) (SthSizeMismatch expected_height sth_size);
  let expected_sig := sth_signature sth_size sth_root sth_timestamp in
  throw_if (negb (bool_decide (sth_sig = expected_sig)))
    (InvalidSthSignature expected_sig sth_sig).

(** ** Lemmas *)

Lemma validate_commitment_policy_ok profile len policy :
  validate_commitment_policy profile len policy = Ok tt ↔
  is_blank (cpol_scheme_id policy) = false ∧ is_blank (cpol_domain_separator policy) = false ∧
  (0 < cpol_max_degree policy)%N ∧ (len ≤ cpol_max_degree policy)%N ∧
  (cpol_scheme_id policy = "auto" ∨ cpol_scheme_id policy = scheme_id profile).
Proof.
  unfold validate_commitment_policy. split.
  - intros Hv. inv_res. bool_hyps. split_and!; try done; try lia.
    apply andb_false_iff in Hv3 as [?|?]; bool_hyps; auto.
  - intros (-> & -> & Hd & Hl & Hs). simpl.
    destruct (N.eqb_spec (cpol_max_degree policy) 0); [lia|]. simpl.
    destruct (N.ltb_spec (cpol_max_degree policy) len); [lia|].
    case_bool_decide; simpl; [done|]. case_bool_decide; [done|naive_solver].
Qed.

(** The documented constraints a deployment must meet. *)
Record parameters_valid (p : ParameterSet) (profile : VcProfile) (cfg : WitnessConfig) : Prop := {
  pv_field_bits : (0 < field_bits p ≤ MAX_FIELD_BITS)%N;
  pv_vector : (0 < max_vector_len p)%N;
  pv_writes : (0 < max_delta_writes p)%N;
  pv_set : (n_witnesses cfg ≤ max_witnesses p)%N;
  pv_threshold : (min_witness_threshold p ≤ n_threshold cfg ≤ max_witness_threshold p)%N;
  pv_reachable : (n_threshold cfg ≤ n_witnesses cfg)%N;
  pv_setup : profile = Kzg → require_kzg_trusted_setup p = true →
    is_Some (kzg_trusted_setup_id p) ∧ is_Some (kzg_trusted_setup_path p) ∧
    is_Some (kzg_trusted_setup_attestation_sha512 p);
  pv_scheme : is_blank (cpol_scheme_id (commitment_policy p)) = false ∧
    (cpol_scheme_id (commitment_policy p) = "auto" ∨
     cpol_scheme_id (commitment_policy p) = scheme_id profile);
  pv_separator : is_blank (cpol_domain_separator (commitment_policy p)) = false;
  pv_degree : (0 < cpol_max_degree (commitment_policy p))%N ∧
    (max_vector_len p ≤ cpol_max_degree (commitment_policy p))%N
}.

Lemma setup_check (req : bool) {A} (o : option A) :
  req && is_none o = false ↔ (req = true → is_Some o).
Proof.
  destruct req, o as [a|]; simpl; [| | |done].
  - split; [intros _ _; by exists a|done].
  - split; [done|]. intros Hreq. by destruct (Hreq eq_refl).
  - by split.
Qed.

Lemma kzg_required_true p profile :
  kzg_required p profile = true ↔ profile = Kzg ∧ require_kzg_trusted_setup p = true.
Proof. unfold kzg_required. rewrite andb_true_iff, bool_decide_eq_true. done. Qed.

Lemma validate_parameters_ok p profile cfg :
  validate_parameters p profile cfg = Ok tt ↔ parameters_valid p profile cfg.
Proof.
  unfold validate_parameters. split.
  - intros Hv. inv_res.
    apply validate_commitment_policy_ok in Hv as (Hsch & Hsep & Hd1 & Hd2 & Hsch').
    repeat match goal with H : _ && is_none _ = false |- _ => rewrite setup_check in H end.
    rewrite kzg_required_true in *. bool_hyps.
    split; try lia; [|done..|done]. intros; split_and!; auto.
  - intros [Hf Hv Hw Hs Ht Hr Hk Hp Hsep Hd].
    rewrite (proj2 (N.eqb_neq (field_bits p) 0)), (proj2 (N.ltb_ge MAX_FIELD_BITS _)),
      (proj2 (N.eqb_neq (max_vector_len p) 0)), (proj2 (N.eqb_neq (max_delta_writes p) 0)),
      (proj2 (N.ltb_ge (max_witnesses p) _)), (proj2 (N.ltb_ge (n_threshold cfg) _)),
      (proj2 (N.ltb_ge (max_witness_threshold p) _)), (proj2 (N.ltb_ge (n_witnesses cfg) _))
      by lia. simpl.
    rewrite !(proj2 (setup_check _ _)) by (rewrite kzg_required_true; naive_solver). simpl.
    apply map_err_ok, validate_commitment_policy_ok. naive_solver.
Qed.

(** [validate_parameters] accepts exactly the parameter sets that
    meet every documented constraint: field size, vector and delta bounds, a witness
    threshold within its bounds and reachable by the witness set, the KZG trusted
    setup when it is required, and a commitment policy that fits the profile. *)
Theorem validate_parameters_iff p profile cfg :
  validate_parameters p profile cfg = Ok tt ↔ parameters_valid p profile cfg.
Proof. apply validate_parameters_ok. Qed.

Lemma validate_contract_list_ok cs :
  validate_contract_list cs = Ok tt ↔ Forall (λ c, (loss_bits c ≤ 128 ∧ 0 < max_queries c)%N) cs.
Proof.
  induction cs as [|c cs IH]; simpl; [done|]. rewrite Forall_cons, <-IH.
  destruct (N.ltb_spec 128 (loss_bits c)); simpl; [split; [done|lia]|].
  destruct (N.eqb_spec (max_queries c) 0); simpl; [split; [done|lia]|].
  split; [intros ?; split; [lia|done]|by intros [_ ?]].
Qed.

Lemma validate_reduction_contracts_ok cs :
  validate_reduction_contracts cs = Ok tt ↔
  cs ≠ [] ∧ Forall (λ c, (loss_bits c ≤ 128 ∧ 0 < max_queries c)%N) cs.
Proof.
  unfold validate_reduction_contracts. destruct cs as [|c cs]; [naive_solver|].
  rewrite validate_contract_list_ok. naive_solver.
Qed.

Lemma default_contracts_valid profile :
  validate_reduction_contracts (default_reduction_contracts profile) = Ok tt.
Proof. by destruct profile. Qed.

Lemma validate_commit_shape_ok p w l :
  validate_commit_shape p w l = Ok tt ↔ (w ≤ max_delta_writes p ∧ l ≤ max_vector_len p)%N.
Proof.
  unfold validate_commit_shape. destruct (N.ltb_spec (max_delta_writes p) w); simpl; [split; [done|lia]|].
  rewrite throw_if_ok, N.ltb_ge. lia.
Qed.

Lemma verify_post_commit_refinement_ok eh epr h pr size root ts s :
  verify_post_commit_refinement eh epr h pr size root ts s = Ok tt ↔
  h = eh ∧ pr = epr ∧ size = eh ∧ s = sth_signature size root ts.
Proof.
  unfold verify_post_commit_refinement. split.
  - intros Hv. inv_res. bool_hyps. done.
  - intros (-> & -> & -> & ->). by rewrite !N.eqb_refl, !bool_decide_eq_true_2.
Qed.
End security.
