(* ===== verification/Immutable.v ===== *)
(** * Monotone extensions and the seal chain: [src/src/immutable.rs]

    The append-only check between two database states, the digest of the
    key-value pairs and the hash chain of seals over successive states. *)
From S2P Require Export VectorCommit.

Inductive WriteMode := Normal | AppendOnly.
#[export] Instance WriteMode_eq_dec : EqDecision WriteMode.
Proof. solve_decision. Defined.

(** ** The monotone-extension check *)

(** The loop of [verify_raw_monotone_extension] from index [i] on. *)
Fixpoint raw_monotone_loop (i : nat) (old : list N) (new_state : State) : bool :=
  match old with
  | [] => true
  | old_val :: rest =>
      if (old_val =? 0)%N then raw_monotone_loop (S i) rest new_state
      else if negb (value_at new_state i =? old_val)%N then false
      else raw_monotone_loop (S i) rest new_state
  end.
Definition verify_raw_monotone_extension (old_state new_state : State) : bool :=
  raw_monotone_loop 0 (values old_state) new_state.

(** The keymap loop of [verify_monotone_extension]. *)
Fixpoint keymap_monotone_loop (keys : list (string * nat)) (old_state new_state : State)
    (new_keymap : KeyMap) : bool :=
  match keys with
  | [] => true
  | (key, old_idx) :: rest =>
      let old_val := value_at old_state old_idx in
      if (old_val =? 0)%N then keymap_monotone_loop rest old_state new_state new_keymap
      else
        match KM.get new_keymap key with
        | Some new_idx =>
            if negb (value_at new_state new_idx =? old_val)%N then false
            else keymap_monotone_loop rest old_state new_state new_keymap
        | None => false
        end
  end.

Definition verify_monotone_extension (old_state : State) (old_keymap : KeyMap)
    (new_state : State) (new_keymap : KeyMap) : bool :=
  if negb (verify_raw_monotone_extension old_state new_state) then false
  else keymap_monotone_loop (KM.all_keys old_keymap) old_state new_state new_keymap.

(** ** Digests and seals *)

Section seals.
Context `{Sha2}.

Definition DOMAIN_SEAL : bytes := as_bytes "NucleusDB.MonotoneSeal|".

Definition kv_pairs (state : State) (keymap : KeyMap) : list (string * N) :=
  merge_sort key_le (map (λ '(k, idx), (k, value_at state idx)) (KM.all_keys keymap)).

Definition kv_text (pairs : list (string * N)) : string :=
  foldr (λ '(k, v) acc, k +:+ "=" +:+ dec v +:+ ";" +:+ acc) "" pairs.

Definition key_value_digest (state : State) (keymap : KeyMap) : NodeHash :=
  sha256 (as_bytes ("NucleusDB.KeyValueDigest|" +:+ kv_text (kv_pairs state keymap))).

Definition next_seal (prev_seal kv_digest : NodeHash) : NodeHash :=
  sha256 (DOMAIN_SEAL ++ arr_bytes prev_seal ++ arr_bytes kv_digest).

Definition genesis_seal : NodeHash := sha256 (as_bytes "NucleusDB.MonotoneSeal.Genesis|").
Definition genesis_seal_with_anchor (anchor : string) : NodeHash :=
  sha256 (as_bytes "NucleusDB.MonotoneSeal.Genesis|" ++ as_bytes anchor).

Definition start_seal (anchor : option string) : NodeHash :=
  match anchor with Some a => genesis_seal_with_anchor a | None => genesis_seal end.

(** The loop of the verifier; the lengths have been compared. *)
Fixpoint seal_loop (prev : NodeHash) (seals : list NodeHash) (states : list (State * KeyMap))
  : bool :=
  match seals, states with
  | seal :: seals', (st, km) :: states' =>
      let expected := next_seal prev (key_value_digest st km) in
      if negb (bool_decide (seal = expected)) then false else seal_loop seal seals' states'
  | _, _ => true
  end.

Definition verify_seal_chain_with_anchor (seals : list NodeHash)
    (states : list (State * KeyMap)) (anchor : option string) : bool :=
  if negb (length seals =? length states) then false
  else seal_loop (start_seal anchor) seals states.
Definition verify_seal_chain (seals : list NodeHash) (states : list (State * KeyMap)) : bool :=
  verify_seal_chain_with_anchor seals states None.

(** The chain an honest database records. *)
Fixpoint seals_from (prev : NodeHash) (states : list (State * KeyMap)) : list NodeHash :=
  match states with
  | [] => []
  | (st, km) :: states' =>
      let seal := next_seal prev (key_value_digest st km) in seal :: seals_from seal states'
  end.

(** ** The monotone check decides its specification *)

Definition raw_extends (old new : State) : Prop :=
  ∀ i, value_at old i ≠ 0%N → value_at new i = value_at old i.

Lemma raw_monotone_loop_true i old new :
  raw_monotone_loop i old new = true ↔
  ∀ j, get_or 0%N old j ≠ 0%N → value_at new (i + j) = get_or 0%N old j.
Proof.
  revert i. induction old as [|v old IH]; intros i; simpl; [done|].
  assert ((∀ j, get_or 0%N (v :: old) j ≠ 0%N →
      value_at new (i + j) = get_or 0%N (v :: old) j) ↔
    (v ≠ 0%N → value_at new i = v) ∧
    (∀ j, get_or 0%N old j ≠ 0%N → value_at new (S i + j) = get_or 0%N old j)) as ->.
  { split.
    - intros Hall. split; [intros Hv; specialize (Hall 0 Hv); by rewrite Nat.add_0_r in Hall|].
      intros j Hj. specialize (Hall (S j) Hj). by rewrite Nat.add_succ_comm.
    - intros [Hv Hall] [|j] Hj; [rewrite Nat.add_0_r; by apply Hv|].
      rewrite <-Nat.add_succ_comm. by apply Hall. }
  rewrite <-IH. destruct (N.eqb_spec v 0) as [->|Hv]; simpl; [naive_solver|].
  destruct (N.eqb_spec (value_at new i) v); simpl; naive_solver.
Qed.

Lemma verify_raw_monotone_iff old new :
  verify_raw_monotone_extension old new = true ↔ raw_extends old new.
Proof. unfold verify_raw_monotone_extension. by rewrite raw_monotone_loop_true. Qed.

Lemma keymap_monotone_loop_true keys old new km :
  keymap_monotone_loop keys old new km = true ↔
  ∀ k i, (k, i) ∈ keys → value_at old i ≠ 0%N →
    ∃ j, KM.get km k = Some j ∧ value_at new j = value_at old i.
Proof.
  induction keys as [|[k i] keys IH]; simpl; [set_solver|].
  setoid_rewrite elem_of_cons.
  destruct (N.eqb_spec (value_at old i) 0) as [Hz|Hz]; [rewrite IH; naive_solver|].
  destruct (KM.get km k) as [j|] eqn:Hj; [|naive_solver].
  destruct (N.eqb_spec (value_at new j) (value_at old i)); simpl; [rewrite IH|]; naive_solver.
Qed.

(** What append-only promises: every cell and every named key that held a non-zero
    value still holds it. *)
Definition extends (old : State) (old_km : KeyMap) (new : State) (new_km : KeyMap) : Prop :=
  raw_extends old new ∧
  ∀ k i, KM.get old_km k = Some i → value_at old i ≠ 0%N →
    ∃ j, KM.get new_km k = Some j ∧ value_at new j = value_at old i.

Lemma verify_monotone_extension_true old okm new nkm :
  verify_monotone_extension old okm new nkm = true ↔ extends old okm new nkm.
Proof.
  unfold verify_monotone_extension, extends, KM.all_keys.
  destruct (verify_raw_monotone_extension old new) eqn:Hr; simpl.
  - apply verify_raw_monotone_iff in Hr. rewrite keymap_monotone_loop_true.
    setoid_rewrite elem_of_entries. unfold KM.get at 2. naive_solver.
  - rewrite <-verify_raw_monotone_iff, Hr. naive_solver.
Qed.

Lemma extends_refl s km : extends s km s km.
Proof. split; [by intros i|]. naive_solver. Qed.

Lemma extends_trans s1 km1 s2 km2 s3 km3 :
  extends s1 km1 s2 km2 → extends s2 km2 s3 km3 → extends s1 km1 s3 km3.
Proof.
  intros [R1 K1] [R2 K2]. split.
  - intros i Hi. rewrite (R2 i); [by apply R1|]. by rewrite R1.
  - intros k i Hk Hi. destruct (K1 k i Hk Hi) as (j & Hj & E).
    destruct (K2 k j Hj) as (j' & Hj' & E'); [by rewrite E|].
    exists j'. by rewrite E'.
Qed.

(** With one registry on both sides the keymap pass adds nothing to the raw pass. *)
Lemma extends_same_keymap s km s' : raw_extends s s' → extends s km s' km.
Proof. intros Hr. split; [done|]. intros k i Hk Hi. exists i. split; [done|]. by apply Hr. Qed.

(** ** Digest and chain lemmas *)

Lemma seal_loop_true prev seals states :
  length seals = length states →
  seal_loop prev seals states = true ↔ seals = seals_from prev states.
Proof.
  revert prev states. induction seals as [|s seals IH]; intros prev [|[st km] states] Hl;
    simpl in *; try done.
  case_bool_decide as Hs; simpl; [rewrite IH by lia; subst; naive_solver|naive_solver].
Qed.

Lemma length_seals_from prev states : length (seals_from prev states) = length states.
Proof. revert prev. induction states as [|[??] ? IH]; intros; simpl; [done|]. by rewrite IH. Qed.

Lemma verify_seal_chain_iff seals states anchor :
  verify_seal_chain_with_anchor seals states anchor = true ↔
  seals = seals_from (start_seal anchor) states.
Proof.
  unfold verify_seal_chain_with_anchor.
  destruct (Nat.eqb_spec (length seals) (length states)); simpl.
  - by apply seal_loop_true.
  - split; [done|]. intros ->. by rewrite length_seals_from in *.
Qed.

(** The strings behind a digest, a seal and a chain. *)
Definition kv_input (state : State) (keymap : KeyMap) : bytes :=
  as_bytes ("NucleusDB.KeyValueDigest|" +:+ kv_text (kv_pairs state keymap)).
Definition seal_input (prev_seal kv_digest : NodeHash) : bytes :=
  DOMAIN_SEAL ++ arr_bytes prev_seal ++ arr_bytes kv_digest.
Fixpoint seals_strings (prev : NodeHash) (states : list (State * KeyMap)) : list bytes :=
  match states with
  | [] => []
  | (st, km) :: states' =>
      seal_input prev (key_value_digest st km) ::
        seals_strings (next_seal prev (key_value_digest st km)) states'
  end.

Lemma next_seal_inj p d p' d' :
  next_seal p d = next_seal p' d' → (p = p' ∧ d = d') ∨ collides sha256 [seal_input p d; seal_input p' d'].
Proof.
  intros [E|?]%sha256_inj_or_collides; [left|by right].
  apply app_inv_head in E. apply app_len_inj in E as [E1 E2]; [|by rewrite !arr_length].
  split; by apply arr_eq.
Qed.

Definition no_eq (c : ascii) : bool := negb (Ascii.eqb c "=").

Lemma kv_text_inj l l' :
  Forall (λ kv, str_forall no_eq kv.1 = true) l →
  Forall (λ kv, str_forall no_eq kv.1 = true) l' →
  kv_text l = kv_text l' → l = l'.
Proof.
  intros Hl. revert l'. induction Hl as [|[k v] l Hk Hl IH]; intros [|[k' v'] l'] Hl' E; simpl in E.
  - done.
  - by destruct k'.
  - by destruct k.
  - apply Forall_cons in Hl' as [Hk' Hl']. simpl in *.
    apply (sep_inj no_eq "=") in E as [-> E]; [|done..].
    apply (sep_inj is_digit ";") in E as [E1 E]; [|done|apply dec_digits..].
    f_equal; [f_equal; by apply dec_inj|by apply IH].
Qed.

Lemma key_value_digest_pairs st km st' km' :
  Forall (λ kv, str_forall no_eq kv.1 = true) (kv_pairs st km) →
  Forall (λ kv, str_forall no_eq kv.1 = true) (kv_pairs st' km') →
  key_value_digest st km = key_value_digest st' km' →
  kv_pairs st km = kv_pairs st' km' ∨ collides sha256 [kv_input st km; kv_input st' km'].
Proof.
  intros Hl Hl' [E|?]%sha256_inj_or_collides; [left|by right].
  apply (f_equal of_bytes) in E. rewrite !of_as_bytes in E.
  apply (inj (String.append _)) in E. by apply kv_text_inj.
Qed.

Lemma last_seals_from p sk l : ∃ x, last (seals_from p (sk :: l)) = Some x.
Proof.
  destruct sk as [s k]. cbn [seals_from]. rewrite last_cons.
  destruct (last (seals_from _ l)) as [x|]; by eexists.
Qed.

Lemma seals_from_binding p p' l l' :
  length l = length l' → last (seals_from p l) = last (seals_from p' l') → l ≠ [] →
  (p = p' ∧ Forall2 (λ x y, key_value_digest x.1 x.2 = key_value_digest y.1 y.2) l l') ∨
  collides sha256 (seals_strings p l ++ seals_strings p' l').
Proof.
  revert p p' l'. induction l as [|[s k] l IH]; intros p p' l' Hl E Hne; [done|].
  destruct l' as [|[s' k'] l']; [done|]. simpl in Hl, E. destruct l as [|sk l].
  - destruct l'; [|done]. simpl in E. injection E as E.
    apply next_seal_inj in E as [[-> E]|?]; [left|by_collision]. split; [done|]. by repeat constructor.
  - destruct l' as [|sk' l']; [done|].
    rewrite !last_cons in E.
    destruct (last_seals_from (next_seal p (key_value_digest s k)) sk l) as [x Hx].
    destruct (last_seals_from (next_seal p' (key_value_digest s' k')) sk' l') as [y Hy].
    rewrite Hx, Hy in E. simplify_eq.
    destruct (IH (next_seal p (key_value_digest s k)) (next_seal p' (key_value_digest s' k'))
      (sk' :: l')) as [[E Hall]|?]; [simpl in *; lia|by rewrite Hx, Hy|done| |].
    2: { cbn [seals_strings] in *. by_collision. }
    apply next_seal_inj in E as [[-> E]|?]; [left|cbn [seals_strings]; by_collision]. split; [done|]. by constructor.
Qed.

(** ** Properties *)

(** [verify_monotone_extension] decides the append-only relation:
    it accepts exactly when every non-zero cell and every named non-zero key of the
    old state still has its value in the new one; the relation is a preorder, so
    checking each commit checks every span of the history. *)
Theorem monotone_extension_iff old okm new nkm :
  (verify_monotone_extension old okm new nkm = true ↔ extends old okm new nkm) ∧
  verify_monotone_extension old okm old okm = true ∧
  ∀ s km, verify_monotone_extension s km old okm = true →
    verify_monotone_extension old okm new nkm = true →
    verify_monotone_extension s km new nkm = true.
Proof.
  setoid_rewrite verify_monotone_extension_true. split; [done|].
  split; [apply extends_refl|]. intros s km. apply extends_trans.
Qed.

(** The seal chain is tamper evident: when two histories of one
    length both verify and end in the same seal, then every state of one has the
    key-value digest of the state at its height in the other (and the anchors give the
    same start), or SHA-256 collides on the strings hashed for the two chains. *)
Theorem seal_chain_tamper_evident seals seals' states states' anchor anchor' :
  verify_seal_chain_with_anchor seals states anchor = true →
  verify_seal_chain_with_anchor seals' states' anchor' = true →
  states ≠ [] → length states = length states' → last seals = last seals' →
  (start_seal anchor = start_seal anchor' ∧
   Forall2 (λ x y, key_value_digest x.1 x.2 = key_value_digest y.1 y.2) states states') ∨
  collides sha256 (seals_strings (start_seal anchor) states ++ seals_strings (start_seal anchor') states').
Proof.
  intros ->%verify_seal_chain_iff ->%verify_seal_chain_iff Hne Hl E.
  by apply seals_from_binding.
Qed.

(** [key_value_digest] is not injective: a key that contains the
    separators of the digest text collides with a pair of keys, without any
    collision of the hash function. *)
Theorem key_value_digest_ambiguous :
  ∃ st km st' km', keymap_wf km ∧ keymap_wf km' ∧
    kv_pairs st km ≠ kv_pairs st' km' ∧ key_value_digest st km = key_value_digest st' km'.
Proof.
  exists (mk_State [2%N]), (KM.get_or_create KM.new "a=1;b").1,
    (mk_State [1%N; 2%N]), (KM.get_or_create (KM.get_or_create KM.new "a").1 "b").1.
  split_and!; [auto with nucleus..|by vm_compute|].
  unfold key_value_digest. f_equal; vm_compute; reflexivity.
Qed.
End seals.

Definition ex_states : list (State * KeyMap) :=
  [(mk_State [1%N], (KM.get_or_create KM.new "a").1);
   (mk_State [1%N; 2%N], (KM.get_or_create (KM.get_or_create KM.new "a").1 "b").1)].
Definition ex_seals : list NodeHash :=
  seals_from (H:=prefix_sha) (genesis_seal (H:=prefix_sha)) ex_states.

Lemma seal_chain_tamper_evident_witness :
  let sha := prefix_sha in
  (start_seal None = start_seal None ∧
   Forall2 (λ x y, key_value_digest x.1 x.2 = key_value_digest y.1 y.2) ex_states ex_states) ∨
  collides sha256 (seals_strings (start_seal None) ex_states ++ seals_strings (start_seal None) ex_states).
Proof.
  apply (seal_chain_tamper_evident (H:=prefix_sha) ex_seals ex_seals ex_states ex_states None None);
    by vm_compute.
Defined.
