(* ===== verification/Sheaf.v ===== *)
(** * Sheaf coherence of local views: [src/src/sheaf/coherence.rs]

    Local sections are key-value maps; the builder collects the keys on which two
    views disagree. *)
From S2P Require Export Store.

Record LocalSection := { lens_id : string; kv : gmap string N }.
Record SheafCoherenceProof := {
  coherent : bool;
  conflicts : list string;
  sheaf_digest : N
}.

#[export] Instance SheafCoherenceProof_eq_dec : EqDecision SheafCoherenceProof.
Proof. solve_decision. Defined.

(** One entry of one view. *)
Definition coherence_step (st : gmap string N * gset string) (e : string * N)
  : gmap string N * gset string :=
  let '(seen, conflicts) := st in
  let '(k, v) := e in
  match seen !! k with
  | Some existing =>
      if negb (existing =? v)%N then (seen, {[k]} ∪ conflicts) else (seen, conflicts)
  | None => (<[k := v]> seen, conflicts)
  end.

(** The two nested loops. *)
Definition coherence_scan (local_views : list LocalSection) : gmap string N * gset string :=
  foldl (λ st view, foldl coherence_step st (entries (kv view))) (∅, ∅) local_views.

Definition key_len (key : string) : N := N.of_nat (str_len key).

Definition coherence_digest (seen_keys conflict_keys : list string) : N :=
  let d := foldl (λ d '(i, key), N.lxor d (wrapping_mul64 (key_len key) (N.of_nat i + 11)))
             0%N (enumerate seen_keys) in
  foldl (λ d '(i, key),
    wrapping_add64 d (wrapping_mul64 (key_len key) (N.of_nat i + 101))) d (enumerate conflict_keys).

Definition build_sheaf_coherence (local_views : list LocalSection) : SheafCoherenceProof :=
  let '(seen, conflicts) := coherence_scan local_views in
  {| coherent := bool_decide (conflicts = ∅);
     conflicts := set_elems conflicts;
     sheaf_digest := coherence_digest (map_keys seen) (set_elems conflicts) |}.

Definition verify_sheaf_coherence (_global : State) (pf : SheafCoherenceProof) : bool :=
  coherent pf && bool_decide (conflicts pf = []).

(** ** Lemmas *)

Lemma coherence_scan_flat views :
  coherence_scan views = foldl coherence_step (∅, ∅) (views ≫= λ v, entries (kv v)).
Proof.
  unfold coherence_scan. generalize (∅ : gmap string N, ∅ : gset string).
  induction views as [|v views IH]; intros st; simpl; [done|]. by rewrite IH, foldl_app.
Qed.

(** The scan invariant over the entries visited so far. *)
Record scan_inv (es : list (string * N)) (st : gmap string N * gset string) : Prop := {
  si_from : ∀ k v, st.1 !! k = Some v → (k, v) ∈ es;
  si_seen : ∀ k v, (k, v) ∈ es → is_Some (st.1 !! k);
  si_conflict : ∀ k, k ∈ st.2 ↔ ∃ v, (k, v) ∈ es ∧ st.1 !! k ≠ Some v
}.

Lemma scan_inv_step es st e : scan_inv es st → scan_inv (es ++ [e]) (coherence_step st e).
Proof.
  destruct st as [seen confl], e as [k v]. intros [Hf Hs Hc]. simpl in *.
  destruct (seen !! k) as [x|] eqn:Hk; [destruct (N.eqb_spec x v) as [->|Hne]; simpl|].
  - split; simpl; set_solver.
  - split; simpl; [set_solver..|]. intros k'. rewrite elem_of_union, elem_of_singleton, Hc.
    setoid_rewrite elem_of_app. setoid_rewrite list_elem_of_singleton.
    destruct (decide (k' = k)) as [->|]; [|naive_solver].
    split; [|naive_solver]. intros _. exists v. naive_solver.
  - split; simpl.
    + intros k' v'. rewrite elem_of_app, list_elem_of_singleton.
      destruct (decide (k' = k)) as [->|]; [rewrite lookup_insert_eq; naive_solver|].
      rewrite lookup_insert_ne by done. naive_solver.
    + intros k' v'. rewrite elem_of_app, list_elem_of_singleton.
      destruct (decide (k' = k)) as [->|]; [rewrite lookup_insert_eq; eauto|].
      rewrite lookup_insert_ne by done. naive_solver.
    + intros k'. rewrite Hc. setoid_rewrite elem_of_app. setoid_rewrite list_elem_of_singleton.
      destruct (decide (k' = k)) as [->|].
      * rewrite lookup_insert_eq. split; [|naive_solver].
        intros (v' & Hin & _). destruct (Hs _ _ Hin) as [? ?]. congruence.
      * rewrite lookup_insert_ne by done. naive_solver.
Qed.

Lemma scan_inv_foldl es : scan_inv es (foldl coherence_step (∅, ∅) es).
Proof.
  induction es as [|e es IH] using rev_ind.
  - split; simpl; [by intros ??; rewrite lookup_empty|set_solver|set_solver].
  - rewrite foldl_app. by apply scan_inv_step.
Qed.

Lemma elem_of_view_entries (views : list LocalSection) k v :
  (k, v) ∈ (views ≫= λ w, entries (kv w)) ↔ ∃ w, w ∈ views ∧ kv w !! k = Some v.
Proof.
  rewrite list_elem_of_bind. setoid_rewrite elem_of_entries. naive_solver.
Qed.

(** Two of the views give [k] different values. *)
Definition disagree (views : list LocalSection) (k : string) : Prop :=
  ∃ w1 w2 v1 v2, w1 ∈ views ∧ w2 ∈ views ∧ kv w1 !! k = Some v1 ∧ kv w2 !! k = Some v2 ∧ v1 ≠ v2.

Lemma coherence_scan_conflicts views k :
  k ∈ (coherence_scan views).2 ↔ disagree views k.
Proof.
  rewrite coherence_scan_flat.
  destruct (scan_inv_foldl (views ≫= λ v, entries (kv v))) as [Hf Hs Hc]. rewrite Hc. split.
  - intros (v & Hin & Hne). destruct (Hs _ _ Hin) as [x Hx].
    pose proof (Hf _ _ Hx) as Hin'. apply elem_of_view_entries in Hin as (w1 & ? & ?).
    apply elem_of_view_entries in Hin' as (w2 & ? & ?).
    exists w1, w2, v, x. split_and!; [done..|congruence].
  - intros (w1 & w2 & v1 & v2 & H1 & H2 & Hv1 & Hv2 & Hne).
    assert ((k, v1) ∈ (views ≫= λ v, entries (kv v))) as Hi1 by (apply elem_of_view_entries; eauto).
    assert ((k, v2) ∈ (views ≫= λ v, entries (kv v))) as Hi2 by (apply elem_of_view_entries; eauto).
    destruct (decide ((foldl coherence_step (∅, ∅) (views ≫= λ v, entries (kv v))).1 !! k = Some v1))
      as [E|]; [|eauto].
    exists v2. split; [done|]. rewrite E. congruence.
Qed.

(** The coherence proof is sound and complete: its conflict list is
    exactly the sorted list of keys on which two views disagree, and
    [verify_sheaf_coherence] accepts it exactly when the views glue, that is, when no
    key has two values. *)
Theorem sheaf_coherence_iff views global :
  (∀ k, k ∈ conflicts (build_sheaf_coherence views) ↔ disagree views k) ∧
  StronglySorted String.le (conflicts (build_sheaf_coherence views)) ∧
  (verify_sheaf_coherence global (build_sheaf_coherence views) = true ↔
   ∀ k, ¬ disagree views k).
Proof.
  unfold build_sheaf_coherence, verify_sheaf_coherence.
  pose proof (coherence_scan_conflicts views) as Hc.
  destruct (coherence_scan views) as [seen confl]. simpl in *.
  split_and!.
  - intros k. by rewrite elem_of_set_elems.
  - apply StronglySorted_merge_sort; apply _.
  - rewrite andb_true_iff, !bool_decide_eq_true. setoid_rewrite <-Hc. split.
    + intros [-> _]. set_solver.
    + intros Hn. assert (confl = ∅) as -> by set_solver. split; [done|].
      apply elem_of_nil_inv. intros k. rewrite elem_of_set_elems. set_solver.
Qed.
