(* ===== verification/F64.v ===== *)
(** * [f64] arithmetic

    Rust's [f64] is IEEE 754 binary64.  Values are the Standard Library's
    [spec_float] at 53 bits of precision, so every operation evaluates; a stored
    [f64] is its 64-bit pattern ([to_bits]).  [powf] is a library routine of
    unspecified precision and stays a parameter where it is used. *)
From S2P Require Export RustStr.
From Stdlib Require Export Floats.SpecFloat.
Open Scope list_scope.

Definition f64 : Type := spec_float.
#[export] Instance f64_eq_dec : EqDecision f64.
Proof. solve_decision. Defined.

Definition f64_zero : f64 := S754_zero false.
Definition f64_lit (m : positive) (e : Z) : f64 := S754_finite false m e.
Definition f64_one : f64 := f64_lit 4503599627370496 (-52).
Definition f64_two : f64 := f64_lit 4503599627370496 (-51).
Definition f64_half : f64 := f64_lit 4503599627370496 (-53).
Definition f64_1_5 : f64 := f64_lit 6755399441055744 (-52).
(** [f64::EPSILON]. *)
Definition f64_epsilon : f64 := f64_lit 4503599627370496 (-104).

Definition fadd : f64 → f64 → f64 := SFadd 53 1024.
Definition fsub : f64 → f64 → f64 := SFsub 53 1024.
Definition fmul : f64 → f64 → f64 := SFmul 53 1024.
Definition fdiv : f64 → f64 → f64 := SFdiv 53 1024.
Definition fsqrt : f64 → f64 := SFsqrt 53 1024.
Definition fabs : f64 → f64 := SFabs.

(** Comparisons are [false] on NaN. *)
Definition fltb (x y : f64) : bool := SFltb x y.
Definition fleb (x y : f64) : bool := SFleb x y.
Definition feqb (x y : f64) : bool := SFeqb x y.
Definition is_nan (x : f64) : bool := match x with S754_nan => true | _ => false end.

(** [f64::max] and [f64::min]: a NaN operand gives the other one. *)
Definition fmax (x y : f64) : f64 :=
  if is_nan x then y else if is_nan y then x else if fltb x y then y else x.
Definition fmin (x y : f64) : f64 :=
  if is_nan x then y else if is_nan y then x else if fltb y x then y else x.

(** [n as f64] for an unsigned integer. *)
Definition f64_of_N (n : N) : f64 := binary_normalize 53 1024 (Z.of_N n) 0 false.
Definition f64_of_nat (n : nat) : f64 := f64_of_N (N.of_nat n).

(** [x.ceil()] for the magnitudes the code rounds. *)
Definition fceil (x : f64) : f64 :=
  match x with
  | S754_finite s m e =>
      if (0 <=? e)%Z then x
      else
        let v := if s then Z.neg m else Z.pos m in
        binary_normalize 53 1024 (- ((- v) / 2 ^ (- e)))%Z 0 s
  | _ => x
  end.

(** [x as usize]: truncation that saturates; NaN gives 0. *)
Definition f64_to_N (x : f64) : N :=
  match x with
  | S754_finite false m e => N.min (Z.to_N (Z.shiftl (Z.pos m) e)) u64_max
  | S754_infinity false => u64_max
  | _ => 0%N
  end.

(** [iter().sum::<f64>()]. *)
Definition fsum (l : list f64) : f64 := foldl fadd f64_zero l.

(** [f64::from_bits] and [to_bits]; all NaN patterns are one [S754_nan]. *)
Definition f64_from_bits (b : N) : f64 :=
  let s := N.testbit b 63 in
  let e := N.land (N.shiftr b 52) 2047 in
  let m := N.land b (N.ones 52) in
  if (e =? 2047)%N then (if (m =? 0)%N then S754_infinity s else S754_nan)
  else if (e =? 0)%N then
    match m with 0%N => S754_zero s | Npos p => S754_finite s p (-1074) end
  else
    match (m + N.shiftl 1 52)%N with
    | 0%N => S754_zero s
    | Npos p => S754_finite s p (Z.of_N e - 1075)
    end.

(** [sort_by(|a, b| a.1.partial_cmp(&b.1).unwrap_or(Equal))]: a stable insertion
    sort by score, a pair with NaN counting as equal. *)
Fixpoint insert_score {A} (le : f64 → f64 → bool) (x : A * f64) (l : list (A * f64))
  : list (A * f64) :=
  match l with
  | [] => [x]
  | y :: l' => if le x.2 y.2 then x :: l else y :: insert_score le x l'
  end.
Definition sort_score {A} (le : f64 → f64 → bool) (l : list (A * f64)) : list (A * f64) :=
  foldr (insert_score le) [] l.
(** Not [Greater] / not [Less] under [partial_cmp] with the [Equal] fallback. *)
Definition score_asc (x y : f64) : bool := negb (fltb y x).
Definition score_desc (x y : f64) : bool := negb (fltb x y).

Lemma insert_score_perm {A} le (x : A * f64) l : insert_score le x l ≡ₚ x :: l.
Proof.
  induction l as [|y l IH]; simpl; [done|]. destruct (le _ _); [done|].
  rewrite IH. constructor.
Qed.
Lemma sort_score_perm {A} le (l : list (A * f64)) : sort_score le l ≡ₚ l.
Proof. induction l as [|x l IH]; simpl; [done|]. by rewrite insert_score_perm, IH. Qed.

(** ** Order lemmas *)

Lemma SFcompare_opp x y c : SFcompare x y = Some c → SFcompare y x = Some (CompOpp c).
Proof.
  destruct x as [[]|[]| |[] m1 e1], y as [[]|[]| |[] m2 e2]; simpl; intros [= <-]; try done;
    rewrite (Z.compare_antisym e1 e2); destruct (e1 ?= e2)%Z; simpl; try done.
  - change (Some (CompOpp (m2 ?= m1)%positive) = Some (CompOpp (CompOpp (m1 ?= m2)%positive))).
    by rewrite (Pos.compare_antisym m1 m2).
  - change (Some (m2 ?= m1)%positive = Some (CompOpp (m1 ?= m2)%positive)).
    by rewrite (Pos.compare_antisym m1 m2).
Qed.

Lemma SFcompare_nan x y : is_nan x = false → is_nan y = false → is_Some (SFcompare x y).
Proof. destruct x, y; simpl; try done; intros; by eexists. Qed.

Lemma fltb_false_fleb x y :
  is_nan x = false → is_nan y = false → fltb x y = false → fleb y x = true.
Proof.
  intros Hx Hy. destruct (SFcompare_nan _ _ Hx Hy) as [c Hc].
  unfold fltb, fleb, SFltb, SFleb. rewrite Hc, (SFcompare_opp _ _ _ Hc). by destruct c.
Qed.
Lemma fltb_true_fleb x y : fltb x y = true → fleb x y = true.
Proof. unfold fltb, fleb, SFltb, SFleb. destruct (SFcompare x y) as [[]|]; done. Qed.
Lemma fleb_not_nan x y : fleb x y = true → is_nan x = false ∧ is_nan y = false.
Proof. unfold fleb, SFleb. destruct x, y; done. Qed.
Lemma fleb_refl x : is_nan x = false → fleb x x = true.
Proof.
  intros Hx. apply fltb_false_fleb; [done..|]. unfold fltb, SFltb.
  destruct (SFcompare_nan _ _ Hx Hx) as [c Hc]. rewrite Hc.
  pose proof (SFcompare_opp _ _ _ Hc) as Hc'. rewrite Hc in Hc'. by destruct c.
Qed.

Definition clamp (x lo hi : f64) : f64 := fmin (fmax x lo) hi.

(** Clamping lands in the interval whatever the input, NaN included. *)
Lemma clamp_bounds x lo hi :
  fleb lo hi = true → fleb lo (clamp x lo hi) = true ∧ fleb (clamp x lo hi) hi = true.
Proof.
  intros Hlh. destruct (fleb_not_nan _ _ Hlh) as [Hlo Hhi]. unfold clamp.
  assert (is_nan (fmax x lo) = false ∧ fleb lo (fmax x lo) = true) as [Hm Hle].
  { unfold fmax. rewrite Hlo. destruct (is_nan x) eqn:Hx; [by auto using fleb_refl|].
    destruct (fltb x lo) eqn:Hl; [by auto using fleb_refl|]. by auto using fltb_false_fleb. }
  unfold fmin. rewrite Hm, Hhi. destruct (fltb hi (fmax x lo)) eqn:Hl.
  - split; [done|by apply fleb_refl].
  - split; [done|]. by apply fltb_false_fleb.
Qed.
