(* ===== verification/Governor.v ===== *)
(** * The memory governor: [src/src/halo/governor.rs]

    A PD/PID controller on [f64] with clamped output, anti-windup and adaptive
    gain scheduling.  The messages of [validate_params] are represented by the
    constructors of [GovernorParamError], which carry the operands they print. *)
From S2P Require Export F64.

Definition governor_error (r_target delta epsilon : f64) : f64 := fsub (fdiv delta epsilon) r_target.

Definition governor_step (epsilon e_prev delta dt alpha beta eps_min eps_max r_target : f64) : f64 :=
  let e := governor_error r_target delta epsilon in
  let d_error := fdiv (fsub e e_prev) dt in
  let adjustment := fadd (fmul alpha e) (fmul beta d_error) in
  clamp (fadd epsilon adjustment) eps_min eps_max.

Record PidStepResult := { pid_epsilon : f64; pid_integral : f64; pid_clamped : bool }.

Definition governor_step_pid
    (epsilon e_prev integral_prev delta dt alpha beta ki kb eps_min eps_max r_target : f64)
  : PidStepResult :=
  let e := governor_error r_target delta epsilon in
  let d_error := fdiv (fsub e e_prev) dt in
  let unclamped :=
    fadd (fadd (fadd epsilon (fmul alpha e)) (fmul ki integral_prev)) (fmul beta d_error) in
  let clamped_eps := clamp unclamped eps_min eps_max in
  {| pid_epsilon := clamped_eps;
     pid_integral :=
       fadd (fadd integral_prev (fmul e dt)) (fmul kb (fsub clamped_eps unclamped));
     pid_clamped := fltb f64_epsilon (fabs (fsub clamped_eps unclamped)) |}.

(** ** Adaptive gain scheduling *)

Inductive LoadRegime := Quiet | Active | Burst.
#[export] Instance LoadRegime_eq_dec : EqDecision LoadRegime.
Proof. solve_decision. Defined.

Definition f64_0_9 : f64 := f64_lit 8106479329266893 (-53).

Definition classify (occupancy_ratio : f64) : LoadRegime :=
  if fltb occupancy_ratio f64_half then Quiet
  else if fltb occupancy_ratio f64_0_9 then Active
  else Burst.

Definition regime_name (r : LoadRegime) : string :=
  match r with Quiet => "quiet" | Active => "active" | Burst => "burst" end.

Record AdaptiveGainSchedule := {
  quiet_alpha_scale : f64; quiet_beta_scale : f64; quiet_ki_scale : f64;
  active_alpha_scale : f64; active_beta_scale : f64; active_ki_scale : f64;
  burst_alpha_scale : f64; burst_beta_scale : f64; burst_ki_scale : f64
}.

Definition default_gain_schedule : AdaptiveGainSchedule := {|
  quiet_alpha_scale := f64_1_5; quiet_beta_scale := f64_half; quiet_ki_scale := f64_one;
  active_alpha_scale := f64_one; active_beta_scale := f64_one; active_ki_scale := f64_one;
  burst_alpha_scale := f64_half; burst_beta_scale := f64_two; burst_ki_scale := f64_half
|}.

Definition effective_gains (s : AdaptiveGainSchedule) (base_alpha base_beta base_ki : f64)
    (regime : LoadRegime) : f64 * f64 * f64 :=
  match regime with
  | Quiet => (fmul base_alpha (quiet_alpha_scale s), fmul base_beta (quiet_beta_scale s),
              fmul base_ki (quiet_ki_scale s))
  | Active => (fmul base_alpha (active_alpha_scale s), fmul base_beta (active_beta_scale s),
               fmul base_ki (active_ki_scale s))
  | Burst => (fmul base_alpha (burst_alpha_scale s), fmul base_beta (burst_beta_scale s),
              fmul base_ki (burst_ki_scale s))
  end.

(** ** Configuration and state *)

Record GovernorConfig := {
  instance_id : string;
  alpha : f64; beta : f64; dt : f64;
  eps_min : f64; eps_max : f64; gov_target : f64;
  formal_basis : string;
  ki : f64; kb : f64;
  adaptive : option AdaptiveGainSchedule
}.

Record GovernorState := {
  gov_config : GovernorConfig;
  epsilon : f64;
  e_prev : f64;
  integral : f64;
  last_measured_signal : option f64;
  last_lyapunov : option f64;
  oscillating : bool;
  clamp_active : bool;
  current_regime : option LoadRegime
}.

Record StabilityReport := {
  report_gamma : f64; report_contraction_bound : f64; report_regime : string
}.

Inductive GovernorParamError :=
| AlphaNotPositive (alpha : f64)
| BetaNegative (beta : f64)
| DtBelowOne (dt : f64)
| EpsMinNotPositive (eps_min : f64)
| EpsMaxNotAbove (eps_max eps_min : f64)
| KiNegative (ki : f64)
| KbNegative (kb : f64)
| GammaTooLarge (gamma : f64)
| EffectiveGammaTooLarge (gamma : f64).

Module Gov.

Definition new (config : GovernorConfig) : GovernorState := {|
  gov_config := config; epsilon := eps_min config; e_prev := f64_zero; integral := f64_zero;
  last_measured_signal := None; last_lyapunov := None;
  oscillating := false; clamp_active := false; current_regime := None
|}.

Definition error (g : GovernorState) (delta : f64) : f64 :=
  governor_error (gov_target (gov_config g)) delta (epsilon g).
Definition lyapunov (g : GovernorState) (delta : f64) : f64 :=
  let e := error g delta in fmul (fmul f64_half e) e.
Definition gamma (g : GovernorState) : f64 :=
  let c := gov_config g in fadd (alpha c) (fdiv (beta c) (dt c)).

Definition effective_gamma_worst_case (g : GovernorState) : f64 :=
  let c := gov_config g in
  match adaptive c with
  | Some schedule =>
      foldl (λ worst regime,
        let '(eff_alpha, eff_beta, _) :=
          effective_gains schedule (alpha c) (beta c) (ki c) regime in
        fmax worst (fadd eff_alpha (fdiv eff_beta (dt c)))) f64_zero [Quiet; Active; Burst]
  | None => gamma g
  end.

Definition contraction_bound (g : GovernorState) : f64 :=
  fmax (fsub f64_one (alpha (gov_config g))) f64_zero.
Definition is_from_rest (g : GovernorState) : bool :=
  match last_measured_signal g with None => true | Some _ => false end &&
  fleb (fabs (e_prev g)) f64_epsilon && fleb (fabs (integral g)) f64_epsilon.
Definition is_pid_mode (g : GovernorState) : bool := fltb f64_zero (ki (gov_config g)).
Definition controller_mode (g : GovernorState) : string := if is_pid_mode g then "PID" else "PD".
Definition adaptive_regime_label (g : GovernorState) : string :=
  match current_regime g with Some r => regime_name r | None => "none" end.

Definition validate_params (g : GovernorState) : result GovernorParamError StabilityReport :=
  let c := gov_config g in
  _ ← throw_if (negb (fltb f64_zero (alpha c))) (AlphaNotPositive (alpha c));
  _ ← throw_if (fltb (beta c) f64_zero) (BetaNegative (beta c));
  _ ← throw_if (fltb (dt c) f64_one) (DtBelowOne (dt c));
  _ ← throw_if (negb (fltb f64_zero (eps_min c))) (EpsMinNotPositive (eps_min c));
  _ ← throw_if (fleb (eps_max c) (eps_min c)) (EpsMaxNotAbove (eps_max c) (eps_min c));
  _ ← throw_if (fltb (ki c) f64_zero) (KiNegative (ki c));
  _ ← throw_if (fltb (kb c) f64_zero) (KbNegative (kb c));
  _ ← throw_if (fleb f64_one (gamma g)) (GammaTooLarge (gamma g));
  let worst_gamma := effective_gamma_worst_case g in
  _ ← throw_if (fleb f64_one worst_gamma) (EffectiveGammaTooLarge worst_gamma);
  mret {| report_gamma := worst_gamma;
          report_contraction_bound := contraction_bound g;
          report_regime :=
            if is_pid_mode g then "engineering PID (outside formal proof scope)"
            else "single-step from-rest no-clamp" |}.

Definition regime_label (g : GovernorState) : string :=
  if negb (is_ok (validate_params g)) then "outside formal regime"
  else if is_pid_mode g then
    "engineering PID multi-step (outside formal proof scope, adaptive=" +:+
      adaptive_regime_label g +:+ ")"
  else if is_from_rest g && negb (clamp_active g) then "single-step from-rest no-clamp"
  else if is_from_rest g then "from-rest clamp-active (outside formal proof)"
  else "engineering multi-step (formal scope exited after first observation)".

Definition formal_warning (g : GovernorState) : option string :=
  if negb (is_ok (validate_params g)) then None
  else if is_pid_mode g then
    Some "PID mode is an engineering extension; the formal Lyapunov proof applies only to PD mode."
  else if is_from_rest g && negb (clamp_active g) then None
  else if is_from_rest g then
    Some "Clamp activity has exited the single-step formal proof regime."
  else if oscillating g then
    Some "Multi-step operation is empirical only and has shown Lyapunov non-descent."
  else
    Some "Multi-step operation is empirical only; the single-step from-rest proof no longer applies.".

Definition set_output (g : GovernorState) (eps integ : f64) (clamped : bool)
    (regime : option LoadRegime) : GovernorState := {|
  gov_config := gov_config g; epsilon := eps; e_prev := e_prev g; integral := integ;
  last_measured_signal := last_measured_signal g; last_lyapunov := last_lyapunov g;
  oscillating := oscillating g; clamp_active := clamped; current_regime := regime
|}.

Definition step (g : GovernorState) (delta : f64) : GovernorState * f64 :=
  let c := gov_config g in
  let had_history := match last_measured_signal g with Some _ => true | None => false end in
  let previous_lyapunov := lyapunov g delta in
  let e := error g delta in
  let occupancy :=
    if fltb f64_zero (gov_target c) then fdiv delta (gov_target c) else f64_one in
  let regime := classify occupancy in
  let current := match adaptive c with Some _ => Some regime | None => None end in
  let '(eff_alpha, eff_beta, eff_ki) :=
    match adaptive c with
    | Some schedule => effective_gains schedule (alpha c) (beta c) (ki c) regime
    | None => (alpha c, beta c, ki c)
    end in
  let g1 :=
    if fltb f64_zero eff_ki then
      let r := governor_step_pid (epsilon g) (e_prev g) (integral g) delta (dt c)
                 eff_alpha eff_beta eff_ki (kb c) (eps_min c) (eps_max c) (gov_target c) in
      set_output g (pid_epsilon r) (pid_integral r) (pid_clamped r) current
    else
      let eps := governor_step (epsilon g) (e_prev g) delta (dt c) eff_alpha eff_beta
                   (eps_min c) (eps_max c) (gov_target c) in
      set_output g eps (integral g)
        (fltb (fabs (fsub eps (eps_min c))) f64_epsilon ||
         fltb (fabs (fsub eps (eps_max c))) f64_epsilon) current in
  let lyap := lyapunov g1 delta in
  ({| gov_config := gov_config g1; epsilon := epsilon g1; e_prev := e;
      integral := integral g1;
      last_measured_signal := Some delta; last_lyapunov := Some lyap;
      oscillating := had_history && fltb previous_lyapunov lyap;
      clamp_active := clamp_active g1; current_regime := current_regime g1 |}, epsilon g1).

Definition reset (g : GovernorState) : GovernorState := {|
  gov_config := gov_config g; epsilon := epsilon g; e_prev := f64_zero; integral := f64_zero;
  last_measured_signal := None; last_lyapunov := None;
  oscillating := false; clamp_active := false; current_regime := None
|}.

End Gov.

(** ** Properties *)

Lemma step_config g delta : gov_config (Gov.step g delta).1 = gov_config g.
Proof.
  unfold Gov.step. destruct (match adaptive _ with Some _ => _ | None => _ end) as [[??]?].
  by destruct (fltb f64_zero _).
Qed.

Lemma step_epsilon_clamped g delta :
  ∃ x, epsilon (Gov.step g delta).1 = clamp x (eps_min (gov_config g)) (eps_max (gov_config g)).
Proof.
  unfold Gov.step.
  destruct (match adaptive _ with Some _ => effective_gains _ _ _ _ _ | None => _ end) as [[??]?].
  destruct (fltb f64_zero _); simpl; by eexists.
Qed.

Lemma reset_from_rest g : Gov.is_from_rest (Gov.reset g) = true.
Proof. done. Qed.

(** The governor after a sequence of observations. *)
Definition run_steps (g : GovernorState) (deltas : list f64) : GovernorState :=
  foldl (λ g d, (Gov.step g d).1) g deltas.

Lemma run_steps_config g deltas : gov_config (run_steps g deltas) = gov_config g.
Proof.
  unfold run_steps. induction deltas as [|d ds IH] using rev_ind; [done|].
  rewrite foldl_app. simpl. by rewrite step_config.
Qed.

Lemma run_steps_snoc g deltas d :
  run_steps g (deltas ++ [d]) = (Gov.step (run_steps g deltas) d).1.
Proof. unfold run_steps. by rewrite foldl_app. Qed.

(** The governor's output stays inside its configured range: after
    any number of steps on any signals (infinities and NaN included), with any gains
    and in PD or PID mode, [eps_min <= epsilon <= eps_max], and the configuration is
    unchanged. *)
Theorem governor_epsilon_bounds config deltas :
  fleb (eps_min config) (eps_max config) = true →
  let g := run_steps (Gov.new config) deltas in
  fleb (eps_min config) (epsilon g) = true ∧ fleb (epsilon g) (eps_max config) = true ∧
  gov_config g = config.
Proof.
  intros Hle. simpl. rewrite run_steps_config.
  destruct deltas as [|d deltas _] using rev_ind.
  - destruct (fleb_not_nan _ _ Hle). split; [by apply fleb_refl|done].
  - rewrite run_steps_snoc.
    destruct (step_epsilon_clamped (run_steps (Gov.new config) deltas) d) as [x ->].
    rewrite run_steps_config. destruct (clamp_bounds x _ _ Hle). done.
Qed.

(** With [ki = kb = 0] the PID step is not the PD step on every input: the sums are
    associated differently and round apart. *)
Lemma pid_zero_gains_differs :
  let eps := f64_one in
  let alpha := f64_lit 5764607523034235 (-59) in
  let beta := f64_lit 7205759403792794 (-57) in
  let target := f64_of_N 10 in
  pid_epsilon (governor_step_pid eps f64_zero f64_zero f64_one f64_one alpha beta
                 f64_zero f64_zero f64_zero f64_two target) ≠
  governor_step eps f64_zero f64_one f64_one alpha beta f64_zero f64_two target.
Proof. vm_compute. discriminate. Qed.

(** [validate_params] accepts a configuration whose upper bound is NaN. *)
Definition nan_config : GovernorConfig := {|
  instance_id := "g"; alpha := f64_lit 5764607523034235 (-59);
  beta := f64_lit 7205759403792794 (-57); dt := f64_one; eps_min := f64_one;
  eps_max := S754_nan; gov_target := f64_of_N 10; formal_basis := "";
  ki := f64_zero; kb := f64_zero; adaptive := None
|}.
Lemma validate_params_accepts_nan : is_ok (Gov.validate_params (Gov.new nan_config)) = true.
Proof. by vm_compute. Qed.

Definition ex_governor_config : GovernorConfig := {|
  instance_id := "g"; alpha := f64_lit 5764607523034235 (-59);
  beta := f64_lit 7205759403792794 (-57); dt := f64_one; eps_min := f64_one;
  eps_max := f64_lit 4503599627370496 (-43); gov_target := f64_of_N 10; formal_basis := "";
  ki := f64_lit 4611686018427388 (-62); kb := f64_zero; adaptive := Some default_gain_schedule
|}.

Lemma governor_epsilon_bounds_witness :
  let g := run_steps (Gov.new ex_governor_config) [f64_of_N 50; S754_nan; f64_of_N 3] in
  fleb f64_one (epsilon g) = true ∧ fleb (epsilon g) (eps_max ex_governor_config) = true ∧
  gov_config g = ex_governor_config.
Proof.
  apply (governor_epsilon_bounds ex_governor_config [f64_of_N 50; S754_nan; f64_of_N 3]).
  by vm_compute.
Defined.
