(* ===== verification/Evictor.v ===== *)
(** * Liveness tracking and bounded stores

    [src/src/chebyshev_evictor.rs], and the capacity enforcement that
    [src/src/blob_store.rs] and [src/src/vector_index.rs] write alike
    ([enforce_pressure], [apply_time_maintenance]): a [Tracked] store is a map with
    its evictor, its governor and its clock.  [powf] is the only library routine
    left as a parameter. *)
From S2P Require Export Governor.

Class Libm := { powf : f64 → f64 → f64 }.

(** ** The Chebyshev guard *)

Definition mean (x : list f64) : f64 :=
  match x with [] => f64_zero | _ => fdiv (fsum x) (f64_of_nat (length x)) end.

Definition stddev (x : list f64) : f64 :=
  match x with
  | [] => f64_zero
  | _ =>
      let m := mean x in
      fsqrt (fdiv (fsum (map (λ v, let d := fsub v m in fmul d d) x)) (f64_of_nat (length x)))
  end.

Definition reclaimable_threshold (values : list f64) (k : f64) : f64 :=
  fsub (mean values) (fmul k (stddev values)).

Definition reclaimable_count (x : list f64) (k : f64) : nat :=
  length (filter (λ v, fleb v (reclaimable_threshold x k) = true) x).

Definition f64_1e_12 : f64 := f64_lit 4951760157141521 (-92).

Definition chebyshev_guard_check (x : list f64) (k : f64) : bool :=
  if bool_decide (x = []) || fleb k f64_zero then false
  else if fleb (stddev x) f64_zero then true
  else
    fleb (f64_of_nat (reclaimable_count x k))
         (fadd (fdiv (f64_of_nat (length x)) (fmul k k)) f64_1e_12).

Record EvictorStats := {
  tracked_items : nat; guarded_items : nat; reclaimable_items : nat; last_candidate_count : nat
}.

Record ChebyshevEvictor := {
  liveness : gmap string f64;
  cheb_k : f64;
  decay_rate : f64;
  impulse_magnitude : f64;
  evictor_stats : EvictorStats
}.

Definition fclamp (x lo hi : f64) : f64 :=
  if fltb x lo then lo else if fltb hi x then hi else x.

Module Evictor.

Definition new (k decay impulse : f64) : ChebyshevEvictor := {|
  liveness := ∅; cheb_k := k; decay_rate := decay; impulse_magnitude := impulse;
  evictor_stats := Build_EvictorStats 0 0 0 0
|}.
(** The three default constants: 2.0, 0.05 and 1.0. *)
Definition default_evictor : ChebyshevEvictor :=
  new f64_two (f64_lit 7205759403792794 (-57)) f64_one.

Definition values (e : ChebyshevEvictor) : list f64 := map_values (liveness e).

Definition refresh_stats (e : ChebyshevEvictor) (last_candidate_count : nat) : ChebyshevEvictor :=
  let vs := values e in
  let reclaimable := match vs with [] => 0 | _ => reclaimable_count vs (cheb_k e) end in
  {| liveness := liveness e; cheb_k := cheb_k e; decay_rate := decay_rate e;
     impulse_magnitude := impulse_magnitude e;
     evictor_stats :=
       Build_EvictorStats (length vs) (length vs - reclaimable) reclaimable last_candidate_count |}.

Definition set_liveness (e : ChebyshevEvictor) (l : gmap string f64) : ChebyshevEvictor := {|
  liveness := l; cheb_k := cheb_k e; decay_rate := decay_rate e;
  impulse_magnitude := impulse_magnitude e; evictor_stats := evictor_stats e
|}.

Definition record_access (e : ChebyshevEvictor) (key : string) : ChebyshevEvictor :=
  let entry := default f64_zero (liveness e !! key) in
  refresh_stats (set_liveness e (<[key := fadd entry (impulse_magnitude e)]> (liveness e))) 0.

Definition decay_steps `{Libm} (e : ChebyshevEvictor) (steps : N) : ChebyshevEvictor :=
  if (steps =? 0)%N then e
  else
    let factor :=
      powf (fclamp (fsub f64_one (decay_rate e)) f64_zero f64_one) (f64_of_N steps) in
    refresh_stats (set_liveness e ((λ v, fmul v factor) <$> liveness e)) 0.
Definition tick `{Libm} (e : ChebyshevEvictor) : ChebyshevEvictor := decay_steps e 1.

Definition remove_key (e : ChebyshevEvictor) (key : string) : ChebyshevEvictor :=
  refresh_stats (set_liveness e (delete key (liveness e))) 0.

Definition eviction_candidates (e : ChebyshevEvictor) (count : nat)
  : ChebyshevEvictor * list string :=
  if bool_decide (liveness e = ∅) || (count =? 0) then (refresh_stats e 0, [])
  else
    let vs := values e in
    if negb (chebyshev_guard_check vs (cheb_k e)) then (refresh_stats e 0, [])
    else
      let threshold := reclaimable_threshold vs (cheb_k e) in
      let reclaimable := filter (λ kv, fleb kv.2 threshold = true) (entries (liveness e)) in
      let keys := (take count (sort_score score_asc reclaimable)).*1 in
      (refresh_stats e (length keys), keys).

Definition is_guarded (e : ChebyshevEvictor) (key : string) : bool :=
  match liveness e !! key with
  | None => false
  | Some score =>
      match values e with
      | [] => false
      | vs => fltb (reclaimable_threshold vs (cheb_k e)) score
      end
  end.

Definition guarded_count (e : ChebyshevEvictor) : nat :=
  match values e with
  | [] => 0
  | vs => length (filter (λ v, fltb (reclaimable_threshold vs (cheb_k e)) v = true) vs)
  end.

Definition least_live_keys (e : ChebyshevEvictor) (count : nat) : list string :=
  (take count (sort_score score_asc (entries (liveness e)))).*1.

End Evictor.

(** ** Tracked stores *)

Record Tracked (A : Type) := mk_Tracked {
  contents : gmap string A;
  evictor : ChebyshevEvictor;
  max_entries : nat;
  memory_governor : GovernorState;
  last_eviction_count : nat;
  last_maintenance_unix : N;
  last_activity_unix : N
}.
Arguments mk_Tracked {A}.
Arguments contents {A}. Arguments evictor {A}. Arguments max_entries {A}.
Arguments memory_governor {A}. Arguments last_eviction_count {A}.
Arguments last_maintenance_unix {A}. Arguments last_activity_unix {A}.

Definition storage_reset_window_secs : N := 30.
Definition default_ceiling : nat := N.to_nat 100000.

Lemma default_ceiling_pos : 1 ≤ default_ceiling.
Proof. unfold default_ceiling. lia. Qed.

Section tracked.
Context `{Libm} {A : Type}.
Implicit Types t : Tracked A.

Definition with_store t (c : gmap string A) (e : ChebyshevEvictor) (count : nat) : Tracked A :=
  mk_Tracked c e (max_entries t) (memory_governor t) count
    (last_maintenance_unix t) (last_activity_unix t).

(** The first eviction loop: candidates, guarded ones skipped. *)
Fixpoint evict_candidates t (candidates : list string) : Tracked A :=
  match candidates with
  | [] => t
  | key :: rest =>
      if size (contents t) <=? max_entries t then t
      else if Evictor.is_guarded (evictor t) key then evict_candidates t rest
      else
        evict_candidates
          (with_store t (delete key (contents t)) (Evictor.remove_key (evictor t) key)
             (last_eviction_count t + 1)) rest
  end.

(** The fallback loop: least-live keys that hold content. *)
Fixpoint evict_least_live t (keys : list string) : Tracked A :=
  match keys with
  | [] => t
  | key :: rest =>
      if size (contents t) <=? max_entries t then t
      else
        match contents t !! key with
        | Some _ =>
            evict_least_live
              (with_store t (delete key (contents t)) (Evictor.remove_key (evictor t) key)
                 (last_eviction_count t + 1)) rest
        | None => evict_least_live t rest
        end
  end.

Definition eviction_budget (g : GovernorState) : nat :=
  N.to_nat (f64_to_N (fmax (fceil (epsilon g)) f64_one)).

Definition enforce_pressure t : Tracked A :=
  let t0 := with_store t (contents t) (evictor t) 0 in
  if bool_decide (contents t = ∅) then t0
  else
    let g := (Gov.step (memory_governor t) (f64_of_nat (size (contents t)))).1 in
    let t1 := mk_Tracked (contents t) (evictor t) (max_entries t) g 0
                (last_maintenance_unix t) (last_activity_unix t) in
    if size (contents t) <=? max_entries t then t1
    else
      let overage := size (contents t) - max_entries t in
      let candidate_count := eviction_budget g `max` overage in
      let '(ev, candidates) := Evictor.eviction_candidates (evictor t1) candidate_count in
      let t2 := evict_candidates (with_store t1 (contents t1) ev 0) candidates in
      if size (contents t2) <=? max_entries t2 then t2
      else evict_least_live t2 (Evictor.least_live_keys (evictor t2) (size (contents t2))).

Definition apply_time_maintenance t (now : N) : Tracked A * bool :=
  let last0 := if (last_maintenance_unix t =? 0)%N then now else last_maintenance_unix t in
  let elapsed := saturating_sub now last0 in
  let '(ev, last1, changed) :=
    if (0 <? elapsed)%N then (Evictor.decay_steps (evictor t) elapsed, now, true)
    else (evictor t, last0, false) in
  let reset :=
    negb (bool_decide (contents t = ∅)) && negb (Gov.is_from_rest (memory_governor t))
    && (storage_reset_window_secs <=? saturating_sub now (last_activity_unix t))%N in
  (mk_Tracked (contents t) ev (max_entries t)
     (if reset then Gov.reset (memory_governor t) else memory_governor t)
     (last_eviction_count t) last1 (last_activity_unix t),
   changed || reset).

(** Insert, record the access and the activity, then enforce the ceiling. *)
Definition tracked_insert t (now : N) (key : string) (data : A) : Tracked A :=
  enforce_pressure
    (mk_Tracked (<[key := data]> (contents t)) (Evictor.record_access (evictor t) key)
       (max_entries t) (memory_governor t) (last_eviction_count t)
       (last_maintenance_unix t) now).

Definition tracked_set_max t (now : N) (max : nat) : Tracked A :=
  let t' := (apply_time_maintenance t now).1 in
  let m := max `max` 1 in
  let g := memory_governor t' in
  let c := gov_config g in
  let c' := {| instance_id := instance_id c; alpha := alpha c; beta := beta c; dt := dt c;
               eps_min := eps_min c; eps_max := eps_max c; gov_target := f64_of_nat m;
               formal_basis := formal_basis c; ki := ki c; kb := kb c; adaptive := adaptive c |} in
  let g' := {| gov_config := c'; epsilon := epsilon g; e_prev := e_prev g;
               integral := integral g; last_measured_signal := last_measured_signal g;
               last_lyapunov := last_lyapunov g; oscillating := oscillating g;
               clamp_active := clamp_active g; current_regime := current_regime g |} in
  enforce_pressure
    (mk_Tracked (contents t') (evictor t') m g' (last_eviction_count t')
       (last_maintenance_unix t') (last_activity_unix t')).

(** ** Lemmas *)

(** The store and the liveness table track the same keys. *)
Definition tracked_ok t : Prop :=
  (∀ k, is_Some (contents t !! k) ↔ is_Some (liveness (evictor t) !! k)) ∧ 1 ≤ max_entries t.

Lemma liveness_refresh e n : liveness (Evictor.refresh_stats e n) = liveness e.
Proof. done. Qed.

Lemma liveness_candidates e n : liveness (Evictor.eviction_candidates e n).1 = liveness e.
Proof.
  unfold Evictor.eviction_candidates. destruct (_ || _); [done|].
  by destruct (negb _).
Qed.

Lemma tracked_ok_delete t key n :
  tracked_ok t →
  tracked_ok (with_store t (delete key (contents t)) (Evictor.remove_key (evictor t) key) n).
Proof.
  intros [Hdom Hmax]. split; [|done]. intros k. simpl.
  destruct (decide (k = key)) as [->|]; [by rewrite !lookup_delete_eq|].
  by rewrite !lookup_delete_ne.
Qed.

Lemma evict_candidates_ok t ks : tracked_ok t → tracked_ok (evict_candidates t ks).
Proof.
  revert t. induction ks as [|k ks IH]; intros t Ht; simpl; [done|].
  destruct (_ <=? _); [done|]. destruct (Evictor.is_guarded _ _); [by apply IH|].
  by apply IH, tracked_ok_delete.
Qed.

Lemma evict_candidates_max t ks : max_entries (evict_candidates t ks) = max_entries t.
Proof.
  revert t. induction ks as [|k ks IH]; intros t; simpl; [done|].
  destruct (_ <=? _); [done|]. destruct (Evictor.is_guarded _ _); by rewrite IH.
Qed.

Lemma evict_least_live_ok t ks : tracked_ok t → tracked_ok (evict_least_live t ks).
Proof.
  revert t. induction ks as [|k ks IH]; intros t Ht; simpl; [done|].
  destruct (_ <=? _); [done|]. destruct (contents t !! k); [|by apply IH].
  by apply IH, tracked_ok_delete.
Qed.

(** The fallback restores the ceiling when its keys cover the store. *)
Lemma evict_least_live_size t ks :
  1 ≤ max_entries t → (∀ k, is_Some (contents t !! k) → k ∈ ks) →
  size (contents (evict_least_live t ks)) ≤ max_entries t ∧
  max_entries (evict_least_live t ks) = max_entries t.
Proof.
  revert t. induction ks as [|k ks IH]; intros t Hmax Hcov; simpl.
  - split; [|done]. assert (contents t = ∅) as ->; [|rewrite map_size_empty; lia].
    apply map_empty. intros k. apply eq_None_not_Some. intros [? Hk].
    by apply (not_elem_of_nil k), Hcov; eexists.
  - destruct (Nat.leb_spec (size (contents t)) (max_entries t)); [done|].
    destruct (contents t !! k) as [a|] eqn:Hk.
    + destruct (IH (with_store t (delete k (contents t)) (Evictor.remove_key (evictor t) k)
        (last_eviction_count t + 1))) as [? ?]; [done| |done].
      simpl. intros k' [x Hx]. apply lookup_delete_Some in Hx as [Hne Hx].
      assert (k' ∈ k :: ks) by eauto. set_solver.
    + apply IH; [done|]. intros k' Hk'. pose proof (Hcov _ Hk') as [->|?]%elem_of_cons; [|done].
      by rewrite Hk in Hk'; destruct Hk'.
Qed.

Lemma least_live_covers t :
  tracked_ok t → ∀ k, is_Some (contents t !! k) →
  k ∈ Evictor.least_live_keys (evictor t) (size (contents t)).
Proof.
  intros [Hdom _] k Hk. unfold Evictor.least_live_keys.
  assert (size (contents t) = length (sort_score score_asc (entries (liveness (evictor t))))) as ->.
  { rewrite sort_score_perm, length_entries, <-!size_dom. f_equal.
    apply set_eq. intros k'. rewrite !elem_of_dom. apply Hdom. }
  rewrite firstn_all, sort_score_perm. apply elem_of_map_keys, Hdom, Hk.
Qed.

Lemma enforce_pressure_ok t : tracked_ok t → tracked_ok (enforce_pressure t).
Proof.
  intros Ht. unfold enforce_pressure. case_bool_decide; [exact Ht|]. simpl.
  destruct (_ <=? _); [exact Ht|].
  destruct (Evictor.eviction_candidates _ _) as [ev cands] eqn:He.
  assert (liveness ev = liveness (evictor t)) as Hl by (by rewrite <-(liveness_candidates (evictor t)
    (eviction_budget (Gov.step (memory_governor t) (f64_of_nat (size (contents t)))).1
       `max` (size (contents t) - max_entries t))), He).
  set (t2 := evict_candidates _ _).
  assert (tracked_ok t2) as Ht2.
  { apply evict_candidates_ok. destruct Ht as [Hd Hm]. split; simpl; [by rewrite Hl|done]. }
  destruct (_ <=? _); [done|]. by apply evict_least_live_ok.
Qed.

Lemma enforce_pressure_size t :
  tracked_ok t →
  size (contents (enforce_pressure t)) ≤ max_entries t ∧
  max_entries (enforce_pressure t) = max_entries t.
Proof.
  intros Ht. unfold enforce_pressure. case_bool_decide as He.
  { simpl. rewrite He, map_size_empty. split; [lia|done]. }
  simpl. destruct (Nat.leb_spec (size (contents t)) (max_entries t)); [done|].
  destruct (Evictor.eviction_candidates _ _) as [ev cands] eqn:Hev.
  assert (liveness ev = liveness (evictor t)) as Hl by (by rewrite <-(liveness_candidates (evictor t)
    (eviction_budget (Gov.step (memory_governor t) (f64_of_nat (size (contents t)))).1
       `max` (size (contents t) - max_entries t))), Hev).
  set (t2 := evict_candidates _ _).
  assert (tracked_ok t2) as Ht2.
  { apply evict_candidates_ok. destruct Ht as [Hd Hm]. split; simpl; [by rewrite Hl|done]. }
  assert (max_entries t2 = max_entries t) as Hm by (unfold t2; by rewrite evict_candidates_max).
  destruct (Nat.leb_spec (size (contents t2)) (max_entries t2)); [lia|].
  destruct (evict_least_live_size t2 (Evictor.least_live_keys (evictor t2) (size (contents t2))))
    as [? ?]; [apply Ht2|by apply least_live_covers|lia].
Qed.

(** An eviction only removes entries, and no more than are above the ceiling. *)
Definition evicted (m m' : gmap string A) (max : nat) : Prop :=
  m' ⊆ m ∧ size m `min` max ≤ size m'.
Lemma evicted_refl m max : evicted m m max.
Proof. split; [done|lia]. Qed.
Lemma evicted_delete m m' key max :
  max < size m → evicted (delete key m) m' max → evicted m m' max.
Proof.
  intros Hlt [Hsub Hle]. split; [etrans; [exact Hsub|apply delete_subseteq]|].
  rewrite map_size_delete in Hle. destruct (m !! key); simpl in Hle; lia.
Qed.
Lemma evict_candidates_evicts t ks :
  evicted (contents t) (contents (evict_candidates t ks)) (max_entries t).
Proof.
  revert t. induction ks as [|k ks IH]; intros t; simpl; [apply evicted_refl|].
  destruct (Nat.leb_spec (size (contents t)) (max_entries t)); [apply evicted_refl|].
  destruct (Evictor.is_guarded _ _); [apply IH|]. apply (evicted_delete _ _ k); [done|]. refine (IH (with_store t (delete k _) _ _)).
Qed.
Lemma evict_least_live_evicts t ks :
  evicted (contents t) (contents (evict_least_live t ks)) (max_entries t).
Proof.
  revert t. induction ks as [|k ks IH]; intros t; simpl; [apply evicted_refl|].
  destruct (Nat.leb_spec (size (contents t)) (max_entries t)); [apply evicted_refl|].
  destruct (contents t !! k); [|apply IH]. apply (evicted_delete _ _ k); [done|]. refine (IH (with_store t (delete k _) _ _)).
Qed.
Lemma enforce_pressure_evicts t :
  evicted (contents t) (contents (enforce_pressure t)) (max_entries t).
Proof.
  unfold enforce_pressure. case_bool_decide; [apply evicted_refl|]. simpl.
  destruct (_ <=? _); [apply evicted_refl|]. destruct (Evictor.eviction_candidates _ _) as [ev cands].
  set (t1 := with_store _ _ ev 0). set (t2 := evict_candidates t1 cands).
  pose proof (evict_candidates_evicts t1 cands) as H1'. fold t2 in H1'.
  destruct (Nat.leb_spec (size (contents t2)) (max_entries t2)); [exact H1'|].
  destruct H1' as [Hs1 Hm1], (evict_least_live_evicts t2 (Evictor.least_live_keys (evictor t2) (size (contents t2)))) as [Hs2 Hm2].
  assert (max_entries t2 = max_entries t) as Hm by (unfold t2; by rewrite evict_candidates_max).
  rewrite Hm in Hm2. split; [by etrans|]. simpl in *. lia.
Qed.

(** Below the ceiling nothing is evicted. *)
Lemma enforce_pressure_noop t :
  size (contents t) ≤ max_entries t → contents (enforce_pressure t) = contents t.
Proof.
  intros Hle. unfold enforce_pressure. case_bool_decide; [done|]. simpl.
  destruct (Nat.leb_spec (size (contents t)) (max_entries t)); [done|lia].
Qed.

Lemma maintenance_ok t now : tracked_ok t → tracked_ok (apply_time_maintenance t now).1.
Proof.
  intros [Hd Hm]. unfold apply_time_maintenance.
  destruct (0 <? _)%N; (split; [|done]); simpl; [|exact Hd].
  intros k. rewrite Hd. unfold Evictor.decay_steps. destruct (_ =? 0)%N; [done|]. simpl.
  by rewrite lookup_fmap, fmap_is_Some.
Qed.
Lemma maintenance_contents t now :
  contents (apply_time_maintenance t now).1 = contents t ∧
  max_entries (apply_time_maintenance t now).1 = max_entries t.
Proof. unfold apply_time_maintenance. by destruct (0 <? _)%N. Qed.

Lemma insert_tracked_ok t now key data :
  tracked_ok t →
  tracked_ok (mk_Tracked (<[key := data]> (contents t)) (Evictor.record_access (evictor t) key)
    (max_entries t) (memory_governor t) (last_eviction_count t) (last_maintenance_unix t) now).
Proof.
  intros [Hd Hm]. split; [|done]. intros k. simpl.
  destruct (decide (k = key)) as [->|]; [rewrite !lookup_insert_eq; split; by eexists|].
  by rewrite !lookup_insert_ne.
Qed.
End tracked.
