(* ===== verification/BlobStore.v ===== *)
(** * The blob store: [src/src/blob_store.rs]

    A map from key to payload on top of the shared bounded store of [Evictor].
    The wall clock ([now_unix]) is the argument [now]. *)
From S2P Require Export Evictor.

Definition f64_0_0316 : f64 := f64_lit 4554039943197046 (-57).
Definition f64_100000 : f64 := f64_lit 6871947673600000 (-36).

Definition memory_governor_config (id basis : string) : GovernorConfig := {|
  instance_id := id;
  alpha := f64_lit 5764607523034235 (-59);
  beta := f64_lit 7205759403792794 (-57);
  dt := f64_one;
  eps_min := f64_one;
  eps_max := f64_lit 4503599627370496 (-43);
  gov_target := f64_100000;
  formal_basis := basis;
  ki := f64_lit 4611686018427388 (-62);
  kb := f64_0_0316;
  adaptive := Some default_gain_schedule
|}.

Definition default_blob_memory_governor_config : GovernorConfig :=
  memory_governor_config "gov-memory-blob"
    "HeytingLean.Bridge.Sharma.AetherGovernor.validatorRegime".

Definition BlobStore := Tracked bytes.

Record BlobStoreStats := {
  st_tracked : nat; st_guarded : nat; st_reclaimable : nat; st_total_bytes : nat;
  st_max_entries : nat; st_last_eviction_count : nat;
  st_epsilon : f64; st_error : f64; st_gamma : f64; st_contraction_bound : f64;
  st_regime : string; st_stable : bool; st_oscillating : bool; st_gain_violated : bool;
  st_clamp_active : bool; st_integral : f64; st_controller_mode : string;
  st_adaptive_regime : string; st_formal_basis : string
}.

(** The statistics both stores report; only the blob store has a byte count. *)
Definition tracked_stats {A} (t : Tracked A) (total_bytes : nat) : BlobStoreStats :=
  let g := memory_governor t in
  let gain_violated := negb (is_ok (Gov.validate_params g)) in
  {| st_tracked := size (contents t);
     st_guarded := guarded_items (evictor_stats (evictor t));
     st_reclaimable := reclaimable_items (evictor_stats (evictor t));
     st_total_bytes := total_bytes;
     st_max_entries := max_entries t;
     st_last_eviction_count := last_eviction_count t;
     st_epsilon := epsilon g;
     st_error := Gov.error g (f64_of_nat (size (contents t)));
     st_gamma := Gov.gamma g;
     st_contraction_bound := Gov.contraction_bound g;
     st_regime := Gov.regime_label g;
     st_stable := negb gain_violated && negb (oscillating g);
     st_oscillating := oscillating g;
     st_gain_violated := gain_violated;
     st_clamp_active := clamp_active g;
     st_integral := integral g;
     st_controller_mode := Gov.controller_mode g;
     st_adaptive_regime := Gov.adaptive_regime_label g;
     st_formal_basis := formal_basis (gov_config g) |}.

Module Blob.
Section blob.
Context `{Libm}.
Implicit Types b : BlobStore.

Definition new (now : N) : BlobStore :=
  mk_Tracked ∅ Evictor.default_evictor default_ceiling
    (Gov.new default_blob_memory_governor_config) 0 now now.

Definition put b (now : N) (key : string) (data : bytes) : BlobStore :=
  tracked_insert (apply_time_maintenance b now).1 now key data.

Definition get b (key : string) : option bytes := contents b !! key.

Definition get_with_access b (now : N) (key : string) : BlobStore * option bytes :=
  let b1 := (apply_time_maintenance b now).1 in
  let b2 :=
    match contents b1 !! key with
    | Some _ =>
        mk_Tracked (contents b1) (Evictor.record_access (evictor b1) key) (max_entries b1)
          (memory_governor b1) (last_eviction_count b1) (last_maintenance_unix b1) now
    | None => b1
    end in
  (b2, contents b2 !! key).

Definition remove b (key : string) : BlobStore * option bytes :=
  (with_store b (delete key (contents b)) (Evictor.remove_key (evictor b) key)
     (last_eviction_count b), contents b !! key).

Definition contains b (key : string) : bool := bool_decide (is_Some (contents b !! key)).
Definition len b : nat := size (contents b).
Definition total_bytes b : nat := sum_list (length <$> map_values (contents b)).
Definition iter b : list (string * bytes) := entries (contents b).
Definition set_max_entries b (now : N) (max : nat) : BlobStore := tracked_set_max b now max.
Definition stats b : BlobStoreStats := tracked_stats b (total_bytes b).
Definition maintenance_tick b (now : N) : BlobStore * bool := apply_time_maintenance b now.
Definition soft_reset_governor b : BlobStore :=
  mk_Tracked (contents b) (evictor b) (max_entries b) (Gov.reset (memory_governor b))
    (last_eviction_count b) (last_maintenance_unix b) (last_activity_unix b).

(** Every mutating operation, for statements about histories. *)
Inductive Op :=
| Put (now : N) (key : string) (data : bytes)
| Touch (now : N) (key : string)
| Remove (key : string)
| SetMax (now : N) (max : nat)
| Tick (now : N)
| SoftReset.

Definition step b (op : Op) : BlobStore :=
  match op with
  | Put now key data => put b now key data
  | Touch now key => (get_with_access b now key).1
  | Remove key => (remove b key).1
  | SetMax now max => set_max_entries b now max
  | Tick now => (maintenance_tick b now).1
  | SoftReset => soft_reset_governor b
  end.

Definition bounded b : Prop := tracked_ok b ∧ size (contents b) ≤ max_entries b.

Lemma new_bounded now : bounded (new now).
Proof.
  split; [split|].
  - intros k. simpl. by rewrite !lookup_empty.
  - apply default_ceiling_pos.
  - cbn. rewrite map_size_empty. apply Nat.le_0_l.
Qed.

Lemma put_bounded b now key data : tracked_ok b → bounded (put b now key data).
Proof.
  intros Hb. unfold put, tracked_insert.
  pose proof (insert_tracked_ok _ now key data (maintenance_ok b now Hb)) as Hi.
  split; [by apply enforce_pressure_ok|].
  destruct (enforce_pressure_size _ Hi) as [Hs ->]. exact Hs.
Qed.

Lemma set_max_bounded b now max : tracked_ok b → bounded (set_max_entries b now max).
Proof.
  intros Hb. unfold set_max_entries, tracked_set_max.
  pose proof (maintenance_ok b now Hb) as [Hd _].
  match goal with |- bounded (enforce_pressure ?t) => assert (tracked_ok t) as Hi end.
  { split; [exact Hd|simpl; lia]. }
  split; [by apply enforce_pressure_ok|].
  destruct (enforce_pressure_size _ Hi) as [Hs ->]. exact Hs.
Qed.

Lemma maintenance_bounded b now : bounded b → bounded (apply_time_maintenance b now).1.
Proof.
  intros [Hb Hs]. split; [by apply maintenance_ok|].
  by destruct (maintenance_contents b now) as [-> ->].
Qed.

Lemma step_bounded b op : bounded b → bounded (step b op).
Proof.
  intros Hb. destruct op as [now key data|now key|key|now max|now|]; simpl.
  - apply put_bounded, Hb.
  - pose proof (maintenance_bounded b now Hb) as Hm. unfold get_with_access. simpl.
    destruct (contents (apply_time_maintenance b now).1 !! key) as [d|] eqn:Hk; [|exact Hm].
    destruct Hm as [[Hd Hmax] Hs]. split; [split; [|exact Hmax]|exact Hs].
    intros k. simpl. rewrite Hd. destruct (decide (k = key)) as [->|].
    + rewrite lookup_insert_eq. rewrite <-Hd, Hk. by split; eexists.
    + by rewrite lookup_insert_ne.
  - destruct Hb as [Hb Hs]. split; [by apply tracked_ok_delete|]. simpl.
    etrans; [|exact Hs]. rewrite map_size_delete. destruct (contents b !! key); simpl; lia.
  - apply set_max_bounded, Hb.
  - by apply maintenance_bounded.
  - exact Hb.
Qed.

Lemma put_evicted b now key data :
  evicted (<[key := data]> (contents b)) (contents (put b now key data)) (max_entries b).
Proof.
  unfold put, tracked_insert. destruct (maintenance_contents b now) as [Hc Hm].
  rewrite <-Hc, <-Hm. exact (enforce_pressure_evicts (mk_Tracked (<[key := data]> _) _ _ _ _ _ _)).
Qed.

Lemma put_get_no_pressure b now key data :
  size (<[key := data]> (contents b)) ≤ max_entries b →
  contents (put b now key data) = <[key := data]> (contents b).
Proof.
  intros Hs. unfold put, tracked_insert.
  destruct (maintenance_contents b now) as [Hc Hm].
  rewrite enforce_pressure_noop by (simpl; by rewrite Hc, Hm). simpl. by rewrite Hc.
Qed.

(** Claim C40. The blob store is bounded and exact below its ceiling: after any
    history of puts, reads, removals, ceiling changes and clock ticks the number of
    blobs is within [max_entries] and the evictor tracks exactly the stored keys; a put
    that leaves room stores the payload and changes no other key. *)
Theorem blob_store_bounded now ops :
  let b := foldl step (new now) ops in
  len b ≤ max_entries b ∧
  (∀ k, contains b k = bool_decide (is_Some (liveness (evictor b) !! k))) ∧
  ∀ t key data, size (<[key := data]> (contents b)) ≤ max_entries b →
    get (put b t key data) key = Some data ∧
    ∀ k, k ≠ key → get (put b t key data) k = get b k.
Proof.
  assert (bounded (foldl step (new now) ops)) as [Hok Hs].
  { induction ops as [|op ops IH] using rev_ind; [apply new_bounded|].
    rewrite foldl_app. by apply step_bounded. }
  simpl. split; [done|]. split.
  - intros k. apply bool_decide_ext, Hok.
  - intros t key data Hroom. unfold get. rewrite put_get_no_pressure by done.
    split; [apply lookup_insert_eq|]. intros k Hk. by apply lookup_insert_ne.
Qed.

End blob.
End Blob.

(** At the ceiling the entry just written can be the one evicted: with equal scores the
    fallback order is the key order, and the new key may come first. *)
Definition id_powf : Libm := {| powf := λ x _, x |}.

(** A put can drop the payload it was given: in a store at its
    ceiling the new key is evicted when its score ties and its name sorts first. *)
Theorem blob_put_may_drop_new_entry :
  ∃ b data, let M := id_powf in
    Blob.bounded b ∧ Blob.get (Blob.put b 0 "a" data) "a" = None.
Proof.
  exists (Blob.put (H:=id_powf) (Blob.set_max_entries (H:=id_powf) (Blob.new 0) 0 1) 0 "b" [x01]), [x02].
  split.
  - apply Blob.put_bounded. apply Blob.set_max_bounded. apply Blob.new_bounded.
  - by vm_compute.
Qed.
