(* ===== verification/TypedValue.v ===== *)
(** * Typed values: [src/src/typed_value.rs] and [src/src/type_map.rs]

    Cells of the state vector carry a direct encoding or the content hash of a
    blob.  An [f64] is its 64-bit pattern here.  [serde_json] is outside the
    repository: the class [SerdeJson] has the two functions the code calls. *)
From S2P Require Export Crypto Store.

Class SerdeJson := {
  JsonValue : Type;
  json_to_vec : JsonValue → bytes;
  json_from_slice : bytes → option JsonValue
}.

(** What the code reads of a [serde_json::Value]: parsing, [get] with a key or an index,
    [as_str], [as_u64] and [to_string]. *)
Class JsonAccess `{SerdeJson} := {
  json_from_str : string → option JsonValue;
  json_get : JsonValue → string → option JsonValue;
  json_get_idx : JsonValue → N → option JsonValue;
  json_as_str : JsonValue → option string;
  json_as_u64 : JsonValue → option N;
  json_to_string : JsonValue → string
}.

(** The values [json!] builds. *)
Class JsonBuild `{SerdeJson} := {
  json_null : JsonValue;
  json_bool : bool → JsonValue;
  json_u64 : N → JsonValue;
  json_str : string → JsonValue;
  json_object : list (string * JsonValue) → JsonValue
}.

Inductive TypeTag := TNull | TInteger | TFloat | TBool | TText | TJson | TBytes | TVector.
#[export] Instance TypeTag_eq_dec : EqDecision TypeTag.
Proof. solve_decision. Defined.

Definition tag_str (t : TypeTag) : string :=
  match t with
  | TNull => "null" | TInteger => "integer" | TFloat => "float" | TBool => "bool"
  | TText => "text" | TJson => "json" | TBytes => "bytes" | TVector => "vector"
  end.
Definition from_str_tag (s : string) : option TypeTag :=
  first_some (λ t, if bool_decide (s = tag_str t) then Some t else None)
    [TNull; TInteger; TFloat; TBool; TText; TJson; TBytes; TVector].
Definition is_blob (t : TypeTag) : bool :=
  match t with TText | TJson | TBytes | TVector => true | _ => false end.

Lemma from_str_tag_str t : from_str_tag (tag_str t) = Some t.
Proof. by destruct t. Qed.

Definition NULL_SENTINEL : N := u64_max.

(** ** 64-bit casts *)

(** [v as u64] and [v as i64]. *)
Definition i64_to_u64 (v : Z) : N := Z.to_N (v mod 2 ^ 64).
Definition u64_to_i64 (v : N) : Z :=
  if (v <? 2 ^ 63)%N then Z.of_N v else (Z.of_N v - 2 ^ 64)%Z.
Definition is_i64 (v : Z) : Prop := (- 2 ^ 63 ≤ v < 2 ^ 63)%Z.

Lemma u64_i64_roundtrip v : is_i64 v → u64_to_i64 (i64_to_u64 v) = v.
Proof.
  unfold is_i64, u64_to_i64, i64_to_u64. intros Hv.
  assert (v mod 2 ^ 64 = if decide (0 ≤ v)%Z then v else (v + 2 ^ 64))%Z as ->.
  { case_decide; [apply Z.mod_small; lia|].
    rewrite <-(Z.mod_add v 1 (2 ^ 64)), Z.mul_1_l by lia. apply Z.mod_small. lia. }
  case_decide.
  - destruct (N.ltb_spec (Z.to_N v) (2 ^ 63)); lia.
  - destruct (N.ltb_spec (Z.to_N (v + 2 ^ 64)) (2 ^ 63)); lia.
Qed.

Lemma i64_to_u64_is_u64 v : is_u64 (i64_to_u64 v).
Proof.
  unfold is_u64, u64_max, i64_to_u64. pose proof (Z.mod_pos_bound v (2 ^ 64)). lia.
Qed.

Section typed_value.
Context `{Sha2, SerdeJson}.

Inductive TypedValue :=
| VNull
| VInteger (v : Z)
| VFloat (bits : N)
| VBool (b : bool)
| VText (s : string)
| VJson (v : JsonValue)
| VBytes (b : bytes)
| VVector (dims : list N).

Definition tag (v : TypedValue) : TypeTag :=
  match v with
  | VNull => TNull | VInteger _ => TInteger | VFloat _ => TFloat | VBool _ => TBool
  | VText _ => TText | VJson _ => TJson | VBytes _ => TBytes | VVector _ => TVector
  end.

Definition content_hash_full (key : string) (data : bytes) : arr 32 :=
  sha256 (as_bytes key ++ as_bytes "|" ++ data).
Definition content_hash_u64 (key : string) (data : bytes) : N :=
  of_le_bytes (take 8 (arr_bytes (content_hash_full key data))).

Definition vector_to_bytes (dims : list N) : bytes := dims ≫= le_bytes 8.

(** [chunks_exact(8)]. *)
Fixpoint chunks8 (fuel : nat) (data : bytes) : list N :=
  match fuel with
  | O => []
  | S fuel' =>
      if length data <? 8 then []
      else of_le_bytes (take 8 data) :: chunks8 fuel' (drop 8 data)
  end.

Inductive DecodeError :=
| MissingBlob (t : TypeTag)
| InvalidUtf8
| InvalidJson
| VectorLength (len : nat).

Definition bytes_to_vector (data : bytes) : result DecodeError (list N) :=
  if negb (length data mod 8 =? 0) then Err (VectorLength (length data))
  else Ok (chunks8 (length data) data).

Definition encode (v : TypedValue) (key : string) : N * option bytes :=
  match v with
  | VNull => (NULL_SENTINEL, None)
  | VInteger v => (i64_to_u64 v, None)
  | VFloat bits => (bits, None)
  | VBool b => (if b then 1%N else 0%N, None)
  | VText s => let blob := as_bytes s in (content_hash_u64 key blob, Some blob)
  | VJson v => let blob := json_to_vec v in (content_hash_u64 key blob, Some blob)
  | VBytes b => (content_hash_u64 key b, Some b)
  | VVector dims => let blob := vector_to_bytes dims in (content_hash_u64 key blob, Some blob)
  end.

Definition decode (t : TypeTag) (cell : N) (blob : option bytes) : result DecodeError TypedValue :=
  match t with
  | TNull => Ok VNull
  | TInteger => Ok (VInteger (u64_to_i64 cell))
  | TFloat => Ok (VFloat cell)
  | TBool => Ok (VBool (negb (cell =? 0)%N))
  | TText =>
      data ← ok_or blob (MissingBlob TText);
      if utf8_valid data then Ok (VText (of_bytes data)) else Err InvalidUtf8
  | TJson =>
      data ← ok_or blob (MissingBlob TJson);
      match json_from_slice data with Some v => Ok (VJson v) | None => Err InvalidJson end
  | TBytes => data ← ok_or blob (MissingBlob TBytes); Ok (VBytes data)
  | TVector => data ← ok_or blob (MissingBlob TVector); VVector <$> bytes_to_vector data
  end.

(** Values a Rust [TypedValue] can hold, and JSON values that [serde_json] prints and
    parses back. *)
Definition value_wf (v : TypedValue) : Prop :=
  match v with
  | VInteger v => is_i64 v
  | VFloat bits => is_u64 bits
  | VText s => utf8_valid (as_bytes s) = true
  | VJson v => json_from_slice (json_to_vec v) = Some v
  | VVector dims => Forall is_u64 dims
  | _ => True
  end.

(** ** Type map *)

Record TypeMap := mk_TypeMap { types : gmap string TypeTag }.

Definition tm_new : TypeMap := mk_TypeMap ∅.
Definition tm_set (m : TypeMap) (key : string) (t : TypeTag) : TypeMap :=
  mk_TypeMap (<[key := t]> (types m)).
Definition tm_get (m : TypeMap) (key : string) : TypeTag := default TInteger (types m !! key).
Definition tm_get_opt (m : TypeMap) (key : string) : option TypeTag := types m !! key.
Definition tm_remove (m : TypeMap) (key : string) : TypeMap := mk_TypeMap (delete key (types m)).
Definition tm_len (m : TypeMap) : nat := size (types m).
Definition tm_is_empty (m : TypeMap) : bool := bool_decide (types m = ∅).
Definition tm_iter (m : TypeMap) : list (string * TypeTag) := entries (types m).

(** ** Lemmas *)

Lemma length_vector_to_bytes dims : length (vector_to_bytes dims) = 8 * length dims.
Proof.
  induction dims as [|d dims IH]; [done|].
  change (vector_to_bytes (d :: dims)) with (le_bytes 8 d ++ vector_to_bytes dims).
  rewrite length_app, length_le_bytes, IH. simpl. lia.
Qed.

Lemma chunks8_vector dims fuel :
  Forall is_u64 dims → length dims ≤ fuel → chunks8 fuel (vector_to_bytes dims) = dims.
Proof.
  intros Hd. revert fuel. induction Hd as [|d dims Hd Hds IH]; intros fuel Hf.
  - by destruct fuel.
  - destruct fuel as [|fuel]; [simpl in Hf; lia|]. cbn [chunks8].
    change (vector_to_bytes (d :: dims)) with (le_bytes 8 d ++ vector_to_bytes dims).
    rewrite length_app, length_le_bytes.
    destruct (Nat.ltb_spec (8 + length (vector_to_bytes dims)) 8); [lia|].
    rewrite take_app_length', drop_app_length' by by rewrite length_le_bytes.
    rewrite IH by (simpl in Hf; lia). f_equal. apply of_le_bytes_le_bytes.
    unfold is_u64, u64_max in Hd. simpl. lia.
Qed.

Lemma bytes_to_vector_roundtrip dims :
  Forall is_u64 dims → bytes_to_vector (vector_to_bytes dims) = Ok dims.
Proof.
  intros Hd. unfold bytes_to_vector. rewrite length_vector_to_bytes.
  replace ((8 * length dims) `mod` 8) with 0 by (by rewrite Nat.mul_comm, Nat.Div0.mod_mul).
  simpl. by rewrite chunks8_vector by (done || lia).
Qed.

Lemma decode_encode v key :
  value_wf v → decode (tag v) (encode v key).1 (encode v key).2 = Ok v.
Proof.
  destruct v as [|z|b|b|s|j|bs|dims]; simpl; intros Hwf.
  - done.
  - by rewrite u64_i64_roundtrip.
  - done.
  - by destruct b.
  - by rewrite Hwf, of_as_bytes.
  - by rewrite Hwf.
  - done.
  - by rewrite bytes_to_vector_roundtrip.
Qed.

Lemma encode_blob v key : is_Some (encode v key).2 ↔ is_blob (tag v) = true.
Proof. destruct v; simpl; split; try done; by eexists. Qed.

Lemma encode_is_u64 v key : value_wf v → is_u64 (encode v key).1.
Proof.
  assert (∀ k d, is_u64 (content_hash_u64 k d)) as Hh.
  { intros k d. unfold content_hash_u64, is_u64, u64_max.
    pose proof (of_le_bytes_bound (take 8 (arr_bytes (content_hash_full k d)))) as Hb.
    rewrite length_take, arr_length in Hb. simpl in Hb. lia. }
  destruct v as [|z|b|b|s|j|bs|dims]; simpl; intros Hwf; auto using i64_to_u64_is_u64.
  - unfold is_u64, NULL_SENTINEL. lia.
  - unfold is_u64, u64_max. destruct b; lia.
Qed.

(** Encoding and decoding are inverse: every well-formed typed value
    is recovered from its tag, its 64-bit cell and its blob; the cell fits 64 bits, and
    a blob is produced for exactly the blob types. *)
Theorem typed_value_roundtrip v key :
  value_wf v →
  decode (tag v) (encode v key).1 (encode v key).2 = Ok v ∧
  is_u64 (encode v key).1 ∧ (is_Some (encode v key).2 ↔ is_blob (tag v) = true).
Proof.
  intros Hwf. split; [by apply decode_encode|]. split; [by apply encode_is_u64|].
  apply encode_blob.
Qed.
End typed_value.

(** A stand-in JSON library for witnesses: values are their own text. *)
Definition raw_json : SerdeJson :=
  {| JsonValue := bytes; json_to_vec := λ b, b; json_from_slice := λ b, Some b |}.

Lemma typed_value_roundtrip_witness :
  let sha := prefix_sha in let json := raw_json in
  let v := VVector [1; 18446744073709551615]%N in
  decode (tag v) (encode v "k").1 (encode v "k").2 = Ok v ∧
  is_u64 (encode v "k").1 ∧ (is_Some (encode v "k").2 ↔ is_blob (tag v) = true).
Proof.
  apply (typed_value_roundtrip (H:=prefix_sha) (H0:=raw_json)). simpl.
  repeat constructor; by vm_compute.
Defined.
