(* ===== verification/VectorIndex.v ===== *)
(** * The vector index: [src/src/vector_index.rs]

    Exact nearest-neighbour search over stored vectors on the shared bounded store
    of [Evictor].  A component is kept as its 64-bit pattern and read as [f64] by the
    distance functions. *)
From S2P Require Export BlobStore.

Inductive DistanceMetric := Cosine | L2 | InnerProduct.
#[export] Instance DistanceMetric_eq_dec : EqDecision DistanceMetric.
Proof. solve_decision. Defined.

Definition metric_from_str_tag (s : string) : option DistanceMetric :=
  let t := to_ascii_lowercase s in
  if bool_decide (t = "cosine") then Some Cosine
  else if bool_decide (t = "l2") || bool_decide (t = "euclidean") then Some L2
  else if bool_decide (t = "ip") || bool_decide (t = "inner_product")
          || bool_decide (t = "dot") then Some InnerProduct
  else None.

Record SearchResult := { sr_key : string; sr_distance : f64 }.

Inductive VectorError :=
| NoDimensions
| DimensionMismatch (expected got : nat)
| QueryDimensionMismatch (expected got : nat)
| RangePanic
| CosineDimensionMismatch (a b : nat)
| ZeroNorm.
#[export] Instance VectorError_eq_dec : EqDecision VectorError.
Proof. solve_decision. Defined.

(** ** Distances *)

Definition zip_map (f : f64 → f64 → f64) (a b : list N) : list f64 :=
  zip_with (λ x y, f (f64_from_bits x) (f64_from_bits y)) a b.
Definition inner_product (a b : list N) : f64 := fsum (zip_map fmul a b).
Definition l2_distance (a b : list N) : f64 :=
  fsqrt (fsum (zip_map (λ x y, fmul (fsub x y) (fsub x y)) a b)).
Definition norm (a : list N) : f64 :=
  fsqrt (fsum (map (λ x, fmul (f64_from_bits x) (f64_from_bits x)) a)).

Definition cosine_distance_checked (a b : list N) : result VectorError f64 :=
  if negb (length a =? length b) then Err (CosineDimensionMismatch (length a) (length b))
  else
    let denom := fmul (norm a) (norm b) in
    if feqb denom f64_zero then Err ZeroNorm
    else Ok (fsub f64_one (fdiv (inner_product a b) denom)).
Definition cosine_distance (a b : list N) : f64 :=
  match cosine_distance_checked a b with Ok d => d | Err _ => f64_one end.

Definition compute_distance (a b : list N) (m : DistanceMetric) : f64 :=
  match m with
  | Cosine => cosine_distance a b
  | L2 => l2_distance a b
  | InnerProduct => inner_product a b
  end.

(** ** The prefix range *)

(** [String::pop] on UTF-8 bytes, last first: the remaining bytes (still last first)
    and the code point. *)
Definition pop_char_rev (r : bytes) : option (bytes * N) :=
  let n b := Byte.to_N b in
  let low b := N.land (n b) 63 in
  match r with
  | [] => None
  | b :: r1 =>
      if (n b <? 128)%N then Some (r1, n b)
      else
        match r1 with
        | [] => Some ([], n b)
        | c :: r2 =>
            if (192 <=? n c)%N then Some (r2, N.land (n c) 31 * 64 + low b)%N
            else
              match r2 with
              | [] => Some ([], low b)
              | d :: r3 =>
                  if (192 <=? n d)%N
                  then Some (r3, N.land (n d) 15 * 4096 + low c * 64 + low b)%N
                  else
                    match r3 with
                    | [] => Some ([], low b)
                    | e :: r4 =>
                        Some (r4, N.land (n e) 7 * 262144 + low d * 4096 + low c * 64 + low b)%N
                    end
              end
        end
  end.

(** UTF-8 of [char::from(u8)]. *)
Definition latin1_utf8 (v : N) : bytes :=
  let byte v := default x00 (Byte.of_N v) in
  if (v <? 128)%N then [byte v]
  else [byte (192 + v / 64)%N; byte (128 + v mod 64)%N].

(** The exclusive upper bound: the last character [c] becomes
    [char::from(c as u8 + 1)]. [None] is the empty prefix. *)
Definition range_end (pfx : string) : option string :=
  match pop_char_rev (rev (as_bytes pfx)) with
  | Some (r, c) => Some (of_bytes (rev r ++ latin1_utf8 ((c mod 256 + 1) mod 256)))
  | None => None
  end.

Definition str_leb (a b : string) : bool := bool_decide (String.le a b).

(** [BTreeMap::range(start..end)]: panics when [start > end]. *)
Definition btree_range {A} (m : gmap string A) (start stop : string)
  : result VectorError (list (string * A)) :=
  if negb (str_leb start stop) then Err RangePanic
  else Ok (filter (λ kv, str_leb start kv.1 && negb (str_leb stop kv.1) = true) (entries m)).

(** ** The index *)

Record VectorIndex := mk_VectorIndex {
  vectors : Tracked (list N);
  expected_dims : option nat
}.

Definition default_vector_memory_governor_config : GovernorConfig :=
  memory_governor_config "gov-memory-vector"
    "NucleusDB.Core.Invariants.AetherGovernor.validatorRegime".

Module VI.
Section vi.
Context `{Libm}.
Implicit Types v : VectorIndex.

Definition new (now : N) : VectorIndex :=
  mk_VectorIndex
    (mk_Tracked ∅ Evictor.default_evictor default_ceiling
       (Gov.new default_vector_memory_governor_config) 0 now now) None.

(** [enforce_pressure] of the index: the shared part, then the dimension reset. *)
Definition enforce (t : Tracked (list N)) (dims : option nat) : VectorIndex :=
  let t' := enforce_pressure t in
  mk_VectorIndex t'
    (if negb (bool_decide (contents t = ∅)) && negb (size (contents t) <=? max_entries t)
        && bool_decide (contents t' = ∅)
     then None else dims).

Definition with_vectors v (t : Tracked (list N)) : VectorIndex :=
  mk_VectorIndex t (expected_dims v).

Definition maintenance v (now : N) : VectorIndex :=
  with_vectors v (apply_time_maintenance (vectors v) now).1.

Definition upsert v (now : N) (key : string) (dims : list N)
  : VectorIndex * result VectorError () :=
  let v1 := maintenance v now in
  let insert d :=
    let t := vectors v1 in
    (enforce (mk_Tracked (<[key := dims]> (contents t)) (Evictor.record_access (evictor t) key)
        (max_entries t) (memory_governor t) (last_eviction_count t)
        (last_maintenance_unix t) now) d, Ok tt) in
  match dims with
  | [] => (v1, Err NoDimensions)
  | _ =>
      match expected_dims v1 with
      | Some expected =>
          if negb (length dims =? expected) then (v1, Err (DimensionMismatch expected (length dims)))
          else insert (Some expected)
      | None => insert (Some (length dims))
      end
  end.

Definition remove v (key : string) : VectorIndex :=
  let t := vectors v in
  let t' := with_store t (delete key (contents t)) (Evictor.remove_key (evictor t) key)
              (last_eviction_count t) in
  mk_VectorIndex t' (if bool_decide (contents t' = ∅) then None else expected_dims v).

Definition len v : nat := size (contents (vectors v)).
Definition is_empty v : bool := bool_decide (contents (vectors v) = ∅).
Definition get v (key : string) : option (list N) := contents (vectors v) !! key.
Definition all_keys v : list string := map_keys (contents (vectors v)).

Definition candidates v (prefix : option string) : result VectorError (list (string * list N)) :=
  match prefix with
  | Some pfx =>
      match range_end pfx with
      | Some stop => btree_range (contents (vectors v)) pfx stop
      | None => Ok (entries (contents (vectors v)))
      end
  | None => Ok (entries (contents (vectors v)))
  end.

Definition score_order (m : DistanceMetric) : f64 → f64 → bool :=
  match m with InnerProduct => score_desc | _ => score_asc end.

Definition search_with_prefix v (query : list N) (k : nat) (metric : DistanceMetric)
    (prefix : option string) : result VectorError (list SearchResult) :=
  if is_empty v then Ok []
  else
    _ ← (match expected_dims v with
         | Some expected =>
             throw_if (negb (length query =? expected))
               (QueryDimensionMismatch expected (length query))
         | None => Ok tt
         end);
    cands ← candidates v prefix;
    let scored := map (λ '(key, vec), (key, compute_distance query vec metric)) cands in
    Ok (map (λ '(key, d), {| sr_key := key; sr_distance := d |})
          (take k (sort_score (score_order metric) scored))).
Definition search v query k metric := search_with_prefix v query k metric None.

Definition search_with_access_prefix v (now : N) (query : list N) (k : nat)
    (metric : DistanceMetric) (prefix : option string)
  : VectorIndex * result VectorError (list SearchResult) :=
  let v1 := maintenance v now in
  match search_with_prefix v1 query k metric prefix with
  | Err e => (v1, Err e)
  | Ok results =>
      let t := vectors v1 in
      let ev := foldl (λ ev r, Evictor.record_access ev (sr_key r)) (evictor t) results in
      let last := if bool_decide (map sr_key results = []) then last_activity_unix t else now in
      (enforce (mk_Tracked (contents t) ev (max_entries t) (memory_governor t)
         (last_eviction_count t) (last_maintenance_unix t) last) (expected_dims v1), Ok results)
  end.

Definition set_max_entries v (now : N) (max : nat) : VectorIndex :=
  let t' := tracked_set_max (vectors v) now max in
  mk_VectorIndex t'
    (if negb (bool_decide (contents (vectors v) = ∅)) && bool_decide (contents t' = ∅)
     then None else expected_dims v).

Definition eviction_stats v : BlobStoreStats := tracked_stats (vectors v) 0.
Definition maintenance_tick v (now : N) : VectorIndex * bool :=
  (maintenance v now, (apply_time_maintenance (vectors v) now).2).
Definition soft_reset_governor v : VectorIndex :=
  let t := vectors v in
  with_vectors v
    (mk_Tracked (contents t) (evictor t) (max_entries t) (Gov.reset (memory_governor t))
       (last_eviction_count t) (last_maintenance_unix t) (last_activity_unix t)).

(** ** The dimension invariant *)

Record index_ok v : Prop := {
  io_tracked : tracked_ok (vectors v);
  io_dims : ∀ k d, contents (vectors v) !! k = Some d →
    d ≠ [] ∧ expected_dims v = Some (length d)
}.

Lemma new_ok now : index_ok (new now).
Proof.
  split; [split|].
  - intros k. simpl. by rewrite !lookup_empty.
  - apply default_ceiling_pos.
  - intros k d. simpl. by rewrite lookup_empty.
Qed.

Lemma maintenance_index_ok v now : index_ok v → index_ok (maintenance v now).
Proof.
  intros [Ht Hd]. split; [by apply maintenance_ok|]. intros k d. simpl.
  destruct (maintenance_contents (vectors v) now) as [-> _]. apply Hd.
Qed.

Lemma enforce_ok t dims :
  tracked_ok t → (∀ k d, contents t !! k = Some d → d ≠ [] ∧ dims = Some (length d)) →
  index_ok (enforce t dims).
Proof.
  intros Ht Hd. split; [by apply enforce_pressure_ok|]. intros k d Hk. simpl in *.
  rewrite (bool_decide_eq_false_2 (contents (enforce_pressure t) = ∅)).
  - rewrite andb_false_r. eapply Hd, lookup_weaken; [done|]. apply enforce_pressure_evicts.
  - intros He. by rewrite He, lookup_empty in Hk.
Qed.

Lemma upsert_ok v now key dims : index_ok v → index_ok (upsert v now key dims).1.
Proof.
  intros Hv%(maintenance_index_ok v now). unfold upsert.
  destruct dims as [|d0 ds]; [exact Hv|]. set (dims := d0 :: ds) in *.
  destruct (expected_dims (maintenance v now)) as [n|] eqn:Hn.
  - destruct (Nat.eqb_spec (length dims) n) as [<-|]; [|exact Hv]. cbn [negb fst].
    apply enforce_ok; [apply insert_tracked_ok, Hv|]. simpl. intros k d Hk.
    apply lookup_insert_Some in Hk as [[<- <-]|[_ Hk]]; [done|].
    apply Hv in Hk as [? Hk]. split; [done|]. exact (eq_trans (eq_sym Hn) Hk).
  - apply enforce_ok; [apply insert_tracked_ok, Hv|]. simpl. intros k d Hk.
    apply lookup_insert_Some in Hk as [[<- <-]|[_ Hk]]; [done|].
    apply Hv in Hk as [_ Hk]. pose proof (eq_trans (eq_sym Hn) Hk). done.
Qed.

Lemma remove_ok v key : index_ok v → index_ok (remove v key).
Proof.
  intros [Ht Hd]. split; [by apply tracked_ok_delete|]. intros k d Hk. simpl in *.
  rewrite bool_decide_eq_false_2; [|intros He; by rewrite He, lookup_empty in Hk].
  apply lookup_delete_Some in Hk as [_ Hk]. by apply (Hd k).
Qed.

Lemma upsert_bounded v now key dims :
  index_ok v → (upsert v now key dims).2 = Ok tt →
  len (upsert v now key dims).1 ≤ max_entries (vectors v).
Proof.
  intros Hv%(maintenance_index_ok v now). unfold upsert.
  assert (max_entries (vectors (maintenance v now)) = max_entries (vectors v)) as Hm
    by (simpl; by destruct (maintenance_contents (vectors v) now) as [_ ->]).
  destruct dims as [|d0 ds]; [done|]. set (dims := d0 :: ds) in *.
  assert (∀ od, len (enforce (mk_Tracked (<[key := dims]> (contents (vectors (maintenance v now))))
    (Evictor.record_access (evictor (vectors (maintenance v now))) key)
    (max_entries (vectors (maintenance v now))) (memory_governor (vectors (maintenance v now)))
    (last_eviction_count (vectors (maintenance v now)))
    (last_maintenance_unix (vectors (maintenance v now))) now) od) ≤ max_entries (vectors v)) as Hlen.
  { intros od. unfold len. simpl vectors.
    pose proof (insert_tracked_ok _ now key dims (io_tracked _ Hv)) as Hi.
    destruct (enforce_pressure_size _ Hi) as [Hs _]. by rewrite <-Hm. }
  destruct (expected_dims (maintenance v now)) as [n|]; [|intros _; apply Hlen].
  destruct (negb _); [done|]. intros _. apply Hlen.
Qed.

(** Search is exact k-nearest-neighbour search: on a non-empty index
    and a query of the index's dimension it returns the first [k] entries of all stored
    vectors, scored by the metric and stably sorted (best first), each with its true
    distance; a query of another dimension is an error. *)
Theorem vector_search_exact v query k metric :
  index_ok v → is_empty v = false →
  ∃ n, expected_dims v = Some n ∧
    (length query ≠ n → search v query k metric = Err (QueryDimensionMismatch n (length query))) ∧
    (length query = n →
     ∃ results rest, search v query k metric = Ok results ∧
       length results = k `min` len v ∧
       map (λ r, (sr_key r, sr_distance r)) results ++ rest ≡ₚ
         (λ kd, (kd.1, compute_distance query kd.2 metric)) <$> map_to_list (contents (vectors v)) ∧
       map (λ r, (sr_key r, sr_distance r)) results ++ rest =
         sort_score (score_order metric)
           (map (λ '(key, vec), (key, compute_distance query vec metric))
              (entries (contents (vectors v))))).
Proof.
  intros Hv He. unfold is_empty in He. apply bool_decide_eq_false in He.
  apply map_choose in He as (k0 & d0 & Hk0). destruct (io_dims _ Hv _ _ Hk0) as [_ Hn].
  exists (length d0). split; [done|]. unfold search, search_with_prefix, is_empty.
  rewrite bool_decide_eq_false_2, Hn by (intros E; by rewrite E, lookup_empty in Hk0). split.
  - intros Hne. apply Nat.eqb_neq in Hne. by rewrite Hne.
  - intros ->. rewrite Nat.eqb_refl. simpl.
    set (sorted := sort_score _ _).
    assert (map (λ r, (sr_key r, sr_distance r))
      (map (λ '(key, d), {| sr_key := key; sr_distance := d |}) (take k sorted)) = take k sorted) as Hmap.
    { rewrite map_map. rewrite <-(map_id (take k sorted)) at 2. apply map_ext. by intros []. }
    exists (map (λ '(key, d), {| sr_key := key; sr_distance := d |}) (take k sorted)), (drop k sorted).
    split; [done|]. rewrite Hmap, take_drop. split_and!; [| |done].
    + rewrite length_map, length_take. unfold sorted, len.
      by rewrite sort_score_perm, length_map, length_entries.
    + unfold sorted. rewrite sort_score_perm, entries_perm.
      apply reflexive_eq, map_ext. by intros [].
Qed.

End vi.
End VI.

Definition ex_index : VectorIndex :=
  let M := id_powf in
  (VI.upsert (VI.upsert (VI.new 0) 0 "a" [4607182418800017408; 0]%N).1 0 "b"
     [0; 4611686018427387904]%N).1.

Lemma ex_index_ok : VI.index_ok ex_index.
Proof. apply VI.upsert_ok, VI.upsert_ok, VI.new_ok. Qed.

Lemma vector_search_exact_witness :
  let query := [4607182418800017408; 0]%N in
  ∃ n, expected_dims ex_index = Some n ∧
    (length query ≠ n →
     VI.search ex_index query 1 L2 = Err (QueryDimensionMismatch n (length query))) ∧
    (length query = n →
     ∃ results rest, VI.search ex_index query 1 L2 = Ok results ∧
       length results = 1 `min` VI.len ex_index ∧
       map (λ r, (sr_key r, sr_distance r)) results ++ rest ≡ₚ
         (λ kd, (kd.1, compute_distance query kd.2 L2)) <$>
           map_to_list (contents (vectors ex_index)) ∧
       map (λ r, (sr_key r, sr_distance r)) results ++ rest =
         sort_score (VI.score_order L2)
           (map (λ '(key, vec), (key, compute_distance query vec L2))
              (entries (contents (vectors ex_index))))).
Proof. apply VI.vector_search_exact; [apply ex_index_ok|by vm_compute]. Defined.

(** A prefix whose last character is outside Latin-1 makes the range bounds inverted,
    and the search panics: [char::from(last as u8 + 1)] truncates the code point. *)
Lemma search_prefix_panics :
  VI.search_with_prefix ex_index [4607182418800017408; 0]%N 1 L2
    (Some (of_bytes [xc4; x80])) = Err RangePanic.
Proof. by vm_compute. Qed.
