(* ===== verification/Protocol.v ===== *)
(** * The database protocol: [src/src/protocol.rs]

    [NucleusDb]: construction, commits with witness quorum and transparency log,
    verified queries, typed values.  A method on [&mut self] is an [action]: its state
    is what the Rust object holds when the method returns, with [Err] as well as with
    [Ok].  A failed [expect] is the error [CommitPanic].  The clock is the argument
    [now].  [crate::identity_ledger] is the stub [src/src/identity_ledger.rs]. *)
From S2P Require Export Security Immutable Sheaf TypedValue VectorIndex.

(** [identity_ledger::latest_head_hash] and [latest_completed_genesis_hash]. *)
Definition latest_head_hash : result string (option string) := Ok None.
Definition latest_completed_genesis_hash : result string (option string) := Ok None.

Inductive VcBackend := BkIpa | BkKzg | BkBinaryMerkle.
#[export] Instance VcBackend_eq_dec : EqDecision VcBackend.
Proof. solve_decision. Defined.

Inductive QueryProof :=
| QpIpa (p : IpaProof)
| QpKzg (p : KzgProof)
| QpBinaryMerkle (p : BMProof).
#[export] Instance QueryProof_eq_dec : EqDecision QueryProof.
Proof. solve_decision. Defined.

Record CommitEntry := {
  height : N;
  prev_state_root : NodeHash;
  state_root : NodeHash;
  delta_digest : N;
  cert_digest : N;
  sheaf_coherence_digest : N;
  vc_backend_id : string;
  vc_scheme_id : string;
  vc_domain_separator : string;
  vc_max_degree : N;
  sth : SignedTreeHead;
  witness_signature_algorithm : string;
  witness_sigs : list (string * string);
  identity_ledger_head_hash : option string
}.
#[export] Instance CommitEntry_eq_dec : EqDecision CommitEntry.
Proof. solve_decision. Defined.

Inductive CommitError :=
| SheafIncoherent
| WitnessQuorumFailed
| EmptyWitnessSet
| WitnessSigningFailed (e : WitnessError)
| SecurityPolicyInvalid (e : SecurityPolicyError)
| SecurityRefinementFailed (e : RefinementError)
| MonotoneViolation
| CommitPanic.
#[export] Instance CommitError_eq_dec : EqDecision CommitError.
Proof. solve_decision. Defined.

Definition profile_of (b : VcBackend) : VcProfile :=
  match b with BkIpa => Ipa | BkKzg => Kzg | BkBinaryMerkle => BinaryMerkle end.
Definition backend_id_of (b : VcBackend) : string :=
  match b with BkIpa => "ipa" | BkKzg => "kzg" | BkBinaryMerkle => "binary_merkle" end.

Section protocol.
Context `{Sha2, Ristretto, KzgLib, SigLib, SerdeJson, Libm}.

Record NucleusDb := mk_NucleusDb {
  backend : VcBackend;
  state : State;
  keymap : KeyMap;
  db_entries : list CommitEntry;
  witness_cfg : WitnessConfig;
  security_params : ParameterSet;
  reduction_contracts : list ReductionContract;
  kzg_trusted_setup : option TrustedSetupArtifact;
  ct_leaves : list NodeHash;
  current_sth : option SignedTreeHead;
  write_mode : WriteMode;
  monotone_seals : list NodeHash;
  type_map : TypeMap;
  blob_store : BlobStore;
  vector_index : VectorIndex
}.

(** ** Construction *)

Definition load_kzg_setup_if_required
    (load_artifact : string → result TrustedSetupError TrustedSetupArtifact)
    (b : VcBackend) (params : ParameterSet)
  : result SecurityPolicyError (option TrustedSetupArtifact) :=
  if negb (bool_decide (b = BkKzg)) || negb (require_kzg_trusted_setup params) then mret None
  else
    id ← ok_or (kzg_trusted_setup_id params) (ParameterErr MissingKzgTrustedSetup);
    path ← ok_or (kzg_trusted_setup_path params) (ParameterErr MissingKzgTrustedSetupPath);
    att ← ok_or (kzg_trusted_setup_attestation_sha512 params)
            (ParameterErr MissingKzgTrustedSetupAttestation);
    setup ← map_err KzgTrustedSetupErr
              (load_and_validate_trusted_setup load_artifact path id att);
    _ ← throw_if (setup_max_degree setup <? max_vector_len params)%N
          (KzgSetupDegreeInsufficient (setup_id setup) (setup_max_degree setup)
             (max_vector_len params));
    mret (Some setup).

Definition with_security
    (load_artifact : string → result TrustedSetupError TrustedSetupArtifact) (now : N)
    (initial : State) (b : VcBackend) (cfg : WitnessConfig) (params : ParameterSet)
    (contracts : list ReductionContract) : result SecurityPolicyError NucleusDb :=
  _ ← map_err ParameterErr (validate_parameters params (profile_of b) cfg);
  _ ← validate_reduction_contracts contracts;
  setup ← load_kzg_setup_if_required load_artifact b params;
  mret {| backend := b; state := initial; keymap := KM.new; db_entries := [];
          witness_cfg := cfg; security_params := params; reduction_contracts := contracts;
          kzg_trusted_setup := setup; ct_leaves := []; current_sth := None;
          write_mode := Normal; monotone_seals := [];
          type_map := tm_new; blob_store := Blob.new now; vector_index := VI.new now |}.

(** [NucleusDb::new]; [Err] is the panic of its [expect]. *)
Definition db_new (load_artifact : string → result TrustedSetupError TrustedSetupArtifact)
    (now : N) (initial : State) (b : VcBackend) (cfg : WitnessConfig)
  : result SecurityPolicyError NucleusDb :=
  let d := default_parameter_set in
  let params := {|
    field_bits := field_bits d; max_vector_len := max_vector_len d;
    max_delta_writes := max_delta_writes d; max_witnesses := max_witnesses d;
    min_witness_threshold := min_witness_threshold d;
    max_witness_threshold := max_witness_threshold d;
    require_kzg_trusted_setup := require_kzg_trusted_setup d;
    kzg_trusted_setup_id := kzg_trusted_setup_id d;
    kzg_trusted_setup_path := kzg_trusted_setup_path d;
    kzg_trusted_setup_attestation_sha512 := kzg_trusted_setup_attestation_sha512 d;
    commitment_policy := default_commitment_policy (profile_of b) (max_vector_len d) |} in
  with_security load_artifact now initial b cfg params (default_reduction_contracts (profile_of b)).

(** ** Field updates *)

Definition set_ct (db : NucleusDb) (leaves : list NodeHash) (s : option SignedTreeHead) :=
  mk_NucleusDb (backend db) (state db) (keymap db) (db_entries db) (witness_cfg db)
    (security_params db) (reduction_contracts db) (kzg_trusted_setup db) leaves s
    (write_mode db) (monotone_seals db) (type_map db) (blob_store db) (vector_index db).
Definition set_state (db : NucleusDb) (s : State) :=
  mk_NucleusDb (backend db) s (keymap db) (db_entries db) (witness_cfg db)
    (security_params db) (reduction_contracts db) (kzg_trusted_setup db) (ct_leaves db)
    (current_sth db) (write_mode db) (monotone_seals db) (type_map db) (blob_store db)
    (vector_index db).
Definition set_entries (db : NucleusDb) (es : list CommitEntry) :=
  mk_NucleusDb (backend db) (state db) (keymap db) es (witness_cfg db)
    (security_params db) (reduction_contracts db) (kzg_trusted_setup db) (ct_leaves db)
    (current_sth db) (write_mode db) (monotone_seals db) (type_map db) (blob_store db)
    (vector_index db).
Definition set_seals (db : NucleusDb) (seals : list NodeHash) :=
  mk_NucleusDb (backend db) (state db) (keymap db) (db_entries db) (witness_cfg db)
    (security_params db) (reduction_contracts db) (kzg_trusted_setup db) (ct_leaves db)
    (current_sth db) (write_mode db) seals (type_map db) (blob_store db) (vector_index db).
Definition set_mode (db : NucleusDb) (m : WriteMode) :=
  mk_NucleusDb (backend db) (state db) (keymap db) (db_entries db) (witness_cfg db)
    (security_params db) (reduction_contracts db) (kzg_trusted_setup db) (ct_leaves db)
    (current_sth db) m (monotone_seals db) (type_map db) (blob_store db) (vector_index db).
Definition set_typed (db : NucleusDb) (km : KeyMap) (tm : TypeMap) (bs : BlobStore)
    (vi : VectorIndex) :=
  mk_NucleusDb (backend db) (state db) km (db_entries db) (witness_cfg db)
    (security_params db) (reduction_contracts db) (kzg_trusted_setup db) (ct_leaves db)
    (current_sth db) (write_mode db) (monotone_seals db) tm bs vi.

Definition set_append_only (db : NucleusDb) : NucleusDb := set_mode db AppendOnly.

Definition aether_maintenance_tick (db : NucleusDb) (now : N) : NucleusDb * bool :=
  let '(vi, vector_changed) := VI.maintenance_tick (vector_index db) now in
  let '(bs, blob_changed) := Blob.maintenance_tick (blob_store db) now in
  (set_typed db (keymap db) (type_map db) bs vi, vector_changed || blob_changed).
Definition soft_reset_aether_memory (db : NucleusDb) : NucleusDb :=
  set_typed db (keymap db) (type_map db) (Blob.soft_reset_governor (blob_store db))
    (VI.soft_reset_governor (vector_index db)).

(** ** Commits *)

(** [state_root_for]; [None] is the panic of its [expect]. *)
Definition state_root_of (b : VcBackend) (setup : option TrustedSetupArtifact) (vec : list N)
  : option NodeHash :=
  match b with
  | BkIpa => Some (ipa_digest (ipa_commit vec))
  | BkKzg =>
      match setup with
      | Some s => kzg_digest <$> res_ok (commit_trusted vec s)
      | None => Some (kzg_digest (kzg_commit vec))
      end
  | BkBinaryMerkle => Some (bm_digest (bm_commit vec))
  end.
Definition state_root_for (db : NucleusDb) (vec : list N) : option NodeHash :=
  state_root_of (backend db) (kzg_trusted_setup db) vec.

Definition ct_leaf_payload (height : N) (prev_root root : NodeHash)
    (delta_digest cert_digest sheaf_digest : N) : string :=
  "nucleusdb.ct.leaf.v2|height=" +:+ dec height +:+
  "|prev_state_root=" +:+ hex_encode (arr_bytes prev_root) +:+
  "|state_root=" +:+ hex_encode (arr_bytes root) +:+
  "|delta_digest=" +:+ dec delta_digest +:+
  "|cert_digest=" +:+ dec cert_digest +:+
  "|sheaf_coherence_digest=" +:+ dec sheaf_digest.

(** The message the witnesses sign. *)
Definition commit_message (height : N) (prev_root root : NodeHash) (s : SignedTreeHead) : string :=
  dec height +:+ ":" +:+ hex_encode (arr_bytes prev_root) +:+ ":" +:+
  hex_encode (arr_bytes root) +:+ ":" +:+ hex_encode (arr_bytes (root_hash s)) +:+ ":" +:+
  dec (timestamp_unix_secs s).

Fixpoint sign_all (cfg : WitnessConfig) (msg : string) (ws : list string)
  : result CommitError (list (string * string)) :=
  match ws with
  | [] => Ok []
  | w :: ws' =>
      sig ← map_err WitnessSigningFailed (sign_message cfg w msg);
      sigs ← sign_all cfg msg ws';
      mret ((w, sig) :: sigs)
  end.

(** Everything [commit] computes before it first writes to the database. *)
Record CommitPlan := {
  cp_next : State;
  cp_sheaf_digest : N;
  cp_state_root : NodeHash;
  cp_prev_root : NodeHash
}.

Definition plan_commit (db : NucleusDb) (delta : Delta) (local_views : list LocalSection)
  : result CommitError CommitPlan :=
  _ ← map_err (λ e, SecurityPolicyInvalid (ParameterErr e))
        (validate_parameters (security_params db) (profile_of (backend db)) (witness_cfg db));
  _ ← map_err SecurityPolicyInvalid (validate_reduction_contracts (reduction_contracts db));
  _ ← throw_if (bool_decide (witnesses (witness_cfg db) = [])) EmptyWitnessSet;
  let next := Store.apply (state db) delta in
  _ ← map_err SecurityRefinementFailed
        (validate_commit_shape (security_params db) (N.of_nat (length (writes delta)))
           (N.of_nat (length (values next))));
  _ ← throw_if (bool_decide (write_mode db = AppendOnly) &&
                negb (verify_monotone_extension (state db) (keymap db) next (keymap db)))
        MonotoneViolation;
  let sheaf_pf := build_sheaf_coherence local_views in
  _ ← throw_if (negb (verify_sheaf_coherence next sheaf_pf)) SheafIncoherent;
  root ← ok_or (state_root_for db (materialize next)) CommitPanic;
  prev ← (match last (db_entries db) with
          | Some e => Ok (state_root e)
          | None => ok_or (state_root_for db (materialize (state db))) CommitPanic
          end);
  mret {| cp_next := next; cp_sheaf_digest := sheaf_digest sheaf_pf;
          cp_state_root := root; cp_prev_root := prev |}.

(** The seal appended in append-only mode. *)
Definition push_seal (db : NucleusDb) : NucleusDb :=
  match write_mode db with
  | Normal => db
  | AppendOnly =>
      let kv := key_value_digest (state db) (keymap db) in
      let prev :=
        match last (monotone_seals db) with
        | Some s => s
        | None =>
            match latest_completed_genesis_hash with
            | Ok (Some anchor) => genesis_seal_with_anchor anchor
            | _ => genesis_seal
            end
        end in
      set_seals db (monotone_seals db ++ [next_seal prev kv])
  end.

Definition make_entry (db : NucleusDb) (h : N) (p : CommitPlan) (dd cd : N)
    (s : SignedTreeHead) (alg : string) (sigs : list (string * string)) : CommitEntry := {|
  height := h;
  prev_state_root := cp_prev_root p;
  state_root := cp_state_root p;
  delta_digest := dd;
  cert_digest := cd;
  sheaf_coherence_digest := cp_sheaf_digest p;
  vc_backend_id := backend_id_of (backend db);
  vc_scheme_id := cpol_scheme_id (commitment_policy (security_params db));
  vc_domain_separator := cpol_domain_separator (commitment_policy (security_params db));
  vc_max_degree := cpol_max_degree (commitment_policy (security_params db));
  sth := s;
  witness_signature_algorithm := alg;
  witness_sigs := sigs;
  identity_ledger_head_hash := mjoin (res_ok latest_head_hash)
|}.

Definition commit (delta : Delta) (local_views : list LocalSection) (now : N)
  : action NucleusDb CommitError CommitEntry :=
  db ← get_state;
  p ← lift_res (plan_commit db delta local_views);
  let h := (N.of_nat (length (db_entries db)) + 1)%N in
  let dd := wrapping_mul64 (N.of_nat (length (writes delta))) 13 in
  let cd := wrapping_mul64 h 31 in
  let payload := ct_leaf_payload h (cp_prev_root p) (cp_state_root p) dd cd (cp_sheaf_digest p) in
  let leaves := ct_leaves db ++ [leaf_hash (as_bytes payload)] in
  let s := make_sth leaves now in
  _ ← modify (λ db, set_ct db leaves (Some s));
  let msg := commit_message h (cp_prev_root p) (cp_state_root p) s in
  let cfg := witness_cfg db in
  sigs ← lift_res (sign_all cfg msg (take (threshold cfg) (witnesses cfg)));
  _ ← lift_res (throw_if (negb (verify_quorum_for_algorithm cfg (signing_algorithm cfg) msg sigs))
                  WitnessQuorumFailed);
  _ ← modify (λ db, set_state db (cp_next p));
  let entry := make_entry db h p dd cd s (as_tag (signing_algorithm cfg)) sigs in
  _ ← lift_res (map_err SecurityRefinementFailed
        (verify_post_commit_refinement h (cp_prev_root p) (height entry) (prev_state_root entry)
           (tree_size (sth entry)) (root_hash (sth entry)) (timestamp_unix_secs (sth entry))
           (sig (sth entry))));
  _ ← modify (λ db, push_seal (set_entries db (db_entries db ++ [entry])));
  mret entry.

(** ** Queries *)

Definition query (db : NucleusDb) (idx : nat) : result CommitError (option (N * QueryProof * NodeHash)) :=
  let vec := materialize (state db) in
  match vec !! idx with
  | None => Ok None
  | Some value =>
      root ← ok_or (state_root_for db vec) CommitPanic;
      proof ← (match backend db with
               | BkIpa => Ok (QpIpa (ipa_open vec idx))
               | BkKzg =>
                   match kzg_trusted_setup db with
                   | Some setup =>
                       QpKzg <$> ok_or (res_ok (open_trusted vec idx setup)) CommitPanic
                   | None => Ok (QpKzg (kzg_open vec idx))
                   end
               | BkBinaryMerkle => Ok (QpBinaryMerkle (bm_open vec idx))
               end);
      mret (Some (value, proof, root))
  end.

(** [None] is the panic of [state_root_for]. *)
Definition verify_query (db : NucleusDb) (idx : nat) (value : N) (proof : QueryProof)
    (root : NodeHash) : option bool :=
  let vec := materialize (state db) in
  expected_root ← state_root_for db vec;
  if negb (bool_decide (expected_root = root)) then Some false
  else
    match backend db, proof with
    | BkIpa, QpIpa p =>
        let c := ipa_commit vec in
        Some (bool_decide (ipa_digest c = root) && ipa_verify c idx value p)
    | BkKzg, QpKzg p =>
        match kzg_trusted_setup db with
        | Some setup =>
            match commit_trusted vec setup with
            | Err _ => Some false
            | Ok c =>
                if negb (bool_decide (kzg_digest c = root)) then Some false
                else Some (default false (res_ok (verify_trusted c idx value p setup)))
            end
        | None =>
            let c := kzg_commit vec in
            if negb (bool_decide (kzg_digest c = root)) then Some false
            else Some (kzg_verify c idx value p)
        end
    | BkBinaryMerkle, QpBinaryMerkle p =>
        let c := bm_commit vec in
        Some (bool_decide (bm_digest c = root) && bm_verify c idx value p)
    | _, _ => Some false
    end.

Definition consistency_from (db : NucleusDb) (old_size : N)
  : option (SignedTreeHead * ConsistencyProof) :=
  new_sth ← current_sth db;
  proof ← make_consistency_proof (ct_leaves db) (N.to_nat old_size);
  Some (new_sth, proof).

Definition verify_head_extension (old new : SignedTreeHead) (proof : ConsistencyProof) : bool :=
  verify_consistency_proof proof (root_hash old) (root_hash new).

(** ** Typed values *)

Definition put_typed (key : string) (value : TypedValue) (now : N)
  : action NucleusDb VectorError (nat * N) :=
  let t := tag value in
  let '(cell, blob) := TypedValue.encode value key in
  _ ← (match value with
       | VVector dims => λ db,
           let '(vi, r) := VI.upsert (vector_index db) now key dims in
           (set_typed db (keymap db) (type_map db) (blob_store db) vi, r)
       | _ => modify (λ db, set_typed db (keymap db) (type_map db) (blob_store db)
                              (VI.remove (vector_index db) key))
       end);
  _ ← modify (λ db,
        set_typed db (keymap db) (type_map db)
          (match blob with
           | Some data => Blob.put (blob_store db) now key data
           | None => (Blob.remove (blob_store db) key).1
           end) (vector_index db));
  db ← get_state;
  let '(km, idx) := KM.get_or_create (keymap db) key in
  _ ← modify (λ db, set_typed db km (tm_set (type_map db) key t) (blob_store db) (vector_index db));
  mret (idx, cell).

Definition get_typed (db : NucleusDb) (key : string) : option TypedValue :=
  idx ← KM.get (keymap db) key;
  res_ok (TypedValue.decode (tm_get (type_map db) key) (value_at (state db) idx)
            (Blob.get (blob_store db) key)).

Definition get_typed_touching (db : NucleusDb) (key : string) (now : N)
  : NucleusDb * option TypedValue :=
  match KM.get (keymap db) key with
  | None => (db, None)
  | Some idx =>
      let '(bs, blob) := Blob.get_with_access (blob_store db) now key in
      (set_typed db (keymap db) (type_map db) bs (vector_index db),
       res_ok (TypedValue.decode (tm_get (type_map db) key) (value_at (state db) idx) blob))
  end.
End protocol.
