(* ===== verification/Did.v ===== *)
(** * Decentralised identifiers: [src/src/halo/did.rs], the hex helpers of
    [src/src/halo/util.rs] and the key derivations of [src/src/halo/genesis_seed.rs]

    The ed25519, ML-DSA, X25519, ML-KEM, HKDF and multibase crates are class parameters;
    the documents, the choice of keys in them and the dual signature are modelled. *)
From S2P Require Export Witness.

Class DidLib `{SigLib} := {
  (** [VerifyingKey::to_bytes] and [from_bytes]; [None] is an [Err]. *)
  ed_vk_to_bytes : Ed25519VerifyingKey → arr 32;
  ed_vk_from_bytes : arr 32 → option Ed25519VerifyingKey;
  (** [encode] and [EncodedVerifyingKey::try_from] followed by [decode]. *)
  ml_vk_encode : MlDsaVerifyingKey → bytes;
  ml_vk_decode : bytes → option MlDsaVerifyingKey;
  (** [multibase::encode(Base58Btc, _)] and [multibase::decode]. *)
  multibase_encode : bytes → string;
  multibase_decode : string → option bytes;
  (** [Hkdf::<Sha256>::new(salt, seed).expand(info)]; [None] is an [Err]. *)
  hkdf_expand : nat → bytes → arr 64 → bytes → option bytes;
  X25519Secret : Type;
  x25519_from : arr 32 → X25519Secret;
  x25519_public : X25519Secret → arr 32;
  MlKemKey : Type;
  (** [MlKem768::generate] on the ChaCha20 stream of a seed. *)
  mlkem_generate : arr 32 → MlKemKey;
  mlkem_public : MlKemKey → bytes
}.

(** The documented round trips of the encodings. *)
Class DidLib_Laws `(L : DidLib) : Prop := {
  ed_vk_roundtrip k : ed_vk_from_bytes (ed_vk_to_bytes k) = Some k;
  ml_vk_roundtrip k : ml_vk_decode (ml_vk_encode k) = Some k;
  multibase_roundtrip b : multibase_decode (multibase_encode b) = Some b
}.

Definition HKDF_IDENTITY_SALT : bytes := as_bytes "agenthalo-genesis-identity-v1".
Definition HKDF_DID_PQ_SIGNING_INFO : bytes := as_bytes "agenthalo-did-pq-signing-v1".
Definition DID_CONTEXT : bytes := as_bytes "agenthalo-did-v1".
Definition MULTICODEC_ED25519_PUB : bytes := [xed; x01].
Definition MULTICODEC_X25519_PUB : bytes := [xec; x01].
Definition TYPE_ED25519 : string := "Ed25519VerificationKey2020".
Definition TYPE_MLDSA65 : string := "MlDsa65VerificationKey2025".
Definition TYPE_X25519 : string := "X25519KeyAgreementKey2020".
Definition TYPE_MLKEM768 : string := "MlKem768KeyAgreementKey2025".

Record VerificationMethod := {
  vm_id : string;
  vm_type : string;
  controller : string;
  public_key_multibase : string
}.
(** [KeyAgreementMethod] has the same fields. *)
Definition KeyAgreementMethod : Type := VerificationMethod.
Record DIDDocument := {
  doc_id : string;
  also_known_as : list string;
  verification_method : list VerificationMethod;
  key_agreement : list KeyAgreementMethod;
  authentication : list string;
  assertion_method : list string
}.

(** ** [util.rs] *)

(** [hex_decode]: an optional [0x], then pairs of digits. *)
Definition util_hex_decode (hex : string) : result string bytes :=
  let s := default hex (strip_prefix "0x" hex) in
  if negb (Nat.even (str_len s)) then Err "hex input must have even length"
  else ok_or (hex_decode s) ("invalid hex in " +:+ hex).

Section did.
Context `{DidLib}.

Record DIDIdentity := {
  did : string;
  did_document : DIDDocument;
  ed25519_signing_key : Ed25519SigningKey;
  mldsa65_signing_key : MlDsaSigningKey * MlDsaVerifyingKey;
  x25519_agreement_key : X25519Secret;
  mlkem768_decapsulation_key : MlKemKey
}.

(** ** Keys in documents *)

Definition encode_multibase_key (prefix public_key : bytes) : string :=
  multibase_encode (prefix ++ public_key).
Definition encode_multibase_untyped_key (public_key : bytes) : string :=
  encode_multibase_key [] public_key.

Definition decode_multibase_key (encoded : string) (expected_prefix : bytes) : result string bytes :=
  decoded ← ok_or (multibase_decode encoded) "multibase decode failed for key material";
  _ ← throw_if (length decoded <? length expected_prefix)
        "decoded multibase key is shorter than expected prefix";
  _ ← throw_if (negb (bool_decide (take (length expected_prefix) decoded = expected_prefix)))
        "decoded multibase key has unexpected multicodec prefix";
  mret (drop (length expected_prefix) decoded).
Definition decode_multibase_untyped_key (encoded : string) : result string bytes :=
  ok_or (multibase_decode encoded) "multibase decode failed for untyped key material".

Definition did_from_ed25519_public_key (public_key : arr 32) : string :=
  "did:key:" +:+ encode_multibase_key MULTICODEC_ED25519_PUB (arr_bytes public_key).
Definition did_fragment (d suffix : string) : string := d +:+ "#" +:+ suffix.

Definition build_did_document_from_parts (d : string) (ed_pk : arr 32) (ml_pk : bytes) (x_pk : arr 32)
    (kem_pk : bytes) : DIDDocument :=
  let ed_key_id := did_fragment d "key-ed25519-1" in
  let pq_key_id := did_fragment d "key-mldsa65-1" in
  {| doc_id := d;
     also_known_as := [];
     verification_method :=
       [{| vm_id := ed_key_id; vm_type := TYPE_ED25519; controller := d;
           public_key_multibase := encode_multibase_key MULTICODEC_ED25519_PUB (arr_bytes ed_pk) |};
        {| vm_id := pq_key_id; vm_type := TYPE_MLDSA65; controller := d;
           public_key_multibase := encode_multibase_untyped_key ml_pk |}];
     key_agreement :=
       [{| vm_id := did_fragment d "key-x25519-1"; vm_type := TYPE_X25519; controller := d;
           public_key_multibase := encode_multibase_key MULTICODEC_X25519_PUB (arr_bytes x_pk) |};
        {| vm_id := did_fragment d "key-mlkem768-1"; vm_type := TYPE_MLKEM768; controller := d;
           public_key_multibase := encode_multibase_untyped_key kem_pk |}];
     authentication := [ed_key_id; pq_key_id];
     assertion_method := [ed_key_id; pq_key_id] |}.

(** ** Identities *)

Definition hkdf_identity (n : nat) (seed : arr 64) (info : bytes) : result string bytes :=
  ok_or (hkdf_expand n HKDF_IDENTITY_SALT seed info) ("HKDF expand failed for info " +:+ of_bytes info).
(** The [expect] of these two derivations is the error value here. *)
Definition derive_p2p_identity (seed : arr 64) : result string (arr 32) :=
  to_arr 32 <$> hkdf_identity 32 seed (as_bytes "agenthalo-p2p-identity-v1").
Definition derive_did_agreement_keys (seed : arr 64) : result string (arr 32 * arr 64) :=
  x ← hkdf_identity 32 seed (as_bytes "agenthalo-didcomm-x25519-v1");
  m ← hkdf_identity 64 seed (as_bytes "agenthalo-didcomm-mlkem768-v1");
  mret (to_arr 32 x, to_arr 64 m).

Definition did_uri_from_genesis_seed (seed : arr 64) : result string string :=
  s ← derive_p2p_identity seed;
  mret (did_from_ed25519_public_key (ed_vk_to_bytes (ed_verifying_key (ed_from_bytes s)))).

Definition build_did_document (i : DIDIdentity) : DIDDocument :=
  build_did_document_from_parts (did i)
    (ed_vk_to_bytes (ed_verifying_key (ed25519_signing_key i)))
    (ml_vk_encode (mldsa65_signing_key i).2)
    (x25519_public (x25519_agreement_key i)) (mlkem_public (mlkem768_decapsulation_key i)).

Definition did_from_genesis_seed (seed : arr 64) : result string DIDIdentity :=
  ed_seed ← derive_p2p_identity seed;
  let sk := ed_from_bytes ed_seed in
  let pk := ed_vk_to_bytes (ed_verifying_key sk) in
  ml_seed ← hkdf_identity 32 seed HKDF_DID_PQ_SIGNING_INFO;
  let ml := ml_from_seed (to_arr 32 ml_seed) in
  '(x_seed, kem_seed) ← derive_did_agreement_keys seed;
  let x := x25519_from x_seed in
  let kem := mlkem_generate (to_arr 32 (take 32 (arr_bytes kem_seed))) in
  let d := did_from_ed25519_public_key pk in
  mret {| did := d;
          did_document := build_did_document_from_parts d pk (ml_vk_encode ml.2) (x25519_public x)
                            (mlkem_public kem);
          ed25519_signing_key := sk; mldsa65_signing_key := ml; x25519_agreement_key := x;
          mlkem768_decapsulation_key := kem |}.

(** [to_lowercase] on an ASCII address. *)
Definition bind_evm_address (doc : DIDDocument) (evm_address : string) : DIDDocument * bool :=
  let did_pkh := "did:pkh:eip155:1:" +:+ to_ascii_lowercase evm_address in
  if bool_decide (did_pkh ∈ also_known_as doc) then (doc, false)
  else ({| doc_id := doc_id doc; also_known_as := also_known_as doc ++ [did_pkh];
           verification_method := verification_method doc; key_agreement := key_agreement doc;
           authentication := authentication doc; assertion_method := assertion_method doc |}, true).

(** ** The dual signature *)

Definition dual_sign (i : DIDIdentity) (message : bytes) : result string (bytes * bytes) :=
  let ed := arr_bytes (ed_sign (ed25519_signing_key i) message) in
  pq ← ok_or (ml_sign_deterministic (mldsa65_signing_key i).1 message DID_CONTEXT) "ML-DSA signing failed";
  mret (ed, ml_encode pq).

Definition find_method (doc : DIDDocument) (ty : string) : option VerificationMethod :=
  List.find (λ m, bool_decide (vm_type m = ty)) (verification_method doc).

Definition dual_verify (doc : DIDDocument) (message ed_sig pq_sig : bytes) : result string bool :=
  ed_method ← ok_or (find_method doc TYPE_ED25519) "DID document missing Ed25519 verification method";
  pq_method ← ok_or (find_method doc TYPE_MLDSA65) "DID document missing ML-DSA-65 verification method";
  ed_raw ← decode_multibase_key (public_key_multibase ed_method) MULTICODEC_ED25519_PUB;
  ed_bytes ← ok_or (try_arr 32 ed_raw) "Ed25519 key length must be exactly 32 bytes";
  ed_vk ← ok_or (ed_vk_from_bytes ed_bytes) "invalid Ed25519 key in DID document";
  ed_signature ← ok_or (try_arr 64 ed_sig) "invalid Ed25519 signature bytes";
  let ed_ok := ed_verify ed_vk message ed_signature in
  pq_raw ← decode_multibase_untyped_key (public_key_multibase pq_method);
  pq_vk ← ok_or (ml_vk_decode pq_raw) "invalid ML-DSA verifying key encoding in DID document";
  pq_enc ← ok_or (ml_encoded_try_from pq_sig) "invalid ML-DSA signature encoding";
  pq_signature ← ok_or (ml_decode pq_enc) "invalid ML-DSA signature payload";
  let pq_ok := ml_verify_with_context pq_vk message DID_CONTEXT pq_signature in
  mret (ed_ok && pq_ok).

(** ** Lemmas *)

(** The document of an identity, with whatever id, lists its two verification keys. *)
Record doc_keys_of (i : DIDIdentity) (doc : DIDDocument) : Prop := {
  dk_ed : ∃ m, find_method doc TYPE_ED25519 = Some m ∧
    public_key_multibase m = encode_multibase_key MULTICODEC_ED25519_PUB
      (arr_bytes (ed_vk_to_bytes (ed_verifying_key (ed25519_signing_key i))));
  dk_ml : ∃ m, find_method doc TYPE_MLDSA65 = Some m ∧
    public_key_multibase m = encode_multibase_untyped_key (ml_vk_encode (mldsa65_signing_key i).2);
  dk_pair : ∃ seed, mldsa65_signing_key i = ml_from_seed seed
}.

Lemma decode_encode_key `{!DidLib_Laws _} prefix k :
  decode_multibase_key (encode_multibase_key prefix k) prefix = Ok k.
Proof.
  unfold decode_multibase_key, encode_multibase_key. rewrite multibase_roundtrip. cbn [ok_or mbind result_bind].
  rewrite length_app. replace (length prefix + length k <? length prefix) with false
    by (symmetry; apply Nat.ltb_ge; lia).
  rewrite take_app_length, bool_decide_eq_true_2, drop_app_length by done. done.
Qed.

(** What [dual_sign] signs, [dual_verify] accepts under any document with those keys. *)
Lemma dual_sign_verify `{!SigLib_Laws _, !DidLib_Laws _} i doc message ed pq :
  doc_keys_of i doc → dual_sign i message = Ok (ed, pq) → dual_verify doc message ed pq = Ok true.
Proof.
  intros [(me & He & Ee) (mp & Hp & Ep) [seed Hseed]] Hs. unfold dual_sign in Hs.
  destruct (ml_sign_deterministic _ _ _) as [sig|] eqn:Hsig; [|done]. simpl in Hs.
  unfold mret, result_ret in Hs. injection Hs as <- <-. unfold dual_verify.
  rewrite He, Hp. cbn [ok_or mbind result_bind]. rewrite Ee, decode_encode_key. cbn [ok_or mbind result_bind].
  rewrite !try_arr_bytes. cbn [ok_or mbind result_bind]. rewrite ed_vk_roundtrip. cbn [ok_or mbind result_bind].
  unfold decode_multibase_untyped_key.
  rewrite Ep. unfold encode_multibase_untyped_key, encode_multibase_key. rewrite multibase_roundtrip. simpl app.
  cbn [ok_or mbind result_bind]. rewrite ml_vk_roundtrip. cbn [ok_or mbind result_bind].
  pose proof (ml_encode_decode sig) as Hdec. destruct (ml_encoded_try_from (ml_encode sig)) as [enc|]; [|done].
  cbn [ok_or mbind result_bind option_bind] in *. rewrite Hdec. cbn [ok_or mbind result_bind].
  rewrite ed_correct. rewrite Hseed in *. by rewrite (ml_correct _ _ _ _ Hsig).
Qed.

Lemma built_document_keys i :
  (∃ seed, mldsa65_signing_key i = ml_from_seed seed) → doc_keys_of i (build_did_document i).
Proof. intros Hs. split; [by eexists..|done]. Qed.

Lemma genesis_identity_keys seed i :
  did_from_genesis_seed seed = Ok i →
  did_document i = build_did_document i ∧ doc_keys_of i (did_document i) ∧
  did i = did_from_ed25519_public_key (ed_vk_to_bytes (ed_verifying_key (ed25519_signing_key i))).
Proof.
  unfold did_from_genesis_seed. intros Hi. inv_res. destruct x1 as [x_seed kem_seed]. inv_res.
  split; [done|]. split; [|done]. apply built_document_keys. by eexists.
Qed.

(** An identity made from a genesis seed is named after its Ed25519 key, its
    document lists its keys, and every message it signs is accepted by [dual_verify] under
    that document. *)
Lemma did_sign_verify `{!SigLib_Laws _, !DidLib_Laws _} seed i message ed pq :
  did_from_genesis_seed seed = Ok i → dual_sign i message = Ok (ed, pq) →
  doc_id (did_document i) = did i ∧ did_uri_from_genesis_seed seed = Ok (did i) ∧
  dual_verify (did_document i) message ed pq = Ok true.
Proof.
  intros Hi Hs. destruct (genesis_identity_keys _ _ Hi) as (Hdoc & Hkeys & _).
  split; [by rewrite Hdoc|]. split; [|by eapply dual_sign_verify].
  unfold did_from_genesis_seed in Hi. unfold did_uri_from_genesis_seed. inv_res.
  destruct x1 as [x_seed kem_seed]. inv_res. by rewrite Hi0.
Qed.
End did.
