(* ===== verification/Instances.v ===== *)
(** * Concrete instances of the external libraries, for examples

    Small executable stand-ins for the crates outside the repository.  The
    witnesses of the theorems evaluate the model with them; no theorem depends on
    them. *)
From S2P Require Export Protocol Did.

(** A commutative group stand-in: points are numbers. *)
Definition toy_ristretto : Ristretto := {|
  RistrettoPoint := N; ristretto_zero := 0%N; ristretto_add := N.add;
  ristretto_scale := N.mul;
  ristretto_from_hash := λ h, (1 + of_le_bytes (take 2 (rev (arr_bytes h))))%N;
  ristretto_compress := λ p, to_arr 32 (le_bytes 32 p)
|}.

(** Polynomials are their coefficient lists; the ceremony keeps nothing. *)
Definition toy_kzg : KzgLib := {|
  Fr := Z; Fr_eq_dec := Z.eq_dec; Fr_from := Z.of_N; Fr_neg := Z.opp; Fr_sub := Z.sub;
  Fr_mul := Z.mul; Fr_inverse := λ x, Some x;
  Polynomial := list Z; poly_zero := []; poly_new := λ l, l;
  poly_mul := λ a b, a ++ b; poly_add := λ a b, a ++ b; poly_scale := λ p c, map (Z.mul c) p;
  poly_coeffs := λ p, p;
  G1 := N; serialize_G1 := λ p, le_bytes 8 p; deserialize_G1 := λ b, Some (of_le_bytes b);
  KZGCeremony := nat; kzg_setup := λ d _, d;
  ceremony_commit := λ _ p, N.of_nat (length p); ceremony_open := λ _ _ _, 0%N;
  ceremony_verify := λ _ _ _ _ _, true
|}.

(** A signature is a tag of the key and the message. *)
Definition toy_sig : SigLib := {|
  Ed25519SigningKey := arr 32; Ed25519VerifyingKey := arr 32;
  ed_from_bytes := λ b, b; ed_verifying_key := λ k, k;
  ed_sign := λ k m, to_arr 64 (arr_bytes k ++ m);
  ed_verify := λ k m s, bool_decide (s = to_arr 64 (arr_bytes k ++ m));
  MlDsaSigningKey := arr 32; MlDsaVerifyingKey := arr 32;
  MlDsaSignature := bytes; MlDsaEncodedSignature := bytes;
  ml_from_seed := λ b, (b, b);
  ml_sign_deterministic := λ k m _, Some (arr_bytes k ++ m);
  ml_verify_with_context := λ k m _ s, bool_decide (s = arr_bytes k ++ m);
  ml_encode := λ s, s; ml_encoded_try_from := λ b, Some b; ml_decode := λ b, Some b
|}.

#[export] Instance toy_sig_laws : SigLib_Laws toy_sig.
Proof.
  split; simpl; [by intros; apply bool_decide_eq_true|..|done].
  intros seed m ctx sig [= <-]. by apply bool_decide_eq_true.
Qed.

#[local] Existing Instance toy_sig.
(** Keys are bytes, the key derivation repeats the seed. *)
Definition toy_did : DidLib := {|
  ed_vk_to_bytes := λ k, k; ed_vk_from_bytes := Some; ml_vk_encode := arr_bytes;
  ml_vk_decode := λ b, try_arr 32 b; multibase_encode := of_bytes; multibase_decode := λ s, Some (as_bytes s);
  hkdf_expand := λ n _ seed info, Some (take n (arr_bytes seed));
  X25519Secret := arr 32; x25519_from := λ b, b; x25519_public := λ s, s;
  MlKemKey := arr 32; mlkem_generate := λ b, b; mlkem_public := arr_bytes |}.
Lemma toy_did_laws : DidLib_Laws toy_did.
Proof. split; simpl; intros; [done|apply try_arr_bytes|by rewrite as_of_bytes]. Qed.

(** Ed25519 signing that fails is a configuration without keys. *)
Definition ex_cfg : @WitnessConfig toy_sig :=
  with_seed_and_algorithm (H:=prefix_sha) (H0:=toy_sig) (λ _, None) 2 ["w1"; "w2"; "w3"] "seed"
    MlDsa65.

Definition ex_load (path : string) : result TrustedSetupError TrustedSetupArtifact :=
  Err (SetupIo path).

Definition ex_db : NucleusDb (H2:=toy_sig) :=
  match db_new (H:=prefix_sha) (H2:=toy_sig) ex_load 0 (mk_State [7%N]) BkBinaryMerkle ex_cfg with
  | Ok db => db
  | Err _ =>
      mk_NucleusDb BkIpa (mk_State []) KM.new [] ex_cfg default_parameter_set [] None [] None
        Normal [] tm_new (Blob.new 0) (VI.new 0)
  end.
