(* ===== verification/ProtocolSpec.v ===== *)
(** * Correctness of the protocol

    The invariant of a database built by [with_security] and changed by its methods,
    what a commit does on every branch, and what queries and typed reads return. *)
From S2P Require Export Instances.

Section spec.
Context `{Sha2, Ristretto, KzgLib, SigLib, SerdeJson, Libm}.
Implicit Types db : NucleusDb.

(** ** The commit, in one step *)

(** The values [commit] derives from its plan. *)
Definition next_height db : N := (N.of_nat (length (db_entries db)) + 1)%N.
Definition leaf_of (h : N) (p : CommitPlan) (delta : Delta) : NodeHash :=
  leaf_hash (as_bytes (ct_leaf_payload h (cp_prev_root p) (cp_state_root p)
    (wrapping_mul64 (N.of_nat (length (writes delta))) 13) (wrapping_mul64 h 31)
    (cp_sheaf_digest p))).
Definition sth_of db (p : CommitPlan) (delta : Delta) (now : N) : SignedTreeHead :=
  make_sth (ct_leaves db ++ [leaf_of (next_height db) p delta]) now.
Definition msg_of db (p : CommitPlan) (delta : Delta) (now : N) : string :=
  commit_message (next_height db) (cp_prev_root p) (cp_state_root p) (sth_of db p delta now).
(** The database after the tree head has been written, before the signatures. *)
Definition logged db (p : CommitPlan) (delta : Delta) (now : N) : NucleusDb :=
  set_ct db (ct_leaves db ++ [leaf_of (next_height db) p delta]) (Some (sth_of db p delta now)).
Definition entry_of db (p : CommitPlan) (delta : Delta) (now : N) (sigs : list (string * string))
  : CommitEntry :=
  make_entry db (next_height db) p (wrapping_mul64 (N.of_nat (length (writes delta))) 13)
    (wrapping_mul64 (next_height db) 31) (sth_of db p delta now)
    (as_tag (signing_algorithm (witness_cfg db))) sigs.
Definition signers db : list string :=
  take (threshold (witness_cfg db)) (witnesses (witness_cfg db)).
(** The tree size the log gives the new head. *)
Definition log_size db : N := N.of_nat (length (ct_leaves db) + 1).

Lemma refinement_of_make_sth h prev leaves now :
  verify_post_commit_refinement h prev h prev
    (tree_size (make_sth leaves now)) (root_hash (make_sth leaves now))
    (timestamp_unix_secs (make_sth leaves now)) (sig (make_sth leaves now)) =
  throw_if (negb (N.of_nat (length leaves) =? h)%N) (SthSizeMismatch h (N.of_nat (length leaves))).
Proof.
  unfold verify_post_commit_refinement. rewrite N.eqb_refl, !bool_decide_eq_true_2 by done.
  cbn. by destruct (_ =? _)%N.
Qed.

(** The branches of [commit], in order. *)
Lemma commit_cases db delta views now :
  match plan_commit db delta views with
  | Err e => commit delta views now db = (db, Err e)
  | Ok p =>
      match sign_all (witness_cfg db) (msg_of db p delta now) (signers db) with
      | Err e => commit delta views now db = (logged db p delta now, Err e)
      | Ok sigs =>
          if negb (verify_quorum_for_algorithm (witness_cfg db)
                     (signing_algorithm (witness_cfg db)) (msg_of db p delta now) sigs)
          then commit delta views now db = (logged db p delta now, Err WitnessQuorumFailed)
          else
            let committed := set_state (logged db p delta now) (cp_next p) in
            if negb (log_size db =? next_height db)%N
            then commit delta views now db =
              (committed,
               Err (SecurityRefinementFailed (SthSizeMismatch (next_height db) (log_size db))))
            else commit delta views now db =
              (push_seal (set_entries committed (db_entries db ++ [entry_of db p delta now sigs])),
               Ok (entry_of db p delta now sigs))
      end
  end.
Proof.
  unfold commit, mbind, action_bind, get_state, lift_res, modify, mret, action_ret.
  destruct (plan_commit db delta views) as [p|e]; [|done].
  unfold logged, entry_of, msg_of, sth_of, leaf_of, signers, next_height. cbv beta zeta.
  destruct (sign_all _ _ _) as [sigs|e]; [|done].
  destruct (verify_quorum_for_algorithm _ _ _ _); [|done].
  cbn [height prev_state_root sth make_entry]. rewrite refinement_of_make_sth, length_app.
  unfold log_size. cbn [length]. destruct (N.of_nat _ =? _)%N; done.
Qed.

(** ** The plan *)

Definition contracts_ok (cs : list ReductionContract) : Prop :=
  cs ≠ [] ∧ Forall (λ c, (loss_bits c ≤ 128 ∧ 0 < max_queries c)%N) cs.

(** What must hold for a commit to reach the log. *)
Record plan_spec db (delta : Delta) (views : list LocalSection) (p : CommitPlan) : Prop := {
  ps_params : parameters_valid (security_params db) (profile_of (backend db)) (witness_cfg db);
  ps_contracts : contracts_ok (reduction_contracts db);
  ps_witnesses : witnesses (witness_cfg db) ≠ [];
  ps_next : cp_next p = Store.apply (state db) delta;
  ps_writes : (N.of_nat (length (writes delta)) ≤ max_delta_writes (security_params db))%N;
  ps_len : (N.of_nat (length (values (cp_next p))) ≤ max_vector_len (security_params db))%N;
  ps_monotone : write_mode db = AppendOnly →
    extends (state db) (keymap db) (cp_next p) (keymap db);
  ps_views : ∀ k, ¬ disagree views k;
  ps_sheaf : cp_sheaf_digest p = sheaf_digest (build_sheaf_coherence views);
  ps_root : state_root_for db (values (cp_next p)) = Some (cp_state_root p);
  ps_prev : match last (db_entries db) with
            | Some e => cp_prev_root p = state_root e
            | None => state_root_for db (values (state db)) = Some (cp_prev_root p)
            end
}.

Lemma verify_sheaf_true views g :
  verify_sheaf_coherence g (build_sheaf_coherence views) = true ↔ ∀ k, ¬ disagree views k.
Proof.
  setoid_rewrite <-coherence_scan_conflicts.
  unfold verify_sheaf_coherence, build_sheaf_coherence.
  destruct (coherence_scan views) as [seen confl]. cbn.
  rewrite andb_true_iff, !bool_decide_eq_true. split; [intros [-> _]; set_solver|].
  intros Hn. assert (confl = ∅) as -> by set_solver. done.
Qed.

Lemma monotone_guard_false db next :
  bool_decide (write_mode db = AppendOnly) &&
    negb (verify_monotone_extension (state db) (keymap db) next (keymap db)) = false ↔
  (write_mode db = AppendOnly → extends (state db) (keymap db) next (keymap db)).
Proof.
  rewrite <-verify_monotone_extension_true.
  case_bool_decide; destruct (verify_monotone_extension _ _ _ _); simpl; naive_solver.
Qed.

Lemma plan_commit_ok db delta views p :
  plan_commit db delta views = Ok p ↔ plan_spec db delta views p.
Proof.
  unfold plan_commit. split.
  - intros Hp. inv_res.
    repeat match goal with x : () |- _ => destruct x end.
    rewrite validate_parameters_ok in Hp0. rewrite validate_reduction_contracts_ok in Hp1.
    rewrite validate_commit_shape_ok in Hp3. rewrite monotone_guard_false in Hp4.
    apply negb_false_iff in Hp5. rewrite verify_sheaf_true in Hp5. apply bool_decide_eq_false in Hp2.
    destruct Hp3 as [Hp3 Hlen].
    split; cbn [cp_next cp_sheaf_digest cp_state_root cp_prev_root]; try done.
    match goal with Hl : context [last _] |- _ => revert Hl end.
    destruct (last (db_entries db)); intros; by inv_res.
  - intros [Hpar Hcon Hw Hn Hwr Hl Hm Hv Hs Hr Hpr].
    apply result_bind_ok. exists tt. split; [by apply map_err_ok, validate_parameters_ok|].
    apply result_bind_ok. exists tt. split; [by apply map_err_ok, validate_reduction_contracts_ok|].
    apply result_bind_ok. exists tt. split; [by apply throw_if_ok, bool_decide_eq_false_2|].
    cbv beta zeta. rewrite <-Hn.
    apply result_bind_ok. exists tt. split; [by apply map_err_ok, validate_commit_shape_ok|].
    apply result_bind_ok. exists tt. split; [by apply throw_if_ok, monotone_guard_false|].
    apply result_bind_ok. exists tt.
    split; [by apply throw_if_ok, negb_false_iff, verify_sheaf_true|].
    apply result_bind_ok. exists (cp_state_root p). split; [by apply ok_or_ok|].
    apply result_bind_ok. exists (cp_prev_root p).
    split; [|destruct p; simpl in *; by subst].
    destruct (last (db_entries db)); [by rewrite Hpr|by apply ok_or_ok].
Qed.

(** ** The invariant *)

Definition payload_of (e : CommitEntry) : string :=
  ct_leaf_payload (height e) (prev_state_root e) (state_root e) (delta_digest e) (cert_digest e)
    (sheaf_coherence_digest e).

Record entry_ok (leaves : list NodeHash) (i : nat) (e : CommitEntry) : Prop := {
  eo_height : height e = N.of_nat (i + 1);
  eo_sth : sth e = make_sth (take (i + 1) leaves) (timestamp_unix_secs (sth e));
  eo_leaf : leaves !! i = Some (leaf_hash (as_bytes (payload_of e)))
}.

Record db_inv db : Prop := {
  inv_len : length (ct_leaves db) = length (db_entries db);
  inv_entry : ∀ i e, db_entries db !! i = Some e → entry_ok (ct_leaves db) i e;
  inv_chain : ∀ i e e', db_entries db !! i = Some e → db_entries db !! S i = Some e' →
    prev_state_root e' = state_root e;
  inv_head : current_sth db = sth <$> last (db_entries db);
  inv_root : ∀ e, last (db_entries db) = Some e →
    state_root_for db (values (state db)) = Some (state_root e);
  inv_keymap : keymap_wf (keymap db)
}.

(** What [Ok] promises. *)
Record commit_post db (delta : Delta) (views : list LocalSection) (now : N) db' (e : CommitEntry)
  : Prop := {
  cp_entries : db_entries db' = db_entries db ++ [e];
  cp_state : state db' = Store.apply (state db) delta;
  cp_log : ct_leaves db' = ct_leaves db ++ [leaf_hash (as_bytes (payload_of e))];
  cp_head : current_sth db' = Some (sth e) ∧ timestamp_unix_secs (sth e) = now;
  cp_quorum : verify_quorum_for_algorithm (witness_cfg db) (signing_algorithm (witness_cfg db))
    (commit_message (height e) (prev_state_root e) (state_root e) (sth e)) (witness_sigs e) = true;
  cp_monotone : write_mode db = AppendOnly →
    extends (state db) (keymap db) (state db') (keymap db') ∧
    ∃ prev, (last (monotone_seals db) = Some prev ∨
             monotone_seals db = [] ∧ prev = genesis_seal) ∧
      monotone_seals db' = monotone_seals db ++
        [next_seal prev (key_value_digest (state db') (keymap db'))];
  cp_frame : keymap db' = keymap db ∧ type_map db' = type_map db ∧
    blob_store db' = blob_store db ∧ vector_index db' = vector_index db ∧
    backend db' = backend db ∧ kzg_trusted_setup db' = kzg_trusted_setup db ∧
    write_mode db' = write_mode db ∧ witness_cfg db' = witness_cfg db;
  cp_policy : security_params db' = security_params db ∧
    reduction_contracts db' = reduction_contracts db;
  cp_normal : write_mode db = Normal → monotone_seals db' = monotone_seals db
}.

Lemma push_seal_frame db :
  db_entries (push_seal db) = db_entries db ∧ state (push_seal db) = state db ∧
  ct_leaves (push_seal db) = ct_leaves db ∧ current_sth (push_seal db) = current_sth db ∧
  keymap (push_seal db) = keymap db ∧ type_map (push_seal db) = type_map db ∧
  blob_store (push_seal db) = blob_store db ∧ vector_index (push_seal db) = vector_index db ∧
  backend (push_seal db) = backend db ∧ kzg_trusted_setup (push_seal db) = kzg_trusted_setup db ∧
  write_mode (push_seal db) = write_mode db ∧ witness_cfg (push_seal db) = witness_cfg db.
Proof. unfold push_seal. by destruct (write_mode db) eqn:E. Qed.

Lemma push_seal_policy db :
  security_params (push_seal db) = security_params db ∧
  reduction_contracts (push_seal db) = reduction_contracts db.
Proof. unfold push_seal. by destruct (write_mode db). Qed.
Lemma push_seal_normal db :
  write_mode db = Normal → monotone_seals (push_seal db) = monotone_seals db.
Proof. intros Hm. unfold push_seal. by rewrite Hm. Qed.

Lemma push_seal_append db :
  write_mode db = AppendOnly →
  ∃ prev, (last (monotone_seals db) = Some prev ∨ monotone_seals db = [] ∧ prev = genesis_seal) ∧
    monotone_seals (push_seal db) =
      monotone_seals db ++ [next_seal prev (key_value_digest (state db) (keymap db))].
Proof.
  intros Hm. unfold push_seal. rewrite Hm. simpl.
  destruct (last (monotone_seals db)) as [s|] eqn:Hl; [by exists s; auto|].
  exists genesis_seal. split; [right|done]. split; [|done].
  destruct (monotone_seals db) as [|s l] using rev_ind; [done|].
  by rewrite last_snoc in Hl.
Qed.

Lemma commit_ok_shape db delta views now db' e :
  commit delta views now db = (db', Ok e) →
  ∃ p sigs, plan_spec db delta views p ∧
    verify_quorum_for_algorithm (witness_cfg db) (signing_algorithm (witness_cfg db))
      (msg_of db p delta now) sigs = true ∧
    log_size db = next_height db ∧ e = entry_of db p delta now sigs ∧
    db' = push_seal (set_entries (set_state (logged db p delta now) (cp_next p))
                       (db_entries db ++ [e])).
Proof.
  pose proof (commit_cases db delta views now) as Hc. intros E.
  destruct (plan_commit db delta views) as [p|] eqn:Hp; [|by rewrite E in Hc].
  destruct (sign_all _ _ _) as [sigs|]; [|by rewrite E in Hc].
  destruct (verify_quorum_for_algorithm _ _ _ _) eqn:Hq; simpl in Hc; [|by rewrite E in Hc].
  destruct (N.eqb_spec (log_size db) (next_height db)) as [Hs|]; simpl in Hc; [|by rewrite E in Hc].
  rewrite E in Hc. injection Hc as -> ->. exists p, sigs.
  split; [by apply plan_commit_ok|done].
Qed.

Lemma commit_ok_post db delta views now db' e :
  commit delta views now db = (db', Ok e) → commit_post db delta views now db' e.
Proof.
  intros (p & sigs & Hp & Hq & Hs & He & ->)%commit_ok_shape.
  destruct (push_seal_frame (set_entries (set_state (logged db p delta now) (cp_next p))
    (db_entries db ++ [e]))) as (F1 & F2 & F3 & F4 & F5 & F6 & F7 & F8 & F9 & F10 & F11 & F12).
  split; rewrite ?F1, ?F2, ?F3, ?F4, ?F5, ?F6, ?F7, ?F8, ?F9, ?F10, ?F11, ?F12;
    cbn [db_entries set_entries set_state state logged set_ct ct_leaves current_sth keymap].
  - done.
  - apply Hp.
  - by rewrite He.
  - by rewrite He.
  - by rewrite He.
  - intros Hm. split; [by apply Hp|].
    destruct (push_seal_append (set_entries (set_state (logged db p delta now) (cp_next p))
      (db_entries db ++ [e])) Hm) as (prev & Hprev & ->). by exists prev.
  - done.
  - split; (etransitivity; [apply push_seal_policy|done]).
  - intros Hm. etransitivity; [by apply push_seal_normal|done].
Qed.

(** ** Preservation *)

Lemma db_inv_frame db db' :
  ct_leaves db' = ct_leaves db → db_entries db' = db_entries db →
  current_sth db' = current_sth db → state db' = state db → backend db' = backend db →
  kzg_trusted_setup db' = kzg_trusted_setup db → keymap_wf (keymap db') →
  db_inv db → db_inv db'.
Proof.
  intros E1 E2 E3 E4 E5 E6 Hk [I1 I2 I3 I4 I5 _].
  split; unfold state_root_for; rewrite ?E1, ?E2, ?E3, ?E4, ?E5, ?E6; done.
Qed.

Lemma with_security_inv load now init b cfg params cs db :
  with_security load now init b cfg params cs = Ok db → db_inv db.
Proof.
  unfold with_security. intros Hs. inv_res. split; simpl; try done; try by intros ? ?;
    rewrite ?lookup_nil. apply keymap_new_wf.
Qed.

Lemma entry_ok_weaken leaves l i e : entry_ok leaves i e → entry_ok (leaves ++ [l]) i e.
Proof.
  intros [Hh Hs Hl]. pose proof (lookup_lt_Some _ _ _ Hl) as Hi. split; [done| |].
  - by rewrite take_app_le by lia.
  - by rewrite lookup_app_l.
Qed.

Lemma new_entry_ok db delta views now db' e :
  db_inv db → commit delta views now db = (db', Ok e) →
  entry_ok (ct_leaves db') (length (db_entries db)) e.
Proof.
  intros Hinv Hc. destruct (commit_ok_shape _ _ _ _ _ _ Hc) as (p & sigs & Hp & _ & _ & He & _).
  rewrite (cp_log _ _ _ _ _ _ (commit_ok_post _ _ _ _ _ _ Hc)).
  pose proof (inv_len _ Hinv) as Hlen. split.
  - rewrite He. simpl. unfold next_height. lia.
  - rewrite take_ge by (rewrite length_app; simpl; lia). by rewrite He.
  - rewrite lookup_app_r, Hlen, Nat.sub_diag by lia. done.
Qed.

Lemma commit_ok_inv db delta views now db' e :
  db_inv db → commit delta views now db = (db', Ok e) → db_inv db'.
Proof.
  intros Hinv Hc. pose proof (new_entry_ok _ _ _ _ _ _ Hinv Hc) as Hnew.
  destruct (commit_ok_shape _ _ _ _ _ _ Hc) as (p & sigs & Hp & _ & _ & He & _).
  destruct (commit_ok_post _ _ _ _ _ _ Hc) as [Pe Ps Pl [Ph _] _ _ Pf].
  destruct Pf as (Fk & _ & _ & _ & Fb & Fz & _). split.
  - rewrite Pl, Pe, !length_app, (inv_len _ Hinv). done.
  - intros i e0 Hi. rewrite Pe in Hi. apply lookup_snoc_Some in Hi as [[_ Hi]|[-> <-]]; [|done].
    rewrite Pl. by apply entry_ok_weaken, Hinv.
  - intros i e1 e2 He1 He2. rewrite Pe in He1, He2.
    apply lookup_snoc_Some in He2 as [[Hlt He2]|[Hl <-]].
    + rewrite lookup_app_l in He1 by lia. by eapply (inv_chain _ Hinv).
    + rewrite lookup_app_l in He1 by lia.
      pose proof (ps_prev _ _ _ _ Hp) as Hprev.
      rewrite last_lookup, <-Hl in Hprev. simpl in Hprev. rewrite He1 in Hprev. by rewrite He.
  - by rewrite Pe, last_snoc, Ph.
  - intros e0. rewrite Pe, last_snoc. intros [= <-]. unfold state_root_for.
    rewrite Fb, Fz, Ps, <-(ps_next _ _ _ _ Hp), He. apply (ps_root _ _ _ _ Hp).
  - rewrite Fk. apply Hinv.
Qed.

(** ** Failed commits *)

Lemma sign_all_err cfg msg ws e :
  sign_all cfg msg ws = Err e → ∃ we, e = WitnessSigningFailed we.
Proof.
  induction ws as [|w ws IH]; [done|]. cbn [sign_all].
  destruct (sign_message cfg w msg) as [sig|we]; simpl; [|intros [= <-]; by eexists].
  destruct (sign_all cfg msg ws); simpl; [done|]. intros [= ->]. by apply IH.
Qed.

(** The errors of the planning phase are none of the later ones. *)
Lemma plan_err_kind db delta views e {P Q : Prop} (R : Prop) :
  plan_commit db delta views = Err e → R →
  match e with
  | WitnessSigningFailed _ | WitnessQuorumFailed => P
  | SecurityRefinementFailed (SthSizeMismatch _ _) => Q
  | _ => R
  end.
Proof.
  intros Hp HR.
  assert (match e with
    | WitnessSigningFailed _ | WitnessQuorumFailed
    | SecurityRefinementFailed (SthSizeMismatch _ _) => False | _ => True end) as Hk.
  { unfold plan_commit in Hp.
    repeat (apply result_bind_err in Hp as [Hp|(? & _ & Hp)]);
    repeat match goal with
    | Hp : map_err _ ?r = Err _ |- _ => destruct r eqn:?; simpl in Hp
    | Hp : context [last ?l] |- _ => destruct (last l)
    | Hp : ok_or ?o _ = Err _ |- _ => destruct o; simpl in Hp
    end; try (inv_res; done).
    unfold validate_commit_shape in *.
    match goal with Hv : (_ ≫= _) = Err _ |- _ =>
      apply result_bind_err in Hv as [Hv|(? & _ & Hv)] end; inv_res; done. }
  destruct e as [| | | | |[]| |]; done.
Qed.

Lemma commit_err_state db delta views now db' err :
  commit delta views now db = (db', Err err) →
  match err with
  | WitnessSigningFailed _ | WitnessQuorumFailed =>
      state db' = state db ∧ db_entries db' = db_entries db ∧
      length (ct_leaves db') = length (ct_leaves db) + 1
  | SecurityRefinementFailed (SthSizeMismatch _ _) =>
      state db' = Store.apply (state db) delta ∧ db_entries db' = db_entries db ∧
      length (ct_leaves db') = length (ct_leaves db) + 1
  | _ => db' = db
  end.
Proof.
  pose proof (commit_cases db delta views now) as Hc. intros E.
  assert (∀ p, length (ct_leaves (logged db p delta now)) = length (ct_leaves db) + 1) as Hlog.
  { intros p. simpl. by rewrite length_app. }
  destruct (plan_commit db delta views) as [p|e0] eqn:Hp.
  - destruct (sign_all _ _ _) as [sigs|e1] eqn:Hs.
    + destruct (negb _); [rewrite E in Hc; injection Hc as -> ->; auto|]. cbv zeta in Hc.
      destruct (negb _); rewrite E in Hc; [injection Hc as -> ->|done].
      split; [apply plan_commit_ok in Hp; apply (ps_next _ _ _ _ Hp)|]. split; [done|apply Hlog].
    + rewrite E in Hc. injection Hc as -> ->. apply sign_all_err in Hs as [we ->]. auto.
  - rewrite E in Hc. injection Hc as -> ->. by eapply plan_err_kind.
Qed.

(** In a database in the invariant the log and the entries are in step. *)
Lemma commit_err_size db delta views now db' err :
  db_inv db → commit delta views now db = (db', Err err) →
  ∀ a b, err ≠ SecurityRefinementFailed (SthSizeMismatch a b).
Proof.
  intros Hi Hc a b ->. pose proof (commit_cases db delta views now) as Hcase.
  assert (log_size db = next_height db) as Hsz
    by (unfold log_size, next_height; rewrite (inv_len _ Hi); lia).
  destruct (plan_commit db delta views) as [p|e0] eqn:Hp.
  - destruct (sign_all _ _ _) as [sigs|e1] eqn:Hsg.
    + destruct (negb _); [by rewrite Hc in Hcase|]. cbv zeta in Hcase.
      rewrite Hsz, N.eqb_refl in Hcase. by rewrite Hc in Hcase.
    + apply sign_all_err in Hsg as [we ->]. by rewrite Hc in Hcase.
  - rewrite Hc in Hcase. injection Hcase as _ <-.
    exact (plan_err_kind db delta views _ (P:=True) (Q:=False) True Hp I).
Qed.

Lemma commit_err_keeps db delta views now db' err :
  db_inv db → commit delta views now db = (db', Err err) →
  state db' = state db ∧ db_entries db' = db_entries db.
Proof.
  intros Hi Hc. pose proof (commit_err_state _ _ _ _ _ _ Hc) as Hs.
  pose proof (commit_err_size _ _ _ _ _ _ Hi Hc) as Hn.
  destruct err as [| | | | |[]| |]; subst; try done; try tauto. by destruct (Hn _ _ eq_refl).
Qed.

(** What no commit changes, whatever it returns. *)
Lemma commit_frame delta views now db :
  let db' := (commit delta views now db).1 in
  keymap db' = keymap db ∧ type_map db' = type_map db ∧ blob_store db' = blob_store db ∧
  vector_index db' = vector_index db ∧ write_mode db' = write_mode db.
Proof.
  pose proof (commit_cases db delta views now) as Hc. cbv zeta. destruct (plan_commit _ _ _) as [p|]; [|by rewrite Hc].
  destruct (sign_all _ _ _) as [sigs|]; [|by rewrite Hc]. destruct (negb _); [by rewrite Hc|]. cbv zeta in Hc.
  destruct (negb _); rewrite Hc; [done|].
  unfold push_seal. cbn [fst]. by destruct (write_mode _) eqn:E.
Qed.

Lemma commit_state delta views now db :
  state (commit delta views now db).1 = state db ∨
  state (commit delta views now db).1 = Store.apply (state db) delta.
Proof.
  destruct (commit delta views now db) as [db' [e|e]] eqn:E; simpl.
  - right. apply commit_ok_post in E. apply (cp_state _ _ _ _ _ _ E).
  - apply commit_err_state in E. destruct e as [| | | | |[]| |]; subst; tauto.
Qed.

(** ** Histories *)

(** One call on the database; a commit counts whatever it returns. *)
Inductive Call :=
| CallCommit (delta : Delta) (views : list LocalSection) (now : N)
| CallPut (key : string) (value : TypedValue) (now : N)
| CallTouch (key : string) (now : N)
| CallAppendOnly
| CallTick (now : N)
| CallSoftReset.

Definition call db (c : Call) : NucleusDb :=
  match c with
  | CallCommit delta views now => (commit delta views now db).1
  | CallPut key value now => (put_typed key value now db).1
  | CallTouch key now => (get_typed_touching db key now).1
  | CallAppendOnly => set_append_only db
  | CallTick now => (aether_maintenance_tick db now).1
  | CallSoftReset => soft_reset_aether_memory db
  end.
Definition calls db (cs : list Call) : NucleusDb := foldl call db cs.

(** The calls on the typed layer touch neither the state nor the log. *)
Record log_frame db db' : Prop := {
  lf_ct : ct_leaves db' = ct_leaves db;
  lf_entries : db_entries db' = db_entries db;
  lf_sth : current_sth db' = current_sth db;
  lf_state : state db' = state db;
  lf_backend : backend db' = backend db;
  lf_setup : kzg_trusted_setup db' = kzg_trusted_setup db;
  lf_cfg : witness_cfg db' = witness_cfg db;
  lf_keymap : keymap_wf (keymap db) → keymap_wf (keymap db')
}.

Lemma put_typed_frame key value now db : log_frame db (put_typed key value now db).1.
Proof.
  unfold put_typed. destruct (TypedValue.encode value key) as [cell blob].
  unfold mbind, action_bind, modify, get_state, mret, action_ret. destruct value;
    try (destruct (KM.get_or_create _ _) as [km idx] eqn:Hk; split; try done; simpl in *;
         intros Hwf; pose proof (get_or_create_wf _ key Hwf) as Hg; by rewrite Hk in Hg).
  destruct (VI.upsert _ _ _ _) as [vi [u|er]]; [|by split].
  destruct (KM.get_or_create _ _) as [km idx] eqn:Hk; split; try done; simpl in *.
  intros Hwf. pose proof (get_or_create_wf _ key Hwf) as Hg. by rewrite Hk in Hg.
Qed.

Lemma touch_frame db key now : log_frame db (get_typed_touching db key now).1.
Proof.
  unfold get_typed_touching. destruct (KM.get _ _); [|by split].
  destruct (Blob.get_with_access _ _ _). by split.
Qed.

Lemma tick_frame db now : log_frame db (aether_maintenance_tick db now).1.
Proof.
  unfold aether_maintenance_tick. destruct (VI.maintenance_tick _ _), (Blob.maintenance_tick _ _).
  by split.
Qed.

Lemma log_frame_inv db db' : log_frame db db' → db_inv db → db_inv db'.
Proof. intros [] Hi. eapply db_inv_frame; eauto. by apply lf_keymap0, Hi. Qed.

(** A history in which every commit returns [Ok]. *)
Fixpoint all_commits_ok db (cs : list Call) : Prop :=
  match cs with
  | [] => True
  | c :: cs' =>
      match c with
      | CallCommit delta views now => is_ok (commit delta views now db).2 = true
      | _ => True
      end ∧ all_commits_ok (call db c) cs'
  end.

Lemma call_inv db c :
  db_inv db → all_commits_ok db [c] → db_inv (call db c).
Proof.
  intros Hi [Hok _]. destruct c as [delta views now|key v now|key now| |now|]; simpl in *.
  - destruct (commit delta views now db) as [db' [e|]] eqn:Hc; [|done]. by eapply commit_ok_inv.
  - by eapply log_frame_inv; [apply put_typed_frame|].
  - by eapply log_frame_inv; [apply touch_frame|].
  - apply (db_inv_frame db); try done; apply Hi.
  - by eapply log_frame_inv; [apply tick_frame|].
  - apply (db_inv_frame db); try done; apply Hi.
Qed.

Lemma calls_inv db cs : db_inv db → all_commits_ok db cs → db_inv (calls db cs).
Proof.
  revert db. induction cs as [|c cs IH]; intros db Hi Hok; [done|].
  destruct Hok as [Hc Hok]. apply IH; [by apply call_inv|done].
Qed.

(** ** The log after a signing failure *)

Definition signing_failure (e : CommitError) : bool :=
  match e with WitnessSigningFailed _ | WitnessQuorumFailed => true | _ => false end.

Definition out_of_step db : Prop := length (db_entries db) < length (ct_leaves db).

Lemma commit_out_of_step db delta views now :
  out_of_step db →
  out_of_step (commit delta views now db).1 ∧ is_ok (commit delta views now db).2 = false.
Proof.
  intros Ho. destruct (commit delta views now db) as [db' [e|err]] eqn:Hc; simpl.
  - apply commit_ok_shape in Hc as (p & sigs & _ & _ & Hs & _). unfold out_of_step in Ho.
    unfold log_size, next_height in Hs. lia.
  - split; [|done]. unfold out_of_step in *. apply commit_err_state in Hc.
    destruct err as [| | | | |[]| |]; try (by subst); destruct Hc as (_ & -> & ->); lia.
Qed.

Lemma call_out_of_step db c : out_of_step db → out_of_step (call db c).
Proof.
  unfold out_of_step. intros Ho. destruct c as [delta views now|key v now|key now| |now|]; simpl.
  - by apply (commit_out_of_step db delta views now).
  - destruct (put_typed_frame key v now db) as [-> -> _ _ _ _ _ _]. done.
  - destruct (touch_frame db key now) as [-> -> _ _ _ _ _ _]. done.
  - done.
  - destruct (tick_frame db now) as [-> -> _ _ _ _ _ _]. done.
  - done.
Qed.

Lemma calls_out_of_step db cs : out_of_step db → out_of_step (calls db cs).
Proof.
  revert db. induction cs as [|c cs IH]; intros db Ho; [done|]. by apply IH, call_out_of_step.
Qed.

(** ** Signing by a generated configuration *)

Lemma sign_all_ok cfg msg ws :
  (∀ w, w ∈ ws → is_ok (sign_message cfg w msg) = true) →
  ∃ sigs, sign_all cfg msg ws = Ok sigs ∧
    ∀ w, w ∈ ws → ∃ sig, (w, sig) ∈ sigs ∧ sign_message cfg w msg = Ok sig.
Proof.
  induction ws as [|w ws IH]; intros Hs; [exists []; set_solver|].
  destruct IH as (sigs & Hsigs & Hin); [set_solver|].
  pose proof (Hs w ltac:(set_solver)) as Hw. cbn [sign_all].
  destruct (sign_message cfg w msg) as [sig|] eqn:Hm; [|done]. simpl. rewrite Hsigs. simpl.
  eexists. split; [done|]. intros w' [->|Hw']%elem_of_cons; [exists sig; set_solver|].
  destruct (Hin w' Hw') as (sig' & ? & ?). exists sig'. set_solver.
Qed.

Lemma allowed_signing env t ws seed alg src :
  alg ∈ allowed_algorithms (with_seed_algorithm_source env t ws seed alg src).
Proof. simpl. case_bool_decide; [done|]. set_solver. Qed.

Lemma elem_of_take_in {A} (x : A) n l : x ∈ take n l → x ∈ l.
Proof. intros Hx. rewrite <-(take_drop n l). set_solver. Qed.

Lemma honest_quorum `{!SigLib_Laws _} env t ws seed alg src msg :
  let cfg := with_seed_algorithm_source env t ws seed alg src in
  NoDup ws → t ≤ length ws → (∀ w, w ∈ ws → is_ok (sign_message cfg w msg) = true) →
  ∃ sigs, sign_all cfg msg (take t ws) = Ok sigs ∧
    verify_quorum_for_algorithm cfg alg msg sigs = true.
Proof.
  intros cfg Hnd Ht Hs.
  destruct (sign_all_ok cfg msg (take t ws)) as (sigs & Hsigs & Hin).
  { intros w Hw. by eapply Hs, elem_of_take_in. }
  exists sigs. split; [done|]. apply quorum_spec. split; [apply allowed_signing|].
  exists (list_to_set (take t ws)). split.
  - rewrite <-(take_drop t ws) in Hnd. apply NoDup_app in Hnd as [Hnd _].
    rewrite size_list_to_set by done. simpl. rewrite length_take. lia.
  - intros w Hw%elem_of_list_to_set. destruct (Hin w Hw) as (sig & Hi & Hm). split.
    + by eapply elem_of_take_in.
    + exists sig. split; [done|]. apply sign_then_verify; [|exact Hm].
      by eapply elem_of_take_in.
Qed.

Lemma db_new_inv load now init b cfg db : db_new load now init b cfg = Ok db → db_inv db.
Proof. apply with_security_inv. Qed.

Lemma db_new_cfg load now init b cfg db :
  db_new load now init b cfg = Ok db → witness_cfg db = cfg.
Proof. unfold db_new, with_security. intros Hs. by inv_res. Qed.

(** ** Properties *)

(** Claim C1. A commit that returns [Ok] is correct: it appends exactly the
    returned entry (height, previous root, tree head over the grown log), applies exactly
    the delta, carries a verifying witness quorum on the entry's message, extends the
    state monotonically and adds one seal in append-only mode and none otherwise, leaves
    every other field of the database as it was (parameters and reduction contracts
    included), and re-establishes the database invariant. *)
Theorem commit_ok_correct db delta views now db' e :
  db_inv db → commit delta views now db = (db', Ok e) →
  commit_post db delta views now db' e ∧
  entry_ok (ct_leaves db') (length (db_entries db)) e ∧ db_inv db'.
Proof.
  intros Hi Hc. split; [by apply commit_ok_post|].
  split; [by eapply new_entry_ok|by eapply commit_ok_inv].
Qed.

(** Claim C39. Validation errors are atomic: a commit that fails before the
    signatures (parameters, contracts, shape, monotonicity, coherence) leaves the
    database as it was, and from a database in the invariant no other late error occurs. *)
Theorem commit_error_atomic db delta views now db' err :
  db_inv db → commit delta views now db = (db', Err err) → signing_failure err = false →
  db' = db.
Proof.
  intros Hi Hc He. pose proof (commit_err_state _ _ _ _ _ _ Hc) as Hs.
  pose proof (commit_err_size _ _ _ _ _ _ Hi Hc) as Hn.
  destruct err as [| | | | |[]| |]; try done. by destruct (Hn _ _ eq_refl).
Qed.

(** A signing failure wedges the database: when a commit fails
    because a witness cannot sign or the quorum does not verify, its tree leaf stays in
    the log, and no later commit succeeds, whatever is called in between. *)
Theorem signing_failure_wedges db delta views now db' err :
  db_inv db → commit delta views now db = (db', Err err) → signing_failure err = true →
  state db' = state db ∧ db_entries db' = db_entries db ∧
  ∀ cs delta2 views2 now2, is_ok (commit delta2 views2 now2 (calls db' cs)).2 = false.
Proof.
  intros Hi Hc He. pose proof (commit_err_state _ _ _ _ _ _ Hc) as Hs.
  assert (state db' = state db ∧ db_entries db' = db_entries db ∧
    length (ct_leaves db') = length (ct_leaves db) + 1) as (Hst & Hen & Hlen)
    by (destruct err as [| | | | |[]| |]; done).
  split_and!; [done..|]. intros cs delta2 views2 now2. apply commit_out_of_step, calls_out_of_step.
  unfold out_of_step. rewrite Hen, Hlen, (inv_len _ Hi). lia.
Qed.

(** Claim C4. Commits succeed: in a database in the invariant whose witnesses
    are distinct, have generated keys and can sign, every delta that passes the
    documented checks is committed. *)
Theorem commit_succeeds `{!SigLib_Laws _} db delta views now p env t ws seed alg src :
  db_inv db → plan_spec db delta views p →
  witness_cfg db = with_seed_algorithm_source env t ws seed alg src →
  NoDup ws → (∀ w msg, w ∈ ws → is_ok (sign_message (witness_cfg db) w msg) = true) →
  ∃ db' e, commit delta views now db = (db', Ok e).
Proof.
  intros Hi Hp Hcfg Hnd Hsign. pose proof (commit_cases db delta views now) as Hc.
  rewrite (proj2 (plan_commit_ok _ _ _ _) Hp) in Hc.
  assert (t ≤ length ws) as Ht.
  { pose proof (pv_reachable _ _ _ (ps_params _ _ _ _ Hp)) as Hr.
    unfold n_threshold, n_witnesses in Hr. rewrite Hcfg in Hr. simpl in Hr. lia. }
  rewrite Hcfg in Hsign.
  destruct (honest_quorum env t ws seed alg src (msg_of db p delta now) Hnd Ht) as (sigs & Hs & Hq).
  { intros w Hw. by apply Hsign. }
  unfold signers in Hc. rewrite Hcfg in Hc. simpl threshold in Hc. simpl witnesses in Hc.
  rewrite Hs in Hc. simpl signing_algorithm in Hc. rewrite Hq in Hc. cbv zeta in Hc.
  assert (log_size db = next_height db) as Hsz
    by (unfold log_size, next_height; rewrite (inv_len _ Hi); lia).
  rewrite Hsz, N.eqb_refl in Hc. simpl in Hc. by do 2 eexists.
Qed.

(** Claim C2. The published log is append only: after any history of calls in
    which the commits succeed, every committed entry's tree head extends to the current
    head with the consistency proof the database serves. *)
Theorem log_append_only db cs i e :
  db_inv db → all_commits_ok db cs → db_entries (calls db cs) !! i = Some e →
  ∃ head proof,
    consistency_from (calls db cs) (tree_size (sth e)) = Some (head, proof) ∧
    current_sth (calls db cs) = Some head ∧
    verify_head_extension (sth e) head proof = true.
Proof.
  intros Hi Hok He. pose proof (calls_inv _ _ Hi Hok) as Hinv.
  set (db' := calls db cs) in *. pose proof (lookup_lt_Some _ _ _ He) as Hlt.
  destruct (last (db_entries db')) as [el|] eqn:Hl.
  2: { apply last_None in Hl. rewrite Hl in He. done. }
  pose proof Hl as Hl'. rewrite last_lookup in Hl'.
  destruct (inv_entry _ Hinv _ _ He) as [_ Hsth _].
  destruct (inv_entry _ Hinv _ _ Hl') as [_ Hlast _].
  pose proof (inv_len _ Hinv) as Hlen.
  assert (tree_size (sth e) = N.of_nat (i + 1)) as Hsize.
  { rewrite Hsth. cbn [tree_size make_sth]. rewrite length_take. lia. }
  unfold consistency_from. rewrite (inv_head _ Hinv), Hl, Hsize, Nat2N.id. simpl.
  pose proof (make_consistency_proof_verifies (ct_leaves db') (i + 1)) as Hm.
  destruct (make_consistency_proof (ct_leaves db') (i + 1)) as [proof|]; [|lia].
  destruct Hm as (_ & _ & Hv). exists (sth el), proof. split_and!; [done..|].
  unfold verify_head_extension. rewrite Hsth, Hlast. simpl.
  by rewrite (take_ge (ct_leaves db') (pred (length (db_entries db')) + 1)) by lia.
Qed.

(** The collision in an answer [x] with [proof] for the cells [v]. *)
Definition query_clash (v : list N) (idx : nat) (x : N) (proof : QueryProof) : Prop :=
  match proof with
  | QpBinaryMerkle p => collides sha256 (bm_strings v ++ bm_opening_strings v idx x p)
  | QpIpa p => pedersen_clash (ipa_vector p) v
  | QpKzg _ => False
  end.

(** Claim C5. Queries are verifiable and honest (Merkle and IPA back ends):
    the answer to a query verifies, and a verifying answer for a non-empty state is the
    stored value, unless the answer itself exhibits a collision: for the Merkle back end two of
    the strings hashed for it and for the state have one SHA-256 hash, for IPA the vector of
    the answer is not the state and has its length and Pedersen commitment. *)
Theorem query_verified db idx :
  backend db ≠ BkKzg → values (state db) ≠ [] →
  match query db idx with
  | Ok (Some (v, proof, root)) =>
      values (state db) !! idx = Some v ∧ verify_query db idx v proof root = Some true
  | Ok None => values (state db) !! idx = None
  | Err _ => False
  end ∧
  ∀ x proof root, verify_query db idx x proof root = Some true →
    value_at (state db) idx = x ∨ query_clash (values (state db)) idx x proof.
Proof.
  intros Hb Hne. unfold query_clash, query, verify_query, state_root_for, state_root_of, materialize.
  destruct (backend db); [|done|]; (split;
    [destruct (values (state db) !! idx) as [v|] eqn:Hv; [|done]; simpl; split; [done|];
     rewrite !bool_decide_eq_true_2 by done; simpl|]).
  - f_equal. pose proof (ipa_opening_spec (values (state db)) idx v) as [Hi _].
    assert (get_or 0%N (values (state db)) idx = v) as Ev by (unfold get_or; by rewrite Hv).
    by rewrite Ev in Hi.
  - intros x proof root. simpl. case_bool_decide; [|done]. simpl.
    destruct proof as [p| |]; try done. intros [= Hver]. bool_hyps.
    destruct (ipa_opening_spec (values (state db)) idx x) as [_ Hsound].
    destruct (Hsound p) as [->|?]; [done|by left|by right].
  - f_equal. by apply bm_complete.
  - intros x proof root. simpl. case_bool_decide; [|done]. simpl.
    destruct proof as [| |p]; try done. intros [= Hver]. bool_hyps.
    apply bm_binding in Hver as [Hx|?]; [left|by right|done].
    change (values (state db) !! idx = Some x) in Hx. unfold value_at, get_or. by rewrite Hx.
Qed.

(** ** Typed values *)

(** The stored blob of a value, after [put_typed]. *)
Definition blobs_after db (key : string) (value : TypedValue) : gmap string bytes :=
  match (TypedValue.encode value key).2 with
  | Some data => <[key := data]> (contents (blob_store db))
  | None => delete key (contents (blob_store db))
  end.

(** Whether the blob store holds the value without an eviction; a value that lives in its
    cell needs no room. *)
Definition has_room db (key : string) (value : TypedValue) : Prop :=
  match (TypedValue.encode value key).2 with
  | Some data => size (<[key := data]> (contents (blob_store db))) ≤ max_entries (blob_store db)
  | None => True
  end.
Lemma has_room_after db key value :
  size (blobs_after db key value) ≤ max_entries (blob_store db) → has_room db key value.
Proof. unfold blobs_after, has_room. by destruct (TypedValue.encode value key).2. Qed.

(** The number of blobs that the write pushes out. *)
Definition overflow db (key : string) (value : TypedValue) : nat :=
  match (TypedValue.encode value key).2 with
  | Some data => size (<[key := data]> (contents (blob_store db))) - max_entries (blob_store db)
  | None => 0
  end.

(** [put_typed] in one step, when it succeeds. *)
Lemma put_typed_parts key value now db db' idx cell :
  put_typed key value now db = (db', Ok (idx, cell)) →
  state db' = state db ∧ keymap db' = (KM.get_or_create (keymap db) key).1 ∧
  idx = (KM.get_or_create (keymap db) key).2 ∧ cell = (TypedValue.encode value key).1 ∧
  type_map db' = tm_set (type_map db) key (tag value) ∧
  contents (blob_store db') ⊆ blobs_after db key value ∧
  size (blobs_after db key value) ≤ size (contents (blob_store db')) + overflow db key value.
Proof.
  unfold put_typed, blobs_after, overflow. destruct (TypedValue.encode value key) as [c [data|]] eqn:He;
    cbn [snd]; unfold mbind, action_bind, modify, get_state, mret, action_ret; intros Hp;
    destruct value as [|z|b|b|s|j|bs|dims]; try discriminate He;
    try (destruct (VI.upsert _ _ _ _) as [vi [[]|er]]; [|done]);
    cbn [set_typed keymap] in Hp; destruct (KM.get_or_create (keymap db) key) as [km i];
    injection Hp as <- <- <-; simpl; split_and!; try done; try lia;
    destruct (Blob.put_evicted (blob_store db) now key data); first [done|lia].
Qed.

(** The same when the blob store has room. *)
Lemma put_typed_ok key value now db db' idx cell :
  put_typed key value now db = (db', Ok (idx, cell)) → has_room db key value →
  state db' = state db ∧ keymap db' = (KM.get_or_create (keymap db) key).1 ∧
  idx = (KM.get_or_create (keymap db) key).2 ∧ cell = (TypedValue.encode value key).1 ∧
  type_map db' = tm_set (type_map db) key (tag value) ∧
  contents (blob_store db') = blobs_after db key value.
Proof.
  intros (? & ? & ? & ? & ? & Hsub & Hsize)%put_typed_parts Hroom. split_and!; try done.
  assert (overflow db key value = 0) as Ho.
  { revert Hroom. unfold has_room, overflow. destruct (TypedValue.encode value key).2; lia. }
  apply map_subseteq_size_eq; [done|lia].
Qed.

Lemma get_typed_unfold db key idx t blob :
  KM.get (keymap db) key = Some idx → tm_get (type_map db) key = t →
  contents (blob_store db) !! key = blob →
  get_typed db key = res_ok (TypedValue.decode t (value_at (state db) idx) blob).
Proof. intros Hk <- <-. unfold get_typed. by rewrite Hk. Qed.

(** Claim C3. What is written can be read back: after [put_typed] of a
    well-formed value and a successful commit of the cell it returned, [get_typed]
    returns the value, and every key that existed before reads as it did, as long as the
    blob store has room. *)
Theorem typed_put_commit_get key value now db db1 idx cell views now2 db2 e :
  value_wf value → keymap_wf (keymap db) →
  size (blobs_after db key value) ≤ max_entries (blob_store db) →
  put_typed key value now db = (db1, Ok (idx, cell)) →
  commit (mk_Delta [(idx, cell)]) views now2 db1 = (db2, Ok e) →
  get_typed db2 key = Some value ∧
  ∀ k, k ≠ key → is_Some (KM.get (keymap db) k) → get_typed db2 k = get_typed db k.
Proof.
  intros Hwf Hkm Hroom Hput Hcommit.
  destruct (put_typed_ok _ _ _ _ _ _ _ Hput (has_room_after _ _ _ Hroom)) as (Ps & Pk & -> & -> & Pt & Pb).
  pose proof (commit_ok_post _ _ _ _ _ _ Hcommit) as Hpost.
  destruct (cp_frame _ _ _ _ _ _ Hpost) as (Fk & Ft & Fb & _).
  pose proof (cp_state _ _ _ _ _ _ Hpost) as Hst. rewrite Ps in Hst.
  pose proof (get_or_create_get (keymap db) key) as Hkey.
  set (idx := (KM.get_or_create (keymap db) key).2) in *.
  pose proof (get_or_create_wf _ key Hkm) as Hkm'. split.
  - rewrite (get_typed_unfold db2 key idx (tag value) (TypedValue.encode value key).2).
    + rewrite Hst, value_at_apply_single, decide_True, TypedValue.decode_encode by done. done.
    + by rewrite Fk, Pk.
    + rewrite Ft, Pt. unfold tm_get, tm_set. simpl. by rewrite lookup_insert_eq.
    + rewrite Fb, Pb. unfold blobs_after. destruct (TypedValue.encode value key) as [c [data|]];
        simpl; [apply lookup_insert_eq|apply lookup_delete_eq].
  - intros k Hne [i Hi]. pose proof (get_or_create_mono _ key _ _ Hi) as Hi'.
    rewrite (get_typed_unfold db2 k i (tm_get (type_map db) k) (contents (blob_store db) !! k));
      [rewrite (get_typed_unfold db k i _ _ Hi eq_refl eq_refl)|by rewrite Fk, Pk|..].
    + rewrite Hst, value_at_apply_single, decide_False; [done|].
      intros ->. apply Hne. by eapply (keymap_get_inj _ _ _ _ Hkm').
    + rewrite Ft, Pt. unfold tm_get, tm_set. simpl. by rewrite lookup_insert_ne.
    + rewrite Fb, Pb. unfold blobs_after. destruct (TypedValue.encode value key) as [c [data|]];
        simpl; [by apply lookup_insert_ne|by apply lookup_delete_ne].
Qed.
End spec.

(** *** Witnesses *)

Section witnesses.
#[local] Existing Instances prefix_sha toy_ristretto toy_kzg toy_sig raw_json id_powf.

(** Facts by evaluation, without reading back the whole database. *)
Lemma ex_db_inv : db_inv ex_db.
Proof. apply (is_ok_inv db_inv); [by vm_compute|apply db_new_inv]. Qed.

Lemma ex_db_cfg : witness_cfg ex_db = ex_cfg.
Proof.
  apply (is_ok_inv (λ db, witness_cfg db = ex_cfg)); [by vm_compute|apply db_new_cfg].
Qed.

Definition ex_delta : Delta := mk_Delta [(1, 5%N)].
Definition ex_after : NucleusDb := (commit ex_delta [] 42 ex_db).1.
Definition ex_entry : CommitEntry :=
  match (commit ex_delta [] 42 ex_db).2 with
  | Ok e => e
  | Err _ => Build_CommitEntry 0 empty_hash empty_hash 0 0 0 "" "" "" 0
               (make_sth [] 0) "" [] None
  end.

Lemma commit_ok_correct_witness :
  commit_post ex_db ex_delta [] 42 ex_after ex_entry ∧
  entry_ok (ct_leaves ex_after) (length (db_entries ex_db)) ex_entry ∧ db_inv ex_after.
Proof.
  apply (commit_ok_correct ex_db ex_delta [] 42); [apply ex_db_inv|].
  apply pair_snd. by vm_compute.
Defined.

Definition ex_append_db : NucleusDb := set_append_only ex_db.
Lemma ex_append_inv : db_inv ex_append_db.
Proof. apply (db_inv_frame ex_db); [reflexivity..|apply ex_db_inv|apply ex_db_inv]. Qed.

(** Overwriting cell 0 in append-only mode is refused. *)
Lemma commit_error_atomic_witness :
  (commit (mk_Delta [(0, 5%N)]) [] 42 ex_append_db).1 = ex_append_db.
Proof.
  apply (commit_error_atomic ex_append_db (mk_Delta [(0, 5%N)]) [] 42 _ MonotoneViolation);
    [apply ex_append_inv|apply pair_snd; by vm_compute|done].
Defined.

(** A witness listed twice can never reach a threshold of two. *)
Definition ex_dup_cfg : WitnessConfig :=
  with_seed_and_algorithm (λ _, None) 2 ["w"; "w"] "seed" Ed25519.
Definition ex_dup_db : NucleusDb :=
  match db_new ex_load 0 (mk_State [7%N]) BkBinaryMerkle ex_dup_cfg with
  | Ok db => db
  | Err _ => ex_db
  end.
Lemma ex_dup_inv : db_inv ex_dup_db.
Proof. apply (is_ok_inv db_inv); [by vm_compute|apply db_new_inv]. Qed.

Lemma signing_failure_wedges_witness :
  let db' := (commit ex_delta [] 42 ex_dup_db).1 in
  state db' = state ex_dup_db ∧ db_entries db' = db_entries ex_dup_db ∧
  ∀ cs delta2 views2 now2, is_ok (commit delta2 views2 now2 (calls db' cs)).2 = false.
Proof.
  apply (signing_failure_wedges ex_dup_db ex_delta [] 42 _ WitnessQuorumFailed);
    [apply ex_dup_inv|apply pair_snd; by vm_compute|done].
Defined.

Definition ex_plan : CommitPlan :=
  match plan_commit ex_db ex_delta [] with
  | Ok p => p
  | Err _ => Build_CommitPlan (mk_State []) 0 empty_hash empty_hash
  end.

Lemma commit_succeeds_witness : ∃ db' e, commit ex_delta [] 42 ex_db = (db', Ok e).
Proof.
  apply (commit_succeeds ex_db ex_delta [] 42 ex_plan (λ _, None) 2 ["w1"; "w2"; "w3"] "seed"
    MlDsa65 ProvidedMasterSeed).
  - apply ex_db_inv.
  - apply plan_commit_ok, is_ok_match. by vm_compute.
  - exact ex_db_cfg.
  - apply (bool_decide_eq_true_1 (NoDup ["w1"; "w2"; "w3"])). by vm_compute.
  - intros w msg Hw. rewrite !elem_of_cons, elem_of_nil in Hw.
    destruct Hw as [->|[->|[->|[]]]]; by vm_compute.
Defined.

Definition ex_calls : list Call :=
  [CallCommit ex_delta [] 42; CallPut "k" (VInteger 3) 50; CallCommit (mk_Delta [(0, 3%N)]) [] 60;
   CallCommit (mk_Delta []) [] 61].

Lemma log_append_only_witness :
  ∃ head proof,
    consistency_from (calls ex_db ex_calls) (tree_size (sth ex_entry)) = Some (head, proof) ∧
    current_sth (calls ex_db ex_calls) = Some head ∧
    verify_head_extension (sth ex_entry) head proof = true.
Proof.
  apply (log_append_only ex_db ex_calls 0 ex_entry); [apply ex_db_inv|by vm_compute|by vm_compute].
Defined.

Lemma query_verified_witness :
  match query ex_db 0 with
  | Ok (Some (v, proof, root)) =>
      values (state ex_db) !! 0 = Some v ∧ verify_query ex_db 0 v proof root = Some true
  | Ok None => values (state ex_db) !! 0 = None
  | Err _ => False
  end ∧
  ∀ x proof root, verify_query ex_db 0 x proof root = Some true →
    value_at (state ex_db) 0 = x ∨ query_clash (values (state ex_db)) 0 x proof.
Proof. apply (query_verified ex_db 0); by vm_compute. Defined.

Definition ex_put : NucleusDb * result VectorError (nat * N) :=
  put_typed "k" (VText "hello") 50 ex_db.
Definition ex_put_cell : nat * N := match ex_put.2 with Ok r => r | Err _ => (0, 0%N) end.

Lemma typed_put_commit_get_witness :
  let db2 := (commit (mk_Delta [ex_put_cell]) [] 60 ex_put.1).1 in
  get_typed db2 "k" = Some (VText "hello") ∧
  ∀ k, k ≠ "k" → is_Some (KM.get (keymap ex_db) k) → get_typed db2 k = get_typed ex_db k.
Proof.
  assert (is_ok (commit (mk_Delta [ex_put_cell]) [] 60 ex_put.1).2 = true) as Hok by by vm_compute.
  destruct (commit (mk_Delta [ex_put_cell]) [] 60 ex_put.1) as [db2 [e|er]] eqn:Hc; [|done].
  apply (typed_put_commit_get "k" (VText "hello") 50 ex_db ex_put.1 ex_put_cell.1 ex_put_cell.2
    [] 60 db2 e).
  - by vm_compute.
  - apply ex_db_inv.
  - apply Nat.leb_le. by vm_compute.
  - apply pair_snd. by vm_compute.
  - exact Hc.
Defined.
End witnesses.
