(* ===== verification/Evidence.v ===== *)
(** * Commit evidence, its replay and evidence bundles: [src/src/audit.rs]

    [CommitEvidence] is the portable record of a commit, with every hash in
    hexadecimal; [replay_verify_evidence] checks a list of records without the database.
    [commit_with_evidence] of [src/src/protocol.rs] produces one record per commit.
    Files are their contents; the clock is an argument; [serde_json] for the record and
    the manifest is the class [EvidenceJson]. *)
From S2P Require Export ProtocolSpec.

Record ConsistencyEvidence := {
  ce_old_size : N;
  ce_new_size : N;
  ce_old_root : string;
  ce_new_root : string;
  ce_proof : list string
}.
#[export] Instance ConsistencyEvidence_eq_dec : EqDecision ConsistencyEvidence.
Proof. solve_decision. Defined.

Record CommitEvidence := {
  ev_height : N;
  ev_prev_state_root : string;
  ev_state_root : string;
  ev_delta_digest : N;
  ev_cert_digest : N;
  ev_sheaf_coherence_digest : N;
  ev_vc_backend_id : string;
  ev_vc_scheme_id : string;
  ev_vc_domain_separator : string;
  ev_vc_max_degree : N;
  ev_sth_size : N;
  ev_sth_root : string;
  ev_sth_timestamp : N;
  ev_sth_sig : string;
  ev_witness_signature_algorithm : string;
  ev_witness_sigs : list (string * string);
  ev_consistency_with_prev : option ConsistencyEvidence
}.
#[export] Instance CommitEvidence_eq_dec : EqDecision CommitEvidence.
Proof. solve_decision. Defined.

Inductive ReplayError :=
| EmptyEvidence
| ReplayHeightMismatch (expected got : N)
| ReplayPrevRootMismatch (expected got : string)
| ReplaySthSizeMismatch (expected got : N)
| ReplayInvalidSthSignature (expected got : string)
| InvalidHashHex (height : N)
| MissingConsistencyEvidence (height : N)
| UnexpectedConsistencyEvidenceAtGenesis
| InvalidConsistencyEvidence (height : N)
| InvalidWitnessSignatureAlgorithm (height : N) (got : string)
| InvalidVcBackend (height : N) (got : string)
| ReplayWitnessQuorumFailed (height : N).
#[export] Instance ReplayError_eq_dec : EqDecision ReplayError.
Proof. solve_decision. Defined.

Definition decode_hex_exact (n : nat) (hex : string) : option (arr n) :=
  if negb (str_len hex =? n * 2) then None else bs ← hex_decode hex; try_arr n bs.

Definition msg_for_entry (e : CommitEvidence) : string :=
  dec (ev_height e) +:+ ":" +:+ ev_prev_state_root e +:+ ":" +:+ ev_state_root e +:+ ":" +:+
  ev_sth_root e +:+ ":" +:+ dec (ev_sth_timestamp e).

(** [CommitEvidence::from_entry]. *)
Definition from_entry (prev : option CommitEntry) (entry : CommitEntry)
    (consistency_with_prev : option ConsistencyProof) : CommitEvidence := {|
  ev_height := height entry;
  ev_prev_state_root := hex_encode (arr_bytes (prev_state_root entry));
  ev_state_root := hex_encode (arr_bytes (state_root entry));
  ev_delta_digest := delta_digest entry;
  ev_cert_digest := cert_digest entry;
  ev_sheaf_coherence_digest := sheaf_coherence_digest entry;
  ev_vc_backend_id := vc_backend_id entry;
  ev_vc_scheme_id := vc_scheme_id entry;
  ev_vc_domain_separator := vc_domain_separator entry;
  ev_vc_max_degree := vc_max_degree entry;
  ev_sth_size := tree_size (sth entry);
  ev_sth_root := hex_encode (arr_bytes (root_hash (sth entry)));
  ev_sth_timestamp := timestamp_unix_secs (sth entry);
  ev_sth_sig := sig (sth entry);
  ev_witness_signature_algorithm := witness_signature_algorithm entry;
  ev_witness_sigs := witness_sigs entry;
  ev_consistency_with_prev :=
    match prev, consistency_with_prev with
    | Some prev_entry, Some p => Some {|
        ce_old_size := cp_old_size p;
        ce_new_size := cp_new_size p;
        ce_old_root := hex_encode (arr_bytes (root_hash (sth prev_entry)));
        ce_new_root := hex_encode (arr_bytes (root_hash (sth entry)));
        ce_proof := map (λ h, hex_encode (arr_bytes h)) (cp_path p) |}
    | _, _ => None
    end
|}.

Definition normalize_backend_id (entry : CommitEvidence) : option string :=
  if negb (is_blank (ev_vc_backend_id entry)) then Some (trim (ev_vc_backend_id entry))
  else
    let scheme := trim (ev_vc_scheme_id entry) in
    if bool_decide (scheme = "ipa") then Some "ipa"
    else if bool_decide (scheme = "kzg") then Some "kzg"
    else None.

Section audit.
Context `{Sha2, Ristretto, KzgLib, SigLib, SerdeJson, Libm}.

(** ** Replay *)

(** The checks on one record that do not look at its predecessor: the algorithm of its
    signatures. *)
Definition check_record (i : nat) (e : CommitEvidence)
  : result ReplayError WitnessSignatureAlgorithm :=
  let expected_height := (N.of_nat i + 1)%N in
  _ ← throw_if (negb (ev_height e =? expected_height)%N)
        (ReplayHeightMismatch expected_height (ev_height e));
  _ ← throw_if (negb (ev_sth_size e =? ev_height e)%N)
        (ReplaySthSizeMismatch (ev_height e) (ev_sth_size e));
  sth_root ← ok_or (decode_hex_exact 32 (ev_sth_root e)) (InvalidHashHex (ev_height e));
  let expected_sig := sth_signature (ev_sth_size e) sth_root (ev_sth_timestamp e) in
  _ ← throw_if (negb (bool_decide (ev_sth_sig e = expected_sig)))
        (ReplayInvalidSthSignature expected_sig (ev_sth_sig e));
  _ ← throw_if (is_blank (ev_vc_scheme_id e) || is_blank (ev_vc_domain_separator e))
        (InvalidConsistencyEvidence (ev_height e));
  _ ← throw_if (ev_vc_max_degree e =? 0)%N (InvalidConsistencyEvidence (ev_height e));
  backend_id ← ok_or (normalize_backend_id e)
                 (InvalidVcBackend (ev_height e) (ev_vc_backend_id e));
  _ ← throw_if (negb (bool_decide (backend_id = "ipa")) && negb (bool_decide (backend_id = "kzg"))
                && negb (bool_decide (backend_id = "binary_merkle")))
        (InvalidVcBackend (ev_height e) backend_id);
  map_err (λ _, InvalidWitnessSignatureAlgorithm (ev_height e) (ev_witness_signature_algorithm e))
    (parse_algorithm_tag (ev_witness_signature_algorithm e)).

(** The checks of a record against its predecessor. *)
Definition check_link (prev e : CommitEvidence) : result ReplayError () :=
  _ ← throw_if (negb (bool_decide (ev_prev_state_root e = ev_state_root prev)))
        (ReplayPrevRootMismatch (ev_state_root prev) (ev_prev_state_root e));
  c ← ok_or (ev_consistency_with_prev e) (MissingConsistencyEvidence (ev_height e));
  _ ← throw_if (negb (ce_old_size c =? ev_sth_size prev)%N || negb (ce_new_size c =? ev_sth_size e)%N)
        (InvalidConsistencyEvidence (ev_height e));
  _ ← throw_if (negb (bool_decide (ce_old_root c = ev_sth_root prev))
                || negb (bool_decide (ce_new_root c = ev_sth_root e)))
        (InvalidConsistencyEvidence (ev_height e));
  old_root ← ok_or (decode_hex_exact 32 (ce_old_root c)) (InvalidHashHex (ev_height e));
  new_root ← ok_or (decode_hex_exact 32 (ce_new_root c)) (InvalidHashHex (ev_height e));
  path ← ok_or (mapM (decode_hex_exact 32) (ce_proof c)) (InvalidHashHex (ev_height e));
  throw_if (negb (verify_consistency_proof
                    {| cp_old_size := ce_old_size c; cp_new_size := ce_new_size c;
                       cp_path := path |} old_root new_root))
    (InvalidConsistencyEvidence (ev_height e)).

(** One turn of the loop; [prev] is [evidence[i - 1]]. *)
Definition replay_step (witness_cfg : WitnessConfig) (i : nat) (prev : option CommitEvidence)
    (e : CommitEvidence) : result ReplayError () :=
  sig_alg ← check_record i e;
  _ ← (match prev with
       | None => throw_if (bool_decide (is_Some (ev_consistency_with_prev e)))
                   UnexpectedConsistencyEvidenceAtGenesis
       | Some p => check_link p e
       end);
  throw_if (negb (verify_quorum_for_algorithm witness_cfg sig_alg (msg_for_entry e)
                    (ev_witness_sigs e)))
    (ReplayWitnessQuorumFailed (ev_height e)).

Fixpoint replay_loop (witness_cfg : WitnessConfig) (i : nat) (prev : option CommitEvidence)
    (evidence : list CommitEvidence) : result ReplayError () :=
  match evidence with
  | [] => Ok tt
  | e :: evidence' =>
      _ ← replay_step witness_cfg i prev e;
      replay_loop witness_cfg (S i) (Some e) evidence'
  end.

Definition replay_verify_evidence (evidence : list CommitEvidence) (witness_cfg : WitnessConfig)
  : result ReplayError () :=
  match evidence with
  | [] => Err EmptyEvidence
  | _ => replay_loop witness_cfg 0 None evidence
  end.

(** [NucleusDb::commit_with_evidence]. *)
Definition commit_with_evidence (delta : Delta) (local_views : list LocalSection) (now : N)
  : action NucleusDb CommitError (CommitEntry * CommitEvidence) :=
  entry ← commit delta local_views now;
  db ← get_state;
  let prev :=
    if 2 <=? length (db_entries db) then db_entries db !! (length (db_entries db) - 2) else None in
  let consistency_with_prev :=
    p ← prev; snd <$> consistency_from db (tree_size (sth p)) in
  mret (entry, from_entry prev entry consistency_with_prev).

(** ** What a replay checks *)

(** The link of a record to its predecessor. *)
Definition link_valid (p e : CommitEvidence) : Prop :=
  ev_prev_state_root e = ev_state_root p ∧
  ∃ c old new path, ev_consistency_with_prev e = Some c ∧
    ce_old_size c = ev_sth_size p ∧ ce_new_size c = ev_sth_size e ∧
    ce_old_root c = ev_sth_root p ∧ ce_new_root c = ev_sth_root e ∧
    decode_hex_exact 32 (ev_sth_root p) = Some old ∧
    decode_hex_exact 32 (ev_sth_root e) = Some new ∧
    mapM (decode_hex_exact 32) (ce_proof c) = Some path ∧
    verify_consistency_proof
      {| cp_old_size := ev_sth_size p; cp_new_size := ev_sth_size e; cp_path := path |} old new
      = true.

Record record_valid (cfg : WitnessConfig) (i : nat) (prev : option CommitEvidence)
    (e : CommitEvidence) : Prop := {
  rv_height : ev_height e = (N.of_nat i + 1)%N;
  rv_size : ev_sth_size e = ev_height e;
  rv_sth : ∃ root, decode_hex_exact 32 (ev_sth_root e) = Some root ∧
    ev_sth_sig e = sth_signature (ev_sth_size e) root (ev_sth_timestamp e);
  rv_policy : is_blank (ev_vc_scheme_id e) = false ∧ is_blank (ev_vc_domain_separator e) = false ∧
    ev_vc_max_degree e ≠ 0%N;
  rv_backend : ∃ b, normalize_backend_id e = Some b ∧ (b = "ipa" ∨ b = "kzg" ∨ b = "binary_merkle");
  rv_quorum : ∃ alg, from_tag (ev_witness_signature_algorithm e) = Some alg ∧
    verify_quorum_for_algorithm cfg alg (msg_for_entry e) (ev_witness_sigs e) = true;
  rv_link : match prev with
            | None => ev_consistency_with_prev e = None
            | Some p => link_valid p e
            end
}.

Lemma backend_guard_false b :
  negb (bool_decide (b = "ipa")) && negb (bool_decide (b = "kzg")) &&
    negb (bool_decide (b = "binary_merkle")) = false ↔
  b = "ipa" ∨ b = "kzg" ∨ b = "binary_merkle".
Proof. repeat case_bool_decide; simpl; naive_solver. Qed.

Lemma check_record_ok i e alg :
  check_record i e = Ok alg ↔
  ev_height e = (N.of_nat i + 1)%N ∧ ev_sth_size e = ev_height e ∧
  (∃ root, decode_hex_exact 32 (ev_sth_root e) = Some root ∧
    ev_sth_sig e = sth_signature (ev_sth_size e) root (ev_sth_timestamp e)) ∧
  (is_blank (ev_vc_scheme_id e) = false ∧ is_blank (ev_vc_domain_separator e) = false ∧
    ev_vc_max_degree e ≠ 0%N) ∧
  (∃ b, normalize_backend_id e = Some b ∧ (b = "ipa" ∨ b = "kzg" ∨ b = "binary_merkle")) ∧
  from_tag (ev_witness_signature_algorithm e) = Some alg.
Proof.
  unfold check_record, parse_algorithm_tag. split.
  - intros Hc. inv_res. rewrite backend_guard_false in *. bool_hyps. naive_solver.
  - intros (-> & -> & (root & Hd & ->) & (-> & -> & Hdeg) & (b & Hb & Hbs) & Ht).
    rewrite !N.eqb_refl. simpl. rewrite Hd. simpl. rewrite bool_decide_eq_true_2 by done. simpl.
    rewrite (proj2 (N.eqb_neq _ _) Hdeg). simpl. rewrite Hb. simpl.
    rewrite (proj2 (backend_guard_false b) Hbs). simpl. by rewrite Ht.
Qed.

Lemma check_link_ok p e : check_link p e = Ok tt ↔ link_valid p e.
Proof.
  unfold check_link, link_valid. split.
  - intros Hc. inv_res. bool_hyps. split; [done|].
    match goal with c : ConsistencyEvidence |- _ => destruct c end. simpl in *. subst.
    by do 4 eexists.
  - intros (-> & [osz nsz old_hex new_hex proof] & old & new & path & -> & Hc). simpl in Hc.
    destruct Hc as (-> & -> & -> & -> & Ho & Hn & Hp & Hv).
    rewrite !bool_decide_eq_true_2 by done. simpl.
    rewrite !N.eqb_refl, !bool_decide_eq_true_2 by done. simpl.
    rewrite Ho. simpl. rewrite Hn. simpl. rewrite Hp. simpl. by rewrite Hv.
Qed.

Lemma replay_step_ok cfg i prev e :
  replay_step cfg i prev e = Ok tt ↔ record_valid cfg i prev e.
Proof.
  unfold replay_step. rewrite result_bind_ok. split.
  - intros (alg & (Hh & Hs & Hsth & Hpol & Hb & Ht)%check_record_ok & Hr). inv_res. bool_hyps.
    split; try done; [by exists alg|]. destruct prev as [p|], x.
    + by apply check_link_ok.
    + apply throw_if_ok, bool_decide_eq_false in Hr0. by apply eq_None_not_Some.
  - intros [Hh Hs Hsth Hpol Hb (alg & Ht & Hq) Hl]. exists alg.
    split; [by apply check_record_ok|]. apply result_bind_ok. exists tt. split.
    + destruct prev as [p|]; [by apply check_link_ok|]. by rewrite Hl.
    + by rewrite Hq.
Qed.

Lemma replay_loop_ok cfg i prev evs :
  replay_loop cfg i prev evs = Ok tt ↔
  ∀ j e, evs !! j = Some e →
    record_valid cfg (i + j) (match j with 0 => prev | S j' => evs !! j' end) e.
Proof.
  revert i prev. induction evs as [|e0 evs IH]; intros i prev; [done|]. cbn [replay_loop].
  rewrite result_bind_ok. split.
  - intros ([] & Hs%replay_step_ok & Hl) [|j] e; simpl; [intros [= <-]; by rewrite Nat.add_0_r|].
    intros He. rewrite <-plus_n_Sm. rewrite IH in Hl. specialize (Hl j e He).
    by destruct j.
  - intros Hall. exists tt. split.
    + apply replay_step_ok. specialize (Hall 0 e0 eq_refl). by rewrite Nat.add_0_r in Hall.
    + apply IH. intros j e He. specialize (Hall (S j) e He). rewrite <-plus_n_Sm in Hall.
      by destruct j.
Qed.

Lemma replay_verify_evidence_ok evs cfg :
  replay_verify_evidence evs cfg = Ok tt ↔
  evs ≠ [] ∧ ∀ i e, evs !! i = Some e →
    record_valid cfg i (match i with 0 => None | S i' => evs !! i' end) e.
Proof.
  unfold replay_verify_evidence. destruct evs as [|e0 evs]; [naive_solver|].
  rewrite replay_loop_ok. naive_solver.
Qed.

(** ** Evidence of a history *)

(** Run calls, keeping the record of every commit; a failed commit stops the run. *)
Fixpoint run_evidence (db : NucleusDb) (cs : list Call) : option (NucleusDb * list CommitEvidence) :=
  match cs with
  | [] => Some (db, [])
  | CallCommit delta views now :: cs' =>
      match commit_with_evidence delta views now db with
      | (db', Ok (_, ev)) => '(db'', evs) ← run_evidence db' cs'; Some (db'', ev :: evs)
      | (_, Err _) => None
      end
  | c :: cs' => run_evidence (call db c) cs'
  end.

(** [prev] is a record of the newest entry. *)
Definition records_head (db : NucleusDb) (prev : option CommitEvidence) : Prop :=
  match last (db_entries db), prev with
  | None, None => True
  | Some p, Some pe =>
      ev_state_root pe = hex_encode (arr_bytes (state_root p)) ∧
      ev_sth_size pe = tree_size (sth p) ∧
      ev_sth_root pe = hex_encode (arr_bytes (root_hash (sth p)))
  | _, _ => False
  end.

Lemma decode_hex_exact_encode {n} (a : arr n) :
  decode_hex_exact n (hex_encode (arr_bytes a)) = Some a.
Proof.
  unfold decode_hex_exact. rewrite length_hex_encode, arr_length, Nat.mul_comm, Nat.eqb_refl. simpl.
  rewrite hex_decode_encode. simpl. apply try_arr_bytes.
Qed.

Lemma mapM_decode_encode {n} (l : list (arr n)) :
  mapM (decode_hex_exact n) (map (λ h, hex_encode (arr_bytes h)) l) = Some l.
Proof.
  induction l as [|h l IH]; [done|]. cbn. rewrite decode_hex_exact_encode. cbn. by rewrite IH.
Qed.

Lemma backend_id_normal e b :
  ev_vc_backend_id e = backend_id_of b → normalize_backend_id e = Some (backend_id_of b).
Proof. unfold normalize_backend_id. intros ->. by destruct b; vm_compute. Qed.

Lemma commit_with_evidence_ok db delta views now db' e ev :
  commit_with_evidence delta views now db = (db', Ok (e, ev)) →
  commit delta views now db = (db', Ok e) ∧
  ev = from_entry (last (db_entries db)) e
         (p ← last (db_entries db); snd <$> consistency_from db' (tree_size (sth p))).
Proof.
  unfold commit_with_evidence, mbind at 1, action_bind at 1.
  destruct (commit delta views now db) as [db1 [e1|]] eqn:Hc; [|done].
  unfold mbind at 1, action_bind, get_state, mret, action_ret.
  assert ((if 2 <=? length (db_entries db1) then db_entries db1 !! (length (db_entries db1) - 2)
           else None) = last (db_entries db)) as ->.
  { rewrite (cp_entries _ _ _ _ _ _ (commit_ok_post _ _ _ _ _ _ Hc)), length_app.
    cbn [length]. destruct (Nat.leb_spec 2 (length (db_entries db) + 1)) as [Hl|Hl].
    - rewrite lookup_app_l, last_lookup by lia. f_equal. lia.
    - assert (db_entries db = []) as -> by (apply nil_length_inv; lia). done. }
  by intros [= -> -> <-].
Qed.

(** The entries of a database in the invariant are linked by consistency proofs. *)
Lemma entries_link db n p e :
  db_inv db → length (db_entries db) = S (S n) →
  db_entries db !! n = Some p → db_entries db !! (S n) = Some e →
  prev_state_root e = state_root p ∧
  ∃ proof, snd <$> consistency_from db (tree_size (sth p)) = Some proof ∧
    cp_old_size proof = tree_size (sth p) ∧ cp_new_size proof = tree_size (sth e) ∧
    verify_consistency_proof proof (root_hash (sth p)) (root_hash (sth e)) = true.
Proof.
  intros Hi Hn Hp He. split; [by eapply inv_chain|].
  destruct (inv_entry _ Hi _ _ Hp) as [_ Hsp _], (inv_entry _ Hi _ _ He) as [_ Hse _].
  pose proof (inv_len _ Hi) as Hlen. rewrite Hn in Hlen.
  rewrite (take_ge (ct_leaves db)) in Hse by lia.
  assert (tree_size (sth p) = N.of_nat (n + 1)) as Hsize
    by (rewrite Hsp; cbn [tree_size make_sth]; rewrite length_take; lia).
  unfold consistency_from. rewrite (inv_head _ Hi), last_lookup, Hn. cbn [pred]. rewrite He, Hsize.
  rewrite Nat2N.id. simpl. pose proof (make_consistency_proof_verifies (ct_leaves db) (n + 1)) as Hm.
  destruct (make_consistency_proof _ _) as [proof|]; [|lia]. simpl.
  destruct Hm as (Ho & Hnew & Hv). exists proof. rewrite Hsp, Hse. simpl.
  split_and!; [done..|by rewrite Hnew|done].
Qed.

Lemma commit_evidence_valid db delta views now db' e ev prev :
  db_inv db → records_head db prev →
  commit_with_evidence delta views now db = (db', Ok (e, ev)) →
  record_valid (witness_cfg db) (length (db_entries db)) prev ev ∧ records_head db' (Some ev).
Proof.
  intros Hi Hprev (Hc & Hev)%commit_with_evidence_ok.
  pose proof (commit_ok_inv _ _ _ _ _ _ Hi Hc) as Hi'.
  pose proof (new_entry_ok _ _ _ _ _ _ Hi Hc) as [Hh Hs _].
  pose proof (commit_ok_post _ _ _ _ _ _ Hc) as Hpost.
  pose proof (cp_entries _ _ _ _ _ _ Hpost) as Hen.
  destruct (commit_ok_shape _ _ _ _ _ _ Hc) as (pl & sigs & Hpl & _ & _ & He & _).
  destruct (ps_params _ _ _ _ Hpl) as [_ _ _ _ _ _ _ [Hsc _] Hsep [Hdeg _]].
  assert (length (ct_leaves db') = length (db_entries db) + 1) as Hlen
    by (rewrite (inv_len _ Hi'), Hen, length_app; done).
  split.
  2: { unfold records_head. rewrite Hen, last_snoc, Hev. done. }
  assert (tree_size (sth e) = height e) as Hsize
    by (rewrite Hs; cbn [tree_size make_sth]; rewrite length_take; lia).
  split; rewrite Hev; cbn [from_entry ev_height ev_sth_size ev_sth_root ev_sth_sig ev_sth_timestamp
    ev_vc_scheme_id ev_vc_domain_separator ev_vc_max_degree ev_witness_signature_algorithm
    ev_witness_sigs].
  - rewrite Hh. lia.
  - done.
  - exists (root_hash (sth e)). split; [apply decode_hex_exact_encode|]. by rewrite Hs.
  - rewrite He. cbn. split_and!; [done..|lia].
  - exists (backend_id_of (backend db)). split.
    + apply backend_id_normal. by rewrite He.
    + destruct (backend db); auto.
  - exists (signing_algorithm (witness_cfg db)). split; [by rewrite He; apply from_tag_as_tag|].
    exact (cp_quorum _ _ _ _ _ _ Hpost).
  - unfold records_head in Hprev. destruct (last (db_entries db)) as [p|] eqn:Hl, prev as [pe|];
      try done. destruct Hprev as (Hr & Hsz & Hroot).
    rewrite last_lookup in Hl. pose proof (lookup_lt_Some _ _ _ Hl) as Hlt.
    destruct (entries_link db' (pred (length (db_entries db))) p e) as (Hchain & pf & Hcf & Ho & Hn & Hv).
    + done.
    + rewrite Hen, length_app. simpl. lia.
    + by rewrite Hen, lookup_app_l.
    + rewrite Hen, lookup_app_r, Nat.succ_pred, Nat.sub_diag by lia. done.
    + split; [by rewrite Hr, <-Hchain|]. cbn [mbind option_bind].
      rewrite Hcf. do 4 eexists. rewrite Hsz, Hroot.
      split_and!; [done|done|done|done|done|apply decode_hex_exact_encode|
        apply decode_hex_exact_encode|apply mapM_decode_encode|].
      simpl. rewrite <-Ho, <-Hn. by destruct pf.
Qed.

Lemma run_evidence_loop db cs db' evs prev :
  db_inv db → records_head db prev → run_evidence db cs = Some (db', evs) →
  replay_loop (witness_cfg db) (length (db_entries db)) prev evs = Ok tt.
Proof.
  revert db evs prev. induction cs as [|c cs IH]; intros db evs prev Hi Hprev Hrun.
  { by injection Hrun as _ <-. }
  assert (∀ db1, log_frame db db1 → run_evidence db1 cs = Some (db', evs) →
    replay_loop (witness_cfg db) (length (db_entries db)) prev evs = Ok tt) as Hframe.
  { intros db1 Hf Hr. rewrite <-(lf_cfg _ _ Hf), <-(lf_entries _ _ Hf).
    apply (IH db1); [by eapply log_frame_inv| |done].
    unfold records_head in *. by rewrite (lf_entries _ _ Hf). }
  destruct c as [delta views now|key v now|key now| |now|]; cbn [run_evidence call] in Hrun;
    try (eapply Hframe, Hrun;
         (apply put_typed_frame || apply touch_frame || apply tick_frame || by split)).
  destruct (commit_with_evidence delta views now db) as [db1 [[e ev]|]] eqn:Hc; [|done].
  destruct (run_evidence db1 cs) as [[db2 evs']|] eqn:Hr; [|done]. injection Hrun as -> <-.
  destruct (commit_evidence_valid _ _ _ _ _ _ _ _ Hi Hprev Hc) as [Hv Hhead].
  apply commit_with_evidence_ok in Hc as [Hc _].
  pose proof (commit_ok_post _ _ _ _ _ _ Hc) as Hpost. cbn [replay_loop].
  apply result_bind_ok. exists tt. split; [by apply replay_step_ok|].
  assert (witness_cfg db1 = witness_cfg db) as <- by apply Hpost.
  replace (S (length (db_entries db))) with (length (db_entries db1))
    by (rewrite (cp_entries _ _ _ _ _ _ Hpost), length_app; simpl; lia).
  by eapply IH; [eapply commit_ok_inv| |].
Qed.

(** ** What an accepted list shows *)

Lemma accepted_links evs cfg i e e' :
  replay_verify_evidence evs cfg = Ok tt → evs !! i = Some e → evs !! S i = Some e' →
  link_valid e e'.
Proof.
  intros [_ Hall]%replay_verify_evidence_ok He He'.
  pose proof (rv_link _ _ _ _ (Hall _ _ He')) as Hl. cbn in Hl. by rewrite He in Hl.
Qed.

(** The strings hashed for the proof of a record, from the root of the one before it,
    and for all proofs and the roots of all prefixes. *)
Definition link_strings (prev : option CommitEvidence) (e : CommitEvidence) : list bytes :=
  default [] (
    p ← prev; c ← ev_consistency_with_prev e;
    old ← decode_hex_exact 32 (ev_sth_root p); path ← mapM (decode_hex_exact 32) (ce_proof c);
    Some (consistency_strings
      {| cp_old_size := ev_sth_size p; cp_new_size := ev_sth_size e; cp_path := path |} old)).
Definition evidence_strings (evs : list CommitEvidence) (leaves : list NodeHash) : list bytes :=
  mjoin (imap (λ k e, tree_strings (take (k + 1) leaves) ++ link_strings (evs !! (k - 1)) e) evs).

Lemma evidence_strings_step evs leaves k p e c old path :
  evs !! k = Some p → evs !! S k = Some e → ev_consistency_with_prev e = Some c →
  decode_hex_exact 32 (ev_sth_root p) = Some old → mapM (decode_hex_exact 32) (ce_proof c) = Some path →
  tree_strings (take (S k + 1) leaves) ++
    consistency_strings {| cp_old_size := ev_sth_size p; cp_new_size := ev_sth_size e; cp_path := path |} old
    ⊆ evidence_strings evs leaves.
Proof.
  intros Hp He Hc Hold Hpath s Hs. apply list_elem_of_join.
  exists (tree_strings (take (S k + 1) leaves) ++ link_strings (evs !! (S k - 1)) e).
  split; [|apply elem_of_lookup_imap; eauto].
  unfold link_strings. replace (S k - 1) with k by lia. rewrite Hp. simpl. rewrite Hc. simpl.
  rewrite Hold. simpl. by rewrite Hpath.
Qed.

(** The root at one height fixes the roots at all lower ones. *)
Lemma accepted_roots evs cfg leaves d i e e' :
  replay_verify_evidence evs cfg = Ok tt →
  evs !! i = Some e → evs !! (i + d) = Some e' → i + d + 1 ≤ length leaves →
  decode_hex_exact 32 (ev_sth_root e') = Some (merkle_tree_hash (take (i + d + 1) leaves)) →
  decode_hex_exact 32 (ev_sth_root e) = Some (merkle_tree_hash (take (i + 1) leaves)) ∨
  collides sha256 (evidence_strings evs leaves).
Proof.
  intros Hr. revert e'. induction d as [|d IH]; intros e' He He' Hlen Hroot.
  - rewrite Nat.add_0_r in *. rewrite He in He'. injection He' as <-. by left.
  - rewrite <-plus_n_Sm in He'. destruct (evs !! (i + d)) as [em|] eqn:Hem.
    2: { apply lookup_ge_None in Hem. apply lookup_lt_Some in He'. lia. }
    destruct (accepted_links _ _ _ _ _ Hr Hem He')
      as (_ & c & old & new & path & Hc & _ & _ & _ & _ & Hold & Hnew & Hpath & Hv).
    pose proof (evidence_strings_step _ leaves _ _ _ _ _ _ Hem He' Hc Hold Hpath) as Hsub.
    rewrite Hroot in Hnew. injection Hnew as <-.
    assert (∀ j x, evs !! j = Some x → ev_sth_size x = N.of_nat (j + 1)) as Hsize.
    { intros j x Hx. apply replay_verify_evidence_ok in Hr as [_ Hall].
      destruct (Hall _ _ Hx) as [Hh Hs _ _ _ _ _]. rewrite Hs, Hh. lia. }
    replace (i + S d + 1) with (S (i + d) + 1) in * by lia.
    apply (verify_consistency_proof_old_root old (take (S (i + d) + 1) leaves) (i + d + 1)) in Hv
      as (_ & _ & [->|?]).
    + rewrite take_take, Nat.min_l in Hold by lia.
      destruct (IH em) as [E|?]; [done|done|lia|done|by left|by right].
    + right. by eapply collides_mono.
    + simpl. apply (Hsize _ _ Hem).
    + simpl. rewrite (Hsize _ _ He'), length_take. lia.
Qed.

(** A record with other digests of its delta, certificate and sheaf proof. *)
Definition with_digests (e : CommitEvidence) (dd cd sd : N) : CommitEvidence := {|
  ev_height := ev_height e; ev_prev_state_root := ev_prev_state_root e;
  ev_state_root := ev_state_root e; ev_delta_digest := dd; ev_cert_digest := cd;
  ev_sheaf_coherence_digest := sd; ev_vc_backend_id := ev_vc_backend_id e;
  ev_vc_scheme_id := ev_vc_scheme_id e; ev_vc_domain_separator := ev_vc_domain_separator e;
  ev_vc_max_degree := ev_vc_max_degree e; ev_sth_size := ev_sth_size e;
  ev_sth_root := ev_sth_root e; ev_sth_timestamp := ev_sth_timestamp e;
  ev_sth_sig := ev_sth_sig e; ev_witness_signature_algorithm := ev_witness_signature_algorithm e;
  ev_witness_sigs := ev_witness_sigs e; ev_consistency_with_prev := ev_consistency_with_prev e |}.

Lemma replay_loop_digests cfg i prev evs f :
  replay_loop cfg i ((λ e, with_digests e (f e).1.1 (f e).1.2 (f e).2) <$> prev)
    ((λ e, with_digests e (f e).1.1 (f e).1.2 (f e).2) <$> evs) = replay_loop cfg i prev evs.
Proof.
  revert i prev. induction evs as [|e evs IH]; intros i prev; [done|]. cbn [fmap list_fmap replay_loop].
  assert (∀ p, replay_step cfg i ((λ e, with_digests e (f e).1.1 (f e).1.2 (f e).2) <$> p)
    (with_digests e (f e).1.1 (f e).1.2 (f e).2) = replay_step cfg i p e) as -> by by intros [p|].
  destruct (replay_step cfg i prev e) as [[]|]; [|done]. apply (IH (S i) (Some e)).
Qed.
End audit.

(** ** Evidence files and bundles *)

Record EvidenceBundleManifest := {
  bm_schema : string;
  bm_created_unix_secs : N;
  bm_retention_days : N;
  bm_delete_after_unix_secs : N;
  bm_source_evidence_path : string;
  bm_evidence_file : string;
  bm_evidence_records : nat;
  bm_evidence_sha512 : string;
  bm_replay_verified : bool;
  bm_payload_sha512 : string;
  bm_witness_threshold : nat;
  bm_witness_signatures : list (string * string)
}.

(** [serde_json] on the record (one compact line) and on the manifest. *)
Class EvidenceJson := {
  evidence_to_json : CommitEvidence → string;
  evidence_from_json : string → option CommitEvidence;
  manifest_to_json : EvidenceBundleManifest → string
}.

Inductive EvidenceError := EvidenceIo | EvidenceJsonErr.
Inductive BundleError :=
| BundleEvidence (e : EvidenceError)
| BundleReplay (e : ReplayError)
| BundleIo
| BundleTime
| BundleWitnessSigning (e : WitnessError)
| BundleWitnessQuorumFailed.

(** What [create_evidence_bundle] leaves in the output directory. *)
Record EvidenceBundle := {
  eb_evidence_jsonl : string;
  eb_manifest_json : string;
  eb_manifest_sha512 : string
}.

Definition newline : ascii := ascii_of_N 10.
Definition carriage_return : ascii := ascii_of_N 13.

(** [BufRead::lines]: the pieces between line feeds, a final carriage return of a
    terminated line dropped, no line for an empty rest. *)
Definition strip_cr (s : string) : string :=
  default s (strip_suffix (String carriage_return "") s).
Fixpoint file_lines (pieces : list string) : list string :=
  match pieces with
  | [] => []
  | [rest] => if bool_decide (rest = "") then [] else [rest]
  | p :: ps => strip_cr p :: file_lines ps
  end.

Section bundle.
Context `{Sha2, SigLib, EvidenceJson}.

(** Appending to a file; a missing file is created. *)
Definition append_evidence_jsonl (file : option string) (e : CommitEvidence) : string :=
  default "" file +:+ evidence_to_json e +:+ String newline "".

Fixpoint parse_lines (lines : list string) : result EvidenceError (list CommitEvidence) :=
  match lines with
  | [] => Ok []
  | line :: lines' =>
      _ ← throw_if (negb (utf8_valid (as_bytes line))) EvidenceIo;
      if is_blank line then parse_lines lines'
      else
        e ← ok_or (evidence_from_json line) EvidenceJsonErr;
        out ← parse_lines lines';
        mret (e :: out)
  end.
Definition load_evidence_jsonl (file : option string) : result EvidenceError (list CommitEvidence) :=
  f ← ok_or file EvidenceIo;
  parse_lines (file_lines (split_char newline f)).

Definition sha512_hex (b : bytes) : string := hex_encode (arr_bytes (sha512 b)).
Definition bundle_signing_message (payload_sha512 : string) : string :=
  "nucleusdb:evidence-bundle:sha512:" +:+ payload_sha512.
Definition payload_seed (created retention_days : N) (records : nat) (evidence_sha512 : string)
  : string :=
  "nucleusdb/evidence-bundle/v1|" +:+ dec created +:+ "|" +:+ dec retention_days +:+ "|" +:+
  dec (N.of_nat records) +:+ "|" +:+ evidence_sha512.

Fixpoint bundle_sign (cfg : WitnessConfig) (msg : string) (ws : list string)
  : result BundleError (list (string * string)) :=
  match ws with
  | [] => Ok []
  | w :: ws' =>
      sig ← map_err BundleWitnessSigning (sign_message cfg w msg);
      sigs ← bundle_sign cfg msg ws';
      mret ((w, sig) :: sigs)
  end.

(** [now] is [None] when the clock is before the epoch. *)
Definition create_evidence_bundle (source_path : string) (file : option string)
    (witness_cfg : WitnessConfig) (retention_days : N) (now : option N)
  : result BundleError (EvidenceBundleManifest * EvidenceBundle) :=
  evidence ← map_err BundleEvidence (load_evidence_jsonl file);
  _ ← map_err BundleReplay (replay_verify_evidence evidence witness_cfg);
  evidence_bytes ← ok_or file BundleIo;
  let evidence_sha512 := sha512_hex (as_bytes evidence_bytes) in
  created ← ok_or now BundleTime;
  let payload_sha512 :=
    sha512_hex (as_bytes (payload_seed created retention_days (length evidence) evidence_sha512)) in
  let sig_msg := bundle_signing_message payload_sha512 in
  sigs ← bundle_sign witness_cfg sig_msg (take (threshold witness_cfg) (witnesses witness_cfg));
  _ ← throw_if (negb (verify_quorum_for_algorithm witness_cfg (signing_algorithm witness_cfg)
                        sig_msg sigs)) BundleWitnessQuorumFailed;
  let manifest := {|
    bm_schema := "nucleusdb/evidence-bundle/v1";
    bm_created_unix_secs := created;
    bm_retention_days := retention_days;
    bm_delete_after_unix_secs := wrapping_add64 created (retention_days * 24 * 60 * 60);
    bm_source_evidence_path := source_path;
    bm_evidence_file := "evidence.jsonl";
    bm_evidence_records := length evidence;
    bm_evidence_sha512 := evidence_sha512;
    bm_replay_verified := true;
    bm_payload_sha512 := payload_sha512;
    bm_witness_threshold := threshold witness_cfg;
    bm_witness_signatures := sigs |} in
  let json := manifest_to_json manifest in
  mret (manifest,
        {| eb_evidence_jsonl := evidence_bytes;
           eb_manifest_json := json;
           eb_manifest_sha512 := sha512_hex (as_bytes json) +:+ String newline "" |}).

(** *** Lemmas *)

(** What the writer of a record is documented to give: one line of text. *)
Definition json_line_ok (e : CommitEvidence) : Prop :=
  evidence_from_json (evidence_to_json e) = Some e ∧
  utf8_valid (as_bytes (evidence_to_json e)) = true ∧ is_blank (evidence_to_json e) = false ∧
  str_forall (λ c, negb (Ascii.eqb c newline) && negb (Ascii.eqb c carriage_return))
    (evidence_to_json e) = true.

Lemma strip_cr_id s :
  str_forall (λ c, negb (Ascii.eqb c carriage_return)) s = true → strip_cr s = s.
Proof.
  intros Hs. unfold strip_cr. destruct (strip_suffix _ s) as [r|] eqn:E; [|done].
  apply strip_suffix_Some in E as ->. rewrite str_forall_app in Hs. bool_hyps. done.
Qed.

Lemma str_forall_and (P Q : ascii → bool) s :
  str_forall (λ c, P c && Q c) s = true → str_forall P s = true ∧ str_forall Q s = true.
Proof. induction s; simpl; [done|]. rewrite !andb_true_iff. naive_solver. Qed.

(** A file to which only records were appended. *)
Fixpoint file_of (evs : list CommitEvidence) : string :=
  match evs with
  | [] => ""
  | e :: evs' => evidence_to_json e +:+ String newline (file_of evs')
  end.

Lemma file_of_snoc evs e : append_evidence_jsonl (Some (file_of evs)) e = file_of (evs ++ [e]).
Proof.
  unfold append_evidence_jsonl. simpl. induction evs as [|e0 evs IH]; simpl.
  - by rewrite str_app_nil.
  - by rewrite str_app_assoc, str_app_cons, IH.
Qed.

Lemma load_file_of evs :
  Forall json_line_ok evs → load_evidence_jsonl (Some (file_of evs)) = Ok evs.
Proof.
  unfold load_evidence_jsonl. simpl.
  induction 1 as [|e evs (Hj & Hu & Hb & (Hn & Hr)%str_forall_and) _ IH]; [done|].
  cbn [file_of]. rewrite split_char_app by done.
  destruct (split_char_cons newline (file_of evs)) as (p & ps & E). rewrite E in IH |- *.
  change (file_lines (evidence_to_json e :: p :: ps))
    with (strip_cr (evidence_to_json e) :: file_lines (p :: ps)).
  rewrite strip_cr_id by done. generalize dependent (file_lines (p :: ps)). intros lines IH.
  cbn [parse_lines]. rewrite Hu, Hb. simpl. rewrite Hj. simpl. by rewrite IH.
Qed.

Lemma payload_seed_inj c r n sha c' r' n' sha' :
  payload_seed c r n sha = payload_seed c' r' n' sha' → c = c' ∧ r = r' ∧ n = n' ∧ sha = sha'.
Proof.
  unfold payload_seed. intros E. apply (inj (String.append _)) in E.
  apply (sep_inj is_digit "|") in E as [->%dec_inj E]; [|done|apply dec_digits..].
  apply (sep_inj is_digit "|") in E as [->%dec_inj E]; [|done|apply dec_digits..].
  apply (sep_inj is_digit "|") in E as [E2%dec_inj E]; [|done|apply dec_digits..].
  split_and!; [done..|lia|done].
Qed.

Lemma sha512_hex_inj a b : sha512_hex a = sha512_hex b → a = b ∨ collides sha512 [a; b].
Proof. unfold sha512_hex. intros E%(inj hex_encode)%arr_eq. by apply sha512_inj_or_collides. Qed.
End bundle.

(** ** Properties *)

Section properties.
Context `{Sha2, Ristretto, KzgLib, SigLib, SerdeJson, Libm}.

(** Claim C6. The evidence of a history replays: run any calls on a new database in
    which every commit succeeds with [commit_with_evidence]; the list of records is
    accepted by [replay_verify_evidence] under the database's witness configuration. *)
Theorem evidence_replays db cs db' evs :
  db_inv db → db_entries db = [] → run_evidence db cs = Some (db', evs) → evs ≠ [] →
  replay_verify_evidence evs (witness_cfg db) = Ok tt.
Proof.
  intros Hi He Hrun Hne. unfold replay_verify_evidence. destruct evs as [|ev evs]; [done|].
  apply (run_evidence_loop _ _ _ _ None) in Hrun; [by rewrite He in Hrun|done|].
  unfold records_head. by rewrite He.
Qed.

(** Claim C7. Accepted evidence fixes the log: if the tree head recorded at height
    [j + 1] is the root of a log, every earlier recorded tree head is the root of the
    prefix of that log of its own height, is signed over by at least [threshold]
    distinct configured witnesses, and carries its own signature, unless two
    different ones of the strings hashed for the consistency proofs of the records and for
    the roots of the prefixes of the log have one SHA-256 hash. *)
Theorem accepted_evidence_sound evs cfg leaves i j e e' :
  replay_verify_evidence evs cfg = Ok tt → evs !! i = Some e → evs !! j = Some e' → i ≤ j →
  length leaves = j + 1 → decode_hex_exact 32 (ev_sth_root e') = Some (merkle_tree_hash leaves) →
  (decode_hex_exact 32 (ev_sth_root e) = Some (merkle_tree_hash (take (i + 1) leaves)) ∧
   ev_sth_sig e = sth_signature (N.of_nat (i + 1)) (merkle_tree_hash (take (i + 1) leaves))
     (ev_sth_timestamp e) ∧
   ∃ alg (signers : gset string), threshold cfg ≤ size signers ∧
     ∀ w, w ∈ signers → w ∈ witnesses cfg ∧ ∃ sig, (w, sig) ∈ ev_witness_sigs e ∧
       verify_signature_with_algorithm cfg alg w (msg_for_entry e) sig = Ok true)
  ∨ collides sha256 (evidence_strings evs leaves).
Proof.
  intros Hr He He' Hij Hlen Hroot. replace j with (i + (j - i)) in * by lia.
  rewrite <-(take_ge leaves (i + (j - i) + 1)) in Hroot by lia.
  destruct (accepted_roots _ _ leaves _ _ _ _ Hr He He') as [E|?]; [lia|done|left|by right].
  apply replay_verify_evidence_ok in Hr as [_ Hall].
  destruct (Hall _ _ He) as [Hh Hs (root & Hd & Hsig) _ _ (alg & _ & Hq) _].
  split; [done|]. rewrite E in Hd. injection Hd as <-. split.
  - rewrite Hsig, Hs, Hh. f_equal. lia.
  - apply quorum_spec in Hq as (_ & signers & Hsz & Hw). by exists alg, signers.
Qed.

(** The replay does not look at the digests of the delta, the certificate and
    the sheaf proof: changing them in every record changes no verdict, although they
    are part of the tree leaf of each commit. *)
Theorem replay_ignores_digests evs cfg f :
  replay_verify_evidence ((λ e, with_digests e (f e).1.1 (f e).1.2 (f e).2) <$> evs) cfg =
  replay_verify_evidence evs cfg.
Proof.
  unfold replay_verify_evidence. destruct evs as [|e evs]; [done|].
  exact (replay_loop_digests cfg 0 None (e :: evs) f).
Qed.

(** The file of a bundle and the text of its payload hash. *)
Definition bundle_strings (m : EvidenceBundleManifest) (file : string) (now days : N) : list bytes :=
  [as_bytes file; as_bytes (payload_seed now days (bm_evidence_records m) (sha512_hex (as_bytes file)))].

(** A bundle binds what it archives: a bundle that is created holds the file
    it was given, whose records replay, and a quorum's signatures of a payload hash;
    two bundles with one payload hash have the same file, creation time and retention,
    unless SHA-512 collides on the files or on the texts of the payload hash. *)
Theorem evidence_bundle_binding `{EvidenceJson} path file cfg days now m b path' file' cfg' days' now' m' b' :
  create_evidence_bundle path (Some file) cfg days (Some now) = Ok (m, b) →
  create_evidence_bundle path' (Some file') cfg' days' (Some now') = Ok (m', b') →
  (eb_evidence_jsonl b = file ∧
   (∃ evs, load_evidence_jsonl (Some file) = Ok evs ∧ length evs = bm_evidence_records m ∧
     replay_verify_evidence evs cfg = Ok tt) ∧
   verify_quorum_for_algorithm cfg (signing_algorithm cfg)
     (bundle_signing_message (bm_payload_sha512 m)) (bm_witness_signatures m) = true) ∧
  (bm_payload_sha512 m = bm_payload_sha512 m' →
   (file = file' ∧ now = now' ∧ days = days') ∨
   collides sha512 (bundle_strings m file now days ++ bundle_strings m' file' now' days')).
Proof.
  intros H1' H2'. unfold create_evidence_bundle in H1', H2'. inv_res.
  simplify_eq. cbn [eb_evidence_jsonl bm_evidence_records bm_payload_sha512 bm_witness_signatures].
  repeat match goal with x : () |- _ => destruct x end.
  bool_hyps. split; [by eauto 6|].
  intros [E|?]%sha512_hex_inj; [|by_collision]. apply (f_equal of_bytes) in E. rewrite !of_as_bytes in E.
  apply payload_seed_inj in E as (-> & -> & _ & E).
  apply sha512_hex_inj in E as [E|?]; [left|by_collision].
  apply (f_equal of_bytes) in E. by rewrite !of_as_bytes in E.
Qed.
End properties.

(** *** Witnesses *)

Section witnesses.
#[local] Existing Instances prefix_sha toy_ristretto toy_kzg toy_sig raw_json id_powf.

Definition ex_records : list CommitEvidence :=
  match run_evidence ex_db ex_calls with Some (_, evs) => evs | None => [] end.

Lemma evidence_replays_witness : replay_verify_evidence ex_records (witness_cfg ex_db) = Ok tt.
Proof.
  assert (∃ db', run_evidence ex_db ex_calls = Some (db', ex_records)) as [db' Hrun].
  { unfold ex_records. destruct (run_evidence ex_db ex_calls) as [[db' evs]|] eqn:E; [by exists db'|].
    apply (f_equal (λ o, match o with Some _ => true | None => false end)) in E.
    vm_compute in E. discriminate E. }
  apply (evidence_replays ex_db ex_calls db' ex_records);
    [apply ex_db_inv|by vm_compute|exact Hrun|by vm_compute].
Defined.

Definition ex_record (i : nat) : CommitEvidence :=
  match ex_records !! i with Some e => e | None => from_entry None ex_entry None end.
Definition ex_log : list NodeHash := ct_leaves (calls ex_db ex_calls).

Lemma accepted_evidence_sound_witness :
  (decode_hex_exact 32 (ev_sth_root (ex_record 0)) = Some (merkle_tree_hash (take 1 ex_log)) ∧
   ev_sth_sig (ex_record 0) = sth_signature 1 (merkle_tree_hash (take 1 ex_log))
     (ev_sth_timestamp (ex_record 0)) ∧
   ∃ alg (signers : gset string), threshold ex_cfg ≤ size signers ∧
     ∀ w, w ∈ signers → w ∈ witnesses ex_cfg ∧ ∃ sig, (w, sig) ∈ ev_witness_sigs (ex_record 0) ∧
       verify_signature_with_algorithm ex_cfg alg w (msg_for_entry (ex_record 0)) sig = Ok true)
  ∨ collides sha256 (evidence_strings ex_records ex_log).
Proof.
  apply (accepted_evidence_sound ex_records ex_cfg ex_log 0 2 (ex_record 0) (ex_record 2));
    [by vm_compute|by vm_compute|by vm_compute|lia|by vm_compute|].
  apply (bool_decide_eq_true_1 (decode_hex_exact 32 (ev_sth_root (ex_record 2)) =
    Some (merkle_tree_hash ex_log))). by vm_compute.
Defined.

(** Records are stored by their height. *)
Definition ex_json : EvidenceJson := {|
  evidence_to_json := λ e, dec (ev_height e);
  evidence_from_json := λ s, n ← parse_u64 s; ex_records !! (N.to_nat n - 1);
  manifest_to_json := λ m, bm_payload_sha512 m
|}.
#[local] Existing Instance ex_json.
Definition ex_file : string := file_of ex_records.
Definition ex_bundle : EvidenceBundleManifest * EvidenceBundle :=
  match create_evidence_bundle "log" (Some ex_file) ex_cfg 30 (Some 7%N) with
  | Ok mb => mb
  | Err _ => (Build_EvidenceBundleManifest "" 0 0 0 "" "" 0 "" false "" 0 [],
              Build_EvidenceBundle "" "" "")
  end.

Lemma evidence_bundle_binding_witness :
  (eb_evidence_jsonl ex_bundle.2 = ex_file ∧
   (∃ evs, load_evidence_jsonl (Some ex_file) = Ok evs ∧
     length evs = bm_evidence_records ex_bundle.1 ∧ replay_verify_evidence evs ex_cfg = Ok tt) ∧
   verify_quorum_for_algorithm ex_cfg (signing_algorithm ex_cfg)
     (bundle_signing_message (bm_payload_sha512 ex_bundle.1))
     (bm_witness_signatures ex_bundle.1) = true) ∧
  (bm_payload_sha512 ex_bundle.1 = bm_payload_sha512 ex_bundle.1 →
   (ex_file = ex_file ∧ 7 = 7 ∧ 30 = 30)%N ∨
   collides sha512 (bundle_strings ex_bundle.1 ex_file 7 30 ++ bundle_strings ex_bundle.1 ex_file 7 30)).
Proof.
  assert (create_evidence_bundle "log" (Some ex_file) ex_cfg 30 (Some 7%N) = Ok ex_bundle) as Hb
    by (apply is_ok_match; by vm_compute).
  apply (evidence_bundle_binding "log" ex_file ex_cfg 30 7 ex_bundle.1 ex_bundle.2
    "log" ex_file ex_cfg 30 7 ex_bundle.1 ex_bundle.2); rewrite <-surjective_pairing; exact Hb.
Defined.
End witnesses.
