(* ===== verification/Persistence.v ===== *)
(** * Snapshots and the write-ahead log: [src/src/persistence.rs]

    A redb file is the state of an [action]: [None] is a missing file.  A write
    transaction commits only when its body succeeds; [Database::create] leaves an empty
    file even when the body fails.  The redb tables and [serde_json] are the classes
    [Redb] and [PersistJson]; faults of the file system are not modelled. *)
From S2P Require Export Evidence.

(** ** The redb tables *)

(** A table of string keys and one of integer keys; iteration is in key order. *)
Class Redb := {
  StrTable : Type;
  st_empty : StrTable;
  st_get : StrTable → string → option bytes;
  st_insert : StrTable → string → bytes → StrTable;
  NumTable : Type;
  nt_empty : NumTable;
  nt_insert : NumTable → N → bytes → NumTable;
  nt_iter : NumTable → list (N * bytes)
}.

(** Insertion into an ordered map, seen through its iteration. *)
Fixpoint ordered_insert (k : N) (v : bytes) (l : list (N * bytes)) : list (N * bytes) :=
  match l with
  | [] => [(k, v)]
  | (k0, v0) :: l' =>
      if (k <? k0)%N then (k, v) :: l
      else if (k =? k0)%N then (k, v) :: l'
      else (k0, v0) :: ordered_insert k v l'
  end.

Class Redb_Laws (R : Redb) : Prop := {
  st_get_empty k : st_get st_empty k = None;
  st_get_insert t k v k' : st_get (st_insert t k v) k' = if decide (k = k') then Some v else st_get t k';
  nt_iter_empty : nt_iter nt_empty = [];
  nt_iter_insert t k v : nt_iter (nt_insert t k v) = ordered_insert k v (nt_iter t)
}.

#[export] Instance CommitmentPolicy_eq_dec : EqDecision CommitmentPolicy.
Proof. solve_decision. Defined.
#[export] Instance SecurityAssumption_eq_dec : EqDecision SecurityAssumption.
Proof. solve_decision. Defined.
#[export] Instance ReductionContract_eq_dec : EqDecision ReductionContract.
Proof. solve_decision. Defined.
#[export] Instance ParameterSet_eq_dec : EqDecision ParameterSet.
Proof. solve_decision. Defined.

(** ** Records on disk *)

Record SnapshotV1 := {
  snap_schema : string;
  snap_backend : VcBackend;
  snap_security_params : ParameterSet;
  snap_reduction_contracts : list ReductionContract;
  snap_kzg_trusted_setup : option TrustedSetupArtifact;
  snap_state : State;
  snap_entries : list CommitEntry;
  snap_ct_leaves : list NodeHash;
  snap_current_sth : option SignedTreeHead;
  snap_keymap : option KeyMap;
  snap_write_mode : WriteMode;
  snap_monotone_seals : list NodeHash;
  snap_type_map : option TypeMap;
  snap_blob_store : option BlobStore;
  snap_vector_index : option VectorIndex
}.

Record WalMetaV1 := {
  meta_schema : string;
  meta_backend : VcBackend;
  meta_security_params : ParameterSet;
  meta_reduction_contracts : list ReductionContract;
  meta_kzg_trusted_setup : option TrustedSetupArtifact;
  meta_initial_state : State;
  meta_keymap : option KeyMap;
  meta_write_mode : WriteMode;
  meta_type_map : option TypeMap;
  meta_blob_store : option BlobStore;
  meta_vector_index : option VectorIndex
}.

Record WalEventV1 := {
  ev_schema : string;
  ev_seq : N;
  ev_delta : Delta;
  ev_entry : CommitEntry;
  ev_ct_leaf : NodeHash
}.

(** [serde_json::to_vec] and [from_slice] on the three records. *)
Class PersistJson := {
  snapshot_to_vec : SnapshotV1 → option bytes;
  snapshot_from_slice : bytes → option SnapshotV1;
  meta_to_vec : WalMetaV1 → option bytes;
  meta_from_slice : bytes → option WalMetaV1;
  event_to_vec : WalEventV1 → option bytes;
  event_from_slice : bytes → option WalEventV1
}.

Inductive PersistenceError :=
| PersistIo
| PersistRedb
| PersistJsonErr
| MissingSnapshot
| MissingWalMeta
| WalMetaMismatch (reason : string)
| SchemaMismatch (expected got : string)
| LoadPanic (e : SecurityPolicyError). (** the [expect] of [NucleusDb::new] *)

Definition snapshot_schema : string := "nucleusdb/persistence-snapshot/v1".
Definition wal_meta_schema : string := "nucleusdb/persistence-wal-meta/v1".
Definition wal_event_schema : string := "nucleusdb/persistence-wal-event/v1".
Definition SNAP_KEY : string := "latest".
Definition WAL_META_KEY : string := "meta".

Section persistence.
Context `{Sha2, Ristretto, KzgLib, SigLib, SerdeJson, Libm, Redb, PersistJson}.

(** A file and the tables it has. *)
Record RedbFile := mk_RedbFile {
  f_snap : option StrTable;
  f_meta : option StrTable;
  f_events : option NumTable
}.
Definition new_file : RedbFile := mk_RedbFile None None None.

Definition open_write {T} (body : RedbFile → result PersistenceError (RedbFile * T))
  : action (option RedbFile) PersistenceError T := λ file,
  let f := default new_file file in
  match body f with
  | Ok (f', x) => (Some f', Ok x)
  | Err e => (Some f, Err e)
  end.

(** ** Snapshots *)

Definition snapshot_of (db : NucleusDb) : SnapshotV1 := {|
  snap_schema := snapshot_schema;
  snap_backend := backend db;
  snap_security_params := security_params db;
  snap_reduction_contracts := reduction_contracts db;
  snap_kzg_trusted_setup := kzg_trusted_setup db;
  snap_state := state db;
  snap_entries := db_entries db;
  snap_ct_leaves := ct_leaves db;
  snap_current_sth := current_sth db;
  snap_keymap := Some (keymap db);
  snap_write_mode := write_mode db;
  snap_monotone_seals := monotone_seals db;
  snap_type_map := Some (type_map db);
  snap_blob_store := Some (blob_store db);
  snap_vector_index := Some (vector_index db)
|}.

Definition save_snapshot (db : NucleusDb) : action (option RedbFile) PersistenceError () :=
  open_write (λ f,
    let table := default st_empty (f_snap f) in
    raw ← ok_or (snapshot_to_vec (snapshot_of db)) PersistJsonErr;
    mret (mk_RedbFile (Some (st_insert table SNAP_KEY raw)) (f_meta f) (f_events f), tt)).

(** [now] is the clock read by the default stores. *)
Definition load_snapshot
    (load_artifact : string → result TrustedSetupError TrustedSetupArtifact) (now : N)
    (file : option RedbFile) (witness_cfg : WitnessConfig) : result PersistenceError NucleusDb :=
  f ← ok_or file PersistRedb;
  table ← ok_or (f_snap f) PersistRedb;
  raw ← ok_or (st_get table SNAP_KEY) MissingSnapshot;
  snapshot ← ok_or (snapshot_from_slice raw) PersistJsonErr;
  _ ← throw_if (negb (bool_decide (snap_schema snapshot = snapshot_schema)))
        (SchemaMismatch snapshot_schema (snap_schema snapshot));
  db ← map_err LoadPanic
         (db_new load_artifact now (snap_state snapshot) (snap_backend snapshot) witness_cfg);
  mret (mk_NucleusDb (backend db) (snap_state snapshot)
          (default KM.new (snap_keymap snapshot)) (snap_entries snapshot)
          (Protocol.witness_cfg db) (snap_security_params snapshot)
          (snap_reduction_contracts snapshot) (snap_kzg_trusted_setup snapshot)
          (snap_ct_leaves snapshot) (snap_current_sth snapshot) (snap_write_mode snapshot)
          (snap_monotone_seals snapshot) (default tm_new (snap_type_map snapshot))
          (default (Blob.new now) (snap_blob_store snapshot))
          (default (VI.new now) (snap_vector_index snapshot))).

(** ** The write-ahead log *)

Definition meta_of (db : NucleusDb) : WalMetaV1 := {|
  meta_schema := wal_meta_schema;
  meta_backend := backend db;
  meta_security_params := security_params db;
  meta_reduction_contracts := reduction_contracts db;
  meta_kzg_trusted_setup := kzg_trusted_setup db;
  meta_initial_state := state db;
  meta_keymap := Some (keymap db);
  meta_write_mode := write_mode db;
  meta_type_map := Some (type_map db);
  meta_blob_store := Some (blob_store db);
  meta_vector_index := Some (vector_index db)
|}.

(** The comparison of an existing header with the database. *)
Definition meta_matches (got expected : WalMetaV1) : bool :=
  bool_decide (meta_backend got = meta_backend expected) &&
  bool_decide (meta_security_params got = meta_security_params expected) &&
  bool_decide (meta_reduction_contracts got = meta_reduction_contracts expected) &&
  bool_decide (meta_kzg_trusted_setup got = meta_kzg_trusted_setup expected) &&
  bool_decide (meta_initial_state got = meta_initial_state expected) &&
  bool_decide (default KM.new (meta_keymap got) = default KM.new (meta_keymap expected)).

Definition check_meta_schema (m : WalMetaV1) : result PersistenceError () :=
  throw_if (negb (bool_decide (meta_schema m = wal_meta_schema)))
    (SchemaMismatch wal_meta_schema (meta_schema m)).

Definition init_wal (db : NucleusDb) : action (option RedbFile) PersistenceError () :=
  open_write (λ f,
    let meta := default st_empty (f_meta f) in
    let events := default nt_empty (f_events f) in
    let expected := meta_of db in
    match st_get meta WAL_META_KEY with
    | Some raw =>
        got ← ok_or (meta_from_slice raw) PersistJsonErr;
        _ ← check_meta_schema got;
        _ ← throw_if (negb (meta_matches got expected))
              (WalMetaMismatch "existing WAL metadata does not match tenant configuration");
        mret (mk_RedbFile (f_snap f) (Some meta) (Some events), tt)
    | None =>
        raw ← ok_or (meta_to_vec expected) PersistJsonErr;
        mret (mk_RedbFile (f_snap f) (Some (st_insert meta WAL_META_KEY raw)) (Some events), tt)
    end).

Definition event_of (db : NucleusDb) (delta : Delta) (entry : CommitEntry) (ct_leaf : NodeHash)
  : WalEventV1 := {|
  ev_schema := wal_event_schema;
  ev_seq := N.of_nat (length (db_entries db));
  ev_delta := delta;
  ev_entry := entry;
  ev_ct_leaf := ct_leaf
|}.

Definition append_wal_event (delta : Delta) (db : NucleusDb) (entry : CommitEntry)
  : action (option RedbFile) PersistenceError () :=
  open_write (λ f,
    let meta := default st_empty (f_meta f) in
    let events := default nt_empty (f_events f) in
    meta_raw ← ok_or (st_get meta WAL_META_KEY) MissingWalMeta;
    meta_val ← ok_or (meta_from_slice meta_raw) PersistJsonErr;
    _ ← check_meta_schema meta_val;
    ct_leaf ← ok_or (last (ct_leaves db))
                (WalMetaMismatch "cannot append WAL event: ct_leaves is empty after commit");
    let payload := event_of db delta entry ct_leaf in
    raw ← ok_or (event_to_vec payload) PersistJsonErr;
    mret (mk_RedbFile (f_snap f) (Some meta) (Some (nt_insert events (ev_seq payload) raw)), tt)).

Definition seq_mismatch (key_seq got : N) : PersistenceError :=
  WalMetaMismatch ("WAL event sequence mismatch for key " +:+ dec key_seq +:+
    ": payload has " +:+ dec got).
Definition height_mismatch (key_seq got : N) : PersistenceError :=
  WalMetaMismatch ("WAL event commit height mismatch for key " +:+ dec key_seq +:+
    ": entry has height " +:+ dec got).

(** One row of the log, applied to the database being rebuilt. *)
Definition replay_event (db : NucleusDb) (row : N * bytes) : result PersistenceError NucleusDb :=
  let '(key_seq, raw) := row in
  event ← ok_or (event_from_slice raw) PersistJsonErr;
  _ ← throw_if (negb (bool_decide (ev_schema event = wal_event_schema)))
        (SchemaMismatch wal_event_schema (ev_schema event));
  _ ← throw_if (negb (ev_seq event =? key_seq)%N) (seq_mismatch key_seq (ev_seq event));
  _ ← throw_if (negb (height (ev_entry event) =? key_seq)%N)
        (height_mismatch key_seq (height (ev_entry event)));
  mret (set_ct (set_entries (set_state db (Store.apply (state db) (ev_delta event)))
                  (db_entries db ++ [ev_entry event]))
          (ct_leaves db ++ [ev_ct_leaf event]) (Some (sth (ev_entry event)))).

Fixpoint replay_events (db : NucleusDb) (rows : list (N * bytes))
  : result PersistenceError NucleusDb :=
  match rows with
  | [] => Ok db
  | row :: rows' => db' ← replay_event db row; replay_events db' rows'
  end.

Definition load_wal
    (load_artifact : string → result TrustedSetupError TrustedSetupArtifact) (now : N)
    (file : option RedbFile) (witness_cfg : WitnessConfig) : result PersistenceError NucleusDb :=
  f ← ok_or file PersistRedb;
  meta ← ok_or (f_meta f) PersistRedb;
  events ← ok_or (f_events f) PersistRedb;
  meta_raw ← ok_or (st_get meta WAL_META_KEY) MissingWalMeta;
  wal_meta ← ok_or (meta_from_slice meta_raw) PersistJsonErr;
  _ ← check_meta_schema wal_meta;
  db ← map_err LoadPanic
         (db_new load_artifact now (meta_initial_state wal_meta) (meta_backend wal_meta) witness_cfg);
  replay_events
    (mk_NucleusDb (backend db) (meta_initial_state wal_meta)
       (default KM.new (meta_keymap wal_meta)) (db_entries db) (Protocol.witness_cfg db)
       (meta_security_params wal_meta) (meta_reduction_contracts wal_meta)
       (meta_kzg_trusted_setup wal_meta) (ct_leaves db) (current_sth db)
       (meta_write_mode wal_meta) (monotone_seals db) (default tm_new (meta_type_map wal_meta))
       (default (Blob.new now) (meta_blob_store wal_meta))
       (default (VI.new now) (meta_vector_index wal_meta)))
    (nt_iter events).

(** A new log is written to a temporary file, which then replaces the old one. *)
Definition truncate_wal (db : NucleusDb) : action (option RedbFile) PersistenceError () :=
  λ file, match init_wal db None with
          | (tmp, Ok _) => (tmp, Ok tt)
          | (_, Err e) => (file, Err e)
          end.

(** The state is the pair of the snapshot file and the log file. *)
Definition persist_snapshot_and_sync_wal (db : NucleusDb)
  : action (option RedbFile * option RedbFile) PersistenceError () := λ '(snap, wal),
  match save_snapshot db snap with
  | (snap', Ok _) => let '(wal', r) := truncate_wal db wal in ((snap', wal'), r)
  | (snap', Err e) => ((snap', wal), Err e)
  end.

(** ** Snapshots are faithful *)

(** What [load_snapshot] gives back: the database with the given witnesses. *)
Definition with_cfg (db : NucleusDb) (cfg : WitnessConfig) : NucleusDb :=
  mk_NucleusDb (backend db) (state db) (keymap db) (db_entries db) cfg (security_params db)
    (reduction_contracts db) (kzg_trusted_setup db) (ct_leaves db) (current_sth db)
    (write_mode db) (monotone_seals db) (type_map db) (blob_store db) (vector_index db).

(** A record that survives serialisation (JSON has no infinities and no NaN). *)
Definition faithful {A} (to_vec : A → option bytes) (from_slice : bytes → option A) (a : A) : Prop :=
  ∃ raw, to_vec a = Some raw ∧ from_slice raw = Some a.

Lemma db_new_backend load now init b cfg db :
  db_new load now init b cfg = Ok db →
  backend db = b ∧ db_entries db = [] ∧ ct_leaves db = [] ∧ current_sth db = None ∧
  monotone_seals db = [] ∧ witness_cfg db = cfg.
Proof. unfold db_new, with_security. intros Hs. by inv_res. Qed.

Lemma load_saved `{!Redb_Laws _} load now db file cfg :
  faithful snapshot_to_vec snapshot_from_slice (snapshot_of db) →
  load_snapshot load now (save_snapshot db file).1 cfg =
  match db_new load now (state db) (backend db) cfg with
  | Ok _ => Ok (with_cfg db cfg)
  | Err e => Err (LoadPanic e)
  end.
Proof.
  intros (raw & Hto & Hfrom). unfold save_snapshot, open_write. rewrite Hto. simpl.
  unfold load_snapshot. simpl. rewrite st_get_insert, decide_True by done. simpl. rewrite Hfrom. simpl.
  destruct (db_new _ _ _ _ _) as [dbn|e] eqn:Hn; [|done]. simpl.
  destruct (db_new_backend _ _ _ _ _ _ Hn) as (Hb & _ & _ & _ & _ & Hc). by rewrite Hb, Hc.
Qed.

(** ** Runs that log every commit *)

(** A call with its log entry, as the tenant registry makes it. *)
Definition logged_call (s : NucleusDb * option RedbFile) (c : Call)
  : option (NucleusDb * option RedbFile) :=
  match c with
  | CallCommit delta views now =>
      match commit delta views now s.1 with
      | (db', Ok e) =>
          match append_wal_event delta db' e s.2 with
          | (file', Ok _) => Some (db', file')
          | (_, Err _) => None
          end
      | (_, Err _) => None
      end
  | c => Some (call s.1 c, s.2)
  end.
Fixpoint logged_run (s : NucleusDb * option RedbFile) (cs : list Call)
  : option (NucleusDb * option RedbFile) :=
  match cs with
  | [] => Some s
  | c :: cs' => s' ← logged_call s c; logged_run s' cs'
  end.

(** The events a run logs. *)
Definition call_events (db : NucleusDb) (c : Call) : list WalEventV1 :=
  match c with
  | CallCommit delta views now =>
      match commit delta views now db with
      | (db', Ok e) =>
          match last (ct_leaves db') with Some l => [event_of db' delta e l] | None => [] end
      | (_, Err _) => []
      end
  | _ => []
  end.
Fixpoint run_events (db : NucleusDb) (cs : list Call) : list WalEventV1 :=
  match cs with
  | [] => []
  | c :: cs' => call_events db c ++ run_events (call db c) cs'
  end.

Lemma ordered_insert_last k v l :
  (∀ k0, k0 ∈ l.*1 → (k0 < k)%N) → ordered_insert k v l = l ++ [(k, v)].
Proof.
  induction l as [|[k0 v0] l IH]; intros Hk; [done|]. simpl.
  assert (k0 < k)%N by (apply Hk; simpl; set_solver).
  destruct (N.ltb_spec k k0); [lia|]. destruct (N.eqb_spec k k0); [lia|].
  rewrite IH; [done|]. intros k1 Hk1. apply Hk. simpl. set_solver.
Qed.

(** The log file and the database after [evs] have been logged. *)
Record wal_inv (db0 : NucleusDb) (evs : list WalEventV1) (db : NucleusDb)
    (file : option RedbFile) : Prop := {
  wi_file : ∃ f m t raw, file = Some f ∧ f_meta f = Some m ∧ f_events f = Some t ∧
    st_get m WAL_META_KEY = Some raw ∧ meta_from_slice raw = Some (meta_of db0) ∧
    Forall2 (λ row ev, row.1 = ev_seq ev ∧ event_to_vec ev = Some row.2) (nt_iter t) evs;
  wi_seq : ∀ i ev, evs !! i = Some ev →
    ev_seq ev = N.of_nat (i + 1) ∧ ev_schema ev = wal_event_schema ∧
    height (ev_entry ev) = N.of_nat (i + 1);
  wi_entries : db_entries db = ev_entry <$> evs;
  wi_leaves : ct_leaves db = ev_ct_leaf <$> evs;
  wi_state : state db = foldl Store.apply (state db0) (ev_delta <$> evs);
  wi_backend : backend db = backend db0 ∧ kzg_trusted_setup db = kzg_trusted_setup db0;
  wi_db : db_inv db
}.

Lemma init_wal_inv `{!Redb_Laws _} db0 file0 :
  db_inv db0 → db_entries db0 = [] →
  (∀ f m, file0 = Some f → f_meta f = Some m → st_get m WAL_META_KEY = None) →
  (∀ f t, file0 = Some f → f_events f = Some t → nt_iter t = []) →
  faithful meta_to_vec meta_from_slice (meta_of db0) →
  (init_wal db0 file0).2 = Ok tt ∧ wal_inv db0 [] db0 (init_wal db0 file0).1.
Proof.
  intros Hi He Hm Ht (raw & Hto & Hfrom). unfold init_wal, open_write.
  assert (st_get (default st_empty (f_meta (default new_file file0))) WAL_META_KEY = None) as ->.
  { destruct file0 as [f|]; simpl; [|apply st_get_empty].
    destruct (f_meta f) as [m|] eqn:Hf; simpl; [by eapply Hm|apply st_get_empty]. }
  rewrite Hto. simpl. split; [done|]. split; [|done|done| |done|done|done].
  - do 4 eexists. split_and!; [done..|by rewrite st_get_insert, decide_True|done|].
    destruct file0 as [f|]; simpl; [|by rewrite nt_iter_empty].
    destruct (f_events f) as [t|] eqn:Hf; simpl; [by rewrite (Ht f t)|by rewrite nt_iter_empty].
  - apply nil_length_inv. by rewrite (inv_len _ Hi), He.
Qed.

Lemma wal_inv_frame db0 evs db db' file :
  log_frame db db' → wal_inv db0 evs db file → wal_inv db0 evs db' file.
Proof.
  intros Hf [Hfile Hseq He Hl Hs [Hb Hz] Hi]. split; [done|done|..].
  - by rewrite (lf_entries _ _ Hf).
  - by rewrite (lf_ct _ _ Hf).
  - by rewrite (lf_state _ _ Hf).
  - by rewrite (lf_backend _ _ Hf), (lf_setup _ _ Hf).
  - by eapply log_frame_inv.
Qed.

Lemma wal_inv_commit `{!Redb_Laws _} db0 evs db file delta views now db' e file' :
  wal_inv db0 evs db file → commit delta views now db = (db', Ok e) →
  append_wal_event delta db' e file = (file', Ok tt) →
  ∃ l, last (ct_leaves db') = Some l ∧ wal_inv db0 (evs ++ [event_of db' delta e l]) db' file'.
Proof.
  intros [(f & m & t & raw & -> & Hm & Ht & Hraw & Hfrom & Hrows) Hseq He Hl Hs [Hb Hz] Hi] Hc Ha.
  pose proof (commit_ok_inv _ _ _ _ _ _ Hi Hc) as Hi'.
  pose proof (new_entry_ok _ _ _ _ _ _ Hi Hc) as [Hh _ _].
  destruct (commit_ok_post _ _ _ _ _ _ Hc) as [Pe Ps Pl _ _ _ Pf].
  destruct Pf as (_ & _ & _ & _ & Fb & Fz & _).
  assert (length (db_entries db) = length evs) as Hlen by (by rewrite He, length_fmap).
  eexists. split; [rewrite Pl, last_snoc; done|].
  unfold append_wal_event, open_write in Ha. simpl in Ha. rewrite Hm, Ht in Ha. simpl in Ha.
  rewrite Hraw in Ha. simpl in Ha. rewrite Hfrom in Ha. simpl in Ha. rewrite Pl, last_snoc in Ha. simpl in Ha.
  destruct (event_to_vec _) as [eraw|] eqn:Hev; [|done]. injection Ha as <-.
  split.
  - do 4 eexists. split_and!; [done..|]. rewrite nt_iter_insert, ordered_insert_last.
    + apply Forall2_app; [done|]. by constructor.
    + intros k0 ([k1 v1] & -> & Hin)%list_elem_of_fmap. apply list_elem_of_lookup in Hin as [i Hi0].
      destruct (Forall2_lookup_l _ _ _ _ _ Hrows Hi0) as (ev & Hiev & Hk & _). simpl in Hk |- *.
      pose proof (lookup_lt_Some _ _ _ Hiev). rewrite Hk, (proj1 (Hseq _ _ Hiev)), Pe, length_app.
      simpl. lia.
  - intros i ev [[_ Hev']|[-> <-]]%lookup_snoc_Some; [by apply Hseq|].
    simpl. rewrite Pe, length_app, Hh, Hlen. simpl. done.
  - rewrite Pe, He, fmap_app. done.
  - rewrite Pl, Hl, fmap_app. done.
  - rewrite Ps, Hs, fmap_app, foldl_app. done.
  - by rewrite Fb, Fz.
  - done.
Qed.

Lemma logged_run_inv `{!Redb_Laws _} db0 evs db file cs db' file' :
  wal_inv db0 evs db file → logged_run (db, file) cs = Some (db', file') →
  wal_inv db0 (evs ++ run_events db cs) db' file'.
Proof.
  revert evs db file. induction cs as [|c cs IH]; intros evs db file Hw Hrun.
  { injection Hrun as <- <-. simpl. by rewrite app_nil_r. }
  assert (∀ db1, log_frame db db1 → call db c = db1 → logged_run (db1, file) cs = Some (db', file') →
    wal_inv db0 (evs ++ run_events db1 cs) db' file') as Hframe.
  { intros db1 Hf _ Hr. eapply IH; [by eapply wal_inv_frame|done]. }
  destruct c as [delta views now|key v now|key now| |now|];
    cbn [logged_run logged_call mbind option_bind fst snd run_events call_events call app] in *;
    try (eapply Hframe; [|done|exact Hrun];
         (apply put_typed_frame || apply touch_frame || apply tick_frame || by split)).
  destruct (commit delta views now db) as [db1 [e|]] eqn:Hc; [|done].
  destruct (append_wal_event delta db1 e file) as [file1 [[]|]] eqn:Ha; [|done].
  destruct (wal_inv_commit _ _ _ _ _ _ _ _ _ _ Hw Hc Ha) as (l & Hl & Hw1). rewrite Hl. simpl in Hrun.
  rewrite app_assoc. by eapply IH.
Qed.

(** ** Replaying the log *)

Lemma replay_events_app db rows rows' :
  replay_events db (rows ++ rows') = (db' ← replay_events db rows; replay_events db' rows').
Proof.
  revert db. induction rows as [|row rows IH]; intros db; [done|]. simpl.
  destruct (replay_event db row); simpl; [apply IH|done].
Qed.

(** Any rows are replayed, contiguous or not. *)
Lemma replay_events_ok db rows evs :
  Forall2 (λ row ev, row.1 = ev_seq ev ∧ event_to_vec ev = Some row.2) rows evs →
  Forall (faithful event_to_vec event_from_slice) evs →
  Forall (λ ev, ev_schema ev = wal_event_schema ∧ height (ev_entry ev) = ev_seq ev) evs →
  replay_events db rows =
    Ok (set_ct (set_entries (set_state db (foldl Store.apply (state db) (ev_delta <$> evs)))
                  (db_entries db ++ (ev_entry <$> evs)))
          (ct_leaves db ++ (ev_ct_leaf <$> evs))
          (match last evs with Some ev => Some (sth (ev_entry ev)) | None => current_sth db end)).
Proof.
  intros Hrows. revert db. induction Hrows as [|[k raw] ev rows evs [Hk Hraw] Hrows IH];
    intros db Hf Hseq.
  { simpl. rewrite !app_nil_r. by destruct db. }
  apply Forall_cons in Hf as [(raw' & Hto & Hfrom) Hf]. simpl in Hk, Hraw.
  rewrite Hraw in Hto. injection Hto as <-.
  apply Forall_cons in Hseq as [(Hsch & Hh) Hseq].
  cbn [replay_events]. unfold replay_event. rewrite Hfrom. simpl. rewrite Hk, Hsch, Hh.
  rewrite bool_decide_eq_true_2 by done. simpl. rewrite !N.eqb_refl. simpl.
  rewrite IH by done. simpl. rewrite <-!app_assoc. destruct evs as [|ev2 evs]; [done|].
  change (last (ev :: ev2 :: evs)) with (last (ev2 :: evs)).
  destruct (last (ev2 :: evs)) eqn:E; [done|]. by apply last_None in E.
Qed.

(** What the log keeps of a run: the state and the transparency log; and what it does
    not: keys, types, payloads and seals made since the log was started. *)
Record recovered (db0 db db' : NucleusDb) (cfg : WitnessConfig) : Prop := {
  rec_state : state db' = state db;
  rec_entries : db_entries db' = db_entries db;
  rec_leaves : ct_leaves db' = ct_leaves db;
  rec_sth : current_sth db' = current_sth db;
  rec_inv : db_inv db';
  rec_cfg : witness_cfg db' = cfg;
  rec_typed : keymap db' = keymap db0 ∧ type_map db' = type_map db0 ∧
    blob_store db' = blob_store db0 ∧ vector_index db' = vector_index db0;
  rec_mode : write_mode db' = write_mode db0 ∧ monotone_seals db' = []
}.

Lemma load_wal_recovers load now db0 evs db file cfg dbn :
  wal_inv db0 evs db file → Forall (faithful event_to_vec event_from_slice) evs →
  keymap_wf (keymap db0) →
  db_new load now (state db0) (backend db0) cfg = Ok dbn →
  ∃ db', load_wal load now file cfg = Ok db' ∧ recovered db0 db db' cfg.
Proof.
  intros [(f & m & t & raw & -> & Hm & Ht & Hraw & Hfrom & Hrows) Hseq He Hl Hs [Hb Hz] Hi] Hf Hk Hn.
  unfold load_wal. simpl. rewrite Hm. simpl. rewrite Ht. simpl. rewrite Hraw. simpl. rewrite Hfrom. simpl.
  rewrite Hn. simpl. rewrite (replay_events_ok _ _ evs Hrows Hf).
  2: { apply Forall_lookup. intros i ev (Hs1 & Hs2 & ->)%Hseq. by rewrite Hs1. }
  destruct (db_new_backend _ _ _ _ _ _ Hn) as (Eb & Ee & El & Eh & Esl & Ec).
  eexists. split; [done|].
  assert (match last evs with Some ev => Some (sth (ev_entry ev)) | None => None end = current_sth db)
    as Hsth.
  { rewrite (inv_head _ Hi), He, fmap_last. by destruct (last evs). }
  split; simpl; rewrite ?Ee, ?El, ?Eh, ?Esl, ?Eb, ?Ec, ?Hsth; try done.
  apply (db_inv_frame db); simpl; congruence.
Qed.

(** A log that was started for another state refuses the database, in particular the
    database that [load_wal] rebuilt from it. *)
Lemma init_wal_stale f m raw db0 db :
  f_meta f = Some m → st_get m WAL_META_KEY = Some raw → meta_from_slice raw = Some (meta_of db0) →
  state db ≠ state db0 →
  init_wal db (Some f) =
    (Some f, Err (WalMetaMismatch "existing WAL metadata does not match tenant configuration")).
Proof.
  intros Hm Hraw Hfrom Hne. unfold init_wal, open_write. simpl. rewrite Hm. simpl.
  rewrite Hraw, Hfrom. simpl. unfold meta_matches. simpl.
  rewrite (bool_decide_eq_false_2 (state db0 = state db)) by congruence.
  by rewrite andb_false_r.
Qed.

(** ** Properties *)

(** Snapshots round-trip: when the JSON of the snapshot is faithful, saving
    succeeds and loading gives back the whole database under the given witness
    configuration, provided that configuration passes the default parameters;
    otherwise loading panics. *)
Theorem snapshot_roundtrip `{!Redb_Laws _} load now db file cfg :
  faithful snapshot_to_vec snapshot_from_slice (snapshot_of db) →
  (save_snapshot db file).2 = Ok tt ∧
  load_snapshot load now (save_snapshot db file).1 cfg =
  match db_new load now (state db) (backend db) cfg with
  | Ok _ => Ok (with_cfg db cfg)
  | Err e => Err (LoadPanic e)
  end.
Proof.
  intros Hf. split; [|by apply load_saved]. destruct Hf as (raw & Hto & _).
  unfold save_snapshot, open_write. by rewrite Hto.
Qed.

(** Claim C9. The write-ahead log recovers a run: start a log for a new database, make
    any calls in which every commit succeeds and is logged, and load the log; the
    result has the state, the entries, the tree leaves and the tree head of the live
    database and is again in the invariant, while its keys, types, payloads and seals
    are those at the start of the log. *)
Theorem wal_recovery `{!Redb_Laws _} load now db0 cs db file cfg :
  db_inv db0 → db_entries db0 = [] →
  faithful meta_to_vec meta_from_slice (meta_of db0) →
  Forall (faithful event_to_vec event_from_slice) (run_events db0 cs) →
  logged_run (db0, (init_wal db0 None).1) cs = Some (db, file) →
  is_ok (db_new load now (state db0) (backend db0) cfg) = true →
  ∃ db', load_wal load now file cfg = Ok db' ∧ recovered db0 db db' cfg.
Proof.
  intros Hi He Hm Hev Hrun Hok.
  destruct (init_wal_inv db0 None Hi He) as [_ Hw]; [done|done|done|].
  apply (logged_run_inv _ _ _ _ _ _ _ Hw) in Hrun. simpl in Hrun.
  destruct (db_new _ _ _ _ _) as [dbn|] eqn:Hn; [|done].
  eapply load_wal_recovers; [exact Hrun|done|apply Hi|exact Hn].
Qed.

(** A checkpoint forgets the log: after [truncate_wal] of a database with
    commits, [load_wal] gives back the state and the typed layer but no entry, no tree
    leaf, no tree head and no seal, so that no consistency proof from an earlier head
    can be served. *)
Theorem checkpoint_forgets_log `{!Redb_Laws _} load now db file cfg :
  faithful meta_to_vec meta_from_slice (meta_of db) →
  is_ok (db_new load now (state db) (backend db) cfg) = true →
  ∃ db', load_wal load now (truncate_wal db file).1 cfg = Ok db' ∧
    state db' = state db ∧ keymap db' = keymap db ∧ type_map db' = type_map db ∧
    blob_store db' = blob_store db ∧ write_mode db' = write_mode db ∧
    db_entries db' = [] ∧ ct_leaves db' = [] ∧ current_sth db' = None ∧
    monotone_seals db' = [] ∧ ∀ size, consistency_from db' size = None.
Proof.
  intros (raw & Hto & Hfrom) Hok. unfold truncate_wal, init_wal, open_write. simpl.
  rewrite st_get_empty, Hto. simpl. unfold load_wal. simpl.
  rewrite st_get_insert, decide_True by done. simpl. rewrite Hfrom. simpl.
  destruct (db_new _ _ _ _ _) as [dbn|] eqn:Hn; [|done]. simpl. rewrite nt_iter_empty.
  destruct (db_new_backend _ _ _ _ _ _ Hn) as (Eb & Ee & El & Eh & Esl & Ec).
  eexists. split; [done|]. simpl. unfold consistency_from. simpl. by rewrite Ee, El, Eh, Esl.
Qed.
End persistence.

(** *** Witnesses *)

Section witnesses.
#[local] Existing Instances prefix_sha toy_ristretto toy_kzg toy_sig raw_json id_powf.

(** Tables as lists of rows; the records of the example as the only files. *)
Definition toy_redb : Redb := {|
  StrTable := gmap string bytes; st_empty := ∅; st_get := λ t k, t !! k;
  st_insert := λ t k v, <[k := v]> t;
  NumTable := list (N * bytes); nt_empty := []; nt_insert := λ t k v, ordered_insert k v t;
  nt_iter := λ t, t
|}.
#[local] Existing Instance toy_redb.
#[local] Instance toy_redb_laws : Redb_Laws toy_redb.
Proof. split; [done| |done|done]. intros t k v k'. apply lookup_insert. Qed.

Definition ex_events : list WalEventV1 := run_events ex_db ex_calls.
Definition ex_persist_json : PersistJson := {|
  snapshot_to_vec := λ _, Some []; snapshot_from_slice := λ _, Some (snapshot_of ex_db);
  meta_to_vec := λ _, Some []; meta_from_slice := λ _, Some (meta_of ex_db);
  event_to_vec := λ ev, Some (le_bytes 8 (ev_seq ev));
  event_from_slice := λ raw, ex_events !! (N.to_nat (of_le_bytes raw) - 1)
|}.
#[local] Existing Instance ex_persist_json.

Lemma ex_load_ok : is_ok (db_new ex_load 5 (state ex_db) (backend ex_db) ex_cfg) = true.
Proof. by vm_compute. Qed.

Lemma snapshot_roundtrip_witness :
  (save_snapshot ex_db None).2 = Ok tt ∧
  load_snapshot ex_load 5 (save_snapshot ex_db None).1 ex_cfg =
  match db_new ex_load 5 (state ex_db) (backend ex_db) ex_cfg with
  | Ok _ => Ok (with_cfg ex_db ex_cfg)
  | Err e => Err (LoadPanic e)
  end.
Proof. apply (snapshot_roundtrip ex_load 5 ex_db None ex_cfg). by exists []. Defined.

Definition ex_logged : NucleusDb * option RedbFile :=
  match logged_run (ex_db, (init_wal ex_db None).1) ex_calls with
  | Some s => s
  | None => (ex_db, None)
  end.

Lemma is_some_match {A} (o : option A) (d : A) :
  (match o with Some _ => true | None => false end) = true →
  o = Some (match o with Some a => a | None => d end).
Proof. by destruct o. Qed.

Lemma ex_events_seq : ev_seq <$> ex_events = [1; 2; 3]%N.
Proof. by vm_compute. Qed.
Lemma ex_events_faithful : Forall (faithful event_to_vec event_from_slice) ex_events.
Proof.
  apply Forall_lookup. intros i ev Hi. exists (le_bytes 8 (ev_seq ev)). split; [done|].
  assert ([1; 2; 3]%N !! i = Some (ev_seq ev)) as Hs
    by (rewrite <-ex_events_seq, list_lookup_fmap, Hi; done).
  assert (ev_seq ev = N.of_nat (i + 1) ∧ i < 3) as [E Hlt].
  { clear Hi. destruct i as [|[|[|i]]]; [..|done]; injection Hs as <-; split; (reflexivity || lia). }
  cbn [event_from_slice ex_persist_json].
  rewrite of_le_bytes_le_bytes by (rewrite E; change (256 ^ N.of_nat 8)%N with u64_mod; unfold u64_mod; lia).
  rewrite E. replace (N.to_nat (N.of_nat (i + 1)) - 1) with i by lia. exact Hi.
Qed.

Lemma wal_recovery_witness :
  ∃ db', load_wal ex_load 5 ex_logged.2 ex_cfg = Ok db' ∧ recovered ex_db ex_logged.1 db' ex_cfg.
Proof.
  apply (wal_recovery ex_load 5 ex_db ex_calls ex_logged.1 ex_logged.2 ex_cfg).
  - apply ex_db_inv.
  - by vm_compute.
  - by exists [].
  - exact ex_events_faithful.
  - rewrite <-surjective_pairing. unfold ex_logged. apply is_some_match. by vm_compute.
  - exact ex_load_ok.
Defined.

Lemma checkpoint_forgets_log_witness :
  ∃ db', load_wal ex_load 5 (truncate_wal ex_db None).1 ex_cfg = Ok db' ∧
    state db' = state ex_db ∧ keymap db' = keymap ex_db ∧ type_map db' = type_map ex_db ∧
    blob_store db' = blob_store ex_db ∧ write_mode db' = write_mode ex_db ∧
    db_entries db' = [] ∧ ct_leaves db' = [] ∧ current_sth db' = None ∧
    monotone_seals db' = [] ∧ ∀ size, consistency_from db' size = None.
Proof.
  apply (checkpoint_forgets_log ex_load 5 ex_db None ex_cfg); [by exists []|exact ex_load_ok].
Defined.
End witnesses.
