(* ===== verification/MultiTenant.v ===== *)
(** * The tenant registry: [src/src/multitenant.rs], [src/src/security_utils.rs]

    Tenants, their principals and tokens, and the database operations each role may
    use.  The state is the registry together with the files its write-ahead logs and
    snapshots live in, so that tenants may share a path.  Locks make every method
    atomic; a panic while a database lock is held for writing poisons that lock. *)
From S2P Require Export Persistence.

(** ** Constant-time comparison and domain-separated hashing *)

Definition xor_byte (a b : byte) : N := N.lxor (Byte.to_N a) (Byte.to_N b).
Definition ct_diff (a b : bytes) : N :=
  foldl (λ diff ab, N.lor diff (xor_byte ab.1 ab.2)) 0%N (zip a b).
Definition ct_eq_32 (a b : arr 32) : bool := (ct_diff (arr_bytes a) (arr_bytes b) =? 0)%N.

Definition domain_hash_32 `{Sha2} (domain data : bytes) : arr 32 :=
  sha256 (domain ++ [x00] ++ data).

Lemma xor_byte_zero a b : xor_byte a b = 0%N ↔ a = b.
Proof.
  unfold xor_byte. rewrite N.lxor_eq_0_iff. split; [|by intros ->].
  intros E. apply (f_equal Byte.of_N) in E. rewrite !Byte.of_to_N in E. congruence.
Qed.

Lemma ct_fold_zero l d :
  foldl (λ diff (ab : byte * byte), N.lor diff (xor_byte ab.1 ab.2)) d l = 0%N ↔
  d = 0%N ∧ Forall (λ ab, ab.1 = ab.2) l.
Proof.
  revert d. induction l as [|[a b] l IH]; intros d; simpl.
  - split; [by intros ->|by intros [-> _]].
  - rewrite IH, N.lor_eq_0_iff, Forall_cons. simpl. rewrite xor_byte_zero. tauto.
Qed.

Lemma zip_diag {A} (l k : list A) :
  length l = length k → Forall (λ ab, ab.1 = ab.2) (zip l k) → l = k.
Proof.
  revert k. induction l as [|x l IH]; intros [|y k] Hl Hf; try done.
  apply Forall_cons in Hf as [Hx Hf]. simpl in Hx. subst. f_equal. apply IH; [by injection Hl|done].
Qed.

Lemma ct_eq_32_true a b : ct_eq_32 a b = true ↔ a = b.
Proof.
  unfold ct_eq_32, ct_diff. rewrite N.eqb_eq, ct_fold_zero. split.
  - intros [_ Hf]. apply arr_eq, zip_diag; [by rewrite !arr_length|done].
  - intros ->. split; [done|]. generalize (arr_bytes b). intros l.
    induction l; simpl; by constructor.
Qed.

(** ** Policies, roles, errors *)

Record MultiTenantPolicy := {
  require_binary_merkle_backend : bool;
  require_mldsa_signatures : bool;
  deny_insecure_default_witness_seed : bool
}.
Definition permissive : MultiTenantPolicy := Build_MultiTenantPolicy false false false.
Definition production : MultiTenantPolicy := Build_MultiTenantPolicy true true true.

Inductive TenantRole := Reader | Writer | Admin.
#[export] Instance TenantRole_eq_dec : EqDecision TenantRole.
Proof. solve_decision. Defined.

(** The derived [Ord]: the order of the constructors. *)
Definition role_rank (r : TenantRole) : nat :=
  match r with Reader => 0 | Writer => 1 | Admin => 2 end.
Definition role_ltb (a b : TenantRole) : bool := role_rank a <? role_rank b.

Definition role_from_tag (tag : string) : option TenantRole :=
  let t := to_ascii_lowercase (trim tag) in
  if bool_decide (t = "reader") then Some Reader
  else if bool_decide (t = "writer") then Some Writer
  else if bool_decide (t = "admin") then Some Admin
  else None.

Inductive MultiTenantError :=
| TenantAlreadyExists (tenant_id : string)
| TenantNotFound (tenant_id : string)
| TenantAuthFailed (tenant_id : string)
| TenantPrincipalNotFound (tenant_id principal_id : string)
| TenantPrincipalAlreadyExists (tenant_id principal_id : string)
| TenantPermissionDenied (tenant_id principal_id : string) (required got : TenantRole)
| TenantPolicyViolation (tenant_id reason : string)
| TenantDbPoisoned (tenant_id : string)
| QueryIndexMissing (tenant_id : string) (idx : nat)
| MtCommit (e : CommitError)
| MtPersistence (e : PersistenceError)
| MtPanic. (** the calling thread panics *)

#[export] Instance WitnessKeyMaterialSource_eq_dec : EqDecision WitnessKeyMaterialSource.
Proof. solve_decision. Defined.

Record TenantCredential := {
  token_hash_of : arr 32;
  cred_role : TenantRole
}.

Record TenantSnapshot := {
  ts_tenant_id : string;
  ts_backend : VcBackend;
  ts_entries : nat;
  ts_state_values : list N
}.

Section multitenant.
Context `{Sha2, Ristretto, KzgLib, SigLib, SerdeJson, Libm, Redb, PersistJson}.

Record TenantSlot := mk_TenantSlot {
  principals : gmap string TenantCredential;
  slot_db : NucleusDb;
  db_poisoned : bool;
  wal_path : option string
}.

Record MultiTenantNucleusDb := mk_MultiTenant {
  policy : MultiTenantPolicy;
  tenants : gmap string TenantSlot;
  files : gmap string RedbFile
}.
Definition mt_action := action MultiTenantNucleusDb MultiTenantError.

Definition mt_new (p : MultiTenantPolicy) (fs : gmap string RedbFile) : MultiTenantNucleusDb :=
  mk_MultiTenant p ∅ fs.

Definition token_hash (token : string) : arr 32 :=
  domain_hash_32 (as_bytes "nucleusdb.multitenant.auth.v1") (as_bytes token).

Definition validate_tenant_policy (p : MultiTenantPolicy) (tenant_id : string) (db : NucleusDb)
  : result MultiTenantError () :=
  _ ← throw_if (require_binary_merkle_backend p && negb (bool_decide (backend db = BkBinaryMerkle)))
        (TenantPolicyViolation tenant_id "backend must be binary_merkle in production policy");
  _ ← throw_if (require_mldsa_signatures p &&
                negb (bool_decide (signing_algorithm (witness_cfg db) = MlDsa65)))
        (TenantPolicyViolation tenant_id
           "witness signing algorithm must be ml_dsa65 in production policy");
  throw_if (deny_insecure_default_witness_seed p &&
            bool_decide (key_material_source (witness_cfg db) = InsecureDefaultSeed))
    (TenantPolicyViolation tenant_id "witness config used insecure default development seed").

(** ** Access to slots and files *)

Definition put_slot (tenant_id : string) (slot : TenantSlot) (m : MultiTenantNucleusDb) :=
  mk_MultiTenant (policy m) (<[tenant_id := slot]> (tenants m)) (files m).

(** Run a file operation on one path. *)
Definition on_file (path : string) (op : action (option RedbFile) PersistenceError ()) : mt_action () :=
  λ m, let '(file, r) := op (files m !! path) in
       (mk_MultiTenant (policy m) (tenants m) (partial_alter (λ _, file) path (files m)),
        map_err MtPersistence r).
Definition on_wal (path : option string) (op : action (option RedbFile) PersistenceError ())
  : mt_action () :=
  match path with Some p => on_file p op | None => mret tt end.

(** [RwLock::read] or [write] on the database of a slot. *)
Definition lock_db (tenant_id : string) (slot : TenantSlot) : result MultiTenantError NucleusDb :=
  if db_poisoned slot then Err (TenantDbPoisoned tenant_id) else Ok (slot_db slot).

Definition authorized_tenant_slot_as (m : MultiTenantNucleusDb)
    (tenant_id principal_id auth_token : string) (required : TenantRole)
  : result MultiTenantError TenantSlot :=
  slot ← ok_or (tenants m !! tenant_id) (TenantNotFound tenant_id);
  cred ← ok_or (principals slot !! principal_id) (TenantPrincipalNotFound tenant_id principal_id);
  _ ← throw_if (negb (ct_eq_32 (token_hash_of cred) (token_hash auth_token)))
        (TenantAuthFailed tenant_id);
  _ ← throw_if (role_ltb (cred_role cred) required)
        (TenantPermissionDenied tenant_id principal_id required (cred_role cred));
  mret slot.

(** ** Registration *)

Definition register_tenant_internal (tenant_id auth_token : string) (db : NucleusDb)
    (wal : option string) (initialize_wal : bool) : mt_action () :=
  m ← get_state;
  _ ← lift_res (validate_tenant_policy (policy m) tenant_id db);
  _ ← (if initialize_wal then on_wal wal (init_wal db) else mret tt);
  m ← get_state;
  _ ← lift_res (throw_if (bool_decide (is_Some (tenants m !! tenant_id)))
                  (TenantAlreadyExists tenant_id));
  modify (put_slot tenant_id
    (mk_TenantSlot {["admin" := Build_TenantCredential (token_hash auth_token) Admin]} db false wal)).

Definition register_tenant (tenant_id auth_token : string) (db : NucleusDb) : mt_action () :=
  register_tenant_internal tenant_id auth_token db None false.
Definition register_tenant_with_wal_path (tenant_id auth_token : string) (db : NucleusDb)
    (wal : option string) : mt_action () :=
  register_tenant_internal tenant_id auth_token db wal true.
Definition register_tenant_from_wal
    (load_artifact : string → result TrustedSetupError TrustedSetupArtifact) (now : N) (tenant_id auth_token : string)
    (cfg : WitnessConfig) (wal : string) : mt_action () :=
  m ← get_state;
  db ← lift_res (map_err MtPersistence (load_wal load_artifact now (files m !! wal) cfg));
  register_tenant_internal tenant_id auth_token db (Some wal) false.

Definition ensure_wal_initialized (tenant_id auth_token : string) : mt_action () :=
  m ← get_state;
  slot ← lift_res (authorized_tenant_slot_as m tenant_id "admin" auth_token Admin);
  match wal_path slot with
  | Some path =>
      db ← lift_res (lock_db tenant_id slot);
      on_file path (init_wal db)
  | None => mret tt
  end.

Definition tenant_ids (m : MultiTenantNucleusDb) : list string := map_keys (tenants m).

(** ** Operations *)

Definition commit_as (tenant_id principal_id auth_token : string) (delta : Delta)
    (local_views : list LocalSection) (now : N) : mt_action CommitEntry :=
  m ← get_state;
  slot ← lift_res (authorized_tenant_slot_as m tenant_id principal_id auth_token Writer);
  db ← lift_res (lock_db tenant_id slot);
  let '(db', r) := commit delta local_views now db in
  let panicked := bool_decide (r = Err CommitPanic) in
  _ ← modify (put_slot tenant_id
        (mk_TenantSlot (principals slot) db' panicked (wal_path slot)));
  _ ← lift_res (throw_if panicked MtPanic);
  entry ← lift_res (map_err MtCommit r);
  _ ← on_wal (wal_path slot) (append_wal_event delta db' entry);
  mret entry.
Definition mt_commit (tenant_id auth_token : string) := commit_as tenant_id "admin" auth_token.

Definition query_as (m : MultiTenantNucleusDb) (tenant_id principal_id auth_token : string)
    (idx : nat) : result MultiTenantError (N * QueryProof * NodeHash) :=
  slot ← authorized_tenant_slot_as m tenant_id principal_id auth_token Reader;
  db ← lock_db tenant_id slot;
  answer ← map_err (λ _, MtPanic) (query db idx);
  ok_or answer (QueryIndexMissing tenant_id idx).
Definition mt_query (m : MultiTenantNucleusDb) (tenant_id auth_token : string) :=
  query_as m tenant_id "admin" auth_token.

Definition verify_query_as (m : MultiTenantNucleusDb) (tenant_id principal_id auth_token : string)
    (idx : nat) (value : N) (proof : QueryProof) (state_root : NodeHash)
  : result MultiTenantError bool :=
  slot ← authorized_tenant_slot_as m tenant_id principal_id auth_token Reader;
  db ← lock_db tenant_id slot;
  ok_or (verify_query db idx value proof state_root) MtPanic.
Definition mt_verify_query (m : MultiTenantNucleusDb) (tenant_id auth_token : string) :=
  verify_query_as m tenant_id "admin" auth_token.

Definition save_tenant_snapshot_as (tenant_id principal_id auth_token path : string) : mt_action () :=
  m ← get_state;
  slot ← lift_res (authorized_tenant_slot_as m tenant_id principal_id auth_token Reader);
  db ← lift_res (lock_db tenant_id slot);
  on_file path (save_snapshot db).
Definition save_tenant_snapshot (tenant_id auth_token : string) :=
  save_tenant_snapshot_as tenant_id "admin" auth_token.

Definition snapshot_tenant_as (m : MultiTenantNucleusDb)
    (tenant_id principal_id auth_token : string) : result MultiTenantError TenantSnapshot :=
  slot ← authorized_tenant_slot_as m tenant_id principal_id auth_token Reader;
  db ← lock_db tenant_id slot;
  mret {| ts_tenant_id := tenant_id; ts_backend := backend db;
          ts_entries := length (db_entries db); ts_state_values := values (state db) |}.
Definition snapshot_tenant (m : MultiTenantNucleusDb) (tenant_id auth_token : string) :=
  snapshot_tenant_as m tenant_id "admin" auth_token.

Definition register_principal (tenant_id admin_principal_id admin_auth_token principal_id
    principal_auth_token : string) (role : TenantRole) : mt_action () :=
  m ← get_state;
  slot ← lift_res (authorized_tenant_slot_as m tenant_id admin_principal_id admin_auth_token Admin);
  _ ← lift_res (throw_if (bool_decide (is_Some (principals slot !! principal_id)))
                  (TenantPrincipalAlreadyExists tenant_id principal_id));
  modify (put_slot tenant_id
    (mk_TenantSlot
       (<[principal_id := Build_TenantCredential (token_hash principal_auth_token) role]>
          (principals slot))
       (slot_db slot) (db_poisoned slot) (wal_path slot))).

Definition checkpoint_tenant (tenant_id principal_id auth_token snapshot_path : string)
  : mt_action () :=
  m ← get_state;
  slot ← lift_res (authorized_tenant_slot_as m tenant_id principal_id auth_token Admin);
  db ← lift_res (lock_db tenant_id slot);
  _ ← on_file snapshot_path (save_snapshot db);
  on_wal (wal_path slot) (truncate_wal db).

(** ** Lemmas *)

Lemma role_ltb_false a b : role_ltb a b = false ↔ role_rank b ≤ role_rank a.
Proof. unfold role_ltb. by rewrite Nat.ltb_ge. Qed.

Lemma authorized_spec m t p tok required slot :
  authorized_tenant_slot_as m t p tok required = Ok slot ↔
  tenants m !! t = Some slot ∧ ∃ cred, principals slot !! p = Some cred ∧
    token_hash_of cred = token_hash tok ∧ role_rank required ≤ role_rank (cred_role cred).
Proof.
  unfold authorized_tenant_slot_as. split.
  - intros Ha. inv_res. rewrite role_ltb_false in *. bool_hyps.
    match goal with Hc : ct_eq_32 _ _ = true |- _ => apply ct_eq_32_true in Hc end. eauto 6.
  - intros (-> & cred & Hp & Hh & Hr). simpl. rewrite Hp. simpl.
    rewrite (proj2 (ct_eq_32_true _ _)) by done. simpl. by rewrite (proj2 (role_ltb_false _ _)).
Qed.

Lemma on_wal_tenants path op m : tenants (on_wal path op m).1 = tenants m ∧ policy (on_wal path op m).1 = policy m.
Proof. destruct path as [p|]; [|done]. simpl. unfold on_file. by destruct (op _). Qed.
Lemma on_file_tenants path op m : tenants (on_file path op m).1 = tenants m ∧ policy (on_file path op m).1 = policy m.
Proof. apply (on_wal_tenants (Some path)). Qed.

Lemma lock_db_ok t slot db : lock_db t slot = Ok db ↔ db_poisoned slot = false ∧ db = slot_db slot.
Proof. unfold lock_db. destruct (db_poisoned slot); naive_solver. Qed.
(** ** Requests *)

Context (load_artifact : string → result TrustedSetupError TrustedSetupArtifact).

(** The methods that change the registry. *)
Inductive Request :=
| RRegister (tenant_id auth_token : string) (db : NucleusDb)
| RRegisterWal (tenant_id auth_token : string) (db : NucleusDb) (wal : option string)
| RFromWal (now : N) (tenant_id auth_token : string) (cfg : WitnessConfig) (wal : string)
| RPrincipal (tenant_id admin_id admin_token principal_id token : string) (role : TenantRole)
| RCommit (tenant_id principal_id auth_token : string) (delta : Delta) (views : list LocalSection)
    (now : N)
| REnsureWal (tenant_id auth_token : string)
| RSave (tenant_id principal_id auth_token path : string)
| RCheckpoint (tenant_id principal_id auth_token path : string).

Definition req_tenant (r : Request) : string :=
  match r with
  | RRegister t _ _ | RRegisterWal t _ _ _ | RFromWal _ t _ _ _ | RPrincipal t _ _ _ _ _
  | RCommit t _ _ _ _ _ | REnsureWal t _ | RSave t _ _ _ | RCheckpoint t _ _ _ => t
  end.

Definition exec (m : MultiTenantNucleusDb) (r : Request) : MultiTenantNucleusDb :=
  match r with
  | RRegister t tok db => (register_tenant t tok db m).1
  | RRegisterWal t tok db wal => (register_tenant_with_wal_path t tok db wal m).1
  | RFromWal now t tok cfg wal => (register_tenant_from_wal load_artifact now t tok cfg wal m).1
  | RPrincipal t a atok p tok role => (register_principal t a atok p tok role m).1
  | RCommit t p tok delta views now => (commit_as t p tok delta views now m).1
  | REnsureWal t tok => (ensure_wal_initialized t tok m).1
  | RSave t p tok path => (save_tenant_snapshot_as t p tok path m).1
  | RCheckpoint t p tok path => (checkpoint_tenant t p tok path m).1
  end.
Definition execs (m : MultiTenantNucleusDb) (rs : list Request) : MultiTenantNucleusDb :=
  foldl exec m rs.

(** What a request may do to the slot of its tenant. *)
Inductive slot_change (m : MultiTenantNucleusDb) : Request → TenantSlot → Prop :=
| change_new r tok db wal :
    (r = RRegister (req_tenant r) tok db ∨ r = RRegisterWal (req_tenant r) tok db wal ∨
     ∃ now cfg w, r = RFromWal now (req_tenant r) tok cfg w) →
    validate_tenant_policy (policy m) (req_tenant r) db = Ok tt →
    tenants m !! req_tenant r = None →
    slot_change m r (mk_TenantSlot {["admin" := Build_TenantCredential (token_hash tok) Admin]}
                       db false wal)
| change_principal t a atok p tok role slot :
    authorized_tenant_slot_as m t a atok Admin = Ok slot → principals slot !! p = None →
    slot_change m (RPrincipal t a atok p tok role)
      (mk_TenantSlot (<[p := Build_TenantCredential (token_hash tok) role]> (principals slot))
         (slot_db slot) (db_poisoned slot) (wal_path slot))
| change_commit t p tok delta views now slot pz :
    authorized_tenant_slot_as m t p tok Writer = Ok slot → db_poisoned slot = false →
    slot_change m (RCommit t p tok delta views now)
      (mk_TenantSlot (principals slot) (commit delta views now (slot_db slot)).1 pz (wal_path slot)).


(** The effect of a request that leads from [m] to [m']. *)
Definition effect (m : MultiTenantNucleusDb) (r : Request) (m' : MultiTenantNucleusDb) : Prop :=
  policy m' = policy m ∧
  (tenants m' = tenants m ∨
   ∃ slot, slot_change m r slot ∧ tenants m' = <[req_tenant r := slot]> (tenants m)).

Lemma effect_none m r m' : policy m' = policy m → tenants m' = tenants m → effect m r m'.
Proof. by split; [|left]. Qed.
Lemma effect_put m r m' slot :
  slot_change m r slot → policy m' = policy m →
  tenants m' = <[req_tenant r := slot]> (tenants m) → effect m r m'.
Proof. intros. split; [done|]. right. by exists slot. Qed.

Lemma register_effect m r tok db wal b :
  (r = RRegister (req_tenant r) tok db ∨ r = RRegisterWal (req_tenant r) tok db wal ∨
   ∃ now cfg w, r = RFromWal now (req_tenant r) tok cfg w) →
  effect m r (register_tenant_internal (req_tenant r) tok db wal b m).1.
Proof.
  intros Hr. unfold register_tenant_internal.
  unfold mbind, action_bind, get_state, lift_res, modify, mret, action_ret.
  destruct (validate_tenant_policy (policy m) (req_tenant r) db) as [[]|] eqn:Hv;
    [|by apply effect_none].
  set (init := if b then _ else _).
  assert (tenants (init m).1 = tenants m ∧ policy (init m).1 = policy m) as [E1 E2]
    by (destruct b; [apply on_wal_tenants|done]).
  destruct (init m) as [m1 [[]|]]; cbn [fst] in E1, E2; [|by apply effect_none].
  rewrite E1. case_bool_decide as Hs; cbn [throw_if fst]; [by apply effect_none|].
  eapply effect_put; [|exact E2|by simpl; rewrite E1].
  eapply change_new; [exact Hr|done|]. by apply eq_None_not_Some.
Qed.

Lemma commit_effect m t p tok delta views now :
  effect m (RCommit t p tok delta views now) (commit_as t p tok delta views now m).1.
Proof.
  unfold commit_as, mbind, action_bind, get_state, lift_res, modify, mret, action_ret.
  destruct (authorized_tenant_slot_as m t p tok Writer) as [slot|] eqn:Ha; [|by apply effect_none].
  destruct (lock_db t slot) as [db|] eqn:Hl; [|by apply effect_none].
  apply lock_db_ok in Hl as [Hz ->].
  pose proof (λ pz, change_commit m t p tok delta views now slot pz Ha Hz) as Hch.
  destruct (commit delta views now (slot_db slot)) as [db' r]. cbn [fst] in Hch.
  case_bool_decide; cbn [throw_if fst]; [by eapply effect_put|].
  destruct r as [e|]; cbn [map_err fst]; [|by eapply effect_put].
  match goal with |- context [on_wal ?w ?op ?m0] =>
    destruct (on_wal_tenants w op m0) as [E1 E2]; destruct (on_wal w op m0) as [m1 [[]|]] end;
    cbn [fst] in E1, E2 |- *; (eapply effect_put; [apply Hch|by rewrite E2|by rewrite E1]).
Qed.

(** The requests that only write files. *)
Definition file_request (r : Request) : bool :=
  match r with REnsureWal _ _ | RSave _ _ _ _ | RCheckpoint _ _ _ _ => true | _ => false end.

Lemma file_request_frame m r :
  file_request r = true → tenants (exec m r) = tenants m ∧ policy (exec m r) = policy m.
Proof.
  destruct r as [| | | | |t tok|t p tok path|t p tok path]; try done; intros _; cbn [exec].
  - unfold ensure_wal_initialized, mbind, action_bind, get_state, lift_res.
    destruct (authorized_tenant_slot_as _ _ _ _ _) as [slot|]; [|done].
    destruct (wal_path slot) as [path|]; [|done].
    destruct (lock_db t slot) as [db|]; [|done]. apply on_file_tenants.
  - unfold save_tenant_snapshot_as, mbind, action_bind, get_state, lift_res.
    destruct (authorized_tenant_slot_as _ _ _ _ _) as [slot|]; [|done].
    destruct (lock_db t slot) as [db|]; [|done]. apply on_file_tenants.
  - unfold checkpoint_tenant, mbind, action_bind, get_state, lift_res.
    destruct (authorized_tenant_slot_as _ _ _ _ _) as [slot|]; [|done].
    destruct (lock_db t slot) as [db|]; [|done].
    destruct (on_file_tenants path (save_snapshot db) m) as [E1 E2].
    destruct (on_file path (save_snapshot db) m) as [m1 [[]|]]; cbn [fst] in E1, E2 |- *; [|done].
    destruct (on_wal_tenants (wal_path slot) (truncate_wal db) m1) as [E3 E4]. split; congruence.
Qed.

Lemma exec_change m r : effect m r (exec m r).
Proof.
  destruct (file_request r) eqn:Hf.
  { destruct (file_request_frame m r Hf). by apply effect_none. }
  destruct r as [t tok db|t tok db wal|now t tok cfg wal|t a atok p tok role|t p tok delta views now
                | | |]; try done; cbn [exec].
  - exact (register_effect m (RRegister t tok db) tok db None false (or_introl eq_refl)).
  - exact (register_effect m (RRegisterWal t tok db wal) tok db wal true (or_intror (or_introl eq_refl))).
  - unfold register_tenant_from_wal, mbind, action_bind, get_state, lift_res.
    destruct (map_err _ _) as [db|]; [|by apply effect_none].
    apply (register_effect m (RFromWal now t tok cfg wal) tok db (Some wal) false).
    right; right. by exists now, cfg, wal.
  - unfold register_principal, mbind, action_bind, get_state, lift_res, modify.
    destruct (authorized_tenant_slot_as m t a atok Admin) as [slot|] eqn:Ha; [|by apply effect_none].
    case_bool_decide as Hp; cbn [throw_if fst]; [by apply effect_none|].
    eapply effect_put; [|done|done]. apply change_principal; [done|]. by apply eq_None_not_Some.
  - apply commit_effect.
Qed.

Lemma exec_other m r t : req_tenant r ≠ t → tenants (exec m r) !! t = tenants m !! t.
Proof.
  intros Hne. destruct (exec_change m r) as [_ [->|(slot & _ & ->)]]; [done|].
  by rewrite lookup_insert_ne.
Qed.

Lemma execs_policy m rs : policy (execs m rs) = policy m.
Proof.
  unfold execs. induction rs as [|r rs IH] using rev_ind; [done|].
  rewrite foldl_app. simpl. by rewrite (proj1 (exec_change _ r)).
Qed.

(** ** Isolation *)

(** A registration that reads or writes a log file of its choice. *)
Definition wal_registration (r : Request) : bool :=
  match r with RRegisterWal _ _ _ _ | RFromWal _ _ _ _ _ => true | _ => false end.

Lemma authorized_same m1 m2 t p tok required :
  tenants m1 !! t = tenants m2 !! t →
  authorized_tenant_slot_as m1 t p tok required = authorized_tenant_slot_as m2 t p tok required.
Proof. intros E. unfold authorized_tenant_slot_as. by rewrite E. Qed.

(** The slot of a tenant after a commit. *)
Definition slot_after_commit (slot : TenantSlot) (delta : Delta) (views : list LocalSection) (now : N)
  : TenantSlot :=
  let '(db', r) := commit delta views now (slot_db slot) in
  mk_TenantSlot (principals slot) db' (bool_decide (r = Err CommitPanic)) (wal_path slot).

Lemma commit_as_slot m t p tok delta views now :
  tenants (commit_as t p tok delta views now m).1 !! t =
  match authorized_tenant_slot_as m t p tok Writer with
  | Ok slot => if db_poisoned slot then tenants m !! t
               else Some (slot_after_commit slot delta views now)
  | Err _ => tenants m !! t
  end.
Proof.
  unfold commit_as, slot_after_commit, mbind, action_bind, get_state, lift_res, modify, mret, action_ret.
  destruct (authorized_tenant_slot_as m t p tok Writer) as [slot|]; [|done].
  unfold lock_db. destruct (db_poisoned slot); [done|].
  destruct (commit delta views now (slot_db slot)) as [db' r].
  set (pz := bool_decide _). destruct pz; cbn [throw_if fst]; [apply lookup_insert_eq|].
  destruct r as [e|]; cbn [map_err fst]; [|apply lookup_insert_eq].
  match goal with |- context [on_wal ?w ?op ?m0] =>
    destruct (on_wal_tenants w op m0) as [E1 _]; destruct (on_wal w op m0) as [m1 [[]|]] end;
    cbn [fst] in E1 |- *; rewrite E1; apply lookup_insert_eq.
Qed.

Lemma exec_same_tenant m1 m2 r :
  policy m1 = policy m2 → tenants m1 !! req_tenant r = tenants m2 !! req_tenant r →
  wal_registration r = false →
  tenants (exec m1 r) !! req_tenant r = tenants (exec m2 r) !! req_tenant r.
Proof.
  intros Hp Ht Hw. destruct (file_request r) eqn:Hf.
  { by rewrite (proj1 (file_request_frame m1 r Hf)), (proj1 (file_request_frame m2 r Hf)). }
  destruct r as [t tok db| | |t a atok p tok role|t p tok delta views now| | |]; try done;
    cbn [exec req_tenant] in *.
  - unfold register_tenant, register_tenant_internal.
    unfold mbind, action_bind, get_state, lift_res, modify, mret, action_ret. rewrite Hp.
    destruct (validate_tenant_policy _ _ _) as [[]|]; [|done]. rewrite Ht.
    case_bool_decide; cbn [throw_if fst]; [done|]. simpl. by rewrite !lookup_insert_eq.
  - unfold register_principal, mbind, action_bind, get_state, lift_res, modify.
    rewrite (authorized_same m1 m2) by done.
    destruct (authorized_tenant_slot_as m2 t a atok Admin) as [slot|]; [|done].
    case_bool_decide; cbn [throw_if fst]; [done|]. simpl. by rewrite !lookup_insert_eq.
  - by rewrite !commit_as_slot, (authorized_same m1 m2), Ht by done.
Qed.

Lemma execs_isolated t rs m1 m2 :
  policy m1 = policy m2 → tenants m1 !! t = tenants m2 !! t →
  Forall (λ r, req_tenant r = t → wal_registration r = false) rs →
  tenants (execs m1 rs) !! t = tenants (execs m2 (filter (λ r, req_tenant r = t) rs)) !! t.
Proof.
  intros Hp Ht Hw. revert m1 m2 Hp Ht.
  induction Hw as [|r rs Hr Hw IH]; intros m1 m2 Hp Ht; [done|].
  rewrite filter_cons. case_decide as Hd.
  - apply IH; [by rewrite !(proj1 (exec_change _ r))|]. subst t. by apply exec_same_tenant, Hr.
  - apply IH; [by rewrite (proj1 (exec_change _ r))|]. by rewrite exec_other.
Qed.

(** ** Credentials *)

(** The request that registers a principal with a token and a role. *)
Definition registers (r : Request) (t p tok : string) (role : TenantRole) : Prop :=
  match r with
  | RRegister t' tok' _ | RRegisterWal t' tok' _ _ | RFromWal _ t' tok' _ _ =>
      t' = t ∧ tok' = tok ∧ p = "admin" ∧ role = Admin
  | RPrincipal t' _ _ p' tok' role' => t' = t ∧ p' = p ∧ tok' = tok ∧ role' = role
  | _ => False
  end.

(** Every slot obeys the policy, and every credential comes from a registration. *)
Definition registry_ok (m : MultiTenantNucleusDb) (rs : list Request) : Prop :=
  ∀ t slot, tenants m !! t = Some slot →
    validate_tenant_policy (policy m) t (slot_db slot) = Ok tt ∧
    ∀ p cred, principals slot !! p = Some cred →
      ∃ r tok, r ∈ rs ∧ registers r t p tok (cred_role cred) ∧ token_hash_of cred = token_hash tok.

(** A commit, whatever it returns, keeps the back end and the witnesses. *)
Lemma commit_keeps_config delta views now db :
  backend (commit delta views now db).1 = backend db ∧
  witness_cfg (commit delta views now db).1 = witness_cfg db.
Proof.
  pose proof (commit_cases db delta views now) as Hc.
  destruct (plan_commit db delta views) as [p|]; [|by rewrite Hc].
  destruct (sign_all _ _ _) as [sigs|]; [|by rewrite Hc].
  destruct (negb _); [by rewrite Hc|]. cbv zeta in Hc. destruct (negb _); rewrite Hc; [done|].
  cbn [fst].
  match goal with |- context [push_seal ?d] => destruct (push_seal_frame d) as
    (_ & _ & _ & _ & _ & _ & _ & _ & -> & _ & _ & ->) end. done.
Qed.

Lemma validate_same p t db db' :
  backend db' = backend db → witness_cfg db' = witness_cfg db →
  validate_tenant_policy p t db' = validate_tenant_policy p t db.
Proof. intros Eb Ew. unfold validate_tenant_policy. by rewrite Eb, Ew. Qed.

Lemma registry_ok_weaken m rs r : registry_ok m rs → registry_ok m (rs ++ [r]).
Proof.
  intros Hok t slot Hs. destruct (Hok t slot Hs) as [Hv Hc]. split; [done|].
  intros p cred Hp. destruct (Hc p cred Hp) as (r' & tok & Hin & ?). exists r', tok.
  split; [apply elem_of_app; by left|done].
Qed.

Lemma exec_registry_ok m rs r : registry_ok m rs → registry_ok (exec m r) (rs ++ [r]).
Proof.
  intros Hok. destruct (exec_change m r) as [Hp [Ht|(slot & Hch & Ht)]].
  { intros t slot. rewrite Ht, Hp. by apply registry_ok_weaken. }
  intros t slot'. rewrite Ht, Hp.
  destruct (decide (req_tenant r = t)) as [<-|Hne];
    [rewrite lookup_insert_eq; intros [= <-]|rewrite lookup_insert_ne by done; by apply registry_ok_weaken].
  destruct Hch as [r tok db wal Hr Hv _|t a atok p tok role slot Ha _|t p tok delta views now slot pz Ha _];
    cbn [req_tenant slot_db principals].
  - split; [done|]. intros p cred. rewrite lookup_singleton_Some. intros [<- <-].
    exists r, tok. split; [by apply elem_of_app; right; apply list_elem_of_singleton|].
    split; [|done]. unfold registers.
    destruct Hr as [-> | [-> | (? & ? & ? & ->)]]; done.
  - apply authorized_spec in Ha as [Hs _]. destruct (registry_ok_weaken _ _ (RPrincipal t a atok p tok role) Hok t slot Hs) as [Hv Hc].
    split; [done|]. intros p' cred. rewrite lookup_insert_Some. intros [[<- <-]|[_ Hp']]; [|by apply Hc].
    eexists _, tok. split; [by apply elem_of_app; right; apply list_elem_of_singleton|done].
  - apply authorized_spec in Ha as [Hs _].
    destruct (registry_ok_weaken _ _ (RCommit t p tok delta views now) Hok t slot Hs) as [Hv Hc].
    split; [|done]. destruct (commit_keeps_config delta views now (slot_db slot)) as [Eb Ew].
    by rewrite (validate_same _ _ (slot_db slot)).
Qed.

Lemma execs_registry_ok p fs rs : registry_ok (execs (mt_new p fs) rs) rs.
Proof.
  unfold execs. induction rs as [|r rs IH] using rev_ind; [by intros t slot; simpl; rewrite lookup_empty|].
  rewrite foldl_app. by apply exec_registry_ok.
Qed.

(** The string behind the hash of a token. *)
Definition token_input (token : string) : bytes :=
  as_bytes "nucleusdb.multitenant.auth.v1" ++ [x00] ++ as_bytes token.
Lemma token_hash_inj tok tok' :
  token_hash tok = token_hash tok' → tok = tok' ∨ collides sha256 [token_input tok; token_input tok'].
Proof.
  intros [E|?]%sha256_inj_or_collides; [left|by right].
  apply app_inv_head, app_inv_head, (f_equal of_bytes) in E. by rewrite !of_as_bytes in E.
Qed.

(** A slot that exists stays, with its credentials. *)
Lemma exec_slot_kept m r t slot :
  tenants m !! t = Some slot →
  ∃ slot', tenants (exec m r) !! t = Some slot' ∧ wal_path slot' = wal_path slot ∧
    (∀ p cred, principals slot !! p = Some cred → principals slot' !! p = Some cred) ∧
    (slot_db slot' = slot_db slot ∨
     ∃ p tok delta views now, r = RCommit t p tok delta views now ∧
       authorized_tenant_slot_as m t p tok Writer = Ok slot ∧
       slot_db slot' = (commit delta views now (slot_db slot)).1).
Proof.
  intros Hs. destruct (exec_change m r) as [_ [->|(slot' & Hch & ->)]]; [by exists slot; auto|].
  destruct (decide (req_tenant r = t)) as [<-|Hne].
  2: { rewrite lookup_insert_ne by done. by exists slot; auto. }
  rewrite lookup_insert_eq. eexists. split; [done|].
  destruct Hch as [r tok db wal _ _ Hno|t a atok p tok role slot0 Ha Hp|t p tok delta views now slot0 pz Ha _];
    cbn [req_tenant] in *; [congruence| |];
    pose proof (proj1 (proj1 (authorized_spec _ _ _ _ _ _) Ha)) as Hs0; rewrite Hs in Hs0;
    injection Hs0 as <-.
  - split; [done|]. split; [|by left]. intros p' cred Hc. simpl. rewrite lookup_insert_ne; [done|].
    intros ->. congruence.
  - split; [done|]. split; [done|]. right. by eexists _, _, _, _, _.
Qed.

(** [commit_as] in one step, when it returns [Ok] for a tenant with a log. *)
Lemma commit_as_ok m t p tok delta views now m' e slot path :
  authorized_tenant_slot_as m t p tok Writer = Ok slot → wal_path slot = Some path →
  commit_as t p tok delta views now m = (m', Ok e) →
  ∃ db' file', commit delta views now (slot_db slot) = (db', Ok e) ∧
    append_wal_event delta db' e (files m !! path) = (file', Ok tt) ∧
    files m' !! path = file' ∧
    tenants m' !! t = Some (mk_TenantSlot (principals slot) db' false (Some path)).
Proof.
  intros Ha Hw. unfold commit_as, mbind, action_bind, get_state, lift_res, modify, mret, action_ret.
  rewrite Ha. unfold lock_db. destruct (db_poisoned slot); [done|].
  destruct (commit delta views now (slot_db slot)) as [db' r]. case_bool_decide; [done|].
  destruct r as [e'|]; [|done]. cbn [throw_if map_err]. rewrite Hw. cbn [on_wal]. unfold on_file.
  cbn [files put_slot].
  destruct (append_wal_event delta db' e' (files m !! path)) as [file' [[]|]] eqn:Hap; [|done].
  cbn [map_err]. intros [= <- <-]. exists db', file'. split_and!; [done|done|..]; simpl.
  - apply lookup_partial_alter_eq.
  - apply lookup_insert_eq.
Qed.

(** ** Properties *)

(** Claim C8. Access control: in every registry that any requests lead to, a principal
    passes the check for a role only with the token it was registered with and a role
    at least as high, or with one whose hashed string collides with that of the registered
    token; and a request changes the database of a
    tenant only by a commit of an authorised writer of that tenant. *)
Theorem tenant_access_control p fs rs t pid tok required slot :
  authorized_tenant_slot_as (execs (mt_new p fs) rs) t pid tok required = Ok slot →
  (∃ r tok' role, r ∈ rs ∧ registers r t pid tok' role ∧ role_rank required ≤ role_rank role ∧
     (tok' = tok ∨ collides sha256 [token_input tok'; token_input tok])) ∧
  ∀ r, ∃ slot', tenants (exec (execs (mt_new p fs) rs) r) !! t = Some slot' ∧
    (slot_db slot' = slot_db slot ∨
     ∃ pid' tok' delta views now, r = RCommit t pid' tok' delta views now ∧
       authorized_tenant_slot_as (execs (mt_new p fs) rs) t pid' tok' Writer = Ok slot ∧
       slot_db slot' = (commit delta views now (slot_db slot)).1).
Proof.
  intros (Hs & cred & Hp & Hh & Hr)%authorized_spec. split.
  - destruct (execs_registry_ok p fs rs t slot Hs) as [_ Hc].
    destruct (Hc pid cred Hp) as (r & tok' & Hin & Hreg & Hh').
    rewrite Hh in Hh'. exists r, tok', (cred_role cred). split_and!; [done..|]. by apply token_hash_inj.
  - intros r. destruct (exec_slot_kept _ r t slot Hs) as (slot' & Hs' & _ & _ & Hdb). by exists slot'.
Qed.

(** Isolation: what any requests do to a tenant's slot (database, principals,
    log path) is what the requests addressed to that tenant do alone, as long as the
    tenant is not registered from or with a log file on the way. *)
Theorem tenant_isolation m rs t :
  Forall (λ r, req_tenant r = t → wal_registration r = false) rs →
  tenants (execs m rs) !! t = tenants (execs m (filter (λ r, req_tenant r = t) rs)) !! t.
Proof. by apply execs_isolated. Qed.

(** Every tenant database obeys the registry's policy whatever is requested,
    and no request removes a tenant or changes or removes a credential. *)
Theorem tenant_registry_safe p fs rs t slot :
  tenants (execs (mt_new p fs) rs) !! t = Some slot →
  validate_tenant_policy p t (slot_db slot) = Ok tt ∧
  ∀ rs', ∃ slot', tenants (execs (mt_new p fs) (rs ++ rs')) !! t = Some slot' ∧
    wal_path slot' = wal_path slot ∧
    ∀ pid cred, principals slot !! pid = Some cred → principals slot' !! pid = Some cred.
Proof.
  intros Hs. split.
  { destruct (execs_registry_ok p fs rs t slot Hs) as [Hv _]. by rewrite execs_policy in Hv. }
  intros rs'. induction rs' as [|r rs' IH] using rev_ind; [rewrite app_nil_r; by exists slot|].
  destruct IH as (slot1 & Hs1 & Hw & Hc). unfold execs in *. rewrite app_assoc, foldl_app.
  destruct (exec_slot_kept _ r t slot1 Hs1) as (slot2 & Hs2 & Hw2 & Hc2 & _).
  exists slot2. split_and!; [done|congruence|]. auto.
Qed.

(** Commits of a tenant with a log are durable: when [commit_as] returns [Ok],
    the log file has the commit, and loading it gives a database with the state and the
    transparency log of the tenant's live database. *)
Theorem tenant_commit_durable `{!Redb_Laws _} m t p tok delta views now m' e slot path db0 evs load now' cfg :
  authorized_tenant_slot_as m t p tok Writer = Ok slot → wal_path slot = Some path →
  keymap_wf (keymap db0) → wal_inv db0 evs (slot_db slot) (files m !! path) →
  commit_as t p tok delta views now m = (m', Ok e) →
  is_ok (db_new load now' (state db0) (backend db0) cfg) = true →
  ∃ slot' l, tenants m' !! t = Some slot' ∧
    db_entries (slot_db slot') = db_entries (slot_db slot) ++ [e] ∧
    let evs' := evs ++ [event_of (slot_db slot') delta e l] in
    wal_inv db0 evs' (slot_db slot') (files m' !! path) ∧
    (Forall (faithful event_to_vec event_from_slice) evs' →
     ∃ db', load_wal load now' (files m' !! path) cfg = Ok db' ∧ recovered db0 (slot_db slot') db' cfg).
Proof.
  intros Ha Hw Hk Hinv Hc Hok.
  destruct (commit_as_ok _ _ _ _ _ _ _ _ _ _ _ Ha Hw Hc) as (db' & file' & Hcm & Hap & Hf & Ht).
  destruct (wal_inv_commit _ _ _ _ _ _ _ _ _ _ Hinv Hcm Hap) as (l & _ & Hinv').
  eexists _, l. split; [exact Ht|]. cbn [slot_db].
  split; [apply (cp_entries _ _ _ _ _ _ (commit_ok_post _ _ _ _ _ _ Hcm))|]. cbv zeta. rewrite Hf.
  split; [exact Hinv'|]. intros Hfaith.
  destruct (db_new load now' (state db0) (backend db0) cfg) as [dbn|] eqn:Hn; [|done].
  by eapply load_wal_recovers.
Qed.
End multitenant.

(** *** Witnesses *)

Section witnesses.
#[local] Existing Instances prefix_sha toy_ristretto toy_kzg toy_sig raw_json id_powf toy_redb
  toy_redb_laws ex_persist_json.

Definition ex_requests : list Request :=
  [RRegisterWal "t" "secret" ex_db (Some "t.wal"); RPrincipal "t" "admin" "secret" "bob" "pw" Writer;
   RRegister "u" "other" ex_db; RCommit "t" "bob" "pw" (mk_Delta [(1, 5%N)]) [] 42].
Definition ex_registry : MultiTenantNucleusDb :=
  execs ex_load (mt_new production ∅) ex_requests.
Definition ex_slot : TenantSlot :=
  match tenants ex_registry !! "t" with
  | Some s => s
  | None => mk_TenantSlot ∅ ex_db false None
  end.

Lemma ex_authorized : authorized_tenant_slot_as ex_registry "t" "bob" "pw" Writer = Ok ex_slot.
Proof.
  assert (is_ok (authorized_tenant_slot_as ex_registry "t" "bob" "pw" Writer) = true) as Hok
    by by vm_compute.
  unfold ex_slot.
  destruct (authorized_tenant_slot_as ex_registry "t" "bob" "pw" Writer) as [x|] eqn:E;
    [|discriminate Hok].
  apply authorized_spec in E as [Hs _]. by rewrite Hs.
Qed.

Lemma tenant_access_control_witness :
  (∃ r tok' role, r ∈ ex_requests ∧ registers r "t" "bob" tok' role ∧ role_rank Writer ≤ role_rank role ∧
     (tok' = "pw" ∨ collides sha256 [token_input tok'; token_input "pw"])) ∧
  ∀ r, ∃ slot', tenants (exec ex_load ex_registry r) !! "t" = Some slot' ∧
    (slot_db slot' = slot_db ex_slot ∨
     ∃ pid' tok' delta views now, r = RCommit "t" pid' tok' delta views now ∧
       authorized_tenant_slot_as ex_registry "t" pid' tok' Writer = Ok ex_slot ∧
       slot_db slot' = (commit delta views now (slot_db ex_slot)).1).
Proof.
  apply (tenant_access_control ex_load production ∅ ex_requests "t" "bob" "pw" Writer ex_slot).
  exact ex_authorized.
Defined.

Lemma tenant_isolation_witness :
  let rs := [RCommit "u" "admin" "other" (mk_Delta []) [] 43; RCheckpoint "t" "admin" "secret" "x"] in
  tenants (execs ex_load ex_registry rs) !! "t" =
  tenants (execs ex_load ex_registry (filter (λ r, req_tenant r = "t") rs)) !! "t".
Proof. apply (tenant_isolation ex_load ex_registry). by repeat constructor. Defined.

Lemma tenant_registry_safe_witness :
  validate_tenant_policy production "t" (slot_db ex_slot) = Ok tt ∧
  ∀ rs', ∃ slot', tenants (execs ex_load (mt_new production ∅) (ex_requests ++ rs')) !! "t" = Some slot' ∧
    wal_path slot' = wal_path ex_slot ∧
    ∀ pid cred, principals ex_slot !! pid = Some cred → principals slot' !! pid = Some cred.
Proof.
  apply (tenant_registry_safe ex_load production ∅ ex_requests "t" ex_slot).
  apply (proj1 (proj1 (authorized_spec _ _ _ _ _ _) ex_authorized)).
Defined.

(** The registry before the first commit, whose log file is still empty. *)
Definition ex_registry0 : MultiTenantNucleusDb :=
  mk_MultiTenant production
    {["t" := mk_TenantSlot {["bob" := Build_TenantCredential (token_hash "pw") Writer]} ex_db false
               (Some "t.wal")]}
    {["t.wal" := default new_file (init_wal ex_db None).1]}.
Definition ex_slot0 : TenantSlot :=
  mk_TenantSlot {["bob" := Build_TenantCredential (token_hash "pw") Writer]} ex_db false (Some "t.wal").

Definition ex_commit_as := commit_as "t" "bob" "pw" ex_delta [] 42 ex_registry0.

Lemma tenant_commit_durable_witness :
  ∃ slot' l, tenants ex_commit_as.1 !! "t" = Some slot' ∧
    db_entries (slot_db slot') = db_entries ex_db ++ [ex_entry] ∧
    let evs' := [event_of (slot_db slot') ex_delta ex_entry l] in
    wal_inv ex_db evs' (slot_db slot') (files ex_commit_as.1 !! "t.wal") ∧
    (Forall (faithful event_to_vec event_from_slice) evs' →
     ∃ db', load_wal ex_load 5 (files ex_commit_as.1 !! "t.wal") ex_cfg = Ok db' ∧
       recovered ex_db (slot_db slot') db' ex_cfg).
Proof.
  apply (tenant_commit_durable ex_registry0 "t" "bob" "pw" ex_delta [] 42 ex_commit_as.1 ex_entry
    ex_slot0 "t.wal" ex_db [] ex_load 5 ex_cfg).
  - apply authorized_spec. split; [done|]. by eexists.
  - done.
  - apply ex_db_inv.
  - cbn [files ex_registry0 slot_db ex_slot0]. rewrite lookup_singleton_eq.
    assert (Some (default new_file (init_wal ex_db None).1) = (init_wal ex_db None).1) as ->
      by reflexivity.
    apply (init_wal_inv ex_db None); [apply ex_db_inv|by vm_compute|done|done|by exists []].
  - apply pair_snd. by vm_compute.
  - exact ex_load_ok.
Defined.
End witnesses.
