(* ===== verification/Pcn.v ===== *)
(** * Payment channels over the database: [src/src/pcn/schema.rs], [src/src/pcn/adapter.rs]

    A channel lives in keys of the database whose names start with its base
    [channel:a:b]; every operation reads keys, makes new ones and commits their cells.
    The clock ([now_unix_secs]) is the argument [now], which is also the clock the
    commit reads. *)
From S2P Require Export ProtocolSpec.

(** ** Schema *)

Inductive ChannelStatus := ChOpen | ChClosing | ChClosed.
#[export] Instance ChannelStatus_eq_dec : EqDecision ChannelStatus.
Proof. solve_decision. Defined.

Record ChannelRecord := {
  participant1 : string;
  participant2 : string;
  capacity : N;
  status : ChannelStatus;
  created_at : N;
  last_seq : N
}.

Inductive SettlementOp :=
| OpOpen (p1 p2 : string) (capacity : N)
| OpClose (p1 p2 : string)
| OpSplice (p1 p2 : string) (new_capacity : N)
| OpUpdate (p1 p2 : string) (balance1 balance2 : N).

Inductive PcnError :=
| ChannelAlreadyExists
| ChannelMissing
| ChannelNotOpen
| InvalidConservation (left right capacity : N)
| PcnCommit (e : CommitError).
#[export] Instance PcnError_eq_dec : EqDecision PcnError.
Proof. solve_decision. Defined.

Record ChannelOpView := { op_seq : N; op_kind : string }.
Record ChannelSnapshot := {
  record : ChannelRecord;
  balance1 : N;
  balance2 : N;
  ops : list ChannelOpView
}.
Record PcnComplianceWitness := {
  feasibility_root : NodeHash;
  replay_seq : N;
  channel_count : N;
  valid_channels : N;
  invalid_channels : N
}.

Definition canonical_pair (p1 p2 : string) : string * string :=
  if str_leb p1 p2 then (p1, p2) else (p2, p1).
Definition base_of (a b : string) : string := "channel:" +:+ a +:+ ":" +:+ b.
Definition channel_base (p1 p2 : string) : string :=
  let '(a, b) := canonical_pair p1 p2 in base_of a b.

Definition status_code (s : ChannelStatus) : N :=
  match s with ChOpen => 1 | ChClosing => 2 | ChClosed => 3 end.
Definition status_from_code (v : N) : ChannelStatus :=
  if (v =? 1)%N then ChOpen else if (v =? 2)%N then ChClosing
  else if (v =? 3)%N then ChClosed else ChOpen.
Definition op_code (op : SettlementOp) : N :=
  match op with OpOpen _ _ _ => 1 | OpClose _ _ => 2 | OpSplice _ _ _ => 3 | OpUpdate _ _ _ _ => 4 end.
Definition op_name (code : N) : string :=
  if (code =? 1)%N then "open" else if (code =? 2)%N then "close"
  else if (code =? 3)%N then "splice" else if (code =? 4)%N then "update" else "unknown".

(** The keys of a channel. *)
Definition capacity_key (base : string) : string := base +:+ ":meta:capacity".
Definition created_key (base : string) : string := base +:+ ":meta:created_at".
Definition ops_key (base : string) (seq : N) : string := base +:+ ":ops:" +:+ dec seq +:+ ":kind".
Definition state_key (base : string) (seq : N) (field : string) : string :=
  base +:+ ":state:" +:+ dec seq +:+ ":" +:+ field.

Definition parse_seq_from_key (prefix key : string) : option N :=
  rest ← strip_prefix prefix key; parse_u64 rest.

Section pcn.
Context `{Sha2, Ristretto, KzgLib, SigLib, SerdeJson, Libm}.
Implicit Types db : NucleusDb.

Definition compliance_leaf (base : string) (seq cap b1 b2 : N) (st : ChannelStatus) (feasible : bool)
  : NodeHash :=
  sha256 ([x00] ++ as_bytes "nucleusdb.pcn.compliance.v1|" ++ as_bytes base ++ [x00] ++
    be_bytes 8 seq ++ be_bytes 8 cap ++ be_bytes 8 b1 ++ be_bytes 8 b2 ++
    be_bytes 8 (status_code st) ++ [if feasible then x01 else x00]).

(** One pass over a layer: pairs are hashed, a last odd node moves up. *)
Fixpoint merkle_layer (layer : list NodeHash) : list NodeHash :=
  match layer with
  | a :: b :: rest => node_hash a b :: merkle_layer rest
  | rest => rest
  end.
Fixpoint merkle_layers (fuel : nat) (layer : list NodeHash) : list NodeHash :=
  match fuel with
  | O => layer
  | S fuel' => if 1 <? length layer then merkle_layers fuel' (merkle_layer layer) else layer
  end.
Definition zero_hash : NodeHash := to_arr 32 [].
Definition compliance_merkle_root (leaves : list NodeHash) : NodeHash :=
  match merkle_layers (length leaves) leaves with
  | [] => zero_hash
  | root :: _ => root
  end.

(** ** Reading *)

Definition key_value db (key : string) : option N :=
  idx ← KM.get (keymap db) key; values (state db) !! idx.

Definition record_sentinel (r : ChannelRecord) : N :=
  of_le_bytes (take 8 (arr_bytes (sha256
    (as_bytes "nucleusdb.pcn.channel_record.v1|" ++ as_bytes (participant1 r) ++ [x00] ++
     as_bytes (participant2 r) ++ le_bytes 8 (capacity r) ++ le_bytes 8 (status_code (status r)) ++
     le_bytes 8 (created_at r) ++ le_bytes 8 (last_seq r))))).

(** The sequence number the first loop of [latest_seq] finds in a key. *)
Definition seq_first_pass (base key : string) : N :=
  match parse_seq_from_key (base +:+ ":state:") key with
  | Some raw =>
      match strip_prefix (base +:+ ":state:" +:+ dec raw +:+ ":") key with
      | Some _ => raw
      | None => 0
      end
  | None => 0
  end.
(** The sequence number of the fallback loop. *)
Definition seq_fallback (base key : string) : N :=
  default 0%N (rest ← strip_prefix (base +:+ ":state:") key;
               '(seq_str, _) ← split_once ":" rest;
               parse_u64 seq_str).

Definition fold_max (f : string → N) (keys : list string) : N :=
  foldl (λ best k, N.max best (f k)) 0%N keys.

Definition latest_seq db (base : string) : N :=
  let keys := (KM.all_keys (keymap db)).*1 in
  let best := fold_max (seq_first_pass base) keys in
  if (0 <? best)%N then best else fold_max (seq_fallback base) keys.

Definition capacity_for db (base : string) : option N := key_value db (capacity_key base).
Definition exists_channel db (base : string) : bool := negb (default 0%N (key_value db base) =? 0)%N.

(** ** Operations *)

Definition set_keymap db (km : KeyMap) : NucleusDb :=
  set_typed db km (type_map db) (blob_store db) (vector_index db).

Definition apply_writes (writes : list (nat * N)) (now : N) : action NucleusDb PcnError () := λ db,
  let '(db', r) := commit (mk_Delta writes) [] now db in
  (db', _ ← map_err PcnCommit r; mret tt).

(** Put the keys and commit their cells. *)
Definition put_and_commit (kvs : list (string * N)) (now : N) : action NucleusDb PcnError () :=
  db ← get_state;
  let '(km, writes) := put_keys (keymap db) kvs in
  _ ← modify (λ db, set_keymap db km);
  apply_writes writes now.

Definition open_writes (op : SettlementOp) (base : string) (r : ChannelRecord) : list (string * N) :=
  [(base, record_sentinel r);
   (capacity_key base, capacity r);
   (created_key base, created_at r);
   (ops_key base 1, op_code op);
   (state_key base 1 "status", status_code ChOpen);
   (state_key base 1 "b1", capacity r);
   (state_key base 1 "b2", 0%N)].

Definition state_or (d : N) db (base : string) (seq : N) (field : string) : N :=
  default d (key_value db (state_key base seq field)).

(** [SettlementOp::apply]. *)
Definition apply_op (op : SettlementOp) (now : N) : action NucleusDb PcnError () :=
  db ← get_state;
  match op with
  | OpOpen p1 p2 cap =>
      let base := channel_base p1 p2 in
      if exists_channel db base then lift_res (Err ChannelAlreadyExists)
      else
        _ ← modify set_append_only;
        let r := {| participant1 := (canonical_pair p1 p2).1;
                    participant2 := (canonical_pair p1 p2).2;
                    capacity := cap; status := ChOpen; created_at := now; last_seq := 1 |} in
        put_and_commit (open_writes op base r) now
  | OpUpdate p1 p2 b1 b2 =>
      let base := channel_base p1 p2 in
      if negb (exists_channel db base) then lift_res (Err ChannelMissing)
      else
        cap ← lift_res (ok_or (capacity_for db base) ChannelMissing);
        _ ← lift_res (throw_if (negb (saturating_add64 b1 b2 =? cap)%N) (InvalidConservation b1 b2 cap));
        let cur_seq := latest_seq db base in
        _ ← lift_res (throw_if (cur_seq =? 0)%N ChannelMissing);
        let st := status_from_code (state_or 1 db base cur_seq "status") in
        _ ← lift_res (throw_if (negb (bool_decide (st = ChOpen))) ChannelNotOpen);
        let next_seq := wrapping_add64 cur_seq 1 in
        put_and_commit
          [(ops_key base next_seq, op_code op); (state_key base next_seq "status", status_code ChOpen);
           (state_key base next_seq "b1", b1); (state_key base next_seq "b2", b2)] now
  | OpClose p1 p2 =>
      let base := channel_base p1 p2 in
      if negb (exists_channel db base) then lift_res (Err ChannelMissing)
      else
        let cur_seq := latest_seq db base in
        _ ← lift_res (throw_if (cur_seq =? 0)%N ChannelMissing);
        let b1 := state_or 0 db base cur_seq "b1" in
        let b2 := state_or 0 db base cur_seq "b2" in
        let next_seq := wrapping_add64 cur_seq 1 in
        put_and_commit
          [(ops_key base next_seq, op_code op); (state_key base next_seq "status", status_code ChClosed);
           (state_key base next_seq "b1", b1); (state_key base next_seq "b2", b2)] now
  | OpSplice p1 p2 new_capacity =>
      let base := channel_base p1 p2 in
      if negb (exists_channel db base) then lift_res (Err ChannelMissing)
      else
        let cur_seq := latest_seq db base in
        let b1 := state_or 0 db base cur_seq "b1" in
        let next_seq := wrapping_add64 cur_seq 1 in
        let new_b1 := N.min b1 new_capacity in
        let new_b2 := saturating_sub new_capacity new_b1 in
        put_and_commit
          [(ops_key base next_seq, op_code op); (state_key base next_seq "status", status_code ChOpen);
           (state_key base next_seq "capacity", new_capacity);
           (state_key base next_seq "b1", new_b1); (state_key base next_seq "b2", new_b2)] now
  end.

(** ** Snapshots *)

(** The entry a key contributes to the index of operations. *)
Definition op_entry db (base : string) (kv : string * nat) : option (N * string) :=
  let '(key, idx) := kv in
  let op_prefix := base +:+ ":ops:" in
  if negb (starts_with key op_prefix) || negb (ends_with key ":kind") then None
  else
    rest ← strip_prefix op_prefix key;
    '(seq_str, _) ← split_once ":" rest;
    seq ← parse_u64 seq_str;
    Some (seq, op_name (value_at (state db) idx)).

(** [BTreeMap<u64, String>], iterated in key order. *)
Definition num_le (p q : N * string) : Prop := (p.1 ≤ q.1)%N.
#[export] Instance num_le_dec : RelDecision num_le.
Proof. intros p q. unfold num_le. apply _. Defined.
Definition op_index db (base : string) : gmap N string :=
  foldl (λ m kv, match op_entry db base kv with Some (s, k) => <[s := k]> m | None => m end)
    ∅ (KM.all_keys (keymap db)).
Definition channel_ops db (base : string) : list ChannelOpView :=
  (λ sk, {| op_seq := sk.1; op_kind := sk.2 |}) <$> merge_sort num_le (map_to_list (op_index db base)).

Definition channel_snapshot db (p1 p2 : string) : option ChannelSnapshot :=
  let base := channel_base p1 p2 in
  if negb (exists_channel db base) then None
  else
    cap ← capacity_for db base;
    let created := default 0%N (key_value db (created_key base)) in
    let seq := latest_seq db base in
    if (seq =? 0)%N then None
    else
      let '(a, b) := canonical_pair p1 p2 in
      Some {|
        record := {| participant1 := a; participant2 := b; capacity := cap;
                     status := status_from_code (state_or 1 db base seq "status");
                     created_at := created; last_seq := seq |};
        balance1 := state_or 0 db base seq "b1";
        balance2 := state_or 0 db base seq "b2";
        ops := channel_ops db base |}.

(** The bases of the channels that exist, sorted and without repetition. *)
Definition channel_bases db : list string :=
  let found := omap (λ kv : string * nat,
    let key := kv.1 in
    if negb (starts_with key "channel:") || negb (ends_with key ":meta:capacity") then None
    else
      let base := trim_end_matches (str_len key) ":meta:capacity" key in
      if exists_channel db base then Some base else None) (KM.all_keys (keymap db)) in
  set_elems (list_to_set found).

(** The loop over the channels: highest sequence, valid and invalid counts, leaves. *)
Definition compliance_step db (acc : N * N * N * list NodeHash) (base : string)
  : N * N * N * list NodeHash :=
  let '(replay, valid, invalid, leaves) := acc in
  let seq := latest_seq db base in
  if (seq =? 0)%N then acc
  else
    let cap := default 0%N (capacity_for db base) in
    let st := status_from_code (state_or 1 db base seq "status") in
    let b1 := state_or 0 db base seq "b1" in
    let b2 := state_or 0 db base seq "b2" in
    let feasible := (saturating_add64 b1 b2 =? cap)%N in
    (N.max replay seq,
     if feasible then valid + 1 else valid, if feasible then invalid else invalid + 1,
     leaves ++ [compliance_leaf base seq cap b1 b2 st feasible])%N.

Definition compliance_witness db : PcnComplianceWitness :=
  let bases := channel_bases db in
  let '(replay, valid, invalid, leaves) :=
    foldl (compliance_step db) (0, 0, 0, [])%N bases in
  {| feasibility_root := compliance_merkle_root leaves; replay_seq := replay;
     channel_count := N.of_nat (length bases);
     valid_channels := valid; invalid_channels := invalid |}.
End pcn.

(** ** Names *)

(** Participant names that cannot be confused with the structure of a key. *)
Definition no_colon (c : ascii) : bool := negb (Ascii.eqb c ":").
Definition plain (s : string) : bool := str_forall no_colon s.

(** What follows a base in a key. *)
Definition tail_ok (s : string) : Prop := s = "" ∨ ∃ t, s = String ":" t.

Lemma plain_split b b' s s' :
  plain b = true → plain b' = true → tail_ok s → tail_ok s' →
  b +:+ s = b' +:+ s' → b = b' ∧ s = s'.
Proof.
  unfold plain. intros Hb Hb' Hs Hs'. revert b' Hb'.
  induction b as [|c b IH]; intros [|c' b'] Hb' E; simpl in Hb, Hb';
    rewrite ?str_app_nil, ?str_app_cons in E.
  - done.
  - destruct Hs as [->|[t ->]]; [done|]. injection E as <- _. bool_hyps. done.
  - destruct Hs' as [->|[t ->]]; [done|]. injection E as -> _. bool_hyps. done.
  - injection E as -> E. bool_hyps. destruct (IH Hb b' Hb' E) as [-> ->]. done.
Qed.

Lemma base_inj a b a' b' s s' :
  plain a = true → plain b = true → plain a' = true → plain b' = true → tail_ok s → tail_ok s' →
  base_of a b +:+ s = base_of a' b' +:+ s' → a = a' ∧ b = b' ∧ s = s'.
Proof.
  intros Ha Hb Ha' Hb' Hs Hs' E. unfold base_of in E. rewrite !str_app_assoc in E.
  apply (inj (String.append _)) in E. rewrite !(str_app_cons ":"%char), !str_app_nil in E.
  apply (sep_inj no_colon ":") in E as [-> E]; [|done..].
  by apply plain_split in E as [-> ->].
Qed.

(** The keys a channel with [n] states may have. *)
Inductive chan_key (base : string) (n : nat) : string → Prop :=
| key_base : chan_key base n base
| key_capacity : chan_key base n (capacity_key base)
| key_created : chan_key base n (created_key base)
| key_ops i : 1 ≤ i ≤ n → chan_key base n (ops_key base (N.of_nat i))
| key_state i f : 1 ≤ i ≤ n → plain f = true → chan_key base n (state_key base (N.of_nat i) f).

Lemma chan_key_tail base n k : chan_key base n k → ∃ s, k = base +:+ s ∧ tail_ok s.
Proof.
  destruct 1 as [| | |i _|i f _ _]; [exists ""; rewrite str_app_nil_r; by split; [|left]|..];
    (eexists; split; [reflexivity|right; eexists; reflexivity]).
Qed.

Lemma dec_sep_inj i j r r' : dec i +:+ ":" +:+ r = dec j +:+ ":" +:+ r' → i = j ∧ r = r'.
Proof.
  intros E. apply (sep_inj is_digit ":") in E as [E ->]; [|done|apply dec_digits..].
  split; [by apply dec_inj|done].
Qed.

Lemma ops_key_inj base i j : ops_key base i = ops_key base j → i = j.
Proof.
  unfold ops_key. intros E. apply (inj (String.append base)) in E.
  apply (inj (String.append ":ops:")) in E. by apply dec_sep_inj in E as [E _].
Qed.
Lemma state_key_inj base i j f g : state_key base i f = state_key base j g → i = j ∧ f = g.
Proof.
  unfold state_key. intros E. apply (inj (String.append base)) in E.
  apply (inj (String.append ":state:")) in E. by apply dec_sep_inj.
Qed.

Lemma base_app_self base t : base +:+ t = base → t = "".
Proof.
  intros E. rewrite <-(str_app_nil_r base) in E at 2. by apply (inj (String.append base)) in E.
Qed.

(** Refute an equation between two different keys of one base. *)
Ltac key_discr base :=
  match goal with E : @eq string _ _ |- _ =>
    unfold capacity_key, created_key, ops_key, state_key in E;
    first
      [ symmetry in E; apply base_app_self in E; discriminate E
      | apply base_app_self in E; discriminate E
      | apply (inj (String.append base)) in E;
        first [ discriminate E
              | apply (inj (String.append ":state:")) in E; apply dec_sep_inj in E as [_ E];
                discriminate E ] ]
  end.

Lemma chan_key_ops base n i :
  chan_key base n (ops_key base i) → ∃ j, i = N.of_nat j ∧ 1 ≤ j ≤ n.
Proof.
  intros Hk. remember (ops_key base i) as k eqn:E. destruct Hk as [| | |j Hj|j f Hj _];
    try (exfalso; key_discr base).
  apply ops_key_inj in E as <-. by exists j.
Qed.

Lemma chan_key_state base n i f :
  chan_key base n (state_key base i f) → ∃ j, i = N.of_nat j ∧ 1 ≤ j ≤ n.
Proof.
  intros Hk. remember (state_key base i f) as k eqn:E. destruct Hk as [| | |j Hj|j g Hj _];
    try (exfalso; key_discr base).
  apply state_key_inj in E as [<- _]. by exists j.
Qed.

Lemma chan_key_mono base n n' k : n ≤ n' → chan_key base n k → chan_key base n' k.
Proof. destruct 2; constructor; done || lia. Qed.

Lemma ops_tail base i : ∃ t, ops_key base i = base +:+ t ∧ tail_ok t.
Proof. eexists. split; [reflexivity|right; eexists; reflexivity]. Qed.
Lemma state_tail base i f : ∃ t, state_key base i f = base +:+ t ∧ tail_ok t.
Proof. eexists. split; [reflexivity|right; eexists; reflexivity]. Qed.

(** The last [:] of a text splits it. *)
Lemma plain_colon r t : plain (r +:+ String ":" t) = true → False.
Proof.
  unfold plain. rewrite str_forall_app. intros Hp. apply andb_true_iff in Hp as [_ Hp]. done.
Qed.

Lemma last_colon_inj s s' t t' :
  plain t = true → plain t' = true → s +:+ String ":" t = s' +:+ String ":" t' → s = s' ∧ t = t'.
Proof.
  intros Ht Ht'. revert s'. induction s as [|c s IH]; intros [|c' s'] E;
    rewrite ?str_app_nil, ?str_app_cons in E.
  - by injection E.
  - injection E as <- ->. by apply plain_colon in Ht.
  - injection E as -> <-. by apply plain_colon in Ht'.
  - injection E as -> E. by apply IH in E as [-> ->].
Qed.

Lemma digits_plain s : str_forall is_digit s = true → plain s = true.
Proof.
  unfold plain. induction s as [|c s IH]; [done|]. simpl. intros Hd.
  apply andb_true_iff in Hd as [Hc Hd]. apply andb_true_iff. split; [|by apply IH].
  unfold no_colon. by destruct (Ascii.eqb_spec c ":") as [->|].
Qed.

(** An ordered pair of plain names: what [canonical_pair] makes of plain names. *)
Definition ordered_plain (a b : string) : Prop := str_leb a b = true ∧ plain a = true ∧ plain b = true.

(** A base does not itself end like a capacity key: that would be the channel of
    [meta] and [capacity], which are not in order. *)
Lemma base_no_suffix a b r : ordered_plain a b → base_of a b = r +:+ ":meta:capacity" → False.
Proof.
  intros (Hle & Ha & Hb) E. unfold base_of in E.
  replace ("channel:" +:+ a +:+ ":" +:+ b) with (("channel:" +:+ a) +:+ String ":" b) in E
    by by rewrite str_app_assoc.
  replace (r +:+ ":meta:capacity") with ((r +:+ ":meta") +:+ String ":" "capacity") in E
    by by rewrite str_app_assoc.
  apply last_colon_inj in E as [E ->]; [|done..].
  apply (last_colon_inj "channel" r a "meta") in E as [_ ->]; [|done..]. done.
Qed.

(** The keys that [channel_bases] takes for a channel are capacity keys. *)
Lemma chan_key_suffix a b n r k :
  ordered_plain a b → chan_key (base_of a b) n k → k = r +:+ ":meta:capacity" → r = base_of a b.
Proof.
  intros Hab Hk E. destruct Hk as [| | |i _|i f _ Hf].
  - by apply base_no_suffix in E.
  - unfold capacity_key in E. by apply str_app_inv_tail in E.
  - exfalso. unfold created_key in E.
    assert ((base_of a b +:+ ":meta") +:+ String ":" "created_at" =
      (r +:+ ":meta") +:+ String ":" "capacity") as E' by by rewrite !str_app_assoc.
    by apply last_colon_inj in E' as [_ E'].
  - exfalso. unfold ops_key in E.
    assert ((base_of a b +:+ ":ops:" +:+ dec (N.of_nat i)) +:+ String ":" "kind" =
      (r +:+ ":meta") +:+ String ":" "capacity") as E' by by rewrite !str_app_assoc.
    by apply last_colon_inj in E' as [_ E'].
  - exfalso. unfold state_key in E.
    assert ((base_of a b +:+ ":state:" +:+ dec (N.of_nat i)) +:+ String ":" f =
      (r +:+ ":meta") +:+ String ":" "capacity") as E' by by rewrite !str_app_assoc.
    apply last_colon_inj in E' as [E' _]; [|done..].
    assert ((base_of a b +:+ ":state") +:+ String ":" (dec (N.of_nat i)) = r +:+ String ":" "meta") as E2
      by by rewrite !str_app_assoc.
    pose proof (dec_digits (N.of_nat i)) as Hd.
    apply last_colon_inj in E2 as [_ E2]; [|by apply digits_plain|done]. by rewrite E2 in Hd.
Qed.

Lemma trim_capacity a b :
  ordered_plain a b →
  trim_end_matches (str_len (capacity_key (base_of a b))) ":meta:capacity" (capacity_key (base_of a b)) =
  base_of a b.
Proof.
  intros Hab. assert (∀ n, trim_end_matches n ":meta:capacity" (base_of a b) = base_of a b) as Hbase.
  { intros [|n]; [done|]. cbn [trim_end_matches].
    destruct (strip_suffix ":meta:capacity" (base_of a b)) as [r|] eqn:E; [|done].
    apply strip_suffix_Some in E. by apply base_no_suffix in E. }
  unfold capacity_key. rewrite str_len_app, Nat.add_comm.
  change (str_len ":meta:capacity" + str_len (base_of a b)) with (S (13 + str_len (base_of a b))).
  generalize (13 + str_len (base_of a b)). intros n. cbn [trim_end_matches].
  rewrite (strip_suffix_app ":meta:capacity"). apply Hbase.
Qed.
