(* ===== verification/PcnSpec.v ===== *)
(** * Payment channels: the ledger they implement

    The abstract ledger is a finite map from the ordered pair of participants to the
    capacity of the channel, the time it was opened and the list of its states, one per
    operation.  [ledger_rel] says that the keys and cells of a database hold exactly a
    ledger; [apply_op] refines [spec_op] on it and [channel_snapshot] reads it. *)
From S2P Require Export Pcn.

(** ** The abstract ledger *)

Record ChanState := mk_ChanState { cs_op : N; cs_status : ChannelStatus; cs_b1 : N; cs_b2 : N }.
Record Chan := mk_Chan { ch_capacity : N; ch_created : N; ch_first : ChanState; ch_later : list ChanState }.
Abbreviation Ledger := (gmap (string * string) Chan).

(** The states of a channel, oldest first; its number is the sequence number. *)
Definition ch_hist (c : Chan) : list ChanState := ch_first c :: ch_later c.
Definition ch_last (c : Chan) : ChanState := List.last (ch_later c) (ch_first c).
Definition ch_push (c : Chan) (s : ChanState) : Chan :=
  mk_Chan (ch_capacity c) (ch_created c) (ch_first c) (ch_later c ++ [s]).

Definition op_pair (op : SettlementOp) : string * string :=
  match op with
  | OpOpen p1 p2 _ | OpClose p1 p2 | OpSplice p1 p2 _ | OpUpdate p1 p2 _ _ => canonical_pair p1 p2
  end.

(** The state a splice or a close derives from the last one. *)
Definition splice_state (c : Chan) (new_capacity : N) : ChanState :=
  let b1 := N.min (cs_b1 (ch_last c)) new_capacity in
  mk_ChanState 3 ChOpen b1 (new_capacity - b1).
Definition close_state (c : Chan) : ChanState :=
  mk_ChanState 2 ChClosed (cs_b1 (ch_last c)) (cs_b2 (ch_last c)).

(** What an operation makes of the channel of its pair. *)
Definition spec_chan (op : SettlementOp) (now : N) (o : option Chan) : result PcnError Chan :=
  match op, o with
  | OpOpen _ _ cap, None => Ok (mk_Chan cap now (mk_ChanState 1 ChOpen cap 0) [])
  | OpOpen _ _ _, Some _ => Err ChannelAlreadyExists
  | _, None => Err ChannelMissing
  | OpUpdate _ _ b1 b2, Some c =>
      if negb (saturating_add64 b1 b2 =? ch_capacity c)%N
      then Err (InvalidConservation b1 b2 (ch_capacity c))
      else if negb (bool_decide (cs_status (ch_last c) = ChOpen)) then Err ChannelNotOpen
      else Ok (ch_push c (mk_ChanState 4 ChOpen b1 b2))
  | OpClose _ _, Some c => Ok (ch_push c (close_state c))
  | OpSplice _ _ cap, Some c => Ok (ch_push c (splice_state c cap))
  end.
Definition spec_op (op : SettlementOp) (now : N) (L : Ledger) : result PcnError Ledger :=
  (λ c, <[op_pair op := c]> L) <$> spec_chan op now (L !! op_pair op).

(** What a reader of the ledger sees of a channel. *)
Definition spec_snapshot (L : Ledger) (p1 p2 : string) : option ChannelSnapshot :=
  let '(a, b) := canonical_pair p1 p2 in
  c ← L !! (a, b);
  Some {|
    record := {| participant1 := a; participant2 := b; capacity := ch_capacity c;
                 status := cs_status (ch_last c); created_at := ch_created c;
                 last_seq := N.of_nat (length (ch_hist c)) |};
    balance1 := cs_b1 (ch_last c);
    balance2 := cs_b2 (ch_last c);
    ops := imap (λ i s, {| op_seq := N.of_nat (S i); op_kind := op_name (cs_op s) |}) (ch_hist c) |}.

Lemma ch_hist_push c s : ch_hist (ch_push c s) = ch_hist c ++ [s].
Proof. done. Qed.

Lemma ch_last_lookup c : ch_hist c !! (length (ch_hist c) - 1) = Some (ch_last c).
Proof.
  unfold ch_hist, ch_last. destruct c as [? ? f l]; simpl. rewrite Nat.sub_0_r.
  destruct l as [|x l] using rev_ind; [done|].
  rewrite List.last_last, length_app, Nat.add_comm. simpl.
  rewrite lookup_app_r, Nat.sub_diag by lia. done.
Qed.

Lemma ch_last_push c s : ch_last (ch_push c s) = s.
Proof. apply List.last_last. Qed.

(** ** Cells *)

Section cells.
Context `{Sha2, Ristretto, KzgLib, SigLib, SerdeJson, Libm}.
Implicit Types db : NucleusDb.

(** Every registered key has a cell and conversely. *)
Record aligned db : Prop := {
  al_wf : keymap_wf (keymap db);
  al_length : length (values (state db)) = next_index (keymap db)
}.

Lemma cell_Some km l k :
  keymap_wf km → length l = next_index km → is_Some (cell km l k) ↔ is_Some (KM.get km k).
Proof.
  intros Hwf Hl. unfold cell. destruct (KM.get km k) as [i|] eqn:E; simpl; [|done].
  rewrite lookup_lt_is_Some, Hl. apply keymap_get_bound in E; [|done]. split; [by eexists|done].
Qed.

Lemma key_value_Some db k : aligned db → is_Some (key_value db k) ↔ is_Some (forward (keymap db) !! k).
Proof. intros [Hwf Hl]. by apply cell_Some. Qed.

(** Putting new keys and applying their writes extends the cells by exactly those
    pairs. *)
Lemma put_keys_fresh kvs km l km' ws :
  keymap_wf km → length l = next_index km → NoDup kvs.*1 →
  (∀ k, k ∈ kvs.*1 → cell km l k = None) → put_keys km kvs = (km', ws) →
  keymap_wf km' ∧ length (foldl apply_write l ws) = next_index km' ∧
  ∀ k, cell km' (foldl apply_write l ws) k =
    (list_to_map kvs : gmap string N) !! k ∪ cell km l k.
Proof.
  revert km l km' ws. induction kvs as [|[key v] kvs IH]; intros km l km' ws Hwf Hl Hnd Hnew E.
  { simpl in *. injection E as <- <-. split; [done|]. split; [done|]. intros k.
    by rewrite lookup_empty, (left_id_L None (∪)). }
  cbn [put_keys fmap list_fmap fst list_to_map foldr] in *.
  apply NoDup_cons in Hnd as [Hin Hnd].
  assert (KM.get km key = None) as Hk.
  { apply eq_None_not_Some. rewrite <-cell_Some by done. rewrite Hnew by left. by intros [? ?]. }
  pose proof (get_or_create_wf km key Hwf) as Hwf1.
  unfold KM.get in Hk. unfold KM.get_or_create in E, Hwf1. rewrite Hk in E, Hwf1.
  cbn [fst] in Hwf1. set (km1 := mk_KeyMap _ _ _) in *.
  destruct (put_keys km1 kvs) as [km2 ws2] eqn:E2. injection E as <- <-.
  assert (apply_write l (next_index km, v) = l ++ [v]) as Hw.
  { unfold apply_write. rewrite <-Hl, Nat.leb_refl. unfold resize_up.
    replace (length l + 1 - length l) with 1 by lia. simpl.
    by rewrite insert_app_r_alt, Nat.sub_diag by lia. }
  assert (∀ k, cell km1 (l ++ [v]) k = if decide (k = key) then Some v else cell km l k) as Hc.
  { intros k. unfold cell, km1, KM.get. cbn [forward]. case_decide as Hk'.
    - subst. rewrite lookup_insert_eq. simpl. by rewrite lookup_app_r, <-Hl, Nat.sub_diag by lia.
    - rewrite lookup_insert_ne by done. destruct (forward km !! k) as [i|] eqn:Ei; [|done].
      simpl. apply lookup_app_l. rewrite Hl. by eapply keymap_get_bound. }
  cbn [foldl]. rewrite Hw.
  destruct (IH km1 (l ++ [v]) km2 ws2) as (Hwf2 & Hl2 & Hc2); [done| |done| |done|].
  { rewrite length_app, Hl. done. }
  { intros k Hk'. rewrite Hc. case_decide; [by subst|]. apply Hnew. by right. }
  split; [done|]. split; [done|]. intros k. rewrite Hc2, Hc. case_decide as Hkk.
  - subst. by rewrite lookup_insert_eq, not_elem_of_list_to_map_1, (Hnew key) by (done || left).
  - by rewrite lookup_insert_ne.
Qed.

Lemma put_and_commit_ok kvs now db db' u :
  aligned db → NoDup kvs.*1 → (∀ k, k ∈ kvs.*1 → key_value db k = None) →
  put_and_commit kvs now db = (db', Ok u) →
  aligned db' ∧ ∀ k, key_value db' k = (list_to_map kvs : gmap string N) !! k ∪ key_value db k.
Proof.
  intros [Hwf Hl] Hnd Hnew. unfold put_and_commit, mbind, action_bind, get_state, modify, apply_writes.
  destruct (put_keys (keymap db) kvs) as [km ws] eqn:E.
  destruct (put_keys_fresh kvs _ (values (state db)) _ _ Hwf Hl Hnd Hnew E) as (Hwf' & Hl' & Hc).
  destruct (commit _ _ _ _) as [db1 [e|]] eqn:Hcm; [|done]. intros [= <-].
  apply commit_ok_post in Hcm. pose proof (cp_state _ _ _ _ _ _ Hcm) as Hs.
  destruct (cp_frame _ _ _ _ _ _ Hcm) as (Hk & _). simpl in Hs, Hk.
  split; [split; rewrite ?Hs, ?Hk; done|]. intros k.
  change (key_value db1 k) with (cell (keymap db1) (values (state db1)) k). rewrite Hs, Hk. apply Hc.
Qed.

Lemma put_and_commit_err kvs now db db' e :
  put_and_commit kvs now db = (db', Err e) → ∃ ce, e = PcnCommit ce.
Proof.
  unfold put_and_commit, mbind, action_bind, get_state, modify, apply_writes.
  destruct (put_keys _ _). destruct (commit _ _ _ _) as [? [|ce]]; [done|].
  intros [= _ <-]. by exists ce.
Qed.

(** ** What a database holds *)

Record state_cells db (base : string) (n : nat) (s : ChanState) : Prop := {
  sc_op : key_value db (ops_key base (N.of_nat n)) = Some (cs_op s);
  sc_status : key_value db (state_key base (N.of_nat n) "status") = Some (status_code (cs_status s));
  sc_b1 : key_value db (state_key base (N.of_nat n) "b1") = Some (cs_b1 s);
  sc_b2 : key_value db (state_key base (N.of_nat n) "b2") = Some (cs_b2 s)
}.

Record chan_rel db (a b : string) (c : Chan) : Prop := {
  cr_exists : ∃ v, key_value db (base_of a b) = Some v ∧ v ≠ 0%N;
  cr_capacity : key_value db (capacity_key (base_of a b)) = Some (ch_capacity c);
  cr_created : key_value db (created_key (base_of a b)) = Some (ch_created c);
  cr_small : is_u64 (N.of_nat (length (ch_hist c)));
  cr_state : ∀ i s, ch_hist c !! i = Some s → state_cells db (base_of a b) (S i) s
}.

Record ledger_rel db (L : Ledger) : Prop := {
  lr_aligned : aligned db;
  lr_chan : ∀ a b c, L !! (a, b) = Some c → ordered_plain a b ∧ chan_rel db a b c;
  lr_keys : ∀ k, starts_with k "channel:" = true → is_Some (key_value db k) →
    ∃ a b c, L !! (a, b) = Some c ∧ chan_key (base_of a b) (length (ch_hist c)) k
}.

Lemma chan_key_base a b a' b' n s k :
  ordered_plain a b → ordered_plain a' b' → tail_ok s → k = base_of a' b' +:+ s →
  chan_key (base_of a b) n k → a' = a ∧ b' = b.
Proof.
  intros (_ & ? & ?) (_ & ? & ?) Hs -> (s' & E & Hs')%chan_key_tail.
  by apply base_inj in E as (-> & -> & _).
Qed.

Lemma base_channel a b s : starts_with (base_of a b +:+ s) "channel:" = true.
Proof. apply starts_with_true. exists (a +:+ ":" +:+ b +:+ s). unfold base_of. by rewrite !str_app_assoc. Qed.

(** A key of a channel belongs to it. *)
Lemma ledger_key db L a b s :
  ledger_rel db L → ordered_plain a b → tail_ok s → is_Some (key_value db (base_of a b +:+ s)) →
  ∃ c, L !! (a, b) = Some c ∧ chan_key (base_of a b) (length (ch_hist c)) (base_of a b +:+ s).
Proof.
  intros HR Hab Hs Hk. apply (lr_keys _ _ HR) in Hk as (a' & b' & c & Hc & Hk); [|apply base_channel].
  destruct (lr_chan _ _ HR _ _ _ Hc) as [Hab' _].
  destruct (chan_key_base _ _ _ _ _ _ _ Hab' Hab Hs eq_refl Hk) as [-> ->]. by exists c.
Qed.

Lemma fresh_channel db L a b n k :
  ledger_rel db L → ordered_plain a b → L !! (a, b) = None → chan_key (base_of a b) n k →
  key_value db k = None.
Proof.
  intros HR Hab HL (s & -> & Hs)%chan_key_tail. apply eq_None_not_Some. intros Hk.
  eapply ledger_key in Hk as (c & Hc & _); try done. by rewrite HL in Hc.
Qed.

(** The keys of the next state of a channel. *)
Definition next_key (base : string) (n : nat) (k : string) : Prop :=
  k = ops_key base (N.of_nat n) ∨ ∃ f, plain f = true ∧ k = state_key base (N.of_nat n) f.

Lemma next_key_chan base n k : 1 ≤ n → next_key base n k → chan_key base n k.
Proof. intros ? [->|(f & ? & ->)]; constructor; done || lia. Qed.

Lemma fresh_state db L a b c k :
  ledger_rel db L → L !! (a, b) = Some c → next_key (base_of a b) (S (length (ch_hist c))) k →
  key_value db k = None.
Proof.
  intros HR HL Hn. destruct (lr_chan _ _ HR _ _ _ HL) as [Hab _].
  apply eq_None_not_Some. intros Hk.
  assert (chan_key (base_of a b) (length (ch_hist c)) k) as Hc.
  { destruct (chan_key_tail (base_of a b) (S (length (ch_hist c))) k) as (s & -> & Hs);
      [apply next_key_chan, Hn; lia|].
    eapply ledger_key in Hk as (c' & Hc & Hk); try done. rewrite HL in Hc. by injection Hc as ->. }
  destruct Hn as [->|(f & _ & ->)]; [apply chan_key_ops in Hc|apply chan_key_state in Hc];
    destruct Hc as (j & Hj & ?); lia.
Qed.

(** ** Extending a ledger *)

Lemma chan_rel_frame db db' a b c :
  (∀ s, tail_ok s → key_value db' (base_of a b +:+ s) = key_value db (base_of a b +:+ s)) →
  chan_rel db a b c → chan_rel db' a b c.
Proof.
  intros Hf [He Hcap Hcr Hsm Hst].
  assert (∀ n k, chan_key (base_of a b) n k → key_value db' k = key_value db k) as Hk.
  { intros n k (s & -> & Hs)%chan_key_tail. by apply Hf. }
  split; [..|done|].
  - rewrite (Hk 0) by constructor. done.
  - rewrite (Hk 0) by constructor. done.
  - rewrite (Hk 0) by constructor. done.
  - intros i s Hi. destruct (Hst i s Hi).
    split; rewrite (Hk (S i)) by (constructor; done || lia); done.
Qed.

Lemma ledger_extend db db' L a b c' kvs :
  ledger_rel db L → aligned db' →
  (∀ k, key_value db' k = (list_to_map kvs : gmap string N) !! k ∪ key_value db k) →
  ordered_plain a b →
  Forall (chan_key (base_of a b) (length (ch_hist c'))) kvs.*1 →
  (∀ c, L !! (a, b) = Some c → length (ch_hist c) ≤ length (ch_hist c')) →
  chan_rel db' a b c' → ledger_rel db' (<[(a, b) := c']> L).
Proof.
  intros HR Hal Hkv Hab Hkeys Hmono Hc'. split; [done| |].
  - intros a2 b2 c2. destruct (decide ((a, b) = (a2, b2))) as [[= <- <-]|Hne].
    { rewrite lookup_insert_eq. by intros [= <-]. }
    rewrite lookup_insert_ne by done. intros Hc2.
    destruct (lr_chan _ _ HR _ _ _ Hc2) as [Hab2 Hrel]. split; [done|].
    revert Hrel. apply chan_rel_frame. intros s Hs. rewrite Hkv.
    rewrite not_elem_of_list_to_map_1, (left_id_L None (∪)); [done|].
    intros Hin. rewrite Forall_forall in Hkeys. apply Hkeys in Hin.
    destruct (chan_key_base _ _ _ _ _ _ _ Hab Hab2 Hs eq_refl Hin) as [-> ->]. done.
  - intros k Hk Hsome. rewrite Hkv in Hsome.
    destruct ((list_to_map kvs : gmap string N) !! k) as [v|] eqn:Hl.
    { apply elem_of_list_to_map_2 in Hl. exists a, b, c'. rewrite lookup_insert_eq.
      split; [done|]. rewrite Forall_forall in Hkeys. apply Hkeys.
      apply list_elem_of_fmap. by exists (k, v). }
    rewrite (left_id_L None (∪)) in Hsome.
    destruct (lr_keys _ _ HR k Hk Hsome) as (a2 & b2 & c2 & Hc2 & Hck).
    destruct (decide ((a, b) = (a2, b2))) as [[= <- <-]|Hne].
    { exists a, b, c'. rewrite lookup_insert_eq. split; [done|].
      eapply chan_key_mono, Hck. by apply Hmono. }
    exists a2, b2, c2. by rewrite lookup_insert_ne.
Qed.

(** ** The search for the latest state *)

Lemma parse_digits_colon acc s t : parse_digits acc (s +:+ String ":" t) = None.
Proof.
  revert acc. induction s as [|c s IH]; intros acc; [done|]. rewrite str_app_cons. simpl.
  destruct (digit_val c); simpl; [|done]. destruct (_ <=? _)%N; [apply IH|done].
Qed.

Lemma parse_u64_colon s t : parse_u64 (s +:+ String ":" t) = None.
Proof.
  destruct s as [|c s]; [done|]. rewrite str_app_cons. unfold parse_u64.
  case_decide; [|apply (parse_digits_colon 0 (String c s))].
  destruct s as [|c' s]; [done|]. rewrite str_app_cons. apply (parse_digits_colon 0 (String c' s)).
Qed.

Lemma split_once_dec n t : split_once ":" (dec n +:+ ":" +:+ t) = Some (dec n, t).
Proof.
  pose proof (dec_digits n) as Hd. induction (dec n) as [|c s IH]; [done|].
  simpl in Hd. apply andb_true_iff in Hd as [Hc Hd]. rewrite str_app_cons. simpl.
  rewrite decide_False by (by intros <-). rewrite IH by done. done.
Qed.

(** The first loop of [latest_seq] never finds anything: what follows [:state:] must
    be a number to its end, and then nothing can follow that number. *)
Lemma seq_first_pass_zero base key : seq_first_pass base key = 0%N.
Proof.
  unfold seq_first_pass, parse_seq_from_key.
  destruct (strip_prefix (base +:+ ":state:") key) as [rest|] eqn:Hr; [|done]. simpl.
  destruct (parse_u64 rest) as [raw|] eqn:Hp; [|done].
  destruct (strip_prefix (base +:+ ":state:" +:+ dec raw +:+ ":") key) as [t|] eqn:Ht; [|done]. exfalso.
  apply strip_prefix_Some in Hr, Ht. subst key. rewrite !str_app_assoc in Ht.
  apply (inj (String.append base)) in Ht. apply (inj (String.append ":state:")) in Ht.
  subst rest.
  assert (parse_u64 (dec raw +:+ ":" +:+ t) = None) as E by apply parse_u64_colon.
  by rewrite E in Hp.
Qed.

Lemma fold_max_spec (f : string → N) keys acc n :
  (acc ≤ n)%N → (∀ k, k ∈ keys → f k ≤ n)%N → (acc = n ∨ ∃ k, k ∈ keys ∧ f k = n) →
  foldl (λ best k, N.max best (f k)) acc keys = n.
Proof.
  revert acc. induction keys as [|k keys IH]; intros acc Ha Hk Hn; simpl.
  { destruct Hn as [->|(k & Hk' & _)]; [done|]. by apply not_elem_of_nil in Hk'. }
  pose proof (Hk k ltac:(left)) as Hfk. apply IH; [lia|intros k' Hk'; apply Hk; by right|].
  destruct Hn as [->|(k' & [->|Hk']%elem_of_cons & <-)]; [left; lia|left; lia|].
  right. by exists k'.
Qed.

Lemma fold_max_zero f keys : (∀ k, k ∈ keys → f k = 0%N) → fold_max f keys = 0%N.
Proof. intros Hf. apply fold_max_spec; [done|intros k Hk; by rewrite Hf|by left]. Qed.

Lemma latest_seq_fallback db base :
  latest_seq db base = fold_max (seq_fallback base) (KM.all_keys (keymap db)).*1.
Proof.
  unfold latest_seq. rewrite (fold_max_zero (seq_first_pass base)); [done|].
  intros; apply seq_first_pass_zero.
Qed.

Lemma seq_fallback_state base i f : is_u64 i → seq_fallback base (state_key base i f) = i.
Proof.
  intros Hi. unfold seq_fallback, state_key.
  replace (base +:+ ":state:" +:+ dec i +:+ ":" +:+ f)
    with ((base +:+ ":state:") +:+ dec i +:+ ":" +:+ f) by by rewrite str_app_assoc.
  rewrite strip_prefix_app. simpl. rewrite (split_once_dec i f). simpl. by rewrite parse_dec.
Qed.

Lemma elem_of_all_keys db k : aligned db →
  k ∈ (KM.all_keys (keymap db)).*1 ↔ is_Some (key_value db k).
Proof. intros Hal. rewrite key_value_Some by done. apply elem_of_map_keys. Qed.

Lemma latest_seq_rel db L a b c :
  ledger_rel db L → L !! (a, b) = Some c →
  latest_seq db (base_of a b) = N.of_nat (length (ch_hist c)).
Proof.
  intros HR HL. destruct (lr_chan _ _ HR _ _ _ HL) as [Hab Hrel].
  pose proof (cr_small _ _ _ _ Hrel) as Hsm.
  rewrite latest_seq_fallback. apply fold_max_spec; [lia| |].
  - intros k Hk. rewrite elem_of_all_keys in Hk by apply HR. unfold seq_fallback.
    destruct (strip_prefix (base_of a b +:+ ":state:") k) as [rest|] eqn:Hr; [|simpl; lia].
    apply strip_prefix_Some in Hr. rewrite str_app_assoc in Hr. subst k.
    eapply ledger_key in Hk as (c' & Hc' & Hk); try done; [|right; by eexists].
    rewrite HL in Hc'. injection Hc' as <-. cbn [mbind option_bind].
    destruct (split_once ":" rest) as [[x y]|] eqn:Hs; [|simpl; lia]. cbn [mbind option_bind].
    remember (base_of a b +:+ ":state:" +:+ rest) as k eqn:E.
    destruct Hk as [| | |i Hi|i f Hi _]; try (exfalso; key_discr (base_of a b)).
    unfold state_key in E. apply (inj (String.append _)) in E.
    apply (inj (String.append ":state:")) in E. subst rest.
    rewrite split_once_dec in Hs. injection Hs as <- <-.
    rewrite parse_dec by (unfold is_u64 in *; lia). cbn [default from_option id]. lia.
  - right. exists (state_key (base_of a b) (N.of_nat (length (ch_hist c))) "status").
    split; [|by apply seq_fallback_state]. rewrite elem_of_all_keys by apply HR.
    destruct (cr_state _ _ _ _ Hrel _ _ (ch_last_lookup c)) as [_ Hs _ _].
    replace (S (length (ch_hist c) - 1)) with (length (ch_hist c)) in Hs by (simpl; lia).
    by rewrite Hs.
Qed.

(** ** Reading a channel *)

Lemma last_cells db L a b c :
  ledger_rel db L → L !! (a, b) = Some c →
  state_cells db (base_of a b) (length (ch_hist c)) (ch_last c).
Proof.
  intros HR HL. destruct (lr_chan _ _ HR _ _ _ HL) as [_ Hrel].
  pose proof (cr_state _ _ _ _ Hrel _ _ (ch_last_lookup c)) as Hs.
  by replace (S (length (ch_hist c) - 1)) with (length (ch_hist c)) in Hs by (simpl; lia).
Qed.

Lemma exists_channel_rel db L a b :
  ledger_rel db L → ordered_plain a b →
  exists_channel db (base_of a b) = bool_decide (is_Some (L !! (a, b))).
Proof.
  intros HR Hab. unfold exists_channel. destruct (L !! (a, b)) as [c|] eqn:HL.
  - rewrite bool_decide_eq_true_2 by done.
    destruct (cr_exists _ _ _ _ (proj2 (lr_chan _ _ HR _ _ _ HL))) as (v & -> & Hv). simpl.
    by apply negb_true_iff, N.eqb_neq.
  - rewrite bool_decide_eq_false_2 by (by intros [? ?]).
    by rewrite (fresh_channel _ _ _ _ 0 _ HR Hab HL) by constructor.
Qed.

(** ** The operations *)

Definition state_writes (base : string) (n : nat) (s : ChanState) (extra : list (string * N))
  : list (string * N) :=
  (ops_key base (N.of_nat n), cs_op s) ::
  (state_key base (N.of_nat n) "status", status_code (cs_status s)) ::
  extra ++ [(state_key base (N.of_nat n) "b1", cs_b1 s); (state_key base (N.of_nat n) "b2", cs_b2 s)].

Definition extra_ok (base : string) (n : nat) (extra : list (string * N)) : Prop :=
  extra = [] ∨ ∃ v, extra = [(state_key base (N.of_nat n) "capacity", v)].

Lemma state_writes_keys base n s extra :
  extra_ok base n extra →
  NoDup (state_writes base n s extra).*1 ∧ Forall (next_key base n) (state_writes base n s extra).*1.
Proof.
  intros He. unfold state_writes. split.
  - destruct He as [->|[v ->]]; simpl; repeat constructor; rewrite ?elem_of_cons, ?elem_of_nil;
      intros Hin; repeat (destruct Hin as [Hin|Hin]); done || key_discr base.
  - destruct He as [->|[v ->]]; simpl; rewrite ?Forall_cons, Forall_nil;
      split_and!; solve [done|by left|right; eexists; split; [|reflexivity]; reflexivity].
Qed.

Lemma state_writes_cells base n s extra :
  (ops_key base (N.of_nat n), cs_op s) ∈ state_writes base n s extra ∧
  (state_key base (N.of_nat n) "status", status_code (cs_status s)) ∈ state_writes base n s extra ∧
  (state_key base (N.of_nat n) "b1", cs_b1 s) ∈ state_writes base n s extra ∧
  (state_key base (N.of_nat n) "b2", cs_b2 s) ∈ state_writes base n s extra.
Proof. unfold state_writes. set_solver. Qed.

(** Writing the cells of the next state pushes it on the channel. *)
Lemma push_rel db db' L a b c s extra now u :
  ledger_rel db L → L !! (a, b) = Some c → is_u64 (N.of_nat (S (length (ch_hist c)))) →
  extra_ok (base_of a b) (S (length (ch_hist c))) extra →
  put_and_commit (state_writes (base_of a b) (S (length (ch_hist c))) s extra) now db = (db', Ok u) →
  ledger_rel db' (<[(a, b) := ch_push c s]> L).
Proof.
  intros HR HL Hsm He Hc. destruct (lr_chan _ _ HR _ _ _ HL) as [Hab Hrel].
  destruct (state_writes_keys _ _ s _ He) as [Hnd Hkeys].
  pose proof (state_writes_cells (base_of a b) (S (length (ch_hist c))) s extra) as Hcells.
  set (kvs := state_writes _ _ _ _) in *. clearbody kvs.
  assert (∀ k, k ∈ kvs.*1 → key_value db k = None) as Hnew.
  { intros k Hk. rewrite Forall_forall in Hkeys. eapply fresh_state; eauto. }
  destruct (put_and_commit_ok _ _ _ _ _ (lr_aligned _ _ HR) Hnd Hnew Hc) as [Hal Hkv].
  assert (length (ch_hist (ch_push c s)) = S (length (ch_hist c))) as Hlen.
  { rewrite ch_hist_push, length_app. simpl. lia. }
  assert (∀ k v, (k, v) ∈ kvs → key_value db' k = Some v) as Hin.
  { intros k v Hk. rewrite Hkv, (elem_of_list_to_map_1 _ k v Hnd Hk), (Hnew k); [done|].
    apply list_elem_of_fmap. by exists (k, v). }
  assert (∀ k w, key_value db k = Some w → key_value db' k = Some w) as Hold.
  { intros k w Hk. rewrite Hkv, not_elem_of_list_to_map_1, Hk; [done|].
    intros Hk'%Hnew. by rewrite Hk in Hk'. }
  eapply ledger_extend; try done.
  - rewrite Hlen. eapply Forall_impl; [done|]. intros k. apply next_key_chan. lia.
  - intros c' Hc'. rewrite HL in Hc'. injection Hc' as <-. lia.
  - destruct Hrel as [(v & Hv & Hnz) Hcap Hcr _ Hst]. split; try (by apply Hold).
    + exists v. split; [by apply Hold|done].
    + by rewrite Hlen.
    + intros i s' Hi. rewrite ch_hist_push in Hi. apply lookup_snoc_Some in Hi as [[_ Hi]|[-> <-]].
      * destruct (Hst i s' Hi). split; by apply Hold.
      * destruct Hcells as (? & ? & ? & ?). split; by apply Hin.
Qed.

(** The record whose digest anchors a new channel. *)
Definition opened_record (p1 p2 : string) (cap now : N) : ChannelRecord := {|
  participant1 := (canonical_pair p1 p2).1; participant2 := (canonical_pair p1 p2).2;
  capacity := cap; status := ChOpen; created_at := now; last_seq := 1 |}.

Lemma open_writes_keys p1 p2 cap base r :
  NoDup (open_writes (OpOpen p1 p2 cap) base r).*1 ∧
  Forall (chan_key base 1) (open_writes (OpOpen p1 p2 cap) base r).*1.
Proof.
  unfold open_writes. simpl. split.
  - repeat constructor; rewrite ?elem_of_cons, ?elem_of_nil;
      intros Hin; repeat (destruct Hin as [Hin|Hin]); done || key_discr base.
  - rewrite !Forall_cons, Forall_nil.
    split_and!; try done; try constructor; try apply (key_ops base 1 1); try lia;
      apply (key_state base 1 1); done || lia.
Qed.

Lemma open_rel db db' L a b p1 p2 cap now r t u :
  ledger_rel db L → ordered_plain a b → L !! (a, b) = None → record_sentinel r ≠ 0%N →
  capacity r = cap → created_at r = t →
  put_and_commit (open_writes (OpOpen p1 p2 cap) (base_of a b) r) now db = (db', Ok u) →
  ledger_rel db' (<[(a, b) := mk_Chan cap t (mk_ChanState 1 ChOpen cap 0) []]> L).
Proof.
  intros HR Hab HL Hnz Hcap Ht Hc.
  destruct (open_writes_keys p1 p2 cap (base_of a b) r) as [Hnd Hkeys].
  assert (∀ k, k ∈ (open_writes (OpOpen p1 p2 cap) (base_of a b) r).*1 → key_value db k = None)
    as Hnew.
  { intros k Hk. rewrite Forall_forall in Hkeys. eapply fresh_channel; eauto. }
  destruct (put_and_commit_ok _ _ _ _ _ (lr_aligned _ _ HR) Hnd Hnew Hc) as [Hal Hkv].
  assert (∀ k v, (k, v) ∈ open_writes (OpOpen p1 p2 cap) (base_of a b) r →
    key_value db' k = Some v) as Hin.
  { intros k v Hk. rewrite Hkv, (elem_of_list_to_map_1 _ k v Hnd Hk). by destruct (key_value db k). }
  eapply ledger_extend; try done; [by intros c'; rewrite HL|]. subst cap t.
  unfold open_writes in Hin. split; simpl.
  - exists (record_sentinel r). split; [|done]. apply Hin. set_solver.
  - apply Hin. set_solver.
  - apply Hin. set_solver.
  - done.
  - intros [|i] s Hi; [injection Hi as <-|done]. split; apply Hin; set_solver.
Qed.

(** ** Refinement *)

Definition op_plain (op : SettlementOp) : Prop := plain (op_pair op).1 = true ∧ plain (op_pair op).2 = true.
Definition sentinel_ok (op : SettlementOp) (now : N) : Prop :=
  match op with
  | OpOpen p1 p2 cap => record_sentinel (opened_record p1 p2 cap now) ≠ 0%N
  | _ => True
  end.
(** No channel the operation extends has used up the sequence numbers. *)
Definition room (op : SettlementOp) (L : Ledger) : Prop :=
  ∀ c, L !! op_pair op = Some c → is_u64 (N.of_nat (S (length (ch_hist c)))).

Definition op_result (op : SettlementOp) (now : N) db (L : Ledger) db' (r : result PcnError ()) : Prop :=
  match r with
  | Ok _ => ∃ L', spec_op op now L = Ok L' ∧ ledger_rel db' L'
  | Err (PcnCommit _) => is_ok (spec_op op now L) = true
  | Err e => spec_op op now L = Err e ∧ db' = db
  end.

Lemma canonical_ordered p1 p2 :
  plain (canonical_pair p1 p2).1 = true → plain (canonical_pair p1 p2).2 = true →
  ordered_plain (canonical_pair p1 p2).1 (canonical_pair p1 p2).2.
Proof.
  unfold ordered_plain, canonical_pair, str_leb. case_bool_decide as E; simpl; intros ? ?; split; try done;
    apply bool_decide_eq_true_2; [done|]. by destruct (total String.le p1 p2).
Qed.

Lemma op_result_put op now db L db' r kvs c' :
  spec_chan op now (L !! op_pair op) = Ok c' →
  (∀ u, put_and_commit kvs now db = (db', Ok u) → ledger_rel db' (<[op_pair op := c']> L)) →
  put_and_commit kvs now db = (db', r) → op_result op now db L db' r.
Proof.
  intros Hs Hr E. unfold op_result, spec_op. rewrite Hs. destruct r as [u|e].
  - eexists. split; [done|]. by eapply Hr.
  - by destruct (put_and_commit_err _ _ _ _ _ E) as [ce ->].
Qed.

Lemma op_result_err op now db L e :
  spec_chan op now (L !! op_pair op) = Err e → (∀ ce, e ≠ PcnCommit ce) →
  op_result op now db L db (Err e).
Proof.
  intros Hs Hne. unfold op_result, spec_op. rewrite Hs.
  destruct e; try by split. by destruct (Hne e).
Qed.

Lemma next_seq_small n : is_u64 (N.of_nat (S n)) → wrapping_add64 (N.of_nat n) 1 = N.of_nat (S n).
Proof. intros Hn. unfold wrapping_add64. rewrite wrap64_small; [lia|]. unfold is_u64 in *. lia. Qed.

Lemma status_roundtrip s : status_from_code (status_code s) = s.
Proof. by destruct s. Qed.

Lemma append_only_rel db L : ledger_rel db L → ledger_rel (set_append_only db) L.
Proof.
  intros [[Hw Hl] Hc Hk]. split; [split; [exact Hw|exact Hl]| |exact Hk].
  intros a b c HL. destruct (Hc a b c HL) as [Hab Hrel]. split; [done|].
  by apply (chan_rel_frame db).
Qed.

Lemma channel_base_pair p1 p2 :
  channel_base p1 p2 = base_of (canonical_pair p1 p2).1 (canonical_pair p1 p2).2.
Proof. unfold channel_base. by destruct (canonical_pair p1 p2). Qed.

(** An operation on a channel that exists. *)
Lemma apply_existing op now db L db' r a b c :
  ledger_rel db L → op_pair op = (a, b) → L !! (a, b) = Some c →
  is_u64 (N.of_nat (S (length (ch_hist c)))) →
  apply_op op now db = (db', r) → op_result op now db L db' r.
Proof.
  intros HR Hpair HL Hsm. destruct (lr_chan _ _ HR _ _ _ HL) as [Hab [_ Hcap _ _ _]].
  pose proof (exists_channel_rel _ _ _ _ HR Hab) as Hex. rewrite HL in Hex.
  rewrite bool_decide_eq_true_2 in Hex by done.
  destruct (last_cells _ _ _ _ _ HR HL) as [_ Hst Hb1 Hb2].
  pose proof (latest_seq_rel _ _ _ _ _ HR HL) as Hseq.
  assert ((N.of_nat (length (ch_hist c)) =? 0)%N = false) as Hpos by (apply N.eqb_neq; simpl; lia).
  assert (∀ s extra, spec_chan op now (Some c) = Ok (ch_push c s) →
    extra_ok (base_of a b) (S (length (ch_hist c))) extra →
    put_and_commit (state_writes (base_of a b) (S (length (ch_hist c))) s extra) now db = (db', r) →
    op_result op now db L db' r) as Hpush.
  { intros s extra Hs He. apply (op_result_put _ _ _ _ _ _ _ (ch_push c s)); rewrite Hpair, ?HL; [done|].
    intros u. by apply push_rel. }
  assert (∀ e, spec_chan op now (Some c) = Err e → (∀ ce, e ≠ PcnCommit ce) → (db, Err e) = (db', r) →
    op_result op now db L db' r) as Herr.
  { intros e Hs Hne [= <- <-]. apply op_result_err; [by rewrite Hpair, HL|done]. }
  unfold apply_op, mbind, action_bind, get_state, lift_res, modify, state_or, capacity_for, throw_if.
  destruct op as [p1 p2 cap|p1 p2|p1 p2 cap|p1 p2 b1 b2]; cbn [op_pair] in Hpair;
    rewrite (channel_base_pair p1 p2), Hpair; cbn [fst snd];
    rewrite Hex, ?Hseq, ?Hst, ?Hb1, ?Hb2, ?Hcap, ?Hpos, ?next_seq_small by done;
    cbn [negb ok_or default from_option id].
  - by apply Herr.
  - apply (Hpush (close_state c) []); [done|by left].
  - apply (Hpush (splice_state c cap) [(_, cap)]); [done|right; by eexists].
  - cbn [spec_chan] in Hpush, Herr. destruct (negb (saturating_add64 b1 b2 =? ch_capacity c)%N).
    { by apply Herr. }
    rewrite status_roundtrip. destruct (negb (bool_decide (cs_status (ch_last c) = ChOpen))).
    { by apply Herr. }
    apply (Hpush (mk_ChanState 4 ChOpen b1 b2) []); [done|by left].
Qed.

(** An operation on a channel that does not exist. *)
Lemma apply_missing op now db L db' r a b :
  ledger_rel db L → op_pair op = (a, b) → ordered_plain a b → L !! (a, b) = None →
  sentinel_ok op now → apply_op op now db = (db', r) → op_result op now db L db' r.
Proof.
  intros HR Hpair Hab HL Hnz. pose proof (exists_channel_rel _ _ _ _ HR Hab) as Hex. rewrite HL in Hex.
  rewrite bool_decide_eq_false_2 in Hex by (by intros [? ?]).
  unfold apply_op, mbind, action_bind, get_state, lift_res, modify.
  destruct op as [p1 p2 cap|p1 p2|p1 p2 cap|p1 p2 b1 b2]; pose proof Hpair as Hpair'; cbn [op_pair] in Hpair';
    rewrite (channel_base_pair p1 p2), Hpair'; cbn [fst snd]; rewrite Hex; cbn [negb];
    try (intros [= <- <-]; apply op_result_err; [by rewrite Hpair, HL|done]).
  intros E. unfold op_result, spec_op. rewrite Hpair, HL. destruct r as [u|e].
  - eexists. split; [done|]. apply append_only_rel in HR.
    unfold sentinel_ok, opened_record in Hnz. rewrite Hpair' in Hnz. by eapply open_rel.
  - by apply put_and_commit_err in E as [ce ->].
Qed.

Lemma apply_op_result op now db L db' r :
  ledger_rel db L → op_plain op → sentinel_ok op now → room op L →
  apply_op op now db = (db', r) → op_result op now db L db' r.
Proof.
  intros HR [Hp1 Hp2] Hnz Hroom.
  assert (ordered_plain (op_pair op).1 (op_pair op).2) as Hab.
  { destruct op; by apply canonical_ordered. }
  unfold room in Hroom. destruct (op_pair op) as [a b] eqn:Hpair.
  destruct (L !! (a, b)) as [c|] eqn:HL.
  - eapply apply_existing; eauto.
  - by eapply apply_missing.
Qed.

(** ** Snapshots *)

(** The index of operations, as a function of the sequence number. *)
Definition op_at (c : Chan) (n : N) : option string :=
  if (n =? 0)%N then None else (λ s, op_name (cs_op s)) <$> ch_hist c !! (N.to_nat n - 1).

Lemma op_at_Some c n k :
  op_at c n = Some k ↔ ∃ i s, n = N.of_nat (S i) ∧ ch_hist c !! i = Some s ∧ k = op_name (cs_op s).
Proof.
  unfold op_at. destruct (N.eqb_spec n 0) as [->|Hn].
  - split; [done|]. intros (i & s & Hi & _). lia.
  - rewrite fmap_Some. split.
    + intros (s & Hs & ->). exists (N.to_nat n - 1), s. split; [lia|done].
    + intros (i & s & -> & Hs & ->). exists s. by rewrite Nat2N.id, Nat.sub_1_r.
Qed.

Lemma op_entry_ops db base i idx :
  is_u64 i → op_entry db base (ops_key base i, idx) = Some (i, op_name (value_at (state db) idx)).
Proof.
  intros Hi. unfold op_entry, ops_key.
  replace (base +:+ ":ops:" +:+ dec i +:+ ":kind") with ((base +:+ ":ops:") +:+ dec i +:+ ":" +:+ "kind")
    by by rewrite str_app_assoc.
  replace (starts_with _ _) with true by (symmetry; apply starts_with_true; by eexists).
  replace (ends_with ((base +:+ ":ops:") +:+ dec i +:+ ":" +:+ "kind") ":kind") with true.
  2: { unfold ends_with. change (":" +:+ "kind") with ":kind".
       rewrite <-str_app_assoc. by rewrite (strip_suffix_app ":kind"). }
  cbn [negb orb]. rewrite strip_prefix_app. cbn [mbind option_bind].
  rewrite split_once_dec. cbn [mbind option_bind]. by rewrite parse_dec.
Qed.

Lemma value_at_cell db k idx v :
  KM.get (keymap db) k = Some idx → key_value db k = Some v → value_at (state db) idx = v.
Proof. intros Hk. unfold key_value, value_at, get_or. rewrite Hk. simpl. by intros ->. Qed.

Lemma op_entry_rel db L a b c kv n k :
  ledger_rel db L → L !! (a, b) = Some c → kv ∈ KM.all_keys (keymap db) →
  op_entry db (base_of a b) kv = Some (n, k) → op_at c n = Some k.
Proof.
  intros HR HL Hin He. destruct kv as [key idx]. apply elem_of_entries in Hin.
  destruct (lr_chan _ _ HR _ _ _ HL) as [Hab Hrel].
  assert (∃ rest, key = base_of a b +:+ ":ops:" +:+ rest) as [rest Hkey].
  { unfold op_entry in He. destruct (starts_with key (base_of a b +:+ ":ops:")) eqn:Hst; [|done].
    apply starts_with_true in Hst as [rest ->]. exists rest. by rewrite str_app_assoc. }
  assert (is_Some (key_value db key)) as Hkv by (apply key_value_Some; [apply HR|by rewrite Hin]).
  pose proof Hkv as Hck. rewrite Hkey in Hck.
  eapply ledger_key in Hck as (c' & Hc' & Hck); try done; [|right; by eexists].
  rewrite <-Hkey in Hck. rewrite HL in Hc'. injection Hc' as <-.
  destruct Hck as [| | |i Hi|i f Hi _]; try (exfalso; key_discr (base_of a b)).
  pose proof (cr_small _ _ _ _ Hrel) as Hsm.
  rewrite op_entry_ops in He by (unfold is_u64 in *; lia). injection He as <- <-.
  destruct (lookup_lt_is_Some_2 (ch_hist c) (i - 1)) as [s Hs]; [lia|].
  destruct (cr_state _ _ _ _ Hrel _ _ Hs) as [Hop _ _ _]. replace (S (i - 1)) with i in Hop by lia.
  apply op_at_Some. exists (i - 1), s. split; [lia|]. split; [done|].
  by erewrite value_at_cell.
Qed.

Lemma fold_insert_rel {A} (f : A → option (N * string)) (g : N → option string) l m :
  (∀ n k, m !! n = Some k → g n = Some k) →
  (∀ x n k, x ∈ l → f x = Some (n, k) → g n = Some k) →
  (∀ n, is_Some (g n) → is_Some (m !! n) ∨ ∃ x k, x ∈ l ∧ f x = Some (n, k)) →
  ∀ n, foldl (λ (m : gmap N string) x, match f x with Some (s, k) => <[s := k]> m | None => m end) m l !! n = g n.
Proof.
  revert m. induction l as [|x l IH]; intros m Hm Hf Hg n; simpl.
  { apply option_eq. intros k. split; [apply Hm|]. intros Hk.
    destruct (Hg n) as [[k' Hk']|(x & ? & Hx & _)]; [by eexists| |by apply not_elem_of_nil in Hx].
    pose proof (Hm _ _ Hk'). congruence. }
  apply IH.
  - intros n' k Hk. destruct (f x) as [[n1 k1]|] eqn:Hx; [|by apply Hm].
    apply lookup_insert_Some in Hk as [[<- <-]|[_ Hk]]; [|by apply Hm].
    eapply Hf, Hx. by left.
  - intros y n' k Hy. apply Hf. by right.
  - intros n' Hn'. destruct (Hg n' Hn') as [Hs|(y & k & [->|Hy]%elem_of_cons & Hfy)].
    + left. destruct (f x) as [[n1 k1]|]; [|done]. apply lookup_insert_is_Some.
      destruct (decide (n1 = n')); auto.
    + left. rewrite Hfy, lookup_insert_eq. done.
    + right. by exists y, k.
Qed.

Lemma op_index_rel db L a b c n :
  ledger_rel db L → L !! (a, b) = Some c → op_index db (base_of a b) !! n = op_at c n.
Proof.
  intros HR HL. unfold op_index. apply fold_insert_rel.
  - intros ? ?. by rewrite lookup_empty.
  - intros kv n' k Hkv. by eapply op_entry_rel.
  - intros n' [k (i & s & -> & Hs & ->)%op_at_Some]. right.
    destruct (lr_chan _ _ HR _ _ _ HL) as [Hab Hrel].
    destruct (cr_state _ _ _ _ Hrel _ _ Hs) as [Hop _ _ _].
    assert (is_Some (forward (keymap db) !! ops_key (base_of a b) (N.of_nat (S i)))) as [idx Hidx].
    { apply key_value_Some; [apply HR|]. by rewrite Hop. }
    exists (ops_key (base_of a b) (N.of_nat (S i)), idx), (op_name (value_at (state db) idx)).
    split; [by apply elem_of_entries|]. apply op_entry_ops.
    pose proof (cr_small _ _ _ _ Hrel). apply lookup_lt_Some in Hs. unfold is_u64 in *. lia.
Qed.

Lemma imap_num_sorted {A} (h : A → string) l d :
  StronglySorted num_le (imap (λ i s, (N.of_nat (S (i + d)), h s)) l).
Proof.
  revert d. induction l as [|x l IH]; intros d; [constructor|]. rewrite imap_cons. constructor.
  - erewrite imap_ext; [apply (IH (S d))|]. intros i y _. simpl. by rewrite Nat.add_succ_r.
  - apply Forall_forall. intros y Hy. apply list_elem_of_lookup in Hy as [i Hi].
    rewrite list_lookup_imap, fmap_Some in Hi. destruct Hi as (z & _ & ->). unfold num_le. simpl. lia.
Qed.

Lemma channel_ops_rel db L a b c :
  ledger_rel db L → L !! (a, b) = Some c →
  channel_ops db (base_of a b) =
    imap (λ i s, {| op_seq := N.of_nat (S i); op_kind := op_name (cs_op s) |}) (ch_hist c).
Proof.
  intros HR HL. unfold channel_ops.
  assert (merge_sort num_le (map_to_list (op_index db (base_of a b))) =
    imap (λ i s, (N.of_nat (S (i + 0)), op_name (cs_op s))) (ch_hist c)) as ->.
  - assert (∀ x, x ∈ imap (λ i s, (N.of_nat (S (i + 0)), op_name (cs_op s))) (ch_hist c) ↔
      op_at c x.1 = Some x.2) as Hin.
    { intros [n k]. rewrite op_at_Some, list_elem_of_lookup. setoid_rewrite list_lookup_imap.
      setoid_rewrite fmap_Some. setoid_rewrite Nat.add_0_r. simpl. naive_solver. }
    apply (StronglySorted_unique_strong num_le).
    + intros [n1 k1] [n2 k2] Hx Hy Hle Hge.
      rewrite merge_sort_Permutation, elem_of_map_to_list, (op_index_rel _ _ _ _ c) in Hx by done.
      apply Hin in Hy. unfold num_le in *. simpl in *. assert (n1 = n2) as -> by lia. congruence.
    + apply StronglySorted_merge_sort; intros ?; unfold num_le; intros; lia.
    + apply imap_num_sorted.
    + rewrite merge_sort_Permutation. apply NoDup_Permutation; [apply NoDup_map_to_list| |].
      * apply NoDup_alt. intros i j x. rewrite !list_lookup_imap, !fmap_Some.
        intros (? & _ & ->) (? & _ & [= Hij _]). lia.
      * intros [n k]. by rewrite Hin, elem_of_map_to_list, (op_index_rel _ _ _ _ _ _ HR HL).
  - rewrite fmap_imap. apply imap_ext. intros i s _. simpl. by rewrite Nat.add_0_r.
Qed.

Lemma channel_snapshot_rel db L p1 p2 :
  ledger_rel db L → plain (canonical_pair p1 p2).1 = true → plain (canonical_pair p1 p2).2 = true →
  channel_snapshot db p1 p2 = spec_snapshot L p1 p2.
Proof.
  intros HR Hp1 Hp2. pose proof (canonical_ordered _ _ Hp1 Hp2) as Hab.
  unfold channel_snapshot, spec_snapshot. rewrite channel_base_pair.
  destruct (canonical_pair p1 p2) as [a b]. cbn [fst snd] in *.
  rewrite (exists_channel_rel _ _ _ _ HR Hab). destruct (L !! (a, b)) as [c|] eqn:HL.
  2: { by rewrite bool_decide_eq_false_2 by (by intros [? ?]). }
  rewrite bool_decide_eq_true_2 by done.
  destruct (lr_chan _ _ HR _ _ _ HL) as [_ [_ Hcap Hcr _ _]].
  destruct (last_cells _ _ _ _ _ HR HL) as [_ Hst Hb1 Hb2]. unfold capacity_for, state_or.
  rewrite (latest_seq_rel _ _ _ _ _ HR HL), Hcap, Hcr, Hst, Hb1, Hb2, (channel_ops_rel _ _ _ _ _ HR HL).
  cbn [negb mbind option_bind default from_option id]. rewrite status_roundtrip.
  by replace (N.of_nat (length (ch_hist c)) =? 0)%N with false by (symmetry; apply N.eqb_neq; simpl; lia).
Qed.

(** ** Compliance *)

Lemma base_of_inj a b a' b' :
  ordered_plain a b → ordered_plain a' b' → base_of a b = base_of a' b' → a = a' ∧ b = b'.
Proof.
  intros (_ & ? & ?) (_ & ? & ?) E.
  rewrite <-(str_app_nil_r (base_of a b)), <-(str_app_nil_r (base_of a' b')) in E.
  apply base_inj in E as (-> & -> & _); done || by left.
Qed.

Lemma elem_of_channel_bases db L base :
  ledger_rel db L →
  base ∈ channel_bases db ↔ ∃ a b c, L !! (a, b) = Some c ∧ base = base_of a b.
Proof.
  intros HR. unfold channel_bases. rewrite elem_of_set_elems, elem_of_list_to_set, list_elem_of_omap.
  split.
  - intros ([key idx] & Hin & Hf). simpl in Hf. apply elem_of_entries in Hin.
    destruct (starts_with key "channel:") eqn:Hst; [|done].
    destruct (ends_with key ":meta:capacity") eqn:Hen; [|done]. cbn [negb orb] in Hf.
    assert (is_Some (key_value db key)) as Hkv by (apply key_value_Some; [apply HR|by rewrite Hin]).
    destruct (lr_keys _ _ HR _ Hst Hkv) as (a & b & c & HL & Hk).
    destruct (lr_chan _ _ HR _ _ _ HL) as [Hab _].
    unfold ends_with in Hen. destruct (strip_suffix ":meta:capacity" key) as [r|] eqn:Hr; [|done].
    apply strip_suffix_Some in Hr. pose proof (chan_key_suffix _ _ _ _ _ Hab Hk Hr) as ->.
    change (key = capacity_key (base_of a b)) in Hr. subst key. rewrite trim_capacity in Hf by done.
    destruct (exists_channel _ _); [|done]. injection Hf as <-. by exists a, b, c.
  - intros (a & b & c & HL & ->). destruct (lr_chan _ _ HR _ _ _ HL) as [Hab Hrel].
    assert (is_Some (forward (keymap db) !! capacity_key (base_of a b))) as [idx Hidx].
    { apply key_value_Some; [apply HR|]. by rewrite (cr_capacity _ _ _ _ Hrel). }
    exists (capacity_key (base_of a b), idx). split; [by apply elem_of_entries|]. cbn [fst].
    rewrite trim_capacity, (exists_channel_rel _ _ _ _ HR Hab), HL by done.
    rewrite bool_decide_eq_true_2 by done.
    replace (starts_with _ _) with true by (symmetry; apply base_channel).
    unfold ends_with, capacity_key. by rewrite (strip_suffix_app ":meta:capacity").
Qed.

(** The balances of the last state add up to the capacity, as [u64] saturates. *)
Definition state_feasible (cap : N) (s : ChanState) : bool :=
  (saturating_add64 (cs_b1 s) (cs_b2 s) =? cap)%N.
Definition chan_feasible (c : Chan) : bool := state_feasible (ch_capacity c) (ch_last c).
Definition count_feasible (L : Ledger) : nat :=
  length (filter (λ kc : string * string * Chan, chan_feasible kc.2 = true) (map_to_list L)).

Lemma channel_bases_perm db L :
  ledger_rel db L →
  channel_bases db ≡ₚ (λ kc : string * string * Chan, base_of kc.1.1 kc.1.2) <$> map_to_list L.
Proof.
  intros HR. apply NoDup_Permutation.
  - unfold channel_bases, set_elems. rewrite merge_sort_Permutation. apply NoDup_elements.
  - apply NoDup_fmap_2_strong; [|apply NoDup_map_to_list].
    intros [[a b] c] [[a' b'] c'] Hx%elem_of_map_to_list Hy%elem_of_map_to_list E. simpl in E.
    destruct (lr_chan _ _ HR _ _ _ Hx) as [Hab _], (lr_chan _ _ HR _ _ _ Hy) as [Hab' _].
    destruct (base_of_inj _ _ _ _ Hab Hab' E) as [-> ->]. congruence.
  - intros base. rewrite (elem_of_channel_bases _ _ _ HR), list_elem_of_fmap. split.
    + intros (a & b & c & HL & ->). exists (a, b, c). by rewrite elem_of_map_to_list.
    + intros ([[a b] c] & -> & HL). exists a, b, c. by rewrite <-elem_of_map_to_list.
Qed.

(** What the loop of [compliance_witness] counts at a base. *)
Definition base_feasible db (base : string) : bool :=
  (saturating_add64 (state_or 0 db base (latest_seq db base) "b1")
     (state_or 0 db base (latest_seq db base) "b2") =? default 0 (capacity_for db base))%N.

Lemma compliance_step_count db base r v i l :
  latest_seq db base ≠ 0%N →
  ∃ r' l', compliance_step db (r, v, i, l) base =
    (r', if base_feasible db base then v + 1 else v, if base_feasible db base then i else i + 1, l')%N.
Proof.
  intros Hn%N.eqb_neq. unfold compliance_step. rewrite Hn. by eexists _, _.
Qed.

Lemma compliance_fold db bases replay valid invalid leaves :
  (∀ base, base ∈ bases → latest_seq db base ≠ 0%N) →
  ∃ replay' leaves',
    foldl (compliance_step db) (replay, valid, invalid, leaves) bases =
      (replay', valid + N.of_nat (length (filter (λ b, base_feasible db b = true) bases)),
       invalid + N.of_nat (length (filter (λ b, base_feasible db b = false) bases)), leaves')%N.
Proof.
  revert replay valid invalid leaves. induction bases as [|base bases IH]; intros r v i l Hb.
  { exists r, l. simpl. by rewrite !N.add_0_r. }
  rewrite !filter_cons. cbn [foldl].
  assert (∀ b, b ∈ bases → latest_seq db b ≠ 0%N) as Hb' by (intros b Hin; apply Hb; by right).
  destruct (compliance_step_count db base r v i l) as (r1 & l1 & ->); [apply Hb; left|].
  destruct (base_feasible db base) eqn:Hf;
    match goal with |- context [foldl _ (_, ?v', ?i', _) _] =>
      destruct (IH r1 v' i' l1 Hb') as (r' & l' & ->) end;
    exists r', l'; repeat (case_decide; try done); cbn [length];
    rewrite !pair_equal_spec; split_and!; done || lia.
Qed.

Lemma base_feasible_rel db L a b c :
  ledger_rel db L → L !! (a, b) = Some c → base_feasible db (base_of a b) = chan_feasible c.
Proof.
  intros HR HL. destruct (last_cells _ _ _ _ _ HR HL) as [_ _ Hb1 Hb2].
  destruct (lr_chan _ _ HR _ _ _ HL) as [_ [_ Hcap _ _ _]].
  unfold base_feasible, state_or, capacity_for.
  by rewrite (latest_seq_rel _ _ _ _ _ HR HL), Hb1, Hb2, Hcap.
Qed.

Lemma length_filter_negb {A} (f : A → bool) (l : list A) :
  length (filter (λ x, f x = true) l) + length (filter (λ x, f x = false) l) = length l.
Proof. induction l as [|x l IH]; [done|]. rewrite !filter_cons. destruct (f x); simpl; lia. Qed.

Lemma length_filter_fmap {A B} (g : A → B) (f : B → bool) (h : A → bool) (l : list A) :
  (∀ x, x ∈ l → f (g x) = h x) →
  length (filter (λ y, f y = true) (g <$> l)) = length (filter (λ x, h x = true) l).
Proof.
  induction l as [|x l IH]; intros Hfg; [done|]. rewrite fmap_cons, !filter_cons, (Hfg x) by left.
  destruct (h x); simpl; rewrite IH; try done; intros y Hy; apply Hfg; by right.
Qed.

Lemma compliance_rel db L :
  ledger_rel db L →
  channel_count (compliance_witness db) = N.of_nat (size L) ∧
  valid_channels (compliance_witness db) = N.of_nat (count_feasible L) ∧
  invalid_channels (compliance_witness db) = N.of_nat (size L - count_feasible L).
Proof.
  intros HR. pose proof (channel_bases_perm db L HR) as Hperm. unfold compliance_witness.
  destruct (compliance_fold db (channel_bases db) 0 0 0 []) as (r & l & E).
  { intros base (a & b & c & HL & ->)%(elem_of_channel_bases _ _ _ HR).
    rewrite (latest_seq_rel _ _ _ _ _ HR HL). simpl. lia. }
  rewrite E. cbn [channel_count valid_channels invalid_channels].
  assert (length (channel_bases db) = size L) as Hlen.
  { by rewrite Hperm, length_fmap, length_map_to_list. }
  assert (length (filter (λ b, base_feasible db b = true) (channel_bases db)) = count_feasible L) as Hcount.
  { rewrite Hperm. apply length_filter_fmap. intros [[a b] c] Hin%elem_of_map_to_list. simpl.
    by apply (base_feasible_rel _ _ _ _ _ HR). }
  pose proof (length_filter_negb (base_feasible db) (channel_bases db)) as Hsum.
  rewrite Hlen, Hcount. split; [done|]. split; lia.
Qed.

(** ** Histories *)

(** Operations with their clocks, each of which succeeds. *)
Fixpoint run_ops (ops : list (SettlementOp * N)) : action NucleusDb PcnError () :=
  match ops with
  | [] => mret tt
  | (op, now) :: ops' => _ ← apply_op op now; run_ops ops'
  end.

(** [n] more operations do not exhaust the sequence numbers of any channel. *)
Definition roomy (n : nat) (L : Ledger) : Prop :=
  ∀ p c, L !! p = Some c → is_u64 (N.of_nat (length (ch_hist c) + n)).




Lemma spec_chan_length op now o c' :
  spec_chan op now o = Ok c' →
  length (ch_hist c') = S (match o with Some c => length (ch_hist c) | None => 0 end).
Proof.
  intros Hs. destruct op as [p1 p2 cap|p1 p2|p1 p2 cap|p1 p2 b1 b2]; destruct o as [c|]; try done;
    cbn [spec_chan] in Hs; repeat (destruct (negb _) in Hs; try done);
    injection Hs as <-; rewrite ?ch_hist_push, ?length_app; simpl; lia.
Qed.

Lemma spec_op_roomy op now L L' n :
  roomy (S n) L → is_u64 (N.of_nat (S n)) → spec_op op now L = Ok L' → roomy n L'.
Proof.
  intros Hr Hn. unfold spec_op. destruct (spec_chan _ _ _) as [c'|] eqn:E; [|done]. intros [= <-] p c.
  rewrite lookup_insert_Some. intros [[<- <-]|[_ Hc]].
  - apply spec_chan_length in E. rewrite E. destruct (L !! op_pair op) as [c|] eqn:Hc; [|done].
    pose proof (Hr _ _ Hc). by rewrite Nat.add_succ_r in *.
  - pose proof (Hr _ _ Hc). unfold is_u64 in *. lia.
Qed.


Lemma roomy_room n op L : roomy (S n) L → room op L.
Proof. intros Hr c Hc. pose proof (Hr _ _ Hc). unfold is_u64 in *. lia. Qed.





Lemma count_lt L p c : L !! p = Some c → chan_feasible c = false → count_feasible L < size L.
Proof.
  intros HL Hf. rewrite <-length_map_to_list. unfold count_feasible.
  apply (length_filter_lt _ _ (p, c)); [by apply elem_of_map_to_list|]. simpl. by rewrite Hf.
Qed.

(** A new database holds the empty ledger. *)
Lemma db_new_rel load now b cfg db :
  db_new load now (mk_State []) b cfg = Ok db → ledger_rel db ∅.
Proof.
  unfold db_new, with_security. intros Hs. inv_res. split.
  - split; [apply keymap_new_wf|done].
  - intros a b' c. by rewrite lookup_empty.
  - intros k _ [v Hv]. revert Hv. unfold key_value, KM.get. simpl. by rewrite lookup_empty.
Qed.

(** ** The properties *)

(** Claim C10. A settlement operation on a database that holds a ledger of channels does
    what the ledger says: it succeeds only when the ledger admits it, and then the
    database holds the ledger's next value, so that every snapshot of every channel
    reads that value; it is refused with the ledger's own error, leaving the database as
    it was; and a failed commit is the only other error.  The names hold no colon, the
    digest that marks the channel is not zero and the sequence numbers are not used up. *)
Theorem pcn_refines op now db L db' r :
  ledger_rel db L → op_plain op → sentinel_ok op now → room op L →
  apply_op op now db = (db', r) →
  match r with
  | Ok _ => ∃ L', spec_op op now L = Ok L' ∧ ledger_rel db' L' ∧
      ∀ p1 p2, plain (canonical_pair p1 p2).1 = true → plain (canonical_pair p1 p2).2 = true →
        channel_snapshot db' p1 p2 = spec_snapshot L' p1 p2
  | Err (PcnCommit _) => is_ok (spec_op op now L) = true
  | Err e => spec_op op now L = Err e ∧ db' = db
  end.
Proof.
  intros HR Hp Hs Hr E. pose proof (apply_op_result _ _ _ _ _ _ HR Hp Hs Hr E) as Hres.
  destruct r as [u|e]; [|done]. destruct Hres as (L' & Hspec & HR'). exists L'.
  split; [done|]. split; [done|]. intros p1 p2. by apply channel_snapshot_rel.
Qed.



(** A splice leaves the capacity that updates and compliance read: after a
    splice of a channel to another capacity, the compliance witness counts an invalid
    channel, and every update that shares out the new capacity is refused. *)
Theorem pcn_splice_breaks_channel p1 p2 cap now db L c db' u :
  ledger_rel db L → op_plain (OpSplice p1 p2 cap) → L !! canonical_pair p1 p2 = Some c →
  roomy 2 L → is_u64 cap → cap ≠ ch_capacity c →
  apply_op (OpSplice p1 p2 cap) now db = (db', Ok u) →
  (0 < invalid_channels (compliance_witness db'))%N ∧
  ∀ b1 b2 now', saturating_add64 b1 b2 = cap →
    (apply_op (OpUpdate p1 p2 b1 b2) now' db').2 = Err (InvalidConservation b1 b2 (ch_capacity c)).
Proof.
  intros HR Hp HL Hroom Hu Hne E.
  apply (apply_op_result _ _ _ L) in E as (L' & Hs & HR'); [|done..|by eapply roomy_room].
  assert (roomy 1 L') as Hroom' by by eapply spec_op_roomy.
  unfold spec_op in Hs. simpl in Hs. rewrite HL in Hs. injection Hs as Hs.
  assert (L' !! canonical_pair p1 p2 = Some (ch_push c (splice_state c cap))) as HL'.
  { rewrite <-Hs. apply lookup_insert_eq. }
  split.
  - destruct (compliance_rel _ _ HR') as (_ & _ & ->).
    enough (count_feasible L' < size L') by lia. eapply count_lt; [done|].
    unfold chan_feasible. rewrite ch_last_push. apply N.eqb_neq. simpl.
    unfold saturating_add64, is_u64 in *. lia.
  - intros b1 b2 now' Hb. destruct (apply_op _ now' db') as [db2 r] eqn:E2.
    apply (apply_op_result _ _ _ L') in E2; [|done..|by eapply roomy_room].
    assert (spec_op (OpUpdate p1 p2 b1 b2) now' L' = Err (InvalidConservation b1 b2 (ch_capacity c)))
      as Hspec.
    { unfold spec_op. simpl. rewrite HL'. cbn [spec_chan]. rewrite Hb.
      by replace (cap =? ch_capacity (ch_push c (splice_state c cap)))%N with false
        by (symmetry; by apply N.eqb_neq). }
    unfold op_result in E2. rewrite Hspec in E2. cbn [snd].
    destruct r as [|[]]; naive_solver.
Qed.
End cells.

(** *** Witnesses *)

Section witnesses.
#[local] Existing Instances prefix_sha toy_ristretto toy_kzg toy_sig raw_json id_powf.

Definition ex_pcn_db : NucleusDb :=
  match db_new ex_load 0 (mk_State []) BkBinaryMerkle ex_cfg with Ok db => db | Err _ => ex_db end.
Lemma ex_pcn_new : db_new ex_load 0 (mk_State []) BkBinaryMerkle ex_cfg = Ok ex_pcn_db.
Proof. apply is_ok_match. by vm_compute. Qed.
Lemma ex_pcn_rel : ledger_rel ex_pcn_db ∅.
Proof. eapply db_new_rel, ex_pcn_new. Qed.

Definition ex_open : SettlementOp := OpOpen "bob" "alice" 100.
Definition ex_ledger : Ledger :=
  {[ ("alice", "bob") := mk_Chan 100 10 (mk_ChanState 1 ChOpen 100 0) [] ]}.
Definition ex_open_db : NucleusDb := (apply_op ex_open 10 ex_pcn_db).1.
Lemma ex_open_run : apply_op ex_open 10 ex_pcn_db = (ex_open_db, Ok tt).
Proof. unfold ex_open_db. apply pair_snd. by vm_compute. Qed.

Lemma ex_open_plain : op_plain ex_open.
Proof. by split. Qed.
Lemma ex_open_sentinel : sentinel_ok ex_open 10.
Proof. by vm_compute. Qed.
Lemma ex_room op : room op ∅.
Proof. intros c. by rewrite lookup_empty. Qed.

Lemma pcn_refines_witness :
  ∃ L', spec_op ex_open 10 ∅ = Ok L' ∧ ledger_rel ex_open_db L' ∧
    ∀ p1 p2, plain (canonical_pair p1 p2).1 = true → plain (canonical_pair p1 p2).2 = true →
      channel_snapshot ex_open_db p1 p2 = spec_snapshot L' p1 p2.
Proof.
  apply (pcn_refines ex_open 10 ex_pcn_db ∅ ex_open_db (Ok tt)).
  - apply ex_pcn_rel.
  - apply ex_open_plain.
  - apply ex_open_sentinel.
  - apply ex_room.
  - apply ex_open_run.
Defined.

Lemma ex_open_rel : ledger_rel ex_open_db ex_ledger.
Proof.
  destruct (apply_op_result ex_open 10 ex_pcn_db ∅ ex_open_db (Ok tt)) as (L & HL & HR);
    [apply ex_pcn_rel|apply ex_open_plain|apply ex_open_sentinel|apply ex_room|apply ex_open_run|].
  apply (f_equal (λ r, match r with Ok x => x | Err _ => ∅ end)) in HL.
  change (ex_ledger = L) in HL. by rewrite HL.
Qed.


(** A channel of the largest capacity takes balances that add up to twice as much. *)
Example pcn_max_capacity_overdrawn :
  let end_db := (run_ops [(OpOpen "alice" "bob" u64_max, 10%N); (OpUpdate "alice" "bob" u64_max u64_max, 20%N)]
                   ex_pcn_db).1 in
  (λ s, (balance1 s, balance2 s, capacity (record s))) <$> channel_snapshot end_db "alice" "bob" =
    Some (u64_max, u64_max, u64_max).
Proof. by vm_compute. Qed.

Definition ex_splice_db : NucleusDb := (apply_op (OpSplice "alice" "bob" 50) 20 ex_open_db).1.
Lemma pcn_splice_breaks_channel_witness :
  (0 < invalid_channels (compliance_witness ex_splice_db))%N ∧
  ∀ b1 b2 now', saturating_add64 b1 b2 = 50%N →
    (apply_op (OpUpdate "alice" "bob" b1 b2) now' ex_splice_db).2 = Err (InvalidConservation b1 b2 100).
Proof.
  apply (pcn_splice_breaks_channel "alice" "bob" 50 20 ex_open_db ex_ledger
    (mk_Chan 100 10 (mk_ChanState 1 ChOpen 100 0) []) ex_splice_db tt).
  - apply ex_open_rel.
  - by split.
  - by vm_compute.
  - intros p c Hc. unfold ex_ledger in Hc. apply lookup_singleton_Some in Hc as [_ <-]. by vm_compute.
  - by vm_compute.
  - done.
  - unfold ex_splice_db. apply pair_snd. by vm_compute.
Defined.
End witnesses.
