(* ===== verification/Orchestrator.v ===== *)
(** * Tasks and the task graph of the orchestrator

    [src/src/orchestrator/task.rs], [src/src/orchestrator/task_graph.rs] and the methods
    of [src/src/orchestrator/mod.rs] that change the two shared maps (tasks and graph):
    creation, status changes, pipe edges, follow-ups and pruning.  Launching agents,
    terminals and HTTP are outside.  [src/src/orchestrator/dispatch.rs] is here too. *)
From S2P Require Export F64 TypedValue.

(** ** Tasks *)

Inductive TaskStatus := Pending | Running | Complete | Failed | TimedOut.
#[export] Instance TaskStatus_eq_dec : EqDecision TaskStatus.
Proof. solve_decision. Defined.

Record TaskUsage := { input_tokens : N; output_tokens : N; estimated_cost_usd : f64 }.
Definition usage_default : TaskUsage :=
  {| input_tokens := 0; output_tokens := 0; estimated_cost_usd := f64_zero |}.

Record Task := {
  task_id : string;
  agent_id : string;
  prompt : string;
  task_status : TaskStatus;
  answer : option string;
  task_result : option string;
  error : option string;
  exit_code : option Z;
  usage : TaskUsage;
  started_at : option N;
  completed_at : option N;
  trace_session_id : option string
}.

Definition Task_new (id agent p : string) : Task := {|
  task_id := id; agent_id := agent; prompt := p; task_status := Pending; answer := None;
  task_result := None; error := None; exit_code := None; usage := usage_default;
  started_at := None; completed_at := None; trace_session_id := None |}.

Definition mark_running (t : Task) (now : N) : Task := {|
  task_id := task_id t; agent_id := agent_id t; prompt := prompt t; task_status := Running;
  answer := answer t; task_result := task_result t; error := error t; exit_code := exit_code t;
  usage := usage t; started_at := Some now; completed_at := completed_at t;
  trace_session_id := trace_session_id t |}.

Definition mark_complete (t : Task) (result : string) (code : Z) (u : TaskUsage)
    (trace : option string) (now : N) : Task := {|
  task_id := task_id t; agent_id := agent_id t; prompt := prompt t; task_status := Complete;
  answer := answer t; task_result := Some result; error := None; exit_code := Some code;
  usage := u; started_at := started_at t; completed_at := Some now; trace_session_id := trace |}.

Definition mark_failed (t : Task) (e : string) (code : option Z) (now : N) : Task := {|
  task_id := task_id t; agent_id := agent_id t; prompt := prompt t; task_status := Failed;
  answer := answer t; task_result := task_result t; error := Some e; exit_code := code;
  usage := usage t; started_at := started_at t; completed_at := Some now;
  trace_session_id := trace_session_id t |}.

Definition mark_timeout (t : Task) (e : string) (now : N) : Task := {|
  task_id := task_id t; agent_id := agent_id t; prompt := prompt t; task_status := TimedOut;
  answer := answer t; task_result := task_result t; error := Some e; exit_code := exit_code t;
  usage := usage t; started_at := started_at t; completed_at := Some now;
  trace_session_id := trace_session_id t |}.

(** ** Pipe transforms *)

Inductive PipeTransform :=
| Identity
| ClaudeAnswer
| JsonExtract (path : string)
| PrefixWith (prefix : string)
| SuffixWith (suffix : string)
| Chain (chain : list PipeTransform).

(** [PipeTransform::parse]. *)
Definition parse_base (raw : option string) : result string PipeTransform :=
  let base := trim (default "identity" raw) in
  if bool_decide (base = "") || eq_ignore_ascii_case base "identity" then Ok Identity
  else if eq_ignore_ascii_case base "claude_answer" || eq_ignore_ascii_case base "assistant_answer"
  then Ok ClaudeAnswer
  else match strip_prefix "json_extract:" base with
  | Some path => Ok (JsonExtract (trim path))
  | None =>
    match strip_prefix "prefix:" base with
    | Some p => Ok (PrefixWith p)
    | None =>
      match strip_prefix "suffix:" base with
      | Some s => Ok (SuffixWith s)
      | None => Err ("unknown pipe transform '" +:+ base +:+ "'")
      end
    end
  end.
Definition parse_transform (raw task_prefix : option string) : result string PipeTransform :=
  t ← parse_base raw;
  let transforms :=
    match task_prefix with
    | Some p => if bool_decide (p = "") then [t] else [PrefixWith p; t]
    | None => [t]
    end in
  match transforms with
  | [t1] => mret t1
  | ts => mret (Chain ts)
  end.

(** [str::trim_start_matches] with one character. *)
Fixpoint trim_start_char (c : ascii) (s : string) : string :=
  match s with
  | String d s' => if decide (d = c) then trim_start_char c s' else s
  | EmptyString => s
  end.

Section transforms.
Context `{JsonAccess}.

Fixpoint json_walk (parts : list string) (cur : JsonValue) : option JsonValue :=
  match parts with
  | [] => Some cur
  | part :: rest =>
      if bool_decide (part = "") then json_walk rest cur
      else
        next ← match split_once "[" part with
               | Some (name, idx_raw) =>
                   v ← json_get cur name;
                   idx_str ← strip_suffix "]" idx_raw;
                   idx ← parse_u64 idx_str;
                   json_get_idx v idx
               | None => json_get cur part
               end;
        json_walk rest next
  end.
Definition json_extract (input path : string) : option string :=
  value ← json_from_str input;
  cur ← json_walk (split_char "." (trim_start_char "." (trim path))) value;
  Some (default (json_to_string cur) (json_as_str cur)).

Fixpoint apply_with_answer (t : PipeTransform) (input : string) (ans : option string) : string :=
  match t with
  | Identity => input
  | ClaudeAnswer =>
      match trim <$> ans with
      | Some a => if bool_decide (a = "") then input else a
      | None => input
      end
  | JsonExtract path => default input (json_extract input path)
  | PrefixWith prefix => prefix +:+ input
  | SuffixWith suffix => input +:+ suffix
  | Chain chain => foldl (λ acc t', apply_with_answer t' acc ans) input chain
  end.
Definition apply_transform (t : PipeTransform) (input : string) : string :=
  apply_with_answer t input None.
End transforms.

(** ** The graph *)

Record TaskNode := {
  node_task_id : string;
  node_agent_id : string;
  node_status : TaskStatus;
  depends_on : list string
}.
Record TaskEdge := {
  source_task_id : string;
  target_agent_id : string;
  transform : PipeTransform;
  generated_task_id : option string
}.
Record TaskGraph := mk_TaskGraph { nodes : gmap string TaskNode; edges : list TaskEdge }.

Definition graph_default : TaskGraph := mk_TaskGraph ∅ [].

Definition upsert_node (g : TaskGraph) (id agent : string) (s : TaskStatus) : TaskGraph :=
  let entry := default {| node_task_id := id; node_agent_id := agent; node_status := s; depends_on := [] |}
                 (nodes g !! id) in
  mk_TaskGraph
    (<[id := {| node_task_id := node_task_id entry; node_agent_id := node_agent_id entry;
                node_status := s; depends_on := depends_on entry |}]> (nodes g))
    (edges g).

Definition set_generated_task (g : TaskGraph) (src tgt id : string) : TaskGraph :=
  mk_TaskGraph (nodes g)
    ((λ e, if bool_decide (source_task_id e = src) && bool_decide (target_agent_id e = tgt)
           then {| source_task_id := source_task_id e; target_agent_id := target_agent_id e;
                   transform := transform e; generated_task_id := Some id |}
           else e) <$> edges g).

Definition outgoing_for (g : TaskGraph) (src : string) : list TaskEdge :=
  filter (λ e, source_task_id e = src) (edges g).

(** The agent graph [agent_would_cycle] builds from the edges. *)
Definition add_arc (m : gmap string (gset string)) (a b : string) : gmap string (gset string) :=
  <[a := {[b]} ∪ default ∅ (m !! a)]> m.
Definition agent_graph (g : TaskGraph) : gmap string (gset string) :=
  foldl (λ m e, match nodes g !! source_task_id e with
                | Some n => add_arc m (node_agent_id n) (target_agent_id e)
                | None => m
                end) ∅ (edges g).

(** The depth-first loop; the top of the stack is the head of the list.  [None]: the
    fuel ran out. *)
Fixpoint reach_loop (fuel : nat) (graph : gmap string (gset string)) (source : string)
    (stack : list string) (seen : gset string) : option bool :=
  match fuel with
  | O => None
  | S fuel' =>
      match stack with
      | [] => Some false
      | node :: stack' =>
          if bool_decide (node ∈ seen) then reach_loop fuel' graph source stack' seen
          else if bool_decide (node = source) then Some true
          else
            let next := set_elems (default ∅ (graph !! node)) in
            reach_loop fuel' graph source (rev next ++ stack') ({[node]} ∪ seen)
      end
  end.

(** Every iteration pops one name; a name is pushed when its predecessor is first seen. *)
Definition reach_fuel (graph : gmap string (gset string)) : nat :=
  2 + foldr (λ (kv : string * gset string) n, size kv.2 + n) 0 (map_to_list graph).

Definition agent_would_cycle (g : TaskGraph) (source target : string) : option bool :=
  if bool_decide (source = target) then Some true
  else
    let graph := add_arc (agent_graph g) source target in
    reach_loop (reach_fuel graph) graph source [target] ∅.

Definition cycle_message : string := "pipe edge would introduce a cycle".
Definition add_edge (edge : TaskEdge) : action TaskGraph string () :=
  g ← get_state;
  _ ← lift_res (throw_if (is_blank (source_task_id edge)) "source_task_id must not be empty");
  _ ← lift_res (throw_if (is_blank (target_agent_id edge)) "target_agent_id must not be empty");
  n ← lift_res (ok_or (nodes g !! source_task_id edge)
                  ("unknown source_task_id " +:+ source_task_id edge));
  _ ← lift_res (throw_if (bool_decide (node_agent_id n = target_agent_id edge)) cycle_message);
  _ ← lift_res (throw_if (default true (agent_would_cycle g (node_agent_id n) (target_agent_id edge)))
                  cycle_message);
  modify (λ g, mk_TaskGraph (nodes g) (edges g ++ [edge])).

(** ** The orchestrator's shared state *)

Record OrchState := mk_OrchState { tasks : gmap string Task; graph : TaskGraph }.

(** Storing a task writes it in the map and its node in the graph. *)
Definition store_task (st : OrchState) (t : Task) : OrchState :=
  mk_OrchState (<[task_id t := t]> (tasks st))
    (upsert_node (graph st) (task_id t) (agent_id t) (task_status t)).

(** The id is [task-<clock>-<8 hex digits of a random UUID>]. *)
Definition create_task (id agent p : string) (now : N) (st : OrchState) : OrchState * Task :=
  let t := mark_running (Task_new id agent p) now in (store_task st t, t).
Definition create_scheduled_task (id agent p : string) (st : OrchState) : OrchState * Task :=
  let t := Task_new id agent p in (store_task st t, t).
Definition mark_task_running_if_needed (t : Task) (now : N) (st : OrchState) : OrchState :=
  if bool_decide (task_status t = Running) then st else store_task st (mark_running t now).

(** What [run_task] learns from the pool and the terminal. *)
Inductive RunOutcome :=
| StartFailed (e : string)
| Finished (code : Z) (output : string) (u : TaskUsage) (trace ans file_answer : option string)
| CollectFailed (e : string).

Fixpoint str_contains (needle s : string) : bool :=
  starts_with s needle || match s with EmptyString => false | String _ s' => str_contains needle s' end.

Definition set_outputs (t : Task) (r a : option string) : Task := {|
  task_id := task_id t; agent_id := agent_id t; prompt := prompt t; task_status := task_status t;
  answer := a; task_result := r; error := error t; exit_code := exit_code t; usage := usage t;
  started_at := started_at t; completed_at := completed_at t; trace_session_id := trace_session_id t |}.

(** The decimal text of an [i32]. *)
Definition dec_z (z : Z) : string := (if (z <? 0)%Z then "-" else "") +:+ dec (Z.abs_N z).

(** The task [run_task] stores, from the copy it took before it marked the task. *)
Definition settle (t : Task) (o : RunOutcome) (now : N) : result string Task :=
  match o with
  | StartFailed e => Err e
  | Finished code output u trace ans file_answer =>
      if (code =? 0)%Z then
        let t1 := mark_complete t output code u trace now in
        Ok (set_outputs t1 (task_result t1)
              (match file_answer with Some a => Some a | None => ans end))
      else
        Ok (set_outputs (mark_failed t ("task exited with code " +:+ dec_z code) (Some code) now)
              (Some output) ans)
  | CollectFailed e =>
      Ok (if str_contains "timeout" (to_ascii_lowercase e) then mark_timeout t e now
          else mark_failed t e None now)
  end.

Section followups.
Context `{JsonAccess}.

Definition collect_followups (st : OrchState) (t : Task) : list (string * string * string) :=
  if negb (bool_decide (task_status t = Complete)) then []
  else
    (λ e, (task_id t, target_agent_id e,
           apply_with_answer (transform e) (default "" (task_result t)) (answer t)))
    <$> outgoing_for (graph st) (task_id t).
End followups.

(** The state changes of [run_task] up to its follow-ups. *)
Definition run_task (id : string) (o : RunOutcome) (start now : N) : action OrchState string Task :=
  st ← get_state;
  t ← lift_res (ok_or (tasks st !! id) ("unknown task " +:+ id));
  _ ← modify (mark_task_running_if_needed t start);
  updated ← lift_res (settle t o now);
  _ ← modify (λ st, store_task st updated);
  mret updated.

(** The first part of [pipe]: the new edge. *)
Definition pipe_edge (src tgt : string) (raw task_prefix : option string) : action OrchState string Task :=
  tr ← lift_res (parse_transform raw task_prefix);
  st ← get_state;
  source ← lift_res (ok_or (tasks st !! src) ("unknown source_task_id " +:+ src));
  let '(g, r) := add_edge {| source_task_id := src; target_agent_id := tgt; transform := tr;
                             generated_task_id := None |} (graph st) in
  _ ← modify (λ st, mk_OrchState (tasks st) g);
  _ ← lift_res r;
  mret source.

Definition cancel_inflight_for_agent (agent : string) (now : N) (st : OrchState) : OrchState :=
  mk_OrchState
    ((λ t, if bool_decide (agent_id t = agent) &&
              (bool_decide (task_status t = Running) || bool_decide (task_status t = Pending))
           then mark_failed t "agent stopped" None now else t) <$> tasks st)
    (graph st).

Definition TASK_RETENTION_SECS : N := 86400.
Definition MAX_TASKS_RETAINED : nat := 2000.

(** [sort_by_key] is stable and the ids come in order: the order is by time, then id. *)
Definition age_le (p q : string * N) : Prop := (p.2 < q.2)%N ∨ (p.2 = q.2 ∧ String.le p.1 q.1).
#[export] Instance age_le_dec : RelDecision age_le.
Proof. intros p q. unfold age_le. apply _. Defined.
Definition task_age (t : Task) : N :=
  default 0%N (match completed_at t with Some n => Some n | None => started_at t end).
Definition keep_task (now : N) (t : Task) : bool :=
  match completed_at t with
  | Some done_at => (saturating_sub now done_at <=? TASK_RETENTION_SECS)%N
  | None => true
  end.
Definition prune_tasks_to (limit : nat) (now : N) (st : OrchState) : OrchState :=
  let kept := filter (λ kt, keep_task now kt.2 = true) (tasks st) in
  let ids_by_age := merge_sort age_le ((λ kt : string * Task, (kt.1, task_age kt.2)) <$> entries kept) in
  mk_OrchState (foldl (λ m id, delete id m) kept (take (size kept - limit) ids_by_age.*1)) (graph st).
Definition prune_tasks (now : N) (st : OrchState) : OrchState :=
  prune_tasks_to MAX_TASKS_RETAINED now st.

Definition parse_remote_agent_ref (agent : string) : option (string * string) :=
  rest ← strip_prefix "peer:" (trim agent);
  '(peer, target) ← split_once "/" rest;
  if is_blank peer || is_blank target then None else Some (trim peer, trim target).

(** ** [dispatch.rs] *)

Inductive DispatchMode := Pty | Container.
Definition dispatch_from_env (var : option string) : DispatchMode :=
  if bool_decide (to_ascii_lowercase (trim (default "pty" var)) = "container") then Container else Pty.

Inductive ContainerHookupRequest :=
| HookCli (cli_name : string) (model : option string)
| HookApi (provider model api_key_source : string) (base_url_override : option string)
| HookLocalModel (model_id : string) (vllm_port : option N) (base_url_override : option string).

Definition non_blank (s : string) : option string :=
  let t := trim s in if bool_decide (t = "") then None else Some t.
(** [env] is the value of [AGENTHALO_GEMINI_DEFAULT_MODEL]. *)
Definition cli_default_model (env : option string) (cli_name : string) : option string :=
  if bool_decide (to_ascii_lowercase (trim cli_name) = "gemini") then env ≫= non_blank else None.
Definition normalize_cli_model (env : option string) (cli_name : string) (model : option string)
  : option string :=
  match model ≫= non_blank with Some m => Some m | None => cli_default_model env cli_name end.
Definition hook_normalized (env : option string) (h : ContainerHookupRequest) : ContainerHookupRequest :=
  match h with
  | HookCli cli_name model => HookCli cli_name (normalize_cli_model env cli_name model)
  | _ => h
  end.
Definition infer_cli (env : option string) (agent : string) (model : option string)
  : result string ContainerHookupRequest :=
  let cli_name := to_ascii_lowercase (trim agent) in
  if bool_decide (cli_name ∈ ["shell"; "claude"; "codex"; "gemini"])
  then Ok (hook_normalized env (HookCli cli_name model))
  else Err ("container dispatch requires an explicit container_hookup for agent kind `" +:+ agent +:+ "`").
Definition hook_agent_type (h : ContainerHookupRequest) : string :=
  match h with
  | HookCli cli_name _ => cli_name
  | HookApi provider _ _ _ => provider
  | HookLocalModel _ _ _ => "local_model"
  end.
Definition hook_model (h : ContainerHookupRequest) : option string :=
  match h with
  | HookCli _ model => model
  | HookApi _ model _ _ => Some model
  | HookLocalModel model_id _ _ => Some model_id
  end.

(** ** Termination of the search *)

(** The arcs of the agent graph. *)
Definition arc (m : gmap string (gset string)) (a b : string) : Prop := b ∈ default ∅ (m !! a).

(** What a loop may still push: the successors of names not yet seen. *)
Definition pending (l : list (string * gset string)) (seen : gset string) : nat :=
  foldr (λ (kv : string * gset string) n, (if decide (kv.1 ∈ seen) then 0 else size kv.2) + n) 0 l.

Lemma pending_mono l seen node : pending l ({[node]} ∪ seen) ≤ pending l seen.
Proof.
  unfold pending. induction l as [|[k s] l IH]; simpl; [lia|].
  destruct (decide (k ∈ seen)) as [Hk|Hk].
  - rewrite !decide_True by set_solver. lia.
  - case_decide; lia.
Qed.

Lemma pending_see l seen node s :
  (node, s) ∈ l → node ∉ seen → pending l ({[node]} ∪ seen) + size s ≤ pending l seen.
Proof.
  intros Hin Hn. induction l as [|[k s'] l IH]; [by apply not_elem_of_nil in Hin|].
  unfold pending in *. simpl.
  apply elem_of_cons in Hin as [[= <- <-]|Hin].
  - rewrite decide_True by set_solver. rewrite decide_False by done.
    pose proof (pending_mono l seen node) as Hm. unfold pending in Hm. lia.
  - specialize (IH Hin). destruct (decide (k ∈ seen)) as [Hk|Hk].
    + rewrite !decide_True by set_solver. lia.
    + case_decide; lia.
Qed.

Lemma pending_empty l : pending l ∅ = foldr (λ (kv : string * gset string) n, size kv.2 + n) 0 l.
Proof. unfold pending. induction l as [|[k s] l IH]; simpl; [done|]. rewrite IH. by rewrite decide_False by set_solver. Qed.

Lemma length_set_elems (s : gset string) : length (set_elems s) = size s.
Proof. unfold set_elems. by rewrite merge_sort_Permutation. Qed.

Lemma pending_next (m : gmap string (gset string)) seen node :
  node ∉ seen →
  pending (map_to_list m) ({[node]} ∪ seen) + size (default ∅ (m !! node)) ≤ pending (map_to_list m) seen.
Proof.
  intros Hn. destruct (m !! node) as [s|] eqn:Hs; cbn [default from_option id].
  - apply pending_see; [by apply elem_of_map_to_list|done].
  - rewrite size_empty. pose proof (pending_mono (map_to_list m) seen node). lia.
Qed.

Lemma reach_loop_total m source fuel stack seen :
  length stack + pending (map_to_list m) seen < fuel → is_Some (reach_loop fuel m source stack seen).
Proof.
  revert stack seen. induction fuel as [|fuel IH]; intros stack seen Hf; [lia|].
  simpl. destruct stack as [|node stack]; [done|].
  case_bool_decide as Hseen; [apply IH; simpl in Hf; lia|].
  case_bool_decide; [done|]. apply IH. rewrite length_app, length_rev, length_set_elems.
  pose proof (pending_next m seen node Hseen). simpl in Hf. lia.
Qed.

Lemma elem_of_rev {A} (x : A) (l : list A) : x ∈ rev l ↔ x ∈ l.
Proof. by rewrite !list_elem_of_In, <-in_rev. Qed.

Lemma reach_loop_true m target source fuel stack seen :
  (∀ x, x ∈ stack → rtc (arc m) target x) →
  reach_loop fuel m source stack seen = Some true → rtc (arc m) target source.
Proof.
  revert stack seen. induction fuel as [|fuel IH]; intros stack seen Hs; [done|]. simpl.
  destruct stack as [|node stack]; [done|].
  case_bool_decide; [apply IH; intros x Hx; apply Hs; by right|].
  case_bool_decide as E; [subst; intros _; apply Hs; left|].
  apply IH. intros x [Hx|Hx]%elem_of_app; [|apply Hs; by right].
  rewrite elem_of_rev in Hx. unfold set_elems in Hx. rewrite merge_sort_Permutation, elem_of_elements in Hx.
  eapply rtc_r; [apply Hs; left|exact Hx].
Qed.

(** When the loop answers [false], the names it saw are closed and without the source. *)
Lemma reach_loop_false m source fuel stack seen :
  source ∉ seen → (∀ x y, x ∈ seen → arc m x y → y ∈ seen ∨ y ∈ stack) →
  reach_loop fuel m source stack seen = Some false →
  ∃ S : gset string, seen ⊆ S ∧ (∀ x, x ∈ stack → x ∈ S) ∧ (source ∉ S) ∧
    (∀ x y, x ∈ S → arc m x y → y ∈ S).
Proof.
  revert stack seen. induction fuel as [|fuel IH]; intros stack seen Hsrc Hcl; [done|]. simpl.
  destruct stack as [|node stack].
  { intros _. exists seen. split_and!; [done|by intros x Hx%not_elem_of_nil|done|].
    intros x y Hx Ha. destruct (Hcl x y Hx Ha) as [|Hn]; [done|by apply not_elem_of_nil in Hn]. }
  case_bool_decide as Hnode.
  { intros Hr. destruct (IH stack seen) as (S & H1 & H2 & H3 & H4); [done| |done|].
    - intros x y Hx Ha. destruct (Hcl x y Hx Ha) as [|[->|]%elem_of_cons]; auto.
    - exists S. split_and!; try done. intros x [->|Hx]%elem_of_cons; [by apply H1|by apply H2]. }
  case_bool_decide as Hne; [done|]. intros Hr.
  apply IH in Hr as (S & H1 & H2 & H3 & H4).
  - exists S. split_and!; [set_solver| |done|done].
    intros x [->|Hx]%elem_of_cons; [set_solver|]. apply H2, elem_of_app. by right.
  - set_solver.
  - intros x y [->%elem_of_singleton|Hx]%elem_of_union Ha.
    + right. apply elem_of_app. left. rewrite elem_of_rev. unfold set_elems.
      by rewrite merge_sort_Permutation, elem_of_elements.
    + destruct (Hcl x y Hx Ha) as [|[->|]%elem_of_cons]; [set_solver|set_solver|].
      right. apply elem_of_app. by right.
Qed.

Lemma reach_loop_spec m source target :
  ∃ r, reach_loop (reach_fuel m) m source [target] ∅ = Some r ∧ (r = true ↔ rtc (arc m) target source).
Proof.
  destruct (reach_loop_total m source (reach_fuel m) [target] ∅) as [r Hr].
  { rewrite pending_empty. unfold reach_fuel. simpl. lia. }
  exists r. split; [done|]. destruct r.
  - split; [intros _|done]. eapply reach_loop_true, Hr.
    intros x ->%list_elem_of_singleton. apply rtc_refl.
  - split; [done|]. intros Hrtc.
    apply reach_loop_false in Hr as (S & _ & H2 & H3 & H4); [|set_solver..].
    destruct H3. eapply (rtc_closed (arc m) (.∈ S)); [eauto| |exact Hrtc]. apply H2. left.
Qed.

(** ** The agent graph *)

(** A pipe leads from the agent of its source task to its target agent. *)
Definition agent_rel (g : TaskGraph) (a b : string) : Prop :=
  ∃ e n, e ∈ edges g ∧ nodes g !! source_task_id e = Some n ∧ node_agent_id n = a ∧
    target_agent_id e = b.

Lemma arc_add m s t a b : arc (add_arc m s t) a b ↔ arc m a b ∨ a = s ∧ b = t.
Proof.
  unfold arc, add_arc. destruct (decide (s = a)) as [->|Hne].
  - rewrite lookup_insert_eq. cbn [default from_option id]. set_solver.
  - rewrite lookup_insert_ne by done. naive_solver.
Qed.

Lemma arc_agent_graph g a b : arc (agent_graph g) a b ↔ agent_rel g a b.
Proof.
  unfold agent_graph, agent_rel.
  assert (∀ es m, arc (foldl (λ m e, match nodes g !! source_task_id e with
      | Some n => add_arc m (node_agent_id n) (target_agent_id e) | None => m end) m es) a b ↔
    arc m a b ∨ ∃ e n, e ∈ es ∧ nodes g !! source_task_id e = Some n ∧ node_agent_id n = a ∧
      target_agent_id e = b) as Hf.
  { induction es as [|e es IH]; intros m; simpl.
    - split; [by left|]. intros [|(e & n & He & _)]; [done|]. by apply not_elem_of_nil in He.
    - rewrite IH. setoid_rewrite elem_of_cons. destruct (nodes g !! source_task_id e) as [n|] eqn:Hn.
      + rewrite arc_add. naive_solver.
      + naive_solver. }
  rewrite Hf. unfold arc. rewrite lookup_empty. cbn [default from_option id]. set_solver.
Qed.

(** An arc out of the name looked for does not help to reach it. *)
Lemma rtc_add_source (R R' : string → string → Prop) s t x :
  (∀ a b, R' a b ↔ R a b ∨ a = s ∧ b = t) → rtc R' x s ↔ rtc R x s.
Proof.
  intros HR. split.
  - apply (rtc_ind_l (λ y, rtc R y s)); [apply rtc_refl|]. intros y z Hyz _ IH.
    apply HR in Hyz as [Hyz|[-> _]]; [by eapply rtc_l|apply rtc_refl].
  - apply rtc_congruence with (f := λ x, x). intros a b Hab. apply HR. by left.
Qed.

Lemma agent_would_cycle_spec g a b :
  ∃ r, agent_would_cycle g a b = Some r ∧ (r = true ↔ rtc (agent_rel g) b a).
Proof.
  unfold agent_would_cycle. case_bool_decide as E.
  { exists true. subst. split; [done|]. split; [intros _; apply rtc_refl|done]. }
  destruct (reach_loop_spec (add_arc (agent_graph g) a b) a b) as (r & -> & Hr).
  exists r. split; [done|]. rewrite Hr. apply (rtc_add_source _ _ a b).
  intros x y. by rewrite arc_add, arc_agent_graph.
Qed.

Definition acyclic (g : TaskGraph) : Prop := ∀ a, ¬ tc (agent_rel g) a a.

Lemma rtc_add_arc (R R' : string → string → Prop) s t x y :
  (∀ a b, R' a b → R a b ∨ a = s ∧ b = t) → rtc R' x y → rtc R x y ∨ rtc R x s ∧ rtc R t y.
Proof.
  intros HR. induction 1 as [x|x x' y Hx _ IH]; [left; apply rtc_refl|].
  apply HR in Hx as [Hx|[-> ->]].
  - destruct IH as [IH|[IH1 IH2]]; [left|right]; eauto using rtc_l.
  - right. split; [apply rtc_refl|]. destruct IH as [|[_ ?]]; done.
Qed.

Lemma acyclic_add (R R' : string → string → Prop) s t :
  (∀ a b, R' a b → R a b ∨ a = s ∧ b = t) → (∀ a, ¬ tc R a a) → ¬ rtc R t s → ∀ a, ¬ tc R' a a.
Proof.
  intros HR Hac Hts a Hc.
  assert (∀ b, tc R' a b → ∃ y, R' a y ∧ rtc R' y b) as Hfst.
  { intros b. destruct 1 as [x y Hxy|x y z Hxy Hyz]; exists y; split; try done.
    by apply tc_rtc. }
  destruct (Hfst a Hc) as (y & Hay & Hya).
  apply (rtc_add_arc R R' s t) in Hya; [|done]. apply HR in Hay as [Hay|[-> ->]].
  - destruct Hya as [Hya|[Hys Hta]].
    + apply (Hac a). eapply tc_rtc_r; [by apply tc_once|done].
    + apply Hts. etrans; [exact Hta|]. eapply rtc_l; done.
  - destruct Hya as [Hya|[_ Hya]]; by apply Hts.
Qed.

(** ** Histories of the orchestrator *)

Record graph_ok (g : TaskGraph) : Prop := {
  go_source : ∀ e, e ∈ edges g → is_Some (nodes g !! source_task_id e);
  go_acyclic : acyclic g
}.

Lemma graph_default_ok : graph_ok graph_default.
Proof.
  split; [by intros e He%not_elem_of_nil|]. intros a Hc.
  assert (∀ x y, tc (agent_rel graph_default) x y → False) as Hno; [|by eapply Hno].
  induction 1 as [x y (e & n & He & _)|]; [by apply not_elem_of_nil in He|done].
Qed.

(** Storing a task keeps the agent of a node that exists. *)
Lemma upsert_node_agent g id agent s k n :
  nodes g !! k = Some n →
  ∃ n', nodes (upsert_node g id agent s) !! k = Some n' ∧ node_agent_id n' = node_agent_id n.
Proof.
  intros Hn. unfold upsert_node. simpl. destruct (decide (id = k)) as [->|Hne].
  - rewrite lookup_insert_eq, Hn. by eexists.
  - rewrite lookup_insert_ne by done. by exists n.
Qed.

Lemma tc_mono (R R' : string → string → Prop) x y :
  (∀ a b, R a b → R' a b) → tc R x y → tc R' x y.
Proof. intros HR. induction 1; eauto using tc_once, tc_l. Qed.

Lemma upsert_node_ok g id agent s : graph_ok g → graph_ok (upsert_node g id agent s).
Proof.
  intros [Hsrc Hac]. split.
  - intros e He. destruct (Hsrc e He) as [n Hn].
    destruct (upsert_node_agent g id agent s _ _ Hn) as (n' & -> & _). by eexists.
  - intros a Hc. apply (Hac a). revert Hc. apply tc_mono. intros x y (e & n & He & Hn & <- & <-).
    destruct (Hsrc e He) as [n0 Hn0]. destruct (upsert_node_agent g id agent s _ _ Hn0) as (n' & Hn' & Ha).
    exists e, n0. rewrite Hn in Hn'. injection Hn' as <-. done.
Qed.

Lemma set_generated_ok g src tgt id : graph_ok g → graph_ok (set_generated_task g src tgt id).
Proof.
  intros [Hsrc Hac].
  assert (∀ e, e ∈ edges (set_generated_task g src tgt id) → ∃ e0, e0 ∈ edges g ∧
    source_task_id e = source_task_id e0 ∧ target_agent_id e = target_agent_id e0) as Hin.
  { intros e He. simpl in He. apply list_elem_of_fmap in He as (e0 & -> & He0).
    exists e0. destruct (_ && _); done. }
  split.
  - intros e (e0 & He0 & -> & _)%Hin. by apply Hsrc.
  - intros a Hc. apply (Hac a). revert Hc. apply tc_mono. intros x y (e & n & He & Hn & Hx & Hy).
    destruct (Hin e He) as (e0 & He0 & Es & Et). exists e0, n. rewrite <-Es, <-Et. done.
Qed.

(** The outcomes of [add_edge]. *)
Lemma add_edge_ok edge g g' u :
  add_edge edge g = (g', Ok u) →
  g' = mk_TaskGraph (nodes g) (edges g ++ [edge]) ∧
  ∃ n, nodes g !! source_task_id edge = Some n ∧ ¬ rtc (agent_rel g) (target_agent_id edge) (node_agent_id n).
Proof.
  unfold add_edge, mbind, action_bind, get_state, lift_res, modify.
  destruct (throw_if (is_blank (source_task_id edge)) _); [|done].
  destruct (throw_if (is_blank (target_agent_id edge)) _); [|done].
  destruct (nodes g !! source_task_id edge) as [n|] eqn:Hn; [|done]. cbn [ok_or].
  destruct (throw_if (bool_decide _) _); [|done].
  destruct (agent_would_cycle_spec g (node_agent_id n) (target_agent_id edge)) as (r & -> & Hr).
  destruct r; [done|]. simpl. intros [= <- _]. split; [done|]. exists n. split; [done|].
  intros Hrtc%Hr. done.
Qed.

Lemma add_edge_err edge g g' e : add_edge edge g = (g', Err e) → g' = g.
Proof.
  unfold add_edge, mbind, action_bind, get_state, lift_res, modify.
  destruct (throw_if (is_blank (source_task_id edge)) _); [|by intros [= <- _]].
  destruct (throw_if (is_blank (target_agent_id edge)) _); [|by intros [= <- _]].
  destruct (ok_or _ _); [|by intros [= <- _]].
  destruct (throw_if (bool_decide _) _); [|by intros [= <- _]].
  destruct (throw_if (default _ _) _); [done|by intros [= <- _]].
Qed.

Lemma add_edge_preserves edge g g' r : graph_ok g → add_edge edge g = (g', r) → graph_ok g'.
Proof.
  intros Hok E. destruct r as [u|e]; [|by apply add_edge_err in E as ->].
  apply add_edge_ok in E as (-> & n & Hn & Hnot). destruct Hok as [Hsrc Hac]. split; simpl.
  - intros e [He| ->%list_elem_of_singleton]%elem_of_app; [by apply Hsrc|by rewrite Hn].
  - unfold acyclic. apply (acyclic_add (agent_rel g) _ (node_agent_id n) (target_agent_id edge)); try done.
    intros a b (e & n' & He & Hn' & <- & <-). simpl in *.
    apply elem_of_app in He as [He| ->%list_elem_of_singleton].
    + left. by exists e, n'.
    + right. rewrite Hn in Hn'. by injection Hn' as ->.
Qed.

(** One call that changes the tasks or the graph. *)
Inductive OrchOp :=
| OpCreate (id agent p : string) (now : N)
| OpSchedule (id agent p : string)
| OpRun (id : string) (o : RunOutcome) (start now : N)
| OpPipe (src tgt : string) (raw task_prefix : option string)
| OpGenerated (src tgt id : string)
| OpCancel (agent : string) (now : N)
| OpPrune (now : N).

Definition orch_step (st : OrchState) (op : OrchOp) : OrchState :=
  match op with
  | OpCreate id agent p now => (create_task id agent p now st).1
  | OpSchedule id agent p => (create_scheduled_task id agent p st).1
  | OpRun id o start now => (run_task id o start now st).1
  | OpPipe src tgt raw prefix => (pipe_edge src tgt raw prefix st).1
  | OpGenerated src tgt id => mk_OrchState (tasks st) (set_generated_task (graph st) src tgt id)
  | OpCancel agent now => cancel_inflight_for_agent agent now st
  | OpPrune now => prune_tasks now st
  end.
Definition orch_new : OrchState := mk_OrchState ∅ graph_default.
Definition orch_run (ops : list OrchOp) : OrchState := foldl orch_step orch_new ops.

Lemma store_task_ok st t : graph_ok (graph st) → graph_ok (graph (store_task st t)).
Proof. apply upsert_node_ok. Qed.

Lemma run_task_ok id o start now st :
  graph_ok (graph st) → graph_ok (graph (run_task id o start now st).1).
Proof.
  intros Hok. unfold run_task, mbind, action_bind, get_state, lift_res, modify.
  destruct (ok_or _ _) as [t|]; [|done].
  assert (graph_ok (graph (mark_task_running_if_needed t start st))) as Hok1.
  { unfold mark_task_running_if_needed. case_bool_decide; [done|by apply store_task_ok]. }
  destruct (settle t o now) as [t'|]; [|done]. by apply store_task_ok.
Qed.

Lemma pipe_edge_ok src tgt raw prefix st :
  graph_ok (graph st) → graph_ok (graph (pipe_edge src tgt raw prefix st).1).
Proof.
  intros Hok. unfold pipe_edge, mbind, action_bind, get_state, lift_res, modify.
  destruct (parse_transform raw prefix) as [tr|]; [|done]. destruct (ok_or _ _); [|done].
  destruct (add_edge _ _) as [g r] eqn:E. apply add_edge_preserves in E; [|done].
  by destruct r.
Qed.

Lemma orch_step_ok st op : graph_ok (graph st) → graph_ok (graph (orch_step st op)).
Proof.
  intros Hok. destruct op as [id agent p now|id agent p|id o start now|src tgt raw prefix|src tgt id| |];
    cbn [orch_step]; try done.
  - exact (store_task_ok st (mark_running (Task_new id agent p) now) Hok).
  - exact (store_task_ok st (Task_new id agent p) Hok).
  - by apply run_task_ok.
  - by apply pipe_edge_ok.
  - by apply set_generated_ok.
Qed.

Lemma orch_run_ok ops : graph_ok (graph (orch_run ops)).
Proof.
  unfold orch_run. assert (graph_ok (graph orch_new)) as Hok by apply graph_default_ok.
  revert Hok. generalize orch_new. induction ops as [|op ops IH]; intros st Hok; [done|].
  simpl. by apply IH, orch_step_ok.
Qed.

(** ** Pruning *)

Lemma foldl_delete (l : list string) (m : gmap string Task) k :
  foldl (λ m id, delete id m) m l !! k = if decide (k ∈ l) then None else m !! k.
Proof.
  revert m. induction l as [|id l IH]; intros m; cbn [foldl].
  { rewrite decide_False; [done|]. apply not_elem_of_nil. }
  rewrite IH. destruct (decide (k ∈ l)) as [Hk|Hk].
  - rewrite decide_True; [done|]. by right.
  - destruct (decide (k = id)) as [->|Hne].
    + rewrite lookup_delete_eq, decide_True; [done|left].
    + rewrite lookup_delete_ne by done. rewrite decide_False; [done|]. by intros [|]%elem_of_cons.
Qed.

#[export] Instance age_le_total : Total age_le.
Proof.
  intros [x n] [y k]. unfold age_le. simpl. destruct (N.lt_trichotomy n k) as [|[->|]]; auto.
  destruct (total String.le x y); auto.
Qed.
#[export] Instance age_le_trans : Transitive age_le.
Proof.
  intros [x n] [y k] [z m]. unfold age_le. simpl. intros [?|[-> ?]] [?|[-> ?]]; auto; [left; lia|].
  right. split; [done|]. by etrans.
Qed.

(** The order of age among the kept tasks, and what pruning leaves. *)
Definition by_age (kept : gmap string Task) : list (string * N) :=
  merge_sort age_le ((λ kt : string * Task, (kt.1, task_age kt.2)) <$> entries kept).

Lemma elem_of_by_age kept k n : (k, n) ∈ by_age kept ↔ ∃ t, kept !! k = Some t ∧ n = task_age t.
Proof.
  unfold by_age. rewrite merge_sort_Permutation, list_elem_of_fmap. split.
  - intros ([k' t] & [= -> ->] & Hin%elem_of_entries). by exists t.
  - intros (t & Ht & ->). exists (k, t). by rewrite elem_of_entries.
Qed.

Lemma by_age_keys kept : (by_age kept).*1 ≡ₚ (entries kept).*1.
Proof.
  unfold by_age. rewrite merge_sort_Permutation, <-list_fmap_compose. apply reflexive_eq.
  apply list_fmap_ext. by intros ? [k t].
Qed.

Lemma prune_lookup limit now st k :
  tasks (prune_tasks_to limit now st) !! k =
  let kept := filter (λ kt, keep_task now kt.2 = true) (tasks st) in
  if decide (k ∈ take (size kept - limit) (by_age kept).*1) then None else kept !! k.
Proof. apply foldl_delete. Qed.

Lemma by_age_NoDup kept : NoDup (by_age kept).*1.
Proof. rewrite by_age_keys. apply NoDup_entries_fst. Qed.

Lemma elem_of_by_age_keys kept k : k ∈ (by_age kept).*1 ↔ is_Some (kept !! k).
Proof. rewrite by_age_keys. apply elem_of_map_keys. Qed.

Lemma prune_dom limit now st :
  let kept := filter (λ kt, keep_task now kt.2 = true) (tasks st) in
  dom (tasks (prune_tasks_to limit now st)) =
    (list_to_set (drop (size kept - limit) (by_age kept).*1) : gset string).
Proof.
  intros kept. apply set_eq. intros k. rewrite elem_of_dom, prune_lookup, elem_of_list_to_set.
  cbv zeta. fold kept. set (n := size kept - limit).
  pose proof (by_age_NoDup kept) as Hnd. pose proof (elem_of_by_age_keys kept k) as Hk.
  rewrite <-(take_drop n (by_age kept).*1) in Hnd, Hk. apply NoDup_app in Hnd as (_ & Hdis & _).
  rewrite elem_of_app in Hk. case_decide as Ht.
  - split; [by intros [? ?]|]. intros Hd. by destruct (Hdis k Ht).
  - rewrite <-Hk. naive_solver.
Qed.

Lemma prune_size limit now st : size (tasks (prune_tasks_to limit now st)) ≤ limit.
Proof.
  rewrite <-size_dom, prune_dom, size_list_to_set.
  - rewrite length_drop, by_age_keys, length_fmap, length_entries. lia.
  - pose proof (by_age_NoDup (filter (λ kt, keep_task now kt.2 = true) (tasks st))) as Hnd.
    by eapply sublist_NoDup, sublist_drop.
Qed.

Lemma sorted_take_drop (l : list (string * N)) n p q :
  StronglySorted age_le l → p ∈ take n l → q ∈ drop n l → age_le p q.
Proof.
  intros Hs Hp Hq. rewrite <-(take_drop n l) in Hs. by eapply StronglySorted_app_1_elem_of.
Qed.

(** Pruning removes expired tasks, and then the oldest ones. *)
Lemma prune_oldest limit now st k t k' t' :
  let st' := prune_tasks_to limit now st in
  tasks st !! k = Some t → keep_task now t = true → tasks st' !! k = None →
  tasks st' !! k' = Some t' → (task_age t ≤ task_age t')%N.
Proof.
  intros st' Hk Hkeep Hgone Hk'. unfold st' in *. set (kept := filter (λ kt, keep_task now kt.2 = true) (tasks st)).
  assert (kept !! k = Some t) as Hkept by by apply map_lookup_filter_Some.
  assert (k' ∈ dom (tasks (prune_tasks_to limit now st))) as Hd by (apply elem_of_dom; by eexists).
  rewrite prune_dom, elem_of_list_to_set in Hd. fold kept in Hd.
  rewrite prune_lookup in Hgone, Hk'. cbv zeta in Hgone, Hk'. fold kept in Hgone, Hk'.
  set (n := size kept - limit) in *. rewrite Hkept in Hgone.
  destruct (decide (k ∈ take n (by_age kept).*1)) as [Ht|]; [|done].
  destruct (decide (k' ∈ take n (by_age kept).*1)); [done|].
  rewrite <-fmap_take in Ht. rewrite <-fmap_drop in Hd.
  apply list_elem_of_fmap in Ht as ([k1 n1] & -> & Ht), Hd as ([k2 n2] & -> & Hd).
  assert ((k1, n1) ∈ by_age kept ∧ (k2, n2) ∈ by_age kept) as [H1 H2].
  { rewrite <-(take_drop n (by_age kept)). split; apply elem_of_app; auto. }
  apply elem_of_by_age in H1 as (t1 & E1 & ->), H2 as (t2 & E2 & ->). simpl in *.
  assert (StronglySorted age_le (by_age kept)) as Hs by (apply StronglySorted_merge_sort; apply _).
  pose proof (sorted_take_drop _ _ _ _ Hs Ht Hd) as Hle. unfold age_le in Hle. simpl in Hle.
  rewrite Hkept in E1. rewrite Hk' in E2. injection E1 as ->. injection E2 as ->. lia.
Qed.

(** A task that has not started has age 0: it goes before every finished task. *)
Lemma prune_drops_pending :
  let st := store_task (store_task orch_new (Task_new "b" "agent" "later"))
              (mark_failed (Task_new "a" "agent" "old") "e" None 5) in
  prune_tasks_to 1 10 st = mk_OrchState (delete "b" (tasks st)) (graph st).
Proof. by vm_compute. Qed.

(** ** Further facts *)

(** A task whose start the pool refuses (a full budget, a busy or stopped agent) is left
    running: nothing marks it failed. *)
Lemma run_start_failed id e start now st t :
  tasks st !! id = Some t → task_status t = Pending →
  run_task id (StartFailed e) start now st = (store_task st (mark_running t start), Err e).
Proof.
  intros Ht Hs. unfold run_task, mbind, action_bind, get_state, lift_res, modify. rewrite Ht.
  cbn [ok_or settle]. unfold mark_task_running_if_needed.
  by rewrite bool_decide_eq_false_2 by by rewrite Hs.
Qed.

(** The stored result of a task that was pending when it was run has no start time: it is
    made from the copy taken before the task was marked. *)
Lemma run_loses_start id o start now st t st' t' :
  tasks st !! id = Some t → started_at t = None → run_task id o start now st = (st', Ok t') →
  started_at t' = None.
Proof.
  intros Ht Hs. unfold run_task, mbind, action_bind, get_state, lift_res, modify. rewrite Ht. simpl.
  destruct (settle t o now) as [t1|] eqn:E; [|done]. intros [= _ <-].
  destruct o as [e|code output u trace ans fa|e]; simpl in E; [done| |].
  - by destruct (code =? 0)%Z; injection E as <-.
  - injection E as <-. by destruct (str_contains _ _).
Qed.

Section prefix.
Context `{JsonAccess}.

(** The task prefix is put in front of the input, before the transform looks at it: an
    answer replaces it, and a JSON path is looked up in the prefixed text. *)
Lemma prefix_before_answer p t input a :
  p ≠ "" → trim a ≠ "" → parse_transform (Some "claude_answer") (Some p) = Ok t →
  apply_with_answer t input (Some a) = trim a.
Proof.
  intros Hp Ha. unfold parse_transform.
  assert (parse_base (Some "claude_answer") = Ok ClaudeAnswer) as -> by by vm_compute.
  cbn [mbind result_bind]. rewrite bool_decide_eq_false_2 by done. intros [= <-]. simpl.
  by rewrite bool_decide_eq_false_2.
Qed.

Lemma prefix_before_extract p t input ans :
  p ≠ "" → json_from_str (p +:+ input) = None →
  parse_transform (Some "json_extract:result") (Some p) = Ok t →
  apply_with_answer t input ans = p +:+ input.
Proof.
  intros Hp Hj. unfold parse_transform.
  assert (parse_base (Some "json_extract:result") = Ok (JsonExtract "result")) as -> by by vm_compute.
  cbn [mbind result_bind]. rewrite bool_decide_eq_false_2 by done. intros [= <-]. simpl.
  unfold json_extract. by rewrite Hj.
Qed.
End prefix.

(** ** Properties *)

(** The cycle check ends and is right: whatever the graph, its loop stops within
    the fuel of the model, and it answers [true] exactly when the source agent can be
    reached from the target agent along the pipes. *)
Theorem agent_would_cycle_decides g source target :
  ∃ r, agent_would_cycle g source target = Some r ∧ (r = true ↔ rtc (agent_rel g) target source).
Proof. apply agent_would_cycle_spec. Qed.

(** Claim C35. The pipes never form a cycle of agents, and every pipe starts at a known
    task, after any sequence of task creations, runs, pipes, cancellations and prunings. *)
Theorem orchestrator_graph_acyclic ops :
  (∀ a, ¬ tc (agent_rel (graph (orch_run ops))) a a) ∧
  ∀ e, e ∈ edges (graph (orch_run ops)) → is_Some (nodes (graph (orch_run ops)) !! source_task_id e).
Proof. destruct (orch_run_ok ops) as [Hs Ha]. by split. Qed.

(** Pruning keeps at most [MAX_TASKS_RETAINED] tasks, changes none of them and
    nothing of the graph, and a task that has not expired is removed only when every task
    that stays is at least as recent. *)
Theorem prune_tasks_bounded now st :
  size (tasks (prune_tasks now st)) ≤ MAX_TASKS_RETAINED ∧ graph (prune_tasks now st) = graph st ∧
  (∀ k t, tasks (prune_tasks now st) !! k = Some t → tasks st !! k = Some t ∧ keep_task now t = true) ∧
  ∀ k t k' t', tasks st !! k = Some t → keep_task now t = true → tasks (prune_tasks now st) !! k = None →
    tasks (prune_tasks now st) !! k' = Some t' → (task_age t ≤ task_age t')%N.
Proof.
  split; [apply prune_size|]. split; [done|]. split.
  - intros k t. unfold prune_tasks. rewrite prune_lookup. cbv zeta. case_decide; [done|].
    by intros Hk%map_lookup_filter_Some.
  - intros k t k' t'. apply (prune_oldest MAX_TASKS_RETAINED now st k t k' t').
Qed.
