(* ===== verification/AgentPool.v ===== *)
(** * The agent pool: [src/src/orchestrator/agent_pool.rs]

    The managed agents and the budget that bounds them.  The terminal a task runs in,
    the answer file of codex, the vault and the random ids are arguments; every lock of
    the pool is held for one whole operation, except [stop], whose last step is the
    state change. *)
From S2P Require Export Orchestrator.

Inductive AgentStatus := Idle | Busy (task_id : string) | Stopped (exit_code : Z).
#[export] Instance AgentStatus_eq_dec : EqDecision AgentStatus.
Proof. solve_decision. Defined.

Record ManagedAgent := {
  ma_id : string;
  ma_name : string;
  ma_type : string;
  pty_session_id : option string;
  capabilities : list string;
  agent_status : AgentStatus;
  launched_at : N;
  timeout_secs : N;
  model : option string;
  working_dir : option string;
  tasks_completed : N;
  total_cost_usd : f64;
  trace_enabled : bool;
  command : string;
  static_args : list string;
  env : list (string * string);
  env_remove : list string
}.

Record LaunchSpec := {
  ls_agent : string;
  ls_agent_name : string;
  ls_working_dir : option string;
  ls_env : gmap string string;
  ls_extra_args : list string;
  ls_timeout_secs : N;
  ls_model : option string;
  ls_trace : bool;
  ls_capabilities : list string
}.

Record TaskExecution := {
  te_agent_id : string;
  te_agent_type : string;
  te_task_id : string;
  te_session_id : string;
  te_timeout_secs : N;
  te_trace_enabled : bool;
  te_answer_path : option string
}.

Record ContainerBudget := {
  max_agents : nat;
  max_concurrent_busy : nat;
  allowed_kinds : list string
}.
Definition MAX_MANAGED_AGENTS : nat := 64.
Definition budget_default : ContainerBudget :=
  {| max_agents := MAX_MANAGED_AGENTS; max_concurrent_busy := 10; allowed_kinds := [] |}.

Definition u32_saturating_succ (n : N) : N := N.min (n + 1) (u32_mod - 1).

(** ** Kinds and capabilities *)

Definition normalize_agent_kind (raw : string) : result string string :=
  let kind := to_ascii_lowercase (trim raw) in
  if bool_decide (kind ∈ ["claude"; "codex"; "gemini"; "shell"]) then Ok kind
  else Err ("unsupported agent kind '" +:+ raw +:+ "'").

(** Command, static arguments, environment variables to remove. *)
Definition command_for_kind (kind : string) : string * list string * list string :=
  if bool_decide (kind = "claude") then
    ("claude", ["--print"; "--output-format"; "json"; "--verbose"; "--dangerously-skip-permissions"],
     ["CLAUDECODE"])
  else if bool_decide (kind = "codex") then
    ("codex", ["exec"; "--full-auto"; "--json"; "--skip-git-repo-check"], ["CODEX_CLI"])
  else if bool_decide (kind = "gemini") then
    ("gemini", ["--yolo"; "--output-format"; "stream-json"], [])
  else ("sh", ["-c"], ["ENV"; "BASH_ENV"; "PROMPT_COMMAND"]).

Definition model_args_for_kind (kind m : string) : list string :=
  if bool_decide (kind ∈ ["claude"; "codex"; "gemini"]) then ["--model"; m] else [].

Definition normalize_capabilities (caps : list string) : list string :=
  let caps := match caps with [] => ["memory_read"; "memory_write"] | _ => caps end in
  set_elems (list_to_set ((λ c, to_ascii_lowercase (trim c)) <$> filter (λ c, is_blank c = false) caps)).

Definition known_capabilities : list string :=
  ["*"; "memory_read"; "memory_write"; "sql_read"; "sql_write"; "container_launch";
   "orchestrator_pipe"; "operator"].
Fixpoint validate_capabilities (caps : list string) : result string () :=
  match caps with
  | [] => Ok tt
  | cap :: caps' =>
      _ ← throw_if (negb (bool_decide (to_ascii_lowercase cap ∈ known_capabilities)))
            ("unknown capability '" +:+ cap +:+ "'");
      validate_capabilities caps'
  end.

(** The vault's [get_key], when there is a vault. *)
Fixpoint resolve_entries (vault : option (string → result string string)) (l : list (string * string))
  : result string (list (string * string)) :=
  match l with
  | [] => Ok []
  | (k, v) :: l' =>
      value ← match strip_prefix "vault:" v with
              | Some provider =>
                  get ← ok_or vault ("vault unavailable for key " +:+ k);
                  get (trim provider)
              | None => mret v
              end;
      rest ← resolve_entries vault l';
      mret ((k, value) :: rest)
  end.
Definition resolve_env_vars (e : gmap string string) (vault : option (string → result string string))
  : result string (list (string * string)) := resolve_entries vault (entries e).

(** [{:?}] of a [Vec<String>]; of the escapes, those of the quote and the backslash. *)
Definition dquote : string := String "034" "".
Fixpoint debug_escape (s : string) : string :=
  match s with
  | EmptyString => ""
  | String c s' =>
      (if bool_decide (c = "034"%char ∨ c = "092"%char) then String "092" (String c "") else String c "")
      +:+ debug_escape s'
  end.
Definition debug_list (l : list string) : string :=
  "[" +:+ String.concat ", " ((λ s, dquote +:+ debug_escape s +:+ dquote) <$> l) +:+ "]".

(** ** The pool *)

Record PoolEnv := {
  pe_budget : ContainerBudget;
  pe_vault : option (string → result string string);
  (** [AGENTHALO_GEMINI_DEFAULT_MODEL] *)
  pe_gemini_model : option string
}.

Definition launch (pe : PoolEnv) (spec : LaunchSpec) (id : string) (now : N)
  : action (gmap string ManagedAgent) string ManagedAgent :=
  kind ← lift_res (normalize_agent_kind (ls_agent spec));
  _ ← lift_res (validate_capabilities (ls_capabilities spec));
  let budget := pe_budget pe in
  _ ← lift_res (throw_if (negb (bool_decide (allowed_kinds budget = [])) &&
                          negb (bool_decide (kind ∈ allowed_kinds budget)))
                  ("agent kind '" +:+ kind +:+ "' not allowed by container budget (allowed: " +:+
                   debug_list (allowed_kinds budget) +:+ ")"));
  agents ← get_state;
  let max := max_agents budget `min` MAX_MANAGED_AGENTS in
  _ ← lift_res (throw_if (max <=? size agents)
                  ("container budget exceeded: max " +:+ dec_nat max +:+ " agents"));
  envs ← lift_res (resolve_env_vars (ls_env spec) (pe_vault pe));
  let '(cmd, base_args, remove) := command_for_kind kind in
  let m := normalize_cli_model (pe_gemini_model pe) kind (ls_model spec) in
  let managed := {|
    ma_id := id;
    ma_name := if is_blank (ls_agent_name spec) then kind else trim (ls_agent_name spec);
    ma_type := kind;
    pty_session_id := None;
    capabilities := normalize_capabilities (ls_capabilities spec);
    agent_status := Idle;
    launched_at := now;
    timeout_secs := N.max (ls_timeout_secs spec) 5;
    model := m;
    working_dir := wd ← ls_working_dir spec; if is_blank wd then None else Some wd;
    tasks_completed := 0;
    total_cost_usd := f64_zero;
    trace_enabled := ls_trace spec;
    command := cmd;
    static_args := base_args ++ match m with Some m => model_args_for_kind kind m | None => [] end ++
                   ls_extra_args spec;
    env := envs;
    env_remove := filter (λ k, k ∉ envs.*1) remove |} in
  _ ← modify (λ agents, <[id := managed]> agents);
  mret managed.

Definition set_run (a : ManagedAgent) (session : option string) (s : AgentStatus) : ManagedAgent := {|
  ma_id := ma_id a; ma_name := ma_name a; ma_type := ma_type a; pty_session_id := session;
  capabilities := capabilities a; agent_status := s; launched_at := launched_at a;
  timeout_secs := timeout_secs a; model := model a; working_dir := working_dir a;
  tasks_completed := tasks_completed a; total_cost_usd := total_cost_usd a;
  trace_enabled := trace_enabled a; command := command a; static_args := static_args a;
  env := env a; env_remove := env_remove a |}.

(** The terminal session is stopped before; only the entry changes. *)
Definition stop (id : string) : action (gmap string ManagedAgent) string ManagedAgent :=
  agents ← get_state;
  a ← lift_res (ok_or (agents !! id) ("unknown agent_id " +:+ id));
  let stopped := set_run a None (Stopped 0) in
  _ ← modify (λ agents, <[id := stopped]> agents);
  mret stopped.

Definition is_busy (a : ManagedAgent) : bool := match agent_status a with Busy _ => true | _ => false end.
Definition is_stopped (a : ManagedAgent) : bool := match agent_status a with Stopped _ => true | _ => false end.
Definition busy_count (agents : gmap string ManagedAgent) : nat :=
  size (filter (λ ka : string * ManagedAgent, is_busy ka.2 = true) agents).

(** What the code asks of the terminal and of the file system to start a task. *)
Record Spawn := {
  sp_answer_file : result string string;
  sp_session : string → list string → list (string * string) → list string → option string → string →
               result string string
}.

Definition start_args (a : ManagedAgent) (prompt : string) (answer_path : option string) : list string :=
  if bool_decide (ma_type a = "codex") then
    static_args a ++ match answer_path with
                     | Some p => ["--output-last-message"; p; prompt]
                     | None => [prompt]
                     end
  else if bool_decide (ma_type a = "gemini") then static_args a ++ ["--prompt"; prompt]
  else static_args a ++ [prompt].

Definition start_task (budget : ContainerBudget) (sp : Spawn) (id task prompt : string) (timeout : option N)
  : action (gmap string ManagedAgent) string TaskExecution :=
  agents ← get_state;
  a ← lift_res (ok_or (agents !! id) ("unknown agent_id " +:+ id));
  let busy := busy_count agents in
  _ ← lift_res (throw_if (max_concurrent_busy budget <=? busy)
        ("concurrent busy limit reached (" +:+ dec_nat busy +:+ "/" +:+
         dec_nat (max_concurrent_busy budget) +:+ ")"));
  _ ← lift_res (throw_if (is_stopped a) ("agent " +:+ id +:+ " is stopped"));
  _ ← lift_res (throw_if (is_busy a) ("agent " +:+ id +:+ " is busy"));
  answer_path ← lift_res (if bool_decide (ma_type a = "codex") then Some <$> sp_answer_file sp else mret None);
  session ← lift_res (map_err (λ e, "start task PTY session failed: " +:+ e)
                        (sp_session sp (command a) (start_args a prompt answer_path) (env a) (env_remove a)
                           (working_dir a) (ma_type a)));
  _ ← modify (λ agents, <[id := set_run a (Some session) (Busy task)]> agents);
  mret {| te_agent_id := ma_id a; te_agent_type := ma_type a; te_task_id := task;
          te_session_id := session;
          te_timeout_secs := N.min (N.max (default (timeout_secs a) timeout) 1) 3600;
          te_trace_enabled := trace_enabled a; te_answer_path := answer_path |}.

Definition complete_task (id : string) (cost_usd : f64) (agents : gmap string ManagedAgent)
  : gmap string ManagedAgent :=
  match agents !! id with
  | None => agents
  | Some a =>
      let s := if is_stopped a then agent_status a else Idle in
      <[id := {|
          ma_id := ma_id a; ma_name := ma_name a; ma_type := ma_type a; pty_session_id := None;
          capabilities := capabilities a; agent_status := s; launched_at := launched_at a;
          timeout_secs := timeout_secs a; model := model a; working_dir := working_dir a;
          tasks_completed := u32_saturating_succ (tasks_completed a);
          total_cost_usd := fadd (total_cost_usd a) (fmax cost_usd f64_zero);
          trace_enabled := trace_enabled a; command := command a; static_args := static_args a;
          env := env a; env_remove := env_remove a |}]> agents
  end.

Definition allows (a : ManagedAgent) (required : string) : bool :=
  existsb (λ c, bool_decide (c = "*") || bool_decide (c = required)) (capabilities a).
Definition capability_check (agents : gmap string ManagedAgent) (id required : string) : result string () :=
  a ← ok_or (agents !! id) ("unknown agent_id " +:+ id);
  if allows a required then mret tt
  else Err ("agent '" +:+ ma_name a +:+ "' lacks capability '" +:+ required +:+ "'").

(** [Orchestrator::require_capability]: container agents first. *)
Definition require_capability (container_agents agents : gmap string ManagedAgent) (id required : string)
  : result string () :=
  match container_agents !! id with
  | Some _ => capability_check container_agents id required
  | None => capability_check agents id required
  end.

(** ** The invariant *)

Inductive PoolOp :=
| PLaunch (spec : LaunchSpec) (id : string) (now : N)
| PStop (id : string)
| PStart (sp : Spawn) (id task prompt : string) (timeout : option N)
| PComplete (id : string) (cost_usd : f64).

Definition pool_step (pe : PoolEnv) (agents : gmap string ManagedAgent) (op : PoolOp)
  : gmap string ManagedAgent :=
  match op with
  | PLaunch spec id now => (launch pe spec id now agents).1
  | PStop id => (stop id agents).1
  | PStart sp id task p t => (start_task (pe_budget pe) sp id task p t agents).1
  | PComplete id cost => complete_task id cost agents
  end.

Record agent_ok (a : ManagedAgent) : Prop := {
  ao_caps : Forall (λ c, c ∈ known_capabilities) (capabilities a);
  ao_kind : ma_type a ∈ ["claude"; "codex"; "gemini"; "shell"];
  ao_timeout : (5 ≤ timeout_secs a)%N
}.
Record pool_ok (b : ContainerBudget) (agents : gmap string ManagedAgent) : Prop := {
  po_size : size agents ≤ max_agents b `min` MAX_MANAGED_AGENTS;
  po_busy : busy_count agents ≤ max_concurrent_busy b;
  po_agents : ∀ id a, agents !! id = Some a → agent_ok a
}.

Lemma busy_count_insert id a m :
  busy_count (<[id := a]> m) = (if is_busy a then 1 else 0) + busy_count (delete id m).
Proof.
  unfold busy_count. destruct (is_busy a) eqn:Hb.
  - rewrite map_filter_insert_True by done. rewrite <-insert_delete_eq, <-map_filter_delete.
    rewrite map_size_insert_None; [done|]. rewrite map_filter_delete. apply lookup_delete_eq.
  - rewrite map_filter_insert_False by (simpl; by rewrite Hb). done.
Qed.

Lemma busy_count_delete id m : busy_count (delete id m) ≤ busy_count m.
Proof.
  destruct (m !! id) as [a|] eqn:Ha; [|by rewrite delete_id].
  rewrite <-(insert_delete_id m id a) at 2 by done. rewrite busy_count_insert, delete_delete_eq.
  destruct (is_busy a); lia.
Qed.

(** ** Capabilities are among the known ones *)

Lemma to_lower_app s t : to_ascii_lowercase (s +:+ t) = to_ascii_lowercase s +:+ to_ascii_lowercase t.
Proof. induction s as [|c s IH]; [done|]. rewrite str_app_cons. simpl. by rewrite IH. Qed.

(** Lowering does not touch white space. *)
Lemma whitespace_lower w : w ∈ whitespace_codes → to_ascii_lowercase w = w.
Proof.
  intros Hw. assert (Forall (λ w, to_ascii_lowercase w = w) whitespace_codes) as Hall.
  { apply (bool_decide_eq_true_1 (Forall (λ w, to_ascii_lowercase w = w) whitespace_codes)). by vm_compute. }
  rewrite Forall_forall in Hall. by apply Hall.
Qed.

Lemma strip_prefix_lower w s r :
  w ∈ whitespace_codes → strip_prefix w s = Some r → is_Some (strip_prefix w (to_ascii_lowercase s)).
Proof.
  intros Hw ->%strip_prefix_Some. rewrite to_lower_app, whitespace_lower, strip_prefix_app by done. done.
Qed.
Lemma strip_suffix_lower w s r :
  w ∈ whitespace_codes → strip_suffix w s = Some r → is_Some (strip_suffix w (to_ascii_lowercase s)).
Proof.
  intros Hw ->%strip_suffix_Some. rewrite to_lower_app, (whitespace_lower w), strip_suffix_app by done. done.
Qed.

Lemma trim_with_none strip n s : (∀ w, w ∈ whitespace_codes → strip w s = None) → trim_with strip n s = s.
Proof. intros Hs. destruct n as [|n]; [done|]. cbn [trim_with]. by rewrite (proj2 (first_some_None _ _) Hs). Qed.

(** A text whose lower case has no white space at its ends has none either. *)
Lemma trim_of_lower s :
  (∀ w, w ∈ whitespace_codes → strip_prefix w (to_ascii_lowercase s) = None ∧
                               strip_suffix w (to_ascii_lowercase s) = None) → trim s = s.
Proof.
  intros Hs. unfold trim, trim_start, trim_end. rewrite (trim_with_none strip_prefix).
  - apply trim_with_none. intros w Hw. apply eq_None_not_Some. intros [r Hr].
    destruct (strip_suffix_lower w s r Hw Hr) as [x Hx]. destruct (Hs w Hw) as [_ E]. by rewrite E in Hx.
  - intros w Hw. apply eq_None_not_Some. intros [r Hr].
    destruct (strip_prefix_lower w s r Hw Hr) as [x Hx]. destruct (Hs w Hw) as [E _]. by rewrite E in Hx.
Qed.

Lemma known_trim c : to_ascii_lowercase c ∈ known_capabilities → trim c = c.
Proof.
  intros Hc. apply trim_of_lower. intros w Hw.
  assert (Forall (λ k, Forall (λ w, strip_prefix w k = None ∧ strip_suffix w k = None) whitespace_codes)
    known_capabilities) as Hall.
  { apply (bool_decide_eq_true_1 (Forall (λ k, Forall (λ w, strip_prefix w k = None ∧
      strip_suffix w k = None) whitespace_codes) known_capabilities)). by vm_compute. }
  rewrite Forall_forall in Hall. specialize (Hall _ Hc). rewrite Forall_forall in Hall. by apply Hall.
Qed.

Lemma validate_capabilities_ok caps u :
  validate_capabilities caps = Ok u → Forall (λ c, to_ascii_lowercase c ∈ known_capabilities) caps.
Proof.
  induction caps as [|c caps IH]; simpl; intros Hv; [constructor|]. inv_res.
  apply negb_false_iff, bool_decide_eq_true in Hv0. constructor; [done|by apply IH].
Qed.

Lemma normalize_capabilities_known caps :
  Forall (λ c, to_ascii_lowercase c ∈ known_capabilities) caps →
  Forall (λ c, c ∈ known_capabilities) (normalize_capabilities caps).
Proof.
  intros Hv. unfold normalize_capabilities. apply Forall_forall. intros c Hc. unfold set_elems in Hc.
  rewrite merge_sort_Permutation, elem_of_elements, elem_of_list_to_set, list_elem_of_fmap in Hc.
  destruct Hc as (c0 & -> & [_ Hc0]%list_elem_of_filter).
  assert (to_ascii_lowercase c0 ∈ known_capabilities) as Hk.
  { destruct caps as [|c1 caps]; [|rewrite Forall_forall in Hv; by apply Hv].
    apply elem_of_cons in Hc0 as [->|Hc0];
      [|apply list_elem_of_singleton in Hc0 as ->]; by repeat constructor. }
  by rewrite known_trim.
Qed.

(** ** Preservation *)

Lemma pool_ok_insert b m id a :
  pool_ok b m → agent_ok a → is_Some (m !! id) → (is_busy a = true → busy_count m < max_concurrent_busy b) →
  pool_ok b (<[id := a]> m).
Proof.
  intros [Hs Hb Ha] Hok [a0 Hid] Hbusy. split.
  - by rewrite map_size_insert_Some by by eexists.
  - rewrite busy_count_insert. pose proof (busy_count_delete id m).
    destruct (is_busy a); [specialize (Hbusy eq_refl)|]; lia.
  - intros k a'. rewrite lookup_insert_Some. intros [[<- <-]|[_ Hk]]; [done|by eapply Ha].
Qed.

Lemma set_run_ok a s st : agent_ok a → agent_ok (set_run a s st).
Proof. by intros [? ? ?]. Qed.

Lemma launch_ok pe spec id now m :
  pool_ok (pe_budget pe) m → pool_ok (pe_budget pe) (launch pe spec id now m).1.
Proof.
  intros Hok. unfold launch, mbind, action_bind, get_state, lift_res, modify.
  destruct (normalize_agent_kind _) as [kind|] eqn:Hk; [|done].
  destruct (validate_capabilities _) as [u|] eqn:Hv; [|done].
  destruct (throw_if (_ && _) _); [|done].
  destruct (throw_if (_ <=? size m) _) as [u2|] eqn:Hsz; [|done].
  apply throw_if_ok, Nat.leb_gt in Hsz.
  destruct (resolve_env_vars _ _) as [envs|]; [|done]. destruct (command_for_kind kind) as [[cmd base] rm].
  cbn [fst mret action_ret]. destruct Hok as [Hs Hb Ha].
  set (a := Build_ManagedAgent _ _ _ _ _ _ _ _ _ _ _ _ _ _ _ _ _).
  assert (agent_ok a) as Hok.
  { split; simpl.
    - by eapply normalize_capabilities_known, validate_capabilities_ok.
    - unfold normalize_agent_kind in Hk. case_bool_decide as Hin; [|done]. by injection Hk as <-.
    - lia. }
  split; [| |intros k a'; rewrite lookup_insert_Some; intros [[<- <-]|[_ Hk']]; [done|by eapply Ha]].
  - rewrite map_size_insert. destruct (m !! id); simpl; lia.
  - rewrite busy_count_insert. pose proof (busy_count_delete id m). simpl. lia.
Qed.

Lemma stop_ok b id m : pool_ok b m → pool_ok b (stop id m).1.
Proof.
  intros Hok. unfold stop, mbind, action_bind, get_state, lift_res, modify.
  destruct (m !! id) as [a|] eqn:Ha; [|done]. simpl. apply pool_ok_insert; try done.
  apply set_run_ok. by eapply po_agents.
Qed.

Lemma start_task_ok b sp id task p t m : pool_ok b m → pool_ok b (start_task b sp id task p t m).1.
Proof.
  intros Hok. unfold start_task, mbind, action_bind, get_state, lift_res, modify.
  destruct (m !! id) as [a|] eqn:Ha; [|done]. cbn [ok_or].
  destruct (throw_if (_ <=? busy_count m) _) as [u|] eqn:Hb; [|done]. apply throw_if_ok, Nat.leb_gt in Hb.
  destruct (throw_if (is_stopped a) _); [|done]. destruct (throw_if (is_busy a) _); [|done].
  destruct (if bool_decide _ then _ else _) as [ap|]; [|done].
  destruct (map_err _ _) as [session|]; [|done]. simpl. apply pool_ok_insert; try done.
  apply set_run_ok. by eapply po_agents.
Qed.

Lemma complete_task_ok b id cost m : pool_ok b m → pool_ok b (complete_task id cost m).
Proof.
  intros Hok. unfold complete_task. destruct (m !! id) as [a|] eqn:Ha; [|done].
  destruct (po_agents _ _ Hok _ _ Ha). apply pool_ok_insert; try done.
  unfold is_busy. simpl. unfold is_stopped. by destruct (agent_status a).
Qed.

Lemma pool_step_ok pe m op : pool_ok (pe_budget pe) m → pool_ok (pe_budget pe) (pool_step pe m op).
Proof.
  destruct op; simpl; [apply launch_ok|apply stop_ok|apply start_task_ok|apply complete_task_ok].
Qed.

Lemma pool_run_ok pe ops m :
  pool_ok (pe_budget pe) m → pool_ok (pe_budget pe) (foldl (pool_step pe) m ops).
Proof. revert m. induction ops as [|op ops IH]; intros m Hm; [done|]. by apply IH, pool_step_ok. Qed.

Lemma pool_empty_ok b : pool_ok b ∅.
Proof. split; [rewrite map_size_empty; lia|unfold busy_count; rewrite map_filter_empty, map_size_empty; lia|].
  intros id a. by rewrite lookup_empty. Qed.

(** A stopped agent stays stopped: no operation but a launch under its id changes that. *)
Lemma stopped_stays pe m op id a :
  m !! id = Some a → is_stopped a = true → (∀ spec now, op ≠ PLaunch spec id now) →
  ∃ a', pool_step pe m op !! id = Some a' ∧ is_stopped a' = true.
Proof.
  intros Ha Hs Hop. destruct op as [spec id' now|id'|sp id' task p t|id' cost]; simpl.
  - assert (id' ≠ id) as Hne by (intros ->; by eapply Hop).
    unfold launch, mbind, action_bind, get_state, lift_res, modify.
    repeat match goal with |- context [match ?x with Ok _ => _ | Err _ => _ end] =>
      destruct x; [|by exists a] end.
    destruct (command_for_kind _) as [[? ?] ?]. simpl. rewrite lookup_insert_ne by done. by exists a.
  - unfold stop, mbind, action_bind, get_state, lift_res, modify.
    destruct (decide (id' = id)) as [->|Hne].
    + rewrite Ha. simpl. rewrite lookup_insert_eq. by eexists.
    + destruct (m !! id') as [a'|]; simpl; [rewrite lookup_insert_ne by done|]; by exists a.
  - unfold start_task, mbind, action_bind, get_state, lift_res, modify.
    destruct (decide (id' = id)) as [->|Hne].
    + rewrite Ha. cbn [ok_or]. destruct (throw_if (_ <=? _) _); [|by exists a]. rewrite Hs. by exists a.
    + repeat match goal with |- context [match ?x with Ok _ => _ | Err _ => _ end] =>
        destruct x; [|by exists a] end.
      simpl. rewrite lookup_insert_ne by done. by exists a.
  - unfold complete_task. destruct (decide (id' = id)) as [->|Hne].
    + rewrite Ha, lookup_insert_eq. eexists. split; [done|]. unfold is_stopped in *. simpl.
      by destruct (agent_status a).
    + destruct (m !! id') as [a'|]; [rewrite lookup_insert_ne by done|]; by exists a.
Qed.

(** ** Properties *)

(** Claim C36. The budget holds: after any sequence of launches, stops, task starts and task
    ends there are at most [min max_agents 64] agents, at most [max_concurrent_busy] of
    them are busy, and every agent has a known kind, only known capabilities and a timeout
    of at least five seconds. *)
Theorem pool_budget_respected pe ops :
  let agents := foldl (pool_step pe) ∅ ops in
  size agents ≤ max_agents (pe_budget pe) `min` MAX_MANAGED_AGENTS ∧
  busy_count agents ≤ max_concurrent_busy (pe_budget pe) ∧
  ∀ id a, agents !! id = Some a → agent_ok a.
Proof.
  destruct (pool_run_ok pe ops ∅ (pool_empty_ok _)) as [Hs Hb Ha]. done.
Qed.
