(* ===== verification/Container.v ===== *)
(** * Container agent lock and the operator's subsidiary registry

    [src/src/container/agent_lock.rs] and [src/src/orchestrator/subsidiary_registry.rs].
    Both are JSON files that the program reads, changes in memory and writes back; the
    changes are modelled here, the files and the process lock are not.  Every call of
    [now_unix_secs] is an argument. *)
From S2P Require Export F64.

(** ** The agent lock *)

Inductive AgentHookupKind :=
| KindCli (cli_name : string)
| KindApi (provider : string)
| KindLocalModel (model_id : string).
#[export] Instance AgentHookupKind_eq_dec : EqDecision AgentHookupKind.
Proof. solve_decision. Defined.

Inductive ReusePolicy := Reusable | SingleUse.
#[export] Instance ReusePolicy_eq_dec : EqDecision ReusePolicy.
Proof. solve_decision. Defined.
Definition reuse_as_str (p : ReusePolicy) : string :=
  match p with Reusable => "reusable" | SingleUse => "single_use" end.

Inductive ContainerAgentState :=
| Empty
| Locked (agent_kind : AgentHookupKind) (agent_id : string) (initialized_at_unix : N)
    (trace_session_id : option string)
| Deinitializing (agent_kind : AgentHookupKind) (agent_id : string) (deinit_started_at_unix : N)
    (trace_session_id : option string).

Record StateTransition := { tr_from : string; tr_to : string; at_unix : N; reason : string }.

Record ContainerAgentLock := mk_Lock {
  lock_state : ContainerAgentState;
  container_id : string;
  reuse_policy : ReusePolicy;
  state_history : list StateTransition
}.
Record DeinitContext := {
  dc_agent_kind : AgentHookupKind;
  dc_agent_id : string;
  dc_trace_session_id : option string
}.

(** [load_or_create_at] when there is no file. *)
Definition lock_create (id : string) : ContainerAgentLock := mk_Lock Empty id Reusable [].
(** [load_or_create_at]: what the file holds, whatever container asks. *)
Definition load_or_create (file : option (result string ContainerAgentLock)) (id : string)
  : result string ContainerAgentLock :=
  match file with
  | Some r => r
  | None => Ok (lock_create id)
  end.

Definition state_label_of (s : ContainerAgentState) : string :=
  match s with
  | Empty => "empty"
  | Locked _ _ _ _ => "locked"
  | Deinitializing _ _ _ _ => "deinitializing"
  end.
Definition state_label (l : ContainerAgentLock) : string := state_label_of (lock_state l).
Definition can_initialize (l : ContainerAgentLock) : bool :=
  match lock_state l with Empty => true | _ => false end.
Definition locked_agent (l : ContainerAgentLock) : option (AgentHookupKind * string) :=
  match lock_state l with
  | Locked k id _ _ | Deinitializing k id _ _ => Some (k, id)
  | Empty => None
  end.
Definition lock_busy_message (s : ContainerAgentState) : string :=
  match s with
  | Empty => "container is empty"
  | Locked _ id _ _ => "container already locked by agent " +:+ id
  | Deinitializing _ id _ _ => "container is deinitializing agent " +:+ id
  end.

Definition set_lock_state (s : ContainerAgentState) (l : ContainerAgentLock) : ContainerAgentLock :=
  mk_Lock s (container_id l) (reuse_policy l) (state_history l).
Definition push_transition (from to reason : string) (now : N) (l : ContainerAgentLock)
  : ContainerAgentLock :=
  mk_Lock (lock_state l) (container_id l) (reuse_policy l)
    (state_history l ++ [{| tr_from := from; tr_to := to; at_unix := now; reason := reason |}]).

Definition initialize (kind : AgentHookupKind) (id : string) (t1 t2 : N)
  : action ContainerAgentLock string () :=
  l ← get_state;
  _ ← lift_res (throw_if (negb (can_initialize l)) (lock_busy_message (lock_state l)));
  let from := state_label l in
  _ ← modify (set_lock_state (Locked kind id t1 None));
  modify (λ l, push_transition from (state_label l) "agent_initialized" t2 l).

Definition attach_trace_session (trace : option string) : action ContainerAgentLock string () :=
  l ← get_state;
  match lock_state l with
  | Locked k id t _ => modify (set_lock_state (Locked k id t trace))
  | _ => lift_res (Err "cannot attach trace session unless container is locked")
  end.

Definition begin_deinitialize (t1 t2 : N) : action ContainerAgentLock string DeinitContext :=
  l ← get_state;
  match lock_state l with
  | Locked k id _ trace =>
      let from := state_label l in
      _ ← modify (set_lock_state (Deinitializing k id t1 trace));
      _ ← modify (λ l, push_transition from (state_label l) "agent_deinitializing" t2 l);
      mret {| dc_agent_kind := k; dc_agent_id := id; dc_trace_session_id := trace |}
  | _ => lift_res (Err "cannot begin deinitialize unless container is locked")
  end.

Definition complete_deinitialize (t : N) : action ContainerAgentLock string ReusePolicy :=
  l ← get_state;
  match lock_state l with
  | Deinitializing _ _ _ _ =>
      let from := state_label l in
      _ ← modify (set_lock_state Empty);
      _ ← modify (λ l, push_transition from (state_label l) "agent_deinitialized" t l);
      mret (reuse_policy l)
  | _ => lift_res (Err "cannot complete deinitialize unless container is deinitializing")
  end.

(** [current_container_id]: the two environment variables. *)
Definition current_container_id (mesh_agent_id hostname : option string) : string :=
  let usable o := match o with Some v => if is_blank v then None else Some v | None => None end in
  match usable mesh_agent_id with
  | Some v => v
  | None => default "local-container" (usable hostname)
  end.

(** ** The life cycle as a step relation *)

(** The states of the lock without their data, and its transitions. *)
Inductive Phase := PhEmpty | PhLocked (k : AgentHookupKind) (id : string)
                 | PhDeinit (k : AgentHookupKind) (id : string).
Inductive phase_step : Phase → string * string * string → Phase → Prop :=
| step_init k id : phase_step PhEmpty ("empty", "locked", "agent_initialized") (PhLocked k id)
| step_begin k id :
    phase_step (PhLocked k id) ("locked", "deinitializing", "agent_deinitializing") (PhDeinit k id)
| step_complete k id :
    phase_step (PhDeinit k id) ("deinitializing", "empty", "agent_deinitialized") PhEmpty.
Inductive phase_path : Phase → list (string * string * string) → Phase → Prop :=
| path_nil p : phase_path p [] p
| path_snoc p ls q l r : phase_path p ls q → phase_step q l r → phase_path p (ls ++ [l]) r.

Definition phase_of (s : ContainerAgentState) : Phase :=
  match s with
  | Empty => PhEmpty
  | Locked k id _ _ => PhLocked k id
  | Deinitializing k id _ _ => PhDeinit k id
  end.
Definition label_of (t : StateTransition) : string * string * string := (tr_from t, tr_to t, reason t).

(** The history of the lock is a path of the machine to its present state. *)
Definition lock_ok (l : ContainerAgentLock) : Prop :=
  phase_path PhEmpty (label_of <$> state_history l) (phase_of (lock_state l)).

Inductive LockOp :=
| LInit (k : AgentHookupKind) (id : string) (t1 t2 : N)
| LAttach (trace : option string)
| LBegin (t1 t2 : N)
| LComplete (t : N).
Definition lock_step (l : ContainerAgentLock) (op : LockOp) : ContainerAgentLock :=
  match op with
  | LInit k id t1 t2 => (initialize k id t1 t2 l).1
  | LAttach trace => (attach_trace_session trace l).1
  | LBegin t1 t2 => (begin_deinitialize t1 t2 l).1
  | LComplete t => (complete_deinitialize t l).1
  end.

Lemma lock_ok_snoc l s t :
  lock_ok l → phase_step (phase_of (lock_state l)) (label_of t) (phase_of s) →
  lock_ok (mk_Lock s (container_id l) (reuse_policy l) (state_history l ++ [t])).
Proof. intros Hl Hs. unfold lock_ok. simpl. rewrite fmap_app. by eapply path_snoc. Qed.

Lemma lock_step_ok l op : lock_ok l → lock_ok (lock_step l op).
Proof.
  intros Hl. destruct l as [[|k id t tr|k id t tr] cid pol h], op as [k' id' t1 t2|tr'|t1 t2|t1];
    simpl; try done; apply (lock_ok_snoc _ _ _ Hl); constructor.
Qed.

Lemma lock_run_ok ops l : lock_ok l → lock_ok (foldl lock_step l ops).
Proof. revert l. induction ops as [|op ops IH]; intros l Hl; [done|]. by apply IH, lock_step_ok. Qed.

Lemma lock_run_policy ops l : reuse_policy (foldl lock_step l ops) = reuse_policy l.
Proof.
  revert l. induction ops as [|op ops IH]; intros l; [done|]. simpl. rewrite IH.
  by destruct l as [[] ? ? ?], op.
Qed.

(** The number of transitions gives the state. *)
Lemma phase_path_length p ls q :
  phase_path p ls q → p = PhEmpty →
  match q with
  | PhEmpty => ∃ n, length ls = 3 * n
  | PhLocked _ _ => ∃ n, length ls = 3 * n + 1
  | PhDeinit _ _ => ∃ n, length ls = 3 * n + 2
  end.
Proof.
  induction 1 as [p|p ls q l r _ IH Hs]; intros ->; [by exists 0|].
  specialize (IH eq_refl). rewrite length_app. simpl.
  destruct Hs; destruct IH as [n Hn]; [exists n|exists n|exists (S n)]; lia.
Qed.

(** The life cycle of a container: after any calls on a new lock its history is a
    run of the machine empty - locked - deinitializing - empty that ends in its present
    state; an agent is admitted exactly when the container is empty, a refused call changes
    nothing, the agent that is released is the one that was admitted, and the policy that
    completes the release never changes. *)
Theorem agent_lock_lifecycle cid ops :
  let l := foldl lock_step (lock_create cid) ops in
  phase_path PhEmpty (label_of <$> state_history l) (phase_of (lock_state l)) ∧
  (lock_state l = Empty ↔ ∃ n, length (state_history l) = 3 * n) ∧
  (∀ k id t1 t2, is_ok (initialize k id t1 t2 l).2 = bool_decide (locked_agent l = None)) ∧
  (∀ k id t1 t2, is_ok (initialize k id t1 t2 l).2 = false → (initialize k id t1 t2 l).1 = l) ∧
  (∀ t1 t2 l' ctx, begin_deinitialize t1 t2 l = (l', Ok ctx) →
     locked_agent l = Some (dc_agent_kind ctx, dc_agent_id ctx) ∧ locked_agent l' = locked_agent l ∧
     ∀ t, (complete_deinitialize t l').2 = Ok Reusable ∧ locked_agent (complete_deinitialize t l').1 = None).
Proof.
  intros l. assert (lock_ok l) as Hl by apply lock_run_ok, path_nil.
  assert (reuse_policy l = Reusable) as Hpol by apply lock_run_policy.
  clearbody l. split; [exact Hl|]. split.
  { pose proof (phase_path_length _ _ _ Hl eq_refl) as Hlen. rewrite length_fmap in Hlen.
    destruct l as [[|k id t tr|k id t tr] cid' pol h]; simpl in *; [done|..];
      destruct Hlen as [n Hn]; (split; [done|intros [m Hm]; lia]). }
  destruct l as [[|k id t tr|k id t tr] cid' pol h]; simpl in Hpol; subst pol; split_and!; try done.
  intros t1 t2 l' ctx [= <- <-]. done.
Qed.

(** ** The subsidiary registry *)

Record SubsidiaryRecord := {
  session_id : string;
  sub_container_id : string;
  peer_agent_id : string;
  agent_lock_state : string;
  sub_agent_kind : option AgentHookupKind;
  provisioned_at_unix : N;
  initialized_at_unix : option N;
  initialized_agent_id : option string;
  sub_trace_session_id : option string;
  sub_reuse_policy : option ReusePolicy
}.

(** The arguments of [record_task] that it only stores. *)
Record TaskReport := {
  rep_prompt : string;
  rep_status : string;
  rep_model : option string;
  rep_result : option string;
  rep_error : option string;
  rep_trace_session_id : option string;
  rep_input_tokens : option N;
  rep_output_tokens : option N;
  rep_cost_usd : option f64
}.
Record SubsidiaryTaskRecord := {
  st_task_id : string;
  st_session_id : string;
  st_operator_agent_id : string;
  st_report : TaskReport;
  created_at_unix : N;
  completed_at_unix : option N
}.
Record SubsidiaryRegistry := mk_Registry {
  operator_container_id : string;
  operator_agent_id : string;
  subsidiaries : list SubsidiaryRecord;
  sub_tasks : list SubsidiaryTaskRecord
}.

(** [load_or_create_at]; [file] is what the path holds. *)
Definition registry_load (file : option (result string SubsidiaryRegistry)) (container operator : string)
  : result string SubsidiaryRegistry :=
  match file with
  | None => Ok (mk_Registry container operator [] [])
  | Some r =>
      reg ← r;
      _ ← throw_if (negb (bool_decide (operator_agent_id reg = operator)))
            ("subsidiary registry belongs to operator `" +:+ operator_agent_id reg +:+ "` not `" +:+
             operator +:+ "`");
      _ ← throw_if (negb (bool_decide (operator_container_id reg = container)))
            ("subsidiary registry belongs to container `" +:+ operator_container_id reg +:+ "` not `" +:+
             container +:+ "`");
      mret reg
  end.

Definition find_sub (sid : string) (l : list SubsidiaryRecord) : option SubsidiaryRecord :=
  List.find (λ r, bool_decide (session_id r = sid)) l.
Definition subsidiary (reg : SubsidiaryRegistry) (sid : string) : option SubsidiaryRecord :=
  find_sub sid (subsidiaries reg).

(** Replace the first record of a session. *)
Fixpoint update_sub (sid : string) (f : SubsidiaryRecord → SubsidiaryRecord) (l : list SubsidiaryRecord)
  : list SubsidiaryRecord :=
  match l with
  | [] => []
  | r :: l' => if bool_decide (session_id r = sid) then f r :: l' else r :: update_sub sid f l'
  end.
Fixpoint remove_sub (sid : string) (l : list SubsidiaryRecord) : list SubsidiaryRecord :=
  match l with
  | [] => []
  | r :: l' => if bool_decide (session_id r = sid) then l' else r :: remove_sub sid l'
  end.

Definition set_subs (reg : SubsidiaryRegistry) (l : list SubsidiaryRecord) : SubsidiaryRegistry :=
  mk_Registry (operator_container_id reg) (operator_agent_id reg) l (sub_tasks reg).

Definition assert_owned (reg : SubsidiaryRegistry) (sid : string) : result string SubsidiaryRecord :=
  ok_or (subsidiary reg sid)
    ("operator `" +:+ operator_agent_id reg +:+ "` does not own subsidiary session `" +:+ sid +:+ "`").
Definition unknown_session (sid : string) : string := "unknown subsidiary session `" +:+ sid +:+ "`".

Definition register_provision (sid container peer : string) (now : N) (reg : SubsidiaryRegistry)
  : SubsidiaryRegistry :=
  let r := {| session_id := sid; sub_container_id := container; peer_agent_id := peer;
              agent_lock_state := "empty"; sub_agent_kind := None; provisioned_at_unix := now;
              initialized_at_unix := None; initialized_agent_id := None; sub_trace_session_id := None;
              sub_reuse_policy := None |} in
  match subsidiary reg sid with
  | Some _ => set_subs reg (update_sub sid (λ _, r) (subsidiaries reg))
  | None => set_subs reg (subsidiaries reg ++ [r])
  end.

Definition initialized_record (k : AgentHookupKind) (id : string) (trace : option string)
    (p : ReusePolicy) (now : N) (r : SubsidiaryRecord) : SubsidiaryRecord := {|
  session_id := session_id r; sub_container_id := sub_container_id r; peer_agent_id := peer_agent_id r;
  agent_lock_state := "locked"; sub_agent_kind := Some k; provisioned_at_unix := provisioned_at_unix r;
  initialized_at_unix := Some now; initialized_agent_id := Some id; sub_trace_session_id := trace;
  sub_reuse_policy := Some p |}.
Definition deinitialized_record (p : ReusePolicy) (r : SubsidiaryRecord) : SubsidiaryRecord := {|
  session_id := session_id r; sub_container_id := sub_container_id r; peer_agent_id := peer_agent_id r;
  agent_lock_state := "empty"; sub_agent_kind := None; provisioned_at_unix := provisioned_at_unix r;
  initialized_at_unix := None; initialized_agent_id := None; sub_trace_session_id := None;
  sub_reuse_policy := Some p |}.

Definition change_sub (sid : string) (f : SubsidiaryRecord → SubsidiaryRecord)
  : action SubsidiaryRegistry string () :=
  reg ← get_state;
  _ ← lift_res (ok_or (subsidiary reg sid) (unknown_session sid));
  modify (λ reg, set_subs reg (update_sub sid f (subsidiaries reg))).
Definition register_initialize (sid : string) (k : AgentHookupKind) (id : string)
    (trace : option string) (p : ReusePolicy) (now : N) : action SubsidiaryRegistry string () :=
  change_sub sid (initialized_record k id trace p now).
Definition register_deinitialize (sid : string) (p : ReusePolicy) : action SubsidiaryRegistry string () :=
  change_sub sid (deinitialized_record p).

Definition remove_subsidiary (sid : string) : action SubsidiaryRegistry string SubsidiaryRecord :=
  reg ← get_state;
  r ← lift_res (ok_or (subsidiary reg sid) (unknown_session sid));
  _ ← modify (λ reg, set_subs reg (remove_sub sid (subsidiaries reg)));
  mret r.

(** The id is [subtask-<clock>-<8 hex digits>]. *)
Definition record_task (sid tid : string) (rep : TaskReport) (t1 t2 : N)
  : action SubsidiaryRegistry string SubsidiaryTaskRecord :=
  reg ← get_state;
  _ ← lift_res (assert_owned reg sid);
  let task := {| st_task_id := tid; st_session_id := sid; st_operator_agent_id := operator_agent_id reg;
                 st_report := rep; created_at_unix := t1; completed_at_unix := Some t2 |} in
  _ ← modify (λ reg, mk_Registry (operator_container_id reg) (operator_agent_id reg) (subsidiaries reg)
                       (sub_tasks reg ++ [task]));
  mret task.
Definition find_task (reg : SubsidiaryRegistry) (tid : string) : option SubsidiaryTaskRecord :=
  List.find (λ t, bool_decide (st_task_id t = tid)) (sub_tasks reg).

(** ** The registry as a finite map *)

Fixpoint sub_map (l : list SubsidiaryRecord) : gmap string SubsidiaryRecord :=
  match l with
  | [] => ∅
  | r :: l' => <[session_id r := r]> (sub_map l')
  end.

(** Sessions are registered once, and every task record names a session of its operator. *)
Record registry_ok (reg : SubsidiaryRegistry) : Prop := {
  ro_sessions : NoDup (session_id <$> subsidiaries reg);
  ro_tasks : Forall (λ t, st_operator_agent_id t = operator_agent_id reg) (sub_tasks reg)
}.

Lemma find_sub_map sid l : find_sub sid l = sub_map l !! sid.
Proof.
  induction l as [|r l IH]; simpl; [by rewrite lookup_empty|].
  case_bool_decide as E; [subst; by rewrite lookup_insert_eq|by rewrite lookup_insert_ne].
Qed.

Lemma sub_map_None sid l : sub_map l !! sid = None ↔ sid ∉ session_id <$> l.
Proof.
  induction l as [|r l IH]; simpl; [rewrite lookup_empty; split; [|done]; intros _ Hin; by apply not_elem_of_nil in Hin|].
  rewrite lookup_insert_None, not_elem_of_cons, IH. naive_solver.
Qed.

Lemma update_sub_ids sid f l :
  (∀ r, session_id r = sid → session_id (f r) = sid) → session_id <$> update_sub sid f l = session_id <$> l.
Proof.
  intros Hf. induction l as [|r l IH]; [done|]. simpl. case_bool_decide as E; simpl.
  - by rewrite (Hf r E), E.
  - by f_equal.
Qed.

Lemma update_sub_map sid f l r :
  (∀ r, session_id r = sid → session_id (f r) = sid) → sub_map l !! sid = Some r →
  sub_map (update_sub sid f l) = <[sid := f r]> (sub_map l).
Proof.
  intros Hf. induction l as [|r0 l IH]; simpl; [by rewrite lookup_empty|].
  case_bool_decide as E; simpl.
  - subst sid. rewrite lookup_insert_eq. intros [= ->]. by rewrite Hf, insert_insert_eq by done.
  - rewrite lookup_insert_ne by done. intros Hr. rewrite IH by done. by rewrite insert_insert_ne.
Qed.

Lemma remove_sub_map sid l :
  NoDup (session_id <$> l) → sub_map (remove_sub sid l) = delete sid (sub_map l).
Proof.
  induction l as [|r l IH]; simpl; [by rewrite delete_empty|]. intros [Hr Hnd]%NoDup_cons.
  case_bool_decide as E; simpl.
  - subst sid. rewrite delete_insert_eq. symmetry. apply delete_id. by apply sub_map_None.
  - rewrite IH by done. by rewrite delete_insert_ne.
Qed.

Lemma remove_sub_sublist sid l : session_id <$> remove_sub sid l `sublist_of` session_id <$> l.
Proof.
  induction l as [|r l IH]; [done|]. simpl. case_bool_decide; simpl; [by apply sublist_cons|].
  by apply sublist_skip.
Qed.

Lemma sub_map_snoc l r :
  sub_map l !! session_id r = None → sub_map (l ++ [r]) = <[session_id r := r]> (sub_map l).
Proof.
  induction l as [|r0 l IH]; simpl; [done|]. rewrite lookup_insert_None. intros [Hr Hne].
  rewrite IH by done. by rewrite insert_insert_ne.
Qed.

(** The abstract registry: what each operation makes of the map. *)
Definition reg_map (reg : SubsidiaryRegistry) : gmap string SubsidiaryRecord := sub_map (subsidiaries reg).

Inductive RegOp :=
| RProvision (sid container peer : string) (now : N)
| RInitialize (sid : string) (k : AgentHookupKind) (id : string) (trace : option string)
    (p : ReusePolicy) (now : N)
| RDeinitialize (sid : string) (p : ReusePolicy)
| RRemove (sid : string)
| RTask (sid tid : string) (rep : TaskReport) (t1 t2 : N).

Definition reg_apply (op : RegOp) (reg : SubsidiaryRegistry) : SubsidiaryRegistry * result string () :=
  match op with
  | RProvision sid c p now => (register_provision sid c p now reg, Ok tt)
  | RInitialize sid k id trace p now => register_initialize sid k id trace p now reg
  | RDeinitialize sid p => register_deinitialize sid p reg
  | RRemove sid => let '(reg', r) := remove_subsidiary sid reg in (reg', _ ← r; mret tt)
  | RTask sid tid rep t1 t2 => let '(reg', r) := record_task sid tid rep t1 t2 reg in (reg', _ ← r; mret tt)
  end.

Definition reg_spec (op : RegOp) (m : gmap string SubsidiaryRecord) : option (gmap string SubsidiaryRecord) :=
  match op with
  | RProvision sid c p now =>
      Some (<[sid := {| session_id := sid; sub_container_id := c; peer_agent_id := p;
                        agent_lock_state := "empty"; sub_agent_kind := None; provisioned_at_unix := now;
                        initialized_at_unix := None; initialized_agent_id := None;
                        sub_trace_session_id := None; sub_reuse_policy := None |}]> m)
  | RInitialize sid k id trace p now =>
      r ← m !! sid; Some (<[sid := initialized_record k id trace p now r]> m)
  | RDeinitialize sid p => r ← m !! sid; Some (<[sid := deinitialized_record p r]> m)
  | RRemove sid => _ ← m !! sid; Some (delete sid m)
  | RTask sid _ _ _ _ => _ ← m !! sid; Some m
  end.

Lemma subsidiary_map reg sid : subsidiary reg sid = reg_map reg !! sid.
Proof. apply find_sub_map. Qed.

Lemma change_sub_spec sid f reg :
  (∀ r, session_id r = sid → session_id (f r) = sid) → registry_ok reg →
  match reg_map reg !! sid with
  | Some r => ∃ reg', change_sub sid f reg = (reg', Ok tt) ∧ registry_ok reg' ∧
                reg_map reg' = <[sid := f r]> (reg_map reg)
  | None => ∃ e, change_sub sid f reg = (reg, Err e)
  end.
Proof.
  intros Hf [Hnd Ht]. unfold change_sub, mbind, action_bind, get_state, lift_res, modify.
  rewrite subsidiary_map. destruct (reg_map reg !! sid) as [r|] eqn:Hr; [|by eexists].
  eexists. split; [done|]. split; [split; simpl; [by rewrite update_sub_ids|done]|].
  by apply update_sub_map.
Qed.

Lemma provision_spec sid c p now reg :
  registry_ok reg →
  registry_ok (register_provision sid c p now reg) ∧
  reg_spec (RProvision sid c p now) (reg_map reg) = Some (reg_map (register_provision sid c p now reg)).
Proof.
  intros [Hnd Ht]. unfold register_provision. rewrite subsidiary_map.
  destruct (reg_map reg !! sid) as [r|] eqn:Hr.
  - split; [split; simpl; [by rewrite update_sub_ids|done]|]. unfold reg_map. simpl.
    by rewrite (update_sub_map _ _ _ r).
  - split; [split; simpl; [|done]|].
    + rewrite fmap_app. apply NoDup_app. apply sub_map_None in Hr. split; [done|]. split; [|apply NoDup_singleton].
      intros x Hx ->%list_elem_of_singleton. done.
    + unfold reg_map. simpl. by rewrite sub_map_snoc.
Qed.

Lemma reg_apply_spec op reg :
  registry_ok reg →
  match reg_spec op (reg_map reg) with
  | Some m => ∃ reg', reg_apply op reg = (reg', Ok tt) ∧ registry_ok reg' ∧ reg_map reg' = m
  | None => ∃ e, reg_apply op reg = (reg, Err e)
  end.
Proof.
  intros Hok. destruct op as [sid c p now|sid k id trace p now|sid p|sid|sid tid rep t1 t2]; cbn [reg_apply].
  - destruct (provision_spec sid c p now reg Hok) as [Hok' ->]. by eexists.
  - pose proof (change_sub_spec sid (initialized_record k id trace p now) reg ltac:(done) Hok) as Hc.
    simpl. by destruct (reg_map reg !! sid).
  - pose proof (change_sub_spec sid (deinitialized_record p) reg ltac:(done) Hok) as Hc.
    simpl. by destruct (reg_map reg !! sid).
  - unfold remove_subsidiary, mbind, action_bind, get_state, lift_res, modify. rewrite subsidiary_map. simpl.
    destruct (reg_map reg !! sid) as [r|] eqn:Hr; [|by eexists]. simpl. eexists. split; [done|].
    destruct Hok as [Hnd Ht]. split; [split; simpl; [|done]|by apply remove_sub_map].
    eapply sublist_NoDup; [exact Hnd|apply remove_sub_sublist].
  - unfold record_task, assert_owned, mbind, action_bind, get_state, lift_res, modify.
    rewrite subsidiary_map. simpl. destruct (reg_map reg !! sid) as [r|] eqn:Hr; [|by eexists]. simpl.
    eexists. split; [done|]. destruct Hok as [Hnd Ht]. split; [|done]. split; simpl; [done|].
    apply Forall_app. split; [done|]. by repeat constructor.
Qed.

(** The registry implements a finite map from session ids to records: from a
    registry in its invariant every operation succeeds exactly when the map operation is
    defined, then holds its result in the invariant again (sessions registered once, tasks
    owned by the operator), and a refused operation changes nothing. *)
Theorem registry_refines_map op reg :
  registry_ok reg →
  match reg_spec op (reg_map reg) with
  | Some m => ∃ reg', reg_apply op reg = (reg', Ok tt) ∧ registry_ok reg' ∧ reg_map reg' = m
  | None => ∃ e, reg_apply op reg = (reg, Err e)
  end.
Proof. apply reg_apply_spec. Qed.

Lemma registry_refines_map_witness :
  ∃ reg', reg_apply (RProvision "s1" "c1" "p1" 7) (mk_Registry "ctr" "op" [] []) = (reg', Ok tt) ∧
    registry_ok reg' ∧
    reg_map reg' = <["s1" := {| session_id := "s1"; sub_container_id := "c1"; peer_agent_id := "p1";
                        agent_lock_state := "empty"; sub_agent_kind := None; provisioned_at_unix := 7;
                        initialized_at_unix := None; initialized_agent_id := None;
                        sub_trace_session_id := None; sub_reuse_policy := None |}]> ∅.
Proof.
  apply (registry_refines_map (RProvision "s1" "c1" "p1" 7) (mk_Registry "ctr" "op" [] [])).
  split; constructor.
Defined.
