(* ===== verification/Pod.v ===== *)
(** * Access control of a POD: [src/src/pod/acl.rs], [access_policy.rs],
    [capability.rs] and [did_acl_bridge.rs]

    Grants name keys by pattern; policies decide with deny before allow; capability
    tokens are signed by a DID and turned into grants by the agent that accepts them.
    Files are left out.  The clock is an argument ([now]) and so is the nonce of a grant,
    which the code makes from the clock and a counter. *)
From S2P Require Export Did.

(** ** Key patterns *)

(** [key_pattern_matches]. *)
Definition key_pattern_matches (pattern key : string) : bool :=
  if bool_decide (pattern = "*") then true
  else match strip_suffix "*" pattern with
       | Some prefix => starts_with key prefix
       | None => bool_decide (pattern = key)
       end.

(** Trim, drop the empty ones, sort and drop repetitions. *)
Definition normalize_patterns (patterns : list string) : list string :=
  set_elems (list_to_set (filter (λ p, p ≠ "") (trim <$> patterns))).

(** ** Grants *)

Record GrantPermissions := { p_read : bool; p_write : bool; p_append : bool; p_control : bool }.
Definition perms_read_only := {| p_read := true; p_write := false; p_append := false; p_control := false |}.
Definition perms_read_write := {| p_read := true; p_write := true; p_append := false; p_control := false |}.
Definition perms_all := {| p_read := true; p_write := true; p_append := true; p_control := false |}.
Definition perms_owner := {| p_read := true; p_write := true; p_append := true; p_control := true |}.

Record AccessGrant := {
  grant_id : arr 32;
  grantor_puf : arr 32;
  grantee_puf : arr 32;
  key_pattern : string;
  permissions : GrantPermissions;
  g_expires_at : option N;
  g_created_at : N;
  g_nonce : N;
  g_revoked : bool
}.
Record GrantRequest := {
  rq_grantor_puf : arr 32;
  rq_grantee_puf : arr 32;
  rq_key_pattern : string;
  rq_permissions : GrantPermissions;
  rq_expires_at : option N
}.
(** [GrantStore]: the list of grants. *)
Definition GrantStore : Type := list AccessGrant.

Definition matches_key (g : AccessGrant) (key : string) : bool := key_pattern_matches (key_pattern g) key.
Definition is_active (g : AccessGrant) (now : N) : bool :=
  if g_revoked g then false
  else match g_expires_at g with Some e => (now <? e)%N | None => true end.

Section grants.
Context `{Sha2}.

Definition compute_id (grantor grantee : arr 32) (pattern : string) (created_at nonce : N) : arr 32 :=
  sha256 (as_bytes "nucleusdb.pod.grant.v1|" ++ arr_bytes grantor ++ arr_bytes grantee ++
          as_bytes pattern ++ le_bytes 8 created_at ++ le_bytes 8 nonce).

Definition grant_of (rq : GrantRequest) (now nonce : N) : AccessGrant := {|
  grant_id := compute_id (rq_grantor_puf rq) (rq_grantee_puf rq) (rq_key_pattern rq) now nonce;
  grantor_puf := rq_grantor_puf rq; grantee_puf := rq_grantee_puf rq;
  key_pattern := rq_key_pattern rq; permissions := rq_permissions rq;
  g_expires_at := rq_expires_at rq; g_created_at := now; g_nonce := nonce; g_revoked := false |}.
Definition grant_create (store : GrantStore) (rq : GrantRequest) (now nonce : N) : GrantStore * AccessGrant :=
  let g := grant_of rq now nonce in (store ++ [g], g).
End grants.

Definition revoke_grant (g : AccessGrant) : AccessGrant := {|
  grant_id := grant_id g; grantor_puf := grantor_puf g; grantee_puf := grantee_puf g;
  key_pattern := key_pattern g; permissions := permissions g; g_expires_at := g_expires_at g;
  g_created_at := g_created_at g; g_nonce := g_nonce g; g_revoked := true |}.
(** [revoke]: the first grant with the id. *)
Fixpoint grant_revoke (store : GrantStore) (id : arr 32) : GrantStore * bool :=
  match store with
  | [] => ([], false)
  | g :: store' =>
      if bool_decide (grant_id g = id) then (revoke_grant g :: store', true)
      else let '(s, b) := grant_revoke store' id in (g :: s, b)
  end.
Definition grant_get (store : GrantStore) (id : arr 32) : option AccessGrant :=
  List.find (λ g, bool_decide (grant_id g = id)) store.
Definition active_for_grantee (store : GrantStore) (grantee : arr 32) (now : N) : list AccessGrant :=
  filter (λ g, grantee_puf g = grantee ∧ is_active g now = true) store.

Definition can (perm : GrantPermissions → bool) (store : GrantStore) (grantee : arr 32) (key : string)
    (now : N) : bool :=
  existsb (λ g, bool_decide (grantee_puf g = grantee) && is_active g now && perm (permissions g) &&
                matches_key g key) store.
Definition can_read : GrantStore → arr 32 → string → N → bool := can p_read.
Definition can_write : GrantStore → arr 32 → string → N → bool := can p_write.
Definition can_control : GrantStore → arr 32 → string → N → bool := can p_control.

(** ** Modes and policies *)

Inductive AccessMode := MRead | MWrite | MAppend | MControl.
#[export] Instance AccessMode_eq_dec : EqDecision AccessMode.
Proof. solve_decision. Defined.
Definition mode_str (m : AccessMode) : string :=
  match m with MRead => "read" | MWrite => "write" | MAppend => "append" | MControl => "control" end.
Definition sort_rank (m : AccessMode) : nat :=
  match m with MRead => 0 | MWrite => 1 | MAppend => 2 | MControl => 3 end.
Definition rank_le (m n : AccessMode) : Prop := sort_rank m ≤ sort_rank n.
#[export] Instance rank_le_dec : RelDecision rank_le.
Proof. intros m n. unfold rank_le. apply _. Defined.
(** [Vec::dedup]: equal neighbours. *)
Fixpoint dedup_modes (l : list AccessMode) : list AccessMode :=
  match l with
  | m :: (n :: _) as l' => if decide (m = n) then dedup_modes l' else m :: dedup_modes l'
  | _ => l
  end.
Definition normalize_modes (modes : list AccessMode) : list AccessMode :=
  dedup_modes (merge_sort rank_le modes).

Inductive AgentMatcher :=
| AnyAgent
| AnyAuthenticated
| ByDID (did_uris : list string)
| ByTier (min_tier : N)
| ByPUF (puf_fingerprints : list (arr 32)).

Record AccessPolicy := {
  policy_id : string;
  matcher : AgentMatcher;
  pol_resource_patterns : list string;
  allowed_modes : list AccessMode;
  denied_modes : list AccessMode;
  effective_from : option N;
  effective_until : option N;
  active : bool
}.
Inductive AccessDecision :=
| Allow (policy_id : string)
| Deny (policy_id reason : string)
| NoMatch.
#[export] Instance AccessDecision_eq_dec : EqDecision AccessDecision.
Proof. solve_decision. Defined.
(** [PolicyStore]: the list of policies. *)
Definition PolicyStore : Type := list AccessPolicy.
Record AccessContext := {
  agent_did : option string;
  agent_tier : option N;
  agent_puf : option (arr 32);
  resource_key : string;
  ctx_mode : AccessMode;
  ctx_now : N
}.

Definition mode_in (modes : list AccessMode) (m : AccessMode) : bool := bool_decide (m ∈ modes).
Definition matches_time_window (p : AccessPolicy) (now : N) : bool :=
  active p &&
  match effective_from p with Some start => negb (now <? start)%N | None => true end &&
  match effective_until p with Some stop => negb (stop <=? now)%N | None => true end.
Definition matches_resource (p : AccessPolicy) (key : string) : bool :=
  let pats := normalize_patterns (pol_resource_patterns p) in
  negb (bool_decide (pats = [])) && existsb (λ pat, key_pattern_matches pat key) pats.
Definition matches_agent (p : AccessPolicy) (ctx : AccessContext) : bool :=
  match matcher p with
  | AnyAgent => true
  | AnyAuthenticated =>
      match agent_did ctx with Some d => negb (is_blank d) && starts_with d "did:" | None => false end
  | ByDID uris =>
      match agent_did ctx with
      | Some d => negb (is_blank d) && bool_decide (d ∈ uris)
      | None => false
      end
  | ByTier min_tier => match agent_tier ctx with Some t => (min_tier <=? t)%N | None => false end
  | ByPUF fps => match agent_puf ctx with Some f => bool_decide (f ∈ fps) | None => false end
  end.

Definition policy_add (store : PolicyStore) (p : AccessPolicy) : PolicyStore :=
  filter (λ q, policy_id q ≠ policy_id p) store ++ [p].
Definition policy_remove (store : PolicyStore) (id : string) : PolicyStore * bool :=
  let store' := filter (λ q, policy_id q ≠ id) store in
  (store', negb (length store' =? length store)).

Definition applies (ctx : AccessContext) (p : AccessPolicy) : bool :=
  matches_time_window p (ctx_now ctx) && matches_agent p ctx && matches_resource p (resource_key ctx).
Definition evaluate (store : PolicyStore) (ctx : AccessContext) : AccessDecision :=
  let applicable := filter (λ p, applies ctx p = true) store in
  match List.find (λ p, mode_in (denied_modes p) (ctx_mode ctx)) applicable with
  | Some p => Deny (policy_id p) "deny rule matched"
  | None =>
      match List.find (λ p, mode_in (allowed_modes p) (ctx_mode ctx)) applicable with
      | Some p => Allow (policy_id p)
      | None => NoMatch
      end
  end.

(** ** Capability tokens *)

Inductive AgentClass := Public | Authenticated | Verified (min_tier : N) | Specific (did_uri : string).
#[export] Instance AgentClass_eq_dec : EqDecision AgentClass.
Proof. solve_decision. Defined.

Record CapabilityToken := {
  token_id : arr 32;
  grantor_did : string;
  grantor_did_document : DIDDocument;
  grantee_did : string;
  agent_class : AgentClass;
  resource_patterns : list string;
  modes : list AccessMode;
  not_before : N;
  expires_at : N;
  delegatable : bool;
  delegation_chain : list string;
  signature_ed25519_hex : string;
  signature_mldsa65_hex : string;
  created_at : N;
  revoked : bool
}.
Record CapabilityCanonical := {
  c_grantor_did : string;
  c_grantee_did : string;
  c_agent_class : AgentClass;
  c_resource_patterns : list string;
  c_modes : list AccessMode;
  c_not_before : N;
  c_expires_at : N;
  c_delegatable : bool;
  c_delegation_chain : list string;
  c_created_at : N
}.
#[export] Instance CapabilityCanonical_eq_dec : EqDecision CapabilityCanonical.
Proof. solve_decision. Defined.

(** [serde_json::to_vec] of the canonical form; [None] is an [Err]. *)
Class CapabilityJson := { canonical_to_vec : CapabilityCanonical → option bytes }.
(** [serde_json::from_slice] reads back what [to_vec] wrote, so that it is injective. *)
Class CapabilityJson_Laws (J : CapabilityJson) : Prop :=
  { canonical_inj c c' b : canonical_to_vec c = Some b → canonical_to_vec c' = Some b → c = c' }.

Definition canonical_from_token (t : CapabilityToken) : CapabilityCanonical := {|
  c_grantor_did := grantor_did t; c_grantee_did := grantee_did t; c_agent_class := agent_class t;
  c_resource_patterns := normalize_patterns (resource_patterns t); c_modes := normalize_modes (modes t);
  c_not_before := not_before t; c_expires_at := expires_at t; c_delegatable := delegatable t;
  c_delegation_chain := delegation_chain t; c_created_at := created_at t |}.

Definition delegation_chain_valid (t : CapabilityToken) : bool :=
  match delegation_chain t with
  | [] => true
  | chain =>
      delegatable t &&
      negb (existsb (λ d, is_blank d || negb (starts_with d "did:")) chain) &&
      bool_decide (head chain = Some (grantor_did t)) && bool_decide (last chain = Some (grantee_did t))
  end.

Section capability.
Context `{Sha2, DidLib, CapabilityJson}.

Definition canonical_bytes (c : CapabilityCanonical) : result string bytes :=
  ok_or (canonical_to_vec c) "serialize capability canonical payload".
Definition compute_token_id (c : CapabilityCanonical) : result string (arr 32) :=
  b ← canonical_bytes c;
  mret (sha256 (as_bytes "agenthalo.capability.v1|" ++ b)).

Definition create_capability (grantor : DIDIdentity) (grantee : string) (cls : AgentClass)
    (patterns : list string) (ms : list AccessMode) (nb exp : N) (deleg : bool) (now : N)
  : result string CapabilityToken :=
  _ ← throw_if (is_blank grantee) "grantee_did must not be empty";
  _ ← throw_if (negb (starts_with grantee "did:")) "grantee_did must be a DID URI";
  _ ← throw_if (exp <=? nb)%N "expires_at must be greater than not_before";
  let pats := normalize_patterns patterns in
  _ ← throw_if (bool_decide (pats = [])) "at least one resource pattern is required";
  let ms := normalize_modes ms in
  _ ← throw_if (bool_decide (ms = [])) "at least one access mode is required";
  let c := {| c_grantor_did := did grantor; c_grantee_did := grantee; c_agent_class := cls;
              c_resource_patterns := pats; c_modes := ms; c_not_before := nb; c_expires_at := exp;
              c_delegatable := deleg; c_delegation_chain := []; c_created_at := now |} in
  id ← compute_token_id c;
  message ← canonical_bytes c;
  '(ed_sig, pq_sig) ← dual_sign grantor message;
  mret {| token_id := id; grantor_did := did grantor; grantor_did_document := did_document grantor;
          grantee_did := grantee; agent_class := cls; resource_patterns := pats; modes := ms;
          not_before := nb; expires_at := exp; delegatable := deleg; delegation_chain := [];
          signature_ed25519_hex := hex_encode ed_sig; signature_mldsa65_hex := hex_encode pq_sig;
          created_at := now; revoked := false |}.

Definition verify_capability (t : CapabilityToken) (now : N) : result string () :=
  _ ← throw_if (negb (bool_decide (doc_id (grantor_did_document t) = grantor_did t)))
        "grantor DID does not match DID document id";
  _ ← throw_if (revoked t) "capability token is revoked";
  _ ← throw_if (now <? not_before t)%N "capability token not yet valid";
  _ ← throw_if (expires_at t <=? now)%N "capability token expired";
  _ ← throw_if (negb (delegation_chain_valid t)) "invalid delegation chain";
  let c := canonical_from_token t in
  expected_id ← compute_token_id c;
  _ ← throw_if (negb (bool_decide (expected_id = token_id t))) "capability token id mismatch";
  ed_sig ← map_err (λ e, "decode Ed25519 signature: " +:+ e) (util_hex_decode (signature_ed25519_hex t));
  pq_sig ← map_err (λ e, "decode ML-DSA signature: " +:+ e) (util_hex_decode (signature_mldsa65_hex t));
  _ ← throw_if (bool_decide (ed_sig = []) || bool_decide (pq_sig = []))
        "both Ed25519 and ML-DSA signatures are required";
  message ← canonical_bytes c;
  ok ← dual_verify (grantor_did_document t) message ed_sig pq_sig;
  throw_if (negb ok) "capability signature verification failed".

Definition pattern_covers (t : CapabilityToken) (key : string) : bool :=
  existsb (λ p, key_pattern_matches p key) (resource_patterns t).
Definition capability_authorizes (t : CapabilityToken) (key : string) (m : AccessMode) (now : N) : bool :=
  is_ok (verify_capability t now) && bool_decide (m ∈ modes t) && pattern_covers t key.
Definition token_authorizes_tool_call (t : CapabilityToken) (sender tool : string) (now : N) : bool :=
  is_ok (verify_capability t now) && bool_decide (grantee_did t = sender) && pattern_covers t tool.

(** [CapabilityStore]: the list of tokens. *)
Definition store_authorizes_tool_call (store : list CapabilityToken) (sender tool : string) (now : N) : bool :=
  existsb (λ t, token_authorizes_tool_call t sender tool now) store.

Definition permissions_from_modes (ms : list AccessMode) : GrantPermissions := {|
  p_read := mode_in ms MRead; p_write := mode_in ms MWrite; p_append := mode_in ms MAppend;
  p_control := mode_in ms MControl |}.

Definition capability_to_grants (t : CapabilityToken) (grantee grantor : arr 32)
  : result string (list GrantRequest) :=
  _ ← throw_if (bool_decide (resource_patterns t = [])) "capability token has no resource patterns";
  let perms := permissions_from_modes (modes t) in
  _ ← throw_if (negb (p_read perms) && negb (p_write perms) && negb (p_append perms) &&
                negb (p_control perms)) "capability token has no grantable permissions";
  mret ((λ pattern, {| rq_grantor_puf := grantor; rq_grantee_puf := grantee; rq_key_pattern := pattern;
                       rq_permissions := perms; rq_expires_at := Some (expires_at t) |})
        <$> resource_patterns t).
Definition capability_to_grant (t : CapabilityToken) (grantee grantor : arr 32) : result string GrantRequest :=
  rqs ← capability_to_grants t grantee grantor;
  ok_or (head rqs) "capability token has no resource patterns".

Definition store_create (store : list CapabilityToken) (t : CapabilityToken) : list CapabilityToken := store ++ [t].
Definition revoke_token (t : CapabilityToken) : CapabilityToken := {|
  token_id := token_id t; grantor_did := grantor_did t; grantor_did_document := grantor_did_document t;
  grantee_did := grantee_did t; agent_class := agent_class t; resource_patterns := resource_patterns t;
  modes := modes t; not_before := not_before t; expires_at := expires_at t;
  delegatable := delegatable t; delegation_chain := delegation_chain t;
  signature_ed25519_hex := signature_ed25519_hex t; signature_mldsa65_hex := signature_mldsa65_hex t;
  created_at := created_at t; revoked := true |}.
Fixpoint store_revoke (store : list CapabilityToken) (id : arr 32) : list CapabilityToken * bool :=
  match store with
  | [] => ([], false)
  | t :: store' =>
      if bool_decide (token_id t = id) then (revoke_token t :: store', true)
      else let '(s, b) := store_revoke store' id in (t :: s, b)
  end.
Definition list_active (store : list CapabilityToken) (now : N) : list CapabilityToken :=
  filter (λ t, is_ok (verify_capability t now) = true) store.

(** Create the grants of a list of requests; [nonces] gives each its nonce. *)
Definition create_all (store : GrantStore) (rqs : list GrantRequest) (now : N) (nonces : nat → N)
  : GrantStore * list AccessGrant :=
  let gs := imap (λ i rq, grant_of rq now (nonces i)) rqs in (store ++ gs, gs).

Definition apply_to_grant_store (tokens : list CapabilityToken) (grants : GrantStore)
    (grantee grantor : arr 32) (now : N) (nonces : nat → N) : GrantStore * nat :=
  let rqs := concat (omap (λ t, res_ok (capability_to_grants t grantee grantor)) (list_active tokens now)) in
  ((create_all grants rqs now nonces).1, length rqs).

(** ** The bridge *)

Definition grant_access_to_agent (local : DIDIdentity) (remote : string) (patterns : list string)
    (ms : list AccessMode) (duration now created : N) : result string CapabilityToken :=
  _ ← throw_if (duration =? 0)%N "duration_secs must be > 0";
  create_capability local remote (Specific remote) patterns ms now (saturating_add64 now duration) false created.

Definition accept_capability (t : CapabilityToken) (local_puf remote_puf : arr 32) (now clock : N)
    (nonces : nat → N) : action GrantStore string (list AccessGrant) :=
  _ ← lift_res (verify_capability t now);
  rqs ← lift_res (capability_to_grants t local_puf remote_puf);
  store ← get_state;
  let '(store', gs) := create_all store rqs clock nonces in
  _ ← modify (λ _, store');
  mret gs.
End capability.
