(* ===== verification/PodSpec.v ===== *)
(** * Properties of the POD access control of [Pod.v]

    Policies: deny overrides allow.  Capability tokens: what [create_capability] signs is
    accepted by [verify_capability] exactly in its time window and authorises exactly the
    listed modes and patterns; [accept_capability] gives the local agent exactly that
    authority.  The signature is checked against the document the token itself carries, so
    that the name of the grantor is not protected by it. *)
From S2P Require Import Pod Instances.

(** ** Boolean list lemmas *)

Lemma existsb_andb {A} (b : bool) (f : A → bool) l : existsb (λ x, b && f x) l = b && existsb f l.
Proof. induction l as [|x l IH]; simpl; [by rewrite andb_false_r|]. rewrite IH. by destruct b. Qed.
Lemma existsb_imap {A B} (f : B → bool) (g : nat → A → B) (h : A → bool) l :
  (∀ i x, f (g i x) = h x) → existsb f (imap g l) = existsb h l.
Proof.
  revert g. induction l as [|x l IH]; intros g Hg; [done|]. rewrite imap_cons. cbn [existsb].
  rewrite Hg. f_equal. apply IH. intros. apply Hg.
Qed.
Lemma existsb_true {A} (f : A → bool) l : existsb f l = true ↔ ∃ x, x ∈ l ∧ f x = true.
Proof. rewrite existsb_exists. by setoid_rewrite list_elem_of_In. Qed.
Lemma find_true {A} (f : A → bool) l x : List.find f l = Some x → x ∈ l ∧ f x = true.
Proof. intros H. apply find_some in H. by rewrite list_elem_of_In. Qed.
Lemma find_false {A} (f : A → bool) l : List.find f l = None ↔ ∀ x, x ∈ l → f x = false.
Proof.
  split.
  - intros H x Hx. by apply (find_none _ _ H), list_elem_of_In.
  - intros H. destruct (List.find f l) eqn:E; [|done]. apply find_true in E as [E1 E2]. by rewrite H in E2.
Qed.

(** ** Canonical patterns and modes *)

Lemma elem_of_normalize_patterns p l : p ∈ normalize_patterns l ↔ p ≠ "" ∧ ∃ q, q ∈ l ∧ p = trim q.
Proof.
  unfold normalize_patterns. rewrite elem_of_set_elems, elem_of_list_to_set, list_elem_of_filter, list_elem_of_fmap.
  naive_solver.
Qed.

Lemma normalize_patterns_idem l : normalize_patterns (normalize_patterns l) = normalize_patterns l.
Proof.
  assert (∀ k, (∀ p, p ∈ k → p ≠ "" ∧ trim p = p) → filter (λ p : string, p ≠ "") (fmap (M:=list) trim k) = k) as Hid.
  { induction k as [|p k IH]; intros H; [done|]. destruct (H p) as [Hp1 Hp2]; [constructor|].
    rewrite fmap_cons, Hp2, filter_cons_True by done. f_equal. apply IH. intros q Hq. apply H. by constructor. }
  unfold normalize_patterns at 1. rewrite Hid.
  - unfold normalize_patterns. by rewrite list_to_set_elems.
  - intros p (Hp & q & Hq & ->)%elem_of_normalize_patterns. split; [done|apply trim_idem].
Qed.

#[export] Instance rank_le_trans : Transitive rank_le.
Proof. intros a b c. unfold rank_le. lia. Qed.
#[export] Instance rank_le_total : Total rank_le.
Proof. intros a b. unfold rank_le. lia. Qed.
#[export] Instance rank_le_anti : AntiSymm (=) rank_le.
Proof. intros [] []; unfold rank_le; simpl; intros; done || lia. Qed.
Definition rank_lt (m n : AccessMode) : Prop := rank_le m n ∧ m ≠ n.

Lemma elem_of_dedup_modes m l : m ∈ dedup_modes l ↔ m ∈ l.
Proof.
  induction l as [|a [|b l] IH]; [done|done|]. cbn [dedup_modes] in *.
  case_decide; [subst; rewrite IH; set_solver|]. rewrite elem_of_cons, IH. set_solver.
Qed.
Lemma dedup_sorted l : StronglySorted rank_le l → StronglySorted rank_lt (dedup_modes l).
Proof.
  induction l as [|a [|b l] IH]; intros Hs; [constructor|by repeat constructor|].
  apply StronglySorted_cons in Hs as [Ha Hs]. specialize (IH Hs). cbn [dedup_modes] in *.
  case_decide as Hab; [done|]. constructor; [done|]. apply Forall_forall. intros c Hc.
  assert (c ∈ b :: l) as Hcl by (by apply elem_of_dedup_modes).
  pose proof (proj1 (Forall_forall _ _) Ha) as Ha'. split; [by apply Ha'|]. intros <-.
  apply Hab. apply (anti_symm rank_le); [apply Ha'; constructor|].
  apply StronglySorted_cons in Hs as [Hb _]. apply elem_of_cons in Hcl as [->|Hcl]; [done|].
  by apply (proj1 (Forall_forall _ _) Hb).
Qed.
Lemma dedup_id l : StronglySorted rank_lt l → dedup_modes l = l.
Proof.
  induction l as [|a [|b l] IH]; intros Hs; [done|done|].
  apply StronglySorted_cons in Hs as [Ha Hs]. cbn [dedup_modes] in *.
  apply Forall_cons in Ha as [[_ Hab] _]. rewrite decide_False by done. f_equal. by apply IH.
Qed.
Lemma elem_of_normalize_modes m l : m ∈ normalize_modes l ↔ m ∈ l.
Proof. unfold normalize_modes. by rewrite elem_of_dedup_modes, merge_sort_Permutation. Qed.
Lemma normalize_modes_idem l : normalize_modes (normalize_modes l) = normalize_modes l.
Proof.
  assert (StronglySorted rank_lt (normalize_modes l)) as Hs
    by (apply dedup_sorted, StronglySorted_merge_sort; apply _).
  unfold normalize_modes at 1. rewrite (StronglySorted_unique rank_le (merge_sort _ _) (normalize_modes l)).
  - by apply dedup_id.
  - apply StronglySorted_merge_sort; apply _.
  - clear -Hs. induction Hs as [|? ? ? IH Ha]; constructor; [done|]. eapply Forall_impl; [done|]. by intros ? [].
  - apply merge_sort_Permutation.
Qed.

(** ** Policies *)

(** Some policy that applies denies (allows) the mode. *)
Definition denies (store : PolicyStore) (ctx : AccessContext) : Prop :=
  ∃ p, p ∈ store ∧ applies ctx p = true ∧ ctx_mode ctx ∈ denied_modes p.
Definition allows (store : PolicyStore) (ctx : AccessContext) : Prop :=
  ∃ p, p ∈ store ∧ applies ctx p = true ∧ ctx_mode ctx ∈ allowed_modes p.
(** The policy that a decision names. *)
Definition decided_by (d : AccessDecision) (p : AccessPolicy) : Prop :=
  match d with Allow id | Deny id _ => policy_id p = id | NoMatch => False end.

Lemma find_policy store ctx (modes_of : AccessPolicy → list AccessMode) :
  match List.find (λ p, mode_in (modes_of p) (ctx_mode ctx)) (filter (λ p, applies ctx p = true) store) with
  | Some p => p ∈ store ∧ applies ctx p = true ∧ ctx_mode ctx ∈ modes_of p
  | None => ¬ ∃ p, p ∈ store ∧ applies ctx p = true ∧ ctx_mode ctx ∈ modes_of p
  end.
Proof.
  destruct (List.find _ _) as [p|] eqn:E.
  - apply find_true in E as [[Ha Hp]%list_elem_of_filter Hm]. by apply bool_decide_eq_true in Hm.
  - intros (p & Hp & Ha & Hm). rewrite find_false in E. specialize (E p).
    rewrite list_elem_of_filter in E. specialize (E (conj Ha Hp)). by apply bool_decide_eq_false in E.
Qed.

Lemma evaluate_cases store ctx :
  match evaluate store ctx with
  | Deny id _ => denies store ctx
  | Allow id => ¬ denies store ctx ∧ allows store ctx
  | NoMatch => ¬ denies store ctx ∧ ¬ allows store ctx
  end ∧ ∀ d, evaluate store ctx = d → d = NoMatch ∨ ∃ p, p ∈ store ∧ applies ctx p = true ∧ decided_by d p.
Proof.
  unfold evaluate. pose proof (find_policy store ctx denied_modes) as Hd.
  pose proof (find_policy store ctx allowed_modes) as Ha.
  destruct (List.find _ _) as [p|]; [split; [by exists p|]; intros d <-; right; exists p; naive_solver|].
  destruct (List.find _ _) as [q|].
  - split; [split; [done|by exists q]|]. intros d <-. right. exists q. naive_solver.
  - split; [done|]. intros d <-. by left.
Qed.

Lemma denies_policy_add store ctx p :
  (∀ q, q ∈ store → policy_id q ≠ policy_id p) → denies store ctx → denies (policy_add store p) ctx.
Proof.
  intros Hp (q & Hq & Ha & Hm). exists q. split; [|done]. unfold policy_add.
  apply elem_of_app. left. apply list_elem_of_filter. auto.
Qed.

(** Deny overrides allow, and nothing is allowed by default: [evaluate] denies
    exactly when some policy that applies to the request denies the mode, allows exactly
    when none does and one allows it, and names a policy of the store that applies.
    Adding a policy under a new id never lifts a denial, and removing a policy
    ([policy_remove]) never adds an allowance unless the removed policy denied. *)
Theorem policy_deny_overrides store ctx :
  ((∃ id r, evaluate store ctx = Deny id r) ↔ denies store ctx) ∧
  ((∃ id, evaluate store ctx = Allow id) ↔ ¬ denies store ctx ∧ allows store ctx) ∧
  (∀ d, evaluate store ctx = d → d = NoMatch ∨ ∃ p, p ∈ store ∧ applies ctx p = true ∧ decided_by d p) ∧
  (∀ p, (∀ q, q ∈ store → policy_id q ≠ policy_id p) → denies store ctx →
        ∃ id r, evaluate (policy_add store p) ctx = Deny id r) ∧
  (∀ id id', evaluate (policy_remove store id).1 ctx = Allow id' →
        allows store ctx ∧
        ∀ p, p ∈ store → applies ctx p = true → ctx_mode ctx ∈ denied_modes p → policy_id p = id).
Proof.
  destruct (evaluate_cases store ctx) as [Hc Hby]. split; [|split; [|split; [done|split]]].
  - split; [intros (id & r & He)|intros Hd]; clear Hby; destruct (evaluate store ctx); naive_solver.
  - split; [intros (id & He)|intros [Hn Ha]]; clear Hby; destruct (evaluate store ctx); naive_solver.
  - intros p Hp Hd. apply (denies_policy_add _ _ p Hp) in Hd.
    destruct (evaluate_cases (policy_add store p) ctx) as [Hc' _].
    destruct (evaluate (policy_add store p) ctx); naive_solver.
  - intros id id' He. destruct (evaluate_cases (policy_remove store id).1 ctx) as [Hc' _].
    rewrite He in Hc'. destruct Hc' as [Hnd (q & [_ Hq]%list_elem_of_filter & Ha & Hm)].
    split; [by exists q|]. intros p Hp Hap Hmp. destruct (decide (policy_id p = id)) as [|Hne]; [done|].
    destruct Hnd. exists p. split; [|done]. by apply list_elem_of_filter.
Qed.

(** ** Capability tokens *)

Section capability.
Context `{Sha2, DidLib, CapabilityJson, !SigLib_Laws _, !DidLib_Laws _}.

(** The time is in the window of the token. *)
Definition in_window (nb exp now : N) : bool := (nb <=? now)%N && (now <? exp)%N.

Lemma util_hex_decode_encode b : util_hex_decode (hex_encode b) = Ok b.
Proof using Type.
  unfold util_hex_decode. rewrite strip_0x_hex. cbn [default]. rewrite length_hex_encode.
  replace (Nat.even _) with true by (symmetry; apply Nat.even_spec; by exists (length b)).
  cbn [negb]. by rewrite hex_decode_encode.
Qed.

Lemma hex_encode_nil b : hex_encode b = "" → b = [].
Proof using Type. intros E. destruct b; [done|]. apply (f_equal str_len) in E. by rewrite length_hex_encode in E. Qed.

(** The key patterns of the request, trimmed, and without the blank ones. *)
Definition requested (patterns : list string) (key : string) : bool :=
  existsb (λ p, negb (is_blank p) && key_pattern_matches (trim p) key) patterns.

Lemma normalized_covers patterns key :
  existsb (λ p, key_pattern_matches p key) (normalize_patterns patterns) = requested patterns key.
Proof using Type.
  unfold requested. apply eq_true_iff_eq. rewrite !existsb_true. split.
  - intros (p & (Hp & q & Hq & ->)%elem_of_normalize_patterns & Hm). exists q. split; [done|].
    unfold is_blank. by rewrite bool_decide_eq_false_2.
  - intros (q & Hq & Hm). bool_hyps. unfold is_blank in *. bool_hyps. exists (trim q).
    split; [|done]. apply elem_of_normalize_patterns. eauto.
Qed.

(** A token that [create_capability] makes. *)
Lemma created_token grantor grantee cls patterns ms nb exp deleg now t :
  create_capability grantor grantee cls patterns ms nb exp deleg now = Ok t →
  grantor_did t = did grantor ∧ grantor_did_document t = did_document grantor ∧ grantee_did t = grantee ∧
  resource_patterns t = normalize_patterns patterns ∧ modes t = normalize_modes ms ∧
  not_before t = nb ∧ expires_at t = exp ∧ delegation_chain t = [] ∧ revoked t = false ∧
  compute_token_id (canonical_from_token t) = Ok (token_id t) ∧
  ∃ message ed pq, canonical_bytes (canonical_from_token t) = Ok message ∧
    dual_sign grantor message = Ok (ed, pq) ∧
    signature_ed25519_hex t = hex_encode ed ∧ signature_mldsa65_hex t = hex_encode pq.
Proof using Type.
  unfold create_capability. intros Ht. inv_res.
  match goal with p : bytes * bytes |- _ => destruct p as [ed pq] end. inv_res.
  do 9 (split; [done|]). unfold canonical_from_token. simpl.
  rewrite normalize_patterns_idem, normalize_modes_idem. eauto 10.
Qed.

Lemma dual_sign_nonempty i message ed pq : dual_sign i message = Ok (ed, pq) → ed ≠ [].
Proof using Type.
  unfold dual_sign. intros Hs. inv_res. intros E.
  match type of E with arr_bytes ?a = _ => pose proof (arr_length a) as Hl end. by rewrite E in Hl.
Qed.

(** The identity can sign for its document, and the document is named after it. *)
Definition can_sign_as (i : DIDIdentity) : Prop :=
  doc_keys_of i (did_document i) ∧ doc_id (did_document i) = did i.

Lemma created_verifies grantor grantee cls patterns ms nb exp deleg now t :
  can_sign_as grantor →
  create_capability grantor grantee cls patterns ms nb exp deleg now = Ok t →
  signature_mldsa65_hex t ≠ "" → ∀ now', is_ok (verify_capability t now') = in_window nb exp now'.
Proof using All.
  intros [Hkeys Hid] (Hg & Hdoc & _ & _ & _ & Hnb & Hexp & Hchain & Hrev & Htid & message & ed & pq & Hm & Hs & He & Hp)%created_token
    Hsig now'.
  unfold verify_capability, in_window, delegation_chain_valid.
  rewrite Hg, Hdoc, Hnb, Hexp, Hchain, Hrev, Hid, bool_decide_eq_true_2, (N.leb_antisym now' nb) by done.
  cbn [negb throw_if mbind result_bind].
  destruct (now' <? nb)%N; [done|]. cbn [negb andb throw_if mbind result_bind].
  rewrite (N.leb_antisym now' exp). destruct (now' <? exp)%N; [|done]. cbn [negb throw_if mbind result_bind].
  rewrite Htid. cbn [mbind result_bind]. rewrite bool_decide_eq_true_2 by done. cbn [negb throw_if mbind result_bind].
  rewrite He, Hp, !util_hex_decode_encode. cbn [map_err mbind result_bind].
  rewrite !bool_decide_eq_false_2.
  - cbn [orb throw_if mbind result_bind]. rewrite Hm. cbn [mbind result_bind].
    by rewrite (dual_sign_verify _ _ _ _ _ Hkeys Hs).
  - intros ->. apply Hsig. by rewrite Hp.
  - by eapply dual_sign_nonempty.
Qed.

Lemma created_authorizes grantor grantee cls patterns ms nb exp deleg now t :
  can_sign_as grantor →
  create_capability grantor grantee cls patterns ms nb exp deleg now = Ok t →
  signature_mldsa65_hex t ≠ "" → ∀ key m now',
  capability_authorizes t key m now' = in_window nb exp now' && bool_decide (m ∈ ms) && requested patterns key.
Proof using All.
  intros Hs Ht Hsig key m now'. unfold capability_authorizes, pattern_covers.
  rewrite (created_verifies _ _ _ _ _ _ _ _ _ _ Hs Ht Hsig).
  apply created_token in Ht as (_ & _ & _ & -> & -> & _). rewrite normalized_covers. f_equal. f_equal.
  apply bool_decide_ext, elem_of_normalize_modes.
Qed.

Lemma genesis_can_sign seed i : did_from_genesis_seed seed = Ok i → can_sign_as i.
Proof using Type. intros (Hd & Hk & _)%genesis_identity_keys. split; [done|by rewrite Hd]. Qed.

(** *** Acceptance *)

Lemma can_app perm s s' puf key now : can perm (s ++ s') puf key now = can perm s puf key now || can perm s' puf key now.
Proof using Type. unfold can. apply existsb_app. Qed.

Lemma accepted_store t local remote now clock nonces store store' gs :
  accept_capability t local remote now clock nonces store = (store', Ok gs) →
  is_ok (verify_capability t now) = true ∧ store' = store ++ gs ∧
  gs = imap (λ i rq, grant_of rq clock (nonces i))
         ((λ pattern, {| rq_grantor_puf := remote; rq_grantee_puf := local; rq_key_pattern := pattern;
                         rq_permissions := permissions_from_modes (modes t);
                         rq_expires_at := Some (expires_at t) |}) <$> resource_patterns t).
Proof using Type.
  unfold accept_capability, lift_res, get_state, modify, create_all, mbind, action_bind, mret, action_ret.
  destruct (verify_capability t now) as [[]|] eqn:Hv; [|done]. intros Hacc. split; [done|].
  destruct (capability_to_grants t local remote) as [rqs|] eqn:Hr; [|done].
  injection Hacc as <- <-. split; [done|]. f_equal. unfold capability_to_grants in Hr. inv_res. done.
Qed.

Lemma can_accepted perm t local remote clock nonces puf key now :
  can perm (imap (λ i rq, grant_of rq clock (nonces i))
    ((λ pattern, {| rq_grantor_puf := remote; rq_grantee_puf := local; rq_key_pattern := pattern;
                    rq_permissions := permissions_from_modes (modes t);
                    rq_expires_at := Some (expires_at t) |}) <$> resource_patterns t)) puf key now =
  bool_decide (puf = local) && (now <? expires_at t)%N && perm (permissions_from_modes (modes t)) &&
  pattern_covers t key.
Proof using Type.
  unfold can, pattern_covers. rewrite <-existsb_andb, imap_fmap. apply existsb_imap. intros i p. simpl.
  unfold is_active, matches_key. simpl. f_equal. f_equal. f_equal. apply bool_decide_ext. naive_solver.
Qed.

(** *** Binding *)

(** The id of a token binds every field of its canonical form. *)
Definition token_id_strings (t : CapabilityToken) : list bytes :=
  option_list ((λ b, as_bytes "agenthalo.capability.v1|" ++ b) <$> canonical_to_vec (canonical_from_token t)).
Lemma token_id_binding `{!CapabilityJson_Laws _} t t' now now' :
  is_ok (verify_capability t now) = true → is_ok (verify_capability t' now') = true →
  token_id t = token_id t' →
  canonical_from_token t = canonical_from_token t' ∨ collides sha256 (token_id_strings t ++ token_id_strings t').
Proof using Type.
  assert (∀ t now, is_ok (verify_capability t now) = true → ∃ b,
    canonical_to_vec (canonical_from_token t) = Some b ∧
    token_id t = sha256 (as_bytes "agenthalo.capability.v1|" ++ b)) as Hid.
  { clear. intros t now Hv. destruct (verify_capability t now) as [[]|] eqn:E; [|done].
    unfold verify_capability, compute_token_id, canonical_bytes in E. inv_res. bool_hyps. subst.
    match goal with Hc : canonical_to_vec _ = Some ?b |- _ => exists b; split; [done|] end.
    simplify_eq. done. }
  intros (b & Hb & Hi)%Hid (b' & Hb' & Hi')%Hid He. rewrite Hi, Hi' in He.
  unfold token_id_strings. rewrite Hb, Hb'. apply sha256_inj_or_collides in He as [He|]; [left|by right].
  apply app_inv_head in He. subst b'. by eapply canonical_inj.
Qed.

(** The keys of [i] under the name [victim]. *)
Definition impersonate (i : DIDIdentity) (victim : string) : DIDIdentity := {|
  did := victim;
  did_document := {| doc_id := victim; also_known_as := also_known_as (did_document i);
                     verification_method := verification_method (did_document i);
                     key_agreement := key_agreement (did_document i);
                     authentication := authentication (did_document i);
                     assertion_method := assertion_method (did_document i) |};
  ed25519_signing_key := ed25519_signing_key i; mldsa65_signing_key := mldsa65_signing_key i;
  x25519_agreement_key := x25519_agreement_key i;
  mlkem768_decapsulation_key := mlkem768_decapsulation_key i |}.

Lemma impersonate_can_sign i victim : can_sign_as i → can_sign_as (impersonate i victim).
Proof using Type. intros [[He Hm Hp] _]. split; [by split|done]. Qed.

(** ** Properties *)

(** Claim C12. A capability token made with an identity from a genesis seed is accepted
    exactly while [not_before <= now < expires_at], and then authorises exactly the
    requested modes on the keys that a requested pattern covers (patterns trimmed, blank
    ones dropped); after its revocation it authorises nothing. *)
Theorem capability_lifecycle seed grantor grantee cls patterns ms nb exp deleg now t :
  did_from_genesis_seed seed = Ok grantor →
  create_capability grantor grantee cls patterns ms nb exp deleg now = Ok t →
  signature_mldsa65_hex t ≠ "" → ∀ key m now',
  is_ok (verify_capability t now') = in_window nb exp now' ∧
  capability_authorizes t key m now' = in_window nb exp now' && bool_decide (m ∈ ms) && requested patterns key ∧
  capability_authorizes (revoke_token t) key m now' = false.
Proof using All.
  intros Hg%genesis_can_sign Ht Hsig key m now'.
  split; [by apply (created_verifies _ _ _ _ _ _ _ _ _ _ Hg Ht)|].
  split; [by apply (created_authorizes _ _ _ _ _ _ _ _ _ _ Hg Ht)|].
  unfold capability_authorizes, verify_capability. simpl. by destruct (bool_decide _).
Qed.

(** [accept_capability] changes nothing when it fails, and when it succeeds the
    token was valid and the store grants what it granted before and, to the local agent
    only and until the token expires only, the modes of the token on the keys its
    patterns cover; this for reading, writing, appending and control alike. *)
Theorem accepted_authority_exact t local remote now clock nonces store :
  match accept_capability t local remote now clock nonces store with
  | (store', Err _) => store' = store
  | (store', Ok _) =>
      is_ok (verify_capability t now) = true ∧
      ∀ perm puf key now',
        can perm store' puf key now' =
        can perm store puf key now' ||
        (bool_decide (puf = local) && (now' <? expires_at t)%N && perm (permissions_from_modes (modes t)) &&
         pattern_covers t key)
  end.
Proof using Type.
  destruct (accept_capability _ _ _ _ _ _ _) as [store' [gs|e]] eqn:E.
  - apply accepted_store in E as (Hv & -> & ->). split; [done|]. intros. by rewrite can_app, can_accepted.
  - unfold accept_capability, lift_res, get_state, modify, mbind, action_bind, mret, action_ret in E.
    destruct (verify_capability t now); [|by injection E].
    destruct (capability_to_grants t local remote) as [rqs|]; [|by injection E].
    by destruct (create_all store rqs clock nonces).
Qed.

(** The grantor of a capability token is not authenticated:
    [verify_capability] takes the verification keys from the document inside the token
    and compares the document's id with the name of the grantor, but never the id with
    the keys.  Whoever holds any genesis identity makes tokens that name an arbitrary
    victim as grantor, which are accepted and authorise the keys asked for. *)
Theorem capability_grantor_not_bound seed attacker victim grantee cls patterns ms nb exp deleg now t :
  did_from_genesis_seed seed = Ok attacker →
  create_capability (impersonate attacker victim) grantee cls patterns ms nb exp deleg now = Ok t →
  signature_mldsa65_hex t ≠ "" →
  grantor_did t = victim ∧ ∀ key m now', in_window nb exp now' = true → m ∈ ms → requested patterns key = true →
  verify_capability t now' = Ok tt ∧ capability_authorizes t key m now' = true.
Proof using All.
  intros Hg%genesis_can_sign Ht Hsig. apply (impersonate_can_sign _ victim) in Hg.
  split; [by apply created_token in Ht as [-> _]|]. intros key m now' Hw Hm Hr. split.
  - pose proof (created_verifies _ _ _ _ _ _ _ _ _ _ Hg Ht Hsig now') as Hv. rewrite Hw in Hv.
    by destruct (verify_capability t now') as [[]|].
  - rewrite (created_authorizes _ _ _ _ _ _ _ _ _ _ Hg Ht Hsig), Hw, Hr. by rewrite bool_decide_eq_true_2.
Qed.
End capability.

(** ** Examples *)

#[local] Existing Instances prefix_sha toy_sig.
(** The canonical form as the list of its patterns. *)
Definition toy_capability_json : CapabilityJson :=
  {| canonical_to_vec := λ c, Some (as_bytes (String.concat "," (c_resource_patterns c))) |}.

#[local] Existing Instances toy_did toy_did_laws toy_capability_json.
Definition ex_seed : arr 64 := to_arr 64 [x01; x02].
Definition ex_grantor : result string DIDIdentity := did_from_genesis_seed ex_seed.
Definition ex_token (who : DIDIdentity → DIDIdentity) : result string CapabilityToken :=
  g ← ex_grantor;
  create_capability (who g) "did:key:bob" Public ["b*"; " a "] [MWrite; MRead] 10 20 false 9.

Definition ex_victim (i : DIDIdentity) : DIDIdentity := impersonate i "did:key:victim".
(** The token's ML-DSA signature is there. *)
Definition ex_signed (who : DIDIdentity → DIDIdentity) : bool :=
  match ex_token who with Ok t => 0 <? str_len (signature_mldsa65_hex t) | Err _ => false end.
Lemma ex_signed_nonempty who t : ex_signed who = true → ex_token who = Ok t → signature_mldsa65_hex t ≠ "".
Proof. unfold ex_signed. intros Hs Ht. rewrite Ht in Hs. by destruct (signature_mldsa65_hex t). Qed.

Lemma capability_lifecycle_witness :
  ∃ g t, ex_grantor = Ok g ∧ ex_token id = Ok t ∧
  capability_authorizes t "beta" MRead 10 =
    in_window 10 20 10 && bool_decide (MRead ∈ [MWrite; MRead]) && requested ["b*"; " a "] "beta".
Proof.
  destruct ex_grantor as [g|] eqn:Eg; [|done].
  assert (ex_signed id = true) as Hs by (vm_compute; reflexivity).
  destruct (ex_token id) as [t|] eqn:Et; [|by unfold ex_signed in Hs; rewrite Et in Hs].
  exists g, t. do 2 (split; [done|]).
  assert (ex_token id = Ok t) as Et' by done. unfold ex_token in Et'. rewrite Eg in Et'.
  exact (proj1 (proj2 (capability_lifecycle _ _ _ _ _ _ _ _ _ _ _ Eg Et' (ex_signed_nonempty _ _ Hs Et) _ _ _))).
Defined.

Lemma capability_grantor_not_bound_witness :
  ∃ t, ex_token ex_victim = Ok t ∧ grantor_did t = "did:key:victim" ∧
  verify_capability t 15 = Ok tt ∧ capability_authorizes t "a" MWrite 15 = true.
Proof.
  destruct ex_grantor as [g|] eqn:Eg; [|done].
  assert (ex_signed ex_victim = true) as Hs by (vm_compute; reflexivity).
  destruct (ex_token ex_victim) as [t|] eqn:Et; [|by unfold ex_signed in Hs; rewrite Et in Hs].
  exists t. split; [done|].
  assert (ex_token ex_victim = Ok t) as Et' by done. unfold ex_token in Et'. rewrite Eg in Et'.
  destruct (capability_grantor_not_bound _ _ _ _ _ _ _ _ _ _ _ _ Eg Et' (ex_signed_nonempty _ _ Hs Et)) as [Hg Hv].
  split; [done|]. apply Hv; [done|left|by vm_compute].
Defined.
