(* ===== verification/Ledger.v ===== *)
(** * The identity ledger: [src/src/halo/identity_ledger.rs]

    A JSON-lines file of chained, optionally signed entries, with the parts of
    [src/src/halo/hash.rs] and [src/src/halo/pq.rs] it calls: hash dispatch, the wallet of
    a post-quantum key and detached signatures.  The file is the state of an [action], as
    its lines and what follows the last line end; the environment variables and the wallet
    files are arguments, and so are the clock and an error of the disk.  The texts of errors are constructors that carry what they print.
    AES-GCM, base64 and the encoders of [serde] are class parameters. *)
From S2P Require Export TypedValue Did.

(** ** [hash.rs] *)

Inductive HashAlgorithm := HashSha256 | HashSha512.
Definition CURRENT : HashAlgorithm := HashSha512.
Definition from_field (field : option string) : HashAlgorithm :=
  if bool_decide (field = Some "sha512") then HashSha512 else HashSha256.
Definition algo_str (a : HashAlgorithm) : string :=
  match a with HashSha256 => "sha256" | HashSha512 => "sha512" end.
Definition hash_bytes `{Sha2} (a : HashAlgorithm) (data : bytes) : bytes :=
  match a with HashSha256 => arr_bytes (sha256 data) | HashSha512 => arr_bytes (sha512 data) end.
Definition hash_hex `{Sha2} (a : HashAlgorithm) (data : bytes) : string := hex_encode (hash_bytes a data).

(** ** [pq.rs]: the wallet and detached signatures *)

Record PqEncryptedSeed := { es_schema : string; es_nonce_hex : string; es_ciphertext_hex : string }.
Record PqWallet := {
  pw_version : N;
  pw_algorithm : string;
  pw_key_id : string;
  pw_public_key_hex : string;
  pw_secret_seed_hex : option string;
  pw_encrypted_seed : option PqEncryptedSeed;
  pw_created_at : N
}.
Record PqSignatureEnvelope := {
  pe_algorithm : string;
  pe_key_id : string;
  pe_public_key_hex : string;
  pe_payload_hash : string;
  pe_signature_hex : string;
  pe_signature_digest : string;
  pe_created_at : N;
  pe_payload_kind : string;
  pe_payload_hint : option string;
  pe_hash_algorithm : option string
}.
(** The two wallet files: absent, or what reading (and for the second decrypting with the
    scope key) and parsing gives. *)
Record PqFiles := {
  v1_wallet : option (result string PqWallet);
  v2_wallet : option (arr 32 → result string PqWallet)
}.
(** AES-GCM with the wrapping key kept next to the wallet. *)
Class SeedWrap := {
  decrypt_wallet_seed : PqEncryptedSeed → result string bytes;
  encrypt_wallet_seed : bytes → result string PqEncryptedSeed
}.

Definition pq_hex_decode (input : string) : result string bytes :=
  if (str_len input =? 0) || negb (Nat.even (str_len input)) then Err "hex string must have even length"
  else ok_or (hex_decode input) "invalid hex".
Definition pq_hex_decode_exact (n : nat) (input : string) : result string bytes :=
  if negb (str_len input =? n * 2) then
    Err ("expected " +:+ dec_nat (n * 2) +:+ " hex chars, got " +:+ dec_nat (str_len input))
  else ok_or (hex_decode input) "invalid hex".

Definition has_wallet (f : PqFiles) : bool :=
  match v1_wallet f, v2_wallet f with None, None => false | _, _ => true end.

Section pq.
Context `{Sha2, SigLib, !DidLib, SeedWrap}.

Definition PQ_CONTEXT : bytes := [].
Definition key_id_for_public_key (public_key_hex : string) : string :=
  hex_encode (arr_bytes (sha256 (as_bytes ("agenthalo.pq.keyid.v1:" +:+ public_key_hex)))).

Definition load_wallet (f : PqFiles) : result string PqWallet :=
  default (Err "read wallet") (v1_wallet f).
Definition load_wallet_v2 (f : PqFiles) (key : arr 32) : result string PqWallet :=
  match v2_wallet f with Some w => w key | None => Err "load encrypted file" end.

(** The migration of a legacy wallet writes the seed back in encrypted form: the file
    then gives the same seed. *)
Definition extract_wallet_seed_bytes (w : PqWallet) : result string bytes :=
  match pw_encrypted_seed w, pw_secret_seed_hex w with
  | Some enc, _ => decrypt_wallet_seed enc
  | None, Some seed_hex =>
      seed ← pq_hex_decode_exact 32 seed_hex; _ ← encrypt_wallet_seed seed; mret seed
  | None, None => Err "wallet missing encrypted_seed and legacy secret_seed_hex"
  end.
Definition keypair_from_wallet (w : PqWallet) : result string (MlDsaSigningKey * MlDsaVerifyingKey) :=
  seed_vec ← extract_wallet_seed_bytes w;
  _ ← throw_if (negb (length seed_vec =? 32))
        ("wallet seed must be 32 bytes, got " +:+ dec_nat (length seed_vec));
  let kp := ml_from_seed (to_arr 32 seed_vec) in
  _ ← throw_if (negb (eq_ignore_ascii_case (hex_encode (ml_vk_encode kp.2)) (pw_public_key_hex w)))
        "wallet public key does not match stored seed";
  mret kp.
Definition keypair_from_wallet_v2 (w : PqWallet) : result string (MlDsaSigningKey * MlDsaVerifyingKey) :=
  seed_hex ← ok_or (pw_secret_seed_hex w) "v2 wallet missing secret_seed_hex";
  seed ← pq_hex_decode_exact 32 seed_hex;
  mret (ml_from_seed (to_arr 32 seed)).

Definition signature_digest_hex (a : HashAlgorithm) (key_id payload_hash signature_hex : string) : string :=
  hash_hex a (as_bytes ("agenthalo.sign.pq.v1:" +:+ key_id +:+ ":" +:+ payload_hash +:+ ":" +:+ signature_hex)).

(** What the two signing functions do once the key pair is there; the copy of the
    envelope in the signature folder is left out. *)
Definition sign_with (w : PqWallet) (kp : MlDsaSigningKey * MlDsaVerifyingKey) (payload : bytes)
    (payload_kind : string) (payload_hint : option string) (now : N) : result string PqSignatureEnvelope :=
  sig ← ok_or (ml_sign_deterministic kp.1 payload PQ_CONTEXT) "ML-DSA signing failed";
  _ ← throw_if (negb (ml_verify_with_context kp.2 payload PQ_CONTEXT sig)) "ML-DSA self-verification failed";
  let signature_hex := hex_encode (ml_encode sig) in
  let payload_hash := hash_hex CURRENT payload in
  mret {| pe_algorithm := "ml_dsa65"; pe_key_id := pw_key_id w; pe_public_key_hex := pw_public_key_hex w;
          pe_payload_hash := payload_hash; pe_signature_hex := signature_hex;
          pe_signature_digest := signature_digest_hex CURRENT (pw_key_id w) payload_hash signature_hex;
          pe_created_at := now; pe_payload_kind := payload_kind; pe_payload_hint := payload_hint;
          pe_hash_algorithm := Some (algo_str CURRENT) |}.
Definition sign_pq_payload_with_paths (f : PqFiles) (payload : bytes) (kind : string) (hint : option string)
    (now : N) : result string PqSignatureEnvelope :=
  w ← load_wallet f; kp ← keypair_from_wallet w; sign_with w kp payload kind hint now.
Definition sign_pq_payload_v2 (f : PqFiles) (key : arr 32) (payload : bytes) (kind : string)
    (hint : option string) (now : N) : result string PqSignatureEnvelope :=
  w ← load_wallet_v2 f key; kp ← keypair_from_wallet_v2 w; sign_with w kp payload kind hint now.
Definition sign_pq_payload_with_scope_key (f : PqFiles) (key : option (arr 32)) (payload : bytes)
    (kind : string) (hint : option string) (now : N) : result string PqSignatureEnvelope :=
  match v1_wallet f, v2_wallet f, key with
  | Some _, _, _ => sign_pq_payload_with_paths f payload kind hint now
  | None, Some _, Some k => sign_pq_payload_v2 f k payload kind hint now
  | None, Some _, None => Err "v2 wallet requires unlocked Sign scope key; unlock crypto and retry"
  | None, None, _ => Err "no PQ wallet found. Run: agenthalo keygen --pq (or --force to rotate)"
  end.
Definition sign_pq_payload (f : PqFiles) : bytes → string → option string → N → result string PqSignatureEnvelope :=
  sign_pq_payload_with_scope_key f None.

Definition verify_detached_signature (payload : bytes) (public_key_hex signature_hex : string)
  : result string bool :=
  vk_bytes ← pq_hex_decode public_key_hex;
  sig_bytes ← pq_hex_decode signature_hex;
  vk ← ok_or (ml_vk_decode vk_bytes) "invalid ML-DSA public key encoding";
  enc_sig ← ok_or (ml_encoded_try_from sig_bytes) "invalid ML-DSA signature encoding";
  sig ← ok_or (ml_decode enc_sig) "invalid ML-DSA signature payload";
  mret (ml_verify_with_context vk payload PQ_CONTEXT sig).

Definition wallet_key_identity (f : PqFiles) : result string (option (string * string)) :=
  match v1_wallet f, v2_wallet f with
  | Some w, _ => w ← w; mret (Some (pw_key_id w, pw_public_key_hex w))
  | None, Some _ => Err "v2 wallet identity requires unlocked Sign scope key; use wallet_key_identity_v2"
  | None, None => mret None
  end.
Definition wallet_key_identity_v2 (f : PqFiles) (key : arr 32) : result string (option (string * string)) :=
  match v2_wallet f with
  | None => mret None
  | Some _ => w ← load_wallet_v2 f key; mret (Some (pw_key_id w, pw_public_key_hex w))
  end.
End pq.

(** ** Entries *)

Inductive IdentityLedgerKind :=
| ProfileUpdated | DeviceUpdated | NetworkUpdated | AnonymousModeUpdated | SafetyTierApplied
| WalletCreated | WalletImported | WalletUnlocked | WalletLocked | WalletDeleted
| SocialTokenConnected | SocialTokenRevoked | SuperSecureUpdated | GenesisEntropyHarvested
| IdentityAttested | AgentAddressBound.
#[export] Instance IdentityLedgerKind_eq_dec : EqDecision IdentityLedgerKind.
Proof. solve_decision. Defined.
(** The derived [Debug]. *)
Definition kind_debug (k : IdentityLedgerKind) : string :=
  match k with
  | ProfileUpdated => "ProfileUpdated" | DeviceUpdated => "DeviceUpdated"
  | NetworkUpdated => "NetworkUpdated" | AnonymousModeUpdated => "AnonymousModeUpdated"
  | SafetyTierApplied => "SafetyTierApplied" | WalletCreated => "WalletCreated"
  | WalletImported => "WalletImported" | WalletUnlocked => "WalletUnlocked"
  | WalletLocked => "WalletLocked" | WalletDeleted => "WalletDeleted"
  | SocialTokenConnected => "SocialTokenConnected" | SocialTokenRevoked => "SocialTokenRevoked"
  | SuperSecureUpdated => "SuperSecureUpdated" | GenesisEntropyHarvested => "GenesisEntropyHarvested"
  | IdentityAttested => "IdentityAttested" | AgentAddressBound => "AgentAddressBound"
  end.

Record LedgerSignatureRef := {
  sg_algorithm : string;
  sg_key_id : string;
  sg_public_key_hex : option string;
  sg_payload_hash : string;
  sg_signature_hex : string;
  sg_signature_digest : string;
  sg_created_at : N;
  sg_hash_algorithm : option string
}.

Section entry.
Context `{SerdeJson}.
Record IdentityLedgerEntry := {
  le_version : N;
  le_seq : N;
  le_timestamp : N;
  le_kind : IdentityLedgerKind;
  le_provider : option string;
  le_token_ref : option string;
  le_expires_at : option N;
  le_status : string;
  le_payload : JsonValue;
  le_genesis : option string;
  le_prev_hash : option string;
  le_entry_hash : string;
  le_signature : option LedgerSignatureRef;
  le_hash_algorithm : option string
}.
Definition set_signature (e : IdentityLedgerEntry) (s : option LedgerSignatureRef) : IdentityLedgerEntry := {|
  le_version := le_version e; le_seq := le_seq e; le_timestamp := le_timestamp e; le_kind := le_kind e;
  le_provider := le_provider e; le_token_ref := le_token_ref e; le_expires_at := le_expires_at e;
  le_status := le_status e; le_payload := le_payload e; le_genesis := le_genesis e;
  le_prev_hash := le_prev_hash e; le_entry_hash := le_entry_hash e; le_signature := s;
  le_hash_algorithm := le_hash_algorithm e |}.
(** The chain fields an append fills in. *)
Definition set_link (e : IdentityLedgerEntry) (seq : N) (prev : option string) (hash : string)
    (algo : option string) : IdentityLedgerEntry := {|
  le_version := le_version e; le_seq := seq; le_timestamp := le_timestamp e; le_kind := le_kind e;
  le_provider := le_provider e; le_token_ref := le_token_ref e; le_expires_at := le_expires_at e;
  le_status := le_status e; le_payload := le_payload e; le_genesis := le_genesis e;
  le_prev_hash := prev; le_entry_hash := hash; le_signature := le_signature e;
  le_hash_algorithm := algo |}.

(** The ledger file: the lines that are ended, and the text after the last line end, which
    is empty unless a write was cut off. *)
Record LedgerFile := mk_LedgerFile { fl_lines : list string; fl_tail : string }.
Definition no_ledger : LedgerFile := mk_LedgerFile [] "".

(** Where the disk fails: before or while the ledger is read, when a file is opened for
    writing, while a line is written (after some of its bytes; the line end comes last), or
    when the temporary file is renamed. *)
Inductive IoFault := IoRead | IoOpen | IoWrite (written : nat) | IoRename.
#[export] Instance IoFault_eq_dec : EqDecision IoFault.
Proof. solve_decision. Defined.

Inductive LedgerError :=
| LeRead (line : nat)
| LeVersion (idx : nat) (got : N)
| LeSequence (idx : nat) (expected got : N)
| LePrevHash (idx : nat) (expected got : option string)
| LeEntryHash (seq : N) (v2 legacy got : string)
| LeSigAlgorithm (seq : N) (algorithm : string)
| LePayloadHash (seq : N)
| LeSigDigest (seq : N)
| LeNoPublicKeyStrict (key_id : string)
| LeNoPublicKey (key_id : string)
| LeKeyId (seq : N) (declared derived : string)
| LeSigError (seq : N) (e : string)
| LeSigInvalid (seq : N)
| LeLegacyUnsigned (seq : N)
| LeUnsigned (seq : N)
| LeMalformedGenesis (seq : N)
| LeGenesisMismatch (seq : N)
| LeMissingGenesis (seq : N)
| LeLegacyMissingAnchor (seq : N)
| LeLegacyMalformedAnchor (seq : N)
| LeGenesisSigner (seq : N) (pinned got : string)
| LeSigner (seq : N) (pinned got : string)
| LeMissingAnchor
| LeMalformedAnchor
| LeNeedsWallet
| LeUnpinned (key_id pinned : string)
| LeNotWalletKind
| LeSerialize
| LeMigration (seq : N)
| LeIo
| LeText (e : string).
End entry.

(** [serde_json] on entries, one line each. *)
Class LedgerJson `{SerdeJson} := {
  entry_to_string : IdentityLedgerEntry → option string;
  entry_from_str : string → option IdentityLedgerEntry
}.
(** Documented: a line read back gives the entry that was written. *)
Class LedgerJson_Laws `(J : LedgerJson) : Prop := {
  entry_line e l : entry_to_string e = Some l → entry_from_str l = Some e ∧ is_blank l = false
}.

Definition LEDGER_VERSION : N := 1.
Definition HASH_DOMAIN : string := "agenthalo.identity.ledger.v1".
Definition replace_spaces (s : string) : string := String.concat "_" (split_char " " s).
Definition normalize_social_provider (provider : string) : string :=
  replace_spaces (to_ascii_lowercase (trim provider)).
(** The first [n] characters of UTF-8 text. *)
Fixpoint take_chars (n : nat) (s : string) : string :=
  match s with
  | EmptyString => EmptyString
  | String c s' =>
      if (128 <=? N_of_ascii c)%N && (N_of_ascii c <=? 191)%N then String c (take_chars n s')
      else match n with O => EmptyString | S n' => String c (take_chars n' s') end
  end.

(** The policies set by environment variables. *)
Definition env_word (env : string → option string) (name : string) : option string :=
  to_ascii_lowercase ∘ trim <$> env name.
Definition strict_genesis_signature_enforcement (env : string → option string) : bool :=
  if bool_decide (env_word env "AGENTHALO_ALLOW_LEGACY_UNSIGNED_GENESIS" ∈ [Some "1"; Some "true"; Some "yes"])
  then false
  else negb (bool_decide (env_word env "AGENTHALO_STRICT_GENESIS_SIGNATURES" ∈ [Some "0"; Some "false"; Some "no"])).
Definition strict_ledger_signature_fields (env : string → option string) : bool :=
  bool_decide (env_word env "AGENTHALO_STRICT_LEDGER_SIGNATURE_FIELDS" ∈ [Some "1"; Some "true"; Some "yes"]).

Section ledger.
Context `{SHA : Sha2, SL : SigLib, DL : !DidLib, SW : SeedWrap, SJ : SerdeJson, JA : !JsonAccess, LJ : !LedgerJson}.

Definition social_token_ref_sha256 (provider token : string) : string :=
  let provider := normalize_social_provider provider in
  "sha256:" +:+ hex_encode (arr_bytes (sha256 (as_bytes
    ("agenthalo.identity.social.token.v1:" +:+ provider +:+ ":" +:+ trim token)))).

(** The part both texts start with, up to the payload. *)
Definition entry_text (e : IdentityLedgerEntry) : string :=
  HASH_DOMAIN +:+ "|v=" +:+ dec (le_version e) +:+ "|seq=" +:+ dec (le_seq e) +:+
  "|ts=" +:+ dec (le_timestamp e) +:+ "|kind=" +:+ kind_debug (le_kind e) +:+
  "|provider=" +:+ default "" (le_provider e) +:+ "|token_ref=" +:+ default "" (le_token_ref e) +:+
  "|expires_at=" +:+ default "" (dec <$> le_expires_at e) +:+ "|status=" +:+ le_status e +:+
  "|payload=" +:+ json_to_string (le_payload e).
Definition entry_payload_for_hash (e : IdentityLedgerEntry) : string :=
  entry_text e +:+ "|genesis_entropy_sha256=" +:+ default "" (le_genesis e) +:+
  "|prev_hash=" +:+ default "" (le_prev_hash e).
Definition entry_payload_for_hash_legacy (e : IdentityLedgerEntry) : string :=
  entry_text e +:+ "|prev_hash=" +:+ default "" (le_prev_hash e).
Definition compute_entry_hash (e : IdentityLedgerEntry) : string :=
  hash_hex (from_field (le_hash_algorithm e)) (as_bytes (entry_payload_for_hash e)).
Definition compute_entry_hash_legacy (e : IdentityLedgerEntry) : string :=
  hash_hex HashSha256 (as_bytes (entry_payload_for_hash_legacy e)).

Definition entry_signature_payload (entry_hash : string) : string :=
  "agenthalo.identity.ledger.entry_hash.v1:" +:+ entry_hash.

(** The trimmed key that a signature carries, when it is not blank. *)
Definition carried_key (sig : LedgerSignatureRef) : option string :=
  k ← trim <$> sg_public_key_hex sig; if bool_decide (k = "") then None else Some k.
Definition resolve_signature_public_key (env : string → option string) (sig : LedgerSignatureRef)
    (wallet_identity : option (string * string)) : result LedgerError string :=
  match carried_key sig with
  | Some pubkey => Ok pubkey
  | None =>
      if strict_ledger_signature_fields env then Err (LeNoPublicKeyStrict (sg_key_id sig))
      else match wallet_identity with
           | Some (wallet_key_id, wallet_public_key) =>
               if eq_ignore_ascii_case wallet_key_id (sg_key_id sig) then Ok wallet_public_key
               else Err (LeNoPublicKey (sg_key_id sig))
           | None => Err (LeNoPublicKey (sg_key_id sig))
           end
  end.

Definition verify_signature_ref (env : string → option string) (e : IdentityLedgerEntry)
    (sig : LedgerSignatureRef) (wallet_identity : option (string * string)) : result LedgerError string :=
  _ ← throw_if (negb (eq_ignore_ascii_case (sg_algorithm sig) "ml_dsa65"))
        (LeSigAlgorithm (le_seq e) (sg_algorithm sig));
  let payload := as_bytes (entry_signature_payload (le_entry_hash e)) in
  let algo := from_field (sg_hash_algorithm sig) in
  _ ← throw_if (negb (eq_ignore_ascii_case (sg_payload_hash sig) (hash_hex algo payload)))
        (LePayloadHash (le_seq e));
  let expected_digest := signature_digest_hex algo (sg_key_id sig) (sg_payload_hash sig) (sg_signature_hex sig) in
  _ ← throw_if (negb (eq_ignore_ascii_case (sg_signature_digest sig) expected_digest)) (LeSigDigest (le_seq e));
  signer ← resolve_signature_public_key env sig wallet_identity;
  let derived := key_id_for_public_key signer in
  _ ← throw_if (negb (eq_ignore_ascii_case (sg_key_id sig) derived)) (LeKeyId (le_seq e) (sg_key_id sig) derived);
  verified ← map_err (LeSigError (le_seq e)) (verify_detached_signature payload signer (sg_signature_hex sig));
  _ ← throw_if (negb verified) (LeSigInvalid (le_seq e));
  mret signer.

(** ** [verify_chain] *)

(** A non-empty hash after the tag. *)
Definition anchor_ok (a : string) : bool := starts_with a "sha256:" && (7 <? str_len a).
Definition completed (e : IdentityLedgerEntry) : bool := eq_ignore_ascii_case (le_status e) "completed".
Definition is_genesis (e : IdentityLedgerEntry) : bool := bool_decide (le_kind e = GenesisEntropyHarvested).
Definition payload_anchor (v : JsonValue) : option string :=
  json_get v "combined_entropy_sha256" ≫= json_as_str.

(** The anchor of a completed genesis entry. *)
Definition check_anchor (e : IdentityLedgerEntry) (legacy : bool) : result LedgerError () :=
  match le_genesis e with
  | Some anchor =>
      _ ← throw_if (negb (anchor_ok anchor)) (LeMalformedGenesis (le_seq e));
      throw_if (negb (bool_decide (default "" (payload_anchor (le_payload e)) = anchor))) (LeGenesisMismatch (le_seq e))
  | None =>
      if negb legacy then Err (LeMissingGenesis (le_seq e))
      else anchor ← ok_or (payload_anchor (le_payload e)) (LeLegacyMissingAnchor (le_seq e));
           throw_if (negb (anchor_ok anchor)) (LeLegacyMalformedAnchor (le_seq e))
  end.

(** The rules for genesis entries; the result is the pinned signer afterwards. *)
Definition check_genesis (env : string → option string) (e : IdentityLedgerEntry) (legacy : bool)
    (signer pinned : option string) : result LedgerError (option string) :=
  _ ← match le_signature e with
      | Some _ => mret ()
      | None => if legacy then throw_if (strict_genesis_signature_enforcement env) (LeLegacyUnsigned (le_seq e))
                else Err (LeUnsigned (le_seq e))
      end;
  if completed e then
    _ ← check_anchor e legacy;
    match signer, pinned with
    | Some pubkey, Some p =>
        _ ← throw_if (negb (eq_ignore_ascii_case pubkey p)) (LeGenesisSigner (le_seq e) p pubkey); mret pinned
    | Some pubkey, None => mret (Some pubkey)
    | None, _ => mret pinned
    end
  else mret pinned.

Record ChainState := mk_Chain {
  vs_pinned : option string;
  vs_last : option string;
  vs_seq : N;
  vs_idx : nat
}.
Definition chain_start : ChainState := mk_Chain None None 1 0.

Definition verify_entry (env : string → option string) (wallet : option (string * string))
    (st : ChainState) (e : IdentityLedgerEntry) : result LedgerError ChainState :=
  let idx := S (vs_idx st) in
  _ ← throw_if (negb (le_version e =? LEDGER_VERSION)%N) (LeVersion idx (le_version e));
  _ ← throw_if (negb (le_seq e =? vs_seq st)%N) (LeSequence idx (vs_seq st) (le_seq e));
  _ ← throw_if (negb (bool_decide (le_prev_hash e = vs_last st))) (LePrevHash idx (vs_last st) (le_prev_hash e));
  let computed_v2 := compute_entry_hash e in
  let computed_legacy := compute_entry_hash_legacy e in
  let legacy := bool_decide (computed_legacy = le_entry_hash e) in
  _ ← throw_if (negb (bool_decide (computed_v2 = le_entry_hash e)) && negb legacy)
        (LeEntryHash (le_seq e) computed_v2 computed_legacy (le_entry_hash e));
  signer ← match le_signature e with
           | Some sig => k ← verify_signature_ref env e sig wallet; mret (Some k)
           | None => mret None
           end;
  pinned ← (if is_genesis e then check_genesis env e legacy signer (vs_pinned st) else mret (vs_pinned st));
  _ ← match pinned, signer with
      | Some p, Some pubkey => throw_if (negb (eq_ignore_ascii_case pubkey p)) (LeSigner (le_seq e) p pubkey)
      | _, _ => mret ()
      end;
  mret (mk_Chain pinned (Some (le_entry_hash e)) (saturating_add64 (vs_seq st) 1) idx).

Fixpoint verify_from (env : string → option string) (wallet : option (string * string)) (st : ChainState)
    (entries : list IdentityLedgerEntry) : result LedgerError ChainState :=
  match entries with
  | [] => mret st
  | e :: entries' => st' ← verify_entry env wallet st e; verify_from env wallet st' entries'
  end.
Definition wallet_for_verify (f : PqFiles) : option (string * string) :=
  match wallet_key_identity f with Ok w => w | Err _ => None end.
Definition verify_chain (env : string → option string) (f : PqFiles) (entries : list IdentityLedgerEntry)
  : result LedgerError () :=
  _ ← verify_from env (wallet_for_verify f) chain_start entries; mret ().

(** ** The file *)

Fixpoint load_lines (line : nat) (lines : list string) : result LedgerError (list IdentityLedgerEntry) :=
  match lines with
  | [] => mret []
  | raw :: lines' =>
      if is_blank raw then load_lines (S line) lines'
      else e ← ok_or (entry_from_str raw) (LeRead line);
           es ← load_lines (S line) lines'; mret (e :: es)
  end.
(** [BufRead::lines]. *)
Definition file_lines (file : LedgerFile) : list string :=
  fl_lines file ++ if bool_decide (fl_tail file = "") then [] else [fl_tail file].
Definition load_entries (file : LedgerFile) : result LedgerError (list IdentityLedgerEntry) :=
  load_lines 1 (file_lines file).
(** A temporary file renamed over the ledger: all or nothing. *)
Definition write_entries (io : option IoFault) (entries : list IdentityLedgerEntry) : action LedgerFile LedgerError () :=
  _ ← lift_res (throw_if (bool_decide (io = Some IoOpen)) LeIo);
  lines ← lift_res (ok_or (mapM entry_to_string entries) LeSerialize);
  _ ← lift_res (throw_if (bool_decide (is_Some io)) LeIo);
  modify (λ _, mk_LedgerFile lines "").
(** [OpenOptions::append] and [writeln!]. *)
Definition append_line (io : option IoFault) (line : string) : action LedgerFile LedgerError () := λ file,
  match io with
  | Some (IoWrite n) => (mk_LedgerFile (fl_lines file) (fl_tail file +:+ String.substring 0 n line), Err LeIo)
  | Some _ => (file, Err LeIo)
  | None => (mk_LedgerFile (fl_lines file ++ [fl_tail file +:+ line]) "", Ok tt)
  end.

(** ** Appending *)

Definition try_sign_entry_hash_with_key (f : PqFiles) (entry_hash : string) (key : option (arr 32)) (now : N)
  : option LedgerSignatureRef :=
  if negb (has_wallet f) then None
  else
    let payload := as_bytes (entry_signature_payload entry_hash) in
    let kind := "identity_social_ledger_entry" in
    let signed :=
      match sign_pq_payload f payload kind (Some entry_hash) now, key with
      | Ok env, _ => Ok env
      | Err _, Some k => sign_pq_payload_v2 f k payload kind (Some entry_hash) now
      | Err _, None => Err "no sign scope key for v2 signing"
      end in
    env ← res_ok signed;
    Some {| sg_algorithm := pe_algorithm env; sg_key_id := pe_key_id env;
            sg_public_key_hex := Some (pe_public_key_hex env); sg_payload_hash := pe_payload_hash env;
            sg_signature_hex := pe_signature_hex env; sg_signature_digest := pe_signature_digest env;
            sg_created_at := pe_created_at env; sg_hash_algorithm := pe_hash_algorithm env |}.
Definition try_sign_entry_hash (f : PqFiles) (entry_hash : string) (now : N) : option LedgerSignatureRef :=
  try_sign_entry_hash_with_key f entry_hash None now.

Definition wallet_for_append (f : PqFiles) (key : option (arr 32)) : option (string * string) :=
  match wallet_for_verify f, key with
  | Some w, _ => Some w
  | None, Some k => match wallet_key_identity_v2 f k with Ok w => w | Err _ => None end
  | None, None => None
  end.
(** The signer of the first completed and signed genesis entry. *)
Definition pinned_signer (env : string → option string) (entries : list IdentityLedgerEntry)
    (wallet : option (string * string)) : option string :=
  e ← List.find (λ e, is_genesis e && completed e && bool_decide (is_Some (le_signature e))) entries;
  sig ← le_signature e;
  res_ok (resolve_signature_public_key env sig wallet).

(** The entry with its place in the chain, its hash and its signature. *)
Definition link_entry (f : PqFiles) (entries : list IdentityLedgerEntry) (e : IdentityLedgerEntry)
    (key : option (arr 32)) (now : N) : IdentityLedgerEntry :=
  let next_seq := match last entries with Some l => saturating_add64 (le_seq l) 1 | None => 1%N end in
  let prev := le_entry_hash <$> last entries in
  let algo := Some (algo_str CURRENT) in
  let e := set_link e next_seq prev (le_entry_hash e) algo in
  let e := set_link e next_seq prev (compute_entry_hash e) algo in
  set_signature e (try_sign_entry_hash_with_key f (le_entry_hash e) key now).

Definition append_entry_with_key (env : string → option string) (f : PqFiles) (e : IdentityLedgerEntry)
    (key : option (arr 32)) (io : option IoFault) (now : N) : action LedgerFile LedgerError IdentityLedgerEntry :=
  file ← get_state;
  _ ← lift_res (throw_if (bool_decide (io = Some IoRead)) LeIo);
  entries ← lift_res (load_entries file);
  _ ← lift_res (verify_chain env f entries);
  let wallet := wallet_for_append f key in
  let pinned := pinned_signer env entries wallet in
  let e := link_entry f entries e key now in
  _ ← lift_res (throw_if (is_genesis e && negb (bool_decide (is_Some (le_signature e)))) LeNeedsWallet);
  _ ← lift_res match pinned, le_signature e with
      | Some p, Some sig =>
          signer ← resolve_signature_public_key env sig wallet;
          throw_if (negb (eq_ignore_ascii_case signer p)) (LeUnpinned (sg_key_id sig) p)
      | _, _ => mret ()
      end;
  line ← lift_res (ok_or (entry_to_string e) LeSerialize);
  _ ← append_line io line;
  _ ← lift_res (verify_chain env f (entries ++ [e]));
  mret e.
Definition append_entry (env : string → option string) (f : PqFiles) (e : IdentityLedgerEntry) (io : option IoFault) (now : N)
  : action LedgerFile LedgerError IdentityLedgerEntry := append_entry_with_key env f e None io now.
Definition append_entry_with_sign_key (env : string → option string) (f : PqFiles) (e : IdentityLedgerEntry)
    (key : arr 32) (io : option IoFault) (now : N) : action LedgerFile LedgerError IdentityLedgerEntry :=
  append_entry_with_key env f e (Some key) io now.

(** ** Migration *)

Definition fill_public_key (wallet : string * string) (e : IdentityLedgerEntry) : IdentityLedgerEntry * nat :=
  match le_signature e with
  | Some sig =>
      if bool_decide (carried_key sig = None) && eq_ignore_ascii_case (sg_key_id sig) wallet.1 then
        (set_signature e (Some {| sg_algorithm := sg_algorithm sig; sg_key_id := sg_key_id sig;
           sg_public_key_hex := Some wallet.2; sg_payload_hash := sg_payload_hash sig;
           sg_signature_hex := sg_signature_hex sig; sg_signature_digest := sg_signature_digest sig;
           sg_created_at := sg_created_at sig; sg_hash_algorithm := sg_hash_algorithm sig |}), 1)
      else (e, 0)
  | None => (e, 0)
  end.
Fixpoint migrate_entries (f : PqFiles) (wallet : string * string) (now : N) (entries : list IdentityLedgerEntry)
  : result LedgerError (list IdentityLedgerEntry * nat) :=
  match entries with
  | [] => mret ([], 0)
  | e :: entries' =>
      '(e1, n1) ← (if is_genesis e && bool_decide (le_signature e = None) then
                     sig ← ok_or (try_sign_entry_hash f (le_entry_hash e) now) (LeMigration (le_seq e));
                     mret (set_signature e (Some sig), 1)
                   else mret (e, 0));
      let '(e2, n2) := fill_public_key wallet e1 in
      '(es, n) ← migrate_entries f wallet now entries';
      mret (e2 :: es, n1 + n2 + n)
  end.
Definition migrate_legacy_signatures (env : string → option string) (f : PqFiles) (io : option IoFault) (now : N)
  : action LedgerFile LedgerError nat :=
  w ← lift_res (map_err LeText (wallet_key_identity f));
  wallet ← lift_res (ok_or w (LeText "migration requires an existing PQ wallet"));
  file ← get_state;
  _ ← lift_res (throw_if (bool_decide (io = Some IoRead)) LeIo);
  entries ← lift_res (load_entries file);
  if bool_decide (length entries = 0) then mret 0
  else
    '(es, changed) ← lift_res (migrate_entries f wallet now entries);
    if changed =? 0 then mret 0
    else
      _ ← write_entries io es;
      _ ← lift_res (verify_chain env f es);
      mret changed.
End ledger.

(** ** The events *)

Section events.
Context `{SHA : Sha2, SL : SigLib, DL : !DidLib, SW : SeedWrap, SJ : SerdeJson, JA : !JsonAccess, JB : !JsonBuild,
          LJ : !LedgerJson}.

Definition new_entry (kind : IdentityLedgerKind) (provider token_ref : option string) (expires_at : option N)
    (status : string) (payload : JsonValue) (genesis : option string) (now : N) : IdentityLedgerEntry := {|
  le_version := LEDGER_VERSION; le_seq := 0; le_timestamp := now; le_kind := kind; le_provider := provider;
  le_token_ref := token_ref; le_expires_at := expires_at; le_status := status; le_payload := payload;
  le_genesis := genesis; le_prev_hash := None; le_entry_hash := ""; le_signature := None;
  le_hash_algorithm := None |}.
Definition json_opt_str (o : option string) : JsonValue := match o with Some s => json_str s | None => json_null end.
Definition on_off (enabled : bool) : string := if enabled then "enabled" else "disabled".

Definition social_connect_entry (provider token : string) (expires_at : option N) (source : string) (now : N)
  : IdentityLedgerEntry :=
  let provider := normalize_social_provider provider in
  new_entry SocialTokenConnected (Some provider) (Some (social_token_ref_sha256 provider token)) expires_at "active"
    (json_object [("source", json_str source); ("token_ref", json_str "stored_in_vault_or_external_secret_store")])
    None now.
Definition social_revoke_entry (provider : string) (reason : option string) (now : N) : IdentityLedgerEntry :=
  new_entry SocialTokenRevoked (Some (normalize_social_provider provider)) None None "revoked"
    (json_object [("reason", json_str (default "operator_requested" reason))]) None now.
Definition super_secure_entry (option_key : string) (enabled : bool) (metadata : JsonValue) (now : N)
  : IdentityLedgerEntry :=
  new_entry SuperSecureUpdated None None None (on_off enabled)
    (json_object [("option", json_str option_key); ("enabled", json_bool enabled); ("metadata", metadata)]) None now.
Definition profile_entry (display_name avatar_type : option string) (name_locked : bool) (name_revision : N) (now : N)
  : IdentityLedgerEntry :=
  new_entry ProfileUpdated None None None "updated"
    (json_object
       [("display_name_set", json_bool (default false (negb ∘ is_blank <$> display_name)));
        ("display_name_preview", json_opt_str (take_chars 2 <$> display_name));
        ("avatar_type", json_opt_str avatar_type); ("name_locked", json_bool name_locked);
        ("name_revision", json_u64 name_revision)]) None now.
Definition device_entry (enabled : bool) (entropy_bits component_count : N) (has_browser_fingerprint : bool)
    (puf_fingerprint_hex puf_tier : option string) (now : N) : IdentityLedgerEntry :=
  new_entry DeviceUpdated None None None (on_off enabled)
    (json_object
       [("enabled", json_bool enabled); ("entropy_bits", json_u64 entropy_bits);
        ("component_count", json_u64 component_count); ("has_browser_fingerprint", json_bool has_browser_fingerprint);
        ("has_puf_binding", json_bool (default false (negb ∘ is_blank <$> puf_fingerprint_hex)));
        ("puf_tier", json_opt_str puf_tier)]) None now.
Definition network_entry (share_local_ip share_public_ip share_mac local_ip_hash_present public_ip_hash_present : bool)
    (mac_count : N) (now : N) : IdentityLedgerEntry :=
  let configured := share_local_ip || share_public_ip || share_mac || local_ip_hash_present ||
                    public_ip_hash_present || (0 <? mac_count)%N in
  new_entry NetworkUpdated None None None (if configured then "configured" else "cleared")
    (json_object
       [("share_local_ip", json_bool share_local_ip); ("share_public_ip", json_bool share_public_ip);
        ("share_mac", json_bool share_mac); ("local_ip_hash_present", json_bool local_ip_hash_present);
        ("public_ip_hash_present", json_bool public_ip_hash_present); ("mac_count", json_u64 mac_count)]) None now.
Definition anonymous_mode_entry (enabled cleared_device cleared_network : bool) (now : N) : IdentityLedgerEntry :=
  new_entry AnonymousModeUpdated None None None (on_off enabled)
    (json_object [("enabled", json_bool enabled); ("cleared_device", json_bool cleared_device);
                  ("cleared_network", json_bool cleared_network)]) None now.
Definition safety_tier_entry (tier applied_by : string) (step_failures : N) (now : N) : IdentityLedgerEntry :=
  new_entry SafetyTierApplied None None None "applied"
    (json_object [("tier", json_str (to_ascii_lowercase (trim tier))); ("applied_by", json_str applied_by);
                  ("step_failures", json_u64 step_failures)]) None now.

Definition is_wallet_kind (k : IdentityLedgerKind) : bool :=
  match k with WalletCreated | WalletImported | WalletUnlocked | WalletLocked | WalletDeleted => true | _ => false end.
Definition wallet_entry (kind : IdentityLedgerKind) (status : string) (payload : JsonValue) (now : N)
  : result LedgerError IdentityLedgerEntry :=
  if is_wallet_kind kind then Ok (new_entry kind None None None status payload None now) else Err LeNotWalletKind.
Definition genesis_entry (status : string) (payload : JsonValue) (now : N) : result LedgerError IdentityLedgerEntry :=
  let normalized := to_ascii_lowercase (trim status) in
  structured ← (if bool_decide (normalized = "completed") then
                  hash ← ok_or (payload_anchor payload) LeMissingAnchor;
                  _ ← throw_if (negb (anchor_ok hash)) LeMalformedAnchor;
                  mret (Some hash)
                else mret None);
  mret (new_entry GenesisEntropyHarvested None None None normalized payload structured now).
Definition attestation_entry (status : string) (payload : JsonValue) (now : N) : IdentityLedgerEntry :=
  new_entry IdentityAttested None None None status payload (payload_anchor payload) now.
Definition binding_entry (status : string) (payload : JsonValue) (now : N) : IdentityLedgerEntry :=
  new_entry AgentAddressBound None None None status payload (payload_anchor payload) now.

(** The calls of the public [append_*] functions. *)
Inductive LedgerEvent :=
| EvSocialConnect (provider token : string) (expires_at : option N) (source : string)
| EvSocialRevoke (provider : string) (reason : option string)
| EvSuperSecure (option_key : string) (enabled : bool) (metadata : JsonValue)
| EvProfile (display_name avatar_type : option string) (name_locked : bool) (name_revision : N)
| EvDevice (enabled : bool) (entropy_bits component_count : N) (browser : bool) (puf tier : option string)
| EvNetwork (local public mac local_hash public_hash : bool) (mac_count : N)
| EvAnonymous (enabled cleared_device cleared_network : bool)
| EvSafetyTier (tier applied_by : string) (step_failures : N)
| EvWallet (kind : IdentityLedgerKind) (status : string) (payload : JsonValue)
| EvGenesis (status : string) (payload : JsonValue)
| EvAttestation (status : string) (payload : JsonValue)
| EvBinding (status : string) (payload : JsonValue).
Definition event_entry (ev : LedgerEvent) (now : N) : result LedgerError IdentityLedgerEntry :=
  match ev with
  | EvSocialConnect p t x s => Ok (social_connect_entry p t x s now)
  | EvSocialRevoke p r => Ok (social_revoke_entry p r now)
  | EvSuperSecure k b m => Ok (super_secure_entry k b m now)
  | EvProfile d a l r => Ok (profile_entry d a l r now)
  | EvDevice b n c f p t => Ok (device_entry b n c f p t now)
  | EvNetwork a b c d e n => Ok (network_entry a b c d e n now)
  | EvAnonymous b c d => Ok (anonymous_mode_entry b c d now)
  | EvSafetyTier t a n => Ok (safety_tier_entry t a n now)
  | EvWallet k s p => wallet_entry k s p now
  | EvGenesis s p => genesis_entry s p now
  | EvAttestation s p => Ok (attestation_entry s p now)
  | EvBinding s p => Ok (binding_entry s p now)
  end.
(** Only [append_genesis_event_with_sign_key] passes a key. *)
Definition append_event (env : string → option string) (f : PqFiles) (ev : LedgerEvent) (key : option (arr 32))
    (io : option IoFault) (now : N) : action LedgerFile LedgerError IdentityLedgerEntry :=
  e ← lift_res (event_entry ev now);
  append_entry_with_key env f e (match ev with EvGenesis _ _ => key | _ => None end) io now.

(** ** Queries *)

Definition loaded (env : string → option string) (f : PqFiles) (file : LedgerFile)
  : result LedgerError (list IdentityLedgerEntry) :=
  entries ← load_entries file; _ ← verify_chain env f entries; mret entries.
Definition latest_head_hash (env : string → option string) (f : PqFiles) (file : LedgerFile)
  : result LedgerError (option string) :=
  entries ← loaded env f file; mret (le_entry_hash <$> last entries).
Definition latest_completed_genesis_hash (env : string → option string) (f : PqFiles) (file : LedgerFile)
  : result LedgerError (option string) :=
  entries ← loaded env f file;
  mret (List.find (λ e, is_genesis e && completed e) (rev entries) ≫= le_genesis).
Definition latest_of (k : IdentityLedgerKind) (entries : list IdentityLedgerEntry) : option IdentityLedgerEntry :=
  List.find (λ e, bool_decide (le_kind e = k)) (rev entries).
Definition latest_genesis_event (env : string → option string) (f : PqFiles) (file : LedgerFile)
  : result LedgerError (option IdentityLedgerEntry) :=
  entries ← loaded env f file; mret (latest_of GenesisEntropyHarvested entries).
Definition latest_sovereign_binding_events (env : string → option string) (f : PqFiles) (file : LedgerFile)
  : result LedgerError (option IdentityLedgerEntry * option IdentityLedgerEntry) :=
  entries ← loaded env f file; mret (latest_of IdentityAttested entries, latest_of AgentAddressBound entries).

(** ** The projection *)

Record SocialProviderProjection := mk_Provider {
  sp_provider : string;
  sp_active : bool;
  sp_expired : bool;
  sp_recent_seq : option N;
  sp_recent_at : option N;
  sp_expires_at : option N;
  sp_token_ref : option string;
  sp_last_status : option string
}.
Record LedgerProjection := {
  lp_providers : list SocialProviderProjection;
  lp_total : nat;
  lp_head : option string;
  lp_chain_valid : bool;
  lp_signed : nat;
  lp_unsigned : nat;
  lp_fully_signed : bool
}.
Definition provider_new (provider : string) : SocialProviderProjection :=
  mk_Provider provider false false None None None None None.
Definition project_entry (now : N) (e : IdentityLedgerEntry) (p : SocialProviderProjection) : SocialProviderProjection :=
  let seq := Some (le_seq e) in
  let at_ := Some (le_timestamp e) in
  let status := Some (le_status e) in
  match le_kind e with
  | SocialTokenConnected =>
      let expired := default false ((λ x, (x <=? now)%N) <$> le_expires_at e) in
      mk_Provider (sp_provider p) (negb expired) expired seq at_ (le_expires_at e)
        (if expired then None else le_token_ref e) status
  | SocialTokenRevoked => mk_Provider (sp_provider p) false false seq at_ None None status
  | _ => mk_Provider (sp_provider p) (sp_active p) (sp_expired p) seq at_ (sp_expires_at p) (sp_token_ref p) status
  end.
Definition project_step (now : N) (m : gmap string SocialProviderProjection) (e : IdentityLedgerEntry)
  : gmap string SocialProviderProjection :=
  match le_provider e with
  | None => m
  | Some p => <[p := project_entry now e (default (provider_new p) (m !! p))]> m
  end.
Definition project_ledger_status (env : string → option string) (f : PqFiles) (now : N) (file : LedgerFile)
  : result LedgerError LedgerProjection :=
  entries ← load_entries file;
  let chain_valid := is_ok (verify_chain env f entries) in
  let signed := length (filter (λ e, is_Some (le_signature e)) entries) in
  let unsigned := length entries - signed in
  mret {| lp_providers := map_values (foldl (project_step now) ∅ entries); lp_total := length entries;
          lp_head := le_entry_hash <$> last entries; lp_chain_valid := chain_valid; lp_signed := signed;
          lp_unsigned := unsigned; lp_fully_signed := (length entries =? 0) || (unsigned =? 0) |}.
End events.

(** ** The OAuth state parameter *)

Section oauth.
Context `{SHA : Sha2, SJ : SerdeJson, JA : !JsonAccess, JB : !JsonBuild, B64 : Base64}.

Definition oauth_sig (payload_b64 secret : string) : string :=
  hex_encode (arr_bytes (sha256 (as_bytes ("agenthalo.identity.oauth.v1:" +:+ payload_b64 +:+ ":" +:+ secret)))).
Definition encode_oauth_state (provider : string) (expires_at : N) (secret : string) (nonce : arr 16) : string :=
  let payload := json_object
    [("provider", json_str (normalize_social_provider provider)); ("expires_at", json_u64 expires_at);
     ("nonce", json_str (hex_encode (arr_bytes nonce)))] in
  let payload_b64 := b64_encode (json_to_vec payload) in
  payload_b64 +:+ "." +:+ oauth_sig payload_b64 secret.

Definition decode_oauth_state (raw expected_provider : string) (now : N) (secret : string) : result string () :=
  '(payload_b64, sig) ← ok_or (split_once "." raw) "invalid oauth state format";
  _ ← throw_if (negb (bool_decide (oauth_sig payload_b64 secret = sig))) "oauth state signature mismatch";
  decoded ← ok_or (b64_decode payload_b64) "decode oauth state payload";
  val ← ok_or (json_from_slice decoded) "parse oauth state payload";
  provider ← ok_or (json_get val "provider" ≫= json_as_str) "oauth state missing provider";
  _ ← throw_if (negb (bool_decide (normalize_social_provider provider = normalize_social_provider expected_provider)))
        "oauth state provider mismatch";
  nonce ← ok_or (n ← trim <$> (json_get val "nonce" ≫= json_as_str); if bool_decide (n = "") then None else Some n)
            "oauth state missing nonce";
  _ ← throw_if (str_len nonce <? 16) "oauth state nonce too short";
  expires_at ← ok_or (json_get val "expires_at" ≫= json_as_u64) "oauth state missing expires_at";
  throw_if (expires_at <? now)%N "oauth state expired".
End oauth.
