(* ===== verification/LedgerSpec.v ===== *)
(** * Properties of the identity ledger of [Ledger.v]

    What the hash chain protects and what it leaves open, the outcomes of an append, and
    what the projection shows. *)
From S2P Require Import Ledger Instances.

(** ** Text *)

(** The last field of a text, when it does not contain the separator. *)
Lemma sep_inj_last (P : ascii → bool) c (a a' r r' : string) :
  P c = false → str_forall P r = true → str_forall P r' = true →
  a +:+ String c r = a' +:+ String c r' → a = a' ∧ r = r'.
Proof.
  intros Hc Hr Hr'. revert a'. induction a as [|x a IH]; intros [|y a'] E;
    rewrite ?str_app_nil, ?str_app_cons in E.
  - by simplify_eq.
  - simplify_eq. rewrite str_forall_app in Hr. simpl in Hr. by rewrite Hc, andb_false_r in Hr.
  - simplify_eq. rewrite str_forall_app in Hr'. simpl in Hr'. by rewrite Hc, andb_false_r in Hr'.
  - simplify_eq. by destruct (IH a') as [-> ->].
Qed.

Lemma ascii_lower_idem c : ascii_lower (ascii_lower c) = ascii_lower c.
Proof. destruct c as [[] [] [] [] [] [] [] []]; vm_compute; reflexivity. Qed.
Lemma to_lower_idem s : to_ascii_lowercase (to_ascii_lowercase s) = to_ascii_lowercase s.
Proof. induction s; simpl; [done|]. by rewrite ascii_lower_idem, IHs. Qed.
Lemma eq_ignore_refl s : eq_ignore_ascii_case s s = true.
Proof. unfold eq_ignore_ascii_case. by rewrite bool_decide_eq_true_2. Qed.
Lemma hex_nibble_lower c : hex_nibble (ascii_lower c) = hex_nibble c.
Proof. destruct c as [[] [] [] [] [] [] [] []]; vm_compute; reflexivity. Qed.
Lemma hex_decode_lower s : hex_decode (to_ascii_lowercase s) = hex_decode s.
Proof.
  assert (∀ n t, str_len t ≤ n → hex_decode (to_ascii_lowercase t) = hex_decode t) as Hn; [|by apply (Hn (str_len s))].
  intros n. induction n as [|n IH]; intros [|a [|b t]] Hl; try done; simpl in Hl; [lia|].
  cbn [to_ascii_lowercase hex_decode]. rewrite !hex_nibble_lower, IH by (simpl in *; lia). done.
Qed.
Lemma eq_ignore_decode s t : eq_ignore_ascii_case s t = true → hex_decode s = hex_decode t.
Proof.
  unfold eq_ignore_ascii_case. intros E%bool_decide_eq_true. by rewrite <-(hex_decode_lower s), E, hex_decode_lower.
Qed.

Lemma kind_debug_inj k k' : kind_debug k = kind_debug k' → k = k'.
Proof. by destruct k, k'. Qed.
Definition is_letter (c : ascii) : bool := negb (Ascii.eqb c "|").
Lemma kind_debug_letters k : str_forall is_letter (kind_debug k) = true.
Proof. by destruct k. Qed.

(** ** The chain *)

Section chain.
Context `{SHA : Sha2, SL : SigLib, DL : !DidLib, SW : SeedWrap, SJ : SerdeJson, JA : !JsonAccess, LJ : !LedgerJson}.

(** A collision of one of the two hash functions among the strings of [S]. *)
Definition hash_collides (S : list bytes) : Prop := ∃ a, collides (hash_bytes a) S.
Lemma hash_collides_mono S T : S ⊆ T → hash_collides S → hash_collides T.
Proof using Type. intros Hs [a Hc]. exists a. by eapply collides_mono. Qed.

(** The strings hashed for an entry: its text with and without the genesis field. *)
Definition entry_strings (e : IdentityLedgerEntry) : list bytes :=
  [as_bytes (entry_payload_for_hash e); as_bytes (entry_payload_for_hash_legacy e)].
Definition ledger_strings (es : list IdentityLedgerEntry) : list bytes := es ≫= entry_strings.
Lemma ledger_strings_snoc es e : ledger_strings (es ++ [e]) = ledger_strings es ++ entry_strings e.
Proof using Type. unfold ledger_strings. by rewrite bind_app. Qed.
(** Closes a goal [P ∨ hash_collides T] from a collision among fewer strings. *)
Ltac by_hash_collision :=
  right; match goal with
  | Hc : hash_collides _ |- hash_collides _ => revert Hc; apply hash_collides_mono; intros ?;
      rewrite ?ledger_strings_snoc, ?elem_of_app; tauto
  end.

Lemma length_hash_hex a x : str_len (hash_hex a x) = match a with HashSha256 => 64 | HashSha512 => 128 end.
Proof using Type. unfold hash_hex. rewrite length_hex_encode. destruct a; simpl; by rewrite arr_length. Qed.

Lemma hash_hex_inj a a' x y :
  hash_hex a x = hash_hex a' y → (a = a' ∧ x = y) ∨ hash_collides [x; y].
Proof using Type.
  intros E. pose proof (f_equal str_len E) as El. rewrite !length_hash_hex in El.
  assert (a = a') as <- by by destruct a, a'. unfold hash_hex in E. apply (inj hex_encode) in E.
  apply inj_or_collides in E as [->|Hc]; [by left|right]. by exists a.
Qed.

(** [t] is a text that the entry hash of [e] stands for. *)
Definition hashed (e : IdentityLedgerEntry) (t : string) : Prop :=
  (t = entry_payload_for_hash e ∨ t = entry_payload_for_hash_legacy e) ∧
  ∃ a, le_entry_hash e = hash_hex a (as_bytes t).

Record entry_checked (st : ChainState) (e : IdentityLedgerEntry) (st' : ChainState) : Prop := {
  ec_version : le_version e = LEDGER_VERSION;
  ec_seq : le_seq e = vs_seq st;
  ec_prev : le_prev_hash e = vs_last st;
  ec_hashed : ∃ t, hashed e t;
  ec_last : vs_last st' = Some (le_entry_hash e);
  ec_next : vs_seq st' = saturating_add64 (vs_seq st) 1
}.

Lemma verify_entry_ok env w st e st' : verify_entry env w st e = Ok st' → entry_checked st e st'.
Proof using Type.
  unfold verify_entry. intros Hv. inv_res. bool_hyps. split; try done; [by apply N.eqb_eq..|].
  match goal with Hh : negb (bool_decide (compute_entry_hash e = _)) && _ = false |- _ =>
    apply andb_false_iff in Hh as [Hh|Hh]; bool_hyps end.
  - exists (entry_payload_for_hash e). split; [by left|]. by eexists.
  - exists (entry_payload_for_hash_legacy e). split; [by right|]. by eexists.
Qed.

Lemma verify_from_app env w st es es' :
  verify_from env w st (es ++ es') = (st' ← verify_from env w st es; verify_from env w st' es').
Proof using Type.
  revert st. induction es as [|e es IH]; intros st; [done|]. cbn [app verify_from].
  destruct (verify_entry env w st e); [|done]. apply IH.
Qed.

Lemma verify_from_snoc env w st es e st' :
  verify_from env w st (es ++ [e]) = Ok st' ↔
  ∃ st1, verify_from env w st es = Ok st1 ∧ verify_entry env w st1 e = Ok st'.
Proof using Type.
  rewrite verify_from_app. cbn [verify_from]. split.
  - intros Hv. inv_res. by eexists.
  - intros (st1 & -> & Hv). cbn. rewrite Hv. done.
Qed.
Lemma verify_chain_ok env f es :
  verify_chain env f es = Ok tt ↔ ∃ st, verify_from env (wallet_for_verify f) chain_start es = Ok st.
Proof using Type.
  unfold verify_chain. destruct (verify_from _ _ _ _); cbn; [naive_solver|]. split; [done|by intros [? ?]].
Qed.

(** The links a state stands for. *)
Definition at_end (es : list IdentityLedgerEntry) (st : ChainState) : Prop :=
  vs_last st = le_entry_hash <$> last es ∧
  vs_seq st = match last es with Some l => saturating_add64 (le_seq l) 1 | None => 1%N end.
Lemma verify_from_end env w es st : verify_from env w chain_start es = Ok st → at_end es st.
Proof using Type.
  destruct es as [|e es _] using rev_ind; [by intros [= <-]|].
  intros (st1 & _ & Hc%verify_entry_ok)%verify_from_snoc. unfold at_end. rewrite last_snoc.
  destruct Hc as [_ Hs _ _ Hl Hn]. by rewrite Hl, Hn, Hs.
Qed.
Lemma verify_from_seq env w es st :
  verify_from env w chain_start es = Ok st → is_u64 (N.of_nat (length es)) →
  vs_seq st = N.min (1 + N.of_nat (length es)) u64_max.
Proof using Type.
  revert st. induction es as [|e es IH] using rev_ind; intros st; [by intros [= <-] _|].
  intros (st1 & H1 & Hc%verify_entry_ok)%verify_from_snoc. rewrite length_app. simpl. unfold is_u64. intros Hb.
  rewrite (ec_next _ _ _ Hc), (IH st1) by (done || unfold is_u64; lia). unfold saturating_add64. lia.
Qed.

(** *** What a text determines *)

Lemma text_head e t :
  t = entry_payload_for_hash e ∨ t = entry_payload_for_hash_legacy e →
  ∃ r, t = HASH_DOMAIN +:+ "|v=" +:+ dec (le_version e) +:+ String "|" ("seq=" +:+ dec (le_seq e) +:+
    String "|" ("ts=" +:+ dec (le_timestamp e) +:+ String "|" ("kind=" +:+ kind_debug (le_kind e) +:+ String "|" r))).
Proof using Type.
  unfold entry_payload_for_hash, entry_payload_for_hash_legacy, entry_text.
  intros [-> | ->]; rewrite !str_app_assoc; eexists; reflexivity.
Qed.
Lemma text_tail e t :
  t = entry_payload_for_hash e ∨ t = entry_payload_for_hash_legacy e →
  ∃ a, t = a +:+ String "|" ("prev_hash=" +:+ default "" (le_prev_hash e)).
Proof using Type.
  unfold entry_payload_for_hash, entry_payload_for_hash_legacy. intros [-> | ->].
  - exists (entry_text e +:+ "|genesis_entropy_sha256=" +:+ default "" (le_genesis e)). by rewrite !str_app_assoc.
  - by exists (entry_text e).
Qed.

(** The previous hash of an entry of a chain. *)
Definition prev_ok (e : IdentityLedgerEntry) : Prop :=
  ∀ h, le_prev_hash e = Some h → h ≠ "" ∧ str_forall is_letter h = true.

Lemma hex_letters s : str_forall is_hex s = true → str_forall is_letter s = true.
Proof using Type.
  induction s as [|c s IH]; [done|]. simpl. intros Hs. bool_hyps. rewrite IH by done.
  destruct (is_letter c) eqn:Hc; [done|]. unfold is_letter in Hc. bool_hyps.
  by match goal with Hc : Ascii.eqb c "|" = true |- _ => apply Ascii.eqb_eq in Hc as -> end.
Qed.
Lemma hashed_prev_ok e st st' : vs_last st = None ∨ (∃ d t, hashed d t ∧ vs_last st = Some (le_entry_hash d)) →
  entry_checked st e st' → prev_ok e.
Proof using Type.
  intros Hl Hc h Hh. rewrite (ec_prev _ _ _ Hc) in Hh. destruct Hl as [Hl|(d & t & [_ [a Ha]] & Hl)]; [congruence|].
  rewrite Hl in Hh. injection Hh as <-. rewrite Ha. split; [|by apply hex_letters, hex_encode_digits].
  intros E. pose proof (length_hash_hex a (as_bytes t)) as Hlen. rewrite E in Hlen. by destruct a.
Qed.

(** What the chain fixes of an entry. *)
Record same_record (e e' : IdentityLedgerEntry) : Prop := {
  sr_hash : le_entry_hash e = le_entry_hash e';
  sr_version : le_version e = le_version e';
  sr_seq : le_seq e = le_seq e';
  sr_timestamp : le_timestamp e = le_timestamp e';
  sr_kind : le_kind e = le_kind e';
  sr_prev : le_prev_hash e = le_prev_hash e';
  sr_text : ∃ t, hashed e t ∧ hashed e' t
}.

Lemma is_digit_letters s : str_forall is_digit s = true → str_forall is_letter s = true.
Proof using Type.
  induction s as [|c s IH]; [done|]. simpl. intros Hs. bool_hyps. rewrite IH by done.
  destruct (is_letter c) eqn:Hc; [done|]. unfold is_letter in Hc. bool_hyps.
  by match goal with Hc : Ascii.eqb c "|" = true |- _ => apply Ascii.eqb_eq in Hc as -> end.
Qed.
Lemma dec_letters n : str_forall is_letter (dec n) = true.
Proof using Type. apply is_digit_letters, dec_digits. Qed.

Lemma dec_inj n m : dec n = dec m → n = m.
Proof using Type. apply (inj pretty). Qed.

Lemma head_inj v v' q q' t t' k k' r r' :
  HASH_DOMAIN +:+ "|v=" +:+ dec v +:+ String "|" ("seq=" +:+ dec q +:+ String "|" ("ts=" +:+ dec t +:+
    String "|" ("kind=" +:+ kind_debug k +:+ String "|" r))) =
  HASH_DOMAIN +:+ "|v=" +:+ dec v' +:+ String "|" ("seq=" +:+ dec q' +:+ String "|" ("ts=" +:+ dec t' +:+
    String "|" ("kind=" +:+ kind_debug k' +:+ String "|" r'))) →
  v = v' ∧ q = q' ∧ t = t' ∧ k = k'.
Proof using Type.
  intros E. apply (inj (String.append HASH_DOMAIN)), (inj (String.append "|v=")) in E.
  apply (sep_inj is_letter "|") in E as [Ev E]; [|done|apply dec_letters..].
  apply (inj (String.append "seq=")) in E.
  apply (sep_inj is_letter "|") in E as [Eq E]; [|done|apply dec_letters..].
  apply (inj (String.append "ts=")) in E.
  apply (sep_inj is_letter "|") in E as [Et E]; [|done|apply dec_letters..].
  apply (inj (String.append "kind=")) in E.
  apply (sep_inj is_letter "|") in E as [Ek _]; [|done|apply kind_debug_letters..].
  by rewrite (dec_inj _ _ Ev), (dec_inj _ _ Eq), (dec_inj _ _ Et), (kind_debug_inj _ _ Ek).
Qed.

Lemma same_hash_same_record e e' :
  (∃ t, hashed e t) → (∃ t, hashed e' t) → prev_ok e → prev_ok e' →
  le_entry_hash e = le_entry_hash e' → same_record e e' ∨ hash_collides (entry_strings e ++ entry_strings e').
Proof using Type.
  intros (t & Ht & a & Ha) (t' & Ht' & a' & Ha') Hp Hp' E. pose proof E as E'. rewrite Ha, Ha' in E'.
  apply hash_hex_inj in E' as [[<- Hb]|Hc].
  2:{ right. revert Hc. apply hash_collides_mono. unfold entry_strings. destruct Ht as [-> | ->], Ht' as [-> | ->]; set_solver. }
  left.
  assert (t = t') as <- by (apply (f_equal of_bytes) in Hb; by rewrite !of_as_bytes in Hb).
  destruct (text_head _ _ Ht) as [r Hr], (text_head _ _ Ht') as [r' Hr'].
  rewrite Hr in Hr'. apply head_inj in Hr' as (Hv & Hs & Hts & Hk).
  destruct (text_tail _ _ Ht) as [b Hb1], (text_tail _ _ Ht') as [b' Hb2].
  rewrite Hb1 in Hb2. assert (le_prev_hash e = le_prev_hash e') as Hprev.
  { apply (sep_inj_last is_letter) in Hb2 as [_ E2]; [|done| |].
    - apply (inj (String.append "prev_hash=")) in E2. unfold prev_ok in Hp, Hp'.
      destruct (le_prev_hash e) as [h|], (le_prev_hash e') as [h'|]; simpl in E2; subst; try done.
      + by destruct (Hp "").
      + by destruct (Hp' "").
    - destruct (le_prev_hash e) as [h|] eqn:Eh; [|done]. by destruct (Hp h Eh).
    - destruct (le_prev_hash e') as [h|] eqn:Eh; [|done]. by destruct (Hp' h Eh). }
  split; try done. exists t. repeat split; eauto.
Qed.

Lemma verify_from_last_hashed env w es st :
  verify_from env w chain_start es = Ok st →
  vs_last st = None ∨ ∃ d t, hashed d t ∧ vs_last st = Some (le_entry_hash d).
Proof using Type.
  destruct es as [|e es _] using rev_ind; [intros [= <-]; by left|].
  intros (st1 & _ & Hc%verify_entry_ok)%verify_from_snoc. right.
  destruct (ec_hashed _ _ _ Hc) as [t Ht]. exists e, t. by rewrite (ec_last _ _ _ Hc).
Qed.

Lemma checked_prev_ok env w es st e st' :
  verify_from env w chain_start es = Ok st → entry_checked st e st' → prev_ok e.
Proof using Type. intros Hv. by eapply hashed_prev_ok, verify_from_last_hashed. Qed.

Lemma checked_same env w es st e st1 env' w' es' st' e' st1' :
  verify_from env w chain_start es = Ok st → entry_checked st e st1 →
  verify_from env' w' chain_start es' = Ok st' → entry_checked st' e' st1' →
  le_entry_hash e = le_entry_hash e' → same_record e e' ∨ hash_collides (entry_strings e ++ entry_strings e').
Proof using Type.
  intros Hv Hc Hv' Hc'.
  apply same_hash_same_record; [apply (ec_hashed _ _ _ Hc)|apply (ec_hashed _ _ _ Hc')|..].
  - exact (checked_prev_ok _ _ _ _ _ _ Hv Hc).
  - exact (checked_prev_ok _ _ _ _ _ _ Hv' Hc').
Qed.

Lemma chain_same env w es st env' w' es' st' :
  verify_from env w chain_start es = Ok st → verify_from env' w' chain_start es' = Ok st' →
  length es = length es' → vs_last st = vs_last st' →
  Forall2 same_record es es' ∨ hash_collides (ledger_strings es ++ ledger_strings es').
Proof using Type.
  revert st es' st'. induction es as [|e es IH] using rev_ind; intros st es' st' Hv Hv' Hl Hlast.
  { destruct es'; [by left|done]. }
  destruct es' as [|e' es' _] using rev_ind; [rewrite length_app in Hl; simpl in Hl; lia|].
  rewrite !length_app in Hl. simpl in Hl.
  apply verify_from_snoc in Hv as (st1 & H1 & Hc%verify_entry_ok).
  apply verify_from_snoc in Hv' as (st1' & H1' & Hc'%verify_entry_ok).
  rewrite (ec_last _ _ _ Hc), (ec_last _ _ _ Hc') in Hlast. injection Hlast as Hlast.
  destruct (checked_same _ _ _ _ _ _ _ _ _ _ _ _ H1 Hc H1' Hc' Hlast) as [Hr|?]; [|by_hash_collision].
  destruct (IH st1 es' st1' H1 H1') as [Hf|?]; [lia| | |by_hash_collision].
  - rewrite <-(ec_prev _ _ _ Hc), <-(ec_prev _ _ _ Hc'). apply (sr_prev _ _ Hr).
  - left. apply Forall2_app; [done|]. by constructor.
Qed.

(** Claim C22. The head hash of a verified ledger fixes its history: two ledgers that both
    verify, under whatever policies and wallets, and end in the same entry hash have the
    same length and agree entry by entry in version, number, time, kind, hash and link,
    and in the text that is hashed; otherwise two different ones of the texts hashed for
    their entries have one hash. *)
Theorem ledger_tamper_evident env f es env' f' es' :
  verify_chain env f es = Ok tt → verify_chain env' f' es' = Ok tt →
  (N.of_nat (length es) < u64_max)%N → (N.of_nat (length es') < u64_max)%N →
  le_entry_hash <$> last es = le_entry_hash <$> last es' →
  Forall2 same_record es es' ∨ hash_collides (ledger_strings es ++ ledger_strings es').
Proof using Type.
  intros (st & Hv)%verify_chain_ok (st' & Hv')%verify_chain_ok Hb Hb' Hh.
  pose proof (verify_from_end _ _ _ _ Hv) as [Hl _]. pose proof (verify_from_end _ _ _ _ Hv') as [Hl' _].
  destruct (decide (length es = length es')) as [E|Hne]; [eapply chain_same; eauto; congruence|].
  destruct es as [|e es _] using rev_ind.
  { destruct es' as [|e' es' _] using rev_ind; [done|]. by rewrite last_snoc in Hh. }
  destruct es' as [|e' es' _] using rev_ind; [by rewrite last_snoc in Hh|].
  rewrite !last_snoc in Hh. injection Hh as Hh. rewrite !length_app in *. simpl in *.
  apply verify_from_snoc in Hv as (st1 & H1 & Hc%verify_entry_ok).
  apply verify_from_snoc in Hv' as (st1' & H1' & Hc'%verify_entry_ok).
  destruct (checked_same _ _ _ _ _ _ _ _ _ _ _ _ H1 Hc H1' Hc' Hh) as [Hr|?]; [|by_hash_collision].
  pose proof (sr_seq _ _ Hr) as Hs. rewrite (ec_seq _ _ _ Hc), (ec_seq _ _ _ Hc') in Hs.
  rewrite (verify_from_seq _ _ _ _ H1), (verify_from_seq _ _ _ _ H1') in Hs by (unfold is_u64; lia). lia.
Qed.

(** ** What the chain leaves open *)

(** The entry without its signature, unless it is a genesis entry. *)
Definition unsigned (e : IdentityLedgerEntry) : IdentityLedgerEntry :=
  if is_genesis e then e else set_signature e None.

Lemma verify_unsigned env w st e st' :
  verify_entry env w st e = Ok st' → verify_entry env w st (unsigned e) = Ok st'.
Proof using Type.
  unfold unsigned. destruct (is_genesis e) eqn:Hg; [done|]. unfold verify_entry.
  assert (is_genesis (set_signature e None) = false) as -> by exact Hg. rewrite Hg.
  change (compute_entry_hash (set_signature e None)) with (compute_entry_hash e).
  change (compute_entry_hash_legacy (set_signature e None)) with (compute_entry_hash_legacy e).
  cbn [le_version le_seq le_prev_hash le_entry_hash le_signature set_signature].
  do 4 (destruct (throw_if _ _); [cbn|done]). intros Hv. inv_res. by destruct (vs_pinned st).
Qed.

Lemma verify_from_unsigned env w st es st' :
  verify_from env w st es = Ok st' → verify_from env w st (unsigned <$> es) = Ok st'.
Proof using Type.
  revert st. induction es as [|e es IH]; intros st; [done|]. rewrite fmap_cons. cbn [verify_from]. intros Hv.
  inv_res. match goal with Hq : verify_entry _ _ _ _ = Ok _ |- _ => rewrite (verify_unsigned _ _ _ _ _ Hq) end.
  cbn. by apply IH.
Qed.

(** The chain protects neither the end of the ledger nor the signatures of
    entries that are not genesis entries: with the last entries cut off, and with every
    such signature removed, a verified ledger still verifies, under the same policies and
    with the same head hash as before at that length. *)
Theorem ledger_signatures_strippable env f es n :
  verify_chain env f es = Ok tt →
  verify_chain env f (unsigned <$> take n es) = Ok tt ∧
  le_entry_hash <$> last (unsigned <$> take n es) = le_entry_hash <$> last (take n es) ∧
  ∀ e, e ∈ unsigned <$> take n es → is_genesis e = false → le_signature e = None.
Proof using Type.
  rewrite !verify_chain_ok. intros (st & Hv). rewrite <-(take_drop n es), verify_from_app in Hv. inv_res.
  split; [eexists; by apply verify_from_unsigned|]. split.
  - rewrite fmap_last. destruct (last (take n es)) as [e|]; [|done]. simpl. unfold unsigned. by destruct (is_genesis e).
  - intros e (d & -> & _)%list_elem_of_fmap. unfold unsigned. by destruct (is_genesis d) eqn:E; [rewrite E|].
Qed.

(** Two different entries with one text: the fields are not separated safely. *)
Lemma ledger_text_ambiguous e :
  ∃ d d', le_provider d ≠ le_provider d' ∧ le_token_ref d ≠ le_token_ref d' ∧
    le_payload d = le_payload e ∧ entry_payload_for_hash d = entry_payload_for_hash d'.
Proof using Type.
  set (mk p t := {| le_version := le_version e; le_seq := le_seq e; le_timestamp := le_timestamp e;
    le_kind := le_kind e; le_provider := Some p; le_token_ref := Some t; le_expires_at := le_expires_at e;
    le_status := le_status e; le_payload := le_payload e; le_genesis := le_genesis e;
    le_prev_hash := le_prev_hash e; le_entry_hash := le_entry_hash e; le_signature := le_signature e;
    le_hash_algorithm := le_hash_algorithm e |}).
  exists (mk "a|token_ref=b" ""), (mk "a" "b|token_ref="). do 3 (split; [done|]).
  reflexivity.
Qed.
End chain.

(** ** Appending *)

Section append.
Context `{SHA : Sha2, SL : SigLib, DL : !DidLib, SW : SeedWrap, SJ : SerdeJson, JA : !JsonAccess, LJ : !LedgerJson,
          LJL : !LedgerJson_Laws LJ}.

Lemma load_lines_snoc k lines l es e :
  load_lines k lines = Ok es → entry_to_string e = Some l → load_lines k (lines ++ [l]) = Ok (es ++ [e]).
Proof using All.
  intros Hl He. apply entry_line in He as [He Hb]. revert k es Hl.
  induction lines as [|raw lines IH]; intros k es; cbn [app load_lines].
  - intros [= <-]. rewrite Hb, He. done.
  - destruct (is_blank raw); [apply IH|]. intros Hl. inv_res.
    match goal with Hq : entry_from_str _ = Some _ |- _ => rewrite Hq end. cbn [ok_or mbind result_bind].
    match goal with Hq : load_lines _ _ = Ok _ |- _ => by rewrite (IH _ _ Hq) end.
Qed.

(** The file after some bytes of a line, and after the whole line. *)
Definition torn (file : LedgerFile) (n : nat) (line : string) : LedgerFile :=
  mk_LedgerFile (fl_lines file) (fl_tail file +:+ String.substring 0 n line).
Definition with_line (file : LedgerFile) (line : string) : LedgerFile :=
  mk_LedgerFile (fl_lines file ++ [fl_tail file +:+ line]) "".
(** The disk failed in the middle of the line. *)
Definition write_cut (io : option IoFault) (x : LedgerError) (file file' : LedgerFile) : Prop :=
  ∃ n line, io = Some (IoWrite n) ∧ x = LeIo ∧ file' = torn file n line.

Lemma load_with_line file es e l :
  fl_tail file = "" → load_entries file = Ok es → entry_to_string e = Some l →
  load_entries (with_line file l) = Ok (es ++ [e]).
Proof using All.
  unfold load_entries, file_lines. simpl. intros ->. rewrite !bool_decide_eq_true_2, !app_nil_r by done.
  apply load_lines_snoc.
Qed.

(** An append either succeeds, and then the file holds exactly one entry more,
    linked to its predecessor, and the whole ledger verifies; or it fails and the file is
    unchanged; or the disk cut the line off; or it fails after the write, and then, while
    policies and wallet stay the same, every later append fails with the same error and
    changes nothing.  What the file holds is known when its last line was ended. *)
Theorem ledger_append_outcomes env f e key io now file file' r :
  append_entry_with_key env f e key io now file = (file', r) →
  match r with
  | Ok e' => ∃ es l, load_entries file = Ok es ∧ e' = link_entry f es e key now ∧
      entry_to_string e' = Some l ∧ file' = with_line file l ∧
      (fl_tail file = "" → load_entries file' = Ok (es ++ [e'])) ∧ verify_chain env f (es ++ [e']) = Ok tt
  | Err x => file' = file ∨ write_cut io x file file' ∨
      (∃ l, file' = with_line file l) ∧
      (fl_tail file = "" → ∀ e2 key2 io2 now2, io2 ≠ Some IoRead →
         append_entry_with_key env f e2 key2 io2 now2 file' = (file', Err x))
  end.
Proof using All.
  unfold append_entry_with_key, mbind, action_bind, get_state, lift_res.
  destruct (throw_if (bool_decide (io = _)) _); [|intros [= <- <-]; by left].
  destruct (load_entries file) as [es|x] eqn:Hl; [|intros [= <- <-]; by left].
  destruct (verify_chain env f es) as [[]|x] eqn:Hv; [|intros [= <- <-]; by left].
  set (e' := link_entry f es e key now).
  destruct (throw_if _ LeNeedsWallet); [|intros [= <- <-]; by left].
  destruct (match pinned_signer _ _ _ with Some _ => _ | None => _ end); [|intros [= <- <-]; by left].
  destruct (entry_to_string e') as [l|] eqn:He; simpl; [|intros [= <- <-]; by left].
  pose proof (λ Ht, load_with_line _ _ _ _ Ht Hl He) as Hl'. unfold append_line.
  destruct io as [[| |n|]|]; simpl; try (intros [= <- <-]; by left);
    [intros [= <- <-]; right; left; by exists n, l|].
  fold (with_line file l). destruct (verify_chain env f (es ++ [e'])) as [[]|x] eqn:Hv'; intros [= <- <-].
  - by exists es, l.
  - right; right. split; [by exists l|]. intros Ht e2 key2 io2 now2 Hio. rewrite bool_decide_eq_false_2 by done.
    simpl. by rewrite Hl', Hv'.
Qed.

(** A ledger that cannot be read stays as it is: every append fails with the error of the
    reader. *)
Lemma unreadable_ledger_stuck env f e key io now file x :
  load_entries file = Err x → io ≠ Some IoRead →
  append_entry_with_key env f e key io now file = (file, Err x).
Proof using Type.
  intros Hl Hio. unfold append_entry_with_key, mbind, action_bind, get_state, lift_res.
  rewrite bool_decide_eq_false_2 by done. simpl. by rewrite Hl.
Qed.

(** *** The events of the code never break the ledger *)

(** The wallet as [keygen_pq] writes it: the key id is the one of the public key, and the
    second format, whose key pair is not compared with the public key when it signs,
    carries the public key of its seed. *)
Definition wallet_named (w : PqWallet) : Prop :=
  pw_key_id w = key_id_for_public_key (pw_public_key_hex w) ∧
  trim (pw_public_key_hex w) = pw_public_key_hex w ∧ pw_public_key_hex w ≠ "".
Definition wallet_ok (f : PqFiles) : Prop :=
  (∀ w, v1_wallet f = Some (Ok w) → wallet_named w) ∧
  ∀ g key w kp, v2_wallet f = Some g → g key = Ok w →
    wallet_named w ∧ (keypair_from_wallet_v2 w = Ok kp → pw_public_key_hex w = hex_encode (ml_vk_encode kp.2)).

Lemma keypair_public w kp : keypair_from_wallet w = Ok kp →
  hex_decode (pw_public_key_hex w) = Some (ml_vk_encode kp.2).
Proof using Type.
  unfold keypair_from_wallet. intros Hk. inv_res. bool_hyps. rewrite <-(hex_decode_encode (ml_vk_encode _)).
  symmetry. by apply eq_ignore_decode.
Qed.
End append.

Section events.
Context `{SHA : Sha2, SL : SigLib, SLL : !SigLib_Laws SL, DL : !DidLib, DLL : !DidLib_Laws DL, SW : SeedWrap,
          SJ : SerdeJson, JA : !JsonAccess, JB : !JsonBuild, LJ : !LedgerJson}.

(** Documented: the signatures of ML-DSA-65 have 3309 bytes. *)
Class SignatureSized : Prop :=
  signature_sized sk m ctx sig : ml_sign_deterministic sk m ctx = Some sig → ml_encode sig ≠ [].
Context `{SZ : SignatureSized}.

Lemma hex_decode_even s b : hex_decode s = Some b → Nat.even (str_len s) = true.
Proof using Type.
  assert (∀ n t b, str_len t ≤ n → hex_decode t = Some b → Nat.even (str_len t) = true) as Hn; [|by apply (Hn (str_len s))].
  intros n. induction n as [|n IH]; intros [|a [|c t]] b' Hl; try done; simpl in Hl; [lia|].
  cbn [hex_decode]. intros Hd. simpl. repeat (apply bind_Some in Hd as (? & ? & Hd)).
  eapply IH; [|done]. unfold str_len in *. lia.
Qed.
Lemma pq_hex_decode_Some s b : hex_decode s = Some b → s ≠ "" → pq_hex_decode s = Ok b.
Proof using Type.
  intros Hd Hs. unfold pq_hex_decode. rewrite (hex_decode_even _ _ Hd), Hd. by destruct s.
Qed.

(** A signature that verifies on [h], whoever checks it, and shows the key [pk]. *)
Definition sound_signature (h : string) (sig : LedgerSignatureRef) (pk : string) : Prop :=
  ∀ env w, resolve_signature_public_key env sig w = Ok pk ∧
    ∀ e, le_entry_hash e = h → verify_signature_ref env e sig w = Ok pk.

Lemma sign_with_sound w kp h kind hint now pe :
  wallet_named w → hex_decode (pw_public_key_hex w) = Some (ml_vk_encode kp.2) →
  sign_with w kp (as_bytes (entry_signature_payload h)) kind hint now = Ok pe →
  sound_signature h {| sg_algorithm := pe_algorithm pe; sg_key_id := pe_key_id pe;
    sg_public_key_hex := Some (pe_public_key_hex pe); sg_payload_hash := pe_payload_hash pe;
    sg_signature_hex := pe_signature_hex pe; sg_signature_digest := pe_signature_digest pe;
    sg_created_at := pe_created_at pe; sg_hash_algorithm := pe_hash_algorithm pe |} (pw_public_key_hex w).
Proof using All.
  intros (Hid & Htrim & Hne) Hpk. unfold sign_with. intros Hs. inv_res. bool_hyps. intros env wi.
  set (sig := {| sg_algorithm := _ |}).
  assert (resolve_signature_public_key env sig wi = Ok (pw_public_key_hex w)) as Hres.
  { unfold resolve_signature_public_key, carried_key. simpl. rewrite Htrim. by rewrite bool_decide_eq_false_2. }
  split; [exact Hres|]. intros e He. unfold verify_signature_ref. rewrite Hres, He.
  cbn [sg_algorithm sg_payload_hash sg_signature_digest sg_hash_algorithm sg_key_id sg_signature_hex
       pe_algorithm pe_payload_hash pe_signature_digest pe_hash_algorithm pe_key_id pe_signature_hex sig].
  change (from_field (Some (algo_str CURRENT))) with CURRENT. rewrite Hid, !eq_ignore_refl.
  cbn [negb throw_if mbind result_bind].
  assert (verify_detached_signature (as_bytes (entry_signature_payload h)) (pw_public_key_hex w)
    (hex_encode (ml_encode x)) = Ok true) as ->; [|cbn; by rewrite eq_ignore_refl].
  unfold verify_detached_signature. rewrite (pq_hex_decode_Some _ _ Hpk Hne).
  rewrite (pq_hex_decode_Some _ _ (hex_decode_encode _)).
  2:{ intros E. apply (f_equal str_len) in E. rewrite length_hex_encode in E.
      assert (ml_encode x ≠ []) by by eapply signature_sized. by destruct (ml_encode x). }
  cbn [mbind result_bind]. rewrite ml_vk_roundtrip. cbn [ok_or mbind result_bind].
  pose proof (ml_encode_decode x) as Hd. apply bind_Some in Hd as (enc & -> & Hd). cbn [ok_or mbind result_bind].
  rewrite Hd. cbn. by f_equal.
Qed.

Lemma try_sign_sound f h key now sig :
  wallet_ok f → try_sign_entry_hash_with_key f h key now = Some sig → ∃ pk, sound_signature h sig pk.
Proof using All.
  intros [Hv1 Hv2]. unfold try_sign_entry_hash_with_key. destruct (negb (has_wallet f)); [done|].
  set (kind := "identity_social_ledger_entry"). set (msg := as_bytes (entry_signature_payload h)).
  assert (∀ pe, sign_pq_payload_with_paths f msg kind (Some h) now = Ok pe →
    ∃ pk, sound_signature h {| sg_algorithm := pe_algorithm pe; sg_key_id := pe_key_id pe;
      sg_public_key_hex := Some (pe_public_key_hex pe); sg_payload_hash := pe_payload_hash pe;
      sg_signature_hex := pe_signature_hex pe; sg_signature_digest := pe_signature_digest pe;
      sg_created_at := pe_created_at pe; sg_hash_algorithm := pe_hash_algorithm pe |} pk) as H1.
  { intros pe Hs. unfold sign_pq_payload_with_paths in Hs.
    apply result_bind_ok in Hs as (w & Hw & Hs). apply result_bind_ok in Hs as (kp & Hk & Hs).
    exists (pw_public_key_hex w). eapply sign_with_sound; [|by apply keypair_public|exact Hs].
    apply Hv1. unfold load_wallet in Hw. destruct (v1_wallet f) as [[]|]; by simplify_eq/=. }
  assert (∀ k pe, sign_pq_payload_v2 f k msg kind (Some h) now = Ok pe →
    ∃ pk, sound_signature h {| sg_algorithm := pe_algorithm pe; sg_key_id := pe_key_id pe;
      sg_public_key_hex := Some (pe_public_key_hex pe); sg_payload_hash := pe_payload_hash pe;
      sg_signature_hex := pe_signature_hex pe; sg_signature_digest := pe_signature_digest pe;
      sg_created_at := pe_created_at pe; sg_hash_algorithm := pe_hash_algorithm pe |} pk) as H2.
  { intros k pe Hs. unfold sign_pq_payload_v2 in Hs.
    apply result_bind_ok in Hs as (w & Hw & Hs). apply result_bind_ok in Hs as (kp & Hk & Hs).
    unfold load_wallet_v2 in Hw. destruct (v2_wallet f) as [g|] eqn:Hg; [|done].
    destruct (Hv2 g k w kp eq_refl Hw) as [Hn Hp]. exists (pw_public_key_hex w).
    eapply sign_with_sound; [done| |exact Hs]. by rewrite (Hp Hk), hex_decode_encode. }
  intros Hs. apply bind_Some in Hs as (pe & Hpe & [= <-]).
  assert (∀ g, sign_pq_payload f msg kind (Some h) now = Ok g → ∃ w, v1_wallet f = Some w) as Hv.
  { unfold sign_pq_payload, sign_pq_payload_with_scope_key. destruct (v1_wallet f); [by eexists|]. by destruct (v2_wallet f). }
  destruct (sign_pq_payload f msg kind (Some h) now) as [g|] eqn:Hg.
  - injection Hpe as ->. destruct (Hv _ eq_refl) as [w Hw]. apply H1.
    unfold sign_pq_payload, sign_pq_payload_with_scope_key in Hg. by rewrite Hw in Hg.
  - destruct key as [k|]; [|done]. destruct (sign_pq_payload_v2 f k msg kind (Some h) now) eqn:E; [|done].
    injection Hpe as ->. by eapply H2.
Qed.

Lemma verify_ref_resolved env e sig w k :
  verify_signature_ref env e sig w = Ok k → resolve_signature_public_key env sig w = Ok k.
Proof using Type. unfold verify_signature_ref. intros Hv. inv_res. done. Qed.

Lemma resolve_more env sig w w' k :
  w = None ∨ w' = w → resolve_signature_public_key env sig w = Ok k → resolve_signature_public_key env sig w' = Ok k.
Proof using Type.
  intros [-> | ->]; [|done]. unfold resolve_signature_public_key. destruct (carried_key sig); [done|].
  by destruct (strict_ledger_signature_fields env).
Qed.

Lemma verify_entry_resolved env w w' st e st' sig :
  w = None ∨ w' = w → verify_entry env w st e = Ok st' → le_signature e = Some sig →
  ∃ k, resolve_signature_public_key env sig w' = Ok k.
Proof using Type.
  intros Hw Hv Hs. unfold verify_entry in Hv. rewrite Hs in Hv. inv_res.
  match goal with Hr : verify_signature_ref _ _ _ _ = Ok _ |- _ => apply verify_ref_resolved in Hr end.
  eexists. by eapply resolve_more.
Qed.

(** The signer an append compares with is the one the check of the ledger has pinned. *)
Lemma verify_from_pinned env w w' st es st' :
  w = None ∨ w' = w → verify_from env w st es = Ok st' →
  vs_pinned st' = match vs_pinned st with Some p => Some p | None => pinned_signer env es w' end.
Proof using Type.
  intros Hw. revert st. induction es as [|e es IH]; intros st; cbn [verify_from].
  { intros [= <-]. by destruct (vs_pinned st). }
  intros Hv. apply result_bind_ok in Hv as (st1 & He & Hv). rewrite (IH _ Hv). clear IH Hv.
  assert (∀ sig, le_signature e = Some sig → ∃ k, resolve_signature_public_key env sig w' = Ok k) as Hres
    by (intros sig; by eapply verify_entry_resolved).
  assert (vs_pinned st1 = match vs_pinned st with
    | Some p => Some p
    | None => if is_genesis e && completed e then sig ← le_signature e; res_ok (resolve_signature_public_key env sig w')
              else None end) as ->.
  { clear Hres. unfold verify_entry in He. inv_res. simpl.
    match goal with Hs : match le_signature e with _ => _ end = Ok _ |- _ => rename Hs into Hsig end.
    match goal with Hp : (if is_genesis e then _ else _) = Ok _ |- _ => rename Hp into Hpin end.
    destruct (is_genesis e); simpl; [|injection Hpin as <-; by destruct (vs_pinned st)].
    unfold check_genesis in Hpin. inv_res. destruct (completed e); simpl; [|injection Hpin as <-; by destruct (vs_pinned st)].
    inv_res. destruct (le_signature e) as [sig|]; simpl.
    - inv_res. match goal with Hr : verify_signature_ref _ _ _ _ = Ok _ |- _ =>
        apply verify_ref_resolved, (resolve_more _ _ _ _ _ Hw) in Hr; rewrite Hr end.
      destruct (vs_pinned st); simpl; inv_res; done.
    - injection Hsig as <-. injection Hpin as <-. by destruct (vs_pinned st). }
  destruct (vs_pinned st) as [p|]; [done|]. unfold pinned_signer at 2. cbn [List.find].
  destruct (is_genesis e && completed e); simpl; [|done].
  destruct (le_signature e) as [sig|] eqn:Hs; simpl; [|done].
  destruct (Hres _ eq_refl) as [k Hk]. rewrite Hs. simpl. by rewrite Hk.
Qed.

(** What the events of the code promise of an entry before it is linked. *)
Definition event_ok (e : IdentityLedgerEntry) : Prop :=
  le_version e = LEDGER_VERSION ∧
  (is_genesis e = true → completed e = true →
    ∃ a, le_genesis e = Some a ∧ anchor_ok a = true ∧ payload_anchor (le_payload e) = Some a).

Lemma event_entry_ok ev now e : event_entry ev now = Ok e → event_ok e.
Proof using Type.
  destruct ev; simpl; try (intros [= <-]; by split).
  - unfold wallet_entry. destruct (is_wallet_kind kind) eqn:Hk; [|done]. intros [= <-]. split; [done|].
    unfold is_genesis. simpl. intros Hg%bool_decide_eq_true. by subst kind.
  - unfold genesis_entry. intros He. inv_res. split; [done|]. intros _. unfold completed. simpl.
    unfold eq_ignore_ascii_case. rewrite to_lower_idem. intros Hc%bool_decide_eq_true.
    rewrite bool_decide_eq_true_2 in * by done. inv_res. bool_hyps. by eexists.
Qed.

Lemma link_verifies env w st es f e key now sig pk :
  event_ok e → at_end es st →
  let e' := link_entry f es e key now in
  le_signature e' = sig → (is_genesis e' = true → is_Some sig) →
  (∀ s, sig = Some s → sound_signature (le_entry_hash e') s pk) →
  (∀ p, vs_pinned st = Some p → is_Some sig → eq_ignore_ascii_case pk p = true) →
  is_ok (verify_entry env w st e') = true.
Proof using Type.
  intros [Hver Hgen] [Hlast Hseq] e' Hs Hgs Hsound Hpin. unfold verify_entry.
  assert (le_version e' = LEDGER_VERSION) as -> by exact Hver.
  assert (le_seq e' = vs_seq st) as -> by exact (eq_sym Hseq).
  assert (le_prev_hash e' = vs_last st) as -> by exact (eq_sym Hlast).
  assert (compute_entry_hash e' = le_entry_hash e') as -> by reflexivity.
  rewrite !N.eqb_refl, (bool_decide_eq_true_2 (vs_last st = vs_last st)),
    (bool_decide_eq_true_2 (le_entry_hash e' = le_entry_hash e')) by done. cbn [negb andb throw_if mbind result_bind].
  assert (is_genesis e' = is_genesis e) as Hg by reflexivity. rewrite Hs, Hg in *.
  assert (match sig with Some s => k ← verify_signature_ref env e' s w; mret (Some k) | None => mret None end =
    Ok (if sig is Some _ then Some pk else None)) as ->.
  { destruct sig as [s|]; [|done]. destruct (Hsound s eq_refl env w) as [_ Hv]. by rewrite Hv. }
  cbn [mbind result_bind]. set (legacy := bool_decide _).
  assert (∃ p', (if is_genesis e then check_genesis env e' legacy (if sig is Some _ then Some pk else None) (vs_pinned st)
                 else mret (vs_pinned st)) = Ok p' ∧
          ∀ p, p' = Some p → is_Some sig → eq_ignore_ascii_case pk p = true) as (p' & -> & Hp').
  { destruct (is_genesis e) eqn:Hge; [|by eexists]. unfold check_genesis. rewrite Hs.
    destruct (Hgs eq_refl) as [s ->]. cbn [mbind result_bind mret result_ret].
    assert (completed e' = completed e) as -> by reflexivity. destruct (completed e) eqn:Hc; [|by eexists].
    destruct (Hgen eq_refl eq_refl) as (a & Ha & Hok & Hpa).
    assert (check_anchor e' legacy = Ok tt) as ->.
    { unfold check_anchor. assert (le_genesis e' = Some a) as -> by exact Ha. rewrite Hok.
      assert (payload_anchor (le_payload e') = Some a) as -> by exact Hpa. simpl. by rewrite bool_decide_eq_true_2. }
    cbn [mbind result_bind]. destruct (vs_pinned st) as [p|] eqn:Hp.
    - rewrite (Hpin p eq_refl) by (by eexists). simpl. eexists. split; [done|]. intros q [= <-]. by apply Hpin.
    - eexists. split; [done|]. intros q [= <-] _. apply eq_ignore_refl. }
  cbn [mbind result_bind]. destruct p' as [p|], sig as [s|]; try done.
  by rewrite (Hp' p eq_refl) by (by eexists).
Qed.

(** Claim C23. With the wallet that the key generator writes, the calls of the public
    [append_*] functions keep the ledger usable.  A call that succeeds has added its entry,
    linked to the last one, the new ledger verifies, and it is what the file holds if its
    last line was ended before.  When a call returns an error the file is as it was, on
    every branch, so the check after the write never fails; the one exception is a disk that
    fails while the line is written: then a part of the line stays at the end. *)
Theorem ledger_events_never_break `{LJL : !LedgerJson_Laws LJ} env f ev key io now file file' r :
  wallet_ok f → append_event env f ev key io now file = (file', r) →
  match r with
  | Ok e' => ∃ es, load_entries file = Ok es ∧ le_prev_hash e' = le_entry_hash <$> last es ∧
      verify_chain env f (es ++ [e']) = Ok tt ∧
      (fl_tail file = "" → load_entries file' = Ok (es ++ [e']) ∧ fl_tail file' = "")
  | Err x => file' = file ∨ write_cut io x file file'
  end.
Proof using All.
  intros Hw. unfold append_event, mbind at 1, action_bind at 1, lift_res at 1.
  destruct (event_entry ev now) as [e|] eqn:He; [|intros [= <- <-]; by left]. apply event_entry_ok in He.
  set (k := match ev with EvGenesis _ _ => key | _ => None end). clearbody k.
  intros Happ. pose proof (ledger_append_outcomes _ _ _ _ _ _ _ _ _ Happ) as Hout. destruct r as [e'|x].
  { destruct Hout as (es & l & Hl & -> & _ & -> & Ht & Hv). exists es. split_and!; [done..|]. intros E. by split; [apply Ht|]. }
  destruct Hout as [?|[?|[[l ->] _]]]; [by left|by right|]. left. revert Happ.
  unfold append_entry_with_key, mbind, action_bind, get_state, lift_res.
  destruct (throw_if (bool_decide (io = _)) _); [|by intros [= <- _]].
  destruct (load_entries file) as [es|] eqn:Hl; [|by intros [= <- _]].
  destruct (verify_chain env f es) as [[]|] eqn:Hv; [|by intros [= <- _]].
  destruct (throw_if _ LeNeedsWallet) as [u|] eqn:Hn; [|by intros [= <- _]].
  destruct (match pinned_signer _ _ _ with Some _ => _ | None => _ end) as [u'|] eqn:Hp; [|by intros [= <- _]].
  destruct (entry_to_string _); simpl; [|by intros [= <- _]].
  unfold append_line. destruct io as [[| |n|]|]; simpl; try by intros [= <- _].
  { intros [= E]. apply (f_equal length) in E. rewrite length_app in E. simpl in E. lia. }
  apply verify_chain_ok in Hv as [st Hv]. set (e' := link_entry f es e k now) in *.
  assert (is_ok (verify_entry env (wallet_for_verify f) st e') = true) as Hok.
  { assert (∃ pk, ∀ s, le_signature e' = Some s → sound_signature (le_entry_hash e') s pk) as [pk Hsound].
    { destruct (le_signature e') as [g|] eqn:Hs; [|by exists ""].
      destruct (try_sign_sound f (le_entry_hash e') k now g Hw Hs) as [pk Hpk]. exists pk. by intros s' [= <-]. }
    eapply link_verifies; [done|by eapply verify_from_end|reflexivity| |exact Hsound|].
    - intros Hg. apply throw_if_ok in Hn. fold e' in Hg. rewrite Hg in Hn. simpl in Hn. bool_hyps.
      exact Hn.
    - intros p Hpin [s' Hs]. fold e' in Hs. rewrite Hs in Hp.
      assert (wallet_for_verify f = None ∨ wallet_for_append f k = wallet_for_verify f) as Hwl
        by (unfold wallet_for_append; destruct (wallet_for_verify f); [by right|by left]).
      rewrite (verify_from_pinned _ _ _ _ _ _ Hwl Hv) in Hpin.
      simpl in Hpin. rewrite Hpin in Hp. destruct (Hsound s' Hs env (wallet_for_append f k)) as [Hr _].
      rewrite Hr in Hp. cbn [mbind result_bind] in Hp. apply throw_if_ok in Hp. by bool_hyps. }
  destruct (verify_chain env f (es ++ [e'])) as [[]|] eqn:Hv'; [done|].
  destruct (verify_entry env (wallet_for_verify f) st e') as [st'|] eqn:Hst; [|done].
  assert (verify_chain env f (es ++ [e']) = Ok tt) as Hc; [|by rewrite Hc in Hv'].
  apply verify_chain_ok. exists st'. apply verify_from_snoc. by exists st.
Qed.
End events.

(** ** The projection *)

Section projection.
Context `{SHA : Sha2, SL : SigLib, DL : !DidLib, SW : SeedWrap, SJ : SerdeJson, JA : !JsonAccess, LJ : !LedgerJson}.

Definition is_social (e : IdentityLedgerEntry) : bool :=
  match le_kind e with SocialTokenConnected | SocialTokenRevoked => true | _ => false end.
(** The entries of a provider, and the last of them that connects or revokes a token. *)
Definition of_provider (p : string) (es : list IdentityLedgerEntry) : list IdentityLedgerEntry :=
  filter (λ e, le_provider e = Some p) es.
Definition last_social (p : string) (es : list IdentityLedgerEntry) : option IdentityLedgerEntry :=
  last (filter (λ e, is_social e = true) (of_provider p es)).
(** The token of a provider at a time: connected last, not revoked since, not expired. *)
Definition holds_token (now : N) (e : IdentityLedgerEntry) : bool :=
  bool_decide (le_kind e = SocialTokenConnected) && default true ((λ x, (now <? x)%N) <$> le_expires_at e).

Record shows (now : N) (p : string) (es : list IdentityLedgerEntry) (s : SocialProviderProjection) : Prop := {
  sh_name : sp_provider s = p;
  sh_recent : sp_recent_seq s = le_seq <$> last (of_provider p es);
  sh_at : sp_recent_at s = le_timestamp <$> last (of_provider p es);
  sh_status : sp_last_status s = le_status <$> last (of_provider p es);
  sh_active : sp_active s = default false (holds_token now <$> last_social p es);
  sh_token : sp_token_ref s = (e ← last_social p es; if holds_token now e then le_token_ref e else None);
  sh_expired : sp_expired s = default false
    ((λ e, bool_decide (le_kind e = SocialTokenConnected) && negb (holds_token now e)) <$> last_social p es)
}.

Lemma of_provider_snoc p es e :
  of_provider p (es ++ [e]) = if decide (le_provider e = Some p) then of_provider p es ++ [e] else of_provider p es.
Proof using Type.
  unfold of_provider. rewrite filter_app, filter_cons, filter_nil. destruct (decide _); [done|by rewrite app_nil_r].
Qed.
Lemma last_social_snoc p es e :
  last_social p (es ++ [e]) =
  if decide (le_provider e = Some p ∧ is_social e = true) then Some e else last_social p es.
Proof using Type.
  unfold last_social. rewrite of_provider_snoc. destruct (decide (le_provider e = Some p)) as [Hp|Hp].
  - rewrite filter_app, filter_cons, filter_nil. destruct (decide (is_social e = true)) as [Hs|Hs].
    + rewrite last_snoc, decide_True by done. done.
    + rewrite app_nil_r, decide_False by naive_solver. done.
  - by rewrite decide_False by naive_solver.
Qed.

Lemma shows_new now p : shows now p [] (provider_new p).
Proof using Type. by split. Qed.

Lemma shows_step now p es e s :
  le_provider e = Some p → shows now p es s → shows now p (es ++ [e]) (project_entry now e s).
Proof using Type.
  intros Hp [Hn _ _ _ Ha Ht He].
  assert (of_provider p (es ++ [e]) = of_provider p es ++ [e]) as Hof by by rewrite of_provider_snoc, decide_True.
  pose proof (last_social_snoc p es e) as Hls. unfold project_entry.
  destruct (is_social e) eqn:Hs.
  - rewrite decide_True in Hls by done. unfold is_social in Hs. destruct (le_kind e) eqn:Hk; try done;
      split; rewrite ?Hof, ?last_snoc, ?Hls; unfold holds_token; simpl; rewrite ?Hk; simpl; try done.
    all: destruct (le_expires_at e) as [x|]; simpl; [|done]; rewrite N.ltb_antisym; by destruct (x <=? now)%N.
  - rewrite decide_False in Hls by naive_solver. unfold is_social in Hs.
    destruct (le_kind e) eqn:Hk; try done; split; rewrite ?Hof, ?last_snoc, ?Hls; simpl; done.
Qed.

Lemma length_filter_all {A} (P : A → Prop) `{!∀ x, Decision (P x)} (l : list A) :
  length (filter P l) = length l ↔ Forall P l.
Proof using Type.
  induction l as [|x l IH]; [done|]. rewrite filter_cons, Forall_cons, <-IH.
  pose proof (length_filter P l). destruct (decide (P x)); simpl; naive_solver lia.
Qed.

Lemma project_shows now es p :
  match foldl (project_step now) ∅ es !! p with
  | Some s => shows now p es s ∧ of_provider p es ≠ []
  | None => of_provider p es = []
  end.
Proof using Type.
  induction es as [|e es IH] using rev_ind; [simpl; by rewrite lookup_empty|].
  rewrite foldl_app, of_provider_snoc. cbn [foldl]. unfold project_step at 1.
  set (m := foldl (project_step now) ∅ es) in *.
  destruct (le_provider e) as [q|] eqn:Hq.
  - destruct (decide (q = p)) as [->|Hne].
    + rewrite lookup_insert_eq, decide_True by done. split; [|by destruct (of_provider p es)].
      apply shows_step; [done|]. destruct (m !! p) as [s|]; simpl; [by destruct IH|].
      destruct (shows_new now p). unfold of_provider in IH. split; simpl; unfold last_social, of_provider; by rewrite ?IH.
    + rewrite lookup_insert_ne, decide_False by naive_solver. destruct (m !! p) as [s|]; [|done].
      destruct IH as [[]]. split; [|done].
      split; rewrite ?of_provider_snoc, ?last_social_snoc, ?decide_False by naive_solver; done.
  - rewrite decide_False by done. destruct (m !! p) as [s|]; [|done]. destruct IH as [[]]. split; [|done].
    split; rewrite ?of_provider_snoc, ?last_social_snoc, ?decide_False by naive_solver; done.
Qed.

(** The projection of a ledger shows each provider that some entry names, and
    no other: it is active at [now] exactly when its last connect or revoke event is a
    connect that has not expired, with the token reference of that event, expired exactly
    when that event is an expired connect, and its latest number, time and status are those
    of its last entry. *)
Theorem projection_exact env f now file es pr :
  load_entries file = Ok es → project_ledger_status env f now file = Ok pr →
  lp_chain_valid pr = is_ok (verify_chain env f es) ∧
  (lp_fully_signed pr = true ↔ ∀ e, e ∈ es → is_Some (le_signature e)) ∧
  (∀ p, p ∈ sp_provider <$> lp_providers pr ↔ of_provider p es ≠ []) ∧
  ∀ s, s ∈ lp_providers pr → shows now (sp_provider s) es s.
Proof using Type.
  intros Hl. unfold project_ledger_status. rewrite Hl. cbn. intros [= <-]. cbn.
  assert (∀ s, s ∈ map_values (foldl (project_step now) ∅ es) ↔ ∃ p, foldl (project_step now) ∅ es !! p = Some s) as Hv.
  { intros s. unfold map_values. rewrite list_elem_of_fmap. split.
    - intros ([p s'] & -> & Hin%elem_of_entries). by exists p.
    - intros (p & Hp). exists (p, s). by rewrite elem_of_entries. }
  split; [done|]. split; [|split].
  - assert (length (filter (λ e, is_Some (le_signature e)) es) = length es ↔ ∀ e, e ∈ es → is_Some (le_signature e)) as <-.
    { rewrite <-Forall_forall. apply length_filter_all. }
    pose proof (length_filter (λ e, is_Some (le_signature e)) es). rewrite orb_true_iff, !Nat.eqb_eq. lia.
  - intros p. rewrite list_elem_of_fmap. split.
    + intros (s & -> & (q & Hq)%Hv). pose proof (project_shows now es q) as Hs. rewrite Hq in Hs.
      destruct Hs as [Hs Hne]. by rewrite (sh_name _ _ _ _ Hs).
    + intros Hne. pose proof (project_shows now es p) as Hs. destruct (_ !! p) as [s|] eqn:Hq; [|done].
      destruct Hs as [Hs _]. exists s. rewrite (sh_name _ _ _ _ Hs). split; [done|]. apply Hv. by exists p.
  - intros s (q & Hq)%Hv. pose proof (project_shows now es q) as Hs. rewrite Hq in Hs. destruct Hs as [Hs _].
    by rewrite (sh_name _ _ _ _ Hs).
Qed.
End projection.

(** ** Examples *)

(** *** A codec of lines that obeys the law *)

Lemma trim_with_head fuel s : ∃ t, trim_with strip_suffix fuel (String "{" s) = String "{" t.
Proof.
  revert s. induction fuel as [|fuel IH]; intros s; [by exists s|]. cbn [trim_with].
  destruct (first_some _ _) as [r|] eqn:Hf; [|by exists s].
  apply first_some_Some in Hf as (w & Hw & Hs). apply strip_suffix_Some in Hs. destruct r as [|c r].
  - rewrite str_app_nil in Hs. subst w.
    assert (forallb (λ w, negb (starts_with w "{")) whitespace_codes = true) as Hb by (vm_compute; done).
    rewrite forallb_forall in Hb. apply list_elem_of_In, Hb in Hw. done.
  - rewrite str_app_cons in Hs. injection Hs as <- _. apply IH.
Qed.
Lemma brace_not_blank s : is_blank (String "{" s) = false.
Proof.
  unfold is_blank, trim. assert (trim_start (String "{" s) = String "{" s) as ->.
  { unfold trim_start. cbn [str_len String.length trim_with]. by vm_compute. }
  unfold trim_end. destruct (trim_with_head (str_len (String "{" s)) s) as [t ->]. by vm_compute.
Qed.

(** A line is a brace and the bits of an encoded entry. *)
Fixpoint bits_of (p : positive) : string :=
  match p with xH => "" | xO p' => String "o" (bits_of p') | xI p' => String "i" (bits_of p') end.
Fixpoint of_bits (s : string) : positive :=
  match s with
  | EmptyString => xH
  | String c s' => if Ascii.eqb c "o" then xO (of_bits s') else xI (of_bits s')
  end.
Lemma of_bits_of p : of_bits (bits_of p) = p.
Proof. by induction p as [p IH|p IH|]; simpl; rewrite ?IH. Qed.

#[local] Instance kind_countable : Countable IdentityLedgerKind.
Proof.
  refine (inj_countable' kind_debug (λ s, default ProfileUpdated (List.find (λ k, bool_decide (kind_debug k = s))
    [ProfileUpdated; DeviceUpdated; NetworkUpdated; AnonymousModeUpdated; SafetyTierApplied; WalletCreated;
     WalletImported; WalletUnlocked; WalletLocked; WalletDeleted; SocialTokenConnected; SocialTokenRevoked;
     SuperSecureUpdated; GenesisEntropyHarvested; IdentityAttested; AgentAddressBound])) _).
  by intros [].
Defined.
#[local] Instance byte_countable : Countable byte.
Proof. refine (inj_countable Byte.to_N Byte.of_N _). by intros []. Defined.

Section codec.
#[local] Existing Instances raw_json.
Definition sig_fields (s : LedgerSignatureRef) : list positive :=
  [encode (sg_algorithm s); encode (sg_key_id s); encode (sg_public_key_hex s); encode (sg_payload_hash s);
   encode (sg_signature_hex s); encode (sg_signature_digest s); encode (sg_created_at s);
   encode (sg_hash_algorithm s)].
Definition sig_of_fields (l : list positive) : option LedgerSignatureRef :=
  match l with
  | [a; b; c; d; e; f; g; h] =>
      a ← decode (A:=string) a; b ← decode (A:=string) b; c ← decode (A:=option string) c;
      d ← decode (A:=string) d; e ← decode (A:=string) e; f ← decode (A:=string) f; g ← decode (A:=N) g;
      h ← decode (A:=option string) h;
      Some {| sg_algorithm := a; sg_key_id := b; sg_public_key_hex := c; sg_payload_hash := d;
              sg_signature_hex := e; sg_signature_digest := f; sg_created_at := g; sg_hash_algorithm := h |}
  | _ => None
  end.
#[local] Instance sig_eq_dec : EqDecision LedgerSignatureRef.
Proof. solve_decision. Defined.
#[local] Instance sig_countable : Countable LedgerSignatureRef.
Proof.
  refine (inj_countable sig_fields sig_of_fields _). intros []. unfold sig_fields, sig_of_fields.
  by rewrite !decode_encode.
Defined.
Definition entry_fields (e : IdentityLedgerEntry) : list positive :=
  [encode (le_version e); encode (le_seq e); encode (le_timestamp e); encode (le_kind e); encode (le_provider e);
   encode (le_token_ref e); encode (le_expires_at e); encode (le_status e); encode (A:=list byte) (le_payload e);
   encode (le_genesis e); encode (le_prev_hash e); encode (le_entry_hash e); encode (le_signature e);
   encode (le_hash_algorithm e)].
Definition entry_of_fields (l : list positive) : option IdentityLedgerEntry :=
  match l with
  | [a; b; c; d; e; f; g; h; i; j; k; x; m; n] =>
      '(a, b, c, d) ← (a ← decode (A:=N) a; b ← decode (A:=N) b; c ← decode (A:=N) c;
                       d ← decode (A:=IdentityLedgerKind) d; Some (a, b, c, d));
      '(e, f, g, h) ← (e ← decode (A:=option string) e; f ← decode (A:=option string) f;
                       g ← decode (A:=option N) g; h ← decode (A:=string) h; Some (e, f, g, h));
      '(i, j, k, x) ← (i ← decode (A:=list byte) i; j ← decode (A:=option string) j;
                       k ← decode (A:=option string) k; x ← decode (A:=string) x; Some (i, j, k, x));
      m ← decode (A:=option LedgerSignatureRef) m; n ← decode (A:=option string) n;
      Some {| le_version := a; le_seq := b; le_timestamp := c; le_kind := d; le_provider := e; le_token_ref := f;
              le_expires_at := g; le_status := h; le_payload := i; le_genesis := j; le_prev_hash := k;
              le_entry_hash := x; le_signature := m; le_hash_algorithm := n |}
  | _ => None
  end.
Definition bits_json : LedgerJson := {|
  entry_to_string := λ e, Some (String "{" (bits_of (encode (entry_fields e))));
  entry_from_str := λ s, match s with
    | String _ s' => l ← decode (A:=list positive) (of_bits s'); entry_of_fields l
    | EmptyString => None
    end |}.
Lemma bits_json_laws : LedgerJson_Laws bits_json.
Proof.
  constructor. intros e l [= <-]. split; [|apply brace_not_blank]. unfold entry_from_str, bits_json.
  rewrite of_bits_of, decode_encode. destruct e. unfold entry_fields. cbn [mbind option_bind].
  unfold entry_of_fields. by rewrite !decode_encode.
Qed.
End codec.

(** *** A ledger with a signed genesis entry *)

Section witnesses.
#[local] Existing Instances prefix_sha toy_sig toy_sig_laws toy_did toy_did_laws raw_json bits_json bits_json_laws.
(** Values are their own text; every key finds the whole value. *)
Definition text_json : JsonAccess := {|
  json_from_str := λ s, Some (as_bytes s); json_get := λ v _, Some v; json_get_idx := λ _ _, None;
  json_as_str := λ v, Some (of_bytes v); json_as_u64 := λ _, None; json_to_string := of_bytes |}.
Definition text_build : JsonBuild := {|
  json_null := []; json_bool := λ b, as_bytes (if b then "true" else "false"); json_u64 := λ n, as_bytes (dec n);
  json_str := as_bytes; json_object := λ l, concat l.*2 |}.
Definition plain_wrap : SeedWrap := {|
  decrypt_wallet_seed := λ e, Ok (as_bytes (es_ciphertext_hex e)); encrypt_wallet_seed := λ _, Err "unused" |}.
#[local] Existing Instances text_json text_build plain_wrap.
Lemma toy_sized : SignatureSized.
Proof. intros sk m ctx sig [= <-]. simpl. intros [E _]%app_eq_nil. apply (f_equal length) in E. by rewrite arr_length in E. Qed.
#[local] Existing Instance toy_sized.

Definition ex_key_hex : string := hex_encode (arr_bytes (to_arr 32 (as_bytes "seed of thirty-two bytes exactly"))).
Definition ex_wallet : PqWallet := {|
  pw_version := 1; pw_algorithm := "ml_dsa65"; pw_key_id := key_id_for_public_key ex_key_hex;
  pw_public_key_hex := ex_key_hex; pw_secret_seed_hex := None;
  pw_encrypted_seed := Some {| es_schema := "v1"; es_nonce_hex := ""; es_ciphertext_hex := "seed of thirty-two bytes exactly" |};
  pw_created_at := 1 |}.
Definition ex_files : PqFiles := {| v1_wallet := Some (Ok ex_wallet); v2_wallet := None |}.
Lemma ex_wallet_ok : wallet_ok ex_files.
Proof. split; [|done]. intros w [= <-]. by vm_compute. Qed.
Definition ex_env : string → option string := λ _, None.

Definition ex_append (ev : LedgerEvent) (now : N) (file : LedgerFile) : LedgerFile :=
  (append_event ex_env ex_files ev None None now file).1.
Definition ex_lines : LedgerFile :=
  ex_append (EvSocialConnect "Git Hub" "token" (Some 50%N) "cli") 11
    (ex_append (EvGenesis "Completed" (as_bytes "sha256:ab")) 10 no_ledger).
Definition ex_entries : list IdentityLedgerEntry :=
  match load_entries ex_lines return list IdentityLedgerEntry with Ok es => es | Err _ => [] end.
Lemma ex_loaded : load_entries ex_lines = Ok ex_entries.
Proof. apply is_ok_match. by vm_compute. Qed.
Lemma ex_verified : verify_chain ex_env ex_files ex_entries = Ok tt.
Proof. by vm_compute. Qed.

Lemma ledger_signatures_strippable_witness :
  (∃ e, e ∈ ex_entries ∧ is_genesis e = false ∧ is_Some (le_signature e)) ∧
  verify_chain ex_env ex_files (unsigned <$> take 2 ex_entries) = Ok tt.
Proof.
  split; [|apply (ledger_signatures_strippable ex_env ex_files ex_entries 2), ex_verified].
  destruct (ex_entries !! 1) as [e|] eqn:He; [|vm_compute in He; discriminate].
  exists e. split; [by eapply list_elem_of_lookup_2|]. vm_compute in He. injection He as <-. split; [done|by eexists].
Defined.

Lemma ledger_tamper_evident_witness :
  length ex_entries = 2 ∧ (Forall2 same_record ex_entries (unsigned <$> ex_entries) ∨
    hash_collides (ledger_strings ex_entries ++ ledger_strings (unsigned <$> ex_entries))).
Proof.
  split; [by vm_compute|].
  apply (ledger_tamper_evident ex_env ex_files _ ex_env ex_files); [apply ex_verified|by vm_compute..].
Defined.

Definition ex_anonymous : IdentityLedgerEntry := anonymous_mode_entry true false false 12.
Lemma ledger_append_outcomes_witness :
  match append_entry_with_key ex_env ex_files ex_anonymous None None 12 ex_lines with
  | (lines', Ok e) => ∃ es, load_entries ex_lines = Ok es ∧ load_entries lines' = Ok (es ++ [e])
  | (_, Err _) => False
  end.
Proof.
  assert (is_ok (append_entry_with_key ex_env ex_files ex_anonymous None None 12 ex_lines).2 = true) as Hr by (by vm_compute).
  revert Hr. destruct (append_entry_with_key ex_env ex_files ex_anonymous None None 12 ex_lines) as [lines' [e|]] eqn:E; [|done].
  intros _. destruct (ledger_append_outcomes ex_env ex_files ex_anonymous None None 12 ex_lines lines' (Ok e) E)
    as (es & l & Hes & _ & _ & _ & Hl & _). exists es. split; [exact Hes|apply Hl; by vm_compute].
Defined.

Definition ex_bad_genesis : LedgerEvent := EvGenesis "completed" (as_bytes "md5:ab").
Definition ex_event : LedgerEvent := EvAnonymous true false false.
Lemma ledger_events_never_break_witness :
  (∃ es e, load_entries ex_lines = Ok es ∧
     load_entries (append_event ex_env ex_files ex_event None None 13 ex_lines).1 = Ok (es ++ [e])) ∧
  ((append_event ex_env ex_files ex_bad_genesis None None 13 ex_lines).1 = ex_lines ∧
   is_ok (append_event ex_env ex_files ex_bad_genesis None None 13 ex_lines).2 = false) ∧
  ∃ line, (append_event ex_env ex_files ex_event None (Some (IoWrite 3)) 13 ex_lines).1 = torn ex_lines 3 line ∧ line ≠ "".
Proof.
  split; [|split].
  - assert (is_ok (append_event ex_env ex_files ex_event None None 13 ex_lines).2 = true) as Hr by (by vm_compute).
    revert Hr. destruct (append_event ex_env ex_files ex_event None None 13 ex_lines) as [file' [e|x]] eqn:E; [|done].
    intros _. destruct (ledger_events_never_break ex_env ex_files _ None None 13 ex_lines file' _ ex_wallet_ok E)
      as (es & Hl & _ & _ & Ht). exists es, e. split; [exact Hl|]. apply Ht. by vm_compute.
  - assert (is_ok (append_event ex_env ex_files ex_bad_genesis None None 13 ex_lines).2 = false) as Hr by (by vm_compute).
    split; [|exact Hr]. revert Hr.
    destruct (append_event ex_env ex_files ex_bad_genesis None None 13 ex_lines) as [file' [e|x]] eqn:E;
      [intros Hr; discriminate Hr|intros _].
    by destruct (ledger_events_never_break ex_env ex_files _ None None 13 ex_lines file' _ ex_wallet_ok E)
      as [?|(? & ? & ? & _)].
  - assert (fl_tail (append_event ex_env ex_files ex_event None (Some (IoWrite 3)) 13 ex_lines).1 ≠ fl_tail ex_lines ∧
      is_ok (append_event ex_env ex_files ex_event None (Some (IoWrite 3)) 13 ex_lines).2 = false) as [Ht Hr]
      by (by split; vm_compute).
    revert Ht Hr.
    destruct (append_event ex_env ex_files ex_event None (Some (IoWrite 3)) 13 ex_lines) as [file' [e|x]] eqn:E; [done|].
    intros Ht _.
    destruct (ledger_events_never_break ex_env ex_files _ None (Some (IoWrite 3)) 13 ex_lines file' _ ex_wallet_ok E)
      as [Ef|(n & line & Hn & _ & Ef)].
    + exfalso. apply Ht. rewrite Ef. reflexivity.
    + injection Hn as <-. exists line. split; [exact Ef|]. intros E2. apply Ht. rewrite Ef, E2. by vm_compute.
Defined.

(** A line that was cut off blocks the ledger; a line that was written up to its end is
    read, but the next append, which succeeds, continues it, and then nothing can be read. *)
Definition ex_cut (n : nat) : LedgerFile := (append_event ex_env ex_files ex_event None (Some (IoWrite n)) 13 ex_lines).1.
Example cut_line_blocks :
  is_ok (load_entries (ex_cut 3)) = false ∧ is_ok (append_event ex_env ex_files ex_event None None 14 (ex_cut 3)).2 = false.
Proof. split; by vm_compute. Qed.
Definition ex_length : nat := str_len (default "" (last (fl_lines (ex_append ex_event 13 ex_lines)))).
Example unended_line_breaks :
  length <$> load_entries (ex_cut ex_length) = Ok 3 ∧
  is_ok (append_event ex_env ex_files ex_event None None 14 (ex_cut ex_length)).2 = true ∧
  is_ok (load_entries (append_event ex_env ex_files ex_event None None 14 (ex_cut ex_length)).1) = false.
Proof. split_and!; by vm_compute. Qed.

Lemma projection_exact_witness :
  match project_ledger_status ex_env ex_files 20 ex_lines with
  | Ok pr => lp_fully_signed pr = true ∧
      ∃ es, load_entries ex_lines = Ok es ∧ ∀ s, s ∈ lp_providers pr → shows 20 (sp_provider s) es s
  | Err _ => False
  end.
Proof.
  assert (match project_ledger_status ex_env ex_files 20 ex_lines with Ok pr => lp_fully_signed pr | Err _ => false end
          = true) as Hr by (by vm_compute).
  revert Hr. destruct (project_ledger_status ex_env ex_files 20 ex_lines) as [pr|] eqn:E; [|done].
  intros Hr. split; [exact Hr|]. destruct (load_entries ex_lines) as [es|] eqn:Hes.
  - exists es. split; [reflexivity|].
    exact (proj2 (proj2 (proj2 (projection_exact ex_env ex_files 20 ex_lines es pr Hes E)))).
  - apply (f_equal is_ok) in Hes. vm_compute in Hes. discriminate.
Defined.
End witnesses.
