(* ===== verification/Envelope.v ===== *)
(** * Proof-carrying envelopes: [src/src/pod/envelope.rs]

    An envelope bundles a typed value with the opening that [query] made for its cell.
    [verify_locally] looks at the opening and at the references to other envelopes;
    [verify_provenance_dag] walks those references through a resolver.  The JSON of the
    hashed payload comes from [serde_json], a class here; a resolver is a function. *)
From S2P Require Export Protocol.

(** ** Data *)

(** [halo::attest::AttestationResult], only carried along. *)
Record AnonymousMembershipStep := { sibling_hash : string; sibling_is_left : bool }.
Record AnonymousMembershipProof := {
  membership_root : string;
  am_leaf_hash : string;
  am_tree_size : N;
  am_leaf_index : N;
  am_steps : list AnonymousMembershipStep
}.
Record AttestationResult := {
  at_session_id : option string;
  at_blinded_session_ref : option string;
  at_merkle_root : string;
  at_event_count : N;
  at_content_hashes : list string;
  at_witness_algorithm : string;
  at_attestation_digest : string;
  at_timestamp : N;
  at_anonymous : bool;
  at_proof_type : string;
  at_anonymous_membership_proof : option AnonymousMembershipProof;
  at_groth16_proof : option string;
  at_groth16_public_inputs : option string;
  at_tx_hash : option string;
  at_contract_address : option string;
  at_block_number : option N;
  at_chain : option string
}.

Record EnvelopeRef := {
  envelope_hash : arr 32;
  ref_key : option string;
  ref_commit_height : option N
}.

Section envelope_data.
Context `{Sha2, Ristretto, KzgLib, SigLib, SerdeJson, Libm}.

Record ProofEnvelope := {
  env_version : N;
  env_key : string;
  env_value : TypedValue;
  env_backend : VcBackend;
  env_proof : QueryProof;
  env_state_root : NodeHash;
  env_commit_height : N;
  env_witness_sigs : list (string * string);
  env_attestation : option AttestationResult;
  env_author_puf : option (arr 32);
  env_lean_proof_ref : option string;
  upstream_envelopes : list EnvelopeRef;
  env_grant_token : option string;
  env_created_at : N
}.

Record EnvelopeVerification := {
  version_supported : bool;
  proof_valid : bool;
  backend_consistent : bool;
  witness_count : nat;
  upstream_refs_valid : bool;
  upstream_ref_count : nat;
  soft_verified : bool;
  accepted : bool;
  rejection_reason : option string
}.

(** What [provenance_hash] hashes. *)
Record EnvelopeHashInput := {
  hi_domain : string;
  hi_version : N;
  hi_key : string;
  hi_value : TypedValue;
  hi_backend : VcBackend;
  hi_proof : QueryProof;
  hi_state_root : NodeHash;
  hi_commit_height : N;
  hi_witness_sigs : list (string * string);
  hi_attestation : option AttestationResult;
  hi_author_puf : option (arr 32);
  hi_lean_proof_ref : option string;
  hi_upstream_hashes : list string
}.

Record ProvenanceDagVerification := {
  dag_root_hash : string;
  dag_root_accepted : bool;
  dag_visited_nodes : nat;
  dag_upstream_edges : nat;
  dag_max_depth_reached : nat;
  dag_missing_refs : nat;
  dag_hash_mismatches : nat;
  dag_invalid_nodes : nat;
  dag_cycle_detected : bool;
  dag_depth_limit_exceeded : bool;
  dag_nodes_limit_exceeded : bool;
  dag_accepted : bool
}.
End envelope_data.

Record ProvenanceDagVerifyOptions := {
  max_depth : nat;
  max_nodes : N;
  fail_fast_on_hash_mismatch : bool
}.
Definition dag_options_default : ProvenanceDagVerifyOptions :=
  {| max_depth := 64; max_nodes := 10000%N; fail_fast_on_hash_mismatch := false |}.

Definition ENVELOPE_VERSION : N := 1.
Definition PROVENANCE_HASH_DOMAIN : string := "nucleusdb.pod.provenance.envelope.v1".

(** [serde_json::to_vec] of the payload; [None] is an [Err]. *)
Class EnvelopeJson `{SerdeJson} := { hash_input_to_vec : EnvelopeHashInput → option bytes }.

(** ** References *)

(** [Option]'s derived order: [None] first. *)
Definition opt_le {A} (le : A → A → Prop) (x y : option A) : Prop :=
  match x, y with None, _ => True | Some _, None => False | Some a, Some b => le a b end.
#[export] Instance opt_le_dec {A} (le : A → A → Prop) `{!RelDecision le} : RelDecision (opt_le le).
Proof. intros [x|] [y|]; simpl; apply _. Defined.

(** Lexicographic by hash, key, height. *)
Definition ref_le (a b : EnvelopeRef) : Prop :=
  if decide (envelope_hash a = envelope_hash b) then
    if decide (ref_key a = ref_key b) then opt_le N.le (ref_commit_height a) (ref_commit_height b)
    else opt_le String.le (ref_key a) (ref_key b)
  else hash_le (envelope_hash a) (envelope_hash b).
#[export] Instance ref_le_dec : RelDecision ref_le.
Proof. intros a b. unfold ref_le. destruct (decide _); [destruct (decide _)|]; apply _. Defined.

Definition canonical_upstream_refs (references : list EnvelopeRef) : list EnvelopeRef :=
  merge_sort ref_le references.
Definition canonical_upstream_hashes (references : list EnvelopeRef) : list string :=
  (λ h, hex_encode (arr_bytes h)) <$> merge_sort hash_le (envelope_hash <$> references).

Definition zero_hash32 : arr 32 := to_arr 32 [].
Fixpoint validate_refs_from (seen : list (arr 32)) (references : list EnvelopeRef) : result string () :=
  match references with
  | [] => Ok tt
  | r :: references' =>
      _ ← throw_if (bool_decide (envelope_hash r = zero_hash32)) "upstream envelope reference contains zero hash";
      _ ← throw_if (bool_decide (envelope_hash r ∈ seen))
            ("duplicate upstream envelope reference " +:+ hex_encode (arr_bytes (envelope_hash r)));
      validate_refs_from (envelope_hash r :: seen) references'
  end.
Definition validate_upstream_refs (references : list EnvelopeRef) : result string () :=
  validate_refs_from [] references.

Section envelope.
Context `{Sha2, Ristretto, KzgLib, SigLib, SJ : SerdeJson, Libm, EJ : !EnvelopeJson}.

(** ** Building *)

(** The inner [None] is a missing key, [Err] the panic of [query]. *)
Definition from_query (db : NucleusDb) (key_name : string) (key_index : nat) (value : TypedValue) (now : N)
  : result CommitError (option ProofEnvelope) :=
  q ← query db key_index;
  mret ('(_, proof, root) ← q;
        Some {|
          env_version := ENVELOPE_VERSION; env_key := key_name; env_value := value;
          env_backend := backend db; env_proof := proof; env_state_root := root;
          env_commit_height := N.of_nat (length (db_entries db));
          env_witness_sigs := match last (db_entries db) with Some e => witness_sigs e | None => [] end;
          env_attestation := None; env_author_puf := None; env_lean_proof_ref := None;
          upstream_envelopes := []; env_grant_token := None; env_created_at := now |}).

Definition hash_input (e : ProofEnvelope) : EnvelopeHashInput := {|
  hi_domain := PROVENANCE_HASH_DOMAIN; hi_version := env_version e; hi_key := env_key e;
  hi_value := env_value e; hi_backend := env_backend e; hi_proof := env_proof e;
  hi_state_root := env_state_root e; hi_commit_height := env_commit_height e;
  hi_witness_sigs := env_witness_sigs e; hi_attestation := env_attestation e;
  hi_author_puf := env_author_puf e; hi_lean_proof_ref := env_lean_proof_ref e;
  hi_upstream_hashes := canonical_upstream_hashes (upstream_envelopes e) |}.
Definition json_error : string := "serde_json error".
Definition provenance_hash (e : ProofEnvelope) : result string (arr 32) :=
  encoded ← ok_or (hash_input_to_vec (hash_input e)) json_error;
  mret (sha256 (as_bytes PROVENANCE_HASH_DOMAIN ++ [x00] ++ encoded)).
Definition provenance_hash_hex (e : ProofEnvelope) : result string string :=
  h ← provenance_hash e; mret (hex_encode (arr_bytes h)).
Definition to_envelope_ref (e : ProofEnvelope) : result string EnvelopeRef :=
  h ← provenance_hash e;
  mret {| envelope_hash := h; ref_key := Some (env_key e); ref_commit_height := Some (env_commit_height e) |}.

Definition set_upstream (e : ProofEnvelope) (refs : list EnvelopeRef) : ProofEnvelope := {|
  env_version := env_version e; env_key := env_key e; env_value := env_value e;
  env_backend := env_backend e; env_proof := env_proof e; env_state_root := env_state_root e;
  env_commit_height := env_commit_height e; env_witness_sigs := env_witness_sigs e;
  env_attestation := env_attestation e; env_author_puf := env_author_puf e;
  env_lean_proof_ref := env_lean_proof_ref e; upstream_envelopes := refs;
  env_grant_token := env_grant_token e; env_created_at := env_created_at e |}.
Definition add_upstream_ref (e : ProofEnvelope) (r : EnvelopeRef) : ProofEnvelope :=
  if bool_decide (envelope_hash r ∈ envelope_hash <$> upstream_envelopes e) then e
  else set_upstream e (canonical_upstream_refs (upstream_envelopes e ++ [r])).

(** ** Local verification *)

Definition backend_matches (b : VcBackend) (p : QueryProof) : bool :=
  match b, p with
  | BkIpa, QpIpa _ | BkKzg, QpKzg _ | BkBinaryMerkle, QpBinaryMerkle _ => true
  | _, _ => false
  end.

(** The opening alone, and whether the check is only a plausibility check. *)
Definition check_proof (p : QueryProof) (root : NodeHash) : bool * bool :=
  match p with
  | QpBinaryMerkle p =>
      if bp_tree_size p =? 0 then (bool_decide (root = merkle_tree_hash []), false)
      else (verify_inclusion_proof
              {| ip_leaf_index := N.of_nat (bp_index p); ip_tree_size := N.of_nat (bp_tree_size p);
                 ip_leaf_hash := bp_leaf_hash p; ip_path := bp_path p |} root, false)
  | QpIpa p =>
      let c := ipa_commit (ipa_vector p) in
      (bool_decide (ipa_digest c = root) && ipa_verify c (ipa_index p) (ipa_value p) p, false)
  | QpKzg p =>
      ((length (kp_proof_encoded p) =? 48) && negb (forallb (λ b, bool_decide (b = x00)) (kp_proof_encoded p)),
       true)
  end.

Definition verify_locally (e : ProofEnvelope) : EnvelopeVerification :=
  let refs := validate_upstream_refs (upstream_envelopes e) in
  let verdict version backend_ok pv soft acc reason := {|
    version_supported := version; proof_valid := pv; backend_consistent := backend_ok;
    witness_count := length (env_witness_sigs e); upstream_refs_valid := is_ok refs;
    upstream_ref_count := length (upstream_envelopes e); soft_verified := soft; accepted := acc;
    rejection_reason := reason |} in
  if negb (env_version e =? ENVELOPE_VERSION)%N then
    verdict false false false false false (Some ("unsupported envelope version " +:+ dec (env_version e)))
  else if negb (backend_matches (env_backend e) (env_proof e)) then
    verdict true false false false false (Some "backend tag does not match proof variant")
  else
    let '(pv, soft) := check_proof (env_proof e) (env_state_root e) in
    verdict true true pv soft (pv && is_ok refs)
      (if negb pv then
         Some (if soft then "kzg soft verification failed basic encoding checks"
               else "cryptographic proof verification failed")
       else match refs with Err m => Some m | Ok _ => None end).

(** ** The provenance graph *)

Record DagWalkState := {
  upstream_edges : nat;
  max_depth_reached : nat;
  missing_refs : nat;
  hash_mismatches : nat;
  invalid_nodes : nat;
  cycle_detected : bool;
  depth_limit_exceeded : bool;
  nodes_limit_exceeded : bool;
  stop_walk : bool
}.

(** Updates of the walk state. *)
Definition add_edges (n : nat) (s : DagWalkState) : DagWalkState := {|
  upstream_edges := upstream_edges s + n; max_depth_reached := max_depth_reached s; missing_refs :=
  missing_refs s; hash_mismatches := hash_mismatches s; invalid_nodes := invalid_nodes s; cycle_detected :=
  cycle_detected s; depth_limit_exceeded := depth_limit_exceeded s; nodes_limit_exceeded :=
  nodes_limit_exceeded s; stop_walk := stop_walk s |}.
Definition reach_depth (d : nat) (s : DagWalkState) : DagWalkState := {|
  upstream_edges := upstream_edges s; max_depth_reached := max_depth_reached s `max` d; missing_refs :=
  missing_refs s; hash_mismatches := hash_mismatches s; invalid_nodes := invalid_nodes s; cycle_detected :=
  cycle_detected s; depth_limit_exceeded := depth_limit_exceeded s; nodes_limit_exceeded :=
  nodes_limit_exceeded s; stop_walk := stop_walk s |}.
Definition add_missing (s : DagWalkState) : DagWalkState := {|
  upstream_edges := upstream_edges s; max_depth_reached := max_depth_reached s; missing_refs :=
  missing_refs s + 1; hash_mismatches := hash_mismatches s; invalid_nodes := invalid_nodes s;
  cycle_detected := cycle_detected s; depth_limit_exceeded := depth_limit_exceeded s; nodes_limit_exceeded
  := nodes_limit_exceeded s; stop_walk := stop_walk s |}.
Definition add_mismatch (s : DagWalkState) : DagWalkState := {|
  upstream_edges := upstream_edges s; max_depth_reached := max_depth_reached s; missing_refs :=
  missing_refs s; hash_mismatches := hash_mismatches s + 1; invalid_nodes := invalid_nodes s;
  cycle_detected := cycle_detected s; depth_limit_exceeded := depth_limit_exceeded s; nodes_limit_exceeded
  := nodes_limit_exceeded s; stop_walk := stop_walk s |}.
Definition add_invalid (s : DagWalkState) : DagWalkState := {|
  upstream_edges := upstream_edges s; max_depth_reached := max_depth_reached s; missing_refs :=
  missing_refs s; hash_mismatches := hash_mismatches s; invalid_nodes := invalid_nodes s + 1;
  cycle_detected := cycle_detected s; depth_limit_exceeded := depth_limit_exceeded s; nodes_limit_exceeded
  := nodes_limit_exceeded s; stop_walk := stop_walk s |}.
Definition mark_cycle (s : DagWalkState) : DagWalkState := {|
  upstream_edges := upstream_edges s; max_depth_reached := max_depth_reached s; missing_refs :=
  missing_refs s; hash_mismatches := hash_mismatches s; invalid_nodes := invalid_nodes s; cycle_detected :=
  true; depth_limit_exceeded := depth_limit_exceeded s; nodes_limit_exceeded := nodes_limit_exceeded s;
  stop_walk := stop_walk s |}.
Definition hit_depth_limit (s : DagWalkState) : DagWalkState := {|
  upstream_edges := upstream_edges s; max_depth_reached := max_depth_reached s; missing_refs :=
  missing_refs s; hash_mismatches := hash_mismatches s; invalid_nodes := invalid_nodes s; cycle_detected :=
  cycle_detected s; depth_limit_exceeded := true; nodes_limit_exceeded := nodes_limit_exceeded s; stop_walk
  := true |}.
Definition hit_nodes_limit (s : DagWalkState) : DagWalkState := {|
  upstream_edges := upstream_edges s; max_depth_reached := max_depth_reached s; missing_refs :=
  missing_refs s; hash_mismatches := hash_mismatches s; invalid_nodes := invalid_nodes s; cycle_detected :=
  cycle_detected s; depth_limit_exceeded := depth_limit_exceeded s; nodes_limit_exceeded := true; stop_walk
  := true |}.
Definition halt (s : DagWalkState) : DagWalkState := {|
  upstream_edges := upstream_edges s; max_depth_reached := max_depth_reached s; missing_refs :=
  missing_refs s; hash_mismatches := hash_mismatches s; invalid_nodes := invalid_nodes s; cycle_detected :=
  cycle_detected s; depth_limit_exceeded := depth_limit_exceeded s; nodes_limit_exceeded :=
  nodes_limit_exceeded s; stop_walk := true |}.

(** The resolver of the caller, the visited set in the order of insertion. *)
Definition Resolver : Type := arr 32 → option ProofEnvelope.
Definition Walk : Type := list (arr 32) * DagWalkState.

(** [for edge in edges { if stop { break } .. }]. *)
Definition walk_edges (walk : arr 32 → Walk → result string Walk) : list EnvelopeRef → Walk → result string Walk :=
  fix go edges w :=
    match edges with
    | [] => Ok w
    | e :: edges' => if stop_walk w.2 then Ok w else w' ← walk (envelope_hash e) w; go edges' w'
    end.

(** [walk_provenance_ref] at depth [max_depth + 1 - remaining]: the depth limit makes the
    recursion structural. *)
Fixpoint walk_provenance_ref (options : ProvenanceDagVerifyOptions) (resolve : Resolver) (remaining : nat)
    (path : list (arr 32)) (expected_hash : arr 32) (w : Walk) : result string Walk :=
  let '(visited, st) := w in
  if stop_walk st then Ok (visited, st)
  else
    match remaining with
    | O => Ok (visited, hit_depth_limit st)
    | S remaining' =>
        let st := reach_depth (max_depth options - remaining') st in
        if bool_decide (expected_hash ∈ path) then Ok (visited, mark_cycle st)
        else if bool_decide (expected_hash ∈ visited) then Ok (visited, st)
        else
          let visited := expected_hash :: visited in
          if (max_nodes options <? N.of_nat (length visited))%N then Ok (visited, hit_nodes_limit st)
          else
            match resolve expected_hash with
            | None => Ok (visited, add_missing st)
            | Some e =>
                actual_hash ← provenance_hash e;
                let mismatch := negb (bool_decide (actual_hash = expected_hash)) in
                let st := if mismatch then add_mismatch st else st in
                if mismatch && fail_fast_on_hash_mismatch options then Ok (visited, halt st)
                else
                  let st := if accepted (verify_locally e) then st else add_invalid st in
                  let edges := canonical_upstream_refs (upstream_envelopes e) in
                  walk_edges (walk_provenance_ref options resolve remaining' (expected_hash :: path)) edges
                    (visited, add_edges (length edges) st)
            end
    end.

Definition verify_provenance_dag_with_options (e : ProofEnvelope) (resolve : Resolver)
    (options : ProvenanceDagVerifyOptions) : result string ProvenanceDagVerification :=
  root_hash ← provenance_hash e;
  let root_accepted := accepted (verify_locally e) in
  let st := {| upstream_edges := length (upstream_envelopes e); max_depth_reached := 0; missing_refs := 0;
               hash_mismatches := 0; invalid_nodes := 0; cycle_detected := false;
               depth_limit_exceeded := false; nodes_limit_exceeded := false; stop_walk := false |} in
  '(visited, st) ← walk_edges (walk_provenance_ref options resolve (max_depth options) [root_hash])
                     (canonical_upstream_refs (upstream_envelopes e)) ([], st);
  mret {| dag_root_hash := hex_encode (arr_bytes root_hash); dag_root_accepted := root_accepted;
          dag_visited_nodes := length visited + 1; dag_upstream_edges := upstream_edges st;
          dag_max_depth_reached := max_depth_reached st; dag_missing_refs := missing_refs st;
          dag_hash_mismatches := hash_mismatches st; dag_invalid_nodes := invalid_nodes st;
          dag_cycle_detected := cycle_detected st; dag_depth_limit_exceeded := depth_limit_exceeded st;
          dag_nodes_limit_exceeded := nodes_limit_exceeded st;
          dag_accepted := root_accepted && (missing_refs st =? 0) && (hash_mismatches st =? 0) &&
                          (invalid_nodes st =? 0) && negb (cycle_detected st) &&
                          negb (depth_limit_exceeded st) && negb (nodes_limit_exceeded st) |}.
Definition verify_provenance_dag (e : ProofEnvelope) (resolve : Resolver) (depth : nat)
  : result string ProvenanceDagVerification :=
  verify_provenance_dag_with_options e resolve
    {| max_depth := depth; max_nodes := max_nodes dag_options_default;
       fail_fast_on_hash_mismatch := fail_fast_on_hash_mismatch dag_options_default |}.
End envelope.
