(* ===== verification/EnvelopeSpec.v ===== *)
(** * Properties of the envelopes of [Envelope.v]

    The provenance walk accepts exactly the graphs in which every envelope that can be
    reached exists, has the hash it is referred to by, is accepted locally and lies on no
    cycle (within the limits on depth and nodes).  Honest envelopes are accepted; but an
    accepted envelope may carry any value. *)
From S2P Require Export Envelope ProtocolSpec.

Section dag.
Context `{Sha2, Ristretto, KzgLib, SigLib, SJ : SerdeJson, Libm, EJ : !EnvelopeJson}.
Context (options : ProvenanceDagVerifyOptions) (resolve : Resolver).

(** ** The graph *)

Definition succ (x y : arr 32) : Prop :=
  ∃ e, resolve x = Some e ∧ y ∈ envelope_hash <$> upstream_envelopes e.
Definition node_ok (x : arr 32) : Prop :=
  ∃ e, resolve x = Some e ∧ provenance_hash e = Ok x ∧ accepted (verify_locally e) = true.
Definition dag_reachable (e : ProofEnvelope) (h : arr 32) : Prop :=
  ∃ y, y ∈ envelope_hash <$> upstream_envelopes e ∧ rtc succ y h.

(** No defect was found; the two limits apart. *)
Definition faultless (s : DagWalkState) : Prop :=
  missing_refs s = 0 ∧ hash_mismatches s = 0 ∧ invalid_nodes s = 0 ∧ cycle_detected s = false.
Definition within_limits (s : DagWalkState) : Prop :=
  depth_limit_exceeded s = false ∧ nodes_limit_exceeded s = false.
Definition clean (s : DagWalkState) : Prop := faultless s ∧ within_limits s.
(** The walk stops only when something is wrong. *)
Definition stop_ok (s : DagWalkState) : Prop := stop_walk s = true → ¬ clean s.

Lemma walk_edges_ind (R : Walk → Walk → Prop) walk es w w' :
  (∀ v, R v v) → (∀ u v x, R u v → R v x → R u x) →
  (∀ h v v', walk h v = Ok v' → R v v') → walk_edges walk es w = Ok w' → R w w'.
Proof using Type.
  intros Hr Ht Hw. revert w. induction es as [|e es IH]; intros w; cbn [walk_edges]; fold (walk_edges walk).
  - intros [= <-]. apply Hr.
  - destruct (stop_walk w.2); [intros [= <-]; apply Hr|].
    intros (w1 & Hw1 & Hw2)%result_bind_ok. eapply Ht; [by eapply Hw|by apply IH].
Qed.

(** Defects are never forgotten. *)
Definition dirt_kept (w w' : Walk) : Prop :=
  (clean w'.2 → clean w.2) ∧ (stop_ok w.2 → stop_ok w'.2).
Lemma dirt_kept_trans u v x : dirt_kept u v → dirt_kept v x → dirt_kept u x.
Proof using Type. unfold dirt_kept. naive_solver. Qed.

Ltac dirt := unfold dirt_kept, stop_ok, clean, faultless, within_limits; simpl; try (intuition (congruence || lia)).

Lemma walk_dirt remaining path h w w' :
  walk_provenance_ref options resolve remaining path h w = Ok w' → dirt_kept w w'.
Proof using Type.
  revert path h w w'. induction remaining as [|remaining IH]; intros path h [vis st] w';
    cbn [walk_provenance_ref]; (destruct (stop_walk st) eqn:Hst; [intros [= <-]; by split|]).
  { intros [= <-]. dirt. }
  case_bool_decide; [intros [= <-]; dirt|]. case_bool_decide; [intros [= <-]; dirt|].
  destruct (_ <? _)%N; [intros [= <-]; dirt|].
  destruct (resolve h) as [e|]; [|intros [= <-]; dirt].
  intros (actual & _ & Hw)%result_bind_ok.
  destruct (bool_decide (actual = h)); cbn [negb andb] in Hw.
  - eapply dirt_kept_trans; [|eapply (walk_edges_ind dirt_kept); [by split|apply dirt_kept_trans|intros; by eapply IH|exact Hw]].
    destruct (accepted _); dirt.
  - destruct (fail_fast_on_hash_mismatch options); [injection Hw as <-; dirt|].
    eapply dirt_kept_trans; [|eapply (walk_edges_ind dirt_kept); [by split|apply dirt_kept_trans|intros; by eapply IH|exact Hw]].
    destruct (accepted _); dirt.
Qed.

(** ** Soundness *)

(** Finished nodes: visited, and not on the current path. *)
Definition finished (vis path : list (arr 32)) (x : arr 32) : Prop := x ∈ vis ∧ x ∉ path.
Record walk_inv (vis path : list (arr 32)) : Prop := {
  wi_closed x y : finished vis path x → succ x y → finished vis path y;
  wi_good x : finished vis path x → node_ok x;
  wi_acyclic x : finished vis path x → ¬ tc succ x x
}.

Lemma tc_first (R : arr 32 → arr 32 → Prop) x y : tc R x y → ∃ z, R x z ∧ rtc R z y.
Proof using Type. destruct 1 as [x y|x y z Hxy Hyz]; [eauto using rtc_refl|]. exists y. eauto using tc_rtc. Qed.

Lemma finish_node vis path h :
  h ∈ vis → h ∉ path → node_ok h → (∀ y, succ h y → finished vis (h :: path) y) →
  walk_inv vis (h :: path) → walk_inv vis path ∧ finished vis path h.
Proof using Type.
  intros Hv Hp Hok Hs [Hc Hg Ha]. split; [|done].
  assert (∀ x, finished vis path x → x = h ∨ finished vis (h :: path) x) as Hcase.
  { intros x [Hx Hxp]. destruct (decide (x = h)); [by left|right]. split; [done|]. by intros [|]%elem_of_cons. }
  assert (∀ x, finished vis (h :: path) x → finished vis path x) as Hweak.
  { intros x [Hx Hxp]. split; [done|]. intros Hin. apply Hxp. by right. }
  split.
  - intros x y [->|Hx]%Hcase Hxy; apply Hweak; eauto.
  - intros x [->|Hx]%Hcase; eauto.
  - intros x [->|Hx]%Hcase; [|eauto]. intros (z & Hz & Hr)%tc_first.
    apply Hs in Hz. apply (rtc_closed succ _ _ _ Hc Hz) in Hr as [_ Hr]. apply Hr. by left.
Qed.

Lemma start_node vis path h :
  h ∉ vis → walk_inv vis path → walk_inv (h :: vis) (h :: path).
Proof using Type.
  intros Hv [Hc Hg Ha].
  assert (∀ x, finished (h :: vis) (h :: path) x ↔ finished vis path x) as Heq.
  { intros x. unfold finished. rewrite !elem_of_cons. split; [naive_solver|].
    intros [Hx Hp]. split; [by right|]. intros [->|]; done. }
  split; setoid_rewrite Heq; eauto.
Qed.

(** What a walk from [h] guarantees when nothing was found wrong. *)
Definition walk_sound (walk : arr 32 → Walk → result string Walk) (path : list (arr 32)) : Prop :=
  ∀ h w w', walk h w = Ok w' → stop_ok w.2 → clean w'.2 → walk_inv w.1 path →
  walk_inv w'.1 path ∧ finished w'.1 path h ∧ w.1 ⊆ w'.1.

Lemma walk_edges_sound walk path es w w' :
  (∀ h w w', walk h w = Ok w' → dirt_kept w w') → walk_sound walk path →
  walk_edges walk es w = Ok w' → stop_ok w.2 → clean w'.2 → walk_inv w.1 path →
  walk_inv w'.1 path ∧ (∀ e, e ∈ es → finished w'.1 path (envelope_hash e)) ∧ w.1 ⊆ w'.1.
Proof using Type.
  intros Hd Hw. revert w. induction es as [|e es IH]; intros w; cbn [walk_edges]; fold (walk_edges walk).
  { intros [= <-] _ _ Hi. split; [done|]. split; [|done]. by intros e He%not_elem_of_nil. }
  destruct (stop_walk w.2) eqn:Hst; [intros [= <-] Hs Hcl; by destruct (Hs Hst)|].
  intros (w1 & Hw1 & Hw2)%result_bind_ok Hs Hcl Hi.
  assert (dirt_kept w1 w') as [Hcl1 _].
  { eapply (walk_edges_ind dirt_kept); [by split|apply dirt_kept_trans|exact Hd|exact Hw2]. }
  specialize (Hcl1 Hcl). destruct (Hw _ _ _ Hw1 Hs Hcl1 Hi) as (Hi1 & Hf1 & Hsub1).
  destruct (IH _ Hw2 (proj2 (Hd _ _ _ Hw1) Hs) Hcl Hi1) as (Hi2 & Hf2 & Hsub2).
  split; [done|]. split; [|by etrans]. intros e' [->|He']%elem_of_cons; [|by apply Hf2].
  destruct Hf1 as [Hin Hp]. split; [by apply Hsub2|done].
Qed.

Lemma elem_of_canonical y refs : y ∈ envelope_hash <$> canonical_upstream_refs refs ↔ y ∈ envelope_hash <$> refs.
Proof using Type. unfold canonical_upstream_refs. by rewrite merge_sort_Permutation. Qed.

Lemma edges_dirt remaining path es w w' :
  walk_edges (walk_provenance_ref options resolve remaining path) es w = Ok w' → dirt_kept w w'.
Proof using Type.
  apply walk_edges_ind; [by split|apply dirt_kept_trans|apply walk_dirt].
Qed.

(** The walk below a node that resolves. *)
Lemma visit_sound remaining path h e vis s w' :
  walk_sound (walk_provenance_ref options resolve remaining (h :: path)) (h :: path) →
  h ∉ path → h ∉ vis → resolve h = Some e → walk_inv vis path →
  walk_edges (walk_provenance_ref options resolve remaining (h :: path))
    (canonical_upstream_refs (upstream_envelopes e)) (h :: vis, s) = Ok w' →
  stop_ok s → clean w'.2 → (clean s → node_ok h) →
  walk_inv w'.1 path ∧ finished w'.1 path h ∧ vis ⊆ w'.1.
Proof using Type.
  intros Hw Hp Hv He Hi Hws Hss Hcl Hok. pose proof (edges_dirt _ _ _ _ _ Hws) as [Hcs _].
  destruct (walk_edges_sound _ _ _ _ _ (walk_dirt remaining (h :: path)) Hw Hws Hss Hcl
    (start_node _ _ _ Hv Hi)) as (Hi' & Hf & Hsub). simpl in Hsub.
  assert (h ∈ w'.1) as Hin by (apply Hsub; left).
  destruct (finish_node w'.1 path h Hin Hp (Hok (Hcs Hcl))) as [Hi2 Hf2]; [|done|].
  { intros y (e' & He' & Hy). rewrite He in He'. injection He' as <-.
    apply elem_of_canonical, list_elem_of_fmap in Hy as (r & -> & Hr). by apply Hf. }
  split; [done|]. split; [done|]. intros x Hx. apply Hsub. by right.
Qed.

Lemma walk_ref_sound remaining path : walk_sound (walk_provenance_ref options resolve remaining path) path.
Proof using Type.
  revert path. induction remaining as [|remaining IH]; intros path h [vis st] w';
    cbn [walk_provenance_ref]; (destruct (stop_walk st) eqn:Hst; [intros [= <-] Hs Hcl; by destruct (Hs Hst)|]).
  { intros [= <-] _ [_ [? _]]. done. }
  case_bool_decide as Hp; [intros [= <-] _ [(? & ? & ? & ?) _]; done|].
  case_bool_decide as Hv; [intros [= <-] _ _ Hi; by split|].
  destruct (_ <? _)%N; [intros [= <-] _ [_ [_ ?]]; done|].
  destruct (resolve h) as [e|] eqn:He; [|intros [= <-] _ [(Hm & _) _]; simpl in Hm; lia].
  intros (actual & Hact & Hw)%result_bind_ok Hs Hcl Hi. simpl in Hi, Hs.
  destruct (bool_decide (actual = h)) eqn:Hah; cbn [negb andb] in Hw.
  - bool_hyps. subst actual. eapply visit_sound; [apply IH|done..|exact Hw| |done|].
    + destruct (accepted _); dirt.
    + destruct (accepted (verify_locally e)) eqn:Hacc; [by exists e|].
      intros [(_ & _ & Hb & _) _]. simpl in Hb. lia.
  - destruct (fail_fast_on_hash_mismatch options).
    + injection Hw as <-. destruct Hcl as [(_ & Hb & _) _]. simpl in Hb. lia.
    + pose proof (edges_dirt _ _ _ _ _ Hw) as [Hcs _]. specialize (Hcs Hcl).
      destruct Hcs as [(_ & Hb & _) _]. destruct (accepted (verify_locally e)); simpl in Hb; lia.
Qed.

(** ** Completeness *)

Definition sound_below (h : arr 32) : Prop := ∀ x, rtc succ h x → node_ok x ∧ ¬ tc succ x x.

Lemma walk_edges_faultless walk es w w' :
  (∀ h w w', h ∈ envelope_hash <$> es → walk h w = Ok w' → faultless w.2 → faultless w'.2) →
  walk_edges walk es w = Ok w' → faultless w.2 → faultless w'.2.
Proof using Type.
  revert w. induction es as [|e es IH]; intros w Hw; cbn [walk_edges]; fold (walk_edges walk); [by intros [= <-]|].
  destruct (stop_walk w.2); [by intros [= <-]|]. intros (w1 & Hw1 & Hw2)%result_bind_ok Hf.
  eapply IH; [|exact Hw2|].
  - intros. eapply Hw; [|done..]. by right.
  - eapply Hw; [|exact Hw1|done]. by left.
Qed.

Lemma walk_ref_faultless remaining path h w w' :
  walk_provenance_ref options resolve remaining path h w = Ok w' →
  sound_below h → (∀ p, p ∈ path → ¬ rtc succ h p) → faultless w.2 → faultless w'.2.
Proof using Type.
  revert path h w w'. induction remaining as [|remaining IH]; intros path h [vis st] w';
    cbn [walk_provenance_ref]; (destruct (stop_walk st); [by intros [= <-] ? ?|]); [by intros [= <-] ? ?|].
  case_bool_decide as Hp; [intros [= <-] _ Hn; by destruct (Hn h Hp); apply rtc_refl|].
  case_bool_decide; [by intros [= <-] ? ?|]. destruct (_ <? _)%N; [by intros [= <-] ? ?|].
  intros Hw Hb Hn Hf. destruct (Hb h) as [(e & He & Hh & Ha) Hc]; [apply rtc_refl|].
  rewrite He, Hh in Hw. cbn [mbind result_bind] in Hw. rewrite bool_decide_eq_true_2 in Hw by done.
  cbn [negb andb] in Hw. rewrite Ha in Hw. eapply walk_edges_faultless; [|exact Hw|exact Hf].
  intros y v v' Hy Hwy. rewrite elem_of_canonical in Hy. assert (succ h y) as Hhy by (by exists e).
  eapply IH; [exact Hwy|..].
  - intros x Hx. apply Hb. by eapply rtc_l.
  - intros p [->|Hp']%elem_of_cons Hyp; [|exfalso; apply (Hn p Hp'); by eapply rtc_l].
    apply Hc. eapply tc_rtc_r; [by apply tc_once|done].
Qed.

(** ** Limits *)

(** What a walk from [h] adds to the visited nodes. *)
Definition grown (near : arr 32 → Prop) (w w' : Walk) : Prop :=
  (∃ new, w'.1 = new ++ w.1 ∧ ∀ x, x ∈ new → near x) ∧ (NoDup w.1 → NoDup w'.1) ∧
  (clean w'.2 → (N.of_nat (length w.1) ≤ max_nodes options)%N → (N.of_nat (length w'.1) ≤ max_nodes options)%N).
Definition within (n : nat) (h x : arr 32) : Prop := ∃ k, k < n ∧ nsteps succ k h x.

Lemma grown_same near w s : grown near w (w.1, s).
Proof using Type. split; [by exists []; split; [|intros x ?%not_elem_of_nil]|done]. Qed.
Lemma grown_weaken (P Q : arr 32 → Prop) w w' : (∀ x, P x → Q x) → grown P w w' → grown Q w w'.
Proof using Type. intros Hpq [(new & E & Hn) Hg]. split; [|done]. exists new. split; [done|]. auto. Qed.

Lemma walk_edges_grown walk near es w w' :
  (∀ h w w', walk h w = Ok w' → dirt_kept w w') →
  (∀ h w w', h ∈ envelope_hash <$> es → walk h w = Ok w' → grown near w w') →
  walk_edges walk es w = Ok w' → grown near w w'.
Proof using Type.
  intros Hd. revert w. induction es as [|e es IH]; intros w Hw; cbn [walk_edges]; fold (walk_edges walk).
  { intros [= <-]. destruct w. apply grown_same. }
  destruct (stop_walk w.2); [intros [= <-]; destruct w; apply grown_same|].
  intros (w1 & Hw1 & Hw2)%result_bind_ok.
  destruct (Hw _ _ _ ltac:(by left) Hw1) as [(n1 & E1 & Hn1) [Hnd1 Hl1]].
  destruct (IH w1) as [(n2 & E2 & Hn2) [Hnd2 Hl2]]; [intros; eapply Hw; [by right|done]|done|].
  assert (dirt_kept w1 w') as [Hcl _].
  { eapply (walk_edges_ind dirt_kept); [by split|apply dirt_kept_trans|exact Hd|exact Hw2]. }
  split; [|split; [auto|]].
  - exists (n2 ++ n1). rewrite E2, E1, app_assoc. split; [done|]. intros x [|]%elem_of_app; auto.
  - intros Hc Hle. apply Hl2; [done|]. by apply Hl1; [apply Hcl|].
Qed.

Lemma walk_ref_grown remaining path h w w' :
  walk_provenance_ref options resolve remaining path h w = Ok w' → grown (within remaining h) w w'.
Proof using Type.
  revert path h w w'. induction remaining as [|remaining IH]; intros path h [vis st] w';
    cbn [walk_provenance_ref]; (destruct (stop_walk st); [intros [= <-]; apply (grown_same _ (vis, st))|]).
  { intros [= <-]. apply (grown_same _ (vis, st)). }
  case_bool_decide; [intros [= <-]; apply (grown_same _ (vis, st))|].
  case_bool_decide as Hv; [intros [= <-]; apply (grown_same _ (vis, st))|].
  assert (within (S remaining) h h) as Hh by (exists 0; split; [lia|constructor]).
  assert (∀ s, (clean s → (N.of_nat (length (h :: vis)) ≤ max_nodes options)%N) →
    grown (within (S remaining) h) (vis, st) (h :: vis, s)) as Hadd.
  { intros s Hs. split; [|split; [intros; by constructor|intros; by apply Hs]].
    exists [h]. split; [done|]. by intros x ->%list_elem_of_singleton. }
  destruct (N.ltb_spec (max_nodes options) (N.of_nat (length (h :: vis)))) as [Hlt|Hle].
  { intros [= <-]. apply Hadd. intros [_ [_ Hn]]. done. }
  destruct (resolve h) as [e|] eqn:He; [|intros [= <-]; by apply Hadd].
  intros (actual & Hact & Hw)%result_bind_ok.
  destruct (_ && _); [injection Hw as <-; by apply Hadd|].
  apply (walk_edges_grown _ (within (S remaining) h)) in Hw.
  - destruct Hw as [(new & E & Hn) [Hnd Hl]]. split; [|split].
    + exists (new ++ [h]). rewrite <-app_assoc. split; [done|].
      intros x [?| ->%list_elem_of_singleton]%elem_of_app; auto.
    + intros. apply Hnd. by constructor.
    + intros Hc _. by apply Hl.
  - intros h' u u'. apply walk_dirt.
  - intros y u u' Hy Hu. rewrite elem_of_canonical in Hy. eapply grown_weaken; [|by eapply IH].
    intros x (k & Hk & Hs). exists (S k). split; [lia|]. econstructor; [|done]. by exists e.
Qed.

(** A sound graph within both limits is walked to the end. *)
Definition going (l : list (arr 32)) (w : Walk) : Prop :=
  clean w.2 ∧ stop_walk w.2 = false ∧ NoDup w.1 ∧ w.1 ⊆ l.

Lemma walk_edges_completes walk l es w :
  (∀ h w, h ∈ envelope_hash <$> es → going l w → ∃ w', walk h w = Ok w' ∧ going l w') →
  going l w → ∃ w', walk_edges walk es w = Ok w' ∧ going l w'.
Proof using Type.
  revert w. induction es as [|e es IH]; intros w Hw Hg; cbn [walk_edges]; fold (walk_edges walk); [by exists w|].
  rewrite (proj1 (proj2 Hg)). destruct (Hw (envelope_hash e) w) as (w1 & -> & Hg1); [by left|done|].
  simpl. apply IH; [|done]. intros h u Hh. apply Hw. by right.
Qed.

Lemma walk_ref_completes l remaining path h w :
  (N.of_nat (length l) ≤ max_nodes options)%N → (∀ x, rtc succ h x → x ∈ l) →
  (∀ n x, nsteps succ n h x → n < remaining) → sound_below h → (∀ p, p ∈ path → ¬ rtc succ h p) →
  going l w → ∃ w', walk_provenance_ref options resolve remaining path h w = Ok w' ∧ going l w'.
Proof using Type.
  intros Hl. revert path h w. induction remaining as [|remaining IH]; intros path h [vis st] Hin Hd Hb Hn (Hc & Hs & Hnd & Hsub).
  { specialize (Hd 0 h ltac:(constructor)). lia. }
  cbn [walk_provenance_ref]. simpl in Hc, Hs, Hnd, Hsub. rewrite Hs.
  rewrite bool_decide_eq_false_2 by (intros Hp; by destruct (Hn h Hp); apply rtc_refl).
  case_bool_decide as Hv; [by eexists|].
  assert (length (h :: vis) ≤ length l) as Hlen.
  { apply submseteq_length, NoDup_submseteq; [by constructor|].
    intros x [->|Hx]%elem_of_cons; [apply Hin, rtc_refl|auto]. }
  destruct (N.ltb_spec (max_nodes options) (N.of_nat (length (h :: vis)))) as [?|?]; [lia|].
  destruct (Hb h) as [(e & He & Hh & Ha) Hcy]; [apply rtc_refl|].
  rewrite He, Hh. cbn [mbind result_bind]. rewrite bool_decide_eq_true_2 by done. cbn [negb andb]. rewrite Ha.
  apply (walk_edges_completes _ l).
  - intros y u Hy Hg. rewrite elem_of_canonical in Hy. assert (succ h y) as Hhy by (by exists e). apply IH; [..|done].
    + intros x Hx. apply Hin. by eapply rtc_l.
    + intros n x Hx. enough (S n < S remaining) by lia. apply (Hd _ x). by econstructor.
    + intros x Hx. apply Hb. by eapply rtc_l.
    + intros p [->|Hp']%elem_of_cons Hyp; [|apply (Hn p Hp'); by eapply rtc_l].
      apply Hcy. eapply tc_rtc_r; [by apply tc_once|done].
  - split; [exact Hc|]. split; [exact Hs|]. split; [by constructor|].
    intros x [->|Hx]%elem_of_cons; [apply Hin, rtc_refl|auto].
Qed.

(** The only error: an envelope that cannot be hashed. *)
Lemma walk_edges_err walk es w s :
  walk_edges walk es w = Err s → ∃ h w, h ∈ envelope_hash <$> es ∧ walk h w = Err s.
Proof using Type.
  revert w. induction es as [|e es IH]; intros w; cbn [walk_edges]; fold (walk_edges walk); [done|].
  destruct (stop_walk w.2); [done|]. intros [Hw|(w1 & _ & Hw)]%result_bind_err.
  - exists (envelope_hash e), w. split; [by left|done].
  - destruct (IH _ Hw) as (h & u & Hh & Hu). exists h, u. split; [by right|done].
Qed.
Lemma walk_ref_err remaining path h w s :
  walk_provenance_ref options resolve remaining path h w = Err s →
  ∃ x e, rtc succ h x ∧ resolve x = Some e ∧ provenance_hash e = Err s.
Proof using Type.
  revert path h w. induction remaining as [|remaining IH]; intros path h [vis st];
    cbn [walk_provenance_ref]; (destruct (stop_walk st); [done|]); [done|].
  do 2 (case_bool_decide; [done|]). destruct (_ <? _)%N; [done|].
  destruct (resolve h) as [e|] eqn:He; [|done]. intros [Hh|(actual & _ & Hw)]%result_bind_err.
  { exists h, e. split; [apply rtc_refl|done]. }
  destruct (_ && _); [done|]. apply walk_edges_err in Hw as (y & u & Hy & Hu).
  rewrite elem_of_canonical in Hy. destruct (IH _ _ _ Hu) as (x & e' & Hx & Hr). exists x, e'. split; [|done].
  eapply rtc_l; [by exists e|done].
Qed.
End dag.

Section properties.
Context `{Sha2, Ristretto, KzgLib, SigLib, SJ : SerdeJson, Libm, EJ : !EnvelopeJson}.

(** Every envelope that the references lead to resolves, has the hash it is referred to
    by, passes the local check, and lies on no cycle of references, in particular on none
    through the root. *)
Definition sound_graph (resolve : Resolver) (e : ProofEnvelope) (root : arr 32) : Prop :=
  ∀ h, dag_reachable resolve e h → node_ok resolve h ∧ ¬ tc (succ resolve) h h ∧ h ≠ root.
(** A chain of [n] references leads from [e] to [h]. *)
Definition chain (resolve : Resolver) (e : ProofEnvelope) (n : nat) (h : arr 32) : Prop :=
  ∃ y k, y ∈ envelope_hash <$> upstream_envelopes e ∧ nsteps (succ resolve) k y h ∧ n = S k.

(** The verdict, in terms of the graph and of the reported limits. *)
Lemma provenance_dag_flags e resolve options root r :
  provenance_hash e = Ok root → verify_provenance_dag_with_options e resolve options = Ok r →
  dag_accepted r = true ↔
    accepted (verify_locally e) = true ∧
    dag_depth_limit_exceeded r = false ∧ dag_nodes_limit_exceeded r = false ∧ sound_graph resolve e root.
Proof using Type.
  unfold sound_graph. intros Hroot. unfold verify_provenance_dag_with_options. rewrite Hroot. cbn [mbind result_bind].
  intros ([vis st] & Hw & [= <-])%result_bind_ok. simpl.
  match type of Hw with walk_edges _ _ (_, ?s) = _ => set (st0 := s) in Hw end.
  assert (stop_ok st0) as Hs0 by done.
  split.
  - intros Hacc. bool_hyps.
    assert (clean st) as Hcl by done.
    assert (walk_inv resolve [] [root]) as Hi0 by (split; [intros x y [Hx%not_elem_of_nil _]|intros x [Hx%not_elem_of_nil _]..]; done).
    destruct (walk_edges_sound resolve _ _ _ _ _ (walk_dirt options resolve _ _)
      (walk_ref_sound options resolve _ _) Hw Hs0 Hcl Hi0) as (Hi & Hf & _). simpl in *.
    split_and!; try done. intros h (y & Hy & Hyh).
    apply elem_of_canonical, list_elem_of_fmap in Hy as (ref & -> & Href).
    apply (rtc_closed _ _ _ _ (wi_closed _ _ _ Hi) (Hf _ Href)) in Hyh.
    split; [by apply (wi_good _ _ _ Hi)|]. split; [by apply (wi_acyclic _ _ _ Hi)|].
    intros ->. destruct Hyh as [_ Hyh]. apply Hyh. by left.
  - intros (Ha & -> & -> & Hr). rewrite Ha. simpl.
    assert (faultless st) as (-> & -> & -> & ->); [|done].
    change st with (vis, st).2. eapply walk_edges_faultless; [|exact Hw|done].
    intros y v v' Hy Hwy. rewrite elem_of_canonical in Hy. eapply walk_ref_faultless; [exact Hwy|..].
    + intros x Hx. destruct (Hr x) as (? & ? & _); [by exists y|done].
    + intros p ->%list_elem_of_singleton Hyp. destruct (Hr root) as (_ & _ & ?); [by exists y|done].
Qed.

Lemma provenance_dag_sound e resolve options root r :
  provenance_hash e = Ok root → verify_provenance_dag_with_options e resolve options = Ok r →
  dag_accepted r = true →
  ∃ l, NoDup l ∧ (∀ h, h ∈ l ↔ dag_reachable resolve e h) ∧ dag_visited_nodes r = length l + 1 ∧
    (N.of_nat (length l) ≤ max_nodes options)%N ∧
    ∀ h, h ∈ l → ∃ n, n ≤ max_depth options ∧ chain resolve e n h.
Proof using Type.
  intros Hroot. unfold verify_provenance_dag_with_options. rewrite Hroot. cbn [mbind result_bind].
  intros ([vis st] & Hw & [= <-])%result_bind_ok. simpl.
  match type of Hw with walk_edges _ _ (_, ?s) = _ => set (st0 := s) in Hw end.
  intros Hacc. bool_hyps. assert (clean st) as Hcl by done.
  assert (walk_inv resolve [] [root]) as Hi0 by (split; [intros x y [Hx%not_elem_of_nil _]|intros x [Hx%not_elem_of_nil _]..]; done).
  destruct (walk_edges_sound resolve _ _ _ _ _ (walk_dirt options resolve _ _)
    (walk_ref_sound options resolve _ _) Hw ltac:(done) Hcl Hi0) as (Hi & Hf & _). simpl in Hi, Hf.
  apply (walk_edges_grown options _ (λ h, ∃ n, n ≤ max_depth options ∧ chain resolve e n h)) in Hw.
  - destruct Hw as [(new & E & Hn) [Hnd Hl]]. simpl in *. rewrite app_nil_r in E. subst new.
    exists vis. split_and!; [apply Hnd; constructor| |done|apply Hl; [done|lia]|done].
    intros h. split.
    + intros (n & _ & y & k & Hy & Hs & _)%Hn. exists y. split; [done|]. by eapply rtc_nsteps_2.
    + intros (y & Hy & Hyh). apply elem_of_canonical, list_elem_of_fmap in Hy as (ref & -> & Href).
      by apply (rtc_closed _ _ _ _ (wi_closed _ _ _ Hi) (Hf _ Href)) in Hyh as [? _].
  - intros h u u'. apply walk_dirt.
  - intros y u u' Hy Hu. rewrite elem_of_canonical in Hy.
    eapply grown_weaken; [|by eapply walk_ref_grown]. intros x (k & Hk & Hs). exists (S k).
    split; [lia|]. by exists y, k.
Qed.

Lemma provenance_dag_complete e resolve options root l :
  provenance_hash e = Ok root → accepted (verify_locally e) = true → sound_graph resolve e root →
  (∀ n h, chain resolve e n h → n ≤ max_depth options) →
  (∀ h, dag_reachable resolve e h → h ∈ l) → (N.of_nat (length l) ≤ max_nodes options)%N →
  ∃ r, verify_provenance_dag_with_options e resolve options = Ok r ∧ dag_accepted r = true.
Proof using Type.
  intros Hroot Hacc Hg Hd Hl Hn. unfold verify_provenance_dag_with_options. rewrite Hroot. cbn [mbind result_bind].
  match goal with |- context [walk_edges ?f ?es ([], ?s)] =>
    destruct (walk_edges_completes f l es ([], s)) as ([vis st] & -> & (Hc & _)) end.
  - intros y w Hy Hw. rewrite elem_of_canonical in Hy. apply (walk_ref_completes options resolve l); [done|..|done].
    + intros x Hx. apply Hl. by exists y.
    + intros n x Hx. enough (S n ≤ max_depth options) by lia. apply (Hd _ x). by exists y, n.
    + intros x Hx. by destruct (Hg x) as (? & ? & _); [exists y|].
    + intros p ->%list_elem_of_singleton Hyp. destruct (Hg root) as (_ & _ & ?); [by exists y|done].
  - split; [done|]. split; [done|]. split; [constructor|]. intros x ?%not_elem_of_nil. done.
  - simpl in Hc. destruct Hc as [(H1' & H2' & H3' & H4') [H5' H6']]. eexists. split; [reflexivity|]. simpl.
    by rewrite Hacc, H1', H2', H3', H4', H5', H6'.
Qed.

Lemma provenance_dag_err e resolve options root s :
  provenance_hash e = Ok root → verify_provenance_dag_with_options e resolve options = Err s →
  ∃ h e', dag_reachable resolve e h ∧ resolve h = Some e' ∧ provenance_hash e' = Err s.
Proof using Type.
  intros Hroot. unfold verify_provenance_dag_with_options. rewrite Hroot. cbn [mbind result_bind].
  intros [Hw|([vis st] & _ & Hw)]%result_bind_err; [|done].
  apply walk_edges_err in Hw as (y & w & Hy & Hw). rewrite elem_of_canonical in Hy.
  apply walk_ref_err in Hw as (x & e' & Hx & He' & Hs). exists x, e'. split; [by exists y|done].
Qed.

(** Claim C13. The provenance walk decides the graph of references within its limits.
    Accepted, the envelope itself passes the local check, every envelope that the
    references lead to resolves, has the hash it is referred to by, passes the local check,
    lies on no cycle and at the end of a chain of at most [max_depth] references, and these
    envelopes, which the walk counts with the root, are at most [max_nodes].
    Conversely, such a graph with at most [max_nodes] envelopes behind the root and no chain
    of more than [max_depth] references is accepted.  The walk always ends, and with an error
    only when an envelope that the references lead to cannot be hashed.  (Between the two
    conditions on depth the order of the walk decides, as a node is entered once.) *)
Theorem provenance_dag_decides e resolve options root :
  provenance_hash e = Ok root →
  (∀ r, verify_provenance_dag_with_options e resolve options = Ok r → dag_accepted r = true →
     accepted (verify_locally e) = true ∧ sound_graph resolve e root ∧
     ∃ l, NoDup l ∧ (∀ h, h ∈ l ↔ dag_reachable resolve e h) ∧ dag_visited_nodes r = length l + 1 ∧
       (N.of_nat (length l) ≤ max_nodes options)%N ∧
       ∀ h, h ∈ l → ∃ n, n ≤ max_depth options ∧ chain resolve e n h) ∧
  (∀ l, accepted (verify_locally e) = true → sound_graph resolve e root →
     (∀ n h, chain resolve e n h → n ≤ max_depth options) →
     (∀ h, dag_reachable resolve e h → h ∈ l) → (N.of_nat (length l) ≤ max_nodes options)%N →
     ∃ r, verify_provenance_dag_with_options e resolve options = Ok r ∧ dag_accepted r = true) ∧
  (∀ s, verify_provenance_dag_with_options e resolve options = Err s →
     ∃ h e', dag_reachable resolve e h ∧ resolve h = Some e' ∧ provenance_hash e' = Err s).
Proof using Type.
  intros Hroot. split_and!.
  - intros r Hv Ha. destruct (proj1 (provenance_dag_flags _ _ _ _ _ Hroot Hv) Ha) as (? & _ & _ & ?).
    split_and!; [done..|]. by eapply provenance_dag_sound.
  - intros l. by apply provenance_dag_complete with (root := root).
  - intros s. by apply (provenance_dag_err _ _ _ root).
Qed.

Lemma check_merkle_open v i x :
  v !! i = Some x → check_proof (QpBinaryMerkle (bm_open v i)) (bm_digest (bm_commit v)) = (true, false).
Proof using Type.
  intros Hx. pose proof (bm_complete v i x Hx) as Hv. unfold bm_verify in Hv.
  destruct (_ || _) eqn:E1; [done|]. bool_hyps. destruct (negb _); [done|].
  unfold check_proof, bm_digest. destruct (bp_tree_size (bm_open v i) =? 0); by rewrite Hv.
Qed.

Lemma check_ipa_open v i : check_proof (QpIpa (ipa_open v i)) (ipa_digest (ipa_commit v)) = (true, false).
Proof using Type.
  unfold check_proof. simpl. rewrite bool_decide_eq_true_2 by done.
  by rewrite (proj1 (ipa_opening_spec v i 0%N)).
Qed.

(** What an accepted Merkle envelope shows: the leaf in its proof is the leaf of the
    committed cell; the value of the envelope plays no part. *)
Lemma accepted_merkle_leaf e p vec :
  accepted (verify_locally e) = true → env_proof e = QpBinaryMerkle p → vec ≠ [] →
  env_state_root e = bm_digest (bm_commit vec) → bp_tree_size p = length vec →
  (∃ x, vec !! bp_index p = Some x ∧ bp_leaf_hash p = value_leaf (bp_index p) x) ∨
  collides sha256 (tree_strings (value_leaves vec) ++ inclusion_strings
    {| ip_leaf_index := N.of_nat (bp_index p); ip_tree_size := N.of_nat (length vec);
       ip_leaf_hash := bp_leaf_hash p; ip_path := bp_path p |}).
Proof using Type.
  unfold verify_locally. intros Ha Hp Hne Hroot Hsize. destruct (negb (_ =? _)%N); [done|].
  destruct (negb _); [done|]. rewrite Hp in Ha. unfold check_proof in Ha. rewrite Hsize in Ha.
  destruct (Nat.eqb_spec (length vec) 0) as [Hl|]; [by destruct vec|]. simpl in Ha. bool_hyps.
  rewrite Hroot in *. unfold bm_digest in *. simpl in *.
  match goal with Hv : verify_inclusion_proof _ _ = true |- _ =>
    rewrite <-length_value_leaves in Hv |- *; apply verify_inclusion_proof_leaf in Hv; [|done] end.
  match goal with Hv : _ ∨ collides _ _ |- _ => destruct Hv as [Hv|?]; [left|by right]; simpl in Hv;
    rewrite Nat2N.id, lookup_value_leaves in Hv; apply fmap_Some in Hv as (x & Hx & Hleaf) end.
  by exists x.
Qed.

(** An envelope of an honest database, whatever value it was given. *)
Lemma from_query_accepted db key idx value now e :
  backend db ≠ BkKzg → from_query db key idx value now = Ok (Some e) →
  env_value e = value ∧ env_key e = key ∧ accepted (verify_locally e) = true.
Proof using Type.
  intros Hb. unfold from_query, query.
  destruct (materialize (state db) !! idx) as [x|] eqn:Hx; [|done].
  destruct (backend db) eqn:Hbk; [| done |]; unfold state_root_for; rewrite Hbk; simpl; intros [= <-]; simpl;
    (split; [done|]; split; [done|]); unfold verify_locally; simpl.
  - rewrite bool_decide_eq_true_2 by done. simpl.
    by rewrite (proj1 (ipa_opening_spec (materialize (state db)) idx 0%N)).
  - pose proof (check_merkle_open _ _ _ Hx) as Hc. unfold check_proof in Hc. simpl in Hc.
    destruct (_ =? 0); by injection Hc as ->.
Qed.

(** Local verification does not look at the value.  An envelope made by
    [from_query] for an index is accepted whatever key and value are put into it (Merkle and
    IPA back ends); for KZG an opening of 48 bytes that are not all zero is accepted for every
    root; and replacing the key, the value, the height and the signatures of any envelope
    leaves the verdict as it was. *)
Theorem envelope_value_not_bound :
  (∀ db key idx value now e, backend db ≠ BkKzg → from_query db key idx value now = Ok (Some e) →
     env_value e = value ∧ env_key e = key ∧ accepted (verify_locally e) = true) ∧
  (∀ e p, env_version e = ENVELOPE_VERSION → env_backend e = BkKzg → env_proof e = QpKzg p →
     length (kp_proof_encoded p) = 48 → (∃ b, b ∈ kp_proof_encoded p ∧ b ≠ x00) →
     upstream_envelopes e = [] → accepted (verify_locally e) = true) ∧
  (∀ e e', env_version e = env_version e' → env_backend e = env_backend e' → env_proof e = env_proof e' →
     env_state_root e = env_state_root e' → upstream_envelopes e = upstream_envelopes e' →
     accepted (verify_locally e) = accepted (verify_locally e')).
Proof using Type.
  split; [|split].
  - apply from_query_accepted.
  - intros e p Hv Hb Hp Hl (b & Hin & Hne) Hu. unfold verify_locally. rewrite Hv, Hb, Hp, Hu. unfold check_proof. rewrite Hl. simpl.
    rewrite andb_true_r. apply negb_true_iff, not_true_iff_false. intros Hall.
    rewrite forallb_forall in Hall. by specialize (Hall b (proj1 (list_elem_of_In _ _) Hin)); bool_hyps.
  - intros e e' Hv Hb Hp Hr Hu. unfold verify_locally. rewrite Hv, Hb, Hp, Hr, Hu.
    destruct (negb _); [done|]. destruct (negb _); [done|]. by destruct (check_proof _ _).
Qed.
End properties.

(** ** Example: an envelope that refers to another one *)

(** The last bytes of the input, so that payloads have different hashes. *)
Definition suffix_sha : Sha2 := {| sha256 := λ l, to_arr 32 (rev l); sha512 := λ l, to_arr 64 (rev l) |}.
#[local] Existing Instances suffix_sha toy_ristretto toy_kzg toy_sig raw_json id_powf.
Definition key_json : EnvelopeJson := {| hash_input_to_vec := λ i, Some (as_bytes (hi_key i)) |}.
#[local] Existing Instance key_json.

Definition ex_envelope (key : string) (refs : list EnvelopeRef) : ProofEnvelope := {|
  env_version := 1; env_key := key; env_value := VNull; env_backend := BkBinaryMerkle;
  env_proof := QpBinaryMerkle (bm_open [7%N] 0); env_state_root := bm_digest (bm_commit [7%N]);
  env_commit_height := 1; env_witness_sigs := []; env_attestation := None; env_author_puf := None;
  env_lean_proof_ref := None; upstream_envelopes := refs; env_grant_token := None; env_created_at := 5 |}.
Definition ex_leaf : ProofEnvelope := ex_envelope "leaf" [].
Definition ex_root : ProofEnvelope :=
  ex_envelope "root" (match to_envelope_ref ex_leaf with Ok r => [r] | Err _ => [] end).
Definition ex_resolve : Resolver := λ h,
  if bool_decide (provenance_hash ex_leaf = Ok h) then Some ex_leaf else None.

Lemma provenance_dag_decides_witness :
  ∃ root r l, provenance_hash ex_root = Ok root ∧ sound_graph ex_resolve ex_root root ∧
    dag_visited_nodes r = 2 ∧ length l = 1 ∧ ∀ h, h ∈ l ↔ dag_reachable ex_resolve ex_root h.
Proof.
  destruct (provenance_hash ex_root) as [root|] eqn:Hroot; [|done].
  assert ((λ r, (dag_accepted r, dag_visited_nodes r)) <$>
    verify_provenance_dag_with_options ex_root ex_resolve dag_options_default = Ok (true, 2)) as Hr
    by (vm_compute; reflexivity).
  destruct (verify_provenance_dag_with_options ex_root ex_resolve dag_options_default) as [r|] eqn:Hv; [|done].
  injection Hr as Hacc Hvis.
  destruct (provenance_dag_decides ex_root ex_resolve dag_options_default root Hroot) as [Hs _].
  destruct (Hs r Hv Hacc) as (_ & Hg & l & _ & Hl & Hn & _). exists root, r, l.
  split_and!; [done..|lia|done].
Defined.
