(* ===== verification/Swarm.v ===== *)
(** * Content exchange of the swarm: [src/src/swarm/] and its two MCP tools

    Assets are cut into chunks named by their BLAKE3 hash ([chunk_engine.rs], [types.rs]),
    listed in a manifest ([manifest.rs]) and kept in the database ([chunk_store.rs]);
    peers ask each other for chunks ([bitswap.rs]) and pay over a payment channel.
    [swarm_publish] and [swarm_fetch] are the tools of [mcp/tools.rs] that put these
    together.  BLAKE3, base64 and JSON are class parameters; a [Debug] text of an error is
    a constructor of [SwarmError]; an I/O error of the disk is an argument. *)
From S2P Require Export Envelope Pcn Pod Persistence.

Class Blake3 := { blake3 : bytes → arr 32 }.

(** [ChunkId] and [ManifestId] are strings of 64 hex digits. *)
Abbreviation ChunkId := string.
Abbreviation ManifestId := string.
Definition is_valid_hex_32 (s : string) : bool := (str_len s =? 64) && str_forall is_hex s.
Definition chunk_id_new (hex : string) : result string ChunkId :=
  let value := to_ascii_lowercase hex in
  if negb (is_valid_hex_32 value) then Err "chunk id must be 64 hex chars" else Ok value.
Definition manifest_id_new (hex : string) : result string ManifestId :=
  let value := to_ascii_lowercase hex in
  if negb (is_valid_hex_32 value) then Err "manifest id must be 64 hex chars" else Ok value.

Inductive AssetType := AtBinary | AtText | AtModel | AtDataset | AtContainerLayer | AtOther.

Record Chunk := {
  ck_id : ChunkId;
  ck_index : N;
  ck_total : N;
  ck_size : nat;
  ck_data : bytes
}.

(** ** [config.rs] *)

Definition DEFAULT_CHUNK_SIZE : N := 262144.
Record ChunkParams := { chunk_size_bytes : N }.
Record SwarmConfig := {
  chunk_params : ChunkParams;
  bitswap_enabled : bool;
  chunk_credit_cost : N;
  cfg_require_grants : bool
}.
Definition swarm_config_default : SwarmConfig := {|
  chunk_params := {| chunk_size_bytes := DEFAULT_CHUNK_SIZE |}; bitswap_enabled := true;
  chunk_credit_cost := 1; cfg_require_grants := false |}.
Definition truthy (s : string) : bool :=
  bool_decide (to_ascii_lowercase (trim s) ∈ ["1"; "true"; "yes"; "on"]).
Definition swarm_config_from_env (env : string → option string) : SwarmConfig := {|
  chunk_params := {| chunk_size_bytes :=
    default DEFAULT_CHUNK_SIZE (n ← env "HALO_CHUNK_SIZE_BYTES" ≫= parse_u64;
                                if (0 <? n)%N then Some n else None) |};
  bitswap_enabled := default true (truthy <$> env "HALO_BITSWAP_ENABLED");
  chunk_credit_cost := default 1%N (env "HALO_CHUNK_CREDIT_COST" ≫= parse_u64);
  cfg_require_grants := default false (truthy <$> env "HALO_BITSWAP_REQUIRE_GRANTS") |}.

(** [usize::div_ceil]. *)
Definition div_ceil (a b : N) : N := (a / b + if (a mod b =? 0)%N then 0 else 1)%N.
Definition wrap32 (n : N) : N := (n mod u32_mod)%N.

(** [slice::chunks]: pieces of [n] bytes, the last one may be shorter. *)
Fixpoint pieces (fuel n : nat) (data : bytes) : list bytes :=
  match fuel, data with
  | _, [] | O, _ => []
  | S fuel', _ => take n data :: pieces fuel' n (drop n data)
  end.

Section chunk_engine.
Context `{Blake3}.

Definition chunk_id_from (data : bytes) : ChunkId := hex_encode (arr_bytes (blake3 data)).
Definition Chunk_new (index total : N) (data : bytes) : Chunk := {|
  ck_id := chunk_id_from data; ck_index := index; ck_total := total; ck_size := length data;
  ck_data := data |}.

Definition chunk_data (data : bytes) (params : ChunkParams) : list Chunk :=
  match data with
  | [] => [Chunk_new 0 1 []]
  | _ =>
      let chunk_size := N.to_nat (N.max (chunk_size_bytes params) 1) in
      let ps := pieces (length data) chunk_size data in
      let total := wrap32 (div_ceil (N.of_nat (length data)) (N.max (chunk_size_bytes params) 1)) in
      imap (λ i piece, Chunk_new (wrap32 (N.of_nat i)) total piece) ps
  end.

Definition verify_chunk (c : Chunk) : bool :=
  bool_decide (ck_id c = chunk_id_from (ck_data c)) && (ck_size c =? length (ck_data c)).

Definition index_le (c d : Chunk) : Prop := (ck_index c ≤ ck_index d)%N.
#[export] Instance index_le_dec : RelDecision index_le.
Proof. intros c d. unfold index_le. apply _. Defined.
(** [sort_by_key(|chunk| chunk.index)]. *)
Definition ordered_chunks (cs : list Chunk) : list Chunk := merge_sort index_le cs.

Fixpoint check_order (total : N) (expected : nat) (cs : list Chunk) : result string () :=
  match cs with
  | [] => Ok tt
  | c :: cs' =>
      _ ← throw_if (negb (verify_chunk c)) ("chunk " +:+ dec (ck_index c) +:+ " failed verification");
      _ ← throw_if (negb (ck_index c =? wrap32 (N.of_nat expected))%N) "chunk ordering is incomplete";
      _ ← throw_if (negb (ck_total c =? total)%N) "chunk set disagrees on total_chunks";
      check_order total (S expected) cs'
  end.
Definition reassemble_chunks (cs : list Chunk) : result string bytes :=
  match cs with
  | [] => Ok []
  | c :: _ =>
      let total := ck_total c in
      let ordered := ordered_chunks cs in
      _ ← throw_if (negb (N.of_nat (length ordered) =? total)%N) "missing chunks for reassembly";
      _ ← check_order total 0 ordered;
      mret (concat (ck_data <$> ordered))
  end.

(** [compute_root_hash]: the ids, each followed by a bar. *)
Definition compute_root_hash (ids : list ChunkId) : string :=
  hex_encode (arr_bytes (blake3 (concat ((λ id, as_bytes id ++ as_bytes "|") <$> ids)))).
End chunk_engine.

(** ** [manifest.rs] *)

Section manifest_data.
Context `{SerdeJson}.
Record Manifest := {
  m_id : ManifestId;
  m_root_hash : string;
  m_chunk_hashes : list ChunkId;
  m_total_size : nat;
  m_asset_type : AssetType;
  m_creator_did : string;
  m_created_at : N;
  m_proof : option ProofEnvelope
}.
End manifest_data.
Record ManifestBuilder := { mb_asset_type : AssetType; mb_creator_did : string; mb_params : ChunkParams }.
Record ManifestVerification := {
  mv_root_hash_valid : bool;
  mv_proof_valid : bool;
  mv_chunk_count : nat;
  mv_accepted : bool
}.

(** [serde_json] on the types of this component; [None] is an [Err]. *)
Class SwarmJson `{SerdeJson} := {
  chunk_to_vec : Chunk → option bytes;
  chunk_from_slice : bytes → option Chunk;
  manifest_to_value : Manifest → option JsonValue;
  manifest_from_value : JsonValue → option Manifest;
  envelope_to_value : ProofEnvelope → option JsonValue;
  envelope_from_value : JsonValue → option ProofEnvelope
}.

Inductive SwarmError :=
| SwText (e : string)
| SwBase64
| SwSerialize (what : string)
| SwPut (e : VectorError)
| SwCommit (what : string) (e : CommitError)
| SwPersist (e : PersistenceError).

Definition MANIFEST_KEY_PREFIX : string := "swarm/manifest/".
Definition MANIFEST_PROOF_KEY_PREFIX : string := "swarm/manifest-proof/".
Definition CHUNK_KEY_PREFIX : string := "swarm/chunk/".

Section manifest.
Context `{Blake3, Sha2, Ristretto, KzgLib, SigLib, SJ : SerdeJson, Libm, WJ : !SwarmJson}.

Definition manifest_db_key (m : Manifest) : string := MANIFEST_KEY_PREFIX +:+ m_id m.
Definition manifest_proof_db_key (m : Manifest) : string := MANIFEST_PROOF_KEY_PREFIX +:+ m_id m.
Definition set_proof (m : Manifest) (p : option ProofEnvelope) : Manifest := {|
  m_id := m_id m; m_root_hash := m_root_hash m; m_chunk_hashes := m_chunk_hashes m;
  m_total_size := m_total_size m; m_asset_type := m_asset_type m; m_creator_did := m_creator_did m;
  m_created_at := m_created_at m; m_proof := p |}.

Definition build (b : ManifestBuilder) (chunks : list Chunk) (now : N) : result SwarmError Manifest :=
  _ ← throw_if (bool_decide (length chunks = 0)) (SwText "manifest requires at least one chunk");
  let max_chunk_size := N.max (chunk_size_bytes (mb_params b)) 1 in
  _ ← throw_if (existsb (λ c, (max_chunk_size <? N.of_nat (ck_size c))%N) chunks)
        (SwText "chunk exceeds manifest chunk size policy");
  let chunk_hashes := ck_id <$> chunks in
  let root_hash := compute_root_hash chunk_hashes in
  mret {| m_id := chunk_id_from (as_bytes root_hash); m_root_hash := root_hash;
          m_chunk_hashes := chunk_hashes; m_total_size := sum_list (ck_size <$> chunks);
          m_asset_type := mb_asset_type b; m_creator_did := mb_creator_did b; m_created_at := now;
          m_proof := None |}.

Definition indexes_from (expected : nat) (cs : list Chunk) : bool :=
  forallb (λ ic : nat * Chunk, (ck_index ic.2 =? wrap32 (N.of_nat ic.1))%N && verify_chunk ic.2)
    (imap (λ i c, (expected + i, c)) cs).
Definition verify_manifest (m : Manifest) (chunks : list Chunk) : ManifestVerification :=
  let ordered := ordered_chunks chunks in
  let sequence_valid := (length ordered =? length (m_chunk_hashes m)) && indexes_from 0 ordered in
  let chunk_hashes := (λ c, chunk_id_from (ck_data c)) <$> ordered in
  let root_valid := sequence_valid && bool_decide (chunk_hashes = m_chunk_hashes m) &&
                    bool_decide (compute_root_hash chunk_hashes = m_root_hash m) in
  let proof_valid := match m_proof m with Some p => accepted (verify_locally p) | None => false end in
  {| mv_root_hash_valid := root_valid; mv_proof_valid := proof_valid;
     mv_chunk_count := length (m_chunk_hashes m);
     mv_accepted := root_valid && (match m_proof m with None => true | Some _ => false end || proof_valid) |}.

(** [map_err] on a call with state, and a call on the first of two objects. *)
Definition act_map_err {S E F T} (f : E → F) (m : action S E T) : action S F T :=
  λ s, let '(s', r) := m s in (s', map_err f r).
Definition on_fst {D A E T} (m : action D E T) : action (D * A) E T :=
  λ '(d, a), let '(d', r) := m d in ((d', a), r).

(** A typed write on its own commit. *)
Definition put_and_commit_one (what key : string) (v : TypedValue) (now : N) : action NucleusDb SwarmError nat :=
  '(idx, cell) ← act_map_err SwPut (put_typed key v now);
  _ ← act_map_err (SwCommit what) (commit (mk_Delta [(idx, cell)]) [] now);
  mret idx.

Definition persist_manifest_with_proof (m : Manifest) (now : N) : action NucleusDb SwarmError Manifest :=
  value ← lift_res (ok_or (manifest_to_value m) (SwSerialize "manifest"));
  idx ← put_and_commit_one "commit manifest" (manifest_db_key m) (VJson value) now;
  db ← get_state;
  v ← lift_res (ok_or (get_typed db (manifest_db_key m)) (SwText "manifest missing after commit"));
  q ← lift_res (map_err (SwCommit "query") (from_query db (manifest_db_key m) idx v now));
  proof ← lift_res (ok_or q (SwText "manifest proof generation failed"));
  proof_value ← lift_res (ok_or (envelope_to_value proof) (SwSerialize "manifest proof"));
  _ ← put_and_commit_one "commit manifest proof" (manifest_proof_db_key m) (VJson proof_value) now;
  mret (set_proof m (Some proof)).

Definition build_and_commit (b : ManifestBuilder) (chunks : list Chunk) (now : N)
  : action NucleusDb SwarmError Manifest :=
  m ← lift_res (build b chunks now); persist_manifest_with_proof m now.

(** ** [chunk_store.rs] *)

Record ChunkStore := mk_ChunkStore {
  cs_chunks : gmap ChunkId Chunk;
  cs_manifests : gmap ManifestId Manifest;
  cs_active_transfers : nat
}.
Record ChunkStoreStats := {
  st_total_chunks : nat; st_total_bytes : nat; st_manifest_count : nat; st_active_transfers : nat }.
Definition chunk_store_new : ChunkStore := mk_ChunkStore ∅ ∅ 0.
Definition chunk_key (id : ChunkId) : string := CHUNK_KEY_PREFIX +:+ id.

Fixpoint put_chunks (chunks : list Chunk) (now : N)
  : action (NucleusDb * ChunkStore) SwarmError (list (nat * N)) :=
  match chunks with
  | [] => mret []
  | c :: chunks' =>
      raw ← lift_res (ok_or (chunk_to_vec c) (SwSerialize "chunk"));
      w ← on_fst (act_map_err SwPut (put_typed (chunk_key (ck_id c)) (VBytes raw) now));
      _ ← modify (λ '(db, s), (db, mk_ChunkStore (<[ck_id c := c]> (cs_chunks s)) (cs_manifests s)
                                   (cs_active_transfers s)));
      ws ← put_chunks chunks' now;
      mret (w :: ws)
  end.
Definition store_chunks (chunks : list Chunk) (now : N) : action (NucleusDb * ChunkStore) SwarmError () :=
  writes ← put_chunks chunks now;
  if bool_decide (writes = []) then mret ()
  else _ ← on_fst (act_map_err (SwCommit "commit chunks") (commit (mk_Delta writes) [] now)); mret ().

Definition store_manifest (m : Manifest) (now : N) : action (NucleusDb * ChunkStore) SwarmError () :=
  m ← on_fst (persist_manifest_with_proof m now);
  modify (λ '(db, s), (db, mk_ChunkStore (cs_chunks s) (<[m_id m := m]> (cs_manifests s)) (cs_active_transfers s))).

Definition get_chunk (s : ChunkStore) (id : ChunkId) : option Chunk := cs_chunks s !! id.
Definition get_manifest (s : ChunkStore) (id : ManifestId) : option Manifest := cs_manifests s !! id.
Definition has_chunk (s : ChunkStore) (id : ChunkId) : bool := bool_decide (is_Some (cs_chunks s !! id)).
Definition remove_chunk (id : ChunkId) (now : N) : action (NucleusDb * ChunkStore) SwarmError bool :=
  '(db, s) ← get_state;
  match cs_chunks s !! id with
  | None => mret false
  | Some c =>
      _ ← modify (λ '(db, s), (db, mk_ChunkStore (delete id (cs_chunks s)) (cs_manifests s) (cs_active_transfers s)));
      _ ← on_fst (put_and_commit_one "commit chunk removal" (chunk_key (ck_id c)) VNull now);
      mret true
  end.
Definition list_chunk_ids (s : ChunkStore) : list ChunkId := map_keys (cs_chunks s).
Definition all_chunks (s : ChunkStore) : list Chunk := map_values (cs_chunks s).
Definition stats (s : ChunkStore) : ChunkStoreStats := {|
  st_total_chunks := size (cs_chunks s); st_total_bytes := sum_list (ck_size <$> all_chunks s);
  st_manifest_count := size (cs_manifests s); st_active_transfers := cs_active_transfers s |}.
Definition set_active_transfers (n : nat) (s : ChunkStore) : ChunkStore :=
  mk_ChunkStore (cs_chunks s) (cs_manifests s) n.

(** One key of [load_from_db]: the maps built so far and the proofs found. *)
Definition load_key (db : NucleusDb) (acc : ChunkStore * gmap ManifestId ProofEnvelope) (key : string)
  : ChunkStore * gmap ManifestId ProofEnvelope :=
  let '(s, proofs) := acc in
  match strip_prefix CHUNK_KEY_PREFIX key, strip_prefix MANIFEST_KEY_PREFIX key,
        strip_prefix MANIFEST_PROOF_KEY_PREFIX key with
  | Some id, _, _ =>
      match get_typed db key with
      | Some (VBytes raw) =>
          match chunk_from_slice raw, chunk_id_new id with
          | Some c, Ok cid => (mk_ChunkStore (<[cid := c]> (cs_chunks s)) (cs_manifests s) (cs_active_transfers s), proofs)
          | _, _ => acc
          end
      | _ => acc
      end
  | None, Some id, _ =>
      match get_typed db key with
      | Some (VJson v) =>
          match manifest_from_value v, manifest_id_new id with
          | Some m, Ok mid => (mk_ChunkStore (cs_chunks s) (<[mid := m]> (cs_manifests s)) (cs_active_transfers s), proofs)
          | _, _ => acc
          end
      | _ => acc
      end
  | None, None, Some id =>
      match get_typed db key with
      | Some (VJson v) =>
          match envelope_from_value v, manifest_id_new id with
          | Some p, Ok mid => (s, <[mid := p]> proofs)
          | _, _ => acc
          end
      | _ => acc
      end
  | None, None, None => acc
  end.
Definition load_from_db (db : NucleusDb) : ChunkStore :=
  let '(s, proofs) := foldl (λ acc kv, load_key db acc kv.1) (chunk_store_new, ∅) (KM.all_keys (keymap db)) in
  mk_ChunkStore (cs_chunks s)
    (map_imap (λ mid m, Some (match proofs !! mid with Some p => set_proof m (Some p) | None => m end)) (cs_manifests s))
    (cs_active_transfers s).
End manifest.

(** ** [bitswap.rs] *)

Definition MAX_BITSWAP_MSG_SIZE : N := 4194304.
Inductive BitswapMessage :=
| Want (ids : list ChunkId)
| Have (ids : list ChunkId)
| Block (id : ChunkId) (payload : bytes).

Class BitswapJson := {
  msg_to_vec : BitswapMessage → option bytes;
  msg_from_slice : bytes → option BitswapMessage
}.
Class BitswapJson_Laws (J : BitswapJson) : Prop :=
  { msg_roundtrip m b : msg_to_vec m = Some b → msg_from_slice b = Some m }.

Section framing.
Context `{BitswapJson}.

(** What a reader finds in the bytes of a stream. *)
Definition read_message (io : bytes) : result string BitswapMessage :=
  _ ← throw_if (length io <? 4) "unexpected end of file";
  let len := of_be_bytes (take 4 io) in
  _ ← throw_if (MAX_BITSWAP_MSG_SIZE <? len)%N "bitswap message exceeds size limit";
  let rest := drop 4 io in
  _ ← throw_if (N.of_nat (length rest) <? len)%N "unexpected end of file";
  ok_or (msg_from_slice (take (N.to_nat len) rest)) "invalid data".
Definition write_message (m : BitswapMessage) : result string bytes :=
  raw ← ok_or (msg_to_vec m) "invalid data";
  _ ← throw_if (MAX_BITSWAP_MSG_SIZE <? N.of_nat (length raw))%N "bitswap message exceeds size limit";
  mret (be_bytes 4 (wrap32 (N.of_nat (length raw))) ++ raw).
End framing.

Record BitswapRuntime := mk_Bitswap {
  local_chunks : gmap ChunkId Chunk;
  peer_inventory : gmap string (gset ChunkId);
  peer_aliases : gmap string (arr 32);
  bs_grants : GrantStore;
  require_grants : bool;
  active_transfers : nat
}.
Record BitswapStatus := { bst_local_chunks : nat; bst_peer_count : nat; bst_active_transfers : nat }.
Definition bitswap_default : BitswapRuntime := mk_Bitswap ∅ ∅ ∅ [] false 0.
Definition set_local (r : BitswapRuntime) (m : gmap ChunkId Chunk) : BitswapRuntime :=
  mk_Bitswap m (peer_inventory r) (peer_aliases r) (bs_grants r) (require_grants r) (active_transfers r).

Definition register_local_chunks (r : BitswapRuntime) (chunks : list Chunk) : BitswapRuntime :=
  set_local r (foldl (λ m c, <[ck_id c := c]> m) (local_chunks r) chunks).
Definition set_grants (r : BitswapRuntime) (g : GrantStore) : BitswapRuntime :=
  mk_Bitswap (local_chunks r) (peer_inventory r) (peer_aliases r) g (require_grants r) (active_transfers r).
Definition set_require_grants (r : BitswapRuntime) (b : bool) : BitswapRuntime :=
  mk_Bitswap (local_chunks r) (peer_inventory r) (peer_aliases r) (bs_grants r) b (active_transfers r).
Definition map_peer_to_grantee (r : BitswapRuntime) (peer : string) (puf : arr 32) : BitswapRuntime :=
  mk_Bitswap (local_chunks r) (peer_inventory r) (<[peer := puf]> (peer_aliases r)) (bs_grants r)
    (require_grants r) (active_transfers r).
Definition bitswap_status (r : BitswapRuntime) : BitswapStatus := {|
  bst_local_chunks := size (local_chunks r); bst_peer_count := size (peer_inventory r);
  bst_active_transfers := active_transfers r |}.

(** By the number of peers that have the chunk, then by id. *)
Definition rarity_le (p q : nat * ChunkId) : Prop :=
  if decide (p.1 = q.1) then String.le p.2 q.2 else p.1 ≤ q.1.
#[export] Instance rarity_le_dec : RelDecision rarity_le.
Proof. intros p q. unfold rarity_le. destruct (decide _); apply _. Defined.
Definition peers_with (r : BitswapRuntime) (id : ChunkId) : nat :=
  length (filter (λ inv, id ∈ inv) (map_values (peer_inventory r))).
Definition rarest_first (r : BitswapRuntime) (wanted : list ChunkId) : list ChunkId :=
  (merge_sort rarity_le ((λ id, (peers_with r id, id)) <$> wanted)).*2.

Definition peer_can_read (r : BitswapRuntime) (peer : string) (id : ChunkId) (now : N) : bool :=
  if bool_decide (length (bs_grants r) = 0) then negb (require_grants r)
  else match peer_aliases r !! peer with
       | Some puf => can_read (bs_grants r) puf ("swarm/chunk/" +:+ id) now
       | None => false
       end.

Section bitswap.
Context `{Blake3}.

(** [active_transfers] goes up and down again while a [Want] is answered. *)
Definition handle_request (r : BitswapRuntime) (peer : string) (m : BitswapMessage) (now : N)
  : BitswapRuntime * BitswapMessage :=
  match m with
  | Want ids =>
      (r, Have (filter (λ id, is_Some (local_chunks r !! id))
                  (filter (λ id, peer_can_read r peer id now = true) ids)))
  | Have ids =>
      let inv := list_to_set ids ∪ default ∅ (peer_inventory r !! peer) in
      (mk_Bitswap (local_chunks r) (<[peer := inv]> (peer_inventory r)) (peer_aliases r) (bs_grants r)
         (require_grants r) (active_transfers r),
       Have (set_elems inv))
  | Block id payload =>
      match payload with
      | [] =>
          match (if peer_can_read r peer id now then local_chunks r !! id else None) with
          | Some c => (r, Block id (ck_data c))
          | None => (r, Have [])
          end
      | _ =>
          let c := Chunk_new 0 1 payload in
          if negb (bool_decide (ck_id c = id)) then (r, Have [])
          else (set_local r (<[id := c]> (local_chunks r)), Have [id])
      end
  end.
End bitswap.

(** ** Paying for chunks *)

Inductive BitswapTransferError := MissingChannel | InsufficientCredit | ApplyFailed.

Section settle.
Context `{Sha2, Ristretto, KzgLib, SigLib, SerdeJson, Libm}.

Definition settle_chunk_transfer (seeder leecher : string) (chunk_count : N) (config : SwarmConfig) (now : N)
  : action NucleusDb BitswapTransferError () :=
  db ← get_state;
  s ← lift_res (ok_or (channel_snapshot db seeder leecher) MissingChannel);
  let cost := saturating_mul64 chunk_count (chunk_credit_cost config) in
  let p1 := participant1 (record s) in
  let p2 := participant2 (record s) in
  '(b1, b2) ← lift_res
    (if bool_decide (leecher = p1) then
       _ ← throw_if (balance1 s <? cost)%N InsufficientCredit;
       mret (saturating_sub (balance1 s) cost, saturating_add64 (balance2 s) cost)
     else
       _ ← throw_if (balance2 s <? cost)%N InsufficientCredit;
       mret (saturating_add64 (balance1 s) cost, saturating_sub (balance2 s) cost));
  act_map_err (λ _, ApplyFailed) (apply_op (OpUpdate p1 p2 b1 b2) now).
End settle.

(** ** The tools [swarm_publish] and [swarm_fetch] *)

Section tools.
Context `{Blake3, Sha2, Ristretto, KzgLib, SigLib, SJ : SerdeJson, Libm, WJ : !SwarmJson, Base64Std, Redb, PersistJson}.

(** The snapshot file and the log file. *)
Definition DbFiles : Type := option RedbFile * option RedbFile.
(** The part of the server's state that the tools use. *)
Record SwarmService := mk_Service {
  sv_db : NucleusDb;
  sv_store : ChunkStore;
  sv_config : SwarmConfig;
  sv_bitswap : BitswapRuntime;
  sv_files : DbFiles
}.
Record SwarmPublishRequest := {
  rq_data : string;
  rq_encoding : option string;
  rq_asset_type : option AssetType;
  rq_creator_did : option string;
  rq_chunk_size_bytes : option N
}.
Record SwarmPublishResponse := {
  rp_manifest_id : string;
  rp_chunk_count : nat;
  rp_total_size : nat;
  rp_root_hash : string;
  rp_proof_attached : bool
}.

Definition decode_swarm_payload (data : string) (encoding : option string) : result SwarmError bytes :=
  let e := to_ascii_lowercase (trim (default "utf8" encoding)) in
  if bool_decide (e ∈ ["utf8"; "text"]) then Ok (as_bytes data)
  else if bool_decide (e = "base64") then ok_or (b64_std_decode data) SwBase64
  else Err (SwText ("unsupported swarm encoding `" +:+ e +:+ "`")).

(** The files are written by [persist_snapshot_and_sync_wal], unless the disk fails with
    an error that [fault] gives, together with what it leaves of the files. *)
Definition write_files (fault : DbFiles → option (DbFiles * PersistenceError)) (db : NucleusDb)
  : action DbFiles PersistenceError () := λ files,
  match fault files with
  | Some (files', e) => (files', Err e)
  | None => persist_snapshot_and_sync_wal db files
  end.

Definition publish_params (sv : SwarmService) (req : SwarmPublishRequest) : ChunkParams :=
  {| chunk_size_bytes := default (chunk_size_bytes (chunk_params (sv_config sv))) (rq_chunk_size_bytes req) |}.
Definition publish_builder (sv : SwarmService) (req : SwarmPublishRequest) : ManifestBuilder :=
  {| mb_asset_type := default AtBinary (rq_asset_type req);
     mb_creator_did := default "did:key:local" (rq_creator_did req); mb_params := publish_params sv req |}.

(** [std::mem::take] empties the shared store until the store is put back, which is before
    the files are written. *)
Definition swarm_publish (fault : DbFiles → option (DbFiles * PersistenceError)) (req : SwarmPublishRequest) (now : N)
  : action SwarmService SwarmError SwarmPublishResponse :=
  raw ← lift_res (decode_swarm_payload (rq_data req) (rq_encoding req));
  sv ← get_state;
  let chunks := chunk_data raw (publish_params sv req) in
  let keep db store bs files := mk_Service db store (sv_config sv) bs files in
  let '(dbs, r) := store_chunks chunks now (sv_db sv, sv_store sv) in
  _ ← modify (λ _, keep dbs.1 chunk_store_new (sv_bitswap sv) (sv_files sv));
  _ ← lift_res r;
  let bs := register_local_chunks (sv_bitswap sv) chunks in
  let store := set_active_transfers (active_transfers bs) dbs.2 in
  _ ← modify (λ _, keep dbs.1 chunk_store_new bs (sv_files sv));
  m ← lift_res (build (publish_builder sv req) chunks now);
  let '(dbs, r) := store_manifest m now (dbs.1, store) in
  _ ← modify (λ _, keep dbs.1 chunk_store_new bs (sv_files sv));
  _ ← lift_res r;
  let proof_attached := bool_decide (is_Some (get_manifest dbs.2 (m_id m) ≫= m_proof)) in
  let '(files, r) := write_files fault dbs.1 (sv_files sv) in
  _ ← modify (λ _, keep dbs.1 dbs.2 bs files);
  _ ← lift_res (map_err SwPersist r);
  mret {| rp_manifest_id := m_id m; rp_chunk_count := length chunks; rp_total_size := m_total_size m;
          rp_root_hash := m_root_hash m; rp_proof_attached := proof_attached |}.

Definition swarm_fetch (s : ChunkStore) (id : ManifestId) : result SwarmError bytes :=
  m ← ok_or (get_manifest s id) (SwText "unknown manifest id");
  chunks ← ok_or (mapM (get_chunk s) (m_chunk_hashes m)) (SwText "missing local chunk");
  _ ← throw_if (negb (mv_accepted (verify_manifest m chunks))) (SwText "manifest verification failed");
  map_err SwText (reassemble_chunks chunks).
End tools.
