(* ===== verification/SwarmSpec.v ===== *)
(** * Properties of the swarm of [Swarm.v]

    Chunking and reassembly, what a manifest binds, publishing and fetching, what peers
    can obtain and plant, and the payment for chunks. *)
From S2P Require Import Swarm EnvelopeSpec PcnSpec.

#[export] Instance index_le_trans : Transitive index_le.
Proof. intros c d e. unfold index_le. lia. Qed.
#[export] Instance index_le_total : Total index_le.
Proof. intros c d. unfold index_le. lia. Qed.

Section chunks.
Context `{Blake3}.

(** ** Pieces *)

Lemma concat_pieces fuel n data : 0 < n → length data ≤ fuel → concat (pieces fuel n data) = data.
Proof.
  intros Hn. revert data. induction fuel as [|fuel IH]; intros [|b data] Hl; simpl in Hl; try lia; [done..|].
  cbn [pieces concat]. rewrite IH; [by rewrite take_drop|]. rewrite length_drop. simpl. lia.
Qed.

Lemma div_ceil_step m n : (0 < n)%N → (0 < m)%N → div_ceil m n = (1 + div_ceil (m - n) n)%N.
Proof using Type.
  intros Hn Hm. unfold div_ceil. destruct (N.le_gt_cases n m) as [Hle|Hlt].
  - replace m with ((m - n) + 1 * n)%N at 1 2 by lia. rewrite N.div_add, N.Div0.mod_add by lia. lia.
  - rewrite (N.div_small m), (N.mod_small m) by lia. replace (m - n)%N with 0%N by lia.
    rewrite N.Div0.div_0_l, N.Div0.mod_0_l. by replace (m =? 0)%N with false by (symmetry; apply N.eqb_neq; lia).
Qed.

Lemma length_pieces fuel n data :
  0 < n → length data ≤ fuel → N.of_nat (length (pieces fuel n data)) = div_ceil (N.of_nat (length data)) (N.of_nat n).
Proof using Type.
  intros Hn. assert (div_ceil 0 (N.of_nat n) = 0%N) as Hz.
  { unfold div_ceil. by rewrite N.Div0.div_0_l, N.Div0.mod_0_l. }
  revert data. induction fuel as [|fuel IH]; intros [|b data] Hl; simpl in Hl; try lia; [done..|].
  cbn [pieces]. rewrite div_ceil_step by (simpl; lia).
  transitivity (N.succ (N.of_nat (length (pieces fuel n (drop n (b :: data)))))); [simpl length; lia|].
  rewrite IH by (rewrite length_drop; simpl; lia). rewrite length_drop.
  replace (N.of_nat (length (b :: data) - n)) with (N.of_nat (length (b :: data)) - N.of_nat n)%N by lia. lia.
Qed.

Lemma pieces_bound fuel n data p : p ∈ pieces fuel n data → length p ≤ n.
Proof using Type.
  revert data. induction fuel as [|fuel IH]; intros [|b data]; cbn [pieces]; try (by intros ?%not_elem_of_nil).
  intros [->|Hp]%elem_of_cons; [rewrite length_take; lia|by apply IH in Hp].
Qed.

(** ** Chunks in order *)

Lemma wrap32_small n : (n < u32_mod)%N → wrap32 n = n.
Proof using Type. apply N.mod_small. Qed.

Lemma verify_chunk_new i t d : verify_chunk (Chunk_new i t d) = true.
Proof using Type. unfold verify_chunk. simpl. by rewrite bool_decide_eq_true_2, Nat.eqb_refl. Qed.

(** The pieces of [data] as chunks from index [k] on. *)
Definition numbered (k : nat) (total : N) (ps : list bytes) : list Chunk :=
  imap (λ i p, Chunk_new (wrap32 (N.of_nat (k + i))) total p) ps.

Lemma numbered_cons k total p ps :
  numbered k total (p :: ps) = Chunk_new (wrap32 (N.of_nat k)) total p :: numbered (S k) total ps.
Proof using Type.
  unfold numbered. rewrite imap_cons, Nat.add_0_r. f_equal. apply imap_ext. intros i x _. simpl. f_equal. f_equal. lia.
Qed.

Lemma numbered_data k total ps : ck_data <$> numbered k total ps = ps.
Proof using Type. revert k. induction ps as [|p ps IH]; intros k; [done|]. rewrite numbered_cons. simpl. by rewrite IH. Qed.

Lemma check_order_numbered k total ps : check_order total k (numbered k total ps) = Ok tt.
Proof using Type.
  revert k. induction ps as [|p ps IH]; intros k; [done|]. rewrite numbered_cons. cbn [check_order].
  rewrite verify_chunk_new. simpl. rewrite !N.eqb_refl. simpl. apply IH.
Qed.

Lemma elem_of_numbered k total ps c :
  c ∈ numbered k total ps → (N.of_nat (k + length ps) ≤ u32_mod)%N → (N.of_nat k ≤ ck_index c)%N.
Proof using Type.
  unfold numbered. intros (i & Hi)%list_elem_of_lookup Hb. rewrite list_lookup_imap in Hi.
  apply fmap_Some in Hi as (p & Hp & ->). apply lookup_lt_Some in Hp. simpl. rewrite wrap32_small; lia.
Qed.

Lemma numbered_sorted k total ps :
  (N.of_nat (k + length ps) ≤ u32_mod)%N →
  StronglySorted index_le (numbered k total ps) ∧
  ∀ c d, c ∈ numbered k total ps → d ∈ numbered k total ps → index_le c d → index_le d c → c = d.
Proof using Type.
  revert k. induction ps as [|p ps IH]; intros k Hb; [split; [constructor|by intros c d Hc%not_elem_of_nil]|].
  rewrite numbered_cons. simpl length in Hb. destruct (IH (S k)) as [Hs Hu]; [lia|].
  assert (∀ c, c ∈ numbered (S k) total ps → (N.of_nat k < ck_index c)%N) as Hlt.
  { intros c Hc. apply elem_of_numbered in Hc; lia. }
  assert (ck_index (Chunk_new (wrap32 (N.of_nat k)) total p) = N.of_nat k) as Hk by (simpl; apply wrap32_small; lia).
  split.
  - constructor; [done|]. apply Forall_forall. intros c Hc. unfold index_le. rewrite Hk. apply Hlt in Hc. lia.
  - intros c d [->|Hc]%elem_of_cons [->|Hd]%elem_of_cons; [done|..|by apply Hu]; unfold index_le; rewrite Hk.
    + apply Hlt in Hd. lia.
    + apply Hlt in Hc. lia.
Qed.

Lemma ordered_numbered cs total ps :
  (N.of_nat (length ps) ≤ u32_mod)%N → cs ≡ₚ numbered 0 total ps → ordered_chunks cs = numbered 0 total ps.
Proof using Type.
  intros Hb Hp. destruct (numbered_sorted 0 total ps Hb) as [Hs Hu]. unfold ordered_chunks.
  assert (merge_sort index_le cs ≡ₚ numbered 0 total ps) as Hm by by rewrite merge_sort_Permutation.
  apply (StronglySorted_unique_strong index_le); [|apply StronglySorted_merge_sort; apply _|done|done].
  intros c d Hc Hd. apply Hu; [by rewrite <-Hm|done].
Qed.

Lemma reassemble_numbered cs total ps :
  total = N.of_nat (length ps) → (N.of_nat (length ps) ≤ u32_mod)%N → cs ≡ₚ numbered 0 total ps →
  reassemble_chunks cs = Ok (concat ps).
Proof using Type.
  intros -> Hb Hp. pose proof (ordered_numbered _ _ _ Hb Hp) as Ho. unfold reassemble_chunks.
  destruct cs as [|c cs].
  { apply Permutation_nil_l in Hp. destruct ps as [|p ps]; [done|by rewrite numbered_cons in Hp]. }
  assert (c ∈ numbered 0 (N.of_nat (length ps)) ps) as Hc by (rewrite <-Hp; left).
  assert (ck_total c = N.of_nat (length ps)) as ->.
  { unfold numbered in Hc. apply list_elem_of_lookup in Hc as (i & Hi). rewrite list_lookup_imap in Hi.
    by apply fmap_Some in Hi as (p & _ & ->). }
  rewrite Ho. assert (length (numbered 0 (N.of_nat (length ps)) ps) = length ps) as -> by apply length_imap.
  rewrite N.eqb_refl. cbn [negb throw_if mbind result_bind].
  rewrite check_order_numbered. cbn [mbind result_bind]. by rewrite numbered_data.
Qed.

(** The number of chunks of an asset. *)
Definition chunk_count (data : bytes) (params : ChunkParams) : N :=
  match data with [] => 1 | _ => div_ceil (N.of_nat (length data)) (N.max (chunk_size_bytes params) 1) end.

(** [chunk_data] numbers pieces that make up the data. *)
Lemma chunk_data_numbered data params :
  ∃ ps, chunk_data data params = numbered 0 (wrap32 (chunk_count data params)) ps ∧
    concat ps = data ∧ N.of_nat (length ps) = chunk_count data params ∧
    Forall (λ p, (N.of_nat (length p) ≤ N.max (chunk_size_bytes params) 1)%N) ps.
Proof using Type.
  unfold chunk_data, chunk_count. destruct data as [|b data].
  { exists [[]]. split_and!; try done. constructor; [simpl; lia|constructor]. }
  set (n := N.max (chunk_size_bytes params) 1). exists (pieces (length (b :: data)) (N.to_nat n) (b :: data)).
  assert (0 < N.to_nat n) by (unfold n; lia). split_and!.
  - done.
  - by apply concat_pieces.
  - rewrite length_pieces by done. by rewrite N2Nat.id.
  - apply Forall_forall. intros p Hp%pieces_bound. lia.
Qed.

Lemma chunk_data_reassembles data params cs :
  (chunk_count data params < u32_mod)%N → cs ≡ₚ chunk_data data params → reassemble_chunks cs = Ok data.
Proof using Type.
  destruct (chunk_data_numbered data params) as (ps & -> & Hc & Hl & _). intros Hb Hp. rewrite <-Hc.
  apply (reassemble_numbered cs (wrap32 (chunk_count data params))); [|lia|done].
  rewrite wrap32_small; [by rewrite Hl|done].
Qed.

(** ** Manifests *)

Lemma chunk_id_inj x y : chunk_id_from x = chunk_id_from y → x = y ∨ collides blake3 [x; y].
Proof using Type.
  unfold chunk_id_from. intros E. apply (f_equal hex_decode) in E. rewrite !hex_decode_encode in E.
  injection E as E%arr_eq. by apply inj_or_collides.
Qed.

Lemma chunk_ids_inj (xs ys : list bytes) :
  chunk_id_from <$> xs = chunk_id_from <$> ys → xs = ys ∨ collides blake3 (xs ++ ys).
Proof using Type.
  revert ys. induction xs as [|x xs IH]; intros [|y ys] E; try done; [by left|].
  injection E as [->|?]%chunk_id_inj E; [|by_collision]. apply IH in E as [->|?]; [by left|by_collision].
Qed.

Lemma reassembled cs d : reassemble_chunks cs = Ok d → d = concat (ck_data <$> ordered_chunks cs).
Proof using Type.
  unfold reassemble_chunks. destruct cs as [|c cs]; [by intros [= <-]|]. intros Hr. by inv_res.
Qed.
End chunks.

Section manifests.
Context `{Blake3, Sha2, Ristretto, KzgLib, SigLib, SJ : SerdeJson, Libm, WJ : !SwarmJson}.
Implicit Types m : Manifest.

Lemma indexes_numbered k total ps : indexes_from k (numbered k total ps) = true.
Proof using Type.
  unfold indexes_from. apply forallb_forall. intros [i c] Hic%list_elem_of_In.
  apply list_elem_of_lookup in Hic as (j & Hj). rewrite list_lookup_imap in Hj.
  apply fmap_Some in Hj as (c' & Hc' & [= -> ->]). unfold numbered in Hc'. rewrite list_lookup_imap in Hc'.
  apply fmap_Some in Hc' as (p & _ & ->). simpl. by rewrite N.eqb_refl, verify_chunk_new.
Qed.

Lemma numbered_ids k total ps : ck_id <$> numbered k total ps = chunk_id_from <$> ps.
Proof using Type. revert k. induction ps as [|p ps IH]; intros k; [done|]. rewrite numbered_cons. simpl. by rewrite IH. Qed.

Lemma build_ok b chunks now m :
  build b chunks now = Ok m →
  m_chunk_hashes m = ck_id <$> chunks ∧ m_root_hash m = compute_root_hash (ck_id <$> chunks) ∧
  m_id m = chunk_id_from (as_bytes (m_root_hash m)) ∧ m_proof m = None.
Proof using Type. unfold build. intros Hb. inv_res. done. Qed.

Lemma verify_manifest_numbered m cs total ps :
  m_chunk_hashes m = chunk_id_from <$> ps → m_root_hash m = compute_root_hash (chunk_id_from <$> ps) →
  (N.of_nat (length ps) ≤ u32_mod)%N → cs ≡ₚ numbered 0 total ps →
  mv_root_hash_valid (verify_manifest m cs) = true.
Proof using Type.
  intros Hh Hr Hb Hp. unfold verify_manifest. simpl. rewrite (ordered_numbered _ _ _ Hb Hp).
  assert ((λ c, chunk_id_from (ck_data c)) <$> numbered 0 total ps = chunk_id_from <$> ps) as ->.
  { by rewrite <-(numbered_data 0 total ps) at 2; rewrite <-list_fmap_compose. }
  rewrite Hh, Hr, !bool_decide_eq_true_2, indexes_numbered by done.
  assert (length (numbered 0 total ps) = length ps) as -> by apply length_imap.
  by rewrite length_fmap, Nat.eqb_refl.
Qed.

Lemma verified_ids m cs :
  mv_root_hash_valid (verify_manifest m cs) = true →
  chunk_id_from <$> (ck_data <$> ordered_chunks cs) = m_chunk_hashes m.
Proof using Type. unfold verify_manifest. simpl. intros Hv. bool_hyps. by rewrite <-list_fmap_compose. Qed.

(** Claim C14. A manifest stands for one asset.  The chunks of [data], in any order, pass
    [verify_manifest] against the manifest built from them and reassemble to [data]; and
    whatever set of chunks passes that check and reassembles, gives [data] again, or two
    different payloads among those of its chunks and those of the asset's have one BLAKE3
    hash. *)
Theorem manifest_integrity data params b now m :
  (chunk_count data params < u32_mod)%N → build b (chunk_data data params) now = Ok m →
  (∀ cs, cs ≡ₚ chunk_data data params →
     mv_accepted (verify_manifest m cs) = true ∧ reassemble_chunks cs = Ok data) ∧
  ∀ cs d, mv_root_hash_valid (verify_manifest m cs) = true → reassemble_chunks cs = Ok d →
    d = data ∨ collides blake3 (ck_data <$> chunk_data data params ++ ordered_chunks cs).
Proof using Type.
  intros Hb (Hh & Hr & _ & Hp)%build_ok.
  destruct (chunk_data_numbered data params) as (ps & Hps & Hc & Hl & _).
  rewrite Hps, numbered_ids in Hh, Hr. split.
  - intros cs Hcs. split; [|by apply chunk_data_reassembles with params].
    assert (mv_root_hash_valid (verify_manifest m cs) = true) as Hv.
    { rewrite Hps in Hcs. eapply verify_manifest_numbered; [done..| |done]. lia. }
    revert Hv. unfold verify_manifest. simpl. rewrite Hp. intros ->. done.
  - intros cs d Hv%verified_ids ->%reassembled. rewrite Hh in Hv.
    apply chunk_ids_inj in Hv as [->|?]; [by left; rewrite Hc|]. right.
    rewrite Hps, fmap_app, numbered_data. by_collision.
Qed.
End manifests.

(** ** Peers *)

Section peers.
Context `{Blake3}.

(** What happens to a node: it registers the chunks of an asset, its grants are
    configured, a peer sends a message. *)
Inductive BsOp :=
| BsRegister (data : bytes) (params : ChunkParams)
| BsGrants (g : GrantStore)
| BsRequire (b : bool)
| BsMap (peer : string) (puf : arr 32)
| BsPeer (peer : string) (m : BitswapMessage) (now : N).
Definition bs_step (r : BitswapRuntime) (op : BsOp) : BitswapRuntime :=
  match op with
  | BsRegister data params => register_local_chunks r (chunk_data data params)
  | BsGrants g => set_grants r g
  | BsRequire b => set_require_grants r b
  | BsMap peer puf => map_peer_to_grantee r peer puf
  | BsPeer peer m now => (handle_request r peer m now).1
  end.
Definition bs_run (ops : list BsOp) : BitswapRuntime := foldl bs_step bitswap_default ops.

(** A chunk is what its name says. *)
Definition authentic (id : ChunkId) (c : Chunk) : Prop := ck_id c = id ∧ verify_chunk c = true.
Definition store_authentic (m : gmap ChunkId Chunk) : Prop := ∀ id c, m !! id = Some c → authentic id c.

Lemma store_authentic_insert m c :
  store_authentic m → verify_chunk c = true → store_authentic (<[ck_id c := c]> m).
Proof using Type.
  intros Hm Hc id d. destruct (decide (ck_id c = id)) as [<-|Hne].
  - rewrite lookup_insert_eq. by intros [= <-].
  - rewrite lookup_insert_ne by done. apply Hm.
Qed.

Lemma register_authentic r cs :
  store_authentic (local_chunks r) → (∀ c, c ∈ cs → verify_chunk c = true) →
  store_authentic (local_chunks (register_local_chunks r cs)).
Proof using Type.
  unfold register_local_chunks. simpl. generalize (local_chunks r). induction cs as [|c cs IH]; intros m Hm Hc; [done|].
  simpl. apply IH; [|intros d Hd; apply Hc; by right]. apply store_authentic_insert; [done|]. apply Hc. by left.
Qed.

Lemma chunk_data_verify data params c : c ∈ chunk_data data params → verify_chunk c = true.
Proof using Type.
  destruct (chunk_data_numbered data params) as (ps & -> & _). unfold numbered.
  intros (i & Hi)%list_elem_of_lookup. rewrite list_lookup_imap in Hi.
  apply fmap_Some in Hi as (p & _ & ->). apply verify_chunk_new.
Qed.

Lemma request_authentic r peer m now :
  store_authentic (local_chunks r) → store_authentic (local_chunks (handle_request r peer m now).1).
Proof using Type.
  intros Hr. destruct m as [ids|ids|id [|b payload]]; cbn [handle_request]; try done.
  - by destruct (if peer_can_read r peer id now then _ else _).
  - case_bool_decide as E; [|done]. cbn [negb]. simpl in E. subst id. simpl.
    by apply (store_authentic_insert _ (Chunk_new 0 1 (b :: payload))); [|apply verify_chunk_new].
Qed.

Lemma bs_run_authentic ops : store_authentic (local_chunks (bs_run ops)).
Proof using Type.
  unfold bs_run. assert (store_authentic (local_chunks bitswap_default)) as Hd by (intros id c Hl; simpl in Hl; by rewrite lookup_empty in Hl).
  revert Hd. generalize bitswap_default. induction ops as [|op ops IH]; intros r Hr; [done|]. simpl. apply IH.
  destruct op; [|done..|by apply request_authentic].
  apply register_authentic; [done|]. intros c Hc. by eapply chunk_data_verify.
Qed.

(** Whatever peers send, the chunks a node keeps are what their names say, and
    an answer gives a peer nothing that the grants do not let it read: a [Have] that
    answers a [Want] lists only chunks that are there and readable, a [Block] holds the
    bytes with the hash asked for of a readable chunk, and a peer changes neither the
    grants nor the mapping of peers to grantees. *)
Theorem bitswap_requests_safe ops peer m now :
  let r := bs_run ops in
  let '(r', reply) := handle_request r peer m now in
  store_authentic (local_chunks r') ∧
  bs_grants r' = bs_grants r ∧ require_grants r' = require_grants r ∧ peer_aliases r' = peer_aliases r ∧
  match reply with
  | Want _ => False
  | Have ids =>
      ∀ wanted id, m = Want wanted → id ∈ ids →
        id ∈ wanted ∧ peer_can_read r peer id now = true ∧ is_Some (local_chunks r !! id)
  | Block id d =>
      m = Block id [] ∧ peer_can_read r peer id now = true ∧ chunk_id_from d = id
  end.
Proof using Type.
  intros r. pose proof (bs_run_authentic ops) as Hr. fold r in Hr.
  pose proof (request_authentic r peer m now Hr) as Hr'. destruct (handle_request r peer m now) as [r' reply] eqn:E.
  split; [done|]. destruct m as [ids|ids|id [|b payload]]; cbn [handle_request] in E.
  - injection E as <- <-. split_and!; try done. intros wanted id [= <-] Hin.
    apply list_elem_of_filter in Hin as [Hl Hin]. apply list_elem_of_filter in Hin as [Hc Hin]. done.
  - injection E as <- <-. by split_and!.
  - destruct (peer_can_read r peer id now) eqn:Hc; [destruct (local_chunks r !! id) as [c|] eqn:Hl|];
      injection E as <- <-; split_and!; try done.
    destruct (Hr _ _ Hl) as [Hid Hv]. unfold verify_chunk in Hv. bool_hyps. congruence.
  - case_bool_decide; injection E as <- <-; by split_and!.
Qed.

(** A peer that sends a chunk the node already has replaces its place in its asset: the
    copy has index 0 of 1, so the asset no longer reassembles. *)
Lemma block_overwrites_index id c payload r peer now :
  payload ≠ [] → chunk_id_from payload = id → local_chunks r !! id = Some c →
  local_chunks (handle_request r peer (Block id payload) now).1 !! id = Some (Chunk_new 0 1 payload).
Proof using Type.
  intros Hne Hid _. cbn [handle_request]. destruct payload as [|b payload]; [done|].
  rewrite bool_decide_eq_true_2 by done. simpl. apply lookup_insert_eq.
Qed.
End peers.

(** ** Payment *)

Section payment.
Context `{Sha2, Ristretto, KzgLib, SigLib, SerdeJson, Libm}.

Lemma canonical_pair_idem p1 p2 :
  canonical_pair (canonical_pair p1 p2).1 (canonical_pair p1 p2).2 = canonical_pair p1 p2.
Proof using Type.
  unfold canonical_pair. destruct (str_leb p1 p2) eqn:E; simpl; rewrite ?E; [done|].
  replace (str_leb p2 p1) with true; [done|]. symmetry. unfold str_leb in *. bool_hyps.
  apply bool_decide_eq_true_2. by destruct (total String.le p1 p2).
Qed.

(** The balances after the leecher of the ordered pair [(a, _)] has paid. *)
Definition paid (leecher a : string) (cost : N) (s : ChanState) : ChanState :=
  if decide (leecher = a) then mk_ChanState 4 ChOpen (cs_b1 s - cost) (saturating_add64 (cs_b2 s) cost)
  else mk_ChanState 4 ChOpen (saturating_add64 (cs_b1 s) cost) (cs_b2 s - cost).
Definition payer_balance (leecher a : string) (s : ChanState) : N :=
  if decide (leecher = a) then cs_b1 s else cs_b2 s.

(** Settling a transfer moves exactly its cost from the leecher to the seeder:
    on a database that holds a ledger of channels it succeeds only when the channel
    exists, is open and the leecher's balance covers the cost, and then the ledger gains
    one state with the cost moved and the sum unchanged; a refusal for a missing channel
    or a small balance is right and changes nothing. *)
Theorem settle_moves_credit seeder leecher n config now db L db' r :
  let pair := canonical_pair seeder leecher in
  let cost := saturating_mul64 n (chunk_credit_cost config) in
  ledger_rel db L → plain pair.1 = true → plain pair.2 = true → roomy 1 L →
  settle_chunk_transfer seeder leecher n config now db = (db', r) →
  match r with
  | Ok _ => ∃ c, L !! pair = Some c ∧ cs_status (ch_last c) = ChOpen ∧
      (cost ≤ payer_balance leecher pair.1 (ch_last c))%N ∧
      let s := paid leecher pair.1 cost (ch_last c) in
      saturating_add64 (cs_b1 s) (cs_b2 s) = ch_capacity c ∧ ledger_rel db' (<[pair := ch_push c s]> L)
  | Err MissingChannel => L !! pair = None ∧ db' = db
  | Err InsufficientCredit => ∃ c, L !! pair = Some c ∧
      (payer_balance leecher pair.1 (ch_last c) < cost)%N ∧ db' = db
  | Err ApplyFailed => ∃ c, L !! pair = Some c ∧ (cost ≤ payer_balance leecher pair.1 (ch_last c))%N
  end.
Proof using Type.
  intros pair cost HR Hp1 Hp2 Hroom. unfold settle_chunk_transfer, mbind, action_bind, get_state, lift_res.
  rewrite (channel_snapshot_rel _ _ _ _ HR) by done. unfold spec_snapshot. fold pair cost.
  pose proof (canonical_pair_idem seeder leecher) as Hcan. fold pair in Hcan. destruct pair as [a b].
  simpl in Hp1, Hp2, Hcan. destruct (L !! (a, b)) as [c|] eqn:Hc; [|by intros [= <- <-]].
  cbn [mbind option_bind ok_or record participant1 participant2 balance1 balance2 fst snd].
  unfold payer_balance, paid.
  assert (∀ b1 b2 s, act_map_err (λ _, ApplyFailed) (apply_op (OpUpdate a b b1 b2) now) db = (db', r) →
    s = mk_ChanState 4 ChOpen b1 b2 →
    match r with
    | Ok _ => cs_status (ch_last c) = ChOpen ∧ saturating_add64 b1 b2 = ch_capacity c ∧
        ledger_rel db' (<[(a, b) := ch_push c s]> L)
    | Err e => e = ApplyFailed
    end) as Happ.
  { intros b1 b2 s Ha ->. unfold act_map_err in Ha.
    destruct (apply_op (OpUpdate a b b1 b2) now db) as [db2 r2] eqn:E.
    destruct r2 as [u|e]; injection Ha as <- <-; [|done].
    apply (apply_op_result _ _ _ L) in E as (L' & Hs & HL'); [|done|unfold op_plain; simpl; by rewrite Hcan|done
      |by eapply roomy_room].
    unfold spec_op in Hs. simpl in Hs. rewrite Hcan, Hc in Hs. simpl in Hs.
    destruct (negb (_ =? _)%N) eqn:E1; [done|]. destruct (negb (bool_decide _)) eqn:E2; [done|].
    injection Hs as <-. bool_hyps. done. }
  destruct (decide (leecher = a)) as [Hl|Hl];
    [rewrite bool_decide_eq_true_2 by done|rewrite bool_decide_eq_false_2 by done].
  - destruct (throw_if (cs_b1 (ch_last c) <? cost)%N _) eqn:Ht; simpl.
    + apply throw_if_ok, N.ltb_ge in Ht. intros E. pose proof (Happ _ _ _ E eq_refl) as Hr.
      destruct r as [u|[]]; try done; [exists c; naive_solver|by exists c].
    + apply throw_if_err in Ht as [Ht%N.ltb_lt <-]. intros [= <- <-]. by exists c.
  - destruct (throw_if (cs_b2 (ch_last c) <? cost)%N _) eqn:Ht; simpl.
    + apply throw_if_ok, N.ltb_ge in Ht. intros E. pose proof (Happ _ _ _ E eq_refl) as Hr.
      destruct r as [u|[]]; try done; [exists c; naive_solver|by exists c].
    + apply throw_if_err in Ht as [Ht%N.ltb_lt <-]. intros [= <- <-]. by exists c.
Qed.
End payment.

(** ** Publishing and fetching *)

Section publish.
Context `{Blake3, Sha2, Ristretto, KzgLib, SigLib, SJ : SerdeJson, Libm, WJ : !SwarmJson, Base64Std, Redb, PersistJson}.

Lemma act_map_err_ok {S E F T} (f : E → F) (m : action S E T) s s' x :
  act_map_err f m s = (s', Ok x) ↔ m s = (s', Ok x).
Proof using Type. unfold act_map_err. destruct (m s) as [s1 [y|e]]; naive_solver. Qed.
Lemma on_fst_ok {D A E T} (m : action D E T) (d : D) (a : A) s x :
  on_fst m (d, a) = (s, Ok x) ↔ ∃ d', s = (d', a) ∧ m d = (d', Ok x).
Proof using Type. unfold on_fst. destruct (m d) as [d' [y|e]]; naive_solver. Qed.

Lemma put_typed_backend key v now db db' r : put_typed key v now db = (db', r) → backend db' = backend db.
Proof using Type. intros Hp. pose proof (lf_backend _ _ (put_typed_frame key v now db)) as Hb. by rewrite Hp in Hb. Qed.
Lemma commit_backend d views now db db' e : commit d views now db = (db', Ok e) → backend db' = backend db.
Proof using Type. intros Hc%commit_ok_post. by destruct (cp_frame _ _ _ _ _ _ Hc) as (_ & _ & _ & _ & ? & _). Qed.

Lemma put_and_commit_one_backend what key v now db db' idx :
  put_and_commit_one what key v now db = (db', Ok idx) → backend db' = backend db.
Proof using Type.
  unfold put_and_commit_one. intros Hp. inv_act. destruct x as [i c]. inv_act.
  match goal with Hq : act_map_err _ (put_typed _ _ _) _ = _ |- _ => apply act_map_err_ok, put_typed_backend in Hq end.
  match goal with Hq : act_map_err _ (commit _ _ _) _ = _ |- _ => apply act_map_err_ok, commit_backend in Hq end.
  congruence.
Qed.

Lemma persist_manifest_ok m now db db' m' :
  backend db ≠ BkKzg → persist_manifest_with_proof m now db = (db', Ok m') →
  backend db' = backend db ∧ ∃ p, m' = set_proof m (Some p) ∧ accepted (verify_locally p) = true.
Proof using Type.
  intros Hb. unfold persist_manifest_with_proof. intros Hp. inv_act.
  repeat match goal with Hq : put_and_commit_one _ _ _ _ _ = _ |- _ => apply put_and_commit_one_backend in Hq end.
  subst. match goal with Hq : from_query ?d _ _ _ _ = _, Hd : backend ?d = _ |- _ =>
    pose proof (from_query_accepted _ _ _ _ _ _ (ltac:(by rewrite Hd)) Hq) as (_ & _ & Hacc) end.
  split; [congruence|]. by eexists.
Qed.

(** The chunks of the store after some were put. *)
Definition insert_chunks (m : gmap ChunkId Chunk) (cs : list Chunk) : gmap ChunkId Chunk :=
  foldl (λ m c, <[ck_id c := c]> m) m cs.

Lemma put_chunks_ok cs now db s db' s' ws :
  put_chunks cs now (db, s) = ((db', s'), Ok ws) →
  backend db' = backend db ∧ cs_chunks s' = insert_chunks (cs_chunks s) cs ∧ cs_manifests s' = cs_manifests s.
Proof using Type.
  revert db s ws. induction cs as [|c cs IH]; intros db s ws; cbn [put_chunks]; intros Hp.
  { apply action_ret_ok in Hp as [[= -> ->] _]. done. }
  inv_act.
  match goal with Hq : on_fst _ _ = _ |- _ => apply on_fst_ok in Hq as (db1 & -> & Hq);
    apply act_map_err_ok, put_typed_backend in Hq end.
  match goal with Hq : put_chunks _ _ _ = _ |- _ => apply IH in Hq as (Hb & Hc & Hm) end.
  split; [congruence|]. by rewrite Hc, Hm.
Qed.

Lemma store_chunks_ok cs now db s db' s' u :
  store_chunks cs now (db, s) = ((db', s'), Ok u) →
  backend db' = backend db ∧ cs_chunks s' = insert_chunks (cs_chunks s) cs ∧ cs_manifests s' = cs_manifests s.
Proof using Type.
  unfold store_chunks. intros Hs. inv_act. destruct s0 as [db1 s1].
  match goal with Hq : put_chunks _ _ _ = _ |- _ => apply put_chunks_ok in Hq as (Hb & Hc & Hm) end.
  destruct (bool_decide _); [by apply action_ret_ok in Hs as [[= -> ->] _]|]. inv_act.
  match goal with Hq : on_fst _ _ = _ |- _ => apply on_fst_ok in Hq as (db2 & [= -> ->] & Hq);
    apply act_map_err_ok, commit_backend in Hq end.
  split; [congruence|done].
Qed.

Lemma store_manifest_ok m now db s db' s' u :
  backend db ≠ BkKzg → store_manifest m now (db, s) = ((db', s'), Ok u) →
  ∃ p, accepted (verify_locally p) = true ∧ cs_chunks s' = cs_chunks s ∧
    cs_manifests s' !! m_id m = Some (set_proof m (Some p)).
Proof using Type.
  intros Hb. unfold store_manifest. intros Hs.
  apply action_bind_ok in Hs as (m' & [db1 s1] & Hs & Hm). apply modify_ok in Hm. simplify_eq/=.
  apply on_fst_ok in Hs as (db2 & [= -> ->] & Hs).
  destruct (persist_manifest_ok _ _ _ _ _ Hb Hs) as (_ & p & -> & Hacc). exists p. split; [done|]. split; [done|]. apply lookup_insert_eq.
Qed.

Lemma insert_chunks_app m cs c : insert_chunks m (cs ++ [c]) = <[ck_id c := c]> (insert_chunks m cs).
Proof using Type. unfold insert_chunks. by rewrite foldl_app. Qed.
Lemma insert_chunks_is_some m cs c : c ∈ cs → is_Some (insert_chunks m cs !! ck_id c).
Proof using Type.
  induction cs as [|d cs IH] using rev_ind; [by intros ?%not_elem_of_nil|].
  rewrite insert_chunks_app. intros [Hc| ->%list_elem_of_singleton]%elem_of_app; [|by rewrite lookup_insert_eq].
  destruct (decide (ck_id d = ck_id c)) as [->|]; [by rewrite lookup_insert_eq|].
  rewrite lookup_insert_ne by done. by apply IH.
Qed.
Lemma insert_chunks_NoDup m cs c :
  NoDup (ck_id <$> cs) → c ∈ cs → insert_chunks m cs !! ck_id c = Some c.
Proof using Type.
  induction cs as [|d cs IH] using rev_ind; [by intros _ ?%not_elem_of_nil|].
  rewrite insert_chunks_app, fmap_app, NoDup_app. intros (Hnd & Hdis & _).
  intros [Hc| ->%list_elem_of_singleton]%elem_of_app; [|by rewrite lookup_insert_eq].
  rewrite lookup_insert_ne; [by apply IH|]. intros E. apply (Hdis (ck_id c)).
  - by apply list_elem_of_fmap_2.
  - rewrite <-E. by left.
Qed.

Lemma mapM_get_chunk s cs :
  (∀ c, c ∈ cs → is_Some (cs_chunks s !! ck_id c)) →
  ∃ fetched, mapM (get_chunk s) (ck_id <$> cs) = Some fetched ∧
    Forall2 (λ id c, cs_chunks s !! id = Some c) (ck_id <$> cs) fetched.
Proof using Type.
  intros Hs. destruct (mapM_is_Some_2 (get_chunk s) (ck_id <$> cs)) as [f Hf].
  - apply Forall_fmap, Forall_forall. intros c Hc. by apply Hs.
  - exists f. split; [done|]. by apply mapM_Some_1 in Hf.
Qed.

(** The indexes of a set of chunks that passes the check are all different. *)
Lemma verified_NoDup m cs :
  mv_root_hash_valid (verify_manifest m cs) = true → (N.of_nat (length cs) ≤ u32_mod)%N → NoDup (ck_index <$> cs).
Proof using Type.
  unfold verify_manifest. simpl. intros Hv Hb. bool_hyps.
  match goal with Hi : indexes_from 0 _ = true |- _ => rename Hi into Hix end.
  assert (length (ordered_chunks cs) = length cs) as Hl by (unfold ordered_chunks; by rewrite merge_sort_Permutation).
  rewrite <-(merge_sort_Permutation index_le cs). fold (ordered_chunks cs). apply NoDup_alt. intros i j x Hi Hj.
  assert (∀ k, (ck_index <$> ordered_chunks cs) !! k = Some x → x = N.of_nat k) as Hk.
  { intros k. rewrite list_lookup_fmap, fmap_Some. intros (c & Hc & ->). unfold indexes_from in Hix.
    rewrite forallb_forall in Hix. specialize (Hix (0 + k, c)). simpl in Hix.
    pose proof (lookup_lt_Some _ _ _ Hc). destruct (andb_prop _ _ (Hix ltac:(
      apply list_elem_of_In, (list_elem_of_lookup_2 _ k); by rewrite list_lookup_imap, Hc))) as [E _].
    apply N.eqb_eq in E. rewrite E, wrap32_small by lia. done. }
  apply Hk in Hi, Hj. lia.
Qed.

(** What [swarm_fetch] finds once the chunks of [raw] are in the store. *)
Lemma fetch_ids s0 raw params :
  let cs := chunk_data raw params in
  ∃ fetched,
    (∀ s, cs_chunks s = insert_chunks s0 cs → mapM (get_chunk s) (ck_id <$> cs) = Some fetched) ∧
    (if decide (NoDup (ck_id <$> cs)) then fetched = cs
     else (length fetched = length cs ∧ ¬ NoDup (ck_index <$> fetched))).
Proof using Type.
  intros cs. destruct (mapM_get_chunk (mk_ChunkStore (insert_chunks s0 cs) ∅ 0) cs) as (f & Hf & Hl);
    [intros c Hc; by apply insert_chunks_is_some|]. simpl in Hl.
  exists f. split; [intros s Hs; rewrite <-Hf; f_equal; unfold get_chunk; by rewrite Hs|].
  destruct (decide _) as [Hnd|Hnd].
  - apply list_eq. intros i. rewrite Forall2_lookup in Hl. specialize (Hl i). rewrite list_lookup_fmap in Hl.
    destruct (cs !! i) as [c|] eqn:Hc; inversion Hl as [id d Hd|]; subst; [|done].
    rewrite insert_chunks_NoDup in Hd; [by simplify_eq|done|by eapply list_elem_of_lookup_2].
  - split; [apply Forall2_length in Hl; by rewrite length_fmap in Hl|]. intros Hix. apply Hnd.
    apply NoDup_alt. intros i j id Hi Hj. rewrite NoDup_alt in Hix.
    destruct (Forall2_lookup_l _ _ _ _ _ Hl Hi) as (c & Hc & Hci).
    destruct (Forall2_lookup_l _ _ _ _ _ Hl Hj) as (d & Hd & Hdj).
    apply (Hix i j (ck_index c)); rewrite list_lookup_fmap; [by rewrite Hc|].
    rewrite Hci in Hdj. injection Hdj as <-. by rewrite Hd.
Qed.

(** Steps whose errors are not those of the files. *)
Definition before_files {S T} (m : action S SwarmError T) : Prop :=
  ∀ s s' e, m s = (s', Err e) → ∀ e', e ≠ SwPersist e'.

Lemma before_files_bind {S A B} (m : action S SwarmError A) (k : A → action S SwarmError B) :
  before_files m → (∀ x, before_files (k x)) → before_files (x ← m; k x).
Proof using Type.
  intros Hm Hk s s' e. unfold mbind, action_bind. destruct (m s) as [s1 [x|e1]] eqn:E; [apply Hk|].
  intros [= <- <-]. by eapply Hm.
Qed.
Lemma before_files_ret {S T} (x : T) : before_files (S := S) (mret x).
Proof using Type. done. Qed.
Lemma before_files_state {S} : before_files (S := S) get_state.
Proof using Type. done. Qed.
Lemma before_files_modify {S} (f : S → S) : before_files (modify f).
Proof using Type. done. Qed.
Lemma before_files_lift {S T} (r : result SwarmError T) :
  (∀ e', r ≠ Err (SwPersist e')) → before_files (S := S) (lift_res r).
Proof using Type. intros Hr s s' e [= <- E] e' ->. by apply (Hr e'). Qed.
Lemma before_files_map {S E T} (f : E → SwarmError) (m : action S E T) :
  (∀ e e', f e ≠ SwPersist e') → before_files (act_map_err f m).
Proof using Type. intros Hf s s' e. unfold act_map_err. destruct (m s) as [s1 [x|e1]]; [done|]. intros [= <- <-]. apply Hf. Qed.
Lemma before_files_fst {D A T} (m : action D SwarmError T) : before_files m → before_files (on_fst (A := A) m).
Proof using Type.
  intros Hm [d a] s' e. unfold on_fst. destruct (m d) as [d1 r] eqn:E. intros [= <- ->]. by eapply Hm.
Qed.
Lemma ok_or_before {T} (o : option T) e e' : e ≠ SwPersist e' → ok_or o e ≠ Err (SwPersist e').
Proof using Type. destruct o; simpl; congruence. Qed.
(** Goes through the steps of an action. *)
Ltac before_tac :=
  repeat first
    [ done
    | apply before_files_bind; [|intros ?]
    | apply before_files_lift; intros ?; apply ok_or_before; discriminate
    | apply before_files_map; discriminate
    | apply before_files_fst
    | case_match ].

Lemma build_before b chunks now e' : build b chunks now ≠ Err (SwPersist e').
Proof using Type. unfold build. intros Hb. repeat case_bool_decide || destruct (existsb _ _); simpl in Hb; done. Qed.
Lemma put_one_before what key v now : before_files (put_and_commit_one what key v now).
Proof using Type. unfold put_and_commit_one. before_tac. Qed.
Lemma store_chunks_before chunks now : before_files (store_chunks chunks now).
Proof using Type.
  unfold store_chunks. apply before_files_bind.
  - induction chunks as [|c chunks IH]; cbn [put_chunks]; before_tac.
  - intros ws. before_tac.
Qed.
Lemma store_manifest_before m now : before_files (store_manifest m now).
Proof using Type.
  unfold store_manifest, persist_manifest_with_proof. before_tac; try apply put_one_before.
  apply before_files_lift. intros e'. destruct (from_query _ _ _ _ _); done.
Qed.

(** What [swarm_fetch] answers for a manifest of [raw] once both are in the store. *)
Definition fetched (m : Manifest) (raw : bytes) : result SwarmError bytes :=
  if decide (NoDup (m_chunk_hashes m)) then Ok raw else Err (SwText "manifest verification failed").

Lemma stored_fetch raw params b now m s0 s p :
  (chunk_count raw params < u32_mod)%N → build b (chunk_data raw params) now = Ok m →
  cs_chunks s = insert_chunks s0 (chunk_data raw params) →
  cs_manifests s !! m_id m = Some (set_proof m (Some p)) → accepted (verify_locally p) = true →
  swarm_fetch s (m_id m) = fetched m raw.
Proof using Type.
  intros Hbound (Hids & Hroot & _ & Hpr)%build_ok Hc1 Hm2 Hacc.
  unfold swarm_fetch, fetched, get_manifest. rewrite Hm2. cbn [ok_or mbind result_bind].
  destruct (fetch_ids s0 raw params) as (f & Hf & Hcase).
  change (m_chunk_hashes (set_proof m (Some p))) with (m_chunk_hashes m).
  rewrite Hids, (Hf s) by done. cbn [ok_or mbind result_bind].
  assert (mv_accepted (verify_manifest (set_proof m (Some p)) f) =
          mv_root_hash_valid (verify_manifest (set_proof m (Some p)) f)) as ->.
  { unfold verify_manifest. simpl. by rewrite Hacc, andb_true_r. }
  destruct (chunk_data_numbered raw params) as (ps & Hps & Hcat & Hl & _).
  assert (length (chunk_data raw params) = length ps) as Hlen by (rewrite Hps; apply length_imap).
  destruct (decide _) as [Hnd|Hnd].
  - subst f. replace (mv_root_hash_valid _) with true; simpl.
    { by rewrite (chunk_data_reassembles raw params). }
    symmetry. rewrite Hps, numbered_ids in Hids, Hroot. rewrite Hps.
    eapply verify_manifest_numbered; [exact Hids|exact Hroot| |done]. lia.
  - destruct Hcase as [Hlf Hix]. destruct (mv_root_hash_valid _) eqn:Hv; [|done].
    apply verified_NoDup in Hv; [done|]. rewrite Hlf, Hlen. lia.
Qed.

(** Claim C15. What a publish leaves.  If the payload does not decode, nothing changed.
    Otherwise either both the chunks and the manifest were stored, and then fetching by the
    manifest's identifier gives the payload back exactly when its chunks have different
    hashes: of two equal chunks the store keeps one, and the set never passes the check of
    the reader; the answer is that manifest, with its proof attached, or the error with
    which the files were not written.  Or the publish failed before, and then the shared
    chunk store is empty: its old content is gone. *)
Theorem swarm_publish_fetch fault req now sv sv' r :
  backend (sv_db sv) ≠ BkKzg → swarm_publish fault req now sv = (sv', r) →
  match decode_swarm_payload (rq_data req) (rq_encoding req) with
  | Err e => r = Err e ∧ sv' = sv
  | Ok raw =>
      (chunk_count raw (publish_params sv req) < u32_mod)%N →
      (∃ m, build (publish_builder sv req) (chunk_data raw (publish_params sv req)) now = Ok m ∧
         swarm_fetch (sv_store sv') (m_id m) = fetched m raw ∧
         match r with
         | Ok p => rp_manifest_id p = m_id m ∧ rp_proof_attached p = true
         | Err e => ∃ e', e = SwPersist e'
         end) ∨
      (∃ e, r = Err e ∧ (∀ e', e ≠ SwPersist e') ∧ sv_store sv' = chunk_store_new)
  end.
Proof using Type.
  intros Hb. unfold swarm_publish, mbind, action_bind, get_state, modify, lift_res.
  destruct (decode_swarm_payload _ _) as [raw|e]; [|by intros [= <- <-]].
  destruct (store_chunks _ _ _) as [[db1 s1] [u|e]] eqn:Hs;
    [|intros [= <- <-] _; right; exists e; split_and!; [done|by eapply store_chunks_before|done]].
  destruct (build _ _ _) as [m|e] eqn:Hm;
    [|intros [= <- <-] _; right; exists e; split_and!; [done|intros e' ->; by eapply build_before|done]].
  destruct (store_manifest _ _ _) as [[db2 s2] [u2|e]] eqn:Hst;
    [|intros [= <- <-] _; right; exists e; split_and!; [done|by eapply store_manifest_before|done]].
  apply store_chunks_ok in Hs as (Hb1 & Hc1 & _).
  destruct (store_manifest_ok _ _ _ _ _ _ _ (ltac:(by rewrite Hb1)) Hst) as (p & Hacc & Hc2 & Hm2).
  destruct (write_files _ _ _) as [files rf]. intros Hr Hbound. left. exists m. split; [done|].
  split.
  - replace (sv_store sv') with s2; [|by destruct rf; injection Hr as <- <-].
    eapply stored_fetch; [exact Hbound|exact Hm|by rewrite Hc2|exact Hm2|exact Hacc].
  - destruct rf as [[]|e']; injection Hr as <- <-; [|by exists e']. split; [done|].
    simpl. unfold get_manifest. rewrite Hm2. by apply bool_decide_eq_true.
Qed.
End publish.

(** ** Examples *)

Section witnesses.
#[local] Existing Instances prefix_sha toy_ristretto toy_kzg toy_sig raw_json id_powf.

(** The last bytes of the input stand in for the hash. *)
Definition suffix_blake3 : Blake3 := {| blake3 := λ l, to_arr 32 (rev l) |}.
#[local] Existing Instance suffix_blake3.
(** Encoders that keep the identifier. *)
Definition id_swarm_json : SwarmJson := {|
  chunk_to_vec := λ c, Some (ck_data c); chunk_from_slice := λ _, None;
  manifest_to_value := λ m, Some (as_bytes (m_id m)); manifest_from_value := λ _, None;
  envelope_to_value := λ e, Some (as_bytes (env_key e)); envelope_from_value := λ _, None |}.
#[local] Existing Instance id_swarm_json.

Definition ex_params : ChunkParams := {| chunk_size_bytes := 2 |}.
Definition ex_asset : bytes := as_bytes "abcde".
Definition ex_twice : bytes := as_bytes "abab".
Definition ex_builder : ManifestBuilder :=
  {| mb_asset_type := AtDataset; mb_creator_did := "did:key:z1"; mb_params := ex_params |}.

Lemma manifest_integrity_witness :
  ∃ m, build ex_builder (chunk_data ex_asset ex_params) 7 = Ok m ∧ length (m_chunk_hashes m) = 3 ∧
  reassemble_chunks (rev (chunk_data ex_asset ex_params)) = Ok ex_asset.
Proof.
  destruct (build ex_builder (chunk_data ex_asset ex_params) 7) as [m|e] eqn:Hm; [|vm_compute in Hm; discriminate].
  exists m. split; [done|]. split; [vm_compute in Hm; by injection Hm as <-|].
  apply (manifest_integrity ex_asset ex_params ex_builder 7 m); [by vm_compute|exact Hm|].
  symmetry. apply Permutation_rev.
Defined.

Definition ex_swarm_config : SwarmConfig := swarm_config_default.
Definition ex_settle_db : NucleusDb := (settle_chunk_transfer "bob" "alice" 3 ex_swarm_config 20 ex_open_db).1.
Lemma settle_moves_credit_witness :
  (∃ c, ex_ledger !! ("alice", "bob") = Some c ∧ cs_status (ch_last c) = ChOpen ∧
      (3 * chunk_credit_cost ex_swarm_config ≤ payer_balance "alice" "alice" (ch_last c))%N ∧
      let s := paid "alice" "alice" (3 * chunk_credit_cost ex_swarm_config) (ch_last c) in
      saturating_add64 (cs_b1 s) (cs_b2 s) = ch_capacity c ∧
      ledger_rel ex_settle_db (<[("alice", "bob") := ch_push c s]> ex_ledger)).
Proof.
  apply (settle_moves_credit "bob" "alice" 3 ex_swarm_config 20 ex_open_db ex_ledger ex_settle_db (Ok tt)).
  - apply ex_open_rel.
  - done.
  - done.
  - intros p c Hc. unfold ex_ledger in Hc. apply lookup_singleton_Some in Hc as [_ <-]. by vm_compute.
  - unfold ex_settle_db. apply pair_snd. by vm_compute.
Defined.

Definition toy_std64 : Base64Std := {| b64_std_encode := of_bytes; b64_std_decode := λ s, Some (as_bytes s) |}.
#[local] Existing Instances toy_std64 toy_redb ex_persist_json.
Definition ex_service : SwarmService := mk_Service ex_db chunk_store_new swarm_config_default bitswap_default (None, None).
Definition ex_request (data : string) : SwarmPublishRequest := {|
  rq_data := data; rq_encoding := Some " UTF8"; rq_asset_type := Some AtDataset;
  rq_creator_did := Some "did:key:z1"; rq_chunk_size_bytes := Some 2%N |}.
Definition disk_full : DbFiles → option (DbFiles * PersistenceError) := λ files, Some (files, PersistIo).
(** Whether the files were written, and whether the chunks of the manifest are all different. *)
Definition ex_published (fault : DbFiles → option (DbFiles * PersistenceError)) (data : string) : option (bool * bool) :=
  match build (publish_builder ex_service (ex_request data)) (chunk_data (as_bytes data) ex_params) 7 with
  | Ok m => Some (is_ok (swarm_publish fault (ex_request data) 7 ex_service).2, bool_decide (NoDup (m_chunk_hashes m)))
  | Err _ => None
  end.

Lemma swarm_publish_fetch_witness :
  ex_published (λ _, None) "abcde" = Some (true, true) ∧ ex_published (λ _, None) "abab" = Some (true, false) ∧
  ex_published disk_full "abcde" = Some (false, true) ∧
  ∀ data fault, data ∈ ["abcde"; "abab"] →
    let '(sv, r) := swarm_publish fault (ex_request data) 7 ex_service in
    (∃ m, swarm_fetch (sv_store sv) (m_id m) = fetched m (as_bytes data)) ∨ sv_store sv = chunk_store_new.
Proof.
  split_and!; [by vm_compute..|]. intros data fault Hd.
  destruct (swarm_publish fault (ex_request data) 7 ex_service) as [sv r] eqn:E.
  pose proof (swarm_publish_fetch fault (ex_request data) 7 ex_service sv r ltac:(done) E) as Hp.
  change (decode_swarm_payload _ _) with (Ok (E := SwarmError) (as_bytes data)) in Hp. cbn beta iota in Hp.
  destruct Hp as [(m & _ & Hf & _)|(e & _ & _ & Hs)]; [|left; by exists m|by right].
  repeat (apply elem_of_cons in Hd as [->|Hd]; [by vm_compute|]). by apply not_elem_of_nil in Hd.
Defined.
End witnesses.
