(* ===== verification/Vcs.v ===== *)
(** * Work records: [src/src/vcs/record.rs], [src/src/vcs/agent.rs]

    A work record is stored under its hash in cells of the database: the length of its
    encoding, its bytes in chunks of eight, and index keys.  [Vcs.WR] is the record
    store, [Vcs.Agent] the merge of record lists and the import from a git status.  The
    clock is an argument; the git output and the files of the worktree are read through
    arguments. *)
From S2P Require Export Protocol.

Abbreviation hash32 := (arr 32).

(** ** Data *)

Inductive FileOp :=
| FoCreate (path : string) (content_hash : hash32)
| FoModify (path : string) (old_hash new_hash : hash32) (patch : option bytes)
| FoDelete (path : string) (content_hash : hash32)
| FoRename (old_path new_path : string) (content_hash : hash32).
#[export] Instance FileOp_eq_dec : EqDecision FileOp.
Proof. solve_decision. Defined.

(** [FileOp::paths]. *)
Definition op_paths (op : FileOp) : list string :=
  match op with
  | FoCreate p _ | FoModify p _ _ _ | FoDelete p _ => [p]
  | FoRename o n _ => [o; n]
  end.

Record WorkRecord := mk_WorkRecord {
  wr_hash : hash32;
  wr_parents : list hash32;
  wr_author_puf : hash32;
  wr_timestamp : N;
  wr_op : FileOp;
  wr_proof_ref : option N
}.
#[export] Instance WorkRecord_eq_dec : EqDecision WorkRecord.
Proof. solve_decision. Defined.

Inductive FileOpInput :=
| CreateIn (path content_hash : string)
| ModifyIn (path old_hash new_hash : string) (patch : option bytes)
| DeleteIn (path content_hash : string)
| RenameIn (old_path new_path content_hash : string).

Record WorkRecordInput := mk_WorkRecordInput {
  in_parents : list string;
  in_author_puf : string;
  in_timestamp : option N;
  in_op : FileOpInput
}.

Record WorkRecordView := mk_WorkRecordView {
  vw_hash : string;
  vw_parents : list string;
  vw_author_puf : string;
  vw_timestamp : N;
  vw_op : FileOp;
  vw_proof_ref : option N
}.

Record QueryFilter := mk_QueryFilter {
  qf_hash : option hash32;
  qf_author_puf : option hash32;
  qf_path_prefix : option string;
  qf_start : option N;
  qf_end : option N;
  qf_limit : option nat
}.

Record SubmitResult := mk_SubmitResult {
  sr_hash : hash32;
  sr_proof_ref : N;
  sr_commit_height : N;
  sr_state_root : NodeHash
}.

Record StoreStatus := mk_StoreStatus {
  st_record_count : nat;
  st_latest_hash : option hash32;
  st_latest_timestamp : option N;
  st_sth_tree_size : N;
  st_sth_root : option NodeHash;
  st_sth_timestamp : option N
}.

(** The texts of the errors, with their operands. *)
Inductive VcsError :=
| HashLength (chars : nat)
| HexDigit (b : ascii)
| SerializeRecord
| CommitRecord (e : CommitError)
| SlicePanic (** a string slice that is not on a character boundary *)
| GitStatus (e : string).

(** ** Hexadecimal hashes *)

(** [bytes_hex] is the loop of [hex_encode]: two [hex_digit]s a byte. *)
Definition bytes_hex (b : bytes) : string := hex_encode b.
Definition hash_hex (h : hash32) : string := bytes_hex (arr_bytes h).

Definition vcs_nibble (c : ascii) : result VcsError N := ok_or (hex_nibble c) (HexDigit c).

Fixpoint parse_pairs (s : string) : result VcsError bytes :=
  match s with
  | String a (String b s') =>
      hi ← vcs_nibble a; lo ← vcs_nibble b;
      rest ← parse_pairs s'; mret (nibbles hi lo :: rest)
  | _ => Ok []
  end.

Definition parse_hash_hex (raw : string) : result VcsError hash32 :=
  let s := trim raw in
  let s := default s (strip_prefix "0x" s) in
  if negb (str_len s =? 64) then Err (HashLength (str_len s))
  else out ← parse_pairs s; mret (to_arr 32 out).

Fixpoint parse_hashes (l : list string) : result VcsError (list hash32) :=
  match l with
  | [] => Ok []
  | h :: l' => x ← parse_hash_hex h; rest ← parse_hashes l'; mret (x :: rest)
  end.

(** [FileOp::try_from]. *)
Definition op_try_from (op : FileOpInput) : result VcsError FileOp :=
  match op with
  | CreateIn p h => h ← parse_hash_hex h; mret (FoCreate p h)
  | ModifyIn p o n patch => o ← parse_hash_hex o; n ← parse_hash_hex n; mret (FoModify p o n patch)
  | DeleteIn p h => h ← parse_hash_hex h; mret (FoDelete p h)
  | RenameIn o n h => h ← parse_hash_hex h; mret (FoRename o n h)
  end.

Definition zero32 : hash32 := to_arr 32 [].

Definition into_record (i : WorkRecordInput) (now : N) : result VcsError WorkRecord :=
  parents ← parse_hashes (in_parents i);
  author ← parse_hash_hex (in_author_puf i);
  op ← op_try_from (in_op i);
  mret (mk_WorkRecord zero32 parents author (default now (in_timestamp i)) op None).

Definition view_of (r : WorkRecord) : WorkRecordView :=
  mk_WorkRecordView (hash_hex (wr_hash r)) (hash_hex <$> wr_parents r) (hash_hex (wr_author_puf r))
    (wr_timestamp r) (wr_op r) (wr_proof_ref r).

(** ** Encodings *)

(** [serde_json] on the canonical form that is hashed and on the whole record. *)
Class VcsJson := {
  canonical_to_vec : list hash32 → hash32 → N → FileOp → option bytes;
  record_to_vec : WorkRecord → option bytes;
  record_from_slice : bytes → option WorkRecord
}.
Class VcsJson_Laws (J : VcsJson) : Prop := {
  record_json_roundtrip r b : record_to_vec r = Some b → record_from_slice b = Some r
}.

(** [bytes.chunks(8)], big-endian, the last chunk filled up with zeros. *)
Definition bytes_to_u64_chunks (b : bytes) : list N := chunk_words of_be_bytes (length b) b.
Definition u64_chunks_to_bytes (cs : list N) : bytes := cs ≫= be_bytes 8.

(** ** Keys *)

Definition RECORD_PREFIX : string := "abraxas:record:".
Definition AUTHOR_INDEX_PREFIX : string := "abraxas:idx:author:".
Definition PATH_INDEX_PREFIX : string := "abraxas:idx:path:".
Definition TS_INDEX_PREFIX : string := "abraxas:idx:ts:".

Definition record_len_key (hash_hex : string) : string := RECORD_PREFIX +:+ hash_hex +:+ ":len".
Definition record_chunk_key (hash_hex : string) (idx : nat) : string :=
  RECORD_PREFIX +:+ hash_hex +:+ ":chunk:" +:+ dec_nat idx.
Definition author_index_key (author_hex : string) (ts : N) (hash_hex : string) : string :=
  AUTHOR_INDEX_PREFIX +:+ author_hex +:+ ":" +:+ dec ts +:+ ":" +:+ hash_hex.
Definition path_index_key (path_hex : string) (ts : N) (hash_hex : string) : string :=
  PATH_INDEX_PREFIX +:+ path_hex +:+ ":" +:+ dec ts +:+ ":" +:+ hash_hex.
Definition timestamp_index_key (ts : N) (hash_hex : string) : string :=
  TS_INDEX_PREFIX +:+ dec ts +:+ ":" +:+ hash_hex.

Definition parse_record_len_key (key : string) : option hash32 :=
  if negb (starts_with key RECORD_PREFIX) || negb (ends_with key ":len") then None
  else
    rest ← strip_prefix RECORD_PREFIX key;
    trimmed ← strip_suffix ":len" rest;
    res_ok (parse_hash_hex (trim trimmed)).

(** ** Order: [sort_by_key(|r| (r.timestamp, r.hash))] *)

Definition rec_key (r : WorkRecord) : N * hash32 := (wr_timestamp r, wr_hash r).
Definition key_leq (p q : N * hash32) : Prop :=
  (p.1 < q.1)%N ∨ p.1 = q.1 ∧ hash_le p.2 q.2.
#[export] Instance key_leq_dec : RelDecision key_leq.
Proof. intros p q. unfold key_leq. apply _. Defined.
Definition rec_le (r s : WorkRecord) : Prop := key_leq (rec_key r) (rec_key s).
#[export] Instance rec_le_dec : RelDecision rec_le.
Proof. intros r s. unfold rec_le. apply _. Defined.
Definition sort_records (l : list WorkRecord) : list WorkRecord := merge_sort rec_le l.

(** ** The record store *)

Module WR.
Section store.
Context `{Sha2, Ristretto, KzgLib, SigLib, SerdeJson, Libm, VcsJson}.
Implicit Types db : NucleusDb.

Definition compute_hash (r : WorkRecord) : hash32 :=
  sha256 (default [] (canonical_to_vec (wr_parents r) (wr_author_puf r) (wr_timestamp r) (wr_op r))).

Definition set_keymap db (km : KeyMap) : NucleusDb :=
  set_typed db km (type_map db) (blob_store db) (vector_index db).

(** The record as it is stored. *)
Definition finalize db (r : WorkRecord) : WorkRecord :=
  mk_WorkRecord (compute_hash r) (wr_parents r) (wr_author_puf r) (wr_timestamp r) (wr_op r)
    (Some (N.of_nat (length (db_entries db)) + 1)%N).

Definition record_writes (r : WorkRecord) (payload : bytes) : list (string * N) :=
  let hex := hash_hex (wr_hash r) in
  (record_len_key hex, N.of_nat (length payload)) ::
  imap (λ i chunk, (record_chunk_key hex i, chunk)) (bytes_to_u64_chunks payload) ++
  [(author_index_key (hash_hex (wr_author_puf r)) (wr_timestamp r) hex, 1%N);
   (timestamp_index_key (wr_timestamp r) hex, 1%N)] ++
  ((λ path, (path_index_key (bytes_hex (as_bytes path)) (wr_timestamp r) hex, 1%N)) <$> op_paths (wr_op r)).

Definition commit_writes (writes : list (nat * N)) (now : N) : action NucleusDb VcsError CommitEntry :=
  λ db, let '(db', e) := commit (mk_Delta writes) [] now db in (db', map_err CommitRecord e).

Definition submit_record (record : WorkRecord) (now : N) : action NucleusDb VcsError SubmitResult :=
  db ← get_state;
  let r := finalize db record in
  payload ← lift_res (ok_or (record_to_vec r) SerializeRecord);
  let '(km, writes) := put_keys (keymap db) (record_writes r payload) in
  _ ← modify (λ db, set_keymap db km);
  entry ← commit_writes writes now;
  mret (mk_SubmitResult (wr_hash r) (height entry) (height entry) (state_root entry)).

Definition read_value_by_key db (key : string) : option N := cell (keymap db) (values (state db)) key.

(** [(0..chunk_count)], reading each chunk or stopping. *)
Fixpoint read_chunks db (hex : string) (n i : nat) : option (list N) :=
  match n with
  | O => Some []
  | S n' =>
      v ← read_value_by_key db (record_chunk_key hex i);
      rest ← read_chunks db hex n' (S i);
      Some (v :: rest)
  end.

Definition div_ceil8 (n : N) : nat := N.to_nat ((n + 7) / 8).

Definition get_record db (hash : hash32) : option WorkRecord :=
  let hex := hash_hex hash in
  len ← read_value_by_key db (record_len_key hex);
  chunks ← read_chunks db hex (div_ceil8 len) 0;
  r ← record_from_slice (take (N.to_nat len) (u64_chunks_to_bytes chunks));
  if decide (wr_hash r = hash) then Some r else None.

(** A [BTreeSet], collected in order. *)
Definition all_record_hashes db : list hash32 :=
  merge_sort hash_le
    (remove_dups (omap (λ kv : string * nat, parse_record_len_key kv.1) (KM.all_keys (keymap db)))).

Definition matches_filter (r : WorkRecord) (f : QueryFilter) : bool :=
  match qf_author_puf f with Some a => bool_decide (wr_author_puf r = a) | None => true end &&
  match qf_start f with Some s => negb (wr_timestamp r <? s)%N | None => true end &&
  match qf_end f with Some e => negb (e <? wr_timestamp r)%N | None => true end &&
  match qf_path_prefix f with
  | Some p => existsb (λ path, starts_with path p) (op_paths (wr_op r))
  | None => true
  end.

Definition query_records db (f : QueryFilter) : list WorkRecord :=
  match qf_hash f with
  | Some h => filter (λ r, matches_filter r f = true) (option_list (get_record db h))
  | None =>
      let out := omap (λ h, r ← get_record db h; if matches_filter r f then Some r else None)
                   (all_record_hashes db) in
      let out := sort_records out in
      match qf_limit f with Some n => take n out | None => out end
  end.

Definition latest_step db (latest : option (N * hash32)) (h : hash32) : option (N * hash32) :=
  match get_record db h with
  | Some r =>
      match latest with
      | Some (ts, _) => if (wr_timestamp r <=? ts)%N then latest else Some (wr_timestamp r, h)
      | None => Some (wr_timestamp r, h)
      end
  | None => latest
  end.

Definition status db : StoreStatus :=
  let hashes := all_record_hashes db in
  let latest := foldl (latest_step db) None hashes in
  mk_StoreStatus (length hashes) (snd <$> latest) (fst <$> latest)
    (default 0%N (tree_size <$> current_sth db)) (root_hash <$> current_sth db)
    (timestamp_unix_secs <$> current_sth db).
End store.
End WR.

(** ** Merging and importing *)

Module Agent.

Record PathConflict := mk_PathConflict {
  pc_path : string;
  pc_left_hash : hash32;
  pc_right_hash : hash32;
  pc_left_timestamp : N;
  pc_right_timestamp : N
}.

Record MergeSnapshot := mk_MergeSnapshot {
  ms_record_count : nat;
  ms_merged_count : nat;
  ms_conflict_count : nat;
  ms_head_hash : option hash32;
  ms_conflicts : list PathConflict
}.

Abbreviation PathMap := (gmap string (N * hash32)).

(** The conflict of a record with the last one that touched a path. *)
Definition conflict_of (r : WorkRecord) (m : PathMap) (path : string) : list PathConflict :=
  match m !! path with
  | Some (ts, h) =>
      if bool_decide (ts = wr_timestamp r) && negb (bool_decide (h = wr_hash r))
      then [mk_PathConflict path h (wr_hash r) ts (wr_timestamp r)]
      else []
  | None => []
  end.

(** The body of the loop over the paths of one record. *)
Definition touch (r : WorkRecord) (acc : PathMap * list PathConflict) (path : string)
  : PathMap * list PathConflict :=
  (<[path := rec_key r]> acc.1, acc.2 ++ conflict_of r acc.1 path).

Definition analyze_step (acc : PathMap * list PathConflict) (r : WorkRecord)
  : PathMap * list PathConflict := foldl (touch r) acc (op_paths (wr_op r)).

(** [rec_key > head_key], starting from time 0 and the zero hash. *)
Definition head_step (head : (N * hash32) * option hash32) (r : WorkRecord)
  : (N * hash32) * option hash32 :=
  if bool_decide (key_leq (rec_key r) head.1) then head else (rec_key r, Some (wr_hash r)).

Definition analyze_records (records : list WorkRecord) : MergeSnapshot :=
  let ordered := sort_records records in
  let conflicts := (foldl analyze_step (∅, []) ordered).2 in
  let head := (foldl head_step ((0%N, zero32), None) ordered).2 in
  mk_MergeSnapshot (length records) (length records - length conflicts) (length conflicts) head conflicts.

Abbreviation TreeState := (gmap string (option hash32)).

Definition apply_record_to_state (state : TreeState) (r : WorkRecord) : TreeState :=
  match wr_op r with
  | FoCreate path h => <[path := Some h]> state
  | FoModify path _ h _ => <[path := Some h]> state
  | FoDelete path _ => <[path := None]> state
  | FoRename o n h => <[n := Some h]> (<[o := None]> state)
  end.

Definition materialize_state (records : list WorkRecord) : TreeState :=
  foldl apply_record_to_state ∅ (sort_records records).

(** *** Git status *)

(** [str::lines]: split at newlines, a final one ends the last line, and a carriage
    return before a newline is dropped. *)
Definition newline : ascii := "010".
Definition chop_cr (s : string) : string := default s (strip_suffix (String "013" "") s).
Definition lines (s : string) : list string :=
  match List.rev (split_char newline s) with
  | "" :: l => chop_cr <$> List.rev l
  | l :: ls => (chop_cr <$> List.rev ls) ++ [l]
  | [] => []
  end.

(** [git] is the outcome of the command: its output or the text of the error. *)
Definition git_status_porcelain (git : result string string) : result VcsError (list string) :=
  out ← map_err GitStatus git;
  mret (filter (λ l, l ≠ "") (trim <$> lines out)).

(** Byte slicing panics inside a character. *)
Definition is_char_boundary (s : string) (i : nat) : bool :=
  match as_bytes s !! i with Some b => negb (is_cont b) | None => i =? str_len s end.
Definition slice_to (s : string) (i : nat) : result VcsError string :=
  if is_char_boundary s i then Ok (String.substring 0 i s) else Err SlicePanic.
Definition slice_from (s : string) (i : nat) : result VcsError string :=
  if is_char_boundary s i then Ok (String.substring i (str_len s - i) s) else Err SlicePanic.

(** [str::contains(char)] and the pieces of [str::split("->")]. *)
Fixpoint has_char (c : ascii) (s : string) : bool :=
  match s with EmptyString => false | String a s' => Ascii.eqb a c || has_char c s' end.
Fixpoint split_str (fuel : nat) (sep cur s : string) : list string :=
  match fuel with
  | O => [cur]
  | S fuel' =>
      match strip_prefix sep s with
      | Some rest => cur :: split_str fuel' sep "" rest
      | None =>
          match s with
          | EmptyString => [cur]
          | String c s' => split_str fuel' sep (cur +:+ String c "") s'
          end
      end
  end.

Section agent.
Context `{Sha2, VcsJson}.
(** [fs::read(repo_path.join(rel))]. *)
Context (read_file : string → option bytes).

Definition hash_file_or_path (rel : string) : hash32 :=
  sha256 (default (as_bytes rel) (read_file rel)).

Definition op_of_status (st path_part : string) : option FileOp :=
  if has_char "A" st || bool_decide (st = "??") then Some (FoCreate path_part (hash_file_or_path path_part))
  else if has_char "M" st then Some (FoModify path_part zero32 (hash_file_or_path path_part) None)
  else if has_char "D" st then Some (FoDelete path_part (hash_file_or_path path_part))
  else if has_char "R" st then
    let parts := trim <$> split_str (S (str_len path_part)) "->" "" path_part in
    let old_path := default path_part (parts !! 0) in
    let new_path := default path_part (parts !! 1) in
    Some (FoRename old_path new_path (hash_file_or_path new_path))
  else None.

Definition record_of_line (author : hash32) (ts : N) (line : string) : result VcsError (option WorkRecord) :=
  if str_len line <? 4 then mret None
  else
    st ← slice_to line 2;
    rest ← slice_from line 3;
    mret (op ← op_of_status st (trim rest);
          let r := mk_WorkRecord zero32 [] author ts op None in
          Some (mk_WorkRecord (WR.compute_hash r) [] author ts op None)).

Fixpoint records_of_lines (author : hash32) (ts : N) (ls : list string) : result VcsError (list WorkRecord) :=
  match ls with
  | [] => Ok []
  | l :: ls' =>
      r ← record_of_line author ts l;
      rest ← records_of_lines author ts ls';
      mret (option_list r ++ rest)
  end.

Definition work_records_from_workspace (git : result string string) (author : hash32) (ts : N)
  : result VcsError (list WorkRecord) :=
  ls ← git_status_porcelain git;
  records_of_lines author ts ls.
End agent.
End Agent.
