(* ===== verification/VcsSpec.v ===== *)
(** * Work records: storing, querying and merging

    [submit_record] makes a record readable under its hash and keeps the others;
    [query_records] is an exact, ordered query; the merge of record lists takes the last
    writer of every path, reports exactly the concurrent writes, and does not depend on
    the order in which the records arrive. *)
From S2P Require Export Vcs ProtocolSpec.

(** ** The order of records *)

#[export] Instance key_leq_order : PartialOrder key_leq.
Proof.
  split; [split|]; unfold key_leq.
  - intros p. right. done.
  - intros p q r [?|[? ?]] [?|[? ?]]; [left; lia..|]. right. split; [congruence|by etrans].
  - intros [t h] [t' h'] [?|[? Hh]] [?|[? Hh']]; simpl in *; try lia. subst. f_equal. by apply (anti_symm hash_le).
Qed.
#[export] Instance key_leq_total : Total key_leq.
Proof.
  intros [t h] [t' h']. unfold key_leq. simpl.
  destruct (N.lt_trichotomy t t') as [?|[->|?]]; [by left; left| |by right; left].
  destruct (total hash_le h h'); [left|right]; by right.
Qed.
#[export] Instance rec_le_trans : Transitive rec_le.
Proof. intros r s t. unfold rec_le. apply (transitivity (R:=key_leq)). Qed.
#[export] Instance rec_le_total : Total rec_le.
Proof. intros r s. unfold rec_le. apply (total key_leq). Qed.

Lemma sort_records_perm l : sort_records l ≡ₚ l.
Proof. apply merge_sort_Permutation. Qed.
Lemma sort_records_sorted l : StronglySorted rec_le (sort_records l).
Proof. apply (StronglySorted_merge_sort rec_le). Qed.
Lemma elem_of_sort_records l r : r ∈ sort_records l ↔ r ∈ l.
Proof. by rewrite sort_records_perm. Qed.

(** Records with different keys have one sorted order. *)
Lemma sort_records_unique l l' :
  NoDup (rec_key <$> l) → l ≡ₚ l' → sort_records l = sort_records l'.
Proof.
  intros Hnd Hp. apply (StronglySorted_unique_strong rec_le); try apply sort_records_sorted.
  - intros r s Hr Hs H1 H2. rewrite elem_of_sort_records in Hr. rewrite elem_of_sort_records, <-Hp in Hs.
    assert (rec_key r = rec_key s) as E by (by apply (anti_symm key_leq)).
    apply list_elem_of_lookup in Hr as [i Hi], Hs as [j Hj].
    assert (i = j) as ->; [|congruence].
    eapply (NoDup_lookup _ _ _ (rec_key r) Hnd); rewrite list_lookup_fmap; [by rewrite Hi|by rewrite Hj, E].
  - by rewrite !sort_records_perm.
Qed.

(** ** Merging *)

Module AgentSpec.
Import Agent.

Definition touches (r : WorkRecord) (path : string) : Prop := path ∈ op_paths (wr_op r).
#[global] Instance touches_dec r path : Decision (touches r path).
Proof. unfold touches. apply _. Defined.

(** What a record leaves at a path it touches. *)
Definition op_effect (op : FileOp) (path : string) : option hash32 :=
  match op with
  | FoCreate _ h | FoModify _ _ h _ => Some h
  | FoDelete _ _ => None
  | FoRename _ n h => if decide (path = n) then Some h else None
  end.

(** The last record of a list to touch a path. *)
Definition last_writer (l : list WorkRecord) (path : string) (r : WorkRecord) : Prop :=
  r ∈ l ∧ touches r path ∧ ∀ s, s ∈ l → touches s path → rec_le s r.

(** Two records that touch a path at one time are one record by hash. *)
Definition conflict_free (l : list WorkRecord) : Prop :=
  ∀ r s path, r ∈ l → s ∈ l → touches r path → touches s path →
    wr_timestamp r = wr_timestamp s → wr_hash r = wr_hash s.

Lemma apply_record_lookup st r path :
  apply_record_to_state st r !! path =
    if decide (touches r path) then Some (op_effect (wr_op r) path) else st !! path.
Proof.
  unfold apply_record_to_state. case_decide as Ht; unfold touches in Ht;
    destruct (wr_op r) as [p h|p o n pa|p h|o n h]; simpl in *;
    rewrite ?lookup_insert; repeat case_decide; subst; set_solver.
Qed.

Lemma last_writer_snoc l r path :
  (∀ s, s ∈ l → rec_le s r) → touches r path → last_writer (l ++ [r]) path r.
Proof.
  intros Hr Ht. split; [set_solver|]. split; [done|]. intros s Hs _.
  apply elem_of_app in Hs as [Hs|Hs%list_elem_of_singleton]; [by apply Hr|]. subst.
  unfold rec_le. reflexivity.
Qed.
Lemma last_writer_skip l r path s : ¬ touches r path → last_writer (l ++ [r]) path s ↔ last_writer l path s.
Proof.
  intros Hn. split; intros (Hs & Ht & Hmax).
  - apply elem_of_app in Hs as [Hs|Hs%list_elem_of_singleton]; [|by subst].
    split; [done|]. split; [done|]. intros t Hin. apply Hmax. set_solver.
  - split; [set_solver|]. split; [done|]. intros t Ht'.
    apply elem_of_app in Ht' as [?|Ht'%list_elem_of_singleton]; [by apply Hmax|by subst].
Qed.
Lemma StronglySorted_snoc l r :
  StronglySorted rec_le (l ++ [r]) → StronglySorted rec_le l ∧ ∀ s, s ∈ l → rec_le s r.
Proof.
  intros Hs. apply StronglySorted_app in Hs as (Hle & Hl & _). split; [done|].
  intros s Hin. apply Hle; [done|by left].
Qed.

Lemma materialize_sorted l path :
  StronglySorted rec_le l →
  match foldl apply_record_to_state ∅ l !! path with
  | Some v => ∃ r, last_writer l path r ∧ v = op_effect (wr_op r) path
  | None => ∀ r, r ∈ l → ¬ touches r path
  end.
Proof.
  induction l as [|r l IH] using rev_ind; intros Hs.
  { simpl. rewrite lookup_empty. intros r Hr. by apply not_elem_of_nil in Hr. }
  apply StronglySorted_snoc in Hs as [Hs Hr]. rewrite foldl_snoc, apply_record_lookup.
  case_decide as Ht; [exists r; split; [by apply last_writer_snoc|done]|].
  specialize (IH Hs). destruct (foldl _ _ _ !! path).
  - destruct IH as (s & Hl & ->). exists s. split; [by apply last_writer_skip|done].
  - intros s Hin. apply elem_of_app in Hin as [Hin|Hin%list_elem_of_singleton]; [by apply IH|by subst].
Qed.

(** *** Conflicts *)

(** The table holds the key of the last writer of every path. *)
Definition table_ok (l : list WorkRecord) (m : PathMap) : Prop :=
  ∀ path, match m !! path with
          | Some k => ∃ r, last_writer l path r ∧ k = rec_key r
          | None => ∀ r, r ∈ l → ¬ touches r path
          end.

Definition meets (m : PathMap) (r : WorkRecord) (path : string) : Prop :=
  ∃ h, m !! path = Some (wr_timestamp r, h) ∧ h ≠ wr_hash r.

Lemma conflict_of_nil cs r m path : cs ++ conflict_of r m path = [] ↔ cs = [] ∧ ¬ meets m r path.
Proof.
  assert (conflict_of r m path = [] ↔ ¬ meets m r path) as <-; [|by split; [intros ?%app_nil|intros [-> ->]]].
  unfold conflict_of, meets. destruct (m !! path) as [[ts h]|]; [|naive_solver].
  repeat case_bool_decide; simpl; subst; naive_solver.
Qed.

Lemma touch_fold r paths m cs :
  let acc := foldl (touch r) (m, cs) paths in
  (∀ path, acc.1 !! path = if decide (path ∈ paths) then Some (rec_key r) else m !! path) ∧
  (acc.2 = [] ↔ cs = [] ∧ ∀ path, path ∈ paths → ¬ meets m r path).
Proof.
  revert m cs. induction paths as [|p paths IH]; intros m cs; cbn [foldl fst snd].
  { split; [intros path; by rewrite decide_False by (by apply not_elem_of_nil)|].
    split; [|by intros [-> _]]. intros ->. split; [done|]. intros path Hp. by apply not_elem_of_nil in Hp. }
  destruct (IH (<[p:=rec_key r]> m) (cs ++ conflict_of r m p)) as [H1 H2]. split.
  - intros path. rewrite H1. unfold touch. cbn [fst]. rewrite lookup_insert. repeat case_decide; subst; set_solver.
  - unfold touch at 2. cbn [fst snd]. rewrite H2, conflict_of_nil. split.
    + intros [[-> Hp] Hall]. split; [done|]. intros path [->|Hin]%elem_of_cons; [done|].
      intros (h & Hm & Hne). destruct (decide (path = p)) as [->|]; [by apply Hp; exists h|].
      apply (Hall path Hin). exists h. by rewrite lookup_insert_ne.
    + intros [-> Hall]. split; [split; [done|]; apply Hall; by left|].
      intros path Hin (h & Hm & Hne). destruct (decide (path = p)) as [->|].
      * rewrite lookup_insert_eq in Hm. injection Hm as <-. done.
      * rewrite lookup_insert_ne in Hm by done. apply (Hall path); [by right|]. by exists h.
Qed.

Lemma conflict_free_snoc l r m :
  table_ok l m → (∀ s, s ∈ l → rec_le s r) →
  conflict_free (l ++ [r]) ↔ conflict_free l ∧ ∀ path, touches r path → ¬ meets m r path.
Proof.
  intros Hm Hr. split.
  - intros Hc. split; [intros s t path Hs Ht; apply Hc; set_solver|].
    intros path Ht (h & Hh & Hne). specialize (Hm path). rewrite Hh in Hm.
    destruct Hm as (s & (Hs & Hst & _) & [= Hts ->]). apply Hne. symmetry.
    apply (Hc r s path); [set_solver..|done|done|done].
  - intros [Hc Hn].
    assert (∀ s path, s ∈ l → touches s path → touches r path → wr_timestamp s = wr_timestamp r →
      wr_hash s = wr_hash r) as Hlast.
    { intros s path Hs Hst Hrt Hts. specialize (Hm path). pose proof (Hn path Hrt) as Hn'.
      destruct (m !! path) as [k|] eqn:Hk; [|by apply Hm in Hst].
      destruct Hm as (t & (Ht & Htt & Hmax) & ->).
      assert (wr_timestamp t = wr_timestamp r) as Htr.
      { pose proof (Hmax s Hs Hst) as H1. pose proof (Hr t Ht) as H2.
        unfold rec_le, key_leq in H1, H2. simpl in *. destruct H1 as [?|[? _]], H2 as [?|[? _]]; lia. }
      rewrite (Hc s t path) by (done || congruence).
      destruct (decide (wr_hash t = wr_hash r)) as [|Hne]; [done|]. exfalso. apply Hn'.
      exists (wr_hash t). split; [|done]. rewrite Hk. unfold rec_key. by rewrite Htr. }
    intros s t path [Hs|Hs%list_elem_of_singleton]%elem_of_app [Ht|Ht%list_elem_of_singleton]%elem_of_app;
      subst; try done; [by apply Hc| |]; intros; [|symmetry]; by apply (Hlast _ path).
Qed.

Lemma analyze_sorted l :
  StronglySorted rec_le l →
  let acc := foldl analyze_step (∅, []) l in
  table_ok l acc.1 ∧ (acc.2 = [] ↔ conflict_free l).
Proof.
  induction l as [|r l IH] using rev_ind; intros Hs.
  { split; [intros path; simpl; rewrite lookup_empty; intros r Hr; by apply not_elem_of_nil in Hr|].
    split; [|done]. intros _ r s path Hr. by apply not_elem_of_nil in Hr. }
  apply StronglySorted_snoc in Hs as [Hs Hr]. cbv zeta in *. rewrite foldl_snoc.
  destruct (IH Hs) as [Ht Hc]. destruct (foldl analyze_step _ l) as [m cs]. simpl in Ht, Hc.
  unfold analyze_step. destruct (touch_fold r (op_paths (wr_op r)) m cs) as [H1 H2]. split.
  - intros path. rewrite H1. case_decide as Hp.
    { exists r. split; [by apply last_writer_snoc|done]. }
    specialize (Ht path). destruct (m !! path).
    + destruct Ht as (s & Hl & ->). exists s. split; [by apply last_writer_skip|done].
    + intros s [?|Hin%list_elem_of_singleton]%elem_of_app; [by apply Ht|by subst].
  - rewrite H2, Hc. symmetry. by apply conflict_free_snoc.
Qed.

Lemma analyze_conflicts l : ms_conflicts (analyze_records l) = [] ↔ conflict_free l.
Proof.
  simpl. destruct (analyze_sorted (sort_records l) (sort_records_sorted l)) as [_ ->].
  split; intros Hc r s path; [rewrite <-!(elem_of_sort_records l)|rewrite !elem_of_sort_records]; apply Hc.
Qed.

(** *** The head *)

Lemma head_sorted l :
  StronglySorted rec_le l →
  let head := foldl head_step ((0%N, zero32), None) l in
  (∀ r, r ∈ l → key_leq (rec_key r) head.1) ∧
  match head.2 with
  | Some h => ∃ r, r ∈ l ∧ rec_key r = head.1 ∧ wr_hash r = h
  | None => head.1 = (0%N, zero32)
  end.
Proof.
  induction l as [|r l IH] using rev_ind; intros Hs.
  { split; [|done]. intros r Hr. by apply not_elem_of_nil in Hr. }
  apply StronglySorted_snoc in Hs as [Hs Hr]. cbv zeta in *. rewrite foldl_snoc.
  destruct (IH Hs) as [Hmax Hh]. destruct (foldl head_step _ l) as [k o]. unfold head_step. simpl in *.
  case_bool_decide as Hk; simpl.
  - split; [intros s [?|Hin%list_elem_of_singleton]%elem_of_app; [by apply Hmax|by subst]|].
    destruct o as [h|]; [|done]. destruct Hh as (s & ? & ? & ?). exists s. set_solver.
  - split; [|exists r; set_solver]. intros s [Hin|Hin%list_elem_of_singleton]%elem_of_app; [by apply Hr|].
    subst. reflexivity.
Qed.

(** Claim C17. Merging records with different keys (time, hash) takes for every path the
    effect of the last record, in the order of the keys, that touches it; reports no
    conflict exactly when no two records with different hashes touch one path at one
    time; names as head a record with the greatest key; and gives the same tree and the
    same report for every order of the records. *)
Theorem merge_last_writer l :
  NoDup (rec_key <$> l) →
  (∀ path v, materialize_state l !! path = Some v ↔
     ∃ r, last_writer l path r ∧ v = op_effect (wr_op r) path) ∧
  (ms_conflicts (analyze_records l) = [] ↔ conflict_free l) ∧
  (∀ h, ms_head_hash (analyze_records l) = Some h →
     ∃ r, r ∈ l ∧ wr_hash r = h ∧ ∀ s, s ∈ l → rec_le s r) ∧
  ∀ l', l ≡ₚ l' →
    materialize_state l' = materialize_state l ∧ analyze_records l' = analyze_records l.
Proof.
  intros Hnd. split; [|split; [apply analyze_conflicts|split]].
  - intros path v. pose proof (materialize_sorted (sort_records l) path (sort_records_sorted l)) as Hm.
    assert (∀ r, last_writer (sort_records l) path r ↔ last_writer l path r) as Hlw.
    { intros r. unfold last_writer. setoid_rewrite elem_of_sort_records. done. }
    fold (materialize_state l) in Hm. destruct (materialize_state l !! path) as [v'|].
    + destruct Hm as (r & Hr%Hlw & ->). split; [intros [= <-]; by exists r|].
      intros (s & Hs & ->). f_equal. f_equal.
      destruct Hr as (Hr & Hrt & Hrm), Hs as (Hs & Hst & Hsm).
      assert (rec_key r = rec_key s) as E by (apply (anti_symm key_leq); [by apply Hsm|by apply Hrm]).
      apply list_elem_of_lookup in Hr as [i Hi], Hs as [j Hj]. f_equal.
      assert (i = j) as ->; [|congruence].
      eapply (NoDup_lookup _ _ _ (rec_key r) Hnd); rewrite list_lookup_fmap; [by rewrite Hi|by rewrite Hj, E].
    + split; [done|]. intros (r & (Hr & Ht & _) & _). exfalso. apply (Hm r); [|done].
      by apply elem_of_sort_records.
  - intros h Hh. simpl in Hh. pose proof (head_sorted (sort_records l) (sort_records_sorted l)) as [Hmax Hr].
    rewrite Hh in Hr. destruct Hr as (r & Hr & Hk & Hw). exists r. rewrite elem_of_sort_records in Hr.
    split; [done|]. split; [done|]. intros s Hs. unfold rec_le. rewrite Hk. apply Hmax.
    by apply elem_of_sort_records.
  - intros l' Hp. unfold materialize_state, analyze_records.
    by rewrite <-(sort_records_unique l l') by done; rewrite <-(Permutation_length Hp).
Qed.
End AgentSpec.

(** ** Hashes and chunks *)

Lemma hash_hex_digits h : str_forall is_hex (hash_hex h) = true.
Proof. apply hex_encode_digits. Qed.
Lemma hash_hex_len h : str_len (hash_hex h) = 64.
Proof. unfold hash_hex, bytes_hex. by rewrite length_hex_encode, arr_length. Qed.
#[export] Instance hash_hex_inj : Inj (=) (=) hash_hex.
Proof. intros h h' E%(inj hex_encode). by apply arr_eq. Qed.

Lemma parse_pairs_hex b : parse_pairs (hex_encode b) = Ok b.
Proof.
  induction b as [|x b IH]; [done|]. cbn [hex_encode parse_pairs]. unfold vcs_nibble.
  destruct (hex_byte_roundtrip x) as (-> & -> & E). cbn. rewrite IH. cbn. by rewrite E.
Qed.

(** Printing and parsing a hash, and what else parses: an optional [0x] and blanks. *)
Lemma parse_hash_hex_hash h : parse_hash_hex (hash_hex h) = Ok h.
Proof.
  unfold parse_hash_hex. rewrite trim_hex by apply hash_hex_digits.
  rewrite strip_0x_digits by apply hash_hex_digits.
  simpl. rewrite hash_hex_len. simpl. unfold hash_hex, bytes_hex. rewrite parse_pairs_hex. simpl.
  unfold mret, result_ret. f_equal. apply arr_eq. apply to_arr_bytes, arr_length.
Qed.

Lemma be_word l : length l = 8 → be_bytes 8 (of_be_bytes l) = l.
Proof. intros <-. apply be_bytes_of_be_bytes. Qed.
Lemma chunks_roundtrip b :
  take (length b) (u64_chunks_to_bytes (bytes_to_u64_chunks b)) = b.
Proof. apply chunk_words_roundtrip, be_word. Qed.
Lemma length_chunks b : length (bytes_to_u64_chunks b) = WR.div_ceil8 (N.of_nat (length b)).
Proof.
  unfold bytes_to_u64_chunks, WR.div_ceil8. rewrite <-(length_chunk_words _ _ be_word). by rewrite Nat2N.id.
Qed.

(** ** Keys *)

(** A key of the record of a hash. *)
Definition record_key (h : hash32) (t : string) : string := RECORD_PREFIX +:+ hash_hex h +:+ String ":" t.

Lemma record_key_inj h h' t t' : record_key h t = record_key h' t' → h = h' ∧ t = t'.
Proof.
  intros E%(inj (String.append RECORD_PREFIX)).
  apply (sep_inj is_hex ":") in E as [E ->]; [|done|apply hash_hex_digits..].
  split; [by apply (inj hash_hex)|done].
Qed.

Lemma parse_len_key h : parse_record_len_key (record_len_key (hash_hex h)) = Some h.
Proof.
  unfold parse_record_len_key, record_len_key.
  assert (starts_with (RECORD_PREFIX +:+ hash_hex h +:+ ":len") RECORD_PREFIX = true) as ->
    by (apply starts_with_true; by eexists).
  assert (ends_with (RECORD_PREFIX +:+ hash_hex h +:+ ":len") ":len" = true) as ->.
  { unfold ends_with. by rewrite <-str_app_assoc, strip_suffix_app. }
  simpl negb. cbn [orb]. rewrite strip_prefix_app. cbn [mbind option_bind]. rewrite strip_suffix_app.
  cbn [mbind option_bind]. rewrite trim_hex by apply hash_hex_digits. by rewrite parse_hash_hex_hash.
Qed.

Module WRSpec.
Import WR.
Section spec.
Context `{Sha2, Ristretto, KzgLib, SigLib, SerdeJson, Libm, VcsJson}.
Implicit Types db : NucleusDb.

Lemma record_writes_key r payload k v :
  (k, v) ∈ record_writes r payload →
  (k = record_key (wr_hash r) "len" ∧ v = N.of_nat (length payload)) ∨
  (∃ i, k = record_key (wr_hash r) ("chunk:" +:+ dec_nat i) ∧ bytes_to_u64_chunks payload !! i = Some v) ∨
  (starts_with k "abraxas:idx:" = true ∧ v = 1%N).
Proof.
  unfold record_writes. intros [Hk|[Hk|Hk]%elem_of_app]%elem_of_cons.
  - injection Hk as -> ->. by left.
  - right; left. apply elem_of_lookup_imap in Hk as (i & x & [= -> ->] & Hi). by exists i.
  - right; right. apply elem_of_app in Hk as [Hk|Hk].
    + set_unfold in Hk. destruct Hk as [[= -> ->]|[[= -> ->]|[]]]; done.
    + apply list_elem_of_fmap in Hk as (p & [= -> ->] & _). done.
Qed.

Lemma record_not_index h t : starts_with (record_key h t) "abraxas:idx:" = false.
Proof. done. Qed.

(** The cells that [get_record] reads of a record that was written. *)
Lemma written_cell r payload t v :
  (t = "len" ∧ v = N.of_nat (length payload)) ∨
  (∃ i, t = "chunk:" +:+ dec_nat i ∧ bytes_to_u64_chunks payload !! i = Some v) →
  record_key (wr_hash r) t ∈ (record_writes r payload).*1 ∧
  ∀ x, (record_key (wr_hash r) t, x) ∈ record_writes r payload → x = v.
Proof.
  intros Ht. split.
  - apply list_elem_of_fmap. exists (record_key (wr_hash r) t, v). split; [done|].
    unfold record_writes. destruct Ht as [[-> ->]|(i & -> & Hi)]; [by left|].
    right. apply elem_of_app. left. apply elem_of_lookup_imap. by exists i, v.
  - intros x [[Hk ->]|[(i & Hk & Hi)|[Hk _]]]%record_writes_key.
    + apply record_key_inj in Hk as [_ Hk]. destruct Ht as [[_ ->]|(j & -> & _)]; done.
    + apply record_key_inj in Hk as [_ Hk]. destruct Ht as [[-> _]|(j & -> & Hj)]; [done|].
      apply (inj (String.append "chunk:")), (inj dec_nat) in Hk as ->. congruence.
    + by rewrite record_not_index in Hk.
Qed.

Lemma other_cell r payload h t : h ≠ wr_hash r → record_key h t ∉ (record_writes r payload).*1.
Proof.
  intros Hne ((k & v) & Ek & Hk)%list_elem_of_fmap. simpl in Ek. subst k.
  apply record_writes_key in Hk as [[Hk _]|[(i & Hk & _)|[Hk _]]].
  - by apply record_key_inj in Hk as [-> _].
  - by apply record_key_inj in Hk as [-> _].
  - by rewrite record_not_index in Hk.
Qed.

(** Reading depends on the cells of the record only. *)
Lemma read_chunks_ok db h n i l :
  read_chunks db (hash_hex h) n i = Some l ↔
  length l = n ∧ ∀ j v, l !! j = Some v → read_value_by_key db (record_key h ("chunk:" +:+ dec_nat (i + j))) = Some v.
Proof.
  revert i l. induction n as [|n IH]; intros i l; cbn [read_chunks].
  { split; [intros [= <-]; split; [done|]; by intros j v; rewrite lookup_nil|].
    intros [Hl _]. by apply nil_length_inv in Hl as ->. }
  change (record_chunk_key (hash_hex h) i) with (record_key h ("chunk:" +:+ dec_nat i)).
  split.
  - intros (v & Hv & Hr)%bind_Some. apply bind_Some in Hr as (rest & Hr & [= <-]).
    apply IH in Hr as [<- Hr]. split; [done|]. intros [|j] x; simpl.
    + intros [= <-]. by rewrite Nat.add_0_r.
    + intros Hj. rewrite <-Nat.add_succ_comm. by apply Hr.
  - intros [Hl Hv]. destruct l as [|v l]; [done|]. injection Hl as Hl.
    pose proof (Hv 0 v eq_refl) as H0'. rewrite Nat.add_0_r in H0'. rewrite H0'. cbn [mbind option_bind].
    assert (read_chunks db (hash_hex h) n (S i) = Some l) as ->; [|done].
    apply IH. split; [done|]. intros j x Hj. rewrite Nat.add_succ_comm. by apply Hv.
Qed.

Lemma get_record_mono db db' h r :
  (∀ t v, read_value_by_key db (record_key h t) = Some v → read_value_by_key db' (record_key h t) = Some v) →
  get_record db h = Some r → get_record db' h = Some r.
Proof.
  intros Hm Hg. unfold get_record in *.
  change (record_len_key (hash_hex h)) with (record_key h "len") in *.
  apply bind_Some in Hg as (len & Hlen & Hg). rewrite (Hm _ _ Hlen). cbn [mbind option_bind].
  apply bind_Some in Hg as (cs & Hcs & Hg).
  assert (read_chunks db' (hash_hex h) (div_ceil8 len) 0 = Some cs) as ->; [|done].
  apply read_chunks_ok in Hcs as [Hl Hcs]. apply read_chunks_ok. split; [done|]. auto.
Qed.

Lemma get_record_hash db h r : get_record db h = Some r → wr_hash r = h.
Proof.
  unfold get_record. intros (len & _ & Hg)%bind_Some. apply bind_Some in Hg as (cs & _ & Hg).
  apply bind_Some in Hg as (r' & _ & Hg). by case_decide; simplify_eq.
Qed.

(** A database whose cells hold a written record reads it back. *)
Lemma get_record_written `{!VcsJson_Laws _} db r payload :
  record_to_vec r = Some payload →
  (∀ k v, k ∈ (record_writes r payload).*1 → (∀ x, (k, x) ∈ record_writes r payload → x = v) →
     read_value_by_key db k = Some v) →
  get_record db (wr_hash r) = Some r.
Proof.
  intros Hp Hc. unfold get_record.
  change (record_len_key (hash_hex (wr_hash r))) with (record_key (wr_hash r) "len").
  destruct (written_cell r payload "len" _ (or_introl (conj eq_refl eq_refl))) as [Hk Hu].
  rewrite (Hc _ _ Hk Hu). cbn [mbind option_bind].
  assert (read_chunks db (hash_hex (wr_hash r)) (div_ceil8 (N.of_nat (length payload))) 0 =
    Some (bytes_to_u64_chunks payload)) as ->.
  { apply read_chunks_ok. split; [apply length_chunks|]. intros j v Hj.
    destruct (written_cell r payload _ v (or_intror (ex_intro _ j (conj eq_refl Hj)))); by apply Hc. }
  cbn [mbind option_bind]. rewrite Nat2N.id, chunks_roundtrip, (record_json_roundtrip _ _ Hp).
  cbn [mbind option_bind]. by rewrite decide_True.
Qed.
(** ** Submitting *)

(** What a call of [submit_record] leaves, whatever it returns. *)
Lemma submit_frame record now db h r' :
  keymap_wf (keymap db) → h ≠ compute_hash record → get_record db h = Some r' →
  get_record (submit_record record now db).1 h = Some r'.
Proof.
  intros Hwf Hne Hg. unfold submit_record, mbind, action_bind, get_state, lift_res, modify, commit_writes.
  destruct (record_to_vec (finalize db record)) as [payload|]; [|done]. cbn [ok_or].
  destruct (put_keys (keymap db) (record_writes (finalize db record) payload)) as [km ws] eqn:E.
  destruct (put_keys_cells _ _ (values (state db)) _ _ Hwf E) as (_ & Hkeep & Hother & _).
  destruct (commit_frame (mk_Delta ws) [] now (set_keymap db km)) as (Hk & _).
  pose proof (commit_state (mk_Delta ws) [] now (set_keymap db km)) as Hs.
  destruct (commit _ _ _ _) as [db1 e]. simpl in Hk, Hs.
  assert (get_record db1 h = Some r') as Hd; [|by destruct e].
  revert Hg. apply get_record_mono. intros t v Hv. unfold read_value_by_key in *. rewrite Hk.
  destruct Hs as [->| ->]; [by apply Hkeep|]. apply Hother; [done|]. by apply other_cell.
Qed.

Lemma submit_ok_shape record now db db' res :
  submit_record record now db = (db', Ok res) →
  ∃ payload km ws e, record_to_vec (finalize db record) = Some payload ∧
    put_keys (keymap db) (record_writes (finalize db record) payload) = (km, ws) ∧
    commit (mk_Delta ws) [] now (set_keymap db km) = (db', Ok e) ∧
    res = mk_SubmitResult (compute_hash record) (height e) (height e) (state_root e).
Proof.
  unfold submit_record, mbind, action_bind, get_state, lift_res, modify, commit_writes.
  destruct (record_to_vec (finalize db record)) as [payload|]; [|done]. cbn [ok_or].
  destruct (put_keys _ _) as [km ws] eqn:E. destruct (commit _ _ _ _) as [db1 [e|e]] eqn:Ec; [|done].
  intros [= <- <-]. by exists payload, km, ws, e.
Qed.

Lemma elem_of_all_hashes db h :
  h ∈ all_record_hashes db ↔
  ∃ key, is_Some (KM.get (keymap db) key) ∧ parse_record_len_key key = Some h.
Proof.
  unfold all_record_hashes. rewrite merge_sort_Permutation, elem_of_remove_dups, list_elem_of_omap. split.
  - intros ([k i] & Hk & Hp). exists k. split; [|done]. exists i. by apply elem_of_entries.
  - intros (k & [i Hi] & Hp). exists (k, i). split; [by apply elem_of_entries|done].
Qed.

Lemma get_record_registered db h r : get_record db h = Some r → h ∈ all_record_hashes db.
Proof.
  unfold get_record. intros (len & Hlen & _)%bind_Some. apply elem_of_all_hashes.
  exists (record_len_key (hash_hex h)). split; [|apply parse_len_key].
  unfold read_value_by_key, cell in Hlen. by destruct (KM.get _ _).
Qed.

(** Claim C16. A record that [submit_record] accepts is read back under its hash, with the
    height of its commit as its proof reference, whatever was stored under the hash
    before; the records of all other hashes are kept, also when the call fails. *)
Theorem submit_get_record `{!VcsJson_Laws _} record now db db' out :
  db_inv db → submit_record record now db = (db', out) →
  (∀ h r, h ≠ compute_hash record → get_record db h = Some r → get_record db' h = Some r) ∧
  match out with
  | Ok res =>
      let h := compute_hash record in
      let height := (N.of_nat (length (db_entries db)) + 1)%N in
      sr_hash res = h ∧ sr_commit_height res = height ∧ sr_proof_ref res = height ∧
      get_record db' h = Some (mk_WorkRecord h (wr_parents record) (wr_author_puf record)
        (wr_timestamp record) (wr_op record) (Some height)) ∧ db_inv db'
  | Err SerializeRecord => db' = db
  | Err e => ∃ ce, e = CommitRecord ce
  end.
Proof.
  intros Hinv E. pose proof (inv_keymap _ Hinv) as Hwf. split.
  { intros h r Hne Hg. pose proof (submit_frame record now db h r Hwf Hne Hg) as Hf. by rewrite E in Hf. }
  destruct out as [res|err].
  - apply submit_ok_shape in E as (payload & km & ws & e & Hp & Hk & Hc & ->). simpl.
    destruct (put_keys_cells _ _ (values (state db)) _ _ Hwf Hk) as (Hwf' & _ & _ & Hset).
    assert (db_inv (set_keymap db km)) as Hinv' by (by apply (db_inv_frame db)).
    pose proof (commit_ok_post _ _ _ _ _ _ Hc) as Hpost.
    pose proof (new_entry_ok _ _ _ _ _ _ Hinv' Hc) as Hent.
    pose proof (eo_height _ _ _ Hent) as Hh. simpl in Hh.
    split; [done|]. split; [by rewrite Hh; lia|]. split; [by rewrite Hh; lia|].
    split; [|by apply (commit_ok_inv _ _ _ _ _ _ Hinv' Hc)].
    apply (get_record_written db' (finalize db record) payload Hp). intros k v Hin Hv.
    unfold read_value_by_key. destruct (commit_frame (mk_Delta ws) [] now (set_keymap db km)) as (Hkm & _).
    rewrite Hc in Hkm. simpl in Hkm. rewrite Hkm, (cp_state _ _ _ _ _ _ Hpost). by apply Hset.
  - unfold submit_record, mbind, action_bind, get_state, lift_res, modify, commit_writes in E.
    destruct (record_to_vec (finalize db record)) as [payload|]; [|by injection E as <- <-].
    cbn [ok_or] in E. destruct (put_keys _ _) as [km ws]. destruct (commit _ _ _ _) as [db1 [e|ce]]; [done|].
    injection E as _ <-. by exists ce.
Qed.

(** ** Querying *)

Definition selected (r : WorkRecord) (f : QueryFilter) : Prop :=
  (∀ a, qf_author_puf f = Some a → wr_author_puf r = a) ∧
  (∀ t, qf_start f = Some t → t ≤ wr_timestamp r)%N ∧
  (∀ t, qf_end f = Some t → wr_timestamp r ≤ t)%N ∧
  (∀ p, qf_path_prefix f = Some p → ∃ path rest, path ∈ op_paths (wr_op r) ∧ path = p +:+ rest).

Lemma matches_filter_iff r f : matches_filter r f = true ↔ selected r f.
Proof.
  unfold matches_filter, selected. rewrite !andb_true_iff.
  assert (∀ p, existsb (λ path, starts_with path p) (op_paths (wr_op r)) = true ↔
    ∃ path rest, path ∈ op_paths (wr_op r) ∧ path = p +:+ rest) as Hp.
  { intros p. rewrite existsb_exists. setoid_rewrite <-list_elem_of_In. setoid_rewrite starts_with_true. naive_solver. }
  destruct (qf_author_puf f), (qf_start f), (qf_end f), (qf_path_prefix f);
    rewrite ?bool_decide_eq_true, ?negb_true_iff, ?N.ltb_ge, ?Hp; naive_solver.
Qed.

(** The records a database holds. *)
Definition stored db (r : WorkRecord) : Prop := get_record db (wr_hash r) = Some r.

Definition all_matching db (f : QueryFilter) : list WorkRecord :=
  omap (λ h, r ← get_record db h; if matches_filter r f then Some r else None) (all_record_hashes db).

Lemma elem_of_all_matching db f r : r ∈ all_matching db f ↔ stored db r ∧ selected r f.
Proof.
  unfold all_matching, stored. rewrite list_elem_of_omap, <-matches_filter_iff. split.
  - intros (h & _ & (r' & Hg & Hm)%bind_Some). destruct (matches_filter r' f) eqn:E; [|done].
    injection Hm as ->. by rewrite (get_record_hash _ _ _ Hg).
  - intros [Hg Hm]. exists (wr_hash r). split; [by eapply get_record_registered|].
    rewrite Hg. simpl. by rewrite Hm.
Qed.

Lemma NoDup_all_hashes db : NoDup (all_record_hashes db).
Proof. unfold all_record_hashes. rewrite merge_sort_Permutation. apply NoDup_remove_dups. Qed.

Lemma NoDup_all_matching db f : NoDup (all_matching db f).
Proof.
  unfold all_matching. pose proof (NoDup_all_hashes db) as Hnd. induction Hnd as [|h l Hh Hnd IH]; [constructor|].
  assert (∀ h' r, (r' ← get_record db h'; if matches_filter r' f then Some r' else None) = Some r → wr_hash r = h') as Hr.
  { intros h' r (r' & Hg & Hm)%bind_Some. destruct (matches_filter r' f); [|done]. injection Hm as ->.
    by apply get_record_hash in Hg. }
  cbn [omap list_omap]. destruct (r' ← get_record db h; _) as [r|] eqn:E; [|done].
  constructor; [|done]. rewrite list_elem_of_omap. intros (h' & Hin & Hr'). apply Hr in E, Hr'. congruence.
Qed.

(** A query by hash returns the record of the hash if it matches; any other query
    returns, without repetition and in the order of time and hash, exactly the stored
    records that match the author, the time window and the path prefix, cut to the
    limit. *)
Theorem query_records_exact db f :
  match qf_hash f with
  | Some h => ∀ r, r ∈ query_records db f ↔ wr_hash r = h ∧ stored db r ∧ selected r f
  | None =>
      ∃ all, query_records db f = match qf_limit f with Some n => take n all | None => all end ∧
        StronglySorted rec_le all ∧ NoDup all ∧ ∀ r, r ∈ all ↔ stored db r ∧ selected r f
  end.
Proof.
  unfold query_records. destruct (qf_hash f) as [h|].
  - intros r. rewrite list_elem_of_filter, matches_filter_iff. unfold stored. split.
    + intros [Hm Hr]. destruct (get_record db h) as [r'|] eqn:Hg; [|by apply not_elem_of_nil in Hr].
      apply list_elem_of_singleton in Hr as ->. pose proof (get_record_hash _ _ _ Hg) as ->. done.
    + intros (<- & -> & Hm). split; [done|by left].
  - exists (sort_records (all_matching db f)). split; [done|]. split; [apply sort_records_sorted|].
    split; [rewrite sort_records_perm; apply NoDup_all_matching|].
    intros r. rewrite elem_of_sort_records. apply elem_of_all_matching.
Qed.

(** ** Status *)

Lemma latest_fold db l acc :
  (∀ ts h, acc = Some (ts, h) → ∃ r, get_record db h = Some r ∧ wr_timestamp r = ts) →
  let res := foldl (latest_step db) acc l in
  match res with
  | Some (ts, h) =>
      (∃ r, get_record db h = Some r ∧ wr_timestamp r = ts) ∧
      (∀ ts' h', acc = Some (ts', h') → ts' ≤ ts)%N ∧
      (∀ h' r, h' ∈ l → get_record db h' = Some r → wr_timestamp r ≤ ts)%N
  | None => acc = None ∧ ∀ h', h' ∈ l → get_record db h' = None
  end.
Proof.
  revert acc. induction l as [|h l IH]; intros acc Hacc; cbn [foldl].
  { destruct acc as [[ts h]|]; [|split; [done|]; by intros h' Hh'%not_elem_of_nil].
    split; [by apply Hacc|]. split; [by intros ? ? [= -> _]|]. by intros h' r Hh'%not_elem_of_nil. }
  assert (∀ ts h', latest_step db acc h = Some (ts, h') → ∃ r, get_record db h' = Some r ∧ wr_timestamp r = ts) as Hs.
  { intros ts h'. unfold latest_step. destruct (get_record db h) as [r|] eqn:Hg; [|apply Hacc].
    destruct acc as [[ts0 h0]|]; [destruct (_ <=? _)%N; [apply Hacc|]|]; intros [= <- <-]; by exists r. }
  specialize (IH (latest_step db acc h) Hs). cbv zeta in *.
  destruct (foldl (latest_step db) (latest_step db acc h) l) as [[ts h0]|].
  - destruct IH as (Hex & Hge & Hall). split; [done|]. unfold latest_step in Hge.
    destruct (get_record db h) as [r|] eqn:Hg.
    + destruct acc as [[ts0 h1]|].
      * destruct (N.leb_spec (wr_timestamp r) ts0) as [Hle|Hlt]; pose proof (Hge _ _ eq_refl) as Hx; split;
          try (intros ? ? [= <- _]; lia); intros h' r' [->|Hin]%elem_of_cons Hr';
          [rewrite Hg in Hr'; injection Hr' as ->; lia|by apply (Hall h')|rewrite Hg in Hr'; injection Hr' as ->; lia|by apply (Hall h')].
      * pose proof (Hge _ _ eq_refl) as Hx. split; [done|]. intros h' r' [->|Hin]%elem_of_cons Hr';
          [rewrite Hg in Hr'; injection Hr' as ->; lia|by apply (Hall h')].
    + split; [done|]. intros h' r' [->|Hin]%elem_of_cons Hr'; [by rewrite Hg in Hr'|by apply (Hall h')].
  - destruct IH as [Hn Hall]. unfold latest_step in Hn.
    destruct (get_record db h) as [r|] eqn:Hg.
    { destruct acc as [[ts0 h1]|]; [|done]. by destruct (_ <=? _)%N. }
    split; [done|]. intros h' [->|Hin]%elem_of_cons; [done|by apply Hall].
Qed.

(** The status names a record of the greatest time, and its count is at least the number
    of stored records: it counts the hashes with a length key. *)
Theorem status_latest db :
  match st_latest_timestamp (status db), st_latest_hash (status db) with
  | Some ts, Some h => (∃ r, get_record db h = Some r ∧ wr_timestamp r = ts) ∧
      ∀ r, stored db r → (wr_timestamp r ≤ ts)%N
  | None, None => ∀ r, ¬ stored db r
  | _, _ => False
  end ∧
  ∀ l, NoDup l → (∀ r, r ∈ l → stored db r) → length l ≤ st_record_count (status db).
Proof.
  simpl. pose proof (latest_fold db (all_record_hashes db) None) as Hf. cbv zeta in Hf. split.
  - destruct (foldl _ None _) as [[ts h]|]; simpl; destruct Hf as (Ha & Hb); try done.
    + split; [done|]. intros r Hr. by apply (proj2 Hb (wr_hash r)); [eapply get_record_registered|].
    + intros r Hr. unfold stored in Hr. rewrite (Hb (wr_hash r)) in Hr; [done|by eapply get_record_registered].
  - intros l Hnd Hl. rewrite <-(length_fmap wr_hash). apply submseteq_length, NoDup_submseteq.
    + apply NoDup_fmap_2_strong; [|done]. intros r s Hr%Hl Hs%Hl E. unfold stored in *. congruence.
    + intros h (r & -> & Hr)%list_elem_of_fmap. eapply get_record_registered. by apply Hl.
Qed.
End spec.
End WRSpec.

(** ** Examples *)

Section vcs_witnesses.
#[local] Existing Instances prefix_sha toy_ristretto toy_kzg toy_sig raw_json id_powf.

(** A codec for creations of small files; anything else is not encoded. *)
Definition toy_record_bytes (r : WorkRecord) : bytes :=
  arr_bytes (wr_hash r) ++ arr_bytes (wr_author_puf r) ++ be_bytes 8 (wr_timestamp r) ++
  be_bytes 8 (default 0%N (wr_proof_ref r)) ++
  match wr_op r with
  | FoCreate p h => arr_bytes h ++ as_bytes p
  | _ => []
  end.
Definition toy_record_parse (b : bytes) : option WorkRecord :=
  if length b <? 112 then None
  else Some (mk_WorkRecord (to_arr 32 (take 32 b)) [] (to_arr 32 (take 32 (drop 32 b)))
    (of_be_bytes (take 8 (drop 64 b)))
    (FoCreate (of_bytes (drop 112 b)) (to_arr 32 (take 32 (drop 80 b))))
    (Some (of_be_bytes (take 8 (drop 72 b))))).
Definition toy_vcs_json : VcsJson := {|
  canonical_to_vec := λ _ author ts op,
    Some (be_bytes 8 ts ++ match op with FoCreate p _ => as_bytes p | _ => [] end ++ arr_bytes author);
  record_to_vec := λ r,
    let b := toy_record_bytes r in if decide (toy_record_parse b = Some r) then Some b else None;
  record_from_slice := toy_record_parse |}.
#[local] Existing Instance toy_vcs_json.
#[local] Instance toy_vcs_json_laws : VcsJson_Laws toy_vcs_json.
Proof. split. intros r b. simpl. case_decide; [by intros [= <-]|done]. Qed.

Definition ex_work : WorkRecord :=
  mk_WorkRecord zero32 [] (to_arr 32 [x0a]) 1700000000
    (FoCreate "src/main.rs" (to_arr 32 [x11])) None.
Definition ex_submit := WR.submit_record ex_work 42 ex_db.

Lemma submit_get_record_witness :
  WR.get_record (WR.submit_record ex_work 42 ex_db).1 (WR.compute_hash ex_work) =
    Some (mk_WorkRecord (WR.compute_hash ex_work) [] (wr_author_puf ex_work) 1700000000
      (wr_op ex_work) (Some 1%N)).
Proof.
  assert (is_ok (WR.submit_record ex_work 42 ex_db).2 = true) as Hr by (by vm_compute).
  assert (length (db_entries ex_db) = 0) as Hl by (by vm_compute).
  destruct (WRSpec.submit_get_record ex_work 42 ex_db (WR.submit_record ex_work 42 ex_db).1
    (WR.submit_record ex_work 42 ex_db).2 ex_db_inv (surjective_pairing _)) as [_ Ho].
  revert Hr Ho. destruct (WR.submit_record ex_work 42 ex_db).2 as [res|e]; [|discriminate].
  intros _ (_ & _ & _ & Hg & _). rewrite Hl in Hg. exact Hg.
Defined.

Definition ex_merge : list WorkRecord :=
  [mk_WorkRecord (to_arr 32 [x02]) [] zero32 5 (FoRename "a" "b" (to_arr 32 [x07])) None;
   mk_WorkRecord (to_arr 32 [x01]) [] zero32 3 (FoCreate "a" (to_arr 32 [x07])) None;
   mk_WorkRecord (to_arr 32 [x03]) [] zero32 5 (FoDelete "b" (to_arr 32 [x07])) None].

(** A rename and a deletion of its target at one time conflict; the deletion, which has
    the greater hash, wins in every order. *)
Lemma merge_last_writer_witness :
  Agent.materialize_state (rev ex_merge) !! "b" = Some None ∧
  Agent.ms_conflict_count (Agent.analyze_records (rev ex_merge)) = 1.
Proof.
  assert (NoDup (rec_key <$> ex_merge)) as Hnd
    by (apply (bool_decide_eq_true_1 (NoDup (rec_key <$> ex_merge))); by vm_compute).
  destruct (AgentSpec.merge_last_writer ex_merge Hnd) as (_ & _ & _ & Hall).
  destruct (Hall (rev ex_merge)) as [-> ->]; [|split; by vm_compute].
  apply Permutation_rev.
Defined.

(** [git status --porcelain] prints an unstaged modification as [ M path]; the lines are
    trimmed before they are cut at fixed columns, so the path loses its first
    character. *)
Example import_unstaged :
  Agent.work_records_from_workspace (λ _, Some [x01]) (Ok (" M src/main.rs" +:+ String Agent.newline "")) zero32 9 =
    Ok [let op := FoModify "rc/main.rs" zero32 (sha256 [x01]) None in
        mk_WorkRecord (WR.compute_hash (mk_WorkRecord zero32 [] zero32 9 op None)) [] zero32 9 op None].
Proof. vm_compute. reflexivity. Qed.

(** The commit of a record may fail, but its keys stay registered and are counted. *)
Example failed_submit_counted :
  let db' := (WR.submit_record ex_work 42 ex_dup_db).1 in
  WR.query_records db' (mk_QueryFilter None None None None None None) = [] ∧
  st_record_count (WR.status db') = 1.
Proof. vm_compute. done. Qed.
End vcs_witnesses.
