(* ===== verification/TypedText.v ===== *)
(** * Text of typed values: the rest of [src/src/typed_value.rs]

    Printing for query results, conversion to JSON and the type of a literal.  The decimal
    text of an [f64] is the class [F64Text]; building and printing JSON is [JsonMake]. *)
From S2P Require Export F64 TypedValue.

(** [f64::from_str] and [{}] on bit patterns, [{:.6}] on numbers. *)
Class F64Text := {
  f64_parse : string → option N;
  f64_show : N → string;
  f64_show6 : f64 → string
}.

(** [serde_json]: the values [json!] builds, [from_str], [to_string] and the pretty
    printer on an ordered map. *)
Class JsonMake `{SerdeJson} := {
  json_null : JsonValue;
  json_i64 : Z → JsonValue;
  json_f64 : N → JsonValue;
  json_bool : bool → JsonValue;
  json_string : string → JsonValue;
  json_f64s : list N → JsonValue;
  json_parse : string → option JsonValue;
  json_text : JsonValue → option string;
  json_pretty_map : list (string * JsonValue) → option string
}.

(** [str::parse::<i64>().ok()]: a sign, at least one digit, and the range. *)
Definition parse_i64 (s : string) : option Z :=
  match s with
  | EmptyString => None
  | String c s' =>
      if Ascii.eqb c "-" then
        match s' with
        | EmptyString => None
        | _ => n ← parse_digits 0 s'; if (n <=? 2 ^ 63)%N then Some (- Z.of_N n)%Z else None
        end
      else n ← parse_u64 s; if (n <? 2 ^ 63)%N then Some (Z.of_N n) else None
  end.

Definition show_bool (b : bool) : string := if b then "true" else "false".

Section typed_text.
Context `{Sha2, JsonMake, F64Text}.

Definition display_string (v : TypedValue) : string :=
  match v with
  | VNull => "NULL"
  | VInteger z => pretty z
  | VFloat bits => f64_show bits
  | VBool b => show_bool b
  | VText s => s
  | VJson j => default "{}" (json_text j)
  | VBytes b => "0x" +:+ hex_encode b
  | VVector dims => "[" +:+ String.concat ", " (f64_show <$> dims) +:+ "]"
  end.

Definition to_json_value (v : TypedValue) : JsonValue :=
  match v with
  | VNull => json_null
  | VInteger z => json_i64 z
  | VFloat bits => json_f64 bits
  | VBool b => json_bool b
  | VText s => json_string s
  | VJson j => j
  | VBytes b => json_string ("0x" +:+ hex_encode b)
  | VVector dims => json_f64s dims
  end.

Definition infer_from_string (s : string) : TypedValue :=
  let trimmed := trim s in
  let braces l r := starts_with trimmed l && ends_with trimmed r in
  match (if braces "{" "}" || braces "[" "]" then json_parse trimmed else None) with
  | Some j => VJson j
  | None =>
      if eq_ignore_ascii_case trimmed "true" then VBool true
      else if eq_ignore_ascii_case trimmed "false" then VBool false
      else match parse_i64 trimmed with
           | Some z => VInteger z
           | None =>
               match f64_parse trimmed with
               | Some bits => VFloat bits
               | None => VText s
               end
           end
  end.
End typed_text.

Lemma parse_i64_bound s z : parse_i64 s = Some z → is_i64 z.
Proof.
  unfold parse_i64, is_i64. destruct s as [|c s]; [done|]. destruct (Ascii.eqb c "-").
  - destruct s as [|d s]; [done|]. intros (n & _ & Hn)%bind_Some.
    destruct (N.leb_spec n (2 ^ 63)); [|done]. injection Hn as <-. lia.
  - intros (n & _ & Hn)%bind_Some. destruct (N.ltb_spec n (2 ^ 63)); [|done]. injection Hn as <-. lia.
Qed.

(** What the parser of [f64] and of JSON give is well formed. *)
Class TextLaws `(M : JsonMake) (F : F64Text) : Prop := {
  f64_parse_bits s bits : f64_parse s = Some bits → is_u64 bits;
  json_parse_printable s j : json_parse s = Some j → json_from_slice (json_to_vec j) = Some j
}.

(** A literal becomes a value that can be stored. *)
Lemma infer_wf `{Sha2, M : JsonMake, F : F64Text} (L : TextLaws M F) (s : string) :
  utf8_valid (as_bytes s) = true → value_wf (infer_from_string s).
Proof.
  intros Hs. unfold infer_from_string. set (o := if (_ : bool) then json_parse _ else None).
  destruct o as [j|] eqn:Ej.
  - simpl. subst o. destruct (_ || _); [|done]. by eapply json_parse_printable.
  - destruct (eq_ignore_ascii_case _ "true"); [done|].
    destruct (eq_ignore_ascii_case _ "false"); [done|].
    destruct (parse_i64 _) as [z|] eqn:Ez; [by apply parse_i64_bound in Ez|].
    destruct (f64_parse _) as [bits|] eqn:Eb; [|done]. by eapply f64_parse_bits.
Qed.
