(* ===== verification/Sql.v ===== *)
(** * The SQL front end: [src/src/sql/executor.rs], [src/src/sql/schema.rs]

    One virtual table [data] with the columns key, value and type.  Writes go to the
    typed layer of the database at once and their cells wait in the executor until a
    [COMMIT].  The parser is the crate [sqlparser]: the inductive types below are the
    part of its syntax trees that the executor looks at, everything else is an [Other]
    constructor.  Every reading of the clock takes the next value of [clock]. *)
From S2P Require Export Protocol TypedText.

Definition TABLE_NAME : string := "data".
Definition COL_KEY : string := "key".
Definition COL_VALUE : string := "value".
Definition COL_TYPE : string := "type".

(** ** Syntax trees *)

(** A literal; [StringLit] is any form for which [Value::into_string] gives a text. *)
Inductive Literal :=
| NumberLit (n : string)
| BooleanLit (b : bool)
| NullLit
| StringLit (s : string)
| OtherLit.

Inductive BinaryOperator := OpEq | OpAnd | OpOr | OpOther.

(** The arguments of a function are [None] when they are not a plain list, and an
    argument is [None] when it is not an unnamed expression; the name is its printed
    text. *)
Inductive Expr :=
| EIdentifier (id : string)
| ECompound (parts : list string)
| EValue (v : Literal)
| ENested (inner : Expr)
| EBinary (left : Expr) (op : BinaryOperator) (right : Expr)
| ELike (negated any : bool) (expr pattern : Expr)
| EILike (negated any : bool) (expr pattern : Expr)
| EMinus (inner : Expr)
| EFunction (name : string) (args : option (list (option Expr)))
| EOther.

(** The parts of a name that are identifiers. *)
Abbreviation ObjectName := (list (option string)).

(** A table factor other than a name is [None]; joins are counted. *)
Record TableWithJoins := mk_TableWithJoins { tj_relation : option ObjectName; tj_joins : nat }.

Inductive SelectItem :=
| Wildcard
| QualifiedWildcard
| UnnamedExpr (e : Expr)
| ExprWithAlias (e : Expr)
| OtherItem.

Record Select := mk_Select {
  sel_projection : list SelectItem;
  sel_from : list TableWithJoins;
  sel_where : option Expr
}.
Inductive SetExpr := BodySelect (s : Select) | BodyValues (rows : list (list Expr)) | BodyOther.

(** [Insert]: the table is [None] for a table function, [ins_assignments] counts the
    [SET] form. *)
Record Insert := mk_Insert {
  ins_table : option ObjectName;
  ins_columns : list string;
  ins_assignments : nat;
  ins_source : option SetExpr
}.
(** An assignment to a tuple has no target. *)
Record Assignment := mk_Assignment { as_target : option ObjectName; as_value : Expr }.
Record Delete := mk_Delete { del_tables : list TableWithJoins; del_where : option Expr }.

Inductive Statement :=
| StQuery (body : SetExpr)
| StInsert (ins : Insert)
| StCommit
| StUpdate (table : TableWithJoins) (assignments : list Assignment) (selection : option Expr)
| StDelete (del : Delete)
| StCreateTable (name : ObjectName)
| StOther.

(** ** Results *)

Inductive SqlError :=
| ParseError (e : string)
| OnlyDataTable
| UnsupportedStatement
| VerifyNeedsKey
| VerifyNeedsCommit
| CheckpointNeedsPath
| HistoryNeedsKey
| UnknownKey (key : string)
| NoValueForKey (key : string)
| CommitFailed (e : CommitError)
| TypedDecodeFailed (key : string) (e : DecodeError)
| TypedWriteFailed (key : string) (e : VectorError)
| VectorSearchFailed (e : VectorError)
| ExportFailed
| InsertSet | InsertNoSource | InsertNotValues | InsertOneRow | InsertArity
| UnknownColumn (col : string) | MissingColumn (col : string) | BadValueExpr
| OnlySelect | OnlyFromData | EmptyProjection | BadProjection
| UpdateAppendOnly | DeleteAppendOnly | UpdateOneAssignment | UpdateOnlyValue
| OnlyKeyPredicates | BadBinaryOperator | LikeAny | LikeOnlyKey | BadPredicate
| ExpectedString | ExpectedNumeric | ExpectedInteger | BadFloat (n : string) | BadInteger (n : string)
| SqlPanic. (** the panics of [query] and [verify_query] *)

Inductive SqlMessage :=
| NoStatements
| NoOp
| WriteModeIs (m : WriteMode)
| ModeLocked
| NoPendingWrites
| CommittedAt (height : N)
| TableAvailable
| QueuedTyped (key shown : string) (t : TypeTag) (idx : nat)
| QueuedU64 (key : string) (value : N) (idx : nat)
| QueuedUpdates (n : nat)
| QueuedDeletes (n : nat).

Inductive SqlOut :=
| Rows (columns : list string) (rows : list (list string))
| Message (m : SqlMessage).

(** [SqlResult]: [SqlResult::Error] is [Err]. *)
Definition SqlResult : Type := result SqlError SqlOut.

(** [sqlparser] and [chrono]. *)
Class SqlParser := { parse_sql : string → result string (list Statement) }.
Class Chrono := { rfc3339_utc : Z → option string }.

(** ** Text *)

Definition ascii_upper (c : ascii) : ascii :=
  let n := N_of_ascii c in
  if (97 <=? n)%N && (n <=? 122)%N then ascii_of_N (n - 32) else c.
Fixpoint to_ascii_uppercase (s : string) : string :=
  match s with
  | EmptyString => EmptyString
  | String c s' => String (ascii_upper c) (to_ascii_uppercase s')
  end.

(** [trim_end_matches(';')]. *)
Fixpoint trim_semicolons (fuel : nat) (s : string) : string :=
  match fuel with
  | O => s
  | S fuel' => match strip_suffix ";" s with Some r => trim_semicolons fuel' r | None => s end
  end.
Definition normalize_command (sql : string) : string :=
  let s := trim sql in
  to_ascii_uppercase (trim (trim_semicolons (str_len s) s)).

Definition quote : ascii := "'".

(** A statement that is not blank, trimmed. *)
Definition keep_stmt (cur : string) : list string :=
  let stmt := trim cur in if bool_decide (stmt = "") then [] else [stmt].

(** The scan of [split_sql_statements]; [cur] is the text since the last separator. *)
Fixpoint split_scan (s cur : string) (in_quote : bool) : list string :=
  match s with
  | EmptyString => keep_stmt cur
  | String c s' =>
      if Ascii.eqb c quote then
        match s' with
        | String d s'' =>
            if in_quote && Ascii.eqb d quote
            then split_scan s'' (cur +:+ String c (String d "")) in_quote
            else split_scan s' (cur +:+ String c "") (negb in_quote)
        | EmptyString => split_scan s' (cur +:+ String c "") (negb in_quote)
        end
      else if Ascii.eqb c ";" && negb in_quote then keep_stmt cur ++ split_scan s' "" in_quote
      else split_scan s' (cur +:+ String c "") in_quote
  end.
Definition split_sql_statements (sql : string) : list string := split_scan sql "" false.

Definition extract_single_quoted_argument (sql : string) : option string :=
  '(_, rem) ← split_once quote sql;
  '(arg, _) ← split_once quote rem;
  Some arg.

Definition like_match (value pattern : string) : bool :=
  if bool_decide (pattern = "%") then true
  else match strip_suffix "%" pattern with
       | Some prefix => starts_with value prefix
       | None => bool_decide (value = pattern)
       end.

(** ** Reading syntax trees *)

Definition ident_is (id expected : string) : bool := eq_ignore_ascii_case id expected.

Definition object_name_is (expected : string) (name : ObjectName) : bool :=
  match last name with Some (Some id) => ident_is id expected | _ => false end.
Definition object_name_is_data (name : ObjectName) : bool := object_name_is TABLE_NAME name.
Definition table_with_joins_is_data (t : TableWithJoins) : bool :=
  (tj_joins t =? 0) && match tj_relation t with Some n => object_name_is_data n | None => false end.
Definition insert_targets_data (ins : Insert) : bool :=
  match ins_table ins with Some n => object_name_is_data n | None => false end.
Definition delete_targets_data (del : Delete) : bool :=
  match del_tables del with [t] => table_with_joins_is_data t | _ => false end.

Inductive ProjectionField := FieldKey | FieldValue | FieldType.
Definition field_name (f : ProjectionField) : string :=
  match f with FieldKey => COL_KEY | FieldValue => COL_VALUE | FieldType => COL_TYPE end.

Definition resolve_item (i : SelectItem) : result SqlError ProjectionField :=
  match i with
  | UnnamedExpr (EIdentifier id) | ExprWithAlias (EIdentifier id) =>
      if ident_is id COL_KEY then Ok FieldKey
      else if ident_is id COL_VALUE then Ok FieldValue
      else if ident_is id COL_TYPE then Ok FieldType
      else Err BadProjection
  | _ => Err BadProjection
  end.
Fixpoint resolve_items (l : list SelectItem) : result SqlError (list ProjectionField) :=
  match l with
  | [] => Ok []
  | i :: l' => f ← resolve_item i; rest ← resolve_items l'; mret (f :: rest)
  end.
Definition resolve_projection (items : list SelectItem) : result SqlError (list ProjectionField) :=
  match items with
  | [] => Err EmptyProjection
  | [Wildcard] | [QualifiedWildcard] => Ok [FieldKey; FieldValue; FieldType]
  | _ => resolve_items items
  end.

Definition expr_as_string (e : Expr) : result SqlError string :=
  match e with
  | EValue (StringLit s) => Ok s
  | EIdentifier id => Ok id
  | _ => Err ExpectedString
  end.

Definition expr_as_u64 (e : Expr) : result SqlError N :=
  match e with
  | EValue (NumberLit n) => ok_or (parse_u64 n) (BadInteger n)
  | EValue (StringLit s) => ok_or (parse_u64 s) ExpectedInteger
  | _ => Err ExpectedInteger
  end.

Definition is_key_expr (e : Expr) : bool :=
  match e with
  | EIdentifier id => ident_is id COL_KEY
  | ECompound parts => match last parts with Some p => ident_is p COL_KEY | None => false end
  | _ => false
  end.

(** [a? && b?] and [a? || b?] do not evaluate [b] when [a] decides. *)
Fixpoint eval_key_predicate (e : Expr) (key : string) : result SqlError bool :=
  match e with
  | ENested inner => eval_key_predicate inner key
  | EBinary l OpEq r =>
      if is_key_expr l then v ← expr_as_string r; mret (bool_decide (key = v))
      else if is_key_expr r then v ← expr_as_string l; mret (bool_decide (key = v))
      else Err OnlyKeyPredicates
  | EBinary l OpAnd r => a ← eval_key_predicate l key; if a : bool then eval_key_predicate r key else mret false
  | EBinary l OpOr r => a ← eval_key_predicate l key; if a : bool then mret true else eval_key_predicate r key
  | EBinary _ OpOther _ => Err BadBinaryOperator
  | ELike negated any e pattern =>
      if any then Err LikeAny
      else if negb (is_key_expr e) then Err LikeOnlyKey
      else pat ← expr_as_string pattern;
           mret (xorb negated (like_match key pat))
  | EILike negated any e pattern =>
      if any then Err LikeAny
      else if negb (is_key_expr e) then Err LikeOnlyKey
      else pat ← expr_as_string pattern;
           mret (xorb negated (like_match (to_ascii_lowercase key) (to_ascii_lowercase pat)))
  | _ => Err BadPredicate
  end.
Definition selection_matches_key (selection : option Expr) (key : string) : result SqlError bool :=
  match selection with None => Ok true | Some e => eval_key_predicate e key end.

Definition extract_update_value (assignments : list Assignment) : result SqlError N :=
  match assignments with
  | [a] =>
      if match as_target a with Some n => object_name_is COL_VALUE n | None => false end
      then expr_as_u64 (as_value a)
      else Err UpdateOnlyValue
  | _ => Err UpdateOneAssignment
  end.

(** [f64] negation flips the sign bit. *)
Definition f64_neg (bits : N) : N := N.lxor bits (2 ^ 63).

Section literals.
Context `{Sha2, JsonMake, F64Text}.

Fixpoint expr_as_f64 (e : Expr) : result SqlError N :=
  match e with
  | EValue (NumberLit n) => ok_or (f64_parse n) (BadFloat n)
  | EMinus inner => v ← expr_as_f64 inner; mret (f64_neg v)
  | _ => Err ExpectedNumeric
  end.

Fixpoint vector_dims (args : list (option Expr)) : option (list N) :=
  match args with
  | [] => Some []
  | Some e :: args' => f ← res_ok (expr_as_f64 e); rest ← vector_dims args'; Some (f :: rest)
  | None :: _ => None
  end.

Definition one_of (s : string) (l : list string) : bool := bool_decide (s ∈ l).

Definition try_extract_vector (e : Expr) : option (list N) :=
  match e with
  | EFunction name (Some args) =>
      if one_of (to_ascii_uppercase name) ["VECTOR"; "VEC"; "EMBEDDING"] then
        dims ← vector_dims args;
        match dims with [] => None | _ => Some dims end
      else None
  | _ => None
  end.

Inductive TypedInsert := Typed (key : string) (v : TypedValue) | LegacyU64 (key : string) (v : N).

(** The columns against the row: the last key and the last value expression. *)
Fixpoint insert_columns (cols : list string) (row : list Expr) (key : option string) (val : option Expr)
  : result SqlError (option string * option Expr) :=
  match cols, row with
  | c :: cols', e :: row' =>
      if ident_is c COL_KEY then k ← expr_as_string e; insert_columns cols' row' (Some k) val
      else if ident_is c COL_VALUE then insert_columns cols' row' key (Some e)
      else Err (UnknownColumn c)
  | _, _ => Ok (key, val)
  end.

(** The value of a literal, tried in the order of the code. *)
Definition literal_insert (key : string) (e : Expr) : result SqlError TypedInsert :=
  match try_extract_vector e with
  | Some dims => Ok (Typed key (VVector dims))
  | None =>
      match e with
      | EValue NullLit => Ok (Typed key VNull)
      | EValue (BooleanLit b) => Ok (Typed key (VBool b))
      | EValue (NumberLit n) =>
          match parse_u64 n, parse_i64 n, f64_parse n with
          | Some u, _, _ => Ok (LegacyU64 key u)
          | None, Some i, _ => Ok (Typed key (VInteger i))
          | None, None, Some f => Ok (Typed key (VFloat f))
          | None, None, None => Err BadValueExpr
          end
      | _ =>
          match expr_as_string e with
          | Ok s => Ok (Typed key (infer_from_string s))
          | Err _ => Err BadValueExpr
          end
      end
  end.

Definition extract_insert_typed (source : SetExpr) (columns : list string) : result SqlError TypedInsert :=
  match source with
  | BodyValues [row] =>
      let cols := match columns with [] => [COL_KEY; COL_VALUE] | _ => columns end in
      if negb (length row =? length cols) then Err InsertArity
      else
        kv ← insert_columns cols row None None;
        key ← ok_or kv.1 (MissingColumn COL_KEY);
        e ← ok_or kv.2 (MissingColumn COL_VALUE);
        literal_insert key e
  | BodyValues _ => Err InsertOneRow
  | _ => Err InsertNotValues
  end.

Record VectorSearchParams := mk_VectorSearchParams {
  vs_query : list N;
  vs_k : nat;
  vs_metric : DistanceMetric
}.

Definition extract_vector_search (e : Expr) : option VectorSearchParams :=
  match e with
  | EFunction name (Some args) =>
      if one_of (to_ascii_uppercase name) ["VECTOR_SEARCH"; "VSEARCH"; "KNN"] then
        if length args <? 2 then None
        else
          q ← (a ← mjoin (args !! 1); try_extract_vector a);
          k ← match args !! 2 with
              | Some (Some a) => N.to_nat <$> res_ok (expr_as_u64 a)
              | _ => Some 10
              end;
          m ← match args !! 3 with
              | Some (Some a) => s ← res_ok (expr_as_string a); Some (default Cosine (metric_from_str_tag s))
              | _ => Some Cosine
              end;
          Some (mk_VectorSearchParams q k m)
      else None
  | _ => None
  end.

Definition render_field (key : string) (v : TypedValue) (t : TypeTag) (f : ProjectionField) : string :=
  match f with FieldKey => key | FieldValue => display_string v | FieldType => tag_str t end.
Definition render_projection_row (fields : list ProjectionField) (key : string) (v : TypedValue) (t : TypeTag)
  : list string := render_field key v t <$> fields.
End literals.

(** ** The executor *)

Section sql.
Context `{Sha2, Ristretto, KzgLib, SigLib, J : SerdeJson, Libm, !JsonMake, F64Text, SqlParser, Chrono}.
(** The clock: the [n]-th reading. *)
Context (clock : nat → N).

Record SqlExecutor := mk_SqlExecutor {
  sx_db : NucleusDb;
  sx_pending : list (nat * N);
  sx_committed : bool;
  sx_tick : nat
}.
Implicit Types ex : SqlExecutor.
Abbreviation exec := (action SqlExecutor SqlError).

Definition sql_new (db : NucleusDb) (tick : nat) : SqlExecutor := mk_SqlExecutor db [] false tick.

(** A call on the database that reads the clock. *)
Definition on_db {E T} (f : E → SqlError) (m : N → action NucleusDb E T) : exec T := λ ex,
  let '(db', r) := m (clock (sx_tick ex)) (sx_db ex) in
  (mk_SqlExecutor db' (sx_pending ex) (sx_committed ex) (S (sx_tick ex)), map_err f r).
Definition set_db (g : NucleusDb → NucleusDb) : exec () :=
  modify (λ ex, mk_SqlExecutor (g (sx_db ex)) (sx_pending ex) (sx_committed ex) (sx_tick ex)).
Definition push_write (w : nat * N) : exec () :=
  modify (λ ex, mk_SqlExecutor (sx_db ex) (sx_pending ex ++ [w]) (sx_committed ex) (sx_tick ex)).

(** The cell a reader of the executor sees. *)
Definition pending_overlay ex : gmap nat N :=
  foldl (λ m (w : nat * N), <[w.1 := w.2]> m) ∅ (sx_pending ex).
Definition sx_cell ex (idx : nat) : N :=
  default (value_at (state (sx_db ex)) idx) (pending_overlay ex !! idx).

Definition all_keys ex : list (string * nat) := KM.all_keys (keymap (sx_db ex)).

(** [put_typed] on the database, its cell queued. *)
Definition queue_typed (key : string) (v : TypedValue) : exec (nat * N) :=
  w ← on_db (TypedWriteFailed key) (put_typed key v);
  _ ← push_write w;
  mret w.

(** *** Reports *)

Definition format_unix_utc (ts : N) : string :=
  default ("invalid_unix_ts(" +:+ dec ts +:+ ")") (rfc3339_utc (u64_to_i64 ts)).
Definition show_backend (b : VcBackend) : string :=
  match b with BkIpa => "Ipa" | BkKzg => "Kzg" | BkBinaryMerkle => "BinaryMerkle" end.
Definition hex_hash (h : NodeHash) : string := hex_encode (arr_bytes h).

Definition show_status ex : SqlResult :=
  let db := sx_db ex in
  Ok (Rows ["field"; "value"]
    ([["backend"; show_backend (backend db)];
      ["state_len"; dec_nat (length (values (state db)))];
      ["entries"; dec_nat (length (db_entries db))];
      ["key_count"; dec_nat (KM.len (keymap db))];
      ["pending_writes"; dec_nat (length (sx_pending ex))]] ++
     match current_sth db with
     | Some s =>
         [["sth_tree_size"; dec (tree_size s)]; ["sth_root"; hex_hash (root_hash s)];
          ["sth_timestamp"; dec (timestamp_unix_secs s)];
          ["sth_timestamp_utc"; format_unix_utc (timestamp_unix_secs s)]]
     | None => [["sth_tree_size"; "0"]; ["sth_root"; ""]; ["sth_timestamp"; "0"]; ["sth_timestamp_utc"; "n/a"]]
     end)).

Definition show_types ex : SqlResult :=
  let counts := foldl (λ m (kv : string * nat),
    let t := tag_str (tm_get (type_map (sx_db ex)) kv.1) in
    <[t := S (default 0 (m !! t))]> m) (∅ : gmap string nat) (all_keys ex) in
  Ok (Rows ["type"; "count"] ((λ tc, [tc.1; dec_nat tc.2]) <$> entries counts)).

Definition show_history ex : SqlResult :=
  Ok (Rows ["height"; "state_root"; "tree_size"; "timestamp_unix"; "timestamp_utc"; "backend"; "witness_algorithm"]
    ((λ e, [dec (height e); hex_hash (state_root e); dec (tree_size (sth e));
            dec (timestamp_unix_secs (sth e)); format_unix_utc (timestamp_unix_secs (sth e));
            vc_backend_id e; witness_signature_algorithm e]) <$> db_entries (sx_db ex))).

Definition show_key_history ex (sql : string) : SqlResult :=
  key ← ok_or (extract_single_quoted_argument sql) HistoryNeedsKey;
  let cols := ["key"; "index"; "value"; "note"] in
  match KM.get (keymap (sx_db ex)) key with
  | None => Ok (Rows cols [])
  | Some idx =>
      Ok (Rows cols [[key; dec_nat idx; dec (sx_cell ex idx);
                      "per-commit key history is not available in CommitEntry v1"]])
  end.

Definition verify_key ex (sql : string) : SqlResult :=
  _ ← throw_if (negb (bool_decide (sx_pending ex = []))) VerifyNeedsCommit;
  key ← ok_or (extract_single_quoted_argument sql) VerifyNeedsKey;
  idx ← ok_or (KM.get (keymap (sx_db ex)) key) (UnknownKey key);
  q ← map_err (λ _, SqlPanic) (query (sx_db ex) idx);
  vpr ← ok_or q (NoValueForKey key);
  let '(value, proof, root) := vpr in
  ok ← ok_or (verify_query (sx_db ex) idx value proof root) SqlPanic;
  mret (Rows ["key"; "index"; "value"; "verified"; "root"]
    [[key; dec_nat idx; dec value; show_bool ok; hex_hash root]]).

(** *** Reading rows *)

Definition decode_key ex (key : string) (idx : nat) : result DecodeError TypedValue :=
  TypedValue.decode (tm_get (type_map (sx_db ex)) key) (sx_cell ex idx)
    (Blob.get (blob_store (sx_db ex)) key).

Fixpoint export_rows ex (keys : list (string * nat)) : result SqlError (list (string * JsonValue)) :=
  match keys with
  | [] => Ok []
  | (key, idx) :: keys' =>
      v ← map_err (TypedDecodeFailed key) (decode_key ex key idx);
      rest ← export_rows ex keys';
      mret ((key, to_json_value v) :: rest)
  end.
Definition export_json ex : SqlResult :=
  payload ← export_rows ex (all_keys ex);
  json ← ok_or (json_pretty_map payload) ExportFailed;
  mret (Rows ["json"] [[json]]).

Fixpoint select_rows ex (fields : list ProjectionField) (sel : option Expr) (keys : list (string * nat))
  : result SqlError (list (list string)) :=
  match keys with
  | [] => Ok []
  | (key, idx) :: keys' =>
      visible ← selection_matches_key sel key;
      if visible : bool then
        v ← map_err (TypedDecodeFailed key) (decode_key ex key idx);
        rest ← select_rows ex fields sel keys';
        mret (render_projection_row fields key v (tm_get (type_map (sx_db ex)) key) :: rest)
      else select_rows ex fields sel keys'
  end.

Definition execute_vector_search ex (fields : list ProjectionField) (vs : VectorSearchParams) : SqlResult :=
  results ← map_err VectorSearchFailed
    (VI.search (vector_index (sx_db ex)) (vs_query vs) (vs_k vs) (vs_metric vs));
  mret (Rows ((field_name <$> fields) ++ ["_distance"])
    (omap (λ r : SearchResult,
       v ← get_typed (sx_db ex) (sr_key r);
       Some (render_projection_row fields (sr_key r) v (tm_get (type_map (sx_db ex)) (sr_key r)) ++
             [f64_show6 (sr_distance r)])) results)).

Definition from_is_data (from : list TableWithJoins) : bool :=
  match from with [] => true | [t] => table_with_joins_is_data t | _ => false end.

Definition execute_select ex (body : SetExpr) : SqlResult :=
  match body with
  | BodySelect s =>
      _ ← throw_if (negb (from_is_data (sel_from s))) OnlyFromData;
      fields ← resolve_projection (sel_projection s);
      match (e ← sel_where s; extract_vector_search e) with
      | Some vs => execute_vector_search ex fields vs
      | None =>
          rows ← select_rows ex fields (sel_where s) (all_keys ex);
          mret (Rows (field_name <$> fields) rows)
      end
  | _ => Err OnlySelect
  end.

(** *** Writing *)

(** A cell queued under a key, its type untouched. *)
Definition queue_u64 (key : string) (value : N) : exec nat :=
  ex ← get_state;
  let '(km, idx) := KM.get_or_create (keymap (sx_db ex)) key in
  _ ← set_db (λ db, set_typed db km (type_map db) (blob_store db) (vector_index db));
  _ ← push_write (idx, value);
  mret idx.

Definition execute_insert (ins : Insert) : exec SqlOut :=
  _ ← lift_res (throw_if (negb (insert_targets_data ins)) OnlyDataTable);
  _ ← lift_res (throw_if (negb (ins_assignments ins =? 0)) InsertSet);
  source ← lift_res (ok_or (ins_source ins) InsertNoSource);
  ti ← lift_res (extract_insert_typed source (ins_columns ins));
  match ti with
  | Typed key v =>
      w ← queue_typed key v;
      mret (Message (QueuedTyped key (display_string v) (tag v) w.1))
  | LegacyU64 key value =>
      idx ← queue_u64 key value;
      mret (Message (QueuedU64 key value idx))
  end.

(** The loop over the keys: those that the selection accepts become the integer [z]. *)
Fixpoint touch_keys (sel : option Expr) (z : Z) (keys : list (string * nat)) (touched : nat) : exec nat :=
  match keys with
  | [] => mret touched
  | (key, _) :: keys' =>
      visible ← lift_res (selection_matches_key sel key);
      if visible : bool then
        _ ← queue_typed key (VInteger z);
        touch_keys sel z keys' (S touched)
      else touch_keys sel z keys' touched
  end.

Definition is_append_only ex : bool := bool_decide (write_mode (sx_db ex) = AppendOnly).

Definition execute_update (table : TableWithJoins) (assignments : list Assignment) (sel : option Expr)
  : exec SqlOut :=
  ex ← get_state;
  _ ← lift_res (throw_if (is_append_only ex) UpdateAppendOnly);
  _ ← lift_res (throw_if (negb (table_with_joins_is_data table)) OnlyDataTable);
  value ← lift_res (extract_update_value assignments);
  n ← touch_keys sel (u64_to_i64 value) (all_keys ex) 0;
  mret (Message (QueuedUpdates n)).

Definition execute_delete (del : Delete) : exec SqlOut :=
  ex ← get_state;
  _ ← lift_res (throw_if (is_append_only ex) DeleteAppendOnly);
  _ ← lift_res (throw_if (negb (delete_targets_data del)) OnlyDataTable);
  n ← touch_keys (del_where del) 0 (all_keys ex) 0;
  mret (Message (QueuedDeletes n)).

Definition execute_create_table (name : ObjectName) : SqlResult :=
  if negb (object_name_is_data name) then Err OnlyDataTable else Ok (Message TableAvailable).

(** The last write to each cell, in the order of the cells. *)
Definition nat_key_le (p q : nat * N) : Prop := p.1 ≤ q.1.
#[export] Instance nat_key_le_dec : RelDecision nat_key_le.
Proof. intros p q. unfold nat_key_le. apply _. Defined.
Definition dedup_writes ex : list (nat * N) := merge_sort nat_key_le (map_to_list (pending_overlay ex)).

Definition flush_commit : exec SqlOut :=
  ex ← get_state;
  if bool_decide (sx_pending ex = []) then mret (Message NoPendingWrites)
  else
    entry ← on_db CommitFailed (commit (mk_Delta (dedup_writes ex)) []);
    _ ← modify (λ ex, mk_SqlExecutor (sx_db ex) [] true (sx_tick ex));
    mret (Message (CommittedAt (height entry))).

(** A report does not change the executor. *)
Definition read_only (f : SqlExecutor → SqlResult) : exec SqlOut := λ ex, (ex, f ex).

Definition execute_statement (st : Statement) : exec SqlOut :=
  match st with
  | StQuery body => read_only (λ ex, execute_select ex body)
  | StInsert ins => execute_insert ins
  | StCommit => flush_commit
  | StUpdate table assignments sel => execute_update table assignments sel
  | StDelete del => execute_delete del
  | StCreateTable name => lift_res (execute_create_table name)
  | StOther => lift_res (Err UnsupportedStatement)
  end.

Definition execute_custom (sql : string) : option (exec SqlOut) :=
  let normalized := normalize_command sql in
  let cmd s := bool_decide (normalized = s) in
  if cmd "SHOW STATUS" then Some (read_only show_status)
  else if cmd "SHOW HISTORY" then Some (read_only show_history)
  else if cmd "COMMIT" then Some flush_commit
  else if cmd "VERIFY" then Some (lift_res (Err VerifyNeedsKey))
  else if cmd "CHECKPOINT" then Some (lift_res (Err CheckpointNeedsPath))
  else if cmd "EXPORT" then Some (read_only export_json)
  else if cmd "SHOW TYPES" then Some (read_only show_types)
  else if cmd "SHOW MODE" then
    Some (read_only (λ ex, Ok (Message (WriteModeIs (write_mode (sx_db ex))))))
  else if cmd "SET MODE APPEND_ONLY" || cmd "SET MODE APPENDONLY" then
    Some (_ ← set_db set_append_only; mret (Message ModeLocked))
  else if starts_with normalized "SHOW HISTORY " then Some (read_only (λ ex, show_key_history ex sql))
  else if starts_with normalized "VERIFY " then Some (read_only (λ ex, verify_key ex sql))
  else None.

(** The loop over statements stops at the first error. *)
Fixpoint run_all {A} (f : A → exec SqlOut) (l : list A) (last : SqlOut) : exec SqlOut :=
  match l with
  | [] => mret last
  | x :: l' => out ← f x; run_all f l' out
  end.

(** The part of [execute] for one statement. *)
Definition execute_parsed (trimmed : string) : exec SqlOut :=
  match execute_custom trimmed with
  | Some custom => custom
  | None =>
      match parse_sql trimmed with
      | Err e => lift_res (Err (ParseError e))
      | Ok [] => mret (Message NoStatements)
      | Ok ast => run_all execute_statement ast (Message NoOp)
      end
  end.

(** [execute] calls itself on the pieces of a text of several statements. *)
Fixpoint execute (fuel : nat) (sql : string) : exec SqlOut :=
  let trimmed := trim sql in
  if bool_decide (trimmed = "") then mret (Message NoStatements)
  else
    let statements := split_sql_statements trimmed in
    if 1 <? length statements then
      match fuel with
      | O => lift_res (Err SqlPanic)
      | S fuel' => run_all (execute fuel') statements (Message NoOp)
      end
    else execute_parsed trimmed.
End sql.
