(* ===== verification/SqlSpec.v ===== *)
(** * The SQL front end: what statements do to the table

    [view] is the table a reader of the executor sees.  The theorems say what every
    statement makes of it, that a text of several statements is run statement by
    statement, and what append-only mode protects. *)
From S2P Require Export Sql ProtocolSpec.

(** ** Splitting a text into statements *)

(** Whether the scan is inside quotes after a text, and whether it meets a separator. *)
Fixpoint quote_state (s : string) (q : bool) : bool :=
  match s with
  | EmptyString => q
  | String c s' => quote_state s' (if Ascii.eqb c quote then negb q else q)
  end.
Fixpoint no_separator (s : string) (q : bool) : bool :=
  match s with
  | EmptyString => true
  | String c s' =>
      if Ascii.eqb c quote then no_separator s' (negb q)
      else negb (Ascii.eqb c ";" && negb q) && no_separator s' q
  end.

Lemma quote_state_app s t q : quote_state (s +:+ t) q = quote_state t (quote_state s q).
Proof. revert q. induction s as [|c s IH]; intros q; [done|]. rewrite str_app_cons. apply IH. Qed.
Lemma no_separator_app s t q :
  no_separator (s +:+ t) q = no_separator s q && no_separator t (quote_state s q).
Proof.
  revert q. induction s as [|c s IH]; intros q; [done|]. rewrite str_app_cons. cbn [no_separator quote_state].
  destruct (Ascii.eqb c quote); [apply IH|]. by rewrite IH, andb_assoc.
Qed.

(** The scan without looking ahead: an escaped quote leaves and enters the quotes. *)
Fixpoint simple_scan (s cur : string) (q : bool) : list string :=
  match s with
  | EmptyString => keep_stmt cur
  | String c s' =>
      if Ascii.eqb c quote then simple_scan s' (cur +:+ String c "") (negb q)
      else if Ascii.eqb c ";" && negb q then keep_stmt cur ++ simple_scan s' "" q
      else simple_scan s' (cur +:+ String c "") q
  end.

Lemma split_scan_simple n s cur q : str_len s ≤ n → split_scan s cur q = simple_scan s cur q.
Proof.
  revert s cur q. induction n as [|n IH]; intros s cur q Hn.
  { destruct s; [done|]. unfold str_len in Hn. simpl in Hn. lia. }
  destruct s as [|c s]; [done|]. unfold str_len in *. cbn in Hn. cbn [split_scan simple_scan].
  destruct (Ascii.eqb_spec c quote) as [->|Hc].
  - destruct s as [|d s]; [done|]. destruct q; simpl andb; [|apply IH; lia].
    destruct (Ascii.eqb_spec d quote) as [->|Hd]; [|apply IH; lia].
    rewrite IH by (cbn in Hn; lia). cbn [simple_scan negb].
    rewrite Ascii.eqb_refl. by rewrite str_app_assoc.
  - destruct (_ && _); [f_equal|]; apply IH; lia.
Qed.

Lemma elem_of_keep_stmt cur p : p ∈ keep_stmt cur → p = trim cur ∧ p ≠ "".
Proof.
  unfold keep_stmt. cbv zeta. case_bool_decide; [by intros ?%not_elem_of_nil|].
  by intros ->%list_elem_of_singleton.
Qed.

Lemma simple_scan_pieces s cur q p :
  no_separator cur false = true → quote_state cur false = q → p ∈ simple_scan s cur q →
  ∃ c, p = trim c ∧ p ≠ "" ∧ no_separator c false = true.
Proof.
  revert cur q. induction s as [|c s IH]; intros cur q Hcur Hq Hp; cbn [simple_scan] in Hp.
  { apply elem_of_keep_stmt in Hp as [-> ?]. by exists cur. }
  destruct (Ascii.eqb_spec c quote) as [->|Hc].
  - eapply IH, Hp; [rewrite no_separator_app, Hcur; by simpl|]. rewrite quote_state_app, Hq. done.
  - destruct (Ascii.eqb c ";" && negb q) eqn:Hs.
    + apply elem_of_app in Hp as [Hp|Hp]; [apply elem_of_keep_stmt in Hp as [-> ?]; by exists cur|].
      apply andb_true_iff in Hs as [_ Hs]. apply negb_true_iff in Hs. subst q. rewrite Hs in Hp.
      by apply (IH "" false).
    + eapply IH, Hp; [rewrite no_separator_app, Hcur, Hq|rewrite quote_state_app, Hq];
        cbn [no_separator quote_state]; rewrite (proj2 (Ascii.eqb_neq _ _) Hc); [by rewrite Hs|done].
Qed.

Lemma simple_scan_single s cur q :
  no_separator s q = true → simple_scan s cur q = keep_stmt (cur +:+ s).
Proof.
  revert cur q. induction s as [|c s IH]; intros cur q Hs; cbn [simple_scan no_separator] in *.
  { by rewrite str_app_nil_r. }
  destruct (Ascii.eqb c quote); [|destruct (Ascii.eqb c ";" && negb q); [discriminate Hs|]];
    rewrite IH by done; by rewrite str_app_assoc.
Qed.

(** Blanks hold neither quotes nor separators. *)
Definition neutral (c : ascii) : bool := negb (Ascii.eqb c quote) && negb (Ascii.eqb c ";").
Lemma neutral_scan s q :
  str_forall neutral s = true → quote_state s q = q ∧ no_separator s q = true.
Proof.
  revert q. induction s as [|c s IH]; intros q; [done|]. cbn [str_forall quote_state no_separator].
  unfold neutral at 1. intros Hs. bool_hyps.
  destruct (Ascii.eqb c quote); [done|]. destruct (Ascii.eqb c ";"); [done|]. simpl. by apply IH.
Qed.

Lemma trim_start_neutral fuel s : ∃ w, s = w +:+ trim_with strip_prefix fuel s ∧ str_forall neutral w = true.
Proof.
  revert s. induction fuel as [|fuel IH]; intros s; cbn [trim_with]; [by exists ""|].
  destruct (first_some _ _) as [t|] eqn:E; [|by exists ""].
  apply first_some_Some in E as (w & Hw & ->%strip_prefix_Some). destruct (IH t) as (w' & Ht & Hn).
  exists (w +:+ w'). split; [by rewrite str_app_assoc, <-Ht|]. rewrite str_forall_app, Hn, andb_true_r.
  assert (forallb (str_forall neutral) whitespace_codes = true) as Hall by (by vm_compute).
  rewrite forallb_forall in Hall. by apply Hall, list_elem_of_In.
Qed.

Lemma no_separator_trim s : no_separator s false = true → no_separator (trim s) false = true.
Proof.
  intros Hs. destruct (trim_start_neutral (str_len s) s) as (w & E & Hw). fold (trim_start s) in E.
  rewrite E, no_separator_app in Hs. apply andb_true_iff in Hs as [_ Hs].
  rewrite (proj1 (neutral_scan w false Hw)) in Hs. unfold trim.
  destruct (trim_end_prefix (str_len (trim_start s)) (trim_start s)) as [r E2]. fold (trim_end (trim_start s)) in E2.
  rewrite E2, no_separator_app in Hs. by apply andb_true_iff in Hs as [Hs _].
Qed.

(** A piece is trimmed, not blank, and splits into itself. *)
Lemma split_piece sql p :
  p ∈ split_sql_statements sql → trim p = p ∧ p ≠ "" ∧ split_sql_statements p = [p].
Proof.
  unfold split_sql_statements. rewrite (split_scan_simple _ _ _ _ (le_n _)).
  intros Hp. apply simple_scan_pieces in Hp as (c & -> & Hne & Hc); [|done..].
  split; [apply trim_idem|]. split; [done|].
  rewrite (split_scan_simple _ _ _ _ (le_n _)), simple_scan_single by (by apply no_separator_trim).
  rewrite str_app_nil. unfold keep_stmt. cbv zeta. rewrite trim_idem. by rewrite bool_decide_false.
Qed.

Lemma extends_keymap st km km' :
  (∀ k i, KM.get km k = Some i → KM.get km' k = Some i) → extends st km st km'.
Proof. intros Hm. split; [by intros i|]. intros k i Hk _. exists i. by split; [apply Hm|]. Qed.

Section sql_spec.
Context `{Sha2, Ristretto, KzgLib, SigLib, J : SerdeJson, Libm, !JsonMake, F64Text, SqlParser, Chrono}.
Context (clock : nat → N).
Implicit Types ex : SqlExecutor.
Implicit Types db : NucleusDb.

(** ** Running a text *)

Lemma run_all_ext {A} (f g : A → action SqlExecutor SqlError SqlOut) l last ex :
  (∀ x ex, x ∈ l → f x ex = g x ex) → run_all f l last ex = run_all g l last ex.
Proof.
  revert last ex. induction l as [|x l IH]; intros last ex Hfg; [done|]. cbn [run_all].
  unfold mbind, action_bind. rewrite (Hfg x ex) by left. destruct (g x ex) as [ex1 [out|e]]; [|done].
  apply IH. intros y ex2 Hy. apply Hfg. by right.
Qed.

Lemma execute_piece fuel p ex :
  trim p = p → p ≠ "" → split_sql_statements p = [p] → execute clock fuel p ex = execute_parsed clock p ex.
Proof.
  intros Ht Hne Hs. destruct fuel; cbn [execute]; cbv zeta; rewrite Ht, bool_decide_false, Hs by done; done.
Qed.

(** Claim C20. [execute] calls itself once at most: for every text it runs the pieces of
    the text one after the other, each as a single statement, and stops at the first
    error; no deeper recursion happens and the bound on it is never reached. *)
Theorem sql_execute_terminates fuel sql ex :
  execute clock (S fuel) sql ex =
    if bool_decide (trim sql = "") then (ex, Ok (Message NoStatements))
    else if 1 <? length (split_sql_statements (trim sql))
    then run_all (execute_parsed clock) (split_sql_statements (trim sql)) (Message NoOp) ex
    else execute_parsed clock (trim sql) ex.
Proof.
  cbn [execute]. cbv zeta. case_bool_decide; [done|]. destruct (1 <? _); [|done].
  apply run_all_ext. intros p ex' Hp. apply split_piece in Hp as (Ht & Hne & Hs). by apply execute_piece.
Qed.

(** ** Append-only mode *)

Lemma put_typed_mode key v now db :
  write_mode (put_typed key v now db).1 = write_mode db ∧
  ∀ k i, KM.get (keymap db) k = Some i → KM.get (keymap (put_typed key v now db).1) k = Some i.
Proof.
  unfold put_typed. destruct (TypedValue.encode v key) as [cell blob].
  unfold mbind, action_bind, modify, get_state, mret, action_ret. destruct v;
    try (destruct (KM.get_or_create _ _) as [km idx] eqn:Hk; split; [done|]; intros k i Hi;
         pose proof (get_or_create_mono (keymap db) key k i Hi) as Hg; cbn [keymap set_typed] in *;
         by rewrite Hk in Hg).
  destruct (VI.upsert _ _ _ _) as [vi [u|er]]; [|by split].
  destruct (KM.get_or_create _ _) as [km idx] eqn:Hk; split; [done|]; intros k i Hi.
  pose proof (get_or_create_mono (keymap db) key k i Hi) as Hg. cbn [keymap set_typed] in *. by rewrite Hk in Hg.
Qed.

Lemma commit_extends delta views now db :
  write_mode db = AppendOnly →
  extends (state db) (keymap db) (state (commit delta views now db).1) (keymap db).
Proof.
  intros Hm. destruct (commit_state delta views now db) as [->|Hs]; [apply extends_refl|].
  pose proof (commit_cases db delta views now) as Hc. destruct (plan_commit db delta views) as [p|] eqn:Hp.
  - apply plan_commit_ok in Hp. rewrite Hs, <-(ps_next _ _ _ _ Hp). by apply (ps_monotone _ _ _ _ Hp).
  - rewrite Hc. apply extends_refl.
Qed.

(** What append-only mode keeps. *)
Definition only_appends ex ex' : Prop :=
  write_mode (sx_db ex) = AppendOnly →
  write_mode (sx_db ex') = AppendOnly ∧
  extends (state (sx_db ex)) (keymap (sx_db ex)) (state (sx_db ex')) (keymap (sx_db ex')).
#[local] Instance only_appends_preorder : PreOrder only_appends.
Proof.
  split.
  - intros ex Hm. split; [done|]. apply extends_refl.
  - intros ex1 ex2 ex3 Ha Hb Hm. destruct (Ha Hm) as [Hm2 He]. destruct (Hb Hm2) as [Hm3 He'].
    split; [done|]. by eapply extends_trans.
Qed.

Lemma keeps_on_db {Er T} (f : Er → SqlError) (m : N → action NucleusDb Er T) :
  (∀ now db, write_mode db = AppendOnly →
     write_mode (m now db).1 = AppendOnly ∧
     extends (state db) (keymap db) (state (m now db).1) (keymap (m now db).1)) →
  keeps only_appends (on_db clock f m).
Proof.
  intros Hm ex. unfold on_db. intros Ha. specialize (Hm (clock (sx_tick ex)) (sx_db ex) Ha).
  by destruct (m _ _) as [db' r].
Qed.
Lemma keeps_set_db (g : NucleusDb → NucleusDb) :
  (∀ db, write_mode db = AppendOnly →
     write_mode (g db) = AppendOnly ∧ extends (state db) (keymap db) (state (g db)) (keymap (g db))) →
  keeps only_appends (set_db g).
Proof. intros Hg ex Ha. by apply Hg. Qed.

Lemma keeps_put key v f : keeps only_appends (on_db clock f (put_typed key v)).
Proof.
  apply keeps_on_db. intros now db Hm. destruct (put_typed_mode key v now db) as [-> Hk].
  split; [done|]. rewrite (lf_state _ _ (put_typed_frame key v now db)). by apply extends_keymap.
Qed.
Lemma keeps_commit delta f : keeps only_appends (on_db clock f (commit delta [])).
Proof.
  apply keeps_on_db. intros now db Hm. destruct (commit_frame delta [] now db) as (-> & _ & _ & _ & ->).
  split; [done|]. by apply commit_extends.
Qed.
Lemma keeps_push w : keeps (E:=SqlError) only_appends (push_write w).
Proof. intros ex Ha. split; [done|apply extends_refl]. Qed.

Lemma keeps_queue key v : keeps only_appends (queue_typed clock key v).
Proof.
  apply keeps_bind; [apply _|apply keeps_put|]. intros w.
  apply keeps_bind; [apply _|apply keeps_push|intros _; by apply keeps_ret; apply _].
Qed.

Lemma keeps_touch sel z keys n : keeps only_appends (touch_keys clock sel z keys n).
Proof.
  revert n. induction keys as [|[k i] keys IH]; intros n; [apply keeps_ret; apply _|]. cbn [touch_keys].
  apply keeps_bind; [apply _|apply keeps_lift; apply _|]. intros [|]; [|done].
  apply keeps_bind; [apply _|apply keeps_queue|done].
Qed.

Create HintDb sql.
#[local] Hint Extern 1 (PreOrder _) => apply _ : sql.
#[local] Hint Resolve keeps_ret keeps_lift keeps_get keeps_bind keeps_push keeps_queue keeps_touch
  keeps_put keeps_commit : sql.

Lemma keeps_read_only f : keeps only_appends (read_only f).
Proof. intros ex. unfold read_only. simpl. reflexivity. Qed.

Lemma keeps_flush : keeps only_appends (flush_commit clock).
Proof.
  apply keeps_bind; [apply _|auto with sql|]. intros ex. case_bool_decide; [auto with sql|].
  apply keeps_bind; [apply _|auto with sql|]. intros e. apply keeps_bind; [apply _| |auto with sql].
  apply keeps_modify. intros ex' Ha. split; [done|apply extends_refl].
Qed.

Lemma queue_u64_eq key value ex :
  queue_u64 key value ex =
    (let db := sx_db ex in let '(km, idx) := KM.get_or_create (keymap db) key in
     mk_SqlExecutor (set_typed db km (type_map db) (blob_store db) (vector_index db))
       (sx_pending ex ++ [(idx, value)]) (sx_committed ex) (sx_tick ex),
     Ok (KM.get_or_create (keymap (sx_db ex)) key).2).
Proof.
  unfold queue_u64, mbind, action_bind, get_state, set_db, push_write, modify.
  by destruct (KM.get_or_create _ _).
Qed.

Lemma keeps_queue_u64 key value : keeps only_appends (queue_u64 key value).
Proof.
  intros ex Ha. rewrite queue_u64_eq. cbv zeta.
  pose proof (get_or_create_mono (keymap (sx_db ex)) key) as Hg.
  destruct (KM.get_or_create (keymap (sx_db ex)) key) as [km idx]. simpl in *.
  split; [done|]. by apply extends_keymap.
Qed.
#[local] Hint Resolve keeps_read_only keeps_flush keeps_queue_u64 : sql.

Lemma keeps_insert ins : keeps only_appends (execute_insert clock ins).
Proof.
  unfold execute_insert. do 4 (apply keeps_bind; [apply _|auto with sql|intros ?]).
  match goal with ti : TypedInsert |- _ => destruct ti as [key v|key v] end;
    (apply keeps_bind; [apply _|auto with sql|intros ?; auto with sql]).
Qed.

Lemma keeps_statement st : keeps only_appends (execute_statement clock st).
Proof.
  destruct st as [body|ins| |table asg sel|del|name|]; cbn [execute_statement]; auto with sql.
  - apply keeps_insert.
  - unfold execute_update. do 4 (apply keeps_bind; [apply _|auto with sql|intros ?]).
    apply keeps_bind; [apply _|auto with sql|intros ?; auto with sql].
  - unfold execute_delete. do 3 (apply keeps_bind; [apply _|auto with sql|intros ?]).
    apply keeps_bind; [apply _|auto with sql|intros ?; auto with sql].
Qed.

Lemma keeps_run_all {A} (f : A → action SqlExecutor SqlError SqlOut) l last :
  (∀ x, keeps only_appends (f x)) → keeps only_appends (run_all f l last).
Proof.
  intros Hf. revert last. induction l as [|x l IH]; intros last; cbn [run_all]; [auto with sql|].
  apply keeps_bind; [apply _|apply Hf|intros ?; apply IH].
Qed.

Lemma keeps_parsed sql : keeps only_appends (execute_parsed clock sql).
Proof.
  unfold execute_parsed. destruct (execute_custom clock sql) as [custom|] eqn:E.
  - revert E. unfold execute_custom. cbv zeta.
    repeat (case_match; [intros [= <-]; try (solve [auto with sql])|]); try done.
    apply keeps_bind; [apply _| |auto with sql]. apply keeps_set_db. intros db Hm.
    split; [done|apply extends_refl].
  - destruct (parse_sql sql) as [[|st ast]|e]; [auto with sql| |auto with sql].
    apply keeps_run_all, keeps_statement.
Qed.

(** Claim C19. In append-only mode no text of SQL removes or overwrites a committed cell: after
    any call of [execute], whatever it returns, the mode is still append-only, every
    non-zero cell still holds its value, and every key that had one still names it. *)
Theorem sql_append_only fuel sql ex :
  write_mode (sx_db ex) = AppendOnly →
  let ex' := (execute clock fuel sql ex).1 in
  write_mode (sx_db ex') = AppendOnly ∧
  extends (state (sx_db ex)) (keymap (sx_db ex)) (state (sx_db ex')) (keymap (sx_db ex')).
Proof.
  intros Hm. cbv zeta. revert ex Hm. change (keeps only_appends (execute clock fuel sql)).
  revert sql. induction fuel as [|fuel IH]; intros sql; cbn [execute]; cbv zeta;
    (case_bool_decide; [auto with sql|]); (destruct (1 <? _); [|apply keeps_parsed]); [auto with sql|].
  by apply keeps_run_all.
Qed.
End sql_spec.
