(* ===== verification/SqlTable.v ===== *)
(** * The SQL front end: statements as updates of one table

    [table] is what a reader of the executor sees: for every registered key its type, its
    cell with the queued writes on top, and its blob.  [effect] says what each statement
    does to such a table; the theorems show that the executor does exactly that, that
    [COMMIT] makes the table the content of the database, and what is not held back until
    then. *)
From S2P Require Export SqlSpec.

Section table.
Context `{Sha2, Ristretto, KzgLib, SigLib, J : SerdeJson, Libm, !JsonMake, F64Text, SqlParser, Chrono}.
Context (clock : nat → N).
Implicit Types ex : SqlExecutor.
Implicit Types db : NucleusDb.

(** ** Tables *)

Record Row := mk_Row { row_type : TypeTag; row_cell : N; row_blob : option bytes }.
Abbreviation Table := (gmap string Row).
Implicit Types T : Table.

Definition row_value (r : Row) : result DecodeError TypedValue :=
  TypedValue.decode (row_type r) (row_cell r) (row_blob r).
Definition row_of (v : TypedValue) (key : string) : Row :=
  mk_Row (tag v) (TypedValue.encode v key).1 (TypedValue.encode v key).2.
Definition blank : Row := mk_Row TInteger 0 None.
Definition set_cell (n : N) (r : Row) : Row := mk_Row (row_type r) n (row_blob r).

Definition row_at ex (key : string) (idx : nat) : Row :=
  mk_Row (tm_get (type_map (sx_db ex)) key) (sx_cell ex idx) (Blob.get (blob_store (sx_db ex)) key).
Definition table ex : Table :=
  map_imap (λ key idx, Some (row_at ex key idx)) (forward (keymap (sx_db ex))).

(** Keys have one cell each, and only registered keys have a type or a blob. *)
Record sql_wf ex : Prop := {
  wf_keymap : keymap_wf (keymap (sx_db ex));
  wf_types : ∀ k, KM.get (keymap (sx_db ex)) k = None → types (type_map (sx_db ex)) !! k = None;
  wf_blobs : ∀ k, KM.get (keymap (sx_db ex)) k = None → contents (blob_store (sx_db ex)) !! k = None
}.

Definition selected (sel : option Expr) (key : string) : bool :=
  default false (res_ok (selection_matches_key sel key)).
(** The given keys become the integer [z]. *)
Definition overwrite (keys : list string) (z : Z) (T : Table) : Table :=
  map_imap (λ k r, Some (if bool_decide (k ∈ keys) then row_of (VInteger z) k else r)) T.
Definition accepted (sel : option Expr) (T : Table) : list string :=
  filter (λ k, selected sel k = true) (map_keys T).

Definition parse_insert (ins : Sql.Insert) : result SqlError TypedInsert :=
  source ← ok_or (ins_source ins) InsertNoSource;
  extract_insert_typed source (ins_columns ins).

(** What a statement makes of the table. *)
Definition effect (st : Statement) (T : Table) : Table :=
  match st with
  | StInsert ins =>
      match parse_insert ins with
      | Ok (Typed key v) => <[key := row_of v key]> T
      | Ok (LegacyU64 key n) => <[key := set_cell n (default blank (T !! key))]> T
      | Err _ => T
      end
  | StUpdate _ assignments sel =>
      match extract_update_value assignments with
      | Ok n => overwrite (accepted sel T) (u64_to_i64 n) T
      | Err _ => T
      end
  | StDelete del => overwrite (accepted (del_where del) T) 0 T
  | _ => T
  end.

(** A full blob store makes room for the blob of an INSERT: the rows of the keys in [lost]
    keep their type and their cell and lose their blob, and a statement pushes out no more
    blobs than exceed the ceiling of the store. *)
Definition drop_blobs (lost : gset string) (T : Table) : Table :=
  map_imap (λ k r, Some (if decide (k ∈ lost) then mk_Row (row_type r) (row_cell r) None else r)) T.
Definition pushed_out ex (st : Statement) : nat :=
  match st with
  | StInsert ins =>
      match parse_insert ins with Ok (Typed key v) => overflow (sx_db ex) key v | _ => 0 end
  | _ => 0
  end.

Definition out_row (fields : list ProjectionField) (kr : string * Row) : option (list string) :=
  v ← res_ok (row_value kr.2);
  Some (render_projection_row fields kr.1 v (row_type kr.2)).

(** ** Reading *)

Lemma table_lookup ex k : table ex !! k = row_at ex k <$> KM.get (keymap (sx_db ex)) k.
Proof. unfold table, KM.get. rewrite map_lookup_imap. by destruct (_ !! k). Qed.
Lemma table_entries ex : entries (table ex) = (λ ki, (ki.1, row_at ex ki.1 ki.2)) <$> all_keys ex.
Proof. apply entries_imap. Qed.
Lemma table_keys ex : map_keys (table ex) = (all_keys ex).*1.
Proof. unfold map_keys. rewrite table_entries, <-list_fmap_compose. done. Qed.
Lemma table_same ex ex' :
  keymap (sx_db ex') = keymap (sx_db ex) → type_map (sx_db ex') = type_map (sx_db ex) →
  blob_store (sx_db ex') = blob_store (sx_db ex) → (∀ i, sx_cell ex' i = sx_cell ex i) →
  table ex' = table ex.
Proof.
  intros Hk Ht Hb Hc. apply map_eq. intros k. rewrite !table_lookup, Hk.
  destruct (KM.get _ k); [|done]. simpl. unfold row_at. by rewrite Ht, Hb, Hc.
Qed.

Lemma sx_cell_push db ex w c t j :
  state db = state (sx_db ex) →
  sx_cell (mk_SqlExecutor db (sx_pending ex ++ [w]) c t) j = if decide (j = w.1) then w.2 else sx_cell ex j.
Proof.
  intros Hs. unfold sx_cell, pending_overlay. simpl. rewrite foldl_app, Hs. simpl.
  case_decide as Hj; [subst; by rewrite lookup_insert_eq|]. by rewrite lookup_insert_ne.
Qed.

Lemma get_or_create_ne km key k : k ≠ key → KM.get (KM.get_or_create km key).1 k = KM.get km k.
Proof.
  intros Hne. unfold KM.get_or_create, KM.get. destruct (forward km !! key); [done|].
  simpl. by rewrite lookup_insert_ne.
Qed.

(** ** Writing one key *)

(** The common part of the writes: the key is registered, its cell queued and its row [r]. *)
Lemma table_write key r db ex c t :
  sql_wf ex →
  let idx := (KM.get_or_create (keymap (sx_db ex)) key).2 in
  let ex' := mk_SqlExecutor db (sx_pending ex ++ [(idx, row_cell r)]) c t in
  state db = state (sx_db ex) → keymap db = (KM.get_or_create (keymap (sx_db ex)) key).1 →
  tm_get (type_map db) key = row_type r → contents (blob_store db) !! key = row_blob r →
  (∀ k, k ≠ key → types (type_map db) !! k = types (type_map (sx_db ex)) !! k ∧
                  contents (blob_store db) !! k = contents (blob_store (sx_db ex)) !! k) →
  table ex' = <[key := r]> (table ex) ∧ sql_wf ex'.
Proof.
  intros Hwf. cbv zeta. intros Hs Hk Ht Hb Hother.
  pose proof (get_or_create_get (keymap (sx_db ex)) key) as Hkey.
  pose proof (get_or_create_wf _ key (wf_keymap _ Hwf)) as Hkm'. split; [|split].
  - apply map_eq. intros k. rewrite table_lookup. cbn [sx_db]. rewrite Hk.
    destruct (decide (k = key)) as [->|Hne].
    + rewrite lookup_insert_eq, Hkey. simpl. unfold row_at. rewrite sx_cell_push by done.
      cbn [sx_db fst snd]. rewrite decide_True, Ht by done. unfold Blob.get. rewrite Hb. by destruct r.
    + rewrite lookup_insert_ne, table_lookup, get_or_create_ne by done.
      destruct (KM.get (keymap (sx_db ex)) k) as [i|] eqn:Hi; [|done]. simpl. f_equal. unfold row_at.
      rewrite sx_cell_push by done. cbn [sx_db fst snd]. destruct (Hother k Hne) as [Et Eb].
      unfold tm_get, Blob.get. rewrite Et, Eb. rewrite decide_False; [done|]. intros ->. apply Hne.
      eapply (keymap_get_inj _ _ _ _ Hkm'); [|exact Hkey]. by apply get_or_create_mono.
  - cbn [sx_db]. by rewrite Hk.
  - cbn [sx_db]. intros k Hn. rewrite Hk in Hn. destruct (decide (k = key)) as [->|Hne]; [by rewrite Hkey in Hn|].
    rewrite get_or_create_ne in Hn by done. destruct (Hother k Hne) as [-> _]. by apply Hwf.
  - cbn [sx_db]. intros k Hn. rewrite Hk in Hn. destruct (decide (k = key)) as [->|Hne]; [by rewrite Hkey in Hn|].
    rewrite get_or_create_ne in Hn by done. destruct (Hother k Hne) as [_ ->]. by apply Hwf.
Qed.

Lemma put_typed_err key v now db db' e :
  put_typed key v now db = (db', Err e) →
  keymap db' = keymap db ∧ type_map db' = type_map db ∧ blob_store db' = blob_store db ∧ state db' = state db.
Proof.
  unfold put_typed. destruct (TypedValue.encode v key) as [cell blob].
  unfold mbind, action_bind, modify, get_state, mret, action_ret. destruct v;
    try (by destruct (KM.get_or_create _ _)).
  destruct (VI.upsert _ _ _ _) as [vi [u|er]]; [by destruct (KM.get_or_create _ _)|]. by intros [= <- _].
Qed.

Lemma sql_wf_same ex ex' :
  keymap (sx_db ex') = keymap (sx_db ex) → type_map (sx_db ex') = type_map (sx_db ex) →
  blob_store (sx_db ex') = blob_store (sx_db ex) → sql_wf ex → sql_wf ex'.
Proof. intros Hk Ht Hb []. split; rewrite ?Hk, ?Ht, ?Hb; done. Qed.

Lemma drop_nothing lost T : size lost = 0 → drop_blobs lost T = T.
Proof.
  intros ->%size_empty_inv%leibniz_equiv. apply map_eq. intros k. unfold drop_blobs. rewrite map_lookup_imap.
  destruct (T !! k); [|done]. simpl. by rewrite decide_False by apply not_elem_of_empty.
Qed.

(** The same database with other blobs. *)
Definition with_blobs db (m : gmap string bytes) : NucleusDb :=
  set_typed db (keymap db) (type_map db) (with_store (blob_store db) m (evictor (blob_store db)) 0) (vector_index db).

(** An executor whose database has lost some of the blobs [m]. *)
Lemma table_drop db m p c t :
  contents (blob_store db) ⊆ m →
  ∃ lost, table (mk_SqlExecutor db p c t) = drop_blobs lost (table (mk_SqlExecutor (with_blobs db m) p c t)) ∧
    size lost = size m - size (contents (blob_store db)).
Proof.
  clear clock. intros Hsub. exists (dom m ∖ dom (contents (blob_store db))). split.
  2:{ rewrite size_difference by (by apply subseteq_dom). by rewrite !size_dom. }
  apply map_eq. intros k. unfold drop_blobs. rewrite map_lookup_imap, !table_lookup. cbn.
  destruct (KM.get _ k) as [i|]; [|done]. cbn. f_equal. unfold row_at, Blob.get. cbn.
  destruct (contents (blob_store db) !! k) as [d|] eqn:Hd.
  - rewrite (lookup_weaken _ _ _ _ Hd Hsub), decide_False; [done|].
    rewrite elem_of_difference, !elem_of_dom, Hd. naive_solver.
  - destruct (m !! k) as [d|] eqn:Hm; [|by case_decide].
    rewrite decide_True; [done|]. rewrite elem_of_difference, !elem_of_dom, Hd, Hm. naive_solver.
Qed.

Lemma queue_typed_table key v ex ex' r :
  queue_typed clock key v ex = (ex', r) → sql_wf ex →
  sql_wf ex' ∧
  match r with
  | Ok w => ∃ lost, table ex' = drop_blobs lost (<[key := row_of v key]> (table ex)) ∧
                    size lost ≤ overflow (sx_db ex) key v
  | Err _ => table ex' = table ex
  end.
Proof.
  unfold queue_typed, on_db, push_write, modify, mbind, action_bind, mret, action_ret.
  destruct (put_typed key v _ (sx_db ex)) as [db' [[idx cell]|e]] eqn:Hp; intros [= <- <-] Hwf.
  - destruct (put_typed_parts _ _ _ _ _ _ _ Hp) as (Ps & Pk & -> & -> & Pt & Pb & Pn).
    destruct (table_drop db' (blobs_after (sx_db ex) key v)
      (sx_pending ex ++ [((KM.get_or_create (keymap (sx_db ex)) key).2, (TypedValue.encode v key).1)])
      (sx_committed ex) (S (sx_tick ex)) Pb) as (lost & El & Hl).
    destruct (table_write key (row_of v key) (with_blobs db' (blobs_after (sx_db ex) key v)) ex
      (sx_committed ex) (S (sx_tick ex)) Hwf) as [Et Hwf']; [done|done|..]; cbn [row_of row_type row_blob].
    + cbn. rewrite Pt. unfold tm_get, tm_set. simpl. by rewrite lookup_insert_eq.
    + cbn. unfold blobs_after. destruct (TypedValue.encode v key) as [c [data|]]; simpl;
        [apply lookup_insert_eq|apply lookup_delete_eq].
    + cbn. intros k Hne. rewrite Pt. unfold blobs_after, tm_set. simpl. rewrite lookup_insert_ne by done.
      split; [done|]. destruct (TypedValue.encode v key) as [c [data|]]; simpl;
        [by apply lookup_insert_ne|by apply lookup_delete_ne].
    + cbn [row_of row_cell] in Et, Hwf'. split.
      * destruct Hwf' as [Hk Ht Hb]. split; [done|done|]. cbn in *. intros k Hn.
        eapply lookup_weaken_None; [by apply Hb|done].
      * exists lost. rewrite <-Et, <-El. split; [done|]. lia.
  - apply put_typed_err in Hp as (Ek & Et & Eb & Es). split; [by eapply sql_wf_same|].
    apply table_same; [done..|]. intros i. unfold sx_cell, pending_overlay. simpl. by rewrite Es.
Qed.

Lemma queue_u64_table key n ex ex' r :
  queue_u64 key n ex = (ex', r) → sql_wf ex →
  sql_wf ex' ∧ is_ok r = true ∧ table ex' = <[key := set_cell n (default blank (table ex !! key))]> (table ex).
Proof.
  rewrite queue_u64_eq. cbv zeta. intros E Hwf.
  set (r0 := set_cell n (default blank (table ex !! key))).
  assert (tm_get (type_map (sx_db ex)) key = row_type r0 ∧
          contents (blob_store (sx_db ex)) !! key = row_blob r0) as [Ht Hb].
  { subst r0. rewrite table_lookup. destruct (KM.get (keymap (sx_db ex)) key) eqn:Hk; [done|].
    unfold tm_get. by rewrite (wf_types _ Hwf), (wf_blobs _ Hwf). }
  destruct (KM.get_or_create (keymap (sx_db ex)) key) as [km idx] eqn:Hg. injection E as <- <-.
  pose proof (table_write key r0
    (set_typed (sx_db ex) km (type_map (sx_db ex)) (blob_store (sx_db ex)) (vector_index (sx_db ex)))
    ex (sx_committed ex) (sx_tick ex) Hwf) as Hw. cbv zeta in Hw. rewrite Hg in Hw. cbn [fst snd] in Hw.
  destruct Hw as [Hw1 Hw2]; [done..|]. by split_and!.
Qed.

Lemma queue_typed_frame key v ex : log_frame (sx_db ex) (sx_db (queue_typed clock key v ex).1).
Proof.
  unfold queue_typed, on_db, push_write, modify, mbind, action_bind, mret, action_ret.
  pose proof (put_typed_frame key v (clock (sx_tick ex)) (sx_db ex)) as Hf.
  by destruct (put_typed _ _ _ _) as [db' [[idx cell]|e]].
Qed.

(** ** Writing many keys *)

Lemma overwrite_nil z T : overwrite [] z T = T.
Proof. apply map_eq. intros k. unfold overwrite. rewrite map_lookup_imap. by destruct (T !! k). Qed.
Lemma overwrite_cons k ks z T :
  is_Some (T !! k) → overwrite ks z (<[k := row_of (VInteger z) k]> T) = overwrite (k :: ks) z T.
Proof.
  intros [r Hr]. apply map_eq. intros k'. unfold overwrite. rewrite !map_lookup_imap.
  destruct (decide (k' = k)) as [->|Hne].
  - rewrite lookup_insert_eq, Hr. simpl. rewrite (bool_decide_true (k ∈ k :: ks)) by left. by case_bool_decide.
  - rewrite lookup_insert_ne by done. destruct (T !! k'); [|done]. simpl. f_equal.
    rewrite (bool_decide_ext (k' ∈ k :: ks) (k' ∈ ks)); [done|]. rewrite elem_of_cons. tauto.
Qed.

Lemma selected_ok sel k b : selection_matches_key sel k = Ok b → selected sel k = b.
Proof. unfold selected. by intros ->. Qed.

Lemma touch_keys_table sel z keys n ex ex' r :
  touch_keys clock sel z keys n ex = (ex', r) → sql_wf ex → Forall (λ ki, is_Some (table ex !! ki.1)) keys →
  sql_wf ex' ∧ ∃ done, (∀ k, k ∈ done → k ∈ keys.*1 ∧ selected sel k = true) ∧
    table ex' = overwrite done z (table ex) ∧
    match r with
    | Ok m => done = filter (λ k, selected sel k = true) keys.*1 ∧ m = n + length done
    | Err _ => True
    end.
Proof.
  revert n ex. induction keys as [|[k i] keys IH]; intros n ex E Hwf Hreg; cbn [touch_keys] in E.
  { injection E as <- <-. split; [done|]. exists []. rewrite overwrite_nil. split_and!; [|done..|simpl; lia].
    by intros ? ?%not_elem_of_nil. }
  apply Forall_cons in Hreg as [Hk Hreg]. cbn [fst] in Hk. cbn [fmap list_fmap fst].
  unfold mbind, action_bind, lift_res in E. destruct (selection_matches_key sel k) as [b|e] eqn:Hb.
  2:{ injection E as <- <-. split; [done|]. exists []. rewrite overwrite_nil. by split; [intros ? ?%not_elem_of_nil|]. }
  pose proof (selected_ok _ _ _ Hb) as Hsel. rewrite filter_cons. destruct b.
  - destruct (queue_typed clock k (VInteger z) ex) as [ex1 r1] eqn:Hq.
    destruct (queue_typed_table _ _ _ _ _ Hq Hwf) as [Hwf1 Ht1].
    destruct r1 as [w|e]; [destruct Ht1 as (lost & Ht1 & Hl); rewrite drop_nothing in Ht1 by (change (size lost ≤ 0) in Hl; lia)|injection E as <- <-; split; [done|]; exists []; rewrite overwrite_nil;
      by split; [intros ? ?%not_elem_of_nil|]].
    destruct (IH (S n) ex1 E Hwf1) as (Hwf' & dn & Hdn & Ht & Hr).
    { eapply Forall_impl; [exact Hreg|]. intros ki [x Hx]. rewrite Ht1.
      destruct (decide (ki.1 = k)) as [->|]; [rewrite lookup_insert_eq|rewrite lookup_insert_ne by done]; by eexists. }
    split; [done|]. exists (k :: dn). split; [|split].
    + intros k' [->|Hk']%elem_of_cons; [by split; [left|]|]. destruct (Hdn k' Hk'). by split; [right|].
    + by rewrite <-overwrite_cons, Ht, Ht1.
    + destruct r; [|done]. destruct Hr as [-> ->]. rewrite decide_True by done. split; [done|]. simpl. lia.
  - destruct (IH n ex E Hwf Hreg) as (Hwf' & dn & Hdn & Ht & Hr). split; [done|]. exists dn.
    split; [|split; [done|]].
    + intros k' Hk'. destruct (Hdn k' Hk'). by split; [right|].
    + destruct r; [|done]. by rewrite decide_False by (by rewrite Hsel).
Qed.

Lemma touch_all_table sel z ex ex' r :
  touch_keys clock sel z (all_keys ex) 0 ex = (ex', r) → sql_wf ex →
  sql_wf ex' ∧ ∃ done, (∀ k, k ∈ done → k ∈ accepted sel (table ex)) ∧
    table ex' = overwrite done z (table ex) ∧
    match r with Ok m => done = accepted sel (table ex) ∧ m = length done | Err _ => True end.
Proof.
  intros E Hwf. unfold accepted. rewrite table_keys.
  destruct (touch_keys_table _ _ _ _ _ _ _ E Hwf) as (Hwf' & dn & Hdn & Ht & Hr).
  { apply Forall_forall. intros [k i] Hki. apply elem_of_entries in Hki. cbn [fst]. rewrite table_lookup.
    unfold KM.get. rewrite Hki. by eexists. }
  split; [done|]. exists dn. split; [|by split]. intros k Hk. apply list_elem_of_filter.
  destruct (Hdn k Hk). by split.
Qed.

(** ** Committing *)

Lemma list_to_map_dedup ex : list_to_map (dedup_writes ex) = pending_overlay ex.
Proof.
  unfold dedup_writes. rewrite (list_to_map_proper _ (map_to_list (pending_overlay ex)));
    [apply list_to_map_to_list| |apply merge_sort_Permutation].
  rewrite merge_sort_Permutation. apply NoDup_fst_map_to_list.
Qed.
Lemma NoDup_dedup ex : NoDup (dedup_writes ex).*1.
Proof. unfold dedup_writes. rewrite merge_sort_Permutation. apply NoDup_fst_map_to_list. Qed.

Lemma flush_table ex ex' r :
  flush_commit clock ex = (ex', r) → sql_wf ex → db_inv (sx_db ex) →
  sql_wf ex' ∧ table ex' = table ex ∧ (is_ok r = true → sx_pending ex' = []).
Proof.
  intros E Hwf Hi. unfold flush_commit, get_state, mbind, action_bind, mret, action_ret in E.
  case_bool_decide as Hp; [injection E as <- <-; by split_and!|].
  unfold on_db, modify in E. pose proof (commit_frame (mk_Delta (dedup_writes ex)) []
    (clock (sx_tick ex)) (sx_db ex)) as (Fk & Ft & Fb & _ & _).
  destruct (commit _ _ _ _) as [db' [e|e]] eqn:Hc; simpl in *; injection E as <- <-.
  - split; [by eapply sql_wf_same|]. split; [|done]. apply table_same; [done..|]. intros i.
    unfold sx_cell. simpl. unfold pending_overlay at 1. simpl. rewrite lookup_empty. simpl.
    rewrite (cp_state _ _ _ _ _ _ (commit_ok_post _ _ _ _ _ _ Hc)), value_at_apply.
    cbn [writes]. by rewrite read_after_map, list_to_map_dedup by apply NoDup_dedup.
  - split; [by eapply sql_wf_same|]. split; [|done]. apply table_same; [done..|]. intros i.
    unfold sx_cell, pending_overlay. simpl. by destruct (commit_err_keeps _ _ _ _ _ _ Hi Hc) as [-> _].
Qed.

(** ** Statements *)

(** What a failing statement may leave behind: an update or a deletion may have reached
    some of its keys. *)
Definition err_effect (st : Statement) (T T' : Table) : Prop :=
  match st with
  | StUpdate _ _ sel | StDelete (mk_Delete _ sel) =>
      ∃ done z, (∀ k, k ∈ done → k ∈ accepted sel T) ∧ T' = overwrite done z T
  | _ => T' = T
  end.
Lemma err_effect_refl st T : err_effect st T T.
Proof.
  assert (∀ sel, ∃ done z, (∀ k : string, k ∈ done → k ∈ accepted sel T) ∧ T = overwrite done z T) as Hnone.
  { intros sel. exists [], 0%Z. rewrite overwrite_nil. by split; [intros ? ?%not_elem_of_nil|]. }
  destruct st as [| | | | [] | |]; simpl; auto.
Qed.

Lemma execute_insert_eq ins ex :
  execute_insert clock ins ex =
    if negb (insert_targets_data ins) then (ex, Err OnlyDataTable)
    else if negb (ins_assignments ins =? 0) then (ex, Err InsertSet)
    else match parse_insert ins with
         | Err e => (ex, Err e)
         | Ok (Typed key v) =>
             (w ← queue_typed clock key v; mret (Message (QueuedTyped key (display_string v) (tag v) w.1))) ex
         | Ok (LegacyU64 key n) => (idx ← queue_u64 key n; mret (Message (QueuedU64 key n idx))) ex
         end.
Proof.
  unfold execute_insert, parse_insert, throw_if, mbind, action_bind, result_bind, lift_res, mret, action_ret.
  destruct (negb (insert_targets_data ins)); [done|]. destruct (negb _); [done|].
  destruct (ins_source ins) as [src|]; [|done]. simpl.
  by destruct (extract_insert_typed src (ins_columns ins)) as [[]|].
Qed.

Lemma insert_table ins ex ex' r :
  execute_insert clock ins ex = (ex', r) → sql_wf ex →
  sql_wf ex' ∧
  match r with
  | Ok _ => ∃ lost, table ex' = drop_blobs lost (effect (StInsert ins) (table ex)) ∧
                    size lost ≤ pushed_out ex (StInsert ins)
  | Err _ => table ex' = table ex
  end.
Proof.
  rewrite execute_insert_eq. intros E Hwf. cbn [pushed_out effect] in *.
  destruct (negb (insert_targets_data ins)); [by injection E as <- <-|].
  destruct (negb _); [by injection E as <- <-|].
  destruct (parse_insert ins) as [[key v|key n]|e]; [| |by injection E as <- <-];
    unfold mbind, action_bind, mret, action_ret in E.
  - destruct (queue_typed clock key v ex) as [ex1 [w|e]] eqn:Hq; injection E as <- <-;
      exact (queue_typed_table _ _ _ _ _ Hq Hwf).
  - destruct (queue_u64 key n ex) as [ex1 r1] eqn:Hq.
    destruct (queue_u64_table _ _ _ _ _ Hq Hwf) as (Hwf1 & Hok & Ht). destruct r1; [|done].
    injection E as <- <-. split; [done|]. exists ∅. by rewrite drop_nothing by apply size_empty.
Qed.

(** An update and a deletion, once their guards have passed. *)
Lemma touch_statement sel z (msg : nat → SqlOut) ex ex' r :
  (n ← touch_keys clock sel z (all_keys ex) 0; mret (msg n)) ex = (ex', r) → sql_wf ex →
  sql_wf ex' ∧
  match r with
  | Ok _ => table ex' = overwrite (accepted sel (table ex)) z (table ex)
  | Err _ => ∃ done z, (∀ k, k ∈ done → k ∈ accepted sel (table ex)) ∧ table ex' = overwrite done z (table ex)
  end.
Proof.
  unfold mbind, action_bind, mret, action_ret. intros E Hwf.
  destruct (touch_keys _ _ _ _ _ _) as [ex1 r1] eqn:Ht.
  destruct (touch_all_table _ _ _ _ _ Ht Hwf) as (Hwf1 & dn & Hdn & Hw & Hr).
  destruct r1 as [m|e]; injection E as <- <-; (split; [done|]).
  - by destruct Hr as [<- _].
  - by exists dn, z.
Qed.

(** Claim C18. Each statement does to the table exactly what [effect] says: an
    INSERT sets the row of its key to the given value, or, for an unsigned number, only
    the cell of that row; an UPDATE and a DELETE turn the rows whose key is accepted into
    the given integer and into the integer zero; a COMMIT and every other statement leave
    the table alone, a failing COMMIT included.  The one side effect: when the blob store
    is full, an INSERT of a text, JSON, bytes or vector also takes the blobs of as many
    keys (its own may be among them) as exceed the store's ceiling; their rows keep type
    and cell and no longer decode.  A failing INSERT changes nothing; a failing UPDATE or
    DELETE has changed some of its rows. *)
Theorem sql_statement_refines st ex ex' r :
  sql_wf ex → db_inv (sx_db ex) → execute_statement clock st ex = (ex', r) →
  sql_wf ex' ∧
  match r with
  | Ok _ => ∃ lost, table ex' = drop_blobs lost (effect st (table ex)) ∧ size lost ≤ pushed_out ex st
  | Err _ => err_effect st (table ex) (table ex')
  end.
Proof.
  intros Hwf Hi E.
  assert (∀ T T' : Table, T' = T → ∃ lost, T' = drop_blobs lost T ∧ size lost ≤ 0) as Hnone.
  { intros T T' ->. exists ∅. by rewrite drop_nothing by apply size_empty. }
  destruct st as [body|ins| |tbl asg sel|[tbls sel]|name|]; cbn [execute_statement] in E.
  - injection E as <- <-. split; [done|]. by destruct (execute_select ex body); [apply Hnone|].
  - destruct (insert_table _ _ _ _ E Hwf) as [Hwf' Ht]. by destruct r.
  - destruct (flush_table _ _ _ E Hwf Hi) as (Hwf' & Ht & _). split; [done|]. destruct r; [by apply Hnone|done].
  - unfold execute_update in E. cbn [effect err_effect]. unfold get_state, mbind at 1, action_bind at 1 in E.
    pose proof (err_effect_refl (StUpdate tbl asg sel) (table ex)) as Hrefl. cbn [err_effect] in Hrefl.
    destruct (is_append_only ex); [by injection E as <- <-|].
    destruct (table_with_joins_is_data tbl); [|by injection E as <- <-].
    destruct (extract_update_value asg) as [n|e]; [|by injection E as <- <-].
    destruct (touch_statement _ _ _ _ _ _ E Hwf) as [Hwf' Ht]. split; [done|]. destruct r; [by apply Hnone|exact Ht].
  - unfold execute_delete in E. cbn [effect err_effect]. unfold get_state, mbind at 1, action_bind at 1 in E.
    pose proof (err_effect_refl (StDelete (mk_Delete tbls sel)) (table ex)) as Hrefl. cbn [err_effect] in Hrefl.
    destruct (is_append_only ex); [by injection E as <- <-|].
    destruct (delete_targets_data (mk_Delete tbls sel)); [|by injection E as <- <-].
    destruct (touch_statement _ _ _ _ _ _ E Hwf) as [Hwf' Ht]. split; [done|]. destruct r; [by apply Hnone|exact Ht].
  - injection E as <- <-. split; [done|]. destruct (execute_create_table name); first [done|by apply Hnone].
  - by injection E as <- <-.
Qed.

(** ** Committed tables *)

Lemma get_typed_table ex key :
  sx_pending ex = [] → get_typed (sx_db ex) key = (r ← table ex !! key; res_ok (row_value r)).
Proof.
  intros Hp. rewrite table_lookup. unfold get_typed. destruct (KM.get _ key) as [idx|]; [|done]. simpl.
  unfold row_value, row_at, sx_cell, pending_overlay. simpl. rewrite Hp. simpl. by rewrite lookup_empty.
Qed.

(** A COMMIT that reports a height has appended one entry with that height,
    emptied the queue, and left every key of the database readable with exactly the value
    that SELECT showed before the COMMIT. *)
Theorem sql_commit_durable ex ex' h :
  sql_wf ex → db_inv (sx_db ex) → flush_commit clock ex = (ex', Ok (Message (CommittedAt h))) →
  sx_pending ex' = [] ∧ sx_committed ex' = true ∧
  (∃ e, db_entries (sx_db ex') = db_entries (sx_db ex) ++ [e] ∧ height e = h) ∧
  ∀ key, get_typed (sx_db ex') key = (r ← table ex !! key; res_ok (row_value r)).
Proof.
  intros Hwf Hi E. destruct (flush_table _ _ _ E Hwf Hi) as (_ & Ht & Hp). specialize (Hp eq_refl).
  split; [done|].
  assert (sx_committed ex' = true ∧ ∃ e, db_entries (sx_db ex') = db_entries (sx_db ex) ++ [e] ∧ height e = h) as [Hc He].
  { clear Ht Hp. unfold flush_commit, get_state, mbind, action_bind, mret, action_ret, on_db, modify in E.
    case_bool_decide; [done|]. destruct (commit _ _ _ _) as [db' [e|e]] eqn:Hc; [|done].
    simpl in E. injection E as <- <-. split; [done|]. exists e. split; [|done].
    apply (cp_entries _ _ _ _ _ _ (commit_ok_post _ _ _ _ _ _ Hc)). }
  split_and!; [done..|]. intros key. by rewrite get_typed_table, Ht.
Qed.

(** An INSERT of a value that lives in a blob is not held back until the COMMIT:
    although the state, the log and the write mode are as before and the cell is only
    queued, the database itself answers with the new value at once, in append-only mode
    too, whatever the key held. *)
Theorem sql_insert_bypasses_commit ins key v data ex ex' out :
  sql_wf ex → execute_insert clock ins ex = (ex', Ok out) → parse_insert ins = Ok (Typed key v) →
  value_wf v → (TypedValue.encode v key).2 = Some data → has_room (sx_db ex) key v →
  get_typed (sx_db ex') key = Some v ∧ state (sx_db ex') = state (sx_db ex) ∧
  db_entries (sx_db ex') = db_entries (sx_db ex) ∧ write_mode (sx_db ex') = write_mode (sx_db ex) ∧
  ∃ w, sx_pending ex' = sx_pending ex ++ [w].
Proof.
  intros Hwf E Hparse Hv Hblob Hroom. rewrite execute_insert_eq, Hparse in E.
  destruct (negb (insert_targets_data ins)); [done|]. destruct (negb _); [done|].
  unfold queue_typed, on_db, push_write, modify, mbind, action_bind, mret, action_ret in E.
  pose proof (put_typed_mode key v (clock (sx_tick ex)) (sx_db ex)) as [Hm _].
  pose proof (put_typed_frame key v (clock (sx_tick ex)) (sx_db ex)) as Hf.
  destruct (put_typed key v _ (sx_db ex)) as [db' [[idx cell]|e]] eqn:Hp; [|done].
  injection E as <- _. cbn [sx_db sx_pending fst] in *.
  split_and!; [|apply Hf|apply Hf|done|by eexists].
  destruct (put_typed_ok _ _ _ _ _ _ _ Hp Hroom) as (_ & Pk & -> & -> & Pt & Pb).
  rewrite (get_typed_unfold db' key (KM.get_or_create (keymap (sx_db ex)) key).2 (tag v) (Some data)).
  - pose proof (TypedValue.decode_encode v key Hv) as Hd. rewrite Hblob in Hd.
    by destruct v; try discriminate Hblob; cbn [tag TypedValue.decode] in *; rewrite Hd.
  - rewrite Pk. apply get_or_create_get.
  - rewrite Pt. unfold tm_get, tm_set. simpl. by rewrite lookup_insert_eq.
  - rewrite Pb. unfold blobs_after. rewrite Hblob. apply lookup_insert_eq.
Qed.

(** ** Queries *)

Lemma filter_bool_fmap {A B} (p : B → bool) (f : A → B) (l : list A) :
  filter (λ b, p b = true) (f <$> l) = f <$> filter (λ a, p (f a) = true) l.
Proof.
  clear clock. induction l as [|a l IH]; [done|]. cbn [fmap list_fmap]. rewrite !filter_cons.
  destruct (p (f a)); [rewrite !decide_True by done|by rewrite !decide_False by done].
  cbn [fmap list_fmap]. f_equal. exact IH.
Qed.

Lemma select_rows_ok ex fields sel keys rows :
  select_rows ex fields sel keys = Ok rows ↔
  Forall (λ ki : string * nat, is_ok (selection_matches_key sel ki.1) = true) keys ∧
  Some <$> rows = (λ ki, out_row fields (ki.1, row_at ex ki.1 ki.2)) <$>
                    filter (λ ki : string * nat, selected sel ki.1 = true) keys.
Proof.
  clear clock. revert rows. induction keys as [|[k i] keys IH]; intros rows; cbn [select_rows].
  { split; [by intros [= <-]|]. by intros [_ ->%fmap_nil_inv]. }
  rewrite Forall_cons, filter_cons. unfold mbind, result_bind. cbn [fst].
  destruct (selection_matches_key sel k) as [b|e] eqn:Hb; [|split; [done|intros [[? _] _]; done]].
  rewrite (selected_ok _ _ _ Hb). destruct b.
  - rewrite decide_True by done. cbn [fmap list_fmap fst snd]. unfold out_row at 1. unfold row_value, row_at at 1.
    cbn [fst snd row_type row_cell row_blob]. unfold decode_key.
    destruct (TypedValue.decode _ _ _) as [v|e]; cbn [map_err res_ok mbind option_bind].
    2:{ split; [done|]. intros [_ Hr]. by destruct rows. }
    destruct (select_rows ex fields sel keys) as [rest|e] eqn:Hrest.
    + destruct (proj1 (IH rest) eq_refl) as [Hall Hrows]. split.
      * intros [= <-]. split; [done|]. cbn [fmap list_fmap]. f_equal. exact Hrows.
      * intros [_ Hr]. destruct rows as [|row rows]; [done|]. cbn [fmap list_fmap] in Hr.
        injection Hr as -> Hr. rewrite <-Hrows in Hr. by apply (inj (fmap Some)) in Hr as ->.
    + split; [done|]. intros [[_ Hall] Hr]. destruct rows as [|row rows]; [done|].
      cbn [fmap list_fmap] in Hr. injection Hr as _ Hr. by pose proof (proj2 (IH rows) (conj Hall Hr)).
  - rewrite decide_False by done. rewrite IH. naive_solver.
Qed.

(** A SELECT over the table answers exactly when its condition can be evaluated on
    every key and the value of every accepted row decodes; the answer then is, in the
    order of the keys, the projection of exactly the rows whose key is accepted. *)
Theorem sql_select_exact ex s fields columns rows :
  from_is_data (sel_from s) = true → resolve_projection (sel_projection s) = Ok fields →
  (e ← sel_where s; extract_vector_search e) = None →
  execute_select ex (BodySelect s) = Ok (Rows columns rows) ↔
  columns = field_name <$> fields ∧
  (∀ key, is_Some (table ex !! key) → is_ok (selection_matches_key (sel_where s) key) = true) ∧
  Some <$> rows = out_row fields <$>
                    filter (λ kr : string * Row, selected (sel_where s) kr.1 = true) (entries (table ex)).
Proof.
  intros Hfrom Hproj Hvs. cbn [execute_select]. rewrite Hfrom, Hproj.
  unfold throw_if. cbn [negb mbind result_bind] in *. unfold mbind, result_bind in *. rewrite Hvs.
  pose proof (select_rows_ok ex fields (sel_where s) (all_keys ex) rows) as Hrows.
  assert (Some <$> rows = out_row fields <$>
      filter (λ kr : string * Row, selected (sel_where s) kr.1 = true) (entries (table ex)) ↔
    Some <$> rows = (λ ki, out_row fields (ki.1, row_at ex ki.1 ki.2)) <$>
      filter (λ ki : string * nat, selected (sel_where s) ki.1 = true) (all_keys ex)) as ->.
  { by rewrite table_entries, (filter_bool_fmap (λ kr : string * Row, selected (sel_where s) kr.1)), <-list_fmap_compose. }
  assert ((∀ key, is_Some (table ex !! key) → is_ok (selection_matches_key (sel_where s) key) = true) ↔
    Forall (λ ki : string * nat, is_ok (selection_matches_key (sel_where s) ki.1) = true) (all_keys ex)) as ->.
  { rewrite Forall_forall. split.
    - intros Hall [k i] Hki. apply Hall. apply elem_of_entries in Hki. rewrite table_lookup. unfold KM.get.
      cbn [fst]. rewrite Hki. by eexists.
    - intros Hall key [row Hr]. rewrite table_lookup in Hr. apply fmap_Some in Hr as (i & Hi & _).
      apply (Hall (key, i)). by apply elem_of_entries. }
  destruct (select_rows _ _ _ _) as [rs|e]; cbn.
  - rewrite <-Hrows. split; [by intros [= <- ->]|by intros [-> [= ->]]].
  - rewrite <-Hrows. split; [done|by intros [_ ?]].
Qed.
End table.

(** ** Witnesses *)

Section witnesses.
#[local] Existing Instances prefix_sha toy_ristretto toy_kzg toy_sig raw_json id_powf.

(** A parser for which every text is one INSERT, and texts of numbers that are never
    looked at. *)
Definition ex_insert : Sql.Insert :=
  mk_Insert (Some [Some "data"]) ["key"; "value"] 0
    (Some (BodyValues [[EValue (StringLit "k"); EValue (StringLit "hello")]])).
Definition toy_parser : SqlParser := {| parse_sql := λ _, Ok [StInsert ex_insert] |}.
Definition toy_chrono : Chrono := {| rfc3339_utc := λ _, None |}.
Definition toy_text : F64Text := {| f64_parse := λ _, None; f64_show := dec; f64_show6 := λ _, "0" |}.
Definition toy_make : JsonMake := {|
  TypedText.json_null := as_bytes "null"; json_i64 := λ z, as_bytes (pretty z); json_f64 := λ b, le_bytes 8 b;
  TypedText.json_bool := λ b, as_bytes (show_bool b); json_string := as_bytes; json_f64s := vector_to_bytes;
  json_parse := λ s, Some (as_bytes s); json_text := λ j, Some (of_bytes j); json_pretty_map := λ _, None |}.
#[local] Existing Instances toy_parser toy_chrono toy_text toy_make.
Definition ex_clock (n : nat) : N := 50 + N.of_nat n.

Definition ex_exec : SqlExecutor := sql_new ex_db 0.
Definition ex_locked : SqlExecutor := sql_new ex_append_db 0.
Definition ex_queued : SqlExecutor := (queue_typed ex_clock "k" (VText "hello") ex_exec).1.

Lemma ex_db_empty : types (type_map ex_db) = ∅ ∧ contents (blob_store ex_db) = ∅.
Proof. split; by vm_compute. Qed.
Lemma ex_exec_wf : sql_wf ex_exec.
Proof.
  destruct ex_db_empty as [Et Eb]. split; [apply ex_db_inv|intros k _..]; cbn [sx_db ex_exec sql_new];
    rewrite ?Et, ?Eb; apply lookup_empty.
Qed.
Lemma ex_locked_wf : sql_wf ex_locked.
Proof. apply (sql_wf_same ex_exec); [done..|apply ex_exec_wf]. Qed.
Lemma sql_room : has_room (sx_db ex_exec) "k" (VText "hello").
Proof. apply has_room_after, Nat.leb_le. by vm_compute. Qed.
Lemma ex_queued_wf : sql_wf ex_queued.
Proof.
  exact (proj1 (queue_typed_table ex_clock _ _ _ _ _ (surjective_pairing _) ex_exec_wf)).
Qed.

(** Inserting and committing in append-only mode. *)
Lemma sql_append_only_witness :
  let ex' := (execute ex_clock 1 "INSERT; COMMIT" ex_locked).1 in
  write_mode (sx_db ex') = AppendOnly ∧
  extends (state (sx_db ex_locked)) (keymap (sx_db ex_locked)) (state (sx_db ex')) (keymap (sx_db ex')).
Proof. exact (sql_append_only ex_clock 1 "INSERT; COMMIT" ex_locked eq_refl). Defined.

(** A blob store of one entry, which holds another key. *)
Definition ex_full : SqlExecutor :=
  let ex := (queue_typed ex_clock "z" (VText "old") ex_exec).1 in
  let db := sx_db ex in
  mk_SqlExecutor (set_typed db (keymap db) (type_map db) (Blob.set_max_entries (blob_store db) 0 1) (vector_index db))
    (sx_pending ex) false 0.
Lemma ex_full_wf : sql_wf ex_full.
Proof.
  pose proof (proj1 (queue_typed_table ex_clock "z" (VText "old") ex_exec _ _ (surjective_pairing _) ex_exec_wf)) as Hwf.
  assert (contents (blob_store (sx_db ex_full)) =
    contents (blob_store (sx_db (queue_typed ex_clock "z" (VText "old") ex_exec).1))) as Hc by (by vm_compute).
  destruct Hwf as [Hk Ht Hb]. split; [exact Hk|exact Ht|]. intros k Hn. rewrite Hc. by apply Hb.
Qed.

Lemma ex_full_inv : db_inv (sx_db ex_full).
Proof.
  apply (log_frame_inv (sx_db (queue_typed ex_clock "z" (VText "old") ex_exec).1)); [by split|].
  eapply log_frame_inv; [apply queue_typed_frame|apply ex_db_inv].
Qed.

(** The INSERT of the key [k] takes the blob of [k] itself, and it can no longer be read. *)
Lemma sql_statement_refines_witness :
  (let out := execute_statement ex_clock (StInsert ex_insert) ex_exec in
   sql_wf out.1 ∧ ∃ lost, table out.1 = drop_blobs lost (effect (StInsert ex_insert) (table ex_exec)) ∧ size lost ≤ 0) ∧
  (let out := execute_statement ex_clock (StInsert ex_insert) ex_full in
   sql_wf out.1 ∧ (∃ lost, table out.1 = drop_blobs lost (effect (StInsert ex_insert) (table ex_full)) ∧ size lost ≤ 1) ∧
   get_typed (sx_db out.1) "k" = None).
Proof.
  split.
  - destruct (sql_statement_refines ex_clock (StInsert ex_insert) ex_exec _ _ ex_exec_wf ex_db_inv
      (surjective_pairing _)) as [Hwf Hr]. split; [exact Hwf|]. exact Hr.
  - destruct (sql_statement_refines ex_clock (StInsert ex_insert) ex_full _ _ ex_full_wf ex_full_inv
      (surjective_pairing _)) as [Hwf Hr]. split; [exact Hwf|]. split; [exact Hr|by vm_compute].
Defined.

Lemma sql_commit_durable_witness :
  let ex' := (flush_commit ex_clock ex_queued).1 in
  sx_pending ex' = [] ∧ sx_committed ex' = true ∧
  (∃ e, db_entries (sx_db ex') = db_entries (sx_db ex_queued) ++ [e] ∧ height e = 1%N) ∧
  ∀ key, get_typed (sx_db ex') key = (r ← table ex_queued !! key; res_ok (row_value r)).
Proof.
  apply (sql_commit_durable ex_clock ex_queued _ 1).
  - apply ex_queued_wf.
  - eapply log_frame_inv; [apply queue_typed_frame|apply ex_db_inv].
  - apply pair_snd. by vm_compute.
Defined.

Lemma sql_insert_bypasses_commit_witness :
  let ex' := (execute_insert ex_clock ex_insert ex_locked).1 in
  get_typed (sx_db ex') "k" = Some (VText "hello") ∧ state (sx_db ex') = state (sx_db ex_locked) ∧
  db_entries (sx_db ex') = db_entries (sx_db ex_locked) ∧
  write_mode (sx_db ex') = write_mode (sx_db ex_locked) ∧
  ∃ w, sx_pending ex' = sx_pending ex_locked ++ [w].
Proof.
  apply (sql_insert_bypasses_commit ex_clock ex_insert "k" (VText "hello") (as_bytes "hello") ex_locked _
    (Message (QueuedTyped "k" "hello" TText 0))).
  - apply ex_locked_wf.
  - apply pair_snd. by vm_compute.
  - by vm_compute.
  - by vm_compute.
  - done.
  - exact sql_room.
Defined.

Definition ex_select : Select :=
  mk_Select [Wildcard] [mk_TableWithJoins (Some [Some "data"]) 0]
    (Some (ELike false false (EIdentifier "key") (EValue (StringLit "k%")))).
Definition ex_fields : list ProjectionField := [FieldKey; FieldValue; FieldType].
Lemma sql_select_exact_witness :
  ["key"; "value"; "type"] = field_name <$> ex_fields ∧
  (∀ key, is_Some (table ex_queued !! key) → is_ok (selection_matches_key (sel_where ex_select) key) = true) ∧
  Some <$> [["k"; "hello"; "text"]] = out_row ex_fields <$>
    filter (λ kr : string * Row, selected (sel_where ex_select) kr.1 = true) (entries (table ex_queued)).
Proof. apply (sql_select_exact ex_queued ex_select ex_fields); by vm_compute. Defined.
End witnesses.
