(* ===== verification/Verifier.v ===== *)
(** * The proof gate: [src/src/verifier/checker.rs], [src/src/verifier/gate.rs]

    A certificate is a text of declarations and metadata lines.  The checker parses it,
    checks its Ed25519 signature and grades its axioms; the gate looks for a certificate
    of every theorem that a tool requires.  The certificate directory is an argument, in
    the order in which [read_dir] lists it; running times are left out. *)
From S2P Require Export Did.

(** ** Lines and words *)

Definition LF : ascii := ascii_of_N 10.
Definition CR : string := String (ascii_of_N 13) "".
Definition LF_text : string := String LF "".

(** [str::lines]: a last line without a line feed counts when it is not empty, and keeps
    its carriage return. *)
Definition strip_cr (l : string) : string := default l (strip_suffix CR l).
Definition lines (s : string) : list string :=
  let ps := split_char LF s in
  (strip_cr <$> removelast ps) ++
  match last ps with Some p => if bool_decide (p = "") then [] else [p] | None => [] end.

(** The text before the first white space, and the text after it when there is one. *)
Fixpoint until_ws (s : string) : string * option string :=
  match s with
  | EmptyString => ("", None)
  | String c s' =>
      match first_some (λ w, strip_prefix w s) whitespace_codes with
      | Some r => ("", Some r)
      | None => let '(a, r) := until_ws s' in (String c a, r)
      end
  end.
(** The first two words of [split_whitespace]. *)
Definition two_words (s : string) : string * string :=
  let '(a, r) := until_ws (trim_start s) in (a, (until_ws (trim_start (default "" r))).1).

Inductive TrustTier := Untrusted | Legacy | Standard | CryptoExtended.
#[export] Instance TrustTier_eq_dec : EqDecision TrustTier.
Proof. solve_decision. Defined.

Record ExportMetadata := mk_Meta {
  commit_hash : option string;
  theorem_statement_sha256 : option string;
  generated_at : option N;
  signature_ed25519 : option string;
  signing_did : option string;
  signing_key_multibase : option string;
  signature_valid : option bool
}.
Definition meta_default : ExportMetadata := mk_Meta None None None None None None None.
Definition is_none {A} (o : option A) : bool := match o with None => true | Some _ => false end.
Definition is_legacy (m : ExportMetadata) : bool :=
  is_none (commit_hash m) && is_none (theorem_statement_sha256 m) && is_none (generated_at m) &&
  is_none (signature_ed25519 m) && is_none (signing_did m) && is_none (signing_key_multibase m).
Definition set_valid (v : option bool) (m : ExportMetadata) : ExportMetadata :=
  mk_Meta (commit_hash m) (theorem_statement_sha256 m) (generated_at m) (signature_ed25519 m)
    (signing_did m) (signing_key_multibase m) v.

Inductive CertError :=
| BadMetaLine (line : string)
| UnknownMeta (key : string)
| BadGeneratedAt (value : string)
| BadSigningKey (e : string)
| BadSignatureText
| BadSignatureLength
| SignatureIncomplete.

Record VerificationResult := mk_VerificationResult {
  all_checked : bool;
  declarations_checked : nat;
  declarations_failed : nat;
  axioms_used : list string;
  axioms_trusted : bool;
  theorem_names : list string;
  trust_tier : TrustTier;
  vr_metadata : ExportMetadata;
  errors : list CertError
}.

Definition STANDARD_AXIOMS : list string := ["propext"; "Classical.choice"; "Quot.sound"].
Definition HKDF_AXIOM : string := "HeytingLean.NucleusDB.Comms.Identity.hkdf_is_prf".
Definition TRUSTED_AXIOMS : list string := ["propext"; "Classical.choice"; "Quot.sound"; HKDF_AXIOM].

(** ** Parsing *)

(** [parse_meta] on the metadata and the errors. *)
Definition parse_meta (m : ExportMetadata) (key value : string) (errs : list CertError)
  : ExportMetadata * list CertError :=
  let 'mk_Meta ch th ga sg sd sk sv := m in
  if bool_decide (key = "commit_hash") then (mk_Meta (Some value) th ga sg sd sk sv, errs)
  else if bool_decide (key = "theorem_statement_sha256") then (mk_Meta ch (Some value) ga sg sd sk sv, errs)
  else if bool_decide (key = "generated_at") then
    match parse_u64 value with
    | Some v => (mk_Meta ch th (Some v) sg sd sk sv, errs)
    | None => (m, errs ++ [BadGeneratedAt value])
    end
  else if bool_decide (key = "signature_ed25519") then (mk_Meta ch th ga (Some value) sd sk sv, errs)
  else if bool_decide (key = "signing_did") then (mk_Meta ch th ga sg (Some value) sk sv, errs)
  else if bool_decide (key = "signing_key_multibase") then (mk_Meta ch th ga sg sd (Some value) sv, errs)
  else (m, errs ++ [UnknownMeta key]).

(** The locals of the loop over the lines. *)
Record Parsed := mk_Parsed {
  p_decls : nat;
  p_axioms : list string;
  p_theorems : list string;
  p_meta : ExportMetadata;
  p_errors : list CertError;
  p_signable : list string
}.
Definition parsed_init : Parsed := mk_Parsed 0 [] [] meta_default [] [].

Definition meta_line (p : Parsed) (line rest : string) : Parsed :=
  let '(k, v) := until_ws (trim rest) in
  let key := trim k in
  let value := trim (default "" v) in
  if bool_decide (key = "") || bool_decide (value = "") then
    mk_Parsed (p_decls p) (p_axioms p) (p_theorems p) (p_meta p) (p_errors p ++ [BadMetaLine line])
      (p_signable p)
  else
    let '(m, errs) := parse_meta (p_meta p) key value (p_errors p) in
    mk_Parsed (p_decls p) (p_axioms p) (p_theorems p) m errs
      (if bool_decide (key = "signature_ed25519") then p_signable p else p_signable p ++ [line]).

Definition is_decl (tag : string) : bool := bool_decide (tag ∈ ["#DEF"; "#THM"; "#AX"]).
Definition decl_line (p : Parsed) (line : string) : Parsed :=
  let '(tag, name) := two_words line in
  let named t := bool_decide (tag = t) && negb (bool_decide (name = "")) in
  mk_Parsed (p_decls p + if is_decl tag then 1 else 0)
    (p_axioms p ++ if named "#AX" then [name] else [])
    (p_theorems p ++ if named "#THM" then [name] else [])
    (p_meta p) (p_errors p) (p_signable p ++ [line]).

(** One turn of the loop, on a trimmed line. *)
Definition parse_line (p : Parsed) (line : string) : Parsed :=
  if bool_decide (line = "") || starts_with line "--" then p
  else match strip_prefix "#META" line with
       | Some rest => meta_line p line rest
       | None => decl_line p line
       end.
Definition parse_lines (raw : string) : Parsed := foldl parse_line parsed_init (trim <$> lines raw).

(** The grade of a list of axioms. *)
Definition grade (axioms : list string) (m : ExportMetadata) : TrustTier :=
  if negb (forallb (λ a, bool_decide (a ∈ TRUSTED_AXIOMS)) axioms) then Untrusted
  else if is_legacy m then Legacy
  else if forallb (λ a, bool_decide (a ∈ STANDARD_AXIOMS)) axioms then Standard
  else if existsb (λ a, bool_decide (a = HKDF_AXIOM)) axioms then CryptoExtended
  else Standard.

Section verifier.
Context `{DL : DidLib, Base64Std}.

Definition decode_ed25519_verifying_key (multibase_key : string) : result string Ed25519VerifyingKey :=
  decoded ← ok_or (multibase_decode multibase_key) "decode metadata signing key multibase";
  _ ← throw_if ((length decoded <? length MULTICODEC_ED25519_PUB) ||
                negb (bool_decide (take (length MULTICODEC_ED25519_PUB) decoded = MULTICODEC_ED25519_PUB)))
        "metadata signing key has unexpected multicodec prefix";
  key ← ok_or (try_arr 32 (drop (length MULTICODEC_ED25519_PUB) decoded))
          "metadata signing key must be 32-byte Ed25519 key";
  ok_or (ed_vk_from_bytes key) "metadata signing key is invalid Ed25519 key".

(** The verdict on the signature under a decoded key, and its errors. *)
Definition check_signature (vk : Ed25519VerifyingKey) (payload sig_b64 : string) : bool * list CertError :=
  let '(sig_bytes, errs) :=
    match b64_std_decode sig_b64 with Some v => (v, []) | None => ([], [BadSignatureText]) end in
  if bool_decide (sig_bytes = []) then (false, errs)
  else match try_arr 64 sig_bytes with
       | Some sig => (ed_verify vk (as_bytes payload) sig, errs)
       | None => (false, errs ++ [BadSignatureLength])
       end.

Definition finish (p : Parsed) (valid : option bool) (errs : list CertError) : VerificationResult :=
  let m := set_valid valid (p_meta p) in
  mk_VerificationResult (bool_decide (errs = [])) (p_decls p) 0 (p_axioms p)
    (forallb (λ a, bool_decide (a ∈ TRUSTED_AXIOMS)) (p_axioms p)) (p_theorems p)
    (grade (p_axioms p) m) m errs.

(** [verify_export] on the text of the file. *)
Definition verify_text (raw : string) : VerificationResult :=
  let p := parse_lines raw in
  match signature_ed25519 (p_meta p), signing_key_multibase (p_meta p) with
  | None, None => finish p None (p_errors p)
  | Some sig_b64, Some key_mb =>
      match decode_ed25519_verifying_key key_mb with
      | Err e =>
          mk_VerificationResult false (p_decls p) 0 (p_axioms p) false (p_theorems p) Untrusted (p_meta p)
            (p_errors p ++ [BadSigningKey e])
      | Ok vk =>
          let '(valid, errs) := check_signature vk (String.concat LF_text (p_signable p)) sig_b64 in
          finish p (Some valid) (p_errors p ++ errs)
      end
  | _, _ => finish p (Some false) (p_errors p ++ [SignatureIncomplete])
  end.

Definition verify_export (read : option string) : option VerificationResult := verify_text <$> read.
Definition has_theorem (r : VerificationResult) (name : string) : bool :=
  existsb (λ t, bool_decide (t = name)) (theorem_names r).

(** ** Signing *)

Definition META_DID : string := "#META signing_did ".
Definition META_KEY : string := "#META signing_key_multibase ".
Definition META_SIG : string := "#META signature_ed25519 ".
Definition is_signing_line (line : string) : bool :=
  starts_with line META_DID || starts_with line META_KEY || starts_with line META_SIG.

Fixpoint payload_lines (ls : list string) : result string (list string) :=
  match ls with
  | [] => Ok []
  | raw :: ls' =>
      let line := trim_end raw in
      _ ← throw_if (is_signing_line line) "certificate already contains signing metadata";
      rest ← payload_lines ls';
      mret (if bool_decide (line = "") then rest else line :: rest)
  end.

Definition sign_certificate_text (body : string) (i : DIDIdentity) : result string string :=
  method ← ok_or (find_method (did_document i) TYPE_ED25519)
             "local DID document is missing an Ed25519 verification method";
  ls ← payload_lines (lines body);
  let payload := String.concat LF_text
    (ls ++ [META_DID +:+ did i; META_KEY +:+ public_key_multibase method]) in
  let sig := ed_sign (ed25519_signing_key i) (as_bytes payload) in
  mret (payload +:+ LF_text +:+ META_SIG +:+ b64_std_encode (arr_bytes sig) +:+ LF_text).

(** [sign_certificate] on the file and the local identity: the text written back. *)
Definition sign_certificate (file : option (option string)) (identity : option DIDIdentity) : result string string :=
  content ← ok_or file "certificate does not exist";
  i ← ok_or identity "local genesis seed not found; initialize genesis before signing certificates";
  body ← ok_or content "read certificate";
  sign_certificate_text body i.
End verifier.
