(* ===== verification/Gate.v ===== *)
(** * The proof gate: [src/src/verifier/gate.rs]

    The certificate directory is what [read_dir] lists, in its order, with the text of
    every file that can be read; paths are texts.  Submitting a certificate says what the
    file system does when a directory is made and a file is copied by arguments. *)
From S2P Require Export Verifier.

Record ProofRequirement := mk_Req {
  req_tool_name : string;
  required_theorem : string;
  description : string;
  enforced : bool;
  expected_statement_hash : option string;
  expected_commit_hash : option string;
  require_signature : bool;
  min_trust_tier : option TrustTier
}.
Record ProofGateConfig := mk_GateConfig {
  certificate_dir : string;
  requirements : gmap string (list ProofRequirement);
  enabled : bool
}.

Inductive GateError :=
| NoDirectory
| ReadDirectory (e : string)
| NoCertificate
| ParseFailed
| UntrustedAxioms
| StatementMismatch
| CommitMismatch
| SignatureMissingOrInvalid
| TierTooLow
| UnknownFailure.
#[export] Instance GateError_eq_dec : EqDecision GateError.
Proof. solve_decision. Defined.

Record RequirementCheck := mk_Check {
  theorem_name : string;
  found : bool;
  verified : bool;
  check_tier : option TrustTier;
  statement_hash_match : option bool;
  commit_hash_match : option bool;
  check_signature_valid : option bool;
  certificate_path : option string;
  check_error : option GateError
}.
Record GateResult := mk_GateResult {
  gr_tool_name : string;
  passed : bool;
  requirements_checked : nat;
  requirements_met : nat;
  achieved_trust_tier : option TrustTier;
  verification_results : list RequirementCheck
}.
Record AggregateGateResult := mk_Aggregate {
  agg_passed : bool;
  total_checked : nat;
  total_met : nat;
  tool_results : list GateResult;
  stale_certificates : list string
}.

(** ** Tiers *)

Definition tier_rank (t : TrustTier) : nat :=
  match t with Untrusted => 0 | Legacy => 1 | CryptoExtended => 2 | Standard => 3 end.
Definition weakest_tier (current : option TrustTier) (candidate : TrustTier) : TrustTier :=
  match current with
  | Some cur => if tier_rank candidate <? tier_rank cur then candidate else cur
  | None => candidate
  end.
Definition trust_tier_meets (actual required : TrustTier) : bool :=
  match required with
  | Standard => bool_decide (actual = Standard)
  | CryptoExtended => bool_decide (actual = Standard) || bool_decide (actual = CryptoExtended)
  | Legacy => negb (bool_decide (actual = Untrusted))
  | Untrusted => true
  end.

(** ** One requirement *)

Definition hash_match (expected actual : option string) : option bool :=
  e ← expected; Some (match actual with Some a => bool_decide (a = e) | None => false end).

Definition requirement_check_from_verification (path : string) (r : VerificationResult) (req : ProofRequirement)
  : RequirementCheck :=
  let st := hash_match (expected_statement_hash req) (theorem_statement_sha256 (vr_metadata r)) in
  let co := hash_match (expected_commit_hash req) (commit_hash (vr_metadata r)) in
  let sv := signature_valid (vr_metadata r) in
  let statement_ok := default true st in
  let commit_ok := default true co in
  let signature_ok := if require_signature req then default false sv else default true sv in
  let tier_ok := match min_trust_tier req with Some t => trust_tier_meets (trust_tier r) t | None => true end in
  let ok := all_checked r && axioms_trusted r && statement_ok && commit_ok && signature_ok && tier_ok in
  mk_Check (required_theorem req) true ok (Some (trust_tier r)) st co sv (Some path)
    (if ok then None
     else Some (if negb (all_checked r) then ParseFailed
                else if negb (axioms_trusted r) then UntrustedAxioms
                else if negb statement_ok then StatementMismatch
                else if negb commit_ok then CommitMismatch
                else if negb signature_ok then SignatureMissingOrInvalid
                else if negb tier_ok then TierTooLow
                else UnknownFailure)).

Definition not_found (req : ProofRequirement) (e : GateError) : RequirementCheck :=
  mk_Check (required_theorem req) false false None None None None None (Some e).

(** ** Directories *)

(** The path of an entry and its text, when [read_to_string] gives one. *)
Abbreviation Entry := (string * option string)%type.
Inductive CertDir := NoDir | BadDir (e : string) | Listing (l : list Entry).

(** [Path::join] with a file name. *)
Definition path_join (d n : string) : string :=
  if bool_decide (d = "") then n else if ends_with d "/" then d +:+ n else d +:+ "/" +:+ n.
(** [Path::file_name] of the path of a file. *)
Definition file_name (p : string) : string := default "" (last (split_char "/" p)).
(** [Path::extension]: what follows the last dot, when the dot is not the first byte. *)
Definition extension (p : string) : option string :=
  match split_char "." (file_name p) with
  | [] | [_] => None
  | [""; _] => None
  | ps => last ps
  end.
Definition is_certificate (p : string) : bool := bool_decide (extension p = Some "lean4export").

Section gate.
Context `{DL : DidLib, Base64Std}.

Definition verify_path (d : CertDir) (path : string) : option VerificationResult :=
  match d with
  | Listing l => '(_, t) ← List.find (λ e : Entry, bool_decide (e.1 = path)) l; verify_export t
  | _ => None
  end.

Fixpoint first_certificate (l : list Entry) (req : ProofRequirement) : RequirementCheck :=
  match l with
  | [] => not_found req NoCertificate
  | (path, text) :: l' =>
      if negb (is_certificate path) then first_certificate l' req
      else match verify_export text with
           | None => first_certificate l' req
           | Some r =>
               if has_theorem r (required_theorem req) then requirement_check_from_verification path r req
               else first_certificate l' req
           end
  end.
Definition check_requirement (d : CertDir) (req : ProofRequirement) : RequirementCheck :=
  match d with
  | NoDir => not_found req NoDirectory
  | BadDir e => not_found req (ReadDirectory e)
  | Listing l => first_certificate l req
  end.

(** ** The gate *)

Definition has_requirements (cfg : ProofGateConfig) (tool : string) : bool :=
  enabled cfg && bool_decide (is_Some (requirements cfg !! tool)).
(** Without a tool: all requirements; the order of the hash map is not specified. *)
Definition requirements_for_tool (cfg : ProofGateConfig) (tool : option string) : list ProofRequirement :=
  match tool with
  | Some name => default [] (requirements cfg !! name)
  | None => mjoin (map_values (requirements cfg))
  end.

Definition open_gate (tool : string) : GateResult := mk_GateResult tool true 0 0 None [].

(** The locals of the loop over the requirements. *)
Record Tally := mk_Tally {
  t_met : nat;
  t_enforced_total : nat;
  t_enforced_met : nat;
  t_achieved : option TrustTier;
  t_checks : list RequirementCheck
}.
Definition tally_step (d : CertDir) (t : Tally) (req : ProofRequirement) : Tally :=
  let check := check_requirement d req in
  let good := found check && verified check in
  mk_Tally (if good then S (t_met t) else t_met t)
    (if enforced req then S (t_enforced_total t) else t_enforced_total t)
    (if good && enforced req then S (t_enforced_met t) else t_enforced_met t)
    (match check_tier check with
     | Some c => if good then Some (weakest_tier (t_achieved t) c) else t_achieved t
     | None => t_achieved t
     end)
    (t_checks t ++ [check]).

Definition evaluate (cfg : ProofGateConfig) (d : CertDir) (tool : string) : GateResult :=
  if negb (enabled cfg) then open_gate tool
  else match requirements cfg !! tool with
       | None => open_gate tool
       | Some reqs =>
           let t := foldl (tally_step d) (mk_Tally 0 0 0 None []) reqs in
           mk_GateResult tool (t_enforced_met t =? t_enforced_total t) (length reqs) (t_met t)
             (t_achieved t) (t_checks t)
       end.

(** ** All tools *)

Definition check_certificate_freshness (now generated max_age_days : N) : bool :=
  ((now - generated) <=? N.min (max_age_days * (24 * 60 * 60)) u64_max)%N.

(** The certificates that the checks of a result name, with their generation time. *)
Definition consulted (d : CertDir) (r : GateResult) : list (string * N) :=
  omap (λ c, path ← certificate_path c; v ← verify_path d path;
             g ← generated_at (vr_metadata v); Some (path, g)) (verification_results r).

(** Every consulted certificate reads the clock once. *)
Definition stale_paths (clock : nat → N) (cs : list (string * N)) : list string :=
  omap (λ nc : nat * (string * N),
    if check_certificate_freshness (clock nc.1) nc.2.2 7 then None else Some nc.2.1) (enumerate cs).

Definition check_all_requirements (cfg : ProofGateConfig) (d : CertDir) (clock : nat → N) : AggregateGateResult :=
  if negb (enabled cfg) then mk_Aggregate true 0 0 [] []
  else
    let results := evaluate cfg d <$> map_keys (requirements cfg) in
    let stale := set_elems (list_to_set (stale_paths clock (mjoin (consulted d <$> results)))) in
    mk_Aggregate (forallb passed results && bool_decide (stale = []))
      (sum_list (requirements_checked <$> results)) (sum_list (requirements_met <$> results)) results stale.

(** ** Submitting a certificate *)

Inductive SubmitError :=
| SourceMissing
| SourceUnreadable
| MetadataChecks (errs : list CertError)
| InvalidSignature
| SignerMismatch (cert local : string)
| ConfigFailed (e : string)
| RequirementFailed (name : string) (e : option GateError)
| CreateDirFailed
| CopyFailed.

(** The file that is submitted: outside the directory, or one of its entries. *)
Inductive Source := Missing | Outside (path : string) (text : option string) | Inside (path : string).
Definition source_path (s : Source) : string :=
  match s with Missing => "" | Outside p _ | Inside p => p end.
Definition source_text (d : CertDir) (s : Source) : option string :=
  match s with
  | Missing => None
  | Outside _ t => t
  | Inside p => match d with Listing l => '(_, t) ← List.find (λ e : Entry, bool_decide (e.1 = p)) l; t | _ => None end
  end.

(** What the file system does: whether the directory can be made, where a new entry is
    listed, what a failing copy leaves, and what copying a file onto itself leaves. *)
Record FileSystem := mk_FileSystem {
  fs_mkdir : bool;
  fs_position : nat;
  fs_copy_fails : option CertDir;
  fs_self_copy : string → string
}.

(** An entry is replaced where it is, or listed at the given position. *)
Definition put_entry (pos : nat) (path text : string) (l : list Entry) : list Entry :=
  if bool_decide (path ∈ l.*1)
  then (λ e : Entry, if bool_decide (e.1 = path) then (path, Some text) else e) <$> l
  else take pos l ++ (path, Some text) :: drop pos l.

Definition copy_into (fs : FileSystem) (d : CertDir) (src dest text : string) : CertDir :=
  let text' := if bool_decide (src = dest) then fs_self_copy fs text else text in
  match d with
  | NoDir => Listing [(dest, Some text')]
  | BadDir e => BadDir e
  | Listing l => Listing (put_entry (fs_position fs) dest text' l)
  end.

Fixpoint first_failed (path : string) (r : VerificationResult) (reqs : list ProofRequirement)
  : result SubmitError () :=
  match reqs with
  | [] => Ok ()
  | req :: reqs' =>
      let check := requirement_check_from_verification path r req in
      if verified check then first_failed path r reqs'
      else Err (RequirementFailed (required_theorem req) (check_error check))
  end.

(** The checks before anything is written. *)
Definition submit_checks (d : CertDir) (s : Source) (local : option string) (gate : result string ProofGateConfig)
  : result SubmitError (string * ProofGateConfig) :=
  _ ← match s with Missing => Err SourceMissing | _ => Ok () end;
  text ← ok_or (source_text d s) SourceUnreadable;
  let v := verify_text text in
  let m := vr_metadata v in
  _ ← throw_if (negb (all_checked v)) (MetadataChecks (errors v));
  _ ← throw_if ((negb (is_none (signature_ed25519 m)) || negb (is_none (signing_key_multibase m))) &&
                negb (bool_decide (signature_valid m = Some true))) InvalidSignature;
  _ ← match signing_did m, local with
      | Some c, Some l => throw_if (negb (bool_decide (c = l))) (SignerMismatch c l)
      | _, _ => Ok ()
      end;
  cfg ← map_err ConfigFailed gate;
  _ ← first_failed (source_path s) v
        (filter (λ req, has_theorem v (required_theorem req) = true) (requirements_for_tool cfg None));
  mret (text, cfg).

(** [submit_certificate]: the directory afterwards and the path of the copy. *)
Definition submit_certificate (fs : FileSystem) (d : CertDir) (s : Source) (local : option string)
    (gate : result string ProofGateConfig) : CertDir * result SubmitError string :=
  match submit_checks d s local gate with
  | Err e => (d, Err e)
  | Ok (text, cfg) =>
      if negb (fs_mkdir fs) then (d, Err CreateDirFailed)
      else
        let base := file_name (source_path s) in
        let dest := path_join (certificate_dir cfg)
          (if is_blank base then "certificate.lean4export" else base) in
        match fs_copy_fails fs with
        | Some left_over => (left_over, Err CopyFailed)
        | None => (copy_into fs d (source_path s) dest text, Ok dest)
        end
  end.
End gate.
