(* ===== verification/VerifierSpec.v ===== *)
(** * Certificates: signing and checking agree

    A certificate of plain lines, signed by an identity, passes the check of its signature
    and declares the same theorems and axioms; the same construction lets any key holder
    write a certificate for any theorem. *)
From S2P Require Export Gate.

(** ** Words and lines *)

Definition no_lf (s : string) : bool := str_forall (λ d, negb (Ascii.eqb d LF)) s.

Lemma word_no_lf s : is_word s = true → no_lf s = true.
Proof.
  unfold is_word. intros Hs. apply andb_true_iff in Hs as [_ Hs]. revert Hs. apply str_forall_impl.
  intros c Hc. destruct (Ascii.eqb_spec c LF) as [->|]; done.
Qed.

Lemma until_ws_graphic c s :
  graphic c = true → until_ws (String c s) = (String c (until_ws s).1, (until_ws s).2).
Proof.
  intros Hc. cbn [until_ws]. assert (first_some (λ w, strip_prefix w (String c s)) whitespace_codes = None) as ->.
  { apply first_some_None. intros w Hw. by apply not_first_graphic. }
  by destruct (until_ws s).
Qed.
Lemma until_ws_word s : str_forall graphic s = true → until_ws s = (s, None).
Proof.
  induction s as [|c s IH]; [done|]. cbn [str_forall]. intros Hs. bool_hyps.
  by rewrite until_ws_graphic, IH.
Qed.
Lemma until_ws_space s t : str_forall graphic s = true → until_ws (s +:+ " " +:+ t) = (s, Some t).
Proof.
  induction s as [|c s IH]; intros Hs; [done|]. cbn [str_forall] in Hs. bool_hyps.
  rewrite str_app_cons, until_ws_graphic by done. by rewrite IH.
Qed.

(** [lines] of joined lines. *)
Lemma split_concat L :
  L ≠ [] → Forall (λ l, no_lf l = true) L →
  split_char LF (String.concat LF_text L +:+ LF_text) = L ++ [""].
Proof.
  intros Hne HL. induction HL as [|l L Hl HL IH]; [done|]. destruct L as [|l' L].
  - cbn [String.concat]. unfold LF_text. by rewrite split_char_app.
  - change (String.concat LF_text (l :: l' :: L)) with (l +:+ LF_text +:+ String.concat LF_text (l' :: L)).
    rewrite !str_app_assoc. change (LF_text +:+ ?x) with (String LF x). rewrite split_char_app by done.
    by rewrite IH.
Qed.

Lemma strip_cr_trimmed l : trim l = l → strip_cr l = l.
Proof.
  intros Hl. unfold strip_cr. destruct (strip_suffix CR l) as [r|] eqn:E; [|done].
  pose proof (trim_end_stuck l) as Hu. rewrite Hl in Hu. unfold untrimmed in Hu.
  rewrite first_some_None in Hu. rewrite Hu in E; [done|].
  assert (bool_decide (CR ∈ whitespace_codes) = true) as Hin by (by vm_compute). by apply bool_decide_eq_true in Hin.
Qed.

Lemma lines_joined L :
  L ≠ [] → Forall (λ l, no_lf l = true ∧ trim l = l) L → lines (String.concat LF_text L +:+ LF_text) = L.
Proof.
  intros Hne HL. unfold lines.
  rewrite split_concat by (done || (by eapply Forall_impl; [exact HL|intros l [? ?]])).
  rewrite last_snoc, removelast_last. cbn. rewrite app_nil_r.
  clear Hne. induction HL as [|l L [_ Hl] HL IH]; [done|]. cbn [fmap list_fmap].
  by rewrite IH, strip_cr_trimmed.
Qed.
Lemma trim_lines L : Forall (λ l, no_lf l = true ∧ trim l = l) L → trim <$> L = L.
Proof. induction 1 as [|l L [_ Hl] HL IH]; [done|]. cbn [fmap list_fmap]. by rewrite IH, Hl. Qed.

(** The lines of a text hold no line feed. *)
Lemma no_lf_prefix a b : no_lf (a +:+ b) = true → no_lf a = true.
Proof. unfold no_lf. rewrite str_forall_app. intros Ha. by bool_hyps. Qed.
Lemma elem_of_removelast {A} (x : A) l : x ∈ removelast l → x ∈ l.
Proof.
  induction l as [|a [|b l] IH]; [done|by intros ?%not_elem_of_nil|].
  change (removelast (a :: b :: l)) with (a :: removelast (b :: l)).
  rewrite !elem_of_cons. rewrite elem_of_cons in IH. tauto.
Qed.
Lemma lines_no_lf s l : l ∈ lines s → no_lf l = true.
Proof.
  pose proof (split_char_free LF s) as Hfree. rewrite Forall_forall in Hfree. unfold lines.
  intros [Hl|Hl]%elem_of_app.
  - apply list_elem_of_fmap in Hl as (p & -> & Hp%elem_of_removelast). specialize (Hfree p Hp).
    unfold strip_cr. destruct (strip_suffix CR p) as [r|] eqn:E; [|done].
    apply strip_suffix_Some in E. subst p. by apply no_lf_prefix in Hfree.
  - destruct (last _) as [p|] eqn:E; [|by apply not_elem_of_nil in Hl]. apply last_Some_elem_of in E.
    case_bool_decide; [by apply not_elem_of_nil in Hl|]. apply list_elem_of_singleton in Hl as ->. by apply Hfree.
Qed.

Lemma trimmed_end l : trim l = l → trim_end l = l.
Proof. intros Hl. apply trim_with_id. pose proof (trim_end_stuck l) as Hu. by rewrite Hl in Hu. Qed.

(** ** Lines of a certificate *)

(** A trimmed line that signing and checking read alike: not a comment, and a metadata
    line has a key and a value and is not the signature. *)
Definition good_line (l : string) : bool :=
  negb (bool_decide (l = "")) && negb (starts_with l "--") &&
  match strip_prefix "#META" l with
  | Some rest =>
      let '(k, v) := until_ws (trim rest) in
      negb (bool_decide (trim k = "")) && negb (bool_decide (trim (default "" v) = "")) &&
      negb (bool_decide (trim k = "signature_ed25519"))
  | None => true
  end.
(** A line of the body, as it is written. *)
Definition plain_line (raw : string) : bool :=
  bool_decide (trim_end raw = trim raw) && (bool_decide (trim raw = "") || good_line (trim raw)).

Lemma good_line_signable p l :
  good_line l = true → p_signable (parse_line p l) = p_signable p ++ [l].
Proof.
  unfold good_line, parse_line. intros Hl. apply andb_true_iff in Hl as [Hl Hm]. bool_hyps.
  rewrite bool_decide_eq_false_2 by done. rewrite Hl. cbn [orb].
  destruct (strip_prefix "#META" l) as [rest|].
  - unfold meta_line. destruct (until_ws (trim rest)) as [k v].
    apply andb_true_iff in Hm as [Hm Hsig]. apply andb_true_iff in Hm as [Hk Hv]. bool_hyps.
    rewrite !bool_decide_eq_false_2 by done. cbn [orb].
    by destruct (parse_meta _ _ _ _).
  - unfold decl_line. by destruct (two_words l).
Qed.
Lemma good_lines_signable ls p :
  forallb good_line ls = true → p_signable (foldl parse_line p ls) = p_signable p ++ ls.
Proof.
  revert p. induction ls as [|l ls IH]; intros p Hls; cbn [foldl forallb] in *; [by rewrite app_nil_r|].
  bool_hyps. by rewrite IH, good_line_signable, <-app_assoc by done.
Qed.

Lemma parse_blank_lines ls p :
  foldl parse_line p ls = foldl parse_line p (filter (λ l, l ≠ "") ls).
Proof.
  revert p. induction ls as [|l ls IH]; intros p; [done|]. rewrite filter_cons. cbn [foldl].
  case_decide as Hl; [by apply IH|]. assert (l = "") as -> by (by destruct (decide (l = ""))). by rewrite IH.
Qed.

Lemma trim_meta key value :
  is_word key = true → is_word value = true → trim (" " +:+ key +:+ " " +:+ value) = key +:+ " " +:+ value.
Proof.
  intros Hk Hv.
  assert (trim_start (" " +:+ key +:+ " " +:+ value) = key +:+ " " +:+ value) as E.
  { unfold trim_start. change (str_len (" " +:+ ?x)) with (S (str_len x)). cbn [trim_with].
    assert (∀ x, first_some (λ w, strip_prefix w (" " +:+ x)) whitespace_codes = Some x) as ->.
    { intros x. by vm_compute. }
    rewrite <-(trim_start_graphic (key +:+ " " +:+ value)) at 3; [done|].
    pose proof (word_first key Hk) as Hg. by destruct key. }
  unfold trim. rewrite E. rewrite <-(trim_graphic (key +:+ " " +:+ value)) at 2.
  - unfold trim. rewrite (trim_start_graphic (key +:+ " " +:+ value)); [done|].
    pose proof (word_first key Hk) as Hg. by destruct key.
  - pose proof (word_first key Hk) as Hg. by destruct key.
  - rewrite <-str_app_assoc. by apply word_last.
Qed.

(** A metadata line with a one-word key and value. *)
Lemma parse_meta_words p key value :
  is_word key = true → is_word value = true →
  parse_line p ("#META " +:+ key +:+ " " +:+ value) =
    let '(m, errs) := parse_meta (p_meta p) key value (p_errors p) in
    mk_Parsed (p_decls p) (p_axioms p) (p_theorems p) m errs
      (if bool_decide (key = "signature_ed25519") then p_signable p
       else p_signable p ++ ["#META " +:+ key +:+ " " +:+ value]).
Proof.
  intros Hk Hv. unfold parse_line. rewrite bool_decide_eq_false_2 by done.
  change (starts_with _ "--") with false. cbn [orb].
  assert (strip_prefix "#META" ("#META " +:+ key +:+ " " +:+ value) = Some (" " +:+ key +:+ " " +:+ value)) as ->.
  { change ("#META " +:+ ?x) with ("#META" +:+ (" " +:+ x)). apply strip_prefix_app. }
  unfold meta_line. rewrite trim_meta, until_ws_space by (done || (unfold is_word in Hk; by bool_hyps)).
  change (default "" (Some value)) with value. rewrite (word_trim key), (word_trim value) by done.
  assert (∀ s, is_word s = true → s ≠ "") as Hne by (by intros s Hs ->).
  by rewrite !bool_decide_eq_false_2 by (by apply Hne).
Qed.

(** The texts of keys and signatures are words, and base64 is read back. *)
Class PlainText `(DL : DidLib) (B : Base64Std) : Prop := {
  multibase_word b : is_word (multibase_encode b) = true;
  b64_std_word b : b ≠ [] → is_word (b64_std_encode b) = true;
  b64_std_roundtrip b : b64_std_decode (b64_std_encode b) = Some b
}.

Lemma concat_snoc sep L x : L ≠ [] → String.concat sep (L ++ [x]) = String.concat sep L +:+ sep +:+ x.
Proof.
  induction L as [|l L IH]; [done|]. intros _. destruct L as [|l' L]; [done|].
  change (String.concat sep ((l :: l' :: L) ++ [x])) with (l +:+ sep +:+ String.concat sep ((l' :: L) ++ [x])).
  change (String.concat sep (l :: l' :: L)) with (l +:+ sep +:+ String.concat sep (l' :: L)).
  rewrite IH by done. by rewrite !str_app_assoc.
Qed.

Section signing.
Context `{SL : SigLib, DL : !DidLib, !SigLib_Laws SL, !DidLib_Laws DL, B : Base64Std, !PlainText DL B}.
Implicit Types i : DIDIdentity.

(** The text that signing writes for the lines of a payload. *)
Definition signed_text i (key : string) (L : list string) : string :=
  let payload := String.concat LF_text (L ++ [META_DID +:+ did i; META_KEY +:+ key]) in
  payload +:+ LF_text +:+ META_SIG +:+
    b64_std_encode (arr_bytes (ed_sign (ed25519_signing_key i) (as_bytes payload))) +:+ LF_text.

(** A line that can stand in a payload. *)
Definition payload_line (l : string) : Prop := no_lf l = true ∧ trim l = l ∧ good_line l = true.

Lemma meta_text_line key value :
  is_word key = true → is_word value = true →
  no_lf ("#META " +:+ key +:+ " " +:+ value) = true ∧
  trim ("#META " +:+ key +:+ " " +:+ value) = "#META " +:+ key +:+ " " +:+ value.
Proof.
  intros Hk Hv. split.
  - unfold no_lf. rewrite !str_forall_app. pose proof (word_no_lf key Hk) as Ek. pose proof (word_no_lf value Hv) as Ev.
    unfold no_lf in Ek, Ev. by rewrite Ek, Ev.
  - apply trim_graphic; [done|]. rewrite <-!str_app_assoc. by apply word_last.
Qed.

Lemma signed_lines i key L :
  Forall payload_line L → is_word (did i) = true → is_word key = true →
  ∃ sig, sig = b64_std_encode (arr_bytes (ed_sign (ed25519_signing_key i)
           (as_bytes (String.concat LF_text (L ++ [META_DID +:+ did i; META_KEY +:+ key]))))) ∧
    trim <$> lines (signed_text i key L) =
      L ++ ["#META " +:+ "signing_did" +:+ " " +:+ did i;
            "#META " +:+ "signing_key_multibase" +:+ " " +:+ key;
            "#META " +:+ "signature_ed25519" +:+ " " +:+ sig] ∧
    is_word sig = true.
Proof using All.
  intros HL Hd Hk. eexists. split; [done|].
  match goal with |- context [is_word ?s] => set (sig := s) end.
  assert (is_word sig = true) as Hsig.
  { apply b64_std_word. intros E. pose proof (arr_length (ed_sign (ed25519_signing_key i)
      (as_bytes (String.concat LF_text (L ++ [META_DID +:+ did i; META_KEY +:+ key]))))) as Hl.
    by rewrite E in Hl. }
  split; [|done]. unfold signed_text. fold sig.
  change (LF_text +:+ META_SIG +:+ sig +:+ LF_text) with (LF_text +:+ ((META_SIG +:+ sig) +:+ LF_text)).
  rewrite <-(str_app_assoc LF_text), <-str_app_assoc, <-concat_snoc by (by destruct L).
  match goal with |- context [String.concat LF_text ?M] =>
    assert (Forall (λ l, no_lf l = true ∧ trim l = l) M) as HM end.
  2:{ rewrite lines_joined, trim_lines; [by rewrite <-app_assoc|done|by destruct L|done]. }
  rewrite <-app_assoc. apply Forall_app. split; [by eapply Forall_impl; [exact HL|intros l (? & ? & _)]|].
  constructor; [exact (meta_text_line "signing_did" (did i) eq_refl Hd)|].
  constructor; [exact (meta_text_line "signing_key_multibase" key eq_refl Hk)|].
  constructor; [exact (meta_text_line "signature_ed25519" sig eq_refl Hsig)|constructor].
Qed.

Lemma parse_did_line n ax th m errs sg value :
  is_word value = true →
  parse_line (mk_Parsed n ax th m errs sg) ("#META " +:+ "signing_did" +:+ " " +:+ value) =
  mk_Parsed n ax th
    (mk_Meta (commit_hash m) (theorem_statement_sha256 m) (generated_at m) (signature_ed25519 m) (Some value)
      (signing_key_multibase m) (signature_valid m)) errs (sg ++ [META_DID +:+ value]).
Proof using Type. intros Hv. rewrite parse_meta_words by done. by destruct m. Qed.
Lemma parse_key_line n ax th m errs sg value :
  is_word value = true →
  parse_line (mk_Parsed n ax th m errs sg) ("#META " +:+ "signing_key_multibase" +:+ " " +:+ value) =
  mk_Parsed n ax th
    (mk_Meta (commit_hash m) (theorem_statement_sha256 m) (generated_at m) (signature_ed25519 m) (signing_did m)
      (Some value) (signature_valid m)) errs (sg ++ [META_KEY +:+ value]).
Proof using Type. intros Hv. rewrite parse_meta_words by done. by destruct m. Qed.
Lemma parse_sig_line n ax th m errs sg value :
  is_word value = true →
  parse_line (mk_Parsed n ax th m errs sg) ("#META " +:+ "signature_ed25519" +:+ " " +:+ value) =
  mk_Parsed n ax th
    (mk_Meta (commit_hash m) (theorem_statement_sha256 m) (generated_at m) (Some value) (signing_did m)
      (signing_key_multibase m) (signature_valid m)) errs sg.
Proof using Type. intros Hv. rewrite parse_meta_words by done. by destruct m. Qed.

Lemma parse_signed i key L :
  Forall payload_line L → is_word (did i) = true → is_word key = true →
  let p0 := foldl parse_line parsed_init L in
  let payload := L ++ [META_DID +:+ did i; META_KEY +:+ key] in
  parse_lines (signed_text i key L) =
    mk_Parsed (p_decls p0) (p_axioms p0) (p_theorems p0)
      (mk_Meta (commit_hash (p_meta p0)) (theorem_statement_sha256 (p_meta p0)) (generated_at (p_meta p0))
        (Some (b64_std_encode (arr_bytes (ed_sign (ed25519_signing_key i)
           (as_bytes (String.concat LF_text payload)))))) (Some (did i)) (Some key)
        (signature_valid (p_meta p0)))
      (p_errors p0) payload.
Proof using All.
  intros HL Hd Hk. cbv zeta. unfold parse_lines.
  destruct (signed_lines i key L HL Hd Hk) as (sig & Es & -> & Hsig). rewrite <-Es.
  rewrite foldl_app. cbn [foldl].
  assert (p_signable (foldl parse_line parsed_init L) = L) as Hs.
  { rewrite good_lines_signable; [done|]. apply forallb_forall. intros l Hl%list_elem_of_In.
    rewrite Forall_forall in HL. by destruct (HL l Hl) as (_ & _ & ?). }
  destruct (foldl parse_line parsed_init L) as [n ax th m errs sg]. cbn [p_signable] in Hs. subst sg.
  rewrite parse_did_line, parse_key_line, parse_sig_line by done. by rewrite <-app_assoc.
Qed.

Lemma decode_encode_signing_key (vk : Ed25519VerifyingKey) :
  decode_ed25519_verifying_key (encode_multibase_key MULTICODEC_ED25519_PUB (arr_bytes (ed_vk_to_bytes vk))) = Ok vk.
Proof using All.
  unfold decode_ed25519_verifying_key, encode_multibase_key. rewrite multibase_roundtrip.
  cbn [ok_or mbind result_bind]. rewrite take_app_length, drop_app_length, bool_decide_eq_true_2 by done.
  rewrite length_app. replace (_ <? _) with false by (symmetry; apply Nat.ltb_ge; lia).
  cbn [orb negb throw_if mbind result_bind]. rewrite try_arr_bytes. cbn [ok_or mbind result_bind].
  by rewrite ed_vk_roundtrip.
Qed.

Lemma verify_signed i L :
  Forall payload_line L → is_word (did i) = true →
  let key := encode_multibase_key MULTICODEC_ED25519_PUB
               (arr_bytes (ed_vk_to_bytes (ed_verifying_key (ed25519_signing_key i)))) in
  let p := parse_lines (signed_text i key L) in
  verify_text (signed_text i key L) = finish p (Some true) (p_errors p).
Proof using All.
  intros HL Hd. cbv zeta. set (key := encode_multibase_key _ _). unfold verify_text.
  pose proof (parse_signed i key L HL Hd (multibase_word _)) as Hp. cbv zeta in Hp.
  rewrite Hp. cbn [p_meta signature_ed25519 signing_key_multibase p_signable p_errors].
  unfold key at 1. rewrite decode_encode_signing_key. unfold check_signature. rewrite b64_std_roundtrip.
  set (sig := ed_sign _ _). pose proof (arr_length sig) as Hlen.
  rewrite bool_decide_eq_false_2 by (by intros E; rewrite E in Hlen). rewrite try_arr_bytes.
  unfold sig. rewrite ed_correct. by rewrite app_nil_r.
Qed.

(** ** Signing a body *)

Lemma payload_lines_ok ls L : payload_lines ls = Ok L → L = filter (λ l, l ≠ "") (trim_end <$> ls).
Proof using Type.
  revert L. induction ls as [|raw ls IH]; intros L; cbn [payload_lines]; [by intros [= <-]|].
  intros E. inv_res. cbn [fmap list_fmap]. rewrite filter_cons, <-(IH _ E1).
  case_bool_decide; case_decide; congruence.
Qed.

Lemma plain_payload body L :
  forallb plain_line (lines body) = true → payload_lines (lines body) = Ok L →
  L = filter (λ l, l ≠ "") (trim <$> lines body) ∧ Forall payload_line L.
Proof using Type.
  intros Hplain ->%payload_lines_ok. rewrite forallb_forall in Hplain.
  assert (∀ raw, raw ∈ lines body → trim_end raw = trim raw ∧ (trim raw = "" ∨ good_line (trim raw) = true)) as Hl.
  { intros raw Hr%list_elem_of_In. specialize (Hplain raw Hr). unfold plain_line in Hplain.
    apply andb_true_iff in Hplain as [He Hg]. apply bool_decide_eq_true in He. split; [done|].
    apply orb_true_iff in Hg as [Hg|Hg]; [left; by apply bool_decide_eq_true in Hg|by right]. }
  assert (trim_end <$> lines body = trim <$> lines body) as ->.
  { clear Hplain. induction (lines body) as [|raw ls IH]; [done|]. cbn [fmap list_fmap].
    rewrite IH by (intros; apply Hl; by right). by destruct (Hl raw) as [-> _]; [left|]. }
  split; [done|]. apply Forall_forall. intros l Hin. apply list_elem_of_filter in Hin as [Hne Hin].
  apply list_elem_of_fmap in Hin as (raw & -> & Hraw). destruct (Hl raw Hraw) as [He Hg].
  split; [|split; [apply trim_idem|by destruct Hg]].
  rewrite <-He. destruct (trim_end_prefix (str_len raw) raw) as [r Hr]. fold (trim_end raw) in Hr.
  apply (no_lf_prefix _ r). rewrite <-Hr. by eapply lines_no_lf.
Qed.

Lemma genesis_signs seed i body L :
  did_from_genesis_seed seed = Ok i → payload_lines (lines body) = Ok L →
  is_word (did i) = true ∧
  sign_certificate_text body i =
    Ok (signed_text i (encode_multibase_key MULTICODEC_ED25519_PUB
          (arr_bytes (ed_vk_to_bytes (ed_verifying_key (ed25519_signing_key i))))) L).
Proof using PlainText0.
  intros Hi HL. destruct (genesis_identity_keys _ _ Hi) as (_ & [(m & Hm & Ek) _ _] & Hd). split.
  - rewrite Hd. unfold did_from_ed25519_public_key, is_word. rewrite str_forall_app.
    pose proof (multibase_word (MULTICODEC_ED25519_PUB ++ arr_bytes (ed_vk_to_bytes (ed_verifying_key (ed25519_signing_key i))))) as Hw.
    unfold is_word in Hw. apply andb_true_iff in Hw as [_ Hw]. unfold encode_multibase_key. by rewrite Hw.
  - unfold sign_certificate_text. rewrite Hm, HL. cbn [ok_or mbind result_bind]. by rewrite Ek.
Qed.

(** What the check of a text says of its parse. *)
Lemma verify_names raw :
  theorem_names (verify_text raw) = p_theorems (parse_lines raw) ∧
  axioms_used (verify_text raw) = p_axioms (parse_lines raw).
Proof using Type.
  unfold verify_text. destruct (signature_ed25519 _) as [sg|], (signing_key_multibase _) as [k|]; try done.
  destruct (decode_ed25519_verifying_key k); [|done]. by destruct (check_signature _ _ _).
Qed.

(** Signing a certificate and checking it agree: the text that an identity made
    from a genesis seed writes for a body of plain lines has a valid signature and names
    that identity, declares the theorems and axioms of the body and nothing else, and
    passes the parser exactly when the body does. *)
Theorem certificate_sign_verify seed i body signed :
  did_from_genesis_seed seed = Ok i → forallb plain_line (lines body) = true →
  sign_certificate_text body i = Ok signed →
  let r := verify_text signed in
  signature_valid (vr_metadata r) = Some true ∧ signing_did (vr_metadata r) = Some (did i) ∧
  theorem_names r = theorem_names (verify_text body) ∧ axioms_used r = axioms_used (verify_text body) ∧
  errors r = p_errors (parse_lines body).
Proof using All.
  intros Hi Hplain Hs. destruct (payload_lines (lines body)) as [L|e] eqn:HL.
  2:{ unfold sign_certificate_text in Hs. inv_res. congruence. }
  destruct (plain_payload _ _ Hplain HL) as [EL Hpl]. destruct (genesis_signs _ _ _ _ Hi HL) as [Hd Ht].
  rewrite Ht in Hs. injection Hs as <-. cbv zeta.
  pose proof (verify_signed i L Hpl Hd) as Hv. cbv zeta in Hv. rewrite Hv.
  destruct (verify_names body) as [-> ->].
  assert (parse_lines body = foldl parse_line parsed_init L) as Hb.
  { unfold parse_lines. by rewrite parse_blank_lines, EL. }
  rewrite Hb, (parse_signed i _ L Hpl Hd) by apply multibase_word. done.
Qed.
End signing.
