(* ===== verification/GateSpec.v ===== *)
(** * The proof gate: when it opens

    [meets] says what the code asks of a certificate and [certified] which file of the
    directory counts.  The theorems give the exact condition under which the gate opens,
    what submitting a certificate changes, and how little a signature proves. *)
From S2P Require Import Instances.
From S2P Require Export VerifierSpec.

Section gate_spec.
Context `{SL : SigLib, DL : !DidLib, B : Base64Std}.
Implicit Types r : VerificationResult.
Implicit Types req : ProofRequirement.
Implicit Types d : CertDir.

(** ** What a certificate must show *)

Record meets r req : Prop := {
  m_checked : all_checked r = true;
  m_axioms : axioms_trusted r = true;
  m_statement : ∀ h, expected_statement_hash req = Some h → theorem_statement_sha256 (vr_metadata r) = Some h;
  m_commit : ∀ h, expected_commit_hash req = Some h → commit_hash (vr_metadata r) = Some h;
  m_signature : if require_signature req then signature_valid (vr_metadata r) = Some true
                else signature_valid (vr_metadata r) ≠ Some false;
  m_tier : ∀ t, min_trust_tier req = Some t → trust_tier_meets (trust_tier r) t = true
}.

Lemma hash_match_ok expected actual :
  default true (hash_match expected actual) = true ↔ ∀ h, expected = Some h → actual = Some h.
Proof.
  unfold hash_match. destruct expected as [e|]; simpl; [|by split].
  destruct actual as [a|]; simpl.
  - rewrite bool_decide_eq_true. split; [by intros -> h [= ->]|]. intros Hh. by specialize (Hh e eq_refl) as [= ->].
  - split; [done|]. intros Hh. by specialize (Hh e eq_refl).
Qed.

Lemma verified_meets path r req :
  verified (requirement_check_from_verification path r req) = true ↔ meets r req.
Proof.
  cbn [requirement_check_from_verification verified]. rewrite !andb_true_iff, !hash_match_ok.
  assert ((if require_signature req then default false (signature_valid (vr_metadata r))
           else default true (signature_valid (vr_metadata r))) = true ↔
          if require_signature req then signature_valid (vr_metadata r) = Some true
          else signature_valid (vr_metadata r) ≠ Some false) as ->.
  { destruct (require_signature req), (signature_valid (vr_metadata r)) as [[]|]; simpl; naive_solver. }
  assert ((match min_trust_tier req with Some t => trust_tier_meets (trust_tier r) t | None => true end) = true ↔
          ∀ t, min_trust_tier req = Some t → trust_tier_meets (trust_tier r) t = true) as ->.
  { destruct (min_trust_tier req); naive_solver. }
  split; [by intros (((((? & ?) & ?) & ?) & ?) & ?)|by intros []].
Qed.

(** A file that counts as a certificate of a theorem. *)
Definition names_theorem (e : Entry) (name : string) : Prop :=
  is_certificate e.1 = true ∧ ∃ text, e.2 = Some text ∧ name ∈ theorem_names (verify_text text).

(** The first file that names the theorem is the one that counts. *)
Definition certified d req : Prop :=
  ∃ l1 path text l2, d = Listing (l1 ++ (path, Some text) :: l2) ∧
    names_theorem (path, Some text) (required_theorem req) ∧ meets (verify_text text) req ∧
    ∀ e, e ∈ l1 → ¬ names_theorem e (required_theorem req).

Lemma has_theorem_spec r name : has_theorem r name = true ↔ name ∈ theorem_names r.
Proof.
  unfold has_theorem. rewrite existsb_exists. split.
  - intros (t & Ht & ->%bool_decide_eq_true). by apply list_elem_of_In.
  - intros Hn. exists name. split; [by apply list_elem_of_In|by apply bool_decide_eq_true].
Qed.

Lemma first_certificate_cases l req :
  (∃ l1 path text l2, l = l1 ++ (path, Some text) :: l2 ∧
     names_theorem (path, Some text) (required_theorem req) ∧
     first_certificate l req = requirement_check_from_verification path (verify_text text) req ∧
     ∀ e, e ∈ l1 → ¬ names_theorem e (required_theorem req)) ∨
  first_certificate l req = not_found req NoCertificate ∧
  ∀ e, e ∈ l → ¬ names_theorem e (required_theorem req).
Proof.
  induction l as [|[path text] l IH]; cbn [first_certificate].
  { right. split; [done|]. by intros e ?%not_elem_of_nil. }
  assert (names_theorem (path, text) (required_theorem req) ∨ ¬ names_theorem (path, text) (required_theorem req) ∧
    first_certificate ((path, text) :: l) req = first_certificate l req) as [Hn|[Hn E]].
  { cbn [first_certificate]. unfold names_theorem. cbn [fst snd]. destruct (is_certificate path); [|by right; split; [intros []|]].
    destruct text as [t|]; cbn [negb verify_export fmap option_fmap option_map]; [|right; split; [by intros (_ & ? & ? & _)|done]].
    destruct (has_theorem (verify_text t) (required_theorem req)) eqn:Hh.
    - left. split; [done|]. exists t. split; [done|]. by apply has_theorem_spec.
    - right. rewrite <-not_true_iff_false, has_theorem_spec in Hh. split; [|done].
      by intros (_ & ? & [= <-] & ?). }
  - left. destruct Hn as (Hc & t & Ht & Hin). cbn [fst snd] in *. subst text. exists [], path, t, l.
    split_and!; [done|by split; [|exists t]| |by intros e ?%not_elem_of_nil].
    rewrite Hc. cbn [negb verify_export fmap option_fmap option_map]. by rewrite (proj2 (has_theorem_spec _ _) Hin).
  - cbn [first_certificate] in E. rewrite E. destruct IH as [(l1 & p & t & l2 & -> & Hnt & Ef & Hno)|[Ef Hno]].
    + left. exists ((path, text) :: l1), p, t, l2. split_and!; [done..|]. intros e [->|He]%elem_of_cons; auto.
    + right. split; [done|]. intros e [->|He]%elem_of_cons; auto.
Qed.

Definition good_check (c : RequirementCheck) : bool := found c && verified c.

(** The file of a listing that counts is determined. *)
Lemma first_unique (P : Entry → Prop) l1 e l2 l1' e' l2' :
  l1 ++ e :: l2 = l1' ++ e' :: l2' → P e → P e' → (∀ x, x ∈ l1 → ¬ P x) → (∀ x, x ∈ l1' → ¬ P x) →
  l1 = l1' ∧ e = e'.
Proof.
  revert l1'. induction l1 as [|x l1 IH]; intros [|x' l1']; cbn; intros E He He' H1 H2.
  - by injection E as -> _.
  - injection E as -> _. exfalso. by apply (H2 x'); [left|].
  - injection E as -> _. exfalso. by apply (H1 e'); [left|].
  - injection E as -> E. destruct (IH l1' E He He') as [-> ->]; [..|done];
      intros y Hy; [apply H1|apply H2]; by right.
Qed.

Lemma good_check_certified d req : good_check (check_requirement d req) = true ↔ certified d req.
Proof.
  unfold certified. destruct d as [|e|l]; cbn [check_requirement]; [split; [done|naive_solver]..|].
  destruct (first_certificate_cases l req) as [(l1 & path & text & l2 & -> & Hn & -> & Hno)|[-> Hno]].
  - unfold good_check. cbn [found requirement_check_from_verification].
    change (true && ?b) with b. rewrite verified_meets. split.
    + intros Hm. by exists l1, path, text, l2.
    + intros (l1' & path' & text' & l2' & [= E] & Hn' & Hm & Hno').
      destruct (first_unique (λ e, names_theorem e (required_theorem req)) _ _ _ _ _ _ E Hn Hn' Hno Hno') as [_ E2].
      by injection E2 as -> ->.
  - split; [done|]. intros (l1 & path & text & l2 & [= ->] & Hn & _). exfalso.
    apply (Hno (path, Some text)); [|done]. rewrite elem_of_app, elem_of_cons. tauto.
Qed.

(** ** The gate *)

Lemma length_filter_cons {A} (p : A → bool) x l :
  length (filter (λ x, p x = true) (x :: l)) = (if p x then 1 else 0) + length (filter (λ x, p x = true) l).
Proof.
  rewrite filter_cons. destruct (p x); [by rewrite decide_True|by rewrite decide_False].
Qed.
Lemma filter_sub_length {A} (p q : A → bool) l :
  length (filter (λ x, p x && q x = true) l) ≤ length (filter (λ x, p x = true) l) ∧
  (length (filter (λ x, p x && q x = true) l) = length (filter (λ x, p x = true) l) ↔
   ∀ x, x ∈ l → p x = true → q x = true).
Proof.
  induction l as [|x l [Hle IH]]; [split; [done|split; [by intros _ ? ?%not_elem_of_nil|done]]|].
  rewrite (length_filter_cons (λ x, p x && q x)), (length_filter_cons p). setoid_rewrite elem_of_cons.
  destruct (p x) eqn:Hp, (q x) eqn:Hq; cbn [andb]; (split; [lia|]).
  2:{ split; [intros; lia|]. intros Hall. specialize (Hall x (or_introl eq_refl) Hp). congruence. }
  all: rewrite ?Nat.add_1_l, ?Nat.add_0_l, ?Nat.succ_inj_wd, IH;
    split; intros Hall y; [intros [->|Hy]; [congruence|auto]|intros Hy; apply Hall; by right].
Qed.

Lemma tally_counts d reqs t :
  let t' := foldl (tally_step d) t reqs in
  t_met t' = t_met t + length (filter (λ req, good_check (check_requirement d req) = true) reqs) ∧
  t_enforced_total t' = t_enforced_total t + length (filter (λ req, enforced req = true) reqs) ∧
  t_enforced_met t' = t_enforced_met t +
    length (filter (λ req, enforced req && good_check (check_requirement d req) = true) reqs).
Proof.
  cbv zeta. revert t. induction reqs as [|req reqs IH]; intros t; cbn [foldl]; [split_and!; apply plus_n_O|].
  destruct (IH (tally_step d t req)) as (-> & -> & ->). unfold tally_step. cbn [t_met t_enforced_total t_enforced_met].
  fold (good_check (check_requirement d req)).
  rewrite (length_filter_cons (λ req, good_check (check_requirement d req))), (length_filter_cons enforced),
    (length_filter_cons (λ req, enforced req && good_check (check_requirement d req))).
  destruct (enforced req), (good_check (check_requirement d req)); cbn [andb]; lia.
Qed.

(** Claim C21. The gate of a tool opens exactly when the gate is off, the tool has no
    requirements, or every enforced requirement is certified: the first file of the
    directory that is a readable certificate and names the required theorem parses without
    an error, uses trusted axioms only, carries the expected hashes, the demanded signature
    and a sufficient tier.  The number of requirements that are met is the number of
    certified ones. *)
Theorem gate_passes_iff cfg d tool :
  (passed (evaluate cfg d tool) = true ↔
     enabled cfg = false ∨ requirements cfg !! tool = None ∨
     ∃ reqs, requirements cfg !! tool = Some reqs ∧
       ∀ req, req ∈ reqs → enforced req = true → certified d req) ∧
  (∀ reqs, enabled cfg = true → requirements cfg !! tool = Some reqs →
     requirements_checked (evaluate cfg d tool) = length reqs ∧
     (requirements_met (evaluate cfg d tool) = length reqs ↔ ∀ req, req ∈ reqs → certified d req)).
Proof.
  unfold evaluate. destruct (enabled cfg); [|by split; [tauto|]]. cbn [negb].
  destruct (requirements cfg !! tool) as [reqs|]; [|split; [split; [auto|done]|done]].
  destruct (tally_counts d reqs (mk_Tally 0 0 0 None [])) as (Hm & Ht & He).
  cbn [t_met t_enforced_total t_enforced_met Nat.add] in Hm, Ht, He. split.
  - cbn [passed]. rewrite Nat.eqb_eq, Ht, He.
    rewrite (proj2 (filter_sub_length enforced (λ req, good_check (check_requirement d req)) reqs)).
    setoid_rewrite good_check_certified. naive_solver.
  - intros reqs' _ [= <-]. cbn [requirements_checked requirements_met]. split; [done|]. rewrite Hm.
    pose proof (filter_sub_length (λ _, true) (λ req, good_check (check_requirement d req)) reqs) as [_ Hf].
    assert (length (filter (λ _, true = true) reqs) = length reqs) as Hl.
    { clear. induction reqs as [|req reqs IH]; [done|]. by rewrite (length_filter_cons (λ _, true)), IH. }
    rewrite Hl in Hf. cbn [andb] in Hf. rewrite Hf. setoid_rewrite good_check_certified. naive_solver.
Qed.

(** ** All tools *)

Lemma stale_empty clock cs :
  stale_paths clock cs = [] ↔
  ∀ n path g, cs !! n = Some (path, g) → check_certificate_freshness (clock n) g 7 = true.
Proof.
  unfold stale_paths, enumerate. split.
  - intros Hs n path g Hn. apply not_false_iff_true. intros Hf.
    assert (path ∈ ([] : list string)) as Hin; [|by apply not_elem_of_nil in Hin]. rewrite <-Hs.
    apply list_elem_of_omap. exists (n, (path, g)). cbn [fst snd]. rewrite Hf. split; [|done].
    apply list_elem_of_lookup. exists n. by rewrite list_lookup_imap, Hn.
  - intros Hall. apply elem_of_nil_inv. intros path Hp. apply list_elem_of_omap in Hp as ([n [p g]] & Hn & Hp).
    apply list_elem_of_lookup in Hn as [k Hk]. rewrite list_lookup_imap in Hk.
    apply fmap_Some in Hk as ([p' g'] & Hk & [= -> -> ->]). cbn [fst snd] in Hp. by rewrite (Hall _ _ _ Hk) in Hp.
Qed.

(** The aggregate passes when every tool passes and every certificate that a check names
    and that carries a time is at most seven days old; a time in the future counts as
    fresh. *)
Theorem all_requirements_iff cfg d clock :
  enabled cfg = true →
  agg_passed (check_all_requirements cfg d clock) = true ↔
  (∀ tool, is_Some (requirements cfg !! tool) → passed (evaluate cfg d tool) = true) ∧
  ∀ n path g, mjoin (consulted d <$> (evaluate cfg d <$> map_keys (requirements cfg))) !! n = Some (path, g) →
    (clock n - g <= 604800)%N.
Proof.
  intros He. unfold check_all_requirements. rewrite He. cbn [negb agg_passed].
  set (results := evaluate cfg d <$> map_keys (requirements cfg)). set (cs := mjoin (consulted d <$> results)).
  rewrite andb_true_iff, bool_decide_eq_true, forallb_forall.
  assert (set_elems (list_to_set (stale_paths clock cs)) = [] ↔ stale_paths clock cs = []) as ->.
  { split; [|by intros ->]. intros Hs. apply elem_of_nil_inv. intros x Hx.
    assert (x ∈ set_elems (list_to_set (stale_paths clock cs))) as Hin by (by apply elem_of_set_elems, elem_of_list_to_set).
    rewrite Hs in Hin. by apply not_elem_of_nil in Hin. }
  rewrite stale_empty. unfold check_certificate_freshness.
  change (N.min (7 * (24 * 60 * 60)) u64_max) with 604800%N. setoid_rewrite N.leb_le.
  assert ((∀ x, In x results → passed x = true) ↔
          ∀ tool, is_Some (requirements cfg !! tool) → passed (evaluate cfg d tool) = true) as ->; [|done].
  unfold results. split.
  - intros Hr tool Ht. apply Hr, list_elem_of_In, list_elem_of_fmap. exists tool. by rewrite elem_of_map_keys.
  - intros Hr x (tool & -> & Ht%elem_of_map_keys)%list_elem_of_In%list_elem_of_fmap. by apply Hr.
Qed.

(** ** Submitting *)

Lemma put_entry_first pos path text l :
  ∃ l1 l2, put_entry pos path text l = l1 ++ (path, Some text) :: l2 ∧ ∀ e, e ∈ l1 → e ∈ l ∧ e.1 ≠ path.
Proof.
  unfold put_entry. case_bool_decide as Hp.
  - induction l as [|e l IH]; [by apply not_elem_of_nil in Hp|]. cbn [fmap list_fmap] in *.
    destruct (decide (e.1 = path)) as [He|He].
    + rewrite bool_decide_true by done. exists [], (list_fmap _ _ (λ e, if bool_decide (e.1 = path) then (path, Some text) else e) l).
      split; [done|]. by intros ? ?%not_elem_of_nil.
    + rewrite bool_decide_false by done. apply elem_of_cons in Hp as [Hp|Hp]; [by subst|].
      destruct (IH Hp) as (l1 & l2 & E & Hl1). exists (e :: l1), l2. split; [by rewrite E|].
      intros x [->|Hx]%elem_of_cons; [by split; [left|]|]. destruct (Hl1 x Hx). by split; [right|].
  - exists (take pos l), (drop pos l). split; [done|]. intros e He.
    assert (e ∈ l) as Hl by (rewrite <-(take_drop pos l); apply elem_of_app; by left).
    split; [done|]. intros <-. apply Hp. apply list_elem_of_fmap. by exists e.
Qed.

Lemma first_failed_ok path r reqs :
  first_failed path r reqs = Ok () ↔ ∀ req, req ∈ reqs → meets r req.
Proof.
  induction reqs as [|req reqs IH]; cbn [first_failed]; [split; [by intros _ ? ?%not_elem_of_nil|done]|].
  destruct (verified (requirement_check_from_verification path r req)) eqn:Hv.
  - apply verified_meets in Hv. rewrite IH. setoid_rewrite elem_of_cons. naive_solver.
  - split; [done|]. intros Hall. specialize (Hall req (list_elem_of_here _ _)). apply (verified_meets path) in Hall. congruence.
Qed.

Lemma elem_of_all_requirements cfg tool reqs req :
  requirements cfg !! tool = Some reqs → req ∈ reqs → req ∈ requirements_for_tool cfg None.
Proof.
  intros Ht Hr. cbn [requirements_for_tool]. apply list_elem_of_join. exists reqs. split; [done|].
  unfold map_values. apply list_elem_of_fmap. exists (tool, reqs). by rewrite elem_of_entries.
Qed.

Lemma submit_checks_ok d s local gate text cfg :
  submit_checks d s local gate = Ok (text, cfg) →
  source_text d s = Some text ∧ gate = Ok cfg ∧ all_checked (verify_text text) = true ∧
  ∀ tool reqs req, requirements cfg !! tool = Some reqs → req ∈ reqs →
    required_theorem req ∈ theorem_names (verify_text text) → meets (verify_text text) req.
Proof.
  unfold submit_checks. intros E. inv_res. apply negb_false_iff in E2.
  split; [done|]. split; [done|]. split; [done|]. intros tool reqs req Ht Hr Hn.
  match goal with Hf : first_failed _ _ _ = Ok ?u |- _ => destruct u; apply first_failed_ok with (req := req) in Hf; [done|] end.
  apply list_elem_of_filter. split; [by apply has_theorem_spec|]. by eapply elem_of_all_requirements.
Qed.

Definition dir_entries d : list Entry := match d with Listing l => l | _ => [] end.

(** A certificate is installed only after it parses and meets every requirement of
    every tool for a theorem it names; the copy then makes the gate count every such
    requirement as certified, unless another file names the theorem; a submission that is
    refused leaves the directory as it was, a failing copy apart. *)
Theorem submit_certificate_correct fs d s local gate d' res :
  submit_certificate fs d s local gate = (d', res) →
  match res with
  | Err e => e = CopyFailed ∨ d' = d
  | Ok dest =>
      ∃ text cfg, source_text d s = Some text ∧ gate = Ok cfg ∧ all_checked (verify_text text) = true ∧
        ∀ tool reqs req, requirements cfg !! tool = Some reqs → req ∈ reqs →
          required_theorem req ∈ theorem_names (verify_text text) →
          meets (verify_text text) req ∧
          (source_path s ≠ dest → is_certificate dest = true → (∀ e, d ≠ BadDir e) →
           (∀ e, e ∈ dir_entries d → e.1 ≠ dest → ¬ names_theorem e (required_theorem req)) →
           certified d' req)
  end.
Proof.
  unfold submit_certificate. destruct (submit_checks d s local gate) as [[text cfg]|e] eqn:Hc;
    [|intros [= <- <-]; by right].
  destruct (fs_mkdir fs); cbn [negb]; [|intros [= <- <-]; by right].
  set (dest := path_join _ _). destruct (fs_copy_fails fs); intros [= <- <-]; [by left|].
  apply submit_checks_ok in Hc as (Ht & Hg & Hall & Hreq). exists text, cfg. split_and!; [done..|].
  intros tool reqs req Hr Hin Hn. pose proof (Hreq tool reqs req Hr Hin Hn) as Hm. split; [done|].
  intros Hsrc Hcert Hbad Hother. unfold copy_into. rewrite bool_decide_false by done.
  assert (names_theorem (dest, Some text) (required_theorem req)) as Hd by (by split; [|exists text]).
  destruct d as [|e|l]; [|by destruct (Hbad e)|].
  - exists [], dest, text, []. split_and!; [done..|]. by intros ? ?%not_elem_of_nil.
  - destruct (put_entry_first (fs_position fs) dest text l) as (l1 & l2 & -> & Hl1).
    exists l1, dest, text, l2. split_and!; [done..|]. intros e He. destruct (Hl1 e He). by apply Hother.
Qed.
End gate_spec.

(** ** What a signature proves *)

Section forging.
Context `{SL : SigLib, DL : !DidLib, !SigLib_Laws SL, !DidLib_Laws DL, B : Base64Std, !PlainText DL B}.

(** A certificate without a proof: the theorem is named, the expected hashes are repeated. *)
Definition claimed_hash (h : option string) : string := default "0" h.
Definition bare_lines (req : ProofRequirement) : list string :=
  ["#THM " +:+ required_theorem req;
   "#META " +:+ "commit_hash" +:+ " " +:+ claimed_hash (expected_commit_hash req);
   "#META " +:+ "theorem_statement_sha256" +:+ " " +:+ claimed_hash (expected_statement_hash req)].
Definition bare_certificate (req : ProofRequirement) : string :=
  String.concat LF_text (bare_lines req) +:+ LF_text.

(** The theorem and the hashes are written without white space. *)
Record word_req (req : ProofRequirement) : Prop := {
  wr_theorem : is_word (required_theorem req) = true;
  wr_commit : is_word (claimed_hash (expected_commit_hash req)) = true;
  wr_statement : is_word (claimed_hash (expected_statement_hash req)) = true
}.

Lemma good_meta_line key value :
  is_word key = true → is_word value = true → key ≠ "signature_ed25519" →
  good_line ("#META " +:+ key +:+ " " +:+ value) = true.
Proof using Type.
  intros Hk Hv Hne. unfold good_line. rewrite bool_decide_eq_false_2 by done.
  change (starts_with _ "--") with false. cbn [negb andb].
  assert (strip_prefix "#META" ("#META " +:+ key +:+ " " +:+ value) = Some (" " +:+ key +:+ " " +:+ value)) as ->.
  { change ("#META " +:+ ?x) with ("#META" +:+ (" " +:+ x)). apply strip_prefix_app. }
  rewrite trim_meta, until_ws_space by (done || (unfold is_word in Hk; by bool_hyps)).
  change (default "" (Some value)) with value. rewrite !word_trim by done.
  assert (∀ s, is_word s = true → s ≠ "") as Hw by (by intros s Hs ->).
  by rewrite !bool_decide_eq_false_2 by (done || by apply Hw).
Qed.

Lemma thm_line name :
  is_word name = true →
  no_lf ("#THM " +:+ name) = true ∧ trim ("#THM " +:+ name) = "#THM " +:+ name ∧
  good_line ("#THM " +:+ name) = true ∧
  ∀ p, parse_line p ("#THM " +:+ name) =
    mk_Parsed (p_decls p + 1) (p_axioms p ++ []) (p_theorems p ++ [name]) (p_meta p) (p_errors p)
      (p_signable p ++ ["#THM " +:+ name]).
Proof using Type.
  intros Hn. split_and!; [|apply trim_graphic; [done|by apply word_last]|done|].
  - unfold no_lf. rewrite str_forall_app. apply (word_no_lf name Hn).
  - intros p. unfold parse_line. rewrite bool_decide_eq_false_2 by done.
    change (starts_with _ "--") with false. cbn [orb].
    change (strip_prefix "#META" ("#THM " +:+ name)) with (@None string). cbv iota.
    unfold decl_line, two_words. change ("#THM " +:+ name) with ("#THM" +:+ " " +:+ name).
    rewrite (trim_start_graphic ("#THM" +:+ " " +:+ name)) by done. rewrite (until_ws_space "#THM" name) by done.
    change (default "" (Some name)) with name. rewrite (trim_start_graphic name) by (by apply word_first).
    rewrite (until_ws_word name) by (unfold is_word in Hn; by bool_hyps). cbn [fst].
    rewrite (bool_decide_eq_false_2 (name = "")) by (by intros ->). done.
Qed.

Lemma bare_payload req : word_req req → Forall payload_line (bare_lines req).
Proof using Type.
  intros [Ht Hc Hs]. destruct (thm_line _ Ht) as (T1 & T2 & T3 & _).
  constructor; [by split_and!|].
  constructor; [|constructor; [|constructor]]; destruct (meta_text_line "commit_hash" _ eq_refl Hc),
    (meta_text_line "theorem_statement_sha256" _ eq_refl Hs); split_and!; try done; by apply good_meta_line.
Qed.

Lemma payload_lines_trimmed L :
  Forall payload_line L → Forall (λ l, is_signing_line l = false) L → payload_lines L = Ok L.
Proof using Type.
  induction 1 as [|l L (Hlf & Ht & Hg) HL IH]; [done|]. intros Hs. apply Forall_cons in Hs as [Hs Hss].
  cbn [payload_lines]. rewrite trimmed_end, Hs by done. cbn [throw_if mbind result_bind]. rewrite IH by done.
  cbn [mbind result_bind]. unfold good_line in Hg. apply andb_true_iff in Hg as [Hg _]. bool_hyps.
  by rewrite bool_decide_eq_false_2.
Qed.

(** A signature and a theorem name are no evidence: for every requirement whose
    theorem and hashes are words, whoever owns any key pair signs a certificate that has no
    proof in it, and it meets the requirement, whatever tier and signature it demands. *)
Theorem gate_accepts_any_signer seed i req :
  did_from_genesis_seed seed = Ok i → word_req req →
  ∃ text, sign_certificate_text (bare_certificate req) i = Ok text ∧
    declarations_checked (verify_text text) = 1 ∧
    ∀ path, is_certificate path = true → certified (Listing [(path, Some text)]) req.
Proof using All.
  intros Hi Hw. pose proof (bare_payload req Hw) as Hpl.
  assert (payload_lines (lines (bare_certificate req)) = Ok (bare_lines req)) as HL.
  { unfold bare_certificate. rewrite lines_joined; [|done|by eapply Forall_impl; [exact Hpl|intros l (? & ? & ?)]].
    apply payload_lines_trimmed; [done|]. by repeat constructor. }
  destruct (genesis_signs _ _ _ _ Hi HL) as [Hd Ht]. eexists. split; [exact Ht|].
  pose proof (verify_signed i (bare_lines req) Hpl Hd) as Hv. cbv zeta in Hv.
  rewrite (parse_signed i _ _ Hpl Hd) in Hv by apply multibase_word.
  set (text := signed_text _ _ _) in *. destruct Hw as [Wt Wc Ws]. destruct (thm_line _ Wt) as (_ & _ & _ & Hp).
  cbn [bare_lines foldl] in Hv. rewrite Hp, (parse_meta_words _ "commit_hash"), (parse_meta_words _ "theorem_statement_sha256")
    in Hv by done. cbn in Hv. rewrite Hv. split; [done|]. intros path Hpath.
  exists [], path, text, []. split; [done|]. split; [|split; [|by intros ? ?%not_elem_of_nil]].
  - split; [done|]. exists text. split; [done|]. rewrite Hv. by left.
  - rewrite Hv. split; cbn; [done|done| | |by destruct (require_signature req)|by intros []].
    + intros h Hh. by rewrite Hh.
    + intros h Hh. by rewrite Hh.
Qed.
End forging.

(** ** Witnesses *)

Section witnesses.
(** Keys and signatures in hexadecimal. *)
#[local] Existing Instances toy_sig toy_sig_laws.
Definition hex_did : DidLib := {|
  ed_vk_to_bytes := λ k, k; ed_vk_from_bytes := Some; ml_vk_encode := arr_bytes;
  ml_vk_decode := λ b, try_arr 32 b; multibase_encode := λ b, "z" +:+ hex_encode b;
  multibase_decode := λ s, h ← strip_prefix "z" s; hex_decode h;
  hkdf_expand := λ n _ seed info, Some (take n (arr_bytes seed));
  X25519Secret := arr 32; x25519_from := λ b, b; x25519_public := λ s, s;
  MlKemKey := arr 32; mlkem_generate := λ b, b; mlkem_public := arr_bytes |}.
#[local] Existing Instance hex_did.
Lemma hex_did_laws : DidLib_Laws hex_did.
Proof.
  split; [done|intros k; apply try_arr_bytes|]. intros b. cbn [multibase_encode multibase_decode hex_did].
  rewrite (strip_prefix_app "z"). apply hex_decode_encode.
Qed.
#[local] Existing Instance hex_did_laws.
Definition hex_b64 : Base64Std := {| b64_std_encode := hex_encode; b64_std_decode := hex_decode |}.
#[local] Existing Instance hex_b64.

Lemma hex_graphic b : str_forall graphic (hex_encode b) = true.
Proof.
  pose proof (hex_encode_digits b) as Hh. revert Hh. apply str_forall_impl. intros c Hc.
  destruct c as [[] [] [] [] [] [] [] []]; try done; by vm_compute in Hc.
Qed.
Lemma hex_plain : PlainText hex_did hex_b64.
Proof.
  split.
  - intros b. change (is_word ("z" +:+ hex_encode b) = true). unfold is_word. by rewrite str_forall_app, hex_graphic.
  - intros b Hb. change (is_word (hex_encode b) = true). unfold is_word. rewrite hex_graphic. by destruct b.
  - apply hex_decode_encode.
Qed.
#[local] Existing Instance hex_plain.

Definition ex_signer_seed : arr 64 := to_arr 64 [x01; x02].
Definition ex_signer : result string DIDIdentity := did_from_genesis_seed ex_signer_seed.
Definition ex_body : string :=
  String.concat LF_text ["#DEF Foo"; "  "; "#THM Core.replay_preserves"; "#AX propext"; "#META commit_hash deadbeef"; ""].
Definition ex_signed : result string string := i ← ex_signer; sign_certificate_text ex_body i.

Lemma certificate_sign_verify_witness :
  match ex_signer, ex_signed with
  | Ok i, Ok signed =>
      let r := verify_text signed in
      signature_valid (vr_metadata r) = Some true ∧ signing_did (vr_metadata r) = Some (did i) ∧
      theorem_names r = theorem_names (verify_text ex_body) ∧ axioms_used r = axioms_used (verify_text ex_body) ∧
      errors r = p_errors (parse_lines ex_body)
  | _, _ => False
  end.
Proof.
  unfold ex_signed. assert (is_ok ex_signer = true) as Hi by (by vm_compute).
  destruct ex_signer as [i|e] eqn:Ei; [|done]. clear Hi. unfold mbind, result_bind.
  assert (is_ok (i ← ex_signer; sign_certificate_text ex_body i) = true) as Hs by (by vm_compute).
  rewrite Ei in Hs. unfold mbind, result_bind in Hs.
  destruct (sign_certificate_text ex_body i) as [signed|e] eqn:Es; [|done].
  apply (certificate_sign_verify ex_signer_seed i ex_body signed); [exact Ei|by vm_compute|exact Es].
Defined.

(** Signing and checking do not agree on comments: the signature covers them, the check
    leaves them out. *)
Example sign_comment_invalid :
  match (i ← ex_signer; sign_certificate_text ("-- proof of T" +:+ LF_text +:+ "#THM T") i) with
  | Ok signed => signature_valid (vr_metadata (verify_text signed)) = Some false
  | Err _ => False
  end.
Proof. by vm_compute. Qed.

(** A first file that fails hides a second one that would do. *)
Definition ex_req : ProofRequirement :=
  mk_Req "vote" "Core.replay_preserves" "" true None (Some "deadbeef") true (Some Standard).
Definition ex_gate : ProofGateConfig := mk_GateConfig "certs" {["vote" := [ex_req]]} true.
Definition ex_good_entry : Entry :=
  ("certs/b.lean4export", match ex_signed with Ok t => Some t | Err _ => None end).
Definition ex_old_entry : Entry := ("certs/a.lean4export", Some "#THM Core.replay_preserves").
Example gate_shadowed :
  passed (evaluate ex_gate (Listing [ex_good_entry; ex_old_entry]) "vote") = true ∧
  passed (evaluate ex_gate (Listing [ex_old_entry; ex_good_entry]) "vote") = false.
Proof. split; by vm_compute. Qed.

Definition ex_fs : FileSystem := mk_FileSystem true 0 None (λ _, "").
Definition ex_source : Source := Outside "build/b.lean4export" ex_good_entry.2.
Definition ex_submit : CertDir * result SubmitError string :=
  submit_certificate ex_fs (Listing []) ex_source None (Ok ex_gate).
Lemma submit_certificate_correct_witness :
  is_ok ex_submit.2 = true ∧
  match ex_submit.2 with
  | Err e => e = CopyFailed ∨ ex_submit.1 = Listing []
  | Ok dest =>
      ∃ text cfg, source_text (Listing []) ex_source = Some text ∧ Ok ex_gate = Ok (E:=string) cfg ∧
        all_checked (verify_text text) = true ∧
        ∀ tool reqs req, requirements cfg !! tool = Some reqs → req ∈ reqs →
          required_theorem req ∈ theorem_names (verify_text text) →
          meets (verify_text text) req ∧
          (source_path ex_source ≠ dest → is_certificate dest = true → (∀ e, Listing [] ≠ BadDir e) →
           (∀ e, e ∈ dir_entries (Listing []) → e.1 ≠ dest → ¬ names_theorem e (required_theorem req)) →
           certified ex_submit.1 req)
  end.
Proof.
  split; [by vm_compute|].
  exact (submit_certificate_correct ex_fs (Listing []) ex_source None (Ok ex_gate) ex_submit.1 ex_submit.2
    (surjective_pairing _)).
Defined.

Lemma gate_accepts_any_signer_witness :
  match ex_signer with
  | Ok i =>
      ∃ text, sign_certificate_text (bare_certificate ex_req) i = Ok text ∧
        declarations_checked (verify_text text) = 1 ∧
        ∀ path, is_certificate path = true → certified (Listing [(path, Some text)]) ex_req
  | Err _ => False
  end.
Proof.
  assert (is_ok ex_signer = true) as Hi by (by vm_compute).
  destruct ex_signer as [i|e] eqn:Ei; [|done].
  apply (gate_accepts_any_signer ex_signer_seed i ex_req); [exact Ei|]. split; by vm_compute.
Defined.
End witnesses.
