(* ===== verification/PairTree.v ===== *)
(** * Merkle trees built level by level

    [license.rs] and [halo/attest.rs] fold a list of hashes in the same way: neighbours
    are hashed together, an odd last element moves up unchanged, until one element is left.
    [pair_rounds] is that loop for any hash function; the trees it builds are the values of
    an algebra, so that what holds of the free algebra (no leaf is lost, order is kept)
    holds of hashes up to a collision among the strings that were hashed. *)
From S2P Require Export Crypto.

(** ** The loops *)

Section levels.
Context {A : Type} (node : A → A → A).

(** One pass over a level. *)
Fixpoint pair_level (l : list A) : list A :=
  match l with x :: y :: l' => node x y :: pair_level l' | _ => l end.
(** [while level.len() > 1]: the length of the level is enough fuel, every pass makes it
    shorter ([pair_rounds_one]). *)
Fixpoint pair_rounds (fuel : nat) (l : list A) : list A :=
  match fuel, l with
  | S f, _ :: _ :: _ => pair_rounds f (pair_level l)
  | _, _ => l
  end.

(** A step of a path: whether the sibling is on the left, and the sibling. *)
Definition ascend_step (acc : A) (st : bool * A) : A :=
  if st.1 then node st.2 acc else node acc st.2.
Definition ascend (x : A) (path : list (bool * A)) : A := foldl ascend_step x path.

(** The sibling of position [i], when it has one. *)
Definition sibling (i : nat) (l : list A) : list (bool * A) :=
  if Nat.even i then (λ s, (false, s)) <$> option_list (l !! S i)
  else (λ s, (true, s)) <$> option_list (l !! pred i).
Fixpoint pair_path (fuel i : nat) (l : list A) : list (bool * A) :=
  match fuel, l with
  | S f, _ :: _ :: _ => sibling i l ++ pair_path f (i / 2) (pair_level l)
  | _, _ => []
  end.

(** Induction two elements at a time. *)
Lemma pair_ind (P : list A → Prop) :
  P [] → (∀ x, P [x]) → (∀ x y l, P l → P (x :: y :: l)) → ∀ l, P l.
Proof using Type.
  intros H0 H1 H2. fix IH 1. intros [|x [|y l]]; [exact H0|apply H1|apply H2, IH].
Qed.

Lemma pair_level_length l : length (pair_level l) = (length l + 1) / 2.
Proof using Type.
  induction l as [|x|x y l IH] using pair_ind; [done..|]. cbn [pair_level length]. rewrite IH.
  replace (S (S (length l)) + 1) with (length l + 1 + 1 * 2) by lia. rewrite Nat.div_add by done. lia.
Qed.

Lemma pair_level_shorter x y l : length (pair_level (x :: y :: l)) ≤ S (length l).
Proof using Type.
  rewrite pair_level_length. cbn [length]. pose proof (Nat.Div0.mul_div_le (S (S (length l)) + 1) 2). lia.
Qed.

(** The loop ends, with exactly one element. *)
Lemma pair_rounds_one fuel l : l ≠ [] → length l ≤ fuel → ∃ r, pair_rounds fuel l = [r].
Proof using Type.
  revert l. induction fuel as [|f IH]; intros [|x [|y l]] Hne Hl; cbn [pair_rounds];
    [done|simpl in Hl; lia..|done|by exists x|].
  apply IH; [done|]. pose proof (pair_level_shorter x y l). simpl in Hl. lia.
Qed.

(** Where an element of a level goes. *)
Lemma pair_level_lookup i x l :
  l !! i = Some x → pair_level l !! (i / 2) = Some (ascend x (sibling i l)).
Proof using Type.
  revert i. induction l as [|z|z y l IH] using pair_ind; intros i Hi; [done| |].
  - apply list_lookup_singleton_Some in Hi as [-> <-]. done.
  - destruct i as [|[|i]]; [injection Hi as ->; done..|].
    change (S (S i)) with (2 + i). replace ((2 + i) / 2) with (S (i / 2)) by
      (replace (2 + i) with (i + 1 * 2) by lia; rewrite Nat.div_add by done; lia).
    simpl in Hi. cbn [pair_level]. rewrite lookup_cons. rewrite (IH i) by done.
    f_equal. f_equal. unfold sibling. replace (Nat.even (2 + i)) with (Nat.even i) by done.
    destruct (Nat.even i) eqn:Ev; [done|]. destruct i; done.
Qed.

(** The path of any position climbs to the root. *)
Lemma pair_path_climbs fuel i x l :
  length l ≤ fuel → l !! i = Some x → pair_rounds fuel l = [ascend x (pair_path fuel i l)].
Proof using Type.
  revert i x l. induction fuel as [|f IH]; intros i x [|y [|z l]] Hl Hi; cbn [pair_rounds pair_path];
    [done|simpl in Hl; lia..|done| |].
  - by apply list_lookup_singleton_Some in Hi as [-> <-].
  - unfold ascend. rewrite foldl_app. apply IH.
    + pose proof (pair_level_shorter y z l). simpl in Hl. lia.
    + by apply pair_level_lookup.
Qed.

(** What holds of the elements of a level and of every node holds of the siblings. *)
Lemma pair_level_all (P : A → Prop) l : (∀ x y, P (node x y)) → Forall P l → Forall P (pair_level l).
Proof using Type.
  intros Hn. induction l as [|x|x y l IH] using pair_ind; intros Hl; [done..|]. cbn [pair_level].
  constructor; [done|]. apply IH. by do 2 apply Forall_cons in Hl as [_ Hl].
Qed.
Lemma pair_path_all (P : A → Prop) fuel i l :
  (∀ x y, P (node x y)) → Forall P l → Forall (λ st, P st.2) (pair_path fuel i l).
Proof using Type.
  intros Hn. revert i l. induction fuel as [|f IH]; intros i [|x [|y l]] Hl; cbn [pair_path]; try constructor.
  apply Forall_app. split; [|apply IH; by apply pair_level_all].
  unfold sibling. assert (∀ j (b : bool), Forall (λ st, P st.2) ((λ s, (b, s)) <$> option_list ((x :: y :: l) !! j))) as Hs.
  { intros j b. destruct ((x :: y :: l) !! j) as [s|] eqn:E; [|constructor]. constructor; [|constructor].
    by apply (Forall_lookup_1 _ _ _ _ Hl E). }
  by destruct (Nat.even i).
Qed.
End levels.

(** The loop commutes with every map of algebras. *)
Section natural.
Context {A B : Type} (nodeA : A → A → A) (nodeB : B → B → B) (f : A → B).
Context (f_node : ∀ x y, f (nodeA x y) = nodeB (f x) (f y)).

Lemma pair_level_natural l : f <$> pair_level nodeA l = pair_level nodeB (f <$> l).
Proof using f_node.
  induction l as [|x|x y l IH] using pair_ind; [done..|].
  cbn [pair_level fmap list_fmap]. by rewrite f_node, IH.
Qed.
Lemma pair_rounds_natural fuel l : f <$> pair_rounds nodeA fuel l = pair_rounds nodeB fuel (f <$> l).
Proof using f_node.
  revert l. induction fuel as [|n IH]; intros [|x [|y l]]; cbn [pair_rounds fmap list_fmap]; try done.
  rewrite IH, pair_level_natural. done.
Qed.
Lemma ascend_natural x p : f (ascend nodeA x p) = ascend nodeB (f x) (prod_map id f <$> p).
Proof using f_node.
  revert x. induction p as [|[[] s] p IH]; intros x; [done|..]; unfold ascend in *; cbn [foldl fmap list_fmap];
    rewrite IH; f_equal; apply f_node.
Qed.
End natural.

(** ** The free algebra *)

Inductive ptree (L : Type) := PLeaf (x : L) | PNode (l r : ptree L).
Arguments PLeaf {L} x.
Arguments PNode {L} l r.

Fixpoint fringe {L} (t : ptree L) : list L :=
  match t with PLeaf x => [x] | PNode l r => fringe l ++ fringe r end.
Fixpoint hash_tree {L H} (leaf : L → H) (node : H → H → H) (t : ptree L) : H :=
  match t with PLeaf x => leaf x | PNode l r => node (hash_tree leaf node l) (hash_tree leaf node r) end.

Lemma pair_level_fringe {L} (ts : list (ptree L)) :
  concat (fringe <$> pair_level PNode ts) = concat (fringe <$> ts).
Proof.
  induction ts as [|x|x y l IH] using pair_ind; [done..|].
  cbn [pair_level fmap list_fmap concat fringe]. by rewrite IH, app_assoc.
Qed.
Lemma pair_rounds_fringe {L} fuel (ts : list (ptree L)) :
  concat (fringe <$> pair_rounds PNode fuel ts) = concat (fringe <$> ts).
Proof.
  revert ts. induction fuel as [|n IH]; intros [|x [|y l]]; cbn [pair_rounds]; try done.
  by rewrite IH, pair_level_fringe.
Qed.

Lemma leaves_fringe {L} (l : list L) : concat (fringe <$> (PLeaf <$> l)) = l.
Proof. induction l as [|x l IH]; [done|]. cbn. by f_equal. Qed.

(** Every non-empty list is the fringe of the tree its loop hashes. *)
Lemma pair_rounds_tree {L H} (leaf : L → H) (node : H → H → H) (fuel : nat) (l : list L) :
  l ≠ [] → length l ≤ fuel →
  ∃ t, fringe t = l ∧ pair_rounds node fuel (leaf <$> l) = [hash_tree leaf node t].
Proof.
  intros Hne Hl. destruct (pair_rounds_one PNode fuel (PLeaf <$> l)) as [t Ht];
    [by destruct l|by rewrite length_fmap|].
  exists t. split.
  - pose proof (pair_rounds_fringe fuel (PLeaf <$> l)) as Hf. rewrite Ht in Hf. simpl in Hf.
    rewrite app_nil_r in Hf. rewrite Hf. apply leaves_fringe.
  - pose proof (pair_rounds_natural PNode node (hash_tree leaf node) (λ _ _, eq_refl) fuel (PLeaf <$> l)) as Hn.
    rewrite Ht, <-list_fmap_compose in Hn. by symmetry.
Qed.

(** ** Binding

    Leaves and nodes are hashes [h] of strings; [wf] holds of the values of [h].  The
    strings of different leaves and nodes are different, so that what fails to hold is a
    collision among the strings that were hashed, which are listed. *)
Section binding.
Context {L H : Type} (h : bytes → H) (leaf_str : L → bytes) (node_str : H → H → bytes).

Let leaf (x : L) : H := h (leaf_str x).
Let node (a b : H) : H := h (node_str a b).

(** The strings hashed for a tree, by a pass over a level, by the loop, and by a climb. *)
Fixpoint ptree_strings (t : ptree L) : list bytes :=
  match t with
  | PLeaf x => [leaf_str x]
  | PNode l r => node_str (hash_tree leaf node l) (hash_tree leaf node r) :: ptree_strings l ++ ptree_strings r
  end.
Fixpoint level_strings (l : list H) : list bytes :=
  match l with x :: y :: l' => node_str x y :: level_strings l' | _ => [] end.
Fixpoint rounds_strings (fuel : nat) (l : list H) : list bytes :=
  match fuel, l with
  | S f, _ :: _ :: _ => level_strings l ++ rounds_strings f (pair_level node l)
  | _, _ => []
  end.
Definition pair_strings (l : list L) : list bytes :=
  (leaf_str <$> l) ++ rounds_strings (length l) (leaf <$> l).
Fixpoint ascend_strings (x : H) (path : list (bool * H)) : list bytes :=
  match path with
  | [] => []
  | st :: path' =>
      (if st.1 then node_str st.2 x else node_str x st.2) :: ascend_strings (ascend_step node x st) path'
  end.

Lemma ascend_strings_snoc x path st :
  ascend_strings x (path ++ [st]) =
  ascend_strings x path ++ [if st.1 then node_str st.2 (ascend node x path) else node_str (ascend node x path) st.2].
Proof using Type. revert x. induction path as [|s path IH]; intros x; [done|]. simpl. by rewrite IH. Qed.

Lemma level_ptree_strings (ts : list (ptree L)) :
  (pair_level PNode ts ≫= ptree_strings) ⊆ (ts ≫= ptree_strings) ++ level_strings (hash_tree leaf node <$> ts).
Proof using Type.
  induction ts as [|x|x y l IH] using pair_ind; [done|set_solver|].
  cbn [pair_level mbind list_bind fmap list_fmap level_strings ptree_strings] in *. set_solver.
Qed.
Lemma rounds_ptree_strings fuel (ts : list (ptree L)) :
  (pair_rounds PNode fuel ts ≫= ptree_strings) ⊆
  (ts ≫= ptree_strings) ++ rounds_strings fuel (hash_tree leaf node <$> ts).
Proof using Type.
  revert ts. induction fuel as [|f IH]; intros ts; [simpl; set_solver|].
  destruct ts as [|x [|y l]]; [simpl; set_solver..|].
  change (pair_rounds PNode (S f) (x :: y :: l)) with (pair_rounds PNode f (pair_level PNode (x :: y :: l))).
  change (rounds_strings (S f) (hash_tree leaf node <$> x :: y :: l)) with
    (level_strings (hash_tree leaf node <$> x :: y :: l) ++
     rounds_strings f (pair_level node (hash_tree leaf node <$> x :: y :: l))).
  rewrite <-(pair_level_natural PNode node (hash_tree leaf node) (λ _ _, eq_refl)).
  pose proof (IH (pair_level PNode (x :: y :: l))) as Hr. pose proof (level_ptree_strings (x :: y :: l)) as Hl.
  generalize dependent (pair_level PNode (x :: y :: l)). generalize (x :: y :: l). intros ts ps. set_solver.
Qed.

(** The tree of a list hashes the strings of the loop. *)
Lemma pair_tree_strings (l : list L) :
  l ≠ [] → ∃ t, fringe t = l ∧ pair_rounds node (length l) (leaf <$> l) = [hash_tree leaf node t] ∧
    ptree_strings t ⊆ pair_strings l.
Proof using Type.
  intros Hne. destruct (pair_rounds_one PNode (length l) (PLeaf <$> l)) as [t Ht];
    [by destruct l|by rewrite length_fmap|].
  pose proof (pair_rounds_fringe (length l) (PLeaf <$> l)) as Hf.
  pose proof (pair_rounds_natural PNode node (hash_tree leaf node) (λ _ _, eq_refl) (length l) (PLeaf <$> l)) as Hn.
  pose proof (rounds_ptree_strings (length l) (PLeaf <$> l)) as Hs.
  rewrite Ht in Hf, Hn, Hs. rewrite <-list_fmap_compose in Hn, Hs. exists t. split_and!.
  - simpl in Hf. rewrite app_nil_r in Hf. rewrite Hf. apply leaves_fringe.
  - by symmetry.
  - assert ((PLeaf <$> l) ≫= ptree_strings = leaf_str <$> l) as Hl by (clear; induction l as [|x l IH]; [done|]; cbn in IH |- *; by rewrite IH).
    rewrite Hl in Hs. cbn [mbind list_bind] in Hs. rewrite app_nil_r in Hs. exact Hs.
Qed.

Context (wf : H → Prop).
Context (wf_hash : ∀ s, wf (h s)).
Context (leaf_inj : ∀ x y, leaf_str x = leaf_str y → x = y).
Context (leaf_node : ∀ x a b, leaf_str x ≠ node_str a b).
Context (node_inj : ∀ a b c d, node_str a b = node_str c d → (wf a ∧ wf c) ∨ (wf b ∧ wf d) → a = c ∧ b = d).

Lemma hash_tree_wf t : wf (hash_tree leaf node t).
Proof using wf_hash. destruct t; apply wf_hash. Qed.

Lemma hash_tree_inj t u :
  hash_tree leaf node t = hash_tree leaf node u → t = u ∨ collides h (ptree_strings t ++ ptree_strings u).
Proof using All.
  revert u. induction t as [x|l IHl r IHr]; intros [y|l' r']; simpl; intros E;
    apply (inj_or_collides h) in E as [E|?]; try by_collision.
  - left. by rewrite (leaf_inj _ _ E).
  - by apply leaf_node in E.
  - symmetry in E. by apply leaf_node in E.
  - apply node_inj in E as [E1 E2]; [|left; split; apply hash_tree_wf].
    apply IHl in E1 as [->|?]; [|by_collision]. apply IHr in E2 as [->|?]; [by left|by_collision].
Qed.

(** Equal roots come from equal lists. *)
Lemma pair_root_binding (l k : list L) :
  l ≠ [] → k ≠ [] →
  pair_rounds node (length l) (leaf <$> l) = pair_rounds node (length k) (leaf <$> k) →
  l = k ∨ collides h (pair_strings l ++ pair_strings k).
Proof using All.
  intros Hl Hk E. destruct (pair_tree_strings l Hl) as (t & Hft & Ht & Hst).
  destruct (pair_tree_strings k Hk) as (u & Hfu & Hu & Hsu).
  rewrite Ht, Hu in E. injection E as E. apply hash_tree_inj in E as [->|?]; [left; congruence|by_collision].
Qed.

(** Climbing from a leaf into the root of a tree starts at a leaf of the tree. *)
Lemma ascend_sound x path t :
  ascend node (leaf x) path = hash_tree leaf node t →
  x ∈ fringe t ∨ collides h (leaf_str x :: ascend_strings (leaf x) path ++ ptree_strings t).
Proof using All.
  revert t. induction path as [|[side s] path IH] using rev_ind; intros t.
  - destruct t as [y|l r]; simpl; intros E; apply (inj_or_collides h) in E as [E|?]; try by_collision.
    + left. rewrite (leaf_inj _ _ E). apply list_elem_of_here.
    + by apply leaf_node in E.
  - rewrite ascend_strings_snoc. unfold ascend. rewrite foldl_app. fold (ascend node (leaf x) path).
    assert (wf (ascend node (leaf x) path)) as Hwf.
    { destruct path as [|[s2 z] path _] using rev_ind; [apply wf_hash|].
      unfold ascend. rewrite foldl_app. simpl. unfold ascend_step. simpl. destruct s2; apply wf_hash. }
    cbn [foldl fst snd]. unfold ascend_step at 1. cbn [fst snd].
    intros E. destruct t as [y|l r]; simpl in E.
    { destruct side; apply (inj_or_collides h) in E as [E|?]; try by_collision;
        symmetry in E; by apply leaf_node in E. }
    pose proof (hash_tree_wf l). pose proof (hash_tree_wf r). cbn [ptree_strings fringe].
    destruct side; apply (inj_or_collides h) in E as [E|?]; try by_collision; apply node_inj in E as [E1 E2]; auto.
    + apply IH in E2 as [Hi|?]; [left; apply elem_of_app; by right|by_collision].
    + apply IH in E1 as [Hi|?]; [left; apply elem_of_app; by left|by_collision].
Qed.
(** The same for the root that the loop makes of a list. *)
Lemma pair_climb_sound x path (l : list L) :
  l ≠ [] → pair_rounds node (length l) (leaf <$> l) = [ascend node (leaf x) path] →
  x ∈ l ∨ collides h (leaf_str x :: ascend_strings (leaf x) path ++ pair_strings l).
Proof using All.
  intros Hl E. destruct (pair_tree_strings l Hl) as (t & Hft & Ht & Hst). rewrite Ht in E. injection E as E.
  symmetry in E. apply ascend_sound in E as [?|?]; [left; by rewrite <-Hft|by_collision].
Qed.
End binding.
