(* ===== verification/ShaRef.v ===== *)
(** * SHA-256, executable

    The hash functions are class parameters everywhere; this is the standard's SHA-256
    (FIPS 180-4) as an instance, so that a witness can compute with the constants that the
    code bakes in.  SHA-512 is left at the stand-in of [prefix_sha]. *)
From S2P Require Export Crypto.

Module Sha256.
Definition w32 (n : N) : N := (n mod u32_mod)%N.
Definition rotr (k n : N) : N := N.lor (N.shiftr n k) (w32 (N.shiftl n (32 - k))).
Definition xor3 (a b c : N) : N := N.lxor (N.lxor a b) c.

(** The constants are the first 32 bits of the fractional parts of roots of the primes. *)
Definition is_prime (n : N) : bool := forallb (λ d, negb (n mod N.of_nat d =? 0)%N) (seq 2 (N.to_nat (N.sqrt n) - 1)).
Definition primes : list N := filter (λ n, is_prime n = true) (N.of_nat <$> seq 2 310).
(** The largest number below [lo + 2 ^ bits] whose cube is at most [x]. *)
Fixpoint cbrt_from (bits : nat) (lo x : N) : N :=
  match bits with
  | O => lo
  | S b => let mid := (lo + 2 ^ N.of_nat b)%N in cbrt_from b (if (mid ^ 3 <=? x)%N then mid else lo) x
  end.
Definition round_constants : list N := (λ q, w32 (cbrt_from 36 0 (N.shiftl q 96))) <$> primes.
Definition initial : list N := (λ q, w32 (N.sqrt (N.shiftl q 64))) <$> take 8 primes.
(** Evaluated once. *)
Definition round_constants_value : list N := Eval vm_compute in round_constants.
Definition initial_value : list N := Eval vm_compute in initial.

(** The message is padded to whole blocks of 64 bytes. *)
Definition padded (m : bytes) : bytes :=
  let n := length m in
  m ++ [x80] ++ replicate ((119 - n `mod` 64) `mod` 64) x00 ++ be_bytes 8 (8 * N.of_nat n).
Fixpoint chunks (k fuel : nat) (l : bytes) : list bytes :=
  match fuel, l with
  | S f, _ :: _ => take k l :: chunks k f (drop k l)
  | _, _ => []
  end.

(** The schedule, newest word first; 48 words follow the 16 of the block. *)
Definition extend (w : list N) : list N :=
  let at_ i := get_or 0%N w i in
  let s0 := xor3 (rotr 7 (at_ 14)) (rotr 18 (at_ 14)) (N.shiftr (at_ 14) 3) in
  let s1 := xor3 (rotr 17 (at_ 1)) (rotr 19 (at_ 1)) (N.shiftr (at_ 1) 10) in
  w32 (at_ 15 + s0 + at_ 6 + s1) :: w.
Definition schedule (block : bytes) : list N :=
  reverse (Nat.iter 48 extend (reverse (of_be_bytes <$> chunks 4 16 block))).

Definition round (st : list N) (kw : N * N) : list N :=
  match st with
  | [a; b; c; d; e; f; g; h] =>
      let s1 := xor3 (rotr 6 e) (rotr 11 e) (rotr 25 e) in
      let ch := N.lxor (N.land e f) (N.land (N.lxor e (u32_mod - 1)) g) in
      let t1 := w32 (h + s1 + ch + kw.1 + kw.2) in
      let s0 := xor3 (rotr 2 a) (rotr 13 a) (rotr 22 a) in
      let maj := xor3 (N.land a b) (N.land a c) (N.land b c) in
      [w32 (t1 + w32 (s0 + maj)); a; b; c; w32 (d + t1); e; f; g]%N
  | _ => st
  end.
Definition block_step (st : list N) (block : bytes) : list N :=
  zip_with (λ x y, w32 (x + y)) st (foldl round st (zip round_constants_value (schedule block))).
Definition digest (m : bytes) : bytes :=
  let p := padded m in
  concat (be_bytes 4 <$> foldl block_step initial_value (chunks 64 (length p) p)).
End Sha256.

Definition real_sha256 : Sha2 :=
  {| sha256 := λ l, to_arr 32 (Sha256.digest l); sha512 := λ l, to_arr 64 l |}.

(** The example of the standard, and an input of more than one block. *)
Example digest_abc :
  hex_encode (Sha256.digest (as_bytes "abc"))
  = "ba7816bf8f01cfea414140de5dae2223b00361a396177a9cb410ff61f20015ad".
Proof. vm_compute. reflexivity. Qed.
Example digest_two_blocks :
  hex_encode (Sha256.digest (as_bytes "abcdbcdecdefdefgefghfghighijhijkijkljklmklmnlmnomnopnopq"))
  = "248d6a61d20638b8e5c026930c3e6039a33ce45964ff2167f6ecedd419db06c1".
Proof. vm_compute. reflexivity. Qed.
