(* ===== verification/License.v ===== *)
(** * Licence certificates: [src/src/license.rs]

    Minting and offline checking of licence certificates.  The clock, the environment
    variable with the device fingerprint and the text of the file are arguments.  Groth16
    over BN254 and the JSON of a certificate are class parameters.  Slicing a text inside
    a character panics: [LicensePanic]. *)
From S2P Require Export PairTree Pcn.

(** ** Constants *)

Definition KNOWN_FOUNDATION : bytes :=
  [xde; xca; x4e; x53; xfb; x61; x34; xb0; x00; x70; x53; x41; xd5; xdb; x3d; xe0;
   x23; xdc; xd8; xa9; x5e; x17; x4b; xce; x0c; x4e; x21; xbc; xab; x6e; x8c; xf9].
Definition DOMAIN_LICENSE_V1 : bytes := as_bytes "NucleusDB.License|".
Definition DOMAIN_LICENSE_V2 : bytes := as_bytes "NucleusDB.License.v2|".
Definition DOMAIN_FOUNDATION : bytes := as_bytes "NucleusDB.CAB.Foundation|".
Definition DOMAIN_COMPLIANCE : bytes := as_bytes "NucleusDB.License.Compliance|".
Definition KNOWN_FOUNDATION_POSEIDON : string :=
  "10498408604190631903661670351841509167761295075626051572612706182854256519760".
Definition V1_VERSION : string := "nucleusdb-license-cab-1".
Definition V2_VERSION : string := "nucleusdb-license-cab-2".

Module embedded_vk.
Definition ALPHA_G1 : string * string :=
  ("10405655760119732762824095869568406693561841416451728932271937081641821752442",
   "17894357186551961076795404557474199423647869761457444754365915623531257749504").
Definition BETA_G2 : (string * string) * (string * string) :=
  (("817037149465713341295302205409665163636512997788012192760338436219591622570",
    "8181955070738281622789145815239278178064061204636853080281558871759452889216"),
   ("2470469513158114407389324664570297769674606540799180541260835218432618939808",
    "7544550115112493806048097440827485485771358631037888427545369902420464391159")).
Definition GAMMA_G2 : (string * string) * (string * string) :=
  (("10857046999023057135944570762232829481370756359578518086990519993285655852781",
    "11559732032986387107991004021392285783925812861821192530917403151452391805634"),
   ("8495653923123431417604973247489272438418190587263600148770280649306958101930",
    "4082367875863433681332203403145435568316851327593401208105741076214120093531")).
Definition DELTA_G2 : (string * string) * (string * string) :=
  (("1074597943206102349778140182451723613501628836518057530308898092584953672550",
    "9113188335812023316551771771065788170397772324476632243867577692409202310465"),
   ("12568699406555272521137419993975304946411456725722974416328832358691787922082",
    "9671252814183893774941795037258883504827198960588967633442343476946487748802")).
Definition IC : list (string * string) :=
  [("1886624505104556738673761345726261325771700141708280611575166489627757278359",
    "21865943168566572626055999140916368834187894605042283690209826820111355242432");
   ("11476862565265928797481511316176026704635336790699393818206281210967343195400",
    "14081078318345287356041983710352453621730748568416967074248703006711490654640");
   ("19098510535955990810767905164616159577478438968862710353268241684793658238243",
    "7701696675531282626493228672088711677637336743678080881498263883922311153132")].
End embedded_vk.

(** ** Features and levels *)

Inductive ProFeature :=
| FMultiTenant | FMcpServer | FTui | FIpaBackend | FKzgBackend | FCertificateTransparency
| FWalReplay | FExport | FBatchSql | FConfigurableQuorum | FUnlimitedEntries.
#[export] Instance ProFeature_eq_dec : EqDecision ProFeature.
Proof. solve_decision. Defined.

Definition as_leaf_str (f : ProFeature) : string :=
  match f with
  | FMultiTenant => "multi_tenant"
  | FMcpServer => "mcp_server"
  | FTui => "tui"
  | FIpaBackend => "ipa_backend"
  | FKzgBackend => "kzg_backend"
  | FCertificateTransparency => "certificate_transparency"
  | FWalReplay => "wal_replay"
  | FExport => "export"
  | FBatchSql => "batch_sql"
  | FConfigurableQuorum => "configurable_quorum"
  | FUnlimitedEntries => "unlimited_entries"
  end.
Definition all_features : list ProFeature := [
  FMultiTenant; FMcpServer; FTui; FIpaBackend; FKzgBackend; FCertificateTransparency;
  FWalReplay; FExport; FBatchSql; FConfigurableQuorum; FUnlimitedEntries].
(** The table of step 9 of [verify_certificate]. *)
Definition feature_of_str (s : string) : option ProFeature :=
  if bool_decide (s = "multi_tenant") then Some FMultiTenant
  else if bool_decide (s = "mcp_server") then Some FMcpServer
  else if bool_decide (s = "tui") then Some FTui
  else if bool_decide (s = "ipa_backend") then Some FIpaBackend
  else if bool_decide (s = "kzg_backend") then Some FKzgBackend
  else if bool_decide (s = "certificate_transparency") then Some FCertificateTransparency
  else if bool_decide (s = "wal_replay") then Some FWalReplay
  else if bool_decide (s = "export") then Some FExport
  else if bool_decide (s = "batch_sql") then Some FBatchSql
  else if bool_decide (s = "configurable_quorum") then Some FConfigurableQuorum
  else if bool_decide (s = "unlimited_entries") then Some FUnlimitedEntries
  else None.

Inductive LicenseLevel :=
| Community
| Pro (features : list ProFeature) (licensee : string) (expiry_unix_secs : N).
Definition level_has (l : LicenseLevel) (f : ProFeature) : bool :=
  match l with Community => false | Pro features _ _ => bool_decide (f ∈ features) end.
Definition is_pro (l : LicenseLevel) : bool := match l with Community => false | Pro _ _ _ => true end.
Definition level_label (l : LicenseLevel) : string :=
  match l with Community => "Community" | Pro _ _ _ => "Pro" end.

(** ** Certificates *)

Record SnarkProof := {
  sp_protocol : string;
  sp_curve : string;
  pi_a : list string;
  pi_b : list (list string);
  pi_c : list string;
  public_signals : list string
}.
Record CompliancePublicInputs := {
  ci_feasibility_root : string;
  ci_replay_seq : N;
  ci_puf_digest : option string
}.
Record LicenseCertificate := {
  lc_version : string;
  foundation_commitment : string;
  rules_root : string;
  licensee_commitment : string;
  proof_digest : string;
  lc_licensee : string;
  lc_expiry_unix_secs : N;
  lc_features : list string;
  foundation_poseidon : option string;
  rules_root_poseidon : option string;
  licensee_commitment_poseidon : option string;
  proof_digest_poseidon : option string;
  feature_hashes_poseidon : option (list string);
  licensee_field : option string;
  snark_proof : option SnarkProof;
  lc_puf_digest : option string;
  compliance_inputs : option CompliancePublicInputs;
  compliance_commitment : option string
}.

Inductive LicenseError :=
| LicenseIo (e : string)
| LicenseJsonError (e : string)
| FoundationMismatch
| RulesRootMismatch
| ProofDigestMismatch
| LicenseeCommitmentMismatch
| Expired
| UnsupportedVersion (v : string)
| EmptyFeatures
| SnarkVerificationFailed
| SnarkPublicSignalMismatch
| PufUnavailable
| PufDigestMismatch
| MissingComplianceInputs
| ComplianceInputMalformed
| ComplianceCommitmentMismatch
| LicensePanic.
Definition license_error_text (e : LicenseError) : string :=
  match e with
  | LicenseIo e => "license I/O error: " +:+ e
  | LicenseJsonError e => "license JSON parse error: " +:+ e
  | FoundationMismatch => "license foundation commitment does not match this build"
  | RulesRootMismatch => "license rules root does not match declared features"
  | ProofDigestMismatch => "license proof digest verification failed"
  | LicenseeCommitmentMismatch => "license licensee commitment does not match"
  | Expired => "license has expired"
  | UnsupportedVersion v => "unsupported license version: " +:+ v
  | EmptyFeatures => "license has no features"
  | SnarkVerificationFailed => "SNARK proof verification failed"
  | SnarkPublicSignalMismatch => "SNARK public signals are not bound to this certificate payload"
  | PufUnavailable => "license requires PUF binding but no compatible PUF source is available"
  | PufDigestMismatch => "license PUF digest does not match this device"
  | MissingComplianceInputs => "license v2 requires compliance inputs"
  | ComplianceInputMalformed => "license compliance inputs are malformed"
  | ComplianceCommitmentMismatch => "license compliance commitment does not match inputs"
  | LicensePanic => ""
  end.

(** [ark_bn254], [ark_groth16]: field elements from decimal text, points without a check,
    and the verifier; [None] is an error. *)
Class Bn254Lib := {
  Fq : Type;
  BnFr : Type;
  Fq2 : Type;
  G1Affine : Type;
  G2Affine : Type;
  fq_parse : string → option Fq;
  fr_parse : string → option BnFr;
  Fq2_new : Fq → Fq → Fq2;
  G1_new_unchecked : Fq → Fq → G1Affine;
  G2_new_unchecked : Fq2 → Fq2 → G2Affine;
  verify_with_processed_vk :
    G1Affine * G2Affine * G2Affine * G2Affine * list G1Affine → list BnFr → G1Affine * G2Affine * G1Affine →
    option bool
}.
(** [serde_json] on certificates. *)
Class LicenseJson := {
  cert_from_str : string → result string LicenseCertificate;
  cert_to_string_pretty : LicenseCertificate → string
}.

(** ** Hexadecimal text *)

(** [u8::from_str_radix(_, 16)] on two bytes: a plus sign may stand before one digit. *)
Definition from_str_radix16 (a b : ascii) : option byte :=
  match hex_nibble a, hex_nibble b with
  | Some hi, Some lo => Some (nibbles hi lo)
  | None, Some lo => if Ascii.eqb a "+" then Some (nibbles 0 lo) else None
  | _, None => None
  end.
Definition at_boundary (s : string) : bool :=
  match s with EmptyString => true | String c _ => negb (is_cont (byte_of_ascii c)) end.
(** The loop of [hex_to_32]; every slice of two bytes must end at a character boundary. *)
Fixpoint hex_pairs (s : string) : result LicenseError (option bytes) :=
  match s with
  | String a (String b s') =>
      _ ← throw_if (negb (at_boundary s')) LicensePanic;
      match from_str_radix16 a b with
      | None => mret None
      | Some x => rest ← hex_pairs s'; mret (cons x <$> rest)
      end
  | _ => mret (Some [])
  end.
Definition hex_to_32 (hex : string) : result LicenseError (option (arr 32)) :=
  let s := default hex (strip_prefix "0x" hex) in
  if negb (str_len s =? 64) then mret None
  else r ← hex_pairs s; mret (r ≫= try_arr 32).
(** [hex_to_32(s).ok_or(e)?]. *)
Definition hex_or (s : string) (e : LicenseError) : result LicenseError (arr 32) :=
  r ← hex_to_32 s; ok_or r e.
Definition to_hex (b : arr 32) : string := "0x" +:+ hex_encode (arr_bytes b).
Definition is_null_digest_sentinel (raw : string) : bool :=
  let v := trim raw in
  bool_decide (v = "") || eq_ignore_ascii_case v "none" || eq_ignore_ascii_case v "null".

(** [env] is the variable [NUCLEUSDB_PUF_DIGEST]. *)
Definition collect_local_puf_evidence (env : option string) : result LicenseError (option (arr 32)) :=
  match env with None => mret None | Some raw => hex_to_32 (trim raw) end.

Section license.
Context `{SHA : Sha2, BN : Bn254Lib, LJ : LicenseJson}.

(** ** Hashes *)

Definition h (domain payload : bytes) : arr 32 := sha256 (domain ++ payload).
Definition hcat (domain : bytes) (parts : list bytes) : arr 32 := sha256 (domain ++ concat parts).
Definition rules_node (l r : arr 32) : arr 32 := sha256 (x01 :: arr_bytes l ++ arr_bytes r).
Definition merkle_root (leaves : list (arr 32)) : arr 32 :=
  default (to_arr 32 []) (head (pair_rounds rules_node (length leaves) leaves)).
Definition feature_leaf (feature : string) : arr 32 :=
  sha256 (x00 :: as_bytes ("NucleusDB.License.Feature|" +:+ feature)).
Definition licensee_hash (licensee : string) (expiry : N) : arr 32 :=
  hcat (as_bytes "NucleusDB.Licensee|") [as_bytes licensee; be_bytes 8 expiry].
Definition compute_foundation : arr 32 := h DOMAIN_FOUNDATION (as_bytes "v1").

Definition build_compliance_commitment (inputs : CompliancePublicInputs) : result LicenseError (arr 32) :=
  feasibility ← hex_or (ci_feasibility_root inputs) ComplianceInputMalformed;
  puf ← match ci_puf_digest inputs with
        | Some digest =>
            _ ← throw_if (is_null_digest_sentinel digest) ComplianceInputMalformed;
            hex_or digest ComplianceInputMalformed
        | None => mret (to_arr 32 [])
        end;
  let puf_flag := match ci_puf_digest inputs with Some _ => x01 | None => x00 end in
  mret (hcat DOMAIN_COMPLIANCE
    [arr_bytes feasibility; be_bytes 8 (ci_replay_seq inputs); [puf_flag]; arr_bytes puf]).

Definition compliance_inputs_from_pcn_witness (w : PcnComplianceWitness) (puf : option (arr 32))
  : CompliancePublicInputs := {|
  ci_feasibility_root := to_hex (Pcn.feasibility_root w);
  ci_replay_seq := Pcn.replay_seq w;
  ci_puf_digest := to_hex <$> puf |}.

(** ** The embedded proof system *)

Definition parse_fq (s : string) : result LicenseError Fq := ok_or (fq_parse s) SnarkVerificationFailed.
Definition parse_fr (s : string) : result LicenseError BnFr := ok_or (fr_parse s) SnarkVerificationFailed.
Definition g1_from_strs (p : string * string) : result LicenseError G1Affine :=
  x ← parse_fq p.1; y ← parse_fq p.2; mret (G1_new_unchecked x y).
Definition g2_from_strs (c : (string * string) * (string * string)) : result LicenseError G2Affine :=
  x0 ← parse_fq c.1.1; x1 ← parse_fq c.1.2; y0 ← parse_fq c.2.1; y1 ← parse_fq c.2.2;
  mret (G2_new_unchecked (Fq2_new x0 x1) (Fq2_new y0 y1)).
Fixpoint collect {A B} (f : A → result LicenseError B) (l : list A) : result LicenseError (list B) :=
  match l with
  | [] => mret []
  | x :: l' => y ← f x; ys ← collect f l'; mret (y :: ys)
  end.
Definition build_embedded_vk
  : result LicenseError (G1Affine * G2Affine * G2Affine * G2Affine * list G1Affine) :=
  alpha ← g1_from_strs embedded_vk.ALPHA_G1;
  beta ← g2_from_strs embedded_vk.BETA_G2;
  gamma ← g2_from_strs embedded_vk.GAMMA_G2;
  delta ← g2_from_strs embedded_vk.DELTA_G2;
  abc ← collect g1_from_strs embedded_vk.IC;
  mret (alpha, beta, gamma, delta, abc).

(** [expected] is the digest that the certificate declares, when it does. *)
Definition verify_snark_proof (p : SnarkProof) (expected : option string) : result LicenseError () :=
  _ ← throw_if (negb (bool_decide (sp_protocol p = "groth16") && bool_decide (sp_curve p = "bn128")))
        SnarkVerificationFailed;
  _ ← throw_if (negb (length (public_signals p) =? 2)) SnarkVerificationFailed;
  _ ← throw_if (negb (bool_decide (public_signals p !! 0 = Some KNOWN_FOUNDATION_POSEIDON)))
        SnarkVerificationFailed;
  _ ← match expected with
      | Some e => throw_if (negb (bool_decide (public_signals p !! 1 = Some e))) SnarkPublicSignalMismatch
      | None => mret tt
      end;
  inputs ← collect parse_fr (public_signals p);
  match pi_a p, pi_c p, pi_b p with
  | ax :: ay :: _, cx :: cy :: _, (b00 :: b01 :: _) :: (b10 :: b11 :: _) :: _ =>
      a ← g1_from_strs (ax, ay);
      b ← g2_from_strs ((b00, b01), (b10, b11));
      c ← g1_from_strs (cx, cy);
      vk ← build_embedded_vk;
      valid ← ok_or (verify_with_processed_vk vk inputs (a, b, c)) SnarkVerificationFailed;
      throw_if (negb valid) SnarkVerificationFailed
  | _, _, _ => Err SnarkVerificationFailed
  end.

(** ** Minting *)

Definition feature_strs (features : list ProFeature) : list string :=
  merge_sort String.le (as_leaf_str <$> features).
Definition mint_certificate (licensee : string) (features : list ProFeature) (expiry : N)
  : LicenseCertificate :=
  let foundation := h DOMAIN_FOUNDATION (as_bytes "v1") in
  let strs := feature_strs features in
  let root := merkle_root (feature_leaf <$> strs) in
  let commitment := licensee_hash licensee expiry in
  let digest := hcat DOMAIN_LICENSE_V1 [arr_bytes foundation; arr_bytes root; arr_bytes commitment] in
  {| lc_version := V1_VERSION; foundation_commitment := to_hex foundation; rules_root := to_hex root;
     licensee_commitment := to_hex commitment; proof_digest := to_hex digest; lc_licensee := licensee;
     lc_expiry_unix_secs := expiry; lc_features := strs; foundation_poseidon := None;
     rules_root_poseidon := None; licensee_commitment_poseidon := None; proof_digest_poseidon := None;
     feature_hashes_poseidon := None; licensee_field := None; snark_proof := None; lc_puf_digest := None;
     compliance_inputs := None; compliance_commitment := None |}.
Definition mint_certificate_v2 (licensee : string) (features : list ProFeature) (expiry : N)
    (inputs : CompliancePublicInputs) : result LicenseError LicenseCertificate :=
  let foundation := h DOMAIN_FOUNDATION (as_bytes "v1") in
  let strs := feature_strs features in
  let root := merkle_root (feature_leaf <$> strs) in
  let commitment := licensee_hash licensee expiry in
  compliance ← build_compliance_commitment inputs;
  let digest := hcat DOMAIN_LICENSE_V2
    [arr_bytes foundation; arr_bytes root; arr_bytes commitment; arr_bytes compliance] in
  mret
  {| lc_version := V2_VERSION; foundation_commitment := to_hex foundation; rules_root := to_hex root;
     licensee_commitment := to_hex commitment; proof_digest := to_hex digest; lc_licensee := licensee;
     lc_expiry_unix_secs := expiry; lc_features := strs; foundation_poseidon := None;
     rules_root_poseidon := None; licensee_commitment_poseidon := None; proof_digest_poseidon := None;
     feature_hashes_poseidon := None; licensee_field := None; snark_proof := None;
     lc_puf_digest := ci_puf_digest inputs; compliance_inputs := Some inputs;
     compliance_commitment := Some (to_hex compliance) |}.

(** ** Checking *)

(** Step 6 for version 2: the commitment, and the digest it binds to the device. *)
Definition check_compliance (cert : LicenseCertificate) : result LicenseError (arr 32 * option string) :=
  compliance ← ok_or (compliance_inputs cert) MissingComplianceInputs;
  expected ← build_compliance_commitment compliance;
  got ← match compliance_commitment cert with
        | Some c => hex_or c ComplianceCommitmentMismatch
        | None => Err ComplianceCommitmentMismatch
        end;
  _ ← throw_if (negb (bool_decide (got = expected))) ComplianceCommitmentMismatch;
  _ ← match lc_puf_digest cert, ci_puf_digest compliance with
      | Some cert_puf, Some comp_puf => throw_if (negb (bool_decide (cert_puf = comp_puf))) PufDigestMismatch
      | _, _ => mret tt
      end;
  mret (expected, ci_puf_digest compliance).
(** Step 8b. *)
Definition check_puf (env effective : option string) : result LicenseError () :=
  match effective with
  | None => mret tt
  | Some puf =>
      _ ← throw_if (is_null_digest_sentinel puf) PufDigestMismatch;
      expected ← hex_or puf PufDigestMismatch;
      current ← collect_local_puf_evidence env;
      current ← ok_or current PufUnavailable;
      throw_if (negb (bool_decide (current = expected))) PufDigestMismatch
  end.
Definition verify_certificate (env : option string) (now : N) (cert : LicenseCertificate)
  : result LicenseError LicenseLevel :=
  let is_v1 := bool_decide (lc_version cert = V1_VERSION) in
  let is_v2 := bool_decide (lc_version cert = V2_VERSION) in
  _ ← throw_if (negb is_v1 && negb is_v2) (UnsupportedVersion (lc_version cert));
  _ ← throw_if (bool_decide (lc_features cert = [])) EmptyFeatures;
  foundation_got ← hex_or (foundation_commitment cert) FoundationMismatch;
  _ ← throw_if (negb (bool_decide (arr_bytes foundation_got = KNOWN_FOUNDATION))) FoundationMismatch;
  let expected_root := merkle_root (feature_leaf <$> merge_sort String.le (lc_features cert)) in
  got_root ← hex_or (rules_root cert) RulesRootMismatch;
  _ ← throw_if (negb (bool_decide (got_root = expected_root))) RulesRootMismatch;
  got_licensee ← hex_or (licensee_commitment cert) LicenseeCommitmentMismatch;
  _ ← throw_if (negb (bool_decide (got_licensee = licensee_hash (lc_licensee cert) (lc_expiry_unix_secs cert))))
        LicenseeCommitmentMismatch;
  '(expected_digest, bound_puf) ←
    (if is_v1 then
       mret (hcat DOMAIN_LICENSE_V1
               [arr_bytes foundation_got; arr_bytes got_root; arr_bytes got_licensee], None)
     else
       '(expected_compliance, bound) ← check_compliance cert;
       mret (hcat DOMAIN_LICENSE_V2
               [arr_bytes foundation_got; arr_bytes got_root; arr_bytes got_licensee;
                arr_bytes expected_compliance], bound));
  got_digest ← hex_or (proof_digest cert) ProofDigestMismatch;
  _ ← throw_if (negb (bool_decide (got_digest = expected_digest))) ProofDigestMismatch;
  _ ← throw_if (lc_expiry_unix_secs cert <=? now)%N Expired;
  _ ← match snark_proof cert with
      | Some snark => verify_snark_proof snark (proof_digest_poseidon cert)
      | None => mret tt
      end;
  _ ← check_puf env (match lc_puf_digest cert with Some p => Some p | None => bound_puf end);
  mret (Pro (omap feature_of_str (lc_features cert)) (lc_licensee cert) (lc_expiry_unix_secs cert)).

(** [file] is what reading the path gives. *)
Definition load_and_verify (env : option string) (now : N) (file : result string string)
  : result LicenseError LicenseLevel :=
  raw ← map_err LicenseIo file;
  cert ← map_err LicenseJsonError (cert_from_str raw);
  verify_certificate env now cert.

(** [None] is the panic of a slice. *)
Definition verification_report (env : option string) (now : N) (cert : LicenseCertificate) : option string :=
  match verify_certificate env now cert with
  | Ok (Pro features licensee expiry) =>
      Some ("License VALID
  Licensee: " +:+ licensee +:+ "
  Expiry:   " +:+ dec expiry +:+ " (unix)
  Features: " +:+ String.concat ", " (as_leaf_str <$> features) +:+ "
  Digest:   " +:+ proof_digest cert)
  | Ok Community => Some "License verified as Community (no features)."
  | Err LicensePanic => None
  | Err e => Some ("License INVALID: " +:+ license_error_text e)
  end.
End license.
