(* ===== verification/LicenseSpec.v ===== *)
(** * Properties of the licence certificates of [License.v]

    Minting needs no secret and what it makes is accepted; an accepted proof digest fixes
    the licensed content; which fields it leaves open. *)
From S2P Require Import License ShaRef.

(** ** Hexadecimal text *)

Lemma hex_digit_ascii v : (v < 16)%N → is_cont (byte_of_ascii (hex_digit v)) = false.
Proof.
  intros Hv. assert (Forall (λ k, is_cont (byte_of_ascii (hex_digit (N.of_nat k))) = false) (seq 0 16)) as Hall
    by (by repeat constructor).
  rewrite Forall_forall in Hall. rewrite <-(N2Nat.id v). apply Hall, elem_of_seq. lia.
Qed.
Lemma hex_encode_boundary l : at_boundary (hex_encode l) = true.
Proof. destruct l as [|b l]; [done|]. simpl. rewrite hex_digit_ascii; [done|]. by destruct b. Qed.
Lemma hex_pairs_encode l : hex_pairs (hex_encode l) = Ok (Some l).
Proof.
  induction l as [|b l IH]; [done|]. cbn [hex_encode hex_pairs]. rewrite hex_encode_boundary. simpl.
  unfold from_str_radix16. destruct (hex_byte_roundtrip b) as (-> & -> & ->). by rewrite IH.
Qed.
Lemma hex_or_to_hex a e : hex_or (to_hex a) e = Ok a.
Proof.
  unfold hex_or, hex_to_32, to_hex. rewrite strip_prefix_app. simpl.
  rewrite length_hex_encode, arr_length. simpl. rewrite hex_pairs_encode. simpl. by rewrite try_arr_bytes.
Qed.
Lemma hex_or_ok s e a : hex_or s e = Ok a → hex_to_32 s = Ok (Some a).
Proof. unfold hex_or. intros Hx. inv_res. congruence. Qed.
Lemma hex_or_conv s e a : hex_to_32 s = Ok (Some a) → hex_or s e = Ok a.
Proof. unfold hex_or. by intros ->. Qed.

Lemma to_hex_graphic a : trim (to_hex a) = to_hex a.
Proof.
  apply trim_graphic; [done|]. apply last_graphic_hex. intros E. pose proof (arr_length a) as Hl. by rewrite E in Hl.
Qed.
Lemma to_hex_not_null a : is_null_digest_sentinel (to_hex a) = false.
Proof.
  unfold is_null_digest_sentinel. rewrite to_hex_graphic. unfold eq_ignore_ascii_case.
  by rewrite !bool_decide_eq_false_2.
Qed.

(** ** Features *)

Lemma feature_of_leaf f : feature_of_str (as_leaf_str f) = Some f.
Proof. by destruct f. Qed.
Lemma features_back fs : omap feature_of_str (feature_strs fs) ≡ₚ fs.
Proof.
  unfold feature_strs. rewrite merge_sort_Permutation.
  induction fs as [|f fs IH]; [done|]. simpl. rewrite feature_of_leaf. by rewrite IH.
Qed.

Section license_spec.
Context `{SHA : Sha2, BN : Bn254Lib, LJ : LicenseJson}.

(** ** Minting *)

#[local] Arguments check_puf : simpl never.
#[local] Arguments hex_or : simpl never.
#[local] Arguments is_null_digest_sentinel : simpl never.
#[local] Arguments hcat : simpl never.
#[local] Arguments licensee_hash : simpl never.

Lemma compliance_from_pcn_builds w puf :
  is_ok (build_compliance_commitment (compliance_inputs_from_pcn_witness w puf)) = true.
Proof using Type.
  unfold build_compliance_commitment. cbn [compliance_inputs_from_pcn_witness ci_feasibility_root ci_puf_digest].
  rewrite hex_or_to_hex. simpl.
  destruct puf as [d|]; [|done]. cbn [fmap option_fmap option_map]. by rewrite to_hex_not_null, hex_or_to_hex.
Qed.

(** The commitments of step 6 when the device digest is well formed. *)
Lemma build_compliance_puf inputs c p :
  build_compliance_commitment inputs = Ok c → ci_puf_digest inputs = Some p →
  is_null_digest_sentinel p = false ∧ ∃ d, hex_to_32 p = Ok (Some d).
Proof using Type.
  unfold build_compliance_commitment. intros Hb Hp. rewrite Hp in Hb. inv_res.
  split; [done|]. eexists. by eapply hex_or_ok.
Qed.

(** [env] names the device whose digest is [puf]. *)
Definition device_matches (env : option string) (puf : option string) : Prop :=
  ∀ p, puf = Some p → ∃ d, hex_to_32 p = Ok (Some d) ∧ collect_local_puf_evidence env = Ok (Some d).

Lemma check_puf_ok env puf :
  (∀ p, puf = Some p → is_null_digest_sentinel p = false) → device_matches env puf →
  check_puf env puf = Ok tt.
Proof using Type.
  intros Hn Hd. destruct puf as [p|]; [|done]. destruct (Hd p eq_refl) as (d & Hp & He).
  unfold check_puf. rewrite (Hn p eq_refl). simpl. rewrite (hex_or_conv _ _ d Hp). simpl.
  rewrite He. simpl. by rewrite bool_decide_eq_true_2.
Qed.

(** The checks of a minted certificate, one after the other. *)
Ltac checks :=
  repeat first [progress simpl | rewrite hex_or_to_hex | rewrite bool_decide_eq_true_2 by done].

(** [license.rs] promises that a valid certificate needs a preimage of the
    foundation commitment.  It does not: for every licensee, non-empty feature set and
    future expiry the certificate that the public minting function makes, from no secret,
    is accepted and unlocks exactly these features; the same holds for version 2 with any
    compliance inputs that mint, on a device with the bound fingerprint. *)
Theorem license_anyone_mints env now licensee features expiry :
  arr_bytes compute_foundation = KNOWN_FOUNDATION → features ≠ [] → (now < expiry)%N →
  ∃ fs, fs ≡ₚ features ∧
    verify_certificate env now (mint_certificate licensee features expiry) = Ok (Pro fs licensee expiry) ∧
    ∀ inputs cert,
      mint_certificate_v2 licensee features expiry inputs = Ok cert →
      device_matches env (ci_puf_digest inputs) →
      verify_certificate env now cert = Ok (Pro fs licensee expiry).
Proof using Type.
  intros Hf Hne Hexp. exists (omap feature_of_str (feature_strs features)).
  split; [apply features_back|].
  assert (feature_strs features ≠ []) as Hs.
  { intros E. pose proof (features_back features) as Hp. rewrite E in Hp. simpl in Hp.
    by apply Permutation_nil_l in Hp. }
  assert (merge_sort String.le (feature_strs features) = feature_strs features) as Hsort.
  { apply (StronglySorted_unique String.le); [apply StronglySorted_merge_sort; apply _..|].
    apply merge_sort_Permutation. }
  fold compute_foundation in *.
  assert ((expiry <=? now)%N = false) as Hle by (apply N.leb_gt; lia).
  split; [|intros inputs cert Hm Hd].
  - unfold verify_certificate, mint_certificate. fold compute_foundation. cbn zeta. simpl.
    rewrite (bool_decide_eq_false_2 (feature_strs features = [])) by done. rewrite Hsort. checks.
    by rewrite Hle.
  - unfold mint_certificate_v2 in Hm. fold compute_foundation in Hm. inv_res. cbn zeta in *.
    pose proof (λ p, build_compliance_puf inputs x p Hm0) as Hpuf.
    assert (check_puf env (ci_puf_digest inputs) = Ok tt) as Hc.
    { apply check_puf_ok; [|done]. intros p Hp. by destruct (Hpuf p Hp). }
    unfold verify_certificate, check_compliance. simpl. rewrite Hm0.
    rewrite (bool_decide_eq_false_2 (feature_strs features = [])) by done. rewrite Hsort. checks.
    destruct (ci_puf_digest inputs) as [p|] eqn:Ep; checks; rewrite Hle; simpl; by rewrite ?Hc.
Qed.

(** ** What an accepted certificate fixes *)

Definition content_root (c : LicenseCertificate) : arr 32 :=
  merkle_root (feature_leaf <$> merge_sort String.le (lc_features c)).
Definition content_licensee (c : LicenseCertificate) : arr 32 :=
  licensee_hash (lc_licensee c) (lc_expiry_unix_secs c).
(** The parts that the proof digest is taken of. *)
Inductive digest_parts (c : LicenseCertificate) : bytes → Prop :=
| parts_v1 :
    lc_version c = V1_VERSION →
    digest_parts c (DOMAIN_LICENSE_V1 ++ KNOWN_FOUNDATION ++ arr_bytes (content_root c)
      ++ arr_bytes (content_licensee c))
| parts_v2 i comp :
    lc_version c = V2_VERSION → compliance_inputs c = Some i → build_compliance_commitment i = Ok comp →
    digest_parts c (DOMAIN_LICENSE_V2 ++ KNOWN_FOUNDATION ++ arr_bytes (content_root c)
      ++ arr_bytes (content_licensee c) ++ arr_bytes comp).

Lemma verify_certificate_ok env now c lvl :
  verify_certificate env now c = Ok lvl →
  lc_features c ≠ [] ∧ ∃ m, digest_parts c m ∧ hex_to_32 (proof_digest c) = Ok (Some (sha256 m)).
Proof using Type.
  unfold verify_certificate. intros Hv. inv_res.
  apply bool_decide_eq_false in Hv1. split; [done|].
  rename x1 into f, x3 into root, x5 into lic. destruct x7 as [digest bound]. inv_res. bool_hyps.
  repeat match goal with Hb : bool_decide (_ = _) = true |- _ => apply bool_decide_eq_true in Hb end. subst.
  match goal with Hd : hex_or (proof_digest c) _ = _ |- _ => apply hex_or_ok in Hd; rewrite Hd; clear Hd end.
  case_bool_decide as Hver; simpl in Hv0.
  - inv_res. simplify_eq. eexists. split; [by apply parts_v1|]. do 2 f_equal. unfold hcat. simpl.
    by rewrite Hv3, app_nil_r.
  - apply negb_false_iff, bool_decide_eq_true in Hv0. unfold check_compliance in Hv8. inv_res.
    simplify_eq/=. bool_hyps. eexists. split; [by eapply parts_v2|]. do 2 f_equal. unfold hcat. simpl.
    by rewrite Hv3, app_nil_r.
Qed.

(** The strings that a check hashes: for a feature, a node of the tree, the licensee, the
    compliance inputs and the proof digest. *)
Definition feature_string (f : string) : bytes := x00 :: as_bytes ("NucleusDB.License.Feature|" +:+ f).
Definition rules_string (l r : arr 32) : bytes := x01 :: arr_bytes l ++ arr_bytes r.
Definition licensee_string (licensee : string) (expiry : N) : bytes :=
  as_bytes "NucleusDB.Licensee|" ++ as_bytes licensee ++ be_bytes 8 expiry.
Definition digest_or_zero (s : option string) : arr 32 :=
  match hex_to_32 (default "" s) with Ok (Some a) => a | _ => to_arr 32 [] end.
Definition compliance_string (i : CompliancePublicInputs) : bytes :=
  DOMAIN_COMPLIANCE ++ arr_bytes (digest_or_zero (Some (ci_feasibility_root i))) ++ be_bytes 8 (ci_replay_seq i) ++
  [match ci_puf_digest i with Some _ => x01 | None => x00 end] ++ arr_bytes (digest_or_zero (ci_puf_digest i)).
Definition digest_string (c : LicenseCertificate) : bytes :=
  let content := KNOWN_FOUNDATION ++ arr_bytes (content_root c) ++ arr_bytes (content_licensee c) in
  if bool_decide (lc_version c = V1_VERSION) then DOMAIN_LICENSE_V1 ++ content
  else DOMAIN_LICENSE_V2 ++ content ++
       match compliance_inputs c with Some i => arr_bytes (sha256 (compliance_string i)) | None => [] end.
Definition license_strings (c : LicenseCertificate) : list bytes :=
  digest_string c :: licensee_string (lc_licensee c) (lc_expiry_unix_secs c) ::
  pair_strings sha256 feature_string rules_string (merge_sort String.le (lc_features c)) ++
  match compliance_inputs c with Some i => [compliance_string i] | None => [] end.

Lemma compliance_commitment_string i c : build_compliance_commitment i = Ok c → c = sha256 (compliance_string i).
Proof using Type.
  unfold build_compliance_commitment, compliance_string, digest_or_zero. intros Hb. inv_res.
  match goal with Hf : hex_or (ci_feasibility_root i) _ = _ |- _ => apply hex_or_ok in Hf; simpl; rewrite Hf end.
  unfold hcat. simpl. rewrite app_nil_r. destruct (ci_puf_digest i) as [q|]; inv_res; simpl; [|done].
  match goal with Hq : hex_or q _ = _ |- _ => apply hex_or_ok in Hq; by rewrite Hq end.
Qed.
Lemma digest_parts_string c m : digest_parts c m → m = digest_string c.
Proof using Type.
  unfold digest_string. intros [Hv|i comp Hv Hi ->%compliance_commitment_string].
  - by rewrite bool_decide_eq_true_2.
  - rewrite bool_decide_eq_false_2 by (by rewrite Hv). by rewrite Hi, <-!app_assoc.
Qed.

Lemma merkle_root_binding (l k : list string) :
  l ≠ [] → k ≠ [] → merkle_root (feature_leaf <$> l) = merkle_root (feature_leaf <$> k) →
  l = k ∨ collides sha256 (pair_strings sha256 feature_string rules_string l ++
                           pair_strings sha256 feature_string rules_string k).
Proof using Type.
  intros Hl Hk E.
  assert (∀ q : list string, q ≠ [] →
    pair_rounds rules_node (length q) (feature_leaf <$> q) = [merkle_root (feature_leaf <$> q)]) as Hr.
  { intros q Hq. unfold merkle_root. rewrite length_fmap.
    destruct (pair_rounds_one rules_node (length q) (feature_leaf <$> q)) as [r ->]; [|by rewrite length_fmap|done].
    by destruct q. }
  apply (pair_root_binding sha256 feature_string rules_string (λ _, True)); try done.
  - intros x y Ex. injection Ex as Ex. apply (inj as_bytes) in Ex. simplify_eq. done.
  - intros a b c d Ex _. injection Ex as Ex. apply app_len_inj in Ex as [E1 E2]; [|by rewrite !arr_length].
    split; by apply arr_eq.
  - transitivity [merkle_root (feature_leaf <$> l)]; [exact (Hr l Hl)|]. rewrite E. symmetry. exact (Hr k Hk).
Qed.

Lemma licensee_hash_inj l e l' e' :
  is_u64 e → is_u64 e' → licensee_hash l e = licensee_hash l' e' →
  (l = l' ∧ e = e') ∨ collides sha256 [licensee_string l e; licensee_string l' e'].
Proof using Type.
  intros He He' E.
  assert (sha256 (licensee_string l e) = sha256 (licensee_string l' e')) as [Es|]%sha256_inj_or_collides; [|left|by right].
  { unfold licensee_string. revert E. unfold licensee_hash, hcat. cbn [concat]. by rewrite !app_nil_r. }
  apply app_inv_head in Es. apply app_inj_2 in Es as [E1 E2]; [|by rewrite !length_be_bytes].
  split; [by apply (inj as_bytes)|].
  unfold is_u64, u64_max in *. rewrite <-(of_be_bytes_be_bytes 8 e), <-(of_be_bytes_be_bytes 8 e') by (simpl; lia).
  by f_equal.
Qed.

(** Two compliance inputs that stand for the same values. *)
Definition same_inputs (i i' : CompliancePublicInputs) : Prop :=
  hex_to_32 (ci_feasibility_root i) = hex_to_32 (ci_feasibility_root i') ∧
  ci_replay_seq i = ci_replay_seq i' ∧
  match ci_puf_digest i, ci_puf_digest i' with
  | Some p, Some p' => hex_to_32 p = hex_to_32 p'
  | None, None => True
  | _, _ => False
  end.
Lemma compliance_commitment_inj i i' c c' :
  is_u64 (ci_replay_seq i) → is_u64 (ci_replay_seq i') →
  build_compliance_commitment i = Ok c → build_compliance_commitment i' = Ok c' → c = c' →
  same_inputs i i' ∨ collides sha256 [compliance_string i; compliance_string i'].
Proof using Type.
  intros Hu Hu' H1 H2 E.
  assert (∀ j d, build_compliance_commitment j = Ok d →
    hex_to_32 (ci_feasibility_root j) = Ok (Some (digest_or_zero (Some (ci_feasibility_root j)))) ∧
    ∀ q, ci_puf_digest j = Some q → hex_to_32 q = Ok (Some (digest_or_zero (Some q)))) as Hb.
  { clear. intros j d Hj. unfold build_compliance_commitment in Hj. inv_res. unfold digest_or_zero. simpl.
    apply hex_or_ok in Hj0. split; [by rewrite Hj0|]. intros q Hq. rewrite Hq in Hj1. inv_res.
    match goal with Hx : hex_or q _ = _ |- _ => apply hex_or_ok in Hx; by rewrite Hx end. }
  destruct (Hb i c H1) as (Hf & Hp), (Hb i' c' H2) as (Hf' & Hp'). clear Hb.
  apply compliance_commitment_string in H1, H2. rewrite H1, H2 in E.
  apply sha256_inj_or_collides in E as [E|]; [left|by right]. unfold compliance_string in E.
  apply app_inv_head in E. apply app_len_inj in E as [E1 E]; [|by rewrite !arr_length].
  apply app_len_inj in E as [E2 E]; [|by rewrite !length_be_bytes].
  apply arr_eq in E1. injection E as Etag Ep. apply arr_eq in Ep.
  split; [congruence|]. split.
  - unfold is_u64, u64_max in *.
    rewrite <-(of_be_bytes_be_bytes 8 (ci_replay_seq i)), <-(of_be_bytes_be_bytes 8 (ci_replay_seq i')) by (simpl; lia).
    by rewrite E2.
  - destruct (ci_puf_digest i), (ci_puf_digest i'); try done. by rewrite (Hp _ eq_refl), (Hp' _ eq_refl), Ep.
Qed.

(** The integers of a certificate have their width. *)
Definition cert_widths (c : LicenseCertificate) : Prop :=
  is_u64 (lc_expiry_unix_secs c) ∧ ∀ i, compliance_inputs c = Some i → is_u64 (ci_replay_seq i).
(** Two certificates for the same licence: features up to order, compliance inputs for
    version 2. *)
Definition same_licence (c c' : LicenseCertificate) : Prop :=
  lc_version c = lc_version c' ∧ lc_features c ≡ₚ lc_features c' ∧ lc_licensee c = lc_licensee c' ∧
  lc_expiry_unix_secs c = lc_expiry_unix_secs c' ∧
  (lc_version c = V2_VERSION → ∃ i i', compliance_inputs c = Some i ∧ compliance_inputs c' = Some i' ∧
     same_inputs i i').

Lemma content_inj c c' :
  lc_features c ≠ [] → lc_features c' ≠ [] → cert_widths c → cert_widths c' →
  content_root c = content_root c' → content_licensee c = content_licensee c' →
  (lc_features c ≡ₚ lc_features c' ∧ lc_licensee c = lc_licensee c' ∧
   lc_expiry_unix_secs c = lc_expiry_unix_secs c') ∨ collides sha256 (license_strings c ++ license_strings c').
Proof using Type.
  intros Hf Hf' [Hu _] [Hu' _] Hr Hl.
  assert (∀ l : list string, l ≠ [] → merge_sort String.le l ≠ []) as Hs.
  { intros l Hl0 E. apply Hl0, Permutation_nil_r. by rewrite <-E, merge_sort_Permutation. }
  apply licensee_hash_inj in Hl as [[Hl He]|?]; [| |done..].
  2:{ right. by eapply collides_pair; [| |done]; apply elem_of_app; [left|right]; right; left. }
  apply merkle_root_binding in Hr as [Hr|Hc]; [| |by apply Hs..].
  2:{ right. revert Hc. apply collides_mono. unfold license_strings. intros z.
      rewrite !elem_of_app, !elem_of_cons, !elem_of_app. tauto. }
  left. split; [|done]. rewrite <-(merge_sort_Permutation String.le (lc_features c)), Hr.
  apply merge_sort_Permutation.
Qed.

(** Claim C26. The proof digest of an accepted certificate fixes the licence: two accepted
    certificates with the same digest agree on the version, the set of features (with
    repetitions), the licensee, the expiry and, for version 2, the compliance inputs,
    unless two different ones of the strings that the two checks hash have one SHA-256
    hash. *)
Theorem license_digest_binds env env' now now' c c' lvl lvl' :
  verify_certificate env now c = Ok lvl → verify_certificate env' now' c' = Ok lvl' →
  cert_widths c → cert_widths c' → hex_to_32 (proof_digest c) = hex_to_32 (proof_digest c') →
  same_licence c c' ∨ collides sha256 (license_strings c ++ license_strings c').
Proof using Type.
  intros (Hf & m & Hm & Hd)%verify_certificate_ok (Hf' & m' & Hm' & Hd')%verify_certificate_ok Hw Hw' E.
  pose proof (digest_parts_string _ _ Hm) as Hs. pose proof (digest_parts_string _ _ Hm') as Hs'.
  assert (sha256 m = sha256 m') as [Emm |?]%sha256_inj_or_collides by congruence.
  2:{ right. subst m m'. by eapply collides_pair; [|apply elem_of_app; right; left|]; [apply elem_of_app; left; left|]. }
  assert (∀ (a b u v : arr 32) (r s : bytes), arr_bytes a ++ arr_bytes b ++ r =
    arr_bytes u ++ arr_bytes v ++ s → a = u ∧ b = v ∧ r = s) as Hsplit.
  { intros a b u v r s Es.
    apply app_len_inj in Es as [Ea Es]; [|by rewrite !arr_length].
    apply app_len_inj in Es as [Eb Es]; [|by rewrite !arr_length].
    split; [by apply arr_eq|]. split; [by apply arr_eq|done]. }
  clear Hs Hs' Hd Hd'. rewrite Emm in Hm. clear Emm m.
  (* The inversion strips the constant prefixes; different domains are absurd. *)
  destruct Hm' as [Hv'|i' comp' Hv' Hi' Hc']; inversion Hm as [Hv Em|i comp Hv Hi Hc Em]; clear Hm.
  - rewrite <-(app_nil_r (arr_bytes (content_licensee c))),
      <-(app_nil_r (arr_bytes (content_licensee c'))) in Em. apply Hsplit in Em as (Er & El & _).
    destruct (content_inj c c') as [(?&?&?)|]; try done; [left|by right].
    split; [congruence|]. do 3 (split; [done|]). intros Hv2. by rewrite Hv in Hv2.
  - apply Hsplit in Em as (Er & El & Ec). apply arr_eq in Ec.
    destruct (content_inj c c') as [(?&?&?)|]; try done; [|by right].
    destruct (compliance_commitment_inj i i' comp comp') as [Hsm|?]; try done; [by apply Hw|by apply Hw'|left|].
    + split; [congruence|]. do 3 (split; [done|]). intros _. by exists i, i'.
    + right. eapply collides_pair; [| |done]; apply elem_of_app; [left|right]; do 2 right; apply elem_of_app; right;
        rewrite ?Hi, ?Hi'; left.
Qed.
End license_spec.

(** ** What it leaves open *)

(** A certificate without its device digest and its proof. *)
Definition without_device (c : LicenseCertificate) : LicenseCertificate := {|
  lc_version := lc_version c; foundation_commitment := foundation_commitment c; rules_root := rules_root c;
  licensee_commitment := licensee_commitment c; proof_digest := proof_digest c; lc_licensee := lc_licensee c;
  lc_expiry_unix_secs := lc_expiry_unix_secs c; lc_features := lc_features c;
  foundation_poseidon := foundation_poseidon c; rules_root_poseidon := rules_root_poseidon c;
  licensee_commitment_poseidon := licensee_commitment_poseidon c;
  proof_digest_poseidon := proof_digest_poseidon c; feature_hashes_poseidon := feature_hashes_poseidon c;
  licensee_field := licensee_field c; snark_proof := None; lc_puf_digest := None;
  compliance_inputs := compliance_inputs c; compliance_commitment := compliance_commitment c |}.

(** The device digest and the proof of a version 1 certificate are not part of what the
    proof digest binds: without them it is accepted on every device. *)
Theorem license_v1_unbound `{SHA : Sha2, BN : Bn254Lib} env env' now c lvl :
  verify_certificate env now c = Ok lvl → lc_version c = V1_VERSION →
  verify_certificate env' now (without_device c) = Ok lvl.
Proof.
  unfold verify_certificate. intros Hv Hver. simpl. rewrite Hver in Hv |- *.
  rewrite !(bool_decide_eq_true_2 (V1_VERSION = V1_VERSION)) in Hv |- * by done. simpl in Hv |- *.
  inv_res. repeat match goal with
    | Hx : ?f = Ok _ |- context [?f] => rewrite Hx; clear Hx
    | Hx : ?f = false |- context [?f] => rewrite Hx; clear Hx
    | _ => progress simpl
    end. done.
Qed.

(** ** Concrete certificates *)

Section license_examples.
(** Field elements are not looked at. *)
Definition toy_bn254 : Bn254Lib := {|
  Fq := (); BnFr := (); Fq2 := (); G1Affine := (); G2Affine := (); fq_parse := λ _, Some tt;
  fr_parse := λ _, Some tt; Fq2_new := λ _ _, tt; G1_new_unchecked := λ _ _, tt;
  G2_new_unchecked := λ _ _, tt; verify_with_processed_vk := λ _ _ _, Some true |}.
#[local] Existing Instances real_sha256 toy_bn254.

(** The test [foundation_commitment_matches_constant], with SHA-256 itself. *)
Example foundation_commitment_matches_constant : arr_bytes compute_foundation = KNOWN_FOUNDATION.
Proof. vm_compute. reflexivity. Qed.

Definition ex_cert : LicenseCertificate := mint_certificate "pirate@example.com" [FTui; FExport] 1803262500.
(** The certificate bound to a device. *)
Definition ex_bound : LicenseCertificate := {|
  lc_version := lc_version ex_cert; foundation_commitment := foundation_commitment ex_cert;
  rules_root := rules_root ex_cert; licensee_commitment := licensee_commitment ex_cert;
  proof_digest := proof_digest ex_cert; lc_licensee := lc_licensee ex_cert;
  lc_expiry_unix_secs := lc_expiry_unix_secs ex_cert; lc_features := lc_features ex_cert;
  foundation_poseidon := None; rules_root_poseidon := None; licensee_commitment_poseidon := None;
  proof_digest_poseidon := None; feature_hashes_poseidon := None; licensee_field := None;
  snark_proof := None; lc_puf_digest := Some (rules_root ex_cert); compliance_inputs := None;
  compliance_commitment := None |}.
Definition ex_level : LicenseLevel := Pro [FExport; FTui] "pirate@example.com" 1803262500.

(** The device digest is enforced while it is there, and not when it is taken out. *)
Example device_enforced :
  verify_certificate None 1700000000 ex_bound = Err PufUnavailable ∧
  verify_certificate (Some (rules_root ex_cert)) 1700000000 ex_bound = Ok ex_level ∧
  verify_certificate None 1700000000 (without_device ex_bound) = Ok ex_level.
Proof. split; [|split]; vm_compute; reflexivity. Qed.
(** A multi-byte character across a slice makes the check panic, also from the environment. *)
Example hex_slice_panics :
  hex_to_32 (of_bytes (x61 :: xc3 :: xa9 :: replicate 61 x30)) = Err LicensePanic.
Proof. vm_compute. reflexivity. Qed.
(** A sign passes for a digit. *)
Example hex_sign_accepted :
  match hex_to_32 (of_bytes (concat (replicate 32 [x2b; x31]))) with
  | Ok (Some a) => arr_bytes a
  | _ => []
  end = replicate 32 x01.
Proof. vm_compute. reflexivity. Qed.

Lemma license_anyone_mints_witness :
  (1700000000 < 1803262500)%N ∧
  ∃ fs, fs ≡ₚ [FTui; FExport] ∧
    verify_certificate None 1700000000 ex_cert = Ok (Pro fs "pirate@example.com" 1803262500).
Proof.
  split; [lia|].
  destruct (license_anyone_mints None 1700000000 "pirate@example.com" [FTui; FExport] 1803262500)
    as (fs & Hfs & Hv & _); [vm_compute; reflexivity|discriminate|lia|].
  exists fs. split; [exact Hfs|exact Hv].
Defined.

Lemma license_digest_binds_witness :
  same_licence ex_bound ex_cert ∨ collides sha256 (license_strings ex_bound ++ license_strings ex_cert).
Proof.
  apply (license_digest_binds (Some (rules_root ex_cert)) None 1700000000 1700000000 ex_bound ex_cert
    ex_level ex_level).
  - vm_compute. reflexivity.
  - vm_compute. reflexivity.
  - split; [vm_compute; discriminate|discriminate].
  - split; [vm_compute; discriminate|discriminate].
  - reflexivity.
Defined.
End license_examples.
