(* ===== verification/Trace.v ===== *)
(** * The session recorder: [src/src/halo/trace.rs], [halo/schema.rs], [halo/pricing.rs]

    Sessions, their events and summaries are JSON texts cut into 64-bit cells of a
    database of its own.  A [TraceWriter] holds the whole database in memory; the pair of
    its files is the state of the calls that touch them.  The clock, the file with the
    prices and the random identifiers are arguments; [serde_json], [chrono] and the
    directory of the files are outside.  Counters wrap, as in a release build.  The copy
    that [end_session] sends to the library is left out: its failures are ignored. *)
From S2P Require Export Persistence Ledger.

(** ** [schema.rs] *)

Inductive SessionStatus := SRunning | SCompleted | SFailed | SInterrupted.
Inductive EventType :=
| AgentInitialized | PromptSent | ResponseReceived | AgentDeinitialized | Thinking | Assistant
| ToolCall | ToolResult | McpToolCall | McpToolResult | FileChange | BashCommand | GenesisHarvest
| EvError | SubagentSpawn | SystemMessage | EvRaw.

Record SessionMetadata := {
  sm_session_id : string;
  sm_agent : string;
  sm_model : option string;
  sm_started_at : N;
  sm_ended_at : option N;
  sm_prompt : option string;
  sm_status : SessionStatus;
  sm_user_id : option string;
  sm_machine_id : option string;
  sm_puf_digest : option string
}.
Record SessionSummary := {
  ss_input_tokens : N;
  ss_output_tokens : N;
  ss_cache_read_tokens : N;
  ss_cost_usd : f64;
  ss_tool_calls : N;
  ss_mcp_tool_calls : N;
  ss_files_modified : N;
  ss_files_created : N;
  ss_files_read : N;
  ss_bash_commands : N;
  ss_errors : N;
  ss_subagents_spawned : N;
  ss_event_count : N;
  ss_duration_secs : N;
  ss_model : option string
}.
Record PaidOperation := {
  po_operation_id : string;
  po_timestamp : N;
  po_operation_type : string;
  po_credits_spent : N;
  po_usd_equivalent : f64;
  po_session_id : option string;
  po_result_digest : option string;
  po_success : bool;
  po_error : option string
}.

Definition SESSION_PREFIX : string := "halo:session:".
Definition EVENT_PREFIX : string := "halo:event:".
Definition SUMMARY_PREFIX : string := "halo:summary:".
Definition IDX_AGENT_PREFIX : string := "halo:idx:agent:".
Definition IDX_DATE_PREFIX : string := "halo:idx:date:".
Definition IDX_MODEL_PREFIX : string := "halo:idx:model:".
Definition COSTS_DAILY_PREFIX : string := "halo:costs:daily:".
Definition COSTS_MONTHLY_PREFIX : string := "halo:costs:monthly:".
Definition PAID_OPS_PREFIX : string := "halo:paid:".
Definition PAID_DAILY_PREFIX : string := "halo:paid:daily:".
Definition SKILL_PREFIX : string := "skill:".

(** ** [pricing.rs] *)

Module Pricing.
Record ModelPricing := mk_ModelPricing {
  input_per_mtok : f64;
  output_per_mtok : f64;
  cache_read_per_mtok : option f64
}.
(** A decimal literal [n / d]: both are exact, so the division rounds as the literal does. *)
Definition lit (n d : N) : f64 := fdiv (f64_of_N n) (f64_of_N d).
Definition default_pricing : gmap string ModelPricing := list_to_map [
  ("claude-opus-4-6", mk_ModelPricing (lit 15 1) (lit 75 1) (Some (lit 15 10)));
  ("claude-sonnet-4-6", mk_ModelPricing (lit 3 1) (lit 15 1) (Some (lit 3 10)));
  ("claude-haiku-4-5", mk_ModelPricing (lit 8 10) (lit 4 1) (Some (lit 8 100)));
  ("o3", mk_ModelPricing (lit 10 1) (lit 40 1) None);
  ("o4-mini", mk_ModelPricing (lit 110 100) (lit 440 100) None);
  ("gpt-4.1", mk_ModelPricing (lit 2 1) (lit 8 1) None);
  ("gemini-2.5-pro", mk_ModelPricing (lit 125 100) (lit 10 1) None);
  ("gemini-2.5-flash", mk_ModelPricing (lit 15 100) (lit 60 100) None)].
Definition calculate_cost (model : string) (input output cache : N) (pricing : gmap string ModelPricing) : f64 :=
  let p := default (mk_ModelPricing f64_zero f64_zero None) (pricing !! model) in
  let per_m n := fdiv (f64_of_N n) (f64_of_N 1000000) in
  fadd (fadd (fmul (per_m input) (input_per_mtok p)) (fmul (per_m output) (output_per_mtok p)))
    (fmul (per_m cache) (default f64_zero (cache_read_per_mtok p))).
Definition calculate_marked_up_cost (model : string) (input output cache : N)
    (pricing : gmap string ModelPricing) (markup_pct : f64) : f64 * f64 :=
  let base := calculate_cost model input output cache pricing in
  let markup := fmul base (fdiv markup_pct (f64_of_N 100)) in
  (base, fadd base markup).
End Pricing.

(** [x.round() as u64] for a positive value: half away from zero; negative ones give 0. *)
Definition round_to_u64 (x : f64) : N :=
  match x with
  | S754_finite false m e =>
      if (0 <=? e)%Z then f64_to_N x
      else N.min (Z.to_N ((2 * Z.pos m + 2 ^ (- e)) / 2 ^ (- e + 1))) u64_max
  | _ => f64_to_N x
  end.

(** ** Outside *)

(** [chrono::DateTime::from_timestamp] with the two formats; [None] is out of range. *)
Class ChronoLabels := { fmt_day : Z → option string; fmt_month : Z → option string }.
Definition day_label `{ChronoLabels} (ts : N) : string := default "1970-01-01" (fmt_day (u64_to_i64 ts)).
Definition month_label `{ChronoLabels} (ts : N) : string := default "1970-01" (fmt_month (u64_to_i64 ts)).

Section event.
Context `{SerdeJson}.
Record TraceEvent := {
  te_seq : N;
  te_timestamp : N;
  te_event_type : EventType;
  te_content : JsonValue;
  te_input_tokens : option N;
  te_output_tokens : option N;
  te_cache_read_tokens : option N;
  te_tool_name : option string;
  te_tool_input : option JsonValue;
  te_tool_output : option JsonValue;
  te_file_path : option string;
  te_content_hash : string
}.
End event.

(** [serde_json] on the four records. *)
Class TraceJson `{SerdeJson} := {
  session_to_vec : SessionMetadata → option bytes;
  session_from_slice : bytes → option SessionMetadata;
  tevent_to_vec : TraceEvent → option bytes;
  tevent_from_slice : bytes → option TraceEvent;
  summary_to_vec : SessionSummary → option bytes;
  summary_from_slice : bytes → option SessionSummary;
  paid_to_vec : PaidOperation → option bytes;
  paid_from_slice : bytes → option PaidOperation
}.

Inductive TraceError :=
| TeLoad (e : PersistenceError)
| TeNewPanic (e : SecurityPolicyError) (** the [expect] of [NucleusDb::new] *)
| TeInitWal (e : PersistenceError)
| TePricing (e : string)
| TeSerialize (what : string)
| TeCommit (e : CommitError)
| TeNotStarted
| TePersist (e : PersistenceError)
| TeMissingChunk (key : string)
| TeCapacityPanic (** [Vec::with_capacity] beyond [isize::MAX] bytes *)
| TeParse (what : string)
| TeSkillId.

(** ** Bytes in cells *)

(** [bytes.chunks(8)], little-endian, the last chunk filled up with zeros. *)
Definition bytes_to_u64_chunks (b : bytes) : list N := chunk_words of_le_bytes (length b) b.
Definition u64_chunks_to_bytes (cs : list N) : bytes := cs ≫= le_bytes 8.

Definition blob_len_key (base : string) : string := base +:+ ":len".
Definition blob_chunk_key (base : string) (i : nat) : string := base +:+ ":chunk:" +:+ dec_nat i.
(** What [append_blob_writes] pushes. *)
Definition blob_writes (base : string) (payload : bytes) : list (string * N) :=
  (blob_len_key base, N.of_nat (length payload)) ::
  imap (λ i chunk, (blob_chunk_key base i, chunk)) (bytes_to_u64_chunks payload).

Definition session_base_key (sid : string) : string := SESSION_PREFIX +:+ sid.
Definition event_base_key (sid : string) (seq : N) : string := EVENT_PREFIX +:+ sid +:+ ":" +:+ dec seq.
Definition summary_base_key (sid : string) : string := SUMMARY_PREFIX +:+ sid.

Definition summary_zero : SessionSummary := {|
  ss_input_tokens := 0; ss_output_tokens := 0; ss_cache_read_tokens := 0; ss_cost_usd := f64_zero;
  ss_tool_calls := 0; ss_mcp_tool_calls := 0; ss_files_modified := 0; ss_files_created := 0;
  ss_files_read := 0; ss_bash_commands := 0; ss_errors := 0; ss_subagents_spawned := 0;
  ss_event_count := 0; ss_duration_secs := 0; ss_model := None |}.
Definition summary_model (s : SessionSummary) (m : option string) : SessionSummary := {|
  ss_input_tokens := ss_input_tokens s; ss_output_tokens := ss_output_tokens s;
  ss_cache_read_tokens := ss_cache_read_tokens s; ss_cost_usd := ss_cost_usd s;
  ss_tool_calls := ss_tool_calls s; ss_mcp_tool_calls := ss_mcp_tool_calls s;
  ss_files_modified := ss_files_modified s; ss_files_created := ss_files_created s;
  ss_files_read := ss_files_read s; ss_bash_commands := ss_bash_commands s; ss_errors := ss_errors s;
  ss_subagents_spawned := ss_subagents_spawned s; ss_event_count := ss_event_count s;
  ss_duration_secs := ss_duration_secs s; ss_model := m |}.
(** The three fields [end_session] fills in. *)
Definition summary_final (s : SessionSummary) (duration : N) (m : option string) (cost : f64) : SessionSummary := {|
  ss_input_tokens := ss_input_tokens s; ss_output_tokens := ss_output_tokens s;
  ss_cache_read_tokens := ss_cache_read_tokens s; ss_cost_usd := cost;
  ss_tool_calls := ss_tool_calls s; ss_mcp_tool_calls := ss_mcp_tool_calls s;
  ss_files_modified := ss_files_modified s; ss_files_created := ss_files_created s;
  ss_files_read := ss_files_read s; ss_bash_commands := ss_bash_commands s; ss_errors := ss_errors s;
  ss_subagents_spawned := ss_subagents_spawned s; ss_event_count := ss_event_count s;
  ss_duration_secs := duration; ss_model := m |}.

Section trace.
Context `{Sha2, Ristretto, KzgLib, SigLib, SJ : SerdeJson, Libm, Redb, PersistJson, CL : ChronoLabels,
  JA : !JsonAccess, TJ : !TraceJson}.

(** [cli::default_witness_cfg] with the algorithm it already has. *)
Definition halo_witness_cfg (env : string → option string) : WitnessConfig :=
  let seed := match env "NUCLEUSDB_WITNESS_SEED" with
              | Some v => if is_blank v then "nucleusdb-cli-default-seed-v1" else v
              | None => "nucleusdb-cli-default-seed-v1"
              end in
  with_seed env 2 ["w1"; "w2"; "w3"] seed.

(** ** Reading *)

(** What the constructor of a database may read, the clock and the environment. *)
Record TraceEnv := mk_TraceEnv {
  te_artifacts : string → result TrustedSetupError TrustedSetupArtifact;
  te_env : string → option string;
  te_now : N
}.

Definition load_db (E : TraceEnv) (file : option RedbFile) : result TraceError NucleusDb :=
  match file with
  | None =>
      map_err TeNewPanic
        (db_new (te_artifacts E) (te_now E) (mk_State []) BkBinaryMerkle (halo_witness_cfg (te_env E)))
  | Some _ => map_err TeLoad (load_snapshot (te_artifacts E) (te_now E) file (halo_witness_cfg (te_env E)))
  end.

Definition read_value_by_key (db : NucleusDb) (key : string) : option N :=
  cell (keymap db) (values (state db)) key.

Fixpoint read_chunks (db : NucleusDb) (base : string) (n i : nat) : result TraceError (list N) :=
  match n with
  | O => mret []
  | S n' =>
      v ← ok_or (read_value_by_key db (blob_chunk_key base i)) (TeMissingChunk (blob_chunk_key base i));
      rest ← read_chunks db base n' (S i);
      mret (v :: rest)
  end.
Definition isize_max : N := 9223372036854775807.
Definition read_blob (db : NucleusDb) (base : string) : result TraceError (option bytes) :=
  match read_value_by_key db (blob_len_key base) with
  | None => mret None
  | Some len =>
      let chunk_count := ((len + 7) / 8)%N in
      _ ← throw_if (isize_max <? chunk_count * 8)%N TeCapacityPanic;
      chunks ← read_chunks db base (N.to_nat chunk_count) 0;
      mret (Some (take (N.to_nat len) (u64_chunks_to_bytes chunks)))
  end.

(** The blobs under a prefix, in key order, that parse. *)
Fixpoint read_all {T} (db : NucleusDb) (parse : bytes → option T) (bases : list string)
  : result TraceError (list T) :=
  match bases with
  | [] => mret []
  | base :: bases' =>
      blob ← read_blob db base;
      rest ← read_all db parse bases';
      mret (option_list (b ← blob; parse b) ++ rest)
  end.
Definition trim_len (key : string) : string := trim_end_matches (str_len key) ":len" key.
Definition blob_bases (db : NucleusDb) (prefix : string) : list string :=
  trim_len <$> filter (λ key, starts_with key prefix && ends_with key ":len" = true) (map_keys (forward (keymap db))).

(** [sort_by(|a, b| b.t.cmp(&a.t))]: stable, newest first. *)
Definition newer {T} (time : T → N) (x y : T) : Prop := (time y ≤ time x)%N.
#[export] Instance newer_dec {T} (time : T → N) : RelDecision (newer time).
Proof. intros x y. unfold newer. apply _. Defined.

Definition sessions_of (db : NucleusDb) : result TraceError (list SessionMetadata) :=
  out ← read_all db session_from_slice (blob_bases db SESSION_PREFIX);
  mret (merge_sort (newer sm_started_at) out).
Definition list_sessions (E : TraceEnv) (file : option RedbFile) : result TraceError (list SessionMetadata) :=
  db ← load_db E file; sessions_of db.

Definition session_summary (E : TraceEnv) (file : option RedbFile) (sid : string)
  : result TraceError (option SessionSummary) :=
  db ← load_db E file;
  blob ← read_blob db (summary_base_key sid);
  match blob with
  | None => mret None
  | Some b => s ← ok_or (summary_from_slice b) (TeParse "session summary"); mret (Some s)
  end.

(** The number in an event key. *)
Definition event_seq_of_key (prefix key : string) : option N :=
  if starts_with key prefix && ends_with key ":len" then
    '(_, seq_part) ← rsplit_once ":" (trim_len key);
    parse_u64 seq_part
  else None.
(** Sorting and then dropping neighbours that are equal leaves every number once, in order. *)
Definition event_seqs (db : NucleusDb) (sid : string) : list N :=
  let prefix := EVENT_PREFIX +:+ sid +:+ ":" in
  merge_sort N.le (remove_dups (omap (event_seq_of_key prefix) (map_keys (forward (keymap db))))).
Definition events_of (db : NucleusDb) (sid : string) : result TraceError (list TraceEvent) :=
  read_all db tevent_from_slice (event_base_key sid <$> event_seqs db sid).
Definition session_events (E : TraceEnv) (file : option RedbFile) (sid : string)
  : result TraceError (list TraceEvent) :=
  db ← load_db E file; events_of db sid.

(** ** The writer *)

Record TraceWriter := mk_TraceWriter {
  tw_session_id : string;
  tw_db : NucleusDb;
  tw_seq : N;
  tw_summary : SessionSummary;
  tw_meta : option SessionMetadata;
  tw_pricing : gmap string Pricing.ModelPricing
}.
Definition tw_set_db (w : TraceWriter) (db : NucleusDb) : TraceWriter :=
  mk_TraceWriter (tw_session_id w) db (tw_seq w) (tw_summary w) (tw_meta w) (tw_pricing w).
Definition tw_set_seq (w : TraceWriter) (seq : N) : TraceWriter :=
  mk_TraceWriter (tw_session_id w) (tw_db w) seq (tw_summary w) (tw_meta w) (tw_pricing w).
Definition tw_set_summary (w : TraceWriter) (s : SessionSummary) : TraceWriter :=
  mk_TraceWriter (tw_session_id w) (tw_db w) (tw_seq w) s (tw_meta w) (tw_pricing w).
Definition tw_set_meta (w : TraceWriter) (m : option SessionMetadata) : TraceWriter :=
  mk_TraceWriter (tw_session_id w) (tw_db w) (tw_seq w) (tw_summary w) m (tw_pricing w).

(** The snapshot file and the log file. *)
Definition Disk : Type := option RedbFile * option RedbFile.

(** [TraceWriter::new]; [pricing] is what [load_or_default] gives. *)
Definition writer_new (E : TraceEnv) (pricing : result string (gmap string Pricing.ModelPricing))
  : action Disk TraceError TraceWriter := λ '(snap, wal),
  match load_db E snap with
  | Err e => ((snap, wal), Err e)
  | Ok db =>
      let '(wal', r) := init_wal db wal in
      ((snap, wal'),
       _ ← map_err TeInitWal r;
       pricing ← map_err TePricing pricing;
       mret (mk_TraceWriter ("sess-" +:+ dec (te_now E)) db 0 summary_zero None pricing))
  end.

Definition commit_writes (ws : list (string * N)) (now : N) : action TraceWriter TraceError () := λ w,
  match ws with
  | [] => (w, Ok tt)
  | _ =>
      let db := tw_db w in
      let '(km, delta) := put_keys (keymap db) ws in
      let '(db', r) := commit (mk_Delta delta) [] now
        (set_typed db km (type_map db) (blob_store db) (vector_index db)) in
      (tw_set_db w db', map_err TeCommit ((λ _, tt) <$> r))
  end.

Definition session_writes (meta : SessionMetadata) (raw : bytes) : list (string * N) :=
  let tail := ":" +:+ dec (sm_started_at meta) +:+ ":" +:+ sm_session_id meta in
  blob_writes (session_base_key (sm_session_id meta)) raw ++
  [(IDX_AGENT_PREFIX +:+ sm_agent meta +:+ tail, 1%N);
   (IDX_DATE_PREFIX +:+ day_label (sm_started_at meta) +:+ tail, 1%N)] ++
  match sm_model meta with Some model => [(IDX_MODEL_PREFIX +:+ model +:+ tail, 1%N)] | None => [] end.
Definition start_session (meta : SessionMetadata) (now : N) : action TraceWriter TraceError () :=
  _ ← modify (λ w, mk_TraceWriter (sm_session_id meta) (tw_db w) 0 (summary_model summary_zero (sm_model meta))
                     (tw_meta w) (tw_pricing w));
  raw ← lift_res (ok_or (session_to_vec meta) (TeSerialize "session metadata"));
  _ ← commit_writes (session_writes meta raw) now;
  modify (λ w, tw_set_meta w (Some meta)).

Definition meta_model (m : SessionMetadata) (model : option string) : SessionMetadata := {|
  sm_session_id := sm_session_id m; sm_agent := sm_agent m; sm_model := model;
  sm_started_at := sm_started_at m; sm_ended_at := sm_ended_at m; sm_prompt := sm_prompt m;
  sm_status := sm_status m; sm_user_id := sm_user_id m; sm_machine_id := sm_machine_id m;
  sm_puf_digest := sm_puf_digest m |}.
Definition update_session_model (model : string) (w : TraceWriter) : TraceWriter :=
  tw_set_summary (tw_set_meta w ((λ m, meta_model m (Some model)) <$> tw_meta w))
    (summary_model (tw_summary w) (Some model)).

Definition event_content_hash (content : JsonValue) : string := hash_hex CURRENT (json_to_vec content).
Definition event_final (e : TraceEvent) (seq now : N) : TraceEvent := {|
  te_seq := seq; te_timestamp := if (te_timestamp e =? 0)%N then now else te_timestamp e;
  te_event_type := te_event_type e; te_content := te_content e; te_input_tokens := te_input_tokens e;
  te_output_tokens := te_output_tokens e; te_cache_read_tokens := te_cache_read_tokens e;
  te_tool_name := te_tool_name e; te_tool_input := te_tool_input e; te_tool_output := te_tool_output e;
  te_file_path := te_file_path e;
  te_content_hash := if is_blank (te_content_hash e) then event_content_hash (te_content e)
                     else te_content_hash e |}.

(** What an event adds to the counters of the summary. *)
Definition tally (s : SessionSummary) (e : TraceEvent) : SessionSummary :=
  let add n (c : bool) := if c then wrapping_add64 n 1 else n in
  let ty := te_event_type e in
  let op := default "modify" (json_get (te_content e) "op" ≫= json_as_str) in
  let file := match ty with FileChange => true | _ => false end in
  let created := file && eq_ignore_ascii_case op "create" in
  let read := file && negb (eq_ignore_ascii_case op "create") && eq_ignore_ascii_case op "read" in
  {| ss_input_tokens := wrapping_add64 (ss_input_tokens s) (default 0%N (te_input_tokens e));
     ss_output_tokens := wrapping_add64 (ss_output_tokens s) (default 0%N (te_output_tokens e));
     ss_cache_read_tokens := wrapping_add64 (ss_cache_read_tokens s) (default 0%N (te_cache_read_tokens e));
     ss_cost_usd := ss_cost_usd s;
     ss_tool_calls := add (ss_tool_calls s) (match ty with ToolCall => true | _ => false end);
     ss_mcp_tool_calls := add (ss_mcp_tool_calls s) (match ty with McpToolCall => true | _ => false end);
     ss_files_modified := add (ss_files_modified s) (file && negb read);
     ss_files_created := add (ss_files_created s) created;
     ss_files_read := add (ss_files_read s) read;
     ss_bash_commands := add (ss_bash_commands s) (match ty with BashCommand => true | _ => false end);
     ss_errors := add (ss_errors s) (match ty with EvError => true | _ => false end);
     ss_subagents_spawned := add (ss_subagents_spawned s) (match ty with SubagentSpawn => true | _ => false end);
     ss_event_count := wrapping_add64 (ss_event_count s) 1;
     ss_duration_secs := ss_duration_secs s;
     ss_model := ss_model s |}.

Definition write_event (event : TraceEvent) (now : N) : action TraceWriter TraceError () :=
  w ← get_state;
  _ ← lift_res (throw_if (negb (bool_decide (is_Some (tw_meta w)))) TeNotStarted);
  let seq := wrapping_add64 (tw_seq w) 1 in
  let event := event_final event seq now in
  _ ← modify (λ w, tw_set_summary (tw_set_seq w seq) (tally (tw_summary w) event));
  raw ← lift_res (ok_or (tevent_to_vec event) (TeSerialize "trace event"));
  commit_writes (blob_writes (event_base_key (tw_session_id w) seq) raw) now.

Definition meta_ended (m : SessionMetadata) (ended : N) (status : SessionStatus) : SessionMetadata := {|
  sm_session_id := sm_session_id m; sm_agent := sm_agent m; sm_model := sm_model m;
  sm_started_at := sm_started_at m; sm_ended_at := Some ended; sm_prompt := sm_prompt m;
  sm_status := status; sm_user_id := sm_user_id m; sm_machine_id := sm_machine_id m;
  sm_puf_digest := sm_puf_digest m |}.

(** What [append_cost_aggregate_writes] pushes: totals in ten-thousandths of a dollar. *)
Definition cost_aggregate_writes (w : TraceWriter) (prefix : string) : list (string * N) :=
  let s := tw_summary w in
  let next field n :=
    let key := prefix +:+ field in
    (key, saturating_add64 (default 0%N (read_value_by_key (tw_db w) key)) n) in
  [next ":sessions" 1%N; next ":input_tokens" (ss_input_tokens s); next ":output_tokens" (ss_output_tokens s);
   next ":cache_tokens" (ss_cache_read_tokens s);
   next ":cost_x10000" (round_to_u64 (fmul (ss_cost_usd s) (f64_of_N 10000)))].

(** A call that does not touch the files. *)
Definition on_writer {T} (m : action TraceWriter TraceError T) : action (TraceWriter * Disk) TraceError T :=
  λ '(w, d), let '(w', r) := m w in ((w', d), r).
Definition persist : action (TraceWriter * Disk) TraceError () := λ '(w, d),
  let '(d', r) := persist_snapshot_and_sync_wal (tw_db w) d in ((w, d'), map_err TePersist r).

Definition end_writes (w : TraceWriter) (meta : SessionMetadata) (ended : N) (meta_raw summary_raw : bytes)
  : list (string * N) :=
  blob_writes (session_base_key (sm_session_id meta)) meta_raw ++
  blob_writes (summary_base_key (sm_session_id meta)) summary_raw ++
  cost_aggregate_writes w (COSTS_DAILY_PREFIX +:+ day_label ended) ++
  cost_aggregate_writes w (COSTS_MONTHLY_PREFIX +:+ month_label ended).
(** [end_session] up to its commit. *)
Definition end_record (status : SessionStatus) (now : N) : action TraceWriter TraceError () :=
  w ← get_state;
  meta0 ← lift_res (ok_or (tw_meta w) TeNotStarted);
  let meta := meta_ended meta0 now status in
  let duration := saturating_sub now (sm_started_at meta) in
  let s := tw_summary w in
  let cost := Pricing.calculate_cost (default "" (sm_model meta)) (ss_input_tokens s) (ss_output_tokens s)
                (ss_cache_read_tokens s) (tw_pricing w) in
  _ ← modify (λ w, tw_set_summary w (summary_final s duration (sm_model meta) cost));
  w ← get_state;
  meta_raw ← lift_res (ok_or (session_to_vec meta) (TeSerialize "final metadata"));
  summary_raw ← lift_res (ok_or (summary_to_vec (tw_summary w)) (TeSerialize "summary"));
  commit_writes (end_writes w meta now meta_raw summary_raw) now.
Definition end_session (status : SessionStatus) (now : N) : action (TraceWriter * Disk) TraceError SessionSummary :=
  _ ← on_writer (end_record status now);
  _ ← persist;
  wd ← get_state;
  mret (tw_summary wd.1).

(** ** Paid operations *)

Definition paid_writes (op : PaidOperation) (raw : bytes) : list (string * N) :=
  blob_writes (PAID_OPS_PREFIX +:+ po_operation_id op) raw ++
  [(PAID_DAILY_PREFIX +:+ day_label (po_timestamp op) +:+ ":" +:+ po_operation_id op, po_credits_spent op)].
Definition paid_record (op : PaidOperation) (now : N) : action TraceWriter TraceError () :=
  raw ← lift_res (ok_or (paid_to_vec op) (TeSerialize "paid operation"));
  commit_writes (paid_writes op raw) now.
Definition record_paid_operation (op : PaidOperation) (now : N) : action (TraceWriter * Disk) TraceError () :=
  _ ← on_writer (paid_record op now);
  persist.
(** [record_paid_operation_for_halo]: a writer of its own; [uuid] is the random identifier. *)
Definition record_paid_operation_for_halo (E : TraceEnv)
    (pricing : result string (gmap string Pricing.ModelPricing)) (uuid operation_type : string)
    (credits_spent : N) (session_id result_digest : option string) (success : bool) (error : option string)
  : action Disk TraceError () :=
  λ d, match writer_new E pricing d with
       | (d1, Err e) => (d1, Err e)
       | (d1, Ok w) =>
           let op := {|
             po_operation_id := uuid; po_timestamp := te_now E; po_operation_type := operation_type;
             po_credits_spent := credits_spent;
             po_usd_equivalent := fmul (f64_of_N credits_spent) (Pricing.lit 1 100);
             po_session_id := session_id; po_result_digest := result_digest; po_success := success;
             po_error := error |} in
           let '((_, d2), r) := record_paid_operation op (te_now E) (w, d1) in (d2, r)
       end.

Definition paid_operations (E : TraceEnv) (file : option RedbFile) : result TraceError (list PaidOperation) :=
  db ← load_db E file;
  out ← read_all db paid_from_slice (blob_bases db PAID_OPS_PREFIX);
  mret (merge_sort (newer po_timestamp) out).

(** The totals of successful operations under a label, in label order. *)
Definition paid_step (label : PaidOperation → string) (acc : gmap string (N * N * f64)) (op : PaidOperation)
  : gmap string (N * N * f64) :=
  if po_success op then
    let '(n, credits, usd) := default (0%N, 0%N, f64_zero) (acc !! label op) in
    <[label op := (wrapping_add64 n 1, saturating_add64 credits (po_credits_spent op),
                   fadd usd (po_usd_equivalent op))]> acc
  else acc.
Definition paid_totals (label : PaidOperation → string) (ops : list PaidOperation)
  : list (string * (N * N * f64)) :=
  entries (foldl (paid_step label) ∅ ops).
Definition paid_cost_buckets (E : TraceEnv) (file : option RedbFile) (monthly : bool)
  : result TraceError (list (string * (N * N * f64))) :=
  ops ← paid_operations E file;
  mret (paid_totals (λ op, if monthly then month_label (po_timestamp op) else day_label (po_timestamp op)) ops).
Definition paid_breakdown_by_operation_type (E : TraceEnv) (file : option RedbFile)
  : result TraceError (list (string * (N * N * f64))) :=
  ops ← paid_operations E file; mret (paid_totals po_operation_type ops).

(** ** Cost buckets *)

Record CostBucket := {
  cb_label : string;
  cb_sessions : N;
  cb_input_tokens : N;
  cb_output_tokens : N;
  cb_cache_tokens : N;
  cb_cost_usd : f64
}.
Definition cost_labels (db : NucleusDb) (prefix : string) : list string :=
  set_elems (list_to_set (omap (λ key, rest ← strip_prefix prefix key; fst <$> split_once ":" rest)
    (map_keys (forward (keymap db))))).
Definition cost_bucket (db : NucleusDb) (prefix label : string) : option CostBucket :=
  let field f := default 0%N (read_value_by_key db (prefix +:+ label +:+ f)) in
  let sessions := field ":sessions" in
  if (sessions =? 0)%N then None
  else Some {| cb_label := label; cb_sessions := sessions; cb_input_tokens := field ":input_tokens";
               cb_output_tokens := field ":output_tokens"; cb_cache_tokens := field ":cache_tokens";
               cb_cost_usd := fdiv (f64_of_N (field ":cost_x10000")) (f64_of_N 10000) |}.
Definition cost_buckets (E : TraceEnv) (file : option RedbFile) (monthly : bool)
  : result TraceError (list CostBucket) :=
  db ← load_db E file;
  let prefix := if monthly then COSTS_MONTHLY_PREFIX else COSTS_DAILY_PREFIX in
  mret (omap (cost_bucket db prefix) (cost_labels db prefix)).

(** ** Skills: JSON objects in the same database *)

Definition list_skills (E : TraceEnv) (file : option RedbFile) : result TraceError (list JsonValue) :=
  db ← load_db E file;
  out ← read_all db json_from_slice (blob_bases db SKILL_PREFIX);
  let name v := default "" (json_get v "name" ≫= json_as_str) in
  mret (snd <$> merge_sort key_le ((λ v, (name v, v)) <$> out)).
Definition get_skill (E : TraceEnv) (file : option RedbFile) (skill_id : string)
  : result TraceError (option JsonValue) :=
  db ← load_db E file;
  blob ← read_blob db (SKILL_PREFIX +:+ skill_id);
  match blob with
  | None => mret None
  | Some b => v ← ok_or (json_from_slice b) (TeParse "skill"); mret (Some v)
  end.
(** Loading, one commit of a blob, and saving. *)
Definition store_skill (E : TraceEnv) (db : NucleusDb) (base : string) (raw : bytes) : action Disk TraceError () :=
  λ d,
  let '(km, delta) := put_keys (keymap db) (blob_writes base raw) in
  match commit (mk_Delta delta) [] (te_now E)
          (set_typed db km (type_map db) (blob_store db) (vector_index db)) with
  | (_, Err e) => (d, Err (TeCommit e))
  | (db', Ok _) => let '(d', r) := persist_snapshot_and_sync_wal db' d in (d', map_err TePersist r)
  end.
Definition upsert_skill (E : TraceEnv) (skill : JsonValue) : action Disk TraceError () :=
  d ← get_state;
  skill_id ← lift_res (ok_or (json_get skill "skill_id" ≫= json_as_str) TeSkillId);
  db ← lift_res (load_db E d.1);
  store_skill E db (SKILL_PREFIX +:+ skill_id) (json_to_vec skill).
(** A deleted skill leaves a tombstone under its key. *)
Definition tombstone `{!JsonBuild} (skill_id : string) (now : N) : JsonValue :=
  json_object [("skill_id", json_str skill_id); ("deleted", json_bool true); ("deleted_at", json_u64 now)].
Definition delete_skill `{!JsonBuild} (E : TraceEnv) (skill_id : string)
  : action Disk TraceError bool :=
  d ← get_state;
  db ← lift_res (load_db E d.1);
  let base := SKILL_PREFIX +:+ skill_id in
  match read_value_by_key db (blob_len_key base) with
  | None => mret false
  | Some _ =>
      _ ← store_skill E db base (json_to_vec (tombstone skill_id (te_now E)));
      mret true
  end.
End trace.
