(* ===== verification/TraceSpec.v ===== *)
(** * Properties of the session recorder of [Trace.v]

    A recorded session reads back from the files as it was written; what two writers of
    one database do to each other; the attestation of sessions is in [AttestSpec]. *)
From S2P Require Import Trace ProtocolSpec Instances.

(** ** Bytes in cells *)

Lemma le_word l : length l = 8 → le_bytes 8 (of_le_bytes l) = l.
Proof. intros <-. apply le_bytes_of_le_bytes. Qed.
Lemma blob_words_roundtrip b : take (length b) (u64_chunks_to_bytes (bytes_to_u64_chunks b)) = b.
Proof. apply chunk_words_roundtrip, le_word. Qed.
Lemma length_blob_words b : N.of_nat (length (bytes_to_u64_chunks b)) = ((N.of_nat (length b) + 7) / 8)%N.
Proof. apply (length_chunk_words _ _ le_word). Qed.

Lemma elem_of_blob_writes base payload k v :
  (k, v) ∈ blob_writes base payload ↔
  (k = blob_len_key base ∧ v = N.of_nat (length payload)) ∨
  ∃ i, k = blob_chunk_key base i ∧ bytes_to_u64_chunks payload !! i = Some v.
Proof.
  unfold blob_writes. rewrite elem_of_cons, elem_of_lookup_imap. split.
  - intros [[= -> ->]|(i & x & [= -> ->] & Hx)]; [by left|right; by exists i].
  - intros [[-> ->]|(i & -> & Hx)]; [by left|right]. by exists i, v.
Qed.

Lemma blob_len_ne_chunk base i : blob_len_key base ≠ blob_chunk_key base i.
Proof.
  unfold blob_len_key, blob_chunk_key. intros E. apply (f_equal as_bytes) in E.
  rewrite !as_bytes_app in E. by apply app_inv_head in E.
Qed.
(** The writes of one blob agree on every key. *)
Lemma blob_writes_fun base payload k v v' :
  (k, v) ∈ blob_writes base payload → (k, v') ∈ blob_writes base payload → v = v'.
Proof.
  rewrite !elem_of_blob_writes. intros [[-> ->]|(i & -> & Hi)] [[Ek ->]|(j & Ek & Hj)].
  - done.
  - by apply blob_len_ne_chunk in Ek.
  - by symmetry in Ek; apply blob_len_ne_chunk in Ek.
  - unfold blob_chunk_key in Ek. apply str_app_inv_head in Ek.
    apply (str_app_inv_head ":chunk:"), (inj dec_nat) in Ek as ->. congruence.
Qed.

(** ** Keys *)

Lemma trim_len_app x : ends_with x ":len" = false → trim_len (x +:+ ":len") = x.
Proof.
  unfold ends_with. intros Hx. unfold trim_len. rewrite str_len_app.
  replace (str_len x + str_len ":len") with (S (str_len x + 3)) by (change (str_len ":len") with 4; lia).
  cbn [trim_end_matches]. rewrite strip_suffix_app. destruct (str_len x + 3); [done|].
  cbn [trim_end_matches]. by destruct (strip_suffix ":len" x).
Qed.
Lemma ends_with_app x s : ends_with (x +:+ s) s = true.
Proof. unfold ends_with. by rewrite strip_suffix_app. Qed.

(** A text that ends in a number does not end in [:len]. *)
Lemma dec_not_len x n : ends_with (x +:+ dec n) ":len" = false.
Proof.
  unfold ends_with. destruct (strip_suffix _ _) as [r|] eqn:E; [|done].
  apply strip_suffix_Some, (f_equal String.rev) in E. rewrite !str_rev_app in E.
  pose proof (dec_digits n) as Hd. rewrite <-str_forall_rev in Hd.
  destruct (String.rev (dec n)) as [|c t] eqn:Er.
  - destruct (dec_cons n) as (d & t & _ & Ed). rewrite Ed, str_rev_cons in Er.
    by destruct (String.rev t).
  - rewrite str_app_cons in E. change (String.rev ":len") with "nel:" in E. injection E as -> _.
    simpl in Hd. by bool_hyps.
Qed.

Definition event_prefix (sid : string) : string := EVENT_PREFIX +:+ sid +:+ ":".
Lemma event_base_prefix sid q : event_base_key sid q = event_prefix sid +:+ dec q.
Proof. unfold event_base_key, event_prefix. by rewrite !str_app_assoc. Qed.
Lemma event_key_inj sid q q' t t' :
  event_base_key sid q +:+ String ":" t = event_base_key sid q' +:+ String ":" t' → q = q' ∧ t = t'.
Proof.
  rewrite !event_base_prefix, !str_app_assoc. intros E%str_app_inv_head.
  apply (sep_inj is_digit) in E as [E ->]; [|done|apply dec_digits..]. by apply (inj dec) in E as ->.
Qed.
Lemma event_seq_key sid q : is_u64 q → event_seq_of_key (event_prefix sid) (blob_len_key (event_base_key sid q)) = Some q.
Proof.
  intros Hq. unfold event_seq_of_key, blob_len_key.
  assert (starts_with (event_base_key sid q +:+ ":len") (event_prefix sid) = true) as ->.
  { apply starts_with_true. exists (dec q +:+ ":len"). by rewrite event_base_prefix, str_app_assoc. }
  rewrite ends_with_app. simpl. rewrite trim_len_app by (rewrite event_base_prefix; apply dec_not_len).
  assert (event_base_key sid q = (EVENT_PREFIX +:+ sid) +:+ String ":" (dec q)) as ->
    by (unfold event_base_key; by rewrite str_app_assoc).
  rewrite rsplit_once_app by apply dec_no_colon. simpl. by apply parse_dec.
Qed.

(** The keys of a blob; blobs under different bases share none. *)
Definition blob_key (base k : string) : Prop := k = blob_len_key base ∨ ∃ i, k = blob_chunk_key base i.

Lemma chunk_not_len base base' i : blob_chunk_key base i ≠ blob_len_key base'.
Proof.
  unfold blob_chunk_key, blob_len_key. intros E. pose proof (dec_not_len (base +:+ ":chunk:") (N.of_nat i)) as Hn.
  unfold dec_nat in E. change (pretty i) with (dec (N.of_nat i)) in E.
  rewrite str_app_assoc, E, ends_with_app in Hn. done.
Qed.
Lemma blob_key_inj base base' k : blob_key base k → blob_key base' k → base = base'.
Proof.
  intros [->|[i ->]] [E|[j E]].
  - by apply str_app_inv_tail in E.
  - by symmetry in E; apply chunk_not_len in E.
  - by apply chunk_not_len in E.
  - unfold blob_chunk_key in E.
    change (":chunk:" +:+ dec_nat i) with (":chunk" +:+ String ":" (dec (N.of_nat i))) in E.
    change (":chunk:" +:+ dec_nat j) with (":chunk" +:+ String ":" (dec (N.of_nat j))) in E.
    rewrite <-!str_app_assoc in E. pose proof (dec_no_colon (N.of_nat i)) as Hi. pose proof (dec_no_colon (N.of_nat j)) as Hj.
    assert (rsplit_once ":" ((base +:+ ":chunk") +:+ String ":" (dec (N.of_nat i)))
      = Some (base' +:+ ":chunk", dec (N.of_nat j))) as Er by (by rewrite E, rsplit_once_app).
    rewrite rsplit_once_app in Er by done. injection Er as Er _. by apply str_app_inv_tail in Er.
Qed.
Lemma blob_writes_keys base payload k : k ∈ (blob_writes base payload).*1 → blob_key base k.
Proof.
  rewrite list_elem_of_fmap. intros ([k' v] & -> & [[-> _]|(i & -> & _)]%elem_of_blob_writes); [by left|right; by exists i].
Qed.
(** Every key of a blob extends its base. *)
Lemma blob_key_app base k : blob_key base k → ∃ t, k = base +:+ String ":" t.
Proof. intros [->|[i ->]]; [by exists "len"|by exists ("chunk:" +:+ dec_nat i)]. Qed.

Section blobs.
Context `{Sha2, Ristretto, KzgLib, SigLib, SJ : SerdeJson, Libm, Redb, PersistJson, CL : ChronoLabels,
  JA : !JsonAccess, TJ : !TraceJson}.
Implicit Types db : NucleusDb.

(** The cells of a database hold a blob. *)
Definition stored db (base : string) (payload : bytes) : Prop :=
  ∀ k v, (k, v) ∈ blob_writes base payload → read_value_by_key db k = Some v.
(** The size that a vector of bytes can have. *)
Definition vec_size (b : bytes) : Prop := (N.of_nat (length b) ≤ isize_max - 7)%N.

Lemma read_chunks_stored db base cs n i :
  (∀ j v, cs !! j = Some v → read_value_by_key db (blob_chunk_key base (i + j)) = Some v) →
  length cs = n → read_chunks db base n i = Ok cs.
Proof using Type.
  revert i cs. induction n as [|n IH]; intros i [|c cs] Hc Hn; try done. injection Hn as Hn.
  cbn [read_chunks]. pose proof (Hc 0 c eq_refl) as Hi. rewrite Nat.add_0_r in Hi. rewrite Hi. simpl.
  rewrite (IH (S i) cs); [done| |done]. intros j v Hj. rewrite Nat.add_succ_comm. by apply Hc.
Qed.

Lemma stored_read db base payload :
  stored db base payload → vec_size payload → read_blob db base = Ok (Some payload).
Proof using Type.
  intros Hs Hv. unfold read_blob. rewrite (Hs (blob_len_key base) (N.of_nat (length payload))) by
    (apply elem_of_blob_writes; left; split; reflexivity).
  rewrite <-length_blob_words.
  assert ((isize_max <? N.of_nat (length (bytes_to_u64_chunks payload)) * 8)%N = false) as ->.
  { apply N.ltb_ge. rewrite length_blob_words. unfold vec_size in Hv.
    pose proof (N.Div0.mul_div_le (N.of_nat (length payload) + 7) 8). unfold isize_max in *. lia. }
  simpl. rewrite !Nat2N.id, (read_chunks_stored db base (bytes_to_u64_chunks payload)); [| |done].
  - simpl. by rewrite blob_words_roundtrip.
  - intros j v Hj. apply Hs, elem_of_blob_writes. right. by exists j.
Qed.

(** ** Commits *)

(** What a successful commit of named cells leaves. *)
Record wrote db (ws : list (string * N)) db' : Prop := {
  wr_inv : db_inv db';
  wr_cells : ∀ k v, k ∈ ws.*1 → (∀ x, (k, x) ∈ ws → x = v) → read_value_by_key db' k = Some v;
  wr_other : ∀ k v, k ∉ ws.*1 → read_value_by_key db k = Some v → read_value_by_key db' k = Some v;
  wr_none : ∀ k, k ∉ ws.*1 → read_value_by_key db k = None →
    read_value_by_key db' k = None ∨ read_value_by_key db' k = Some 0%N;
  wr_keys : ∀ k, is_Some (KM.get (keymap db') k) ↔ is_Some (KM.get (keymap db) k) ∨ k ∈ ws.*1
}.

Lemma put_keys_dom kvs km km' ws k :
  put_keys km kvs = (km', ws) → is_Some (KM.get km' k) ↔ is_Some (KM.get km k) ∨ k ∈ kvs.*1.
Proof using Type.
  revert km km' ws. induction kvs as [|[key v] kvs IH]; intros km km' ws E.
  { injection E as <- <-. simpl. rewrite elem_of_nil. tauto. }
  cbn [put_keys] in E. destruct (KM.get_or_create km key) as [km1 idx] eqn:Ek.
  destruct (put_keys km1 kvs) as [km2 ws2] eqn:E2. injection E as <- <-.
  rewrite (IH km1 km2 ws2 E2). cbn [fmap list_fmap fst]. rewrite elem_of_cons.
  assert (is_Some (KM.get km1 k) ↔ is_Some (KM.get km k) ∨ k = key) as ->; [|tauto].
  unfold KM.get_or_create in Ek. unfold KM.get in *. destruct (forward km !! key) as [j|] eqn:Ej.
  - injection Ek as <- <-. split; [by left|]. intros [?| ->]; [done|]. by rewrite Ej.
  - injection Ek as <- <-. simpl. destruct (decide (k = key)) as [->|Hne].
    + rewrite lookup_insert_eq. split; [by right|done].
    + rewrite lookup_insert_ne by done. tauto.
Qed.

Lemma commit_writes_ok ws now w w' u :
  db_inv (tw_db w) → ws ≠ [] → commit_writes ws now w = (w', Ok u) →
  wrote (tw_db w) ws (tw_db w') ∧ w' = tw_set_db w (tw_db w').
Proof using Type.
  intros Hinv Hne. unfold commit_writes. destruct ws as [|p ws0]; [done|]. set (ws := p :: ws0) in *.
  clearbody ws. clear p ws0.
  destruct (put_keys (keymap (tw_db w)) ws) as [km delta] eqn:Ek.
  destruct (commit _ _ _ _) as [db1 [e|e]] eqn:Ec; intros [= <-]. split; [|done]. simpl.
  destruct (put_keys_cells _ _ (values (state (tw_db w))) _ _ (inv_keymap _ Hinv) Ek) as (Hwf & _ & Hkeep & Hset).
  set (dbk := set_typed _ _ _ _ _) in *.
  assert (db_inv dbk) as Hinvk by (by apply (db_inv_frame (tw_db w))).
  pose proof (commit_ok_post _ _ _ _ _ _ Ec) as Hpost. pose proof (cp_state _ _ _ _ _ _ Hpost) as Hs.
  destruct (commit_frame (mk_Delta delta) [] now dbk) as (Hkm & _). rewrite Ec in Hkm. simpl in Hkm.
  split; unfold read_value_by_key; rewrite ?Hkm, ?Hs.
  - by apply (commit_ok_inv _ _ _ _ _ _ Hinvk Ec).
  - intros k v Hk Hv. by apply Hset.
  - intros k v Hk Hv. by apply Hkeep.
  - intros k Hk Hn. destruct (cell km _ k) as [v|] eqn:Ec'; [right|by left].
    apply bind_Some in Ec' as (i & Hi & Hv). destruct (put_keys_spec _ _ _ _ (inv_keymap _ Hinv) Ek) as (_ & Hm & Hall).
    destruct (proj1 (put_keys_dom ws _ _ _ k Ek)) as [[i' Hi']|]; [by eexists| |done].
    pose proof (Hm _ _ Hi') as Hm'. assert (i' = i) as -> by congruence.
    unfold cell in Hn. rewrite Hi' in Hn. simpl in Hn. f_equal.
    pose proof (value_at_apply_writes delta (values (state (tw_db w))) i) as Hr.
    rewrite read_after_untouched in Hr.
    + unfold get_or in Hr. simpl in Hv, Hn. rewrite Hv, Hn in Hr. done.
    + intros ((j & x) & Ej & Hx)%list_elem_of_fmap. simpl in Ej. subst j. apply Hk.
      apply list_elem_of_fmap. exists (k, x). split; [done|].
      by apply (put_keys_fst _ _ _ i k Hall Hwf Hi).
  - intros k. by eapply put_keys_dom.
Qed.

(** A blob among the writes whose keys no other write uses. *)
Lemma wrote_blob db ws db' base payload :
  wrote db ws db' →
  (∀ k v, (k, v) ∈ blob_writes base payload →
     (k, v) ∈ ws ∧ ∀ x, (k, x) ∈ ws → (k, x) ∈ blob_writes base payload) →
  stored db' base payload.
Proof using Type.
  intros Hw Hb k v Hk. destruct (Hb k v Hk) as [Hin Hu]. apply (wr_cells _ _ _ Hw).
  - apply list_elem_of_fmap. by exists (k, v).
  - intros x Hx. apply Hu in Hx. by eapply blob_writes_fun.
Qed.
Lemma wrote_frame db ws db' base payload :
  wrote db ws db' → (∀ k, blob_key base k → k ∉ ws.*1) → stored db base payload → stored db' base payload.
Proof using Type.
  intros Hw Hf Hs k v Hk. apply (wr_other _ _ _ Hw); [|by apply Hs].
  apply Hf. apply (blob_writes_keys base payload), list_elem_of_fmap. by exists (k, v).
Qed.

(** Reading a blob still works after other writes. *)
Lemma wrote_readable db ws db' base :
  wrote db ws db' → (∀ k, blob_key base k → k ∉ ws.*1) →
  is_ok (read_blob db base) = true → is_ok (read_blob db' base) = true.
Proof using Type.
  intros Hw Hf. unfold read_blob. pose proof (Hf (blob_len_key base) (or_introl eq_refl)) as Hl.
  destruct (read_value_by_key db (blob_len_key base)) as [len|] eqn:E.
  - rewrite (wr_other _ _ _ Hw _ _ Hl E). destruct (throw_if _ _); [|done]. simpl.
    assert (∀ n i, is_ok (read_chunks db base n i) = true → read_chunks db' base n i = read_chunks db base n i) as Hc.
    { intros n. induction n as [|n IH]; intros i; [done|]. cbn [read_chunks].
      destruct (read_value_by_key db (blob_chunk_key base i)) as [v|] eqn:Ev; [|done].
      rewrite (wr_other _ _ _ Hw _ _ (Hf _ (or_intror (ex_intro _ i eq_refl))) Ev). simpl.
      destruct (read_chunks db base n (S i)) eqn:Er; [|done]. intros _. by rewrite IH, Er by (by rewrite Er). }
    intros Hok. rewrite Hc; [done|]. by destruct (read_chunks db base _ 0).
  - intros _. destruct (wr_none _ _ _ Hw _ Hl E) as [->| ->]; done.
Qed.

(** ** Reading many blobs *)

Lemma read_all_ok {T} db (parse : bytes → option T) (f : string → option bytes) bases :
  (∀ b, b ∈ bases → read_blob db b = Ok (f b)) →
  read_all db parse bases = Ok (omap (λ b, f b ≫= parse) bases).
Proof using Type.
  induction bases as [|b bases IH]; intros Hf; [done|]. cbn [read_all].
  rewrite (Hf b) by left. simpl. rewrite IH by (intros b' Hb'; apply Hf; by right). simpl.
  by destruct (f b ≫= parse).
Qed.
Lemma read_all_is_ok {T} db (parse : bytes → option T) bases :
  is_ok (read_all db parse bases) = true ↔ ∀ b, b ∈ bases → is_ok (read_blob db b) = true.
Proof using Type.
  induction bases as [|b bases IH]; cbn [read_all].
  { split; [|done]. by intros _ b' ?%not_elem_of_nil. }
  setoid_rewrite elem_of_cons. destruct (read_blob db b) as [o|e] eqn:E; simpl.
  - destruct (read_all db parse bases) eqn:Er; simpl in *.
    + split; [|done]. intros _ b' [->|Hb']; [by rewrite E|]. by apply IH.
    + split; [done|]. intros Hb. apply IH. auto.
  - split; [done|]. intros Hb. specialize (Hb b (or_introl eq_refl)). by rewrite E in Hb.
Qed.
Lemma elem_of_read_all {T} db (parse : bytes → option T) bases l b raw x :
  read_all db parse bases = Ok l → b ∈ bases → read_blob db b = Ok (Some raw) → parse raw = Some x → x ∈ l.
Proof using Type.
  revert l. induction bases as [|b' bases IH]; intros l; cbn [read_all]; [by intros _ ?%not_elem_of_nil|].
  intros Hr Hb Hraw Hp. inv_res. apply elem_of_cons in Hb as [->|Hb]; apply elem_of_app.
  - left. rewrite Hr0 in Hraw. injection Hraw as ->. simpl. rewrite Hp. by left.
  - right. by eapply IH.
Qed.

(** ** The events of a session *)

(** A record that survives its JSON, in the size that memory allows. *)
Definition fits {A} (to_vec : A → option bytes) (from_slice : bytes → option A) (a : A) : Prop :=
  ∃ raw, to_vec a = Some raw ∧ from_slice raw = Some a ∧ vec_size raw.

(** The events [es] are the recorded events of a session. *)
Record holds db (sid : string) (es : list TraceEvent) : Prop := {
  ho_events : ∀ i e, es !! i = Some e →
    ∃ raw, tevent_to_vec e = Some raw ∧ stored db (event_base_key sid (N.of_nat (S i))) raw;
  ho_fresh : ∀ q, q = 0%N ∨ (N.of_nat (length es) < q)%N →
    KM.get (keymap db) (blob_len_key (event_base_key sid q)) = None
}.

Lemma elem_of_event_seqs db sid q :
  is_u64 q → is_Some (KM.get (keymap db) (blob_len_key (event_base_key sid q))) → q ∈ event_seqs db sid.
Proof using Type.
  intros Hq Hk. unfold event_seqs. rewrite merge_sort_Permutation, elem_of_remove_dups, list_elem_of_omap.
  exists (blob_len_key (event_base_key sid q)). split; [by apply elem_of_map_keys|]. by apply event_seq_key.
Qed.
Lemma event_seqs_sorted db sid : StronglySorted N.le (event_seqs db sid) ∧ NoDup (event_seqs db sid).
Proof using Type.
  unfold event_seqs. split; [apply StronglySorted_merge_sort; apply _|].
  rewrite merge_sort_Permutation. apply NoDup_remove_dups.
Qed.

Lemma sorted_filter {A} (R : relation A) (P : A → Prop) `{∀ x, Decision (P x)} l :
  StronglySorted R l → StronglySorted R (filter P l).
Proof using Type.
  induction 1 as [|x l Hs IH Hx]; [constructor|]. rewrite filter_cons. destruct (decide (P x)); [|done].
  constructor; [done|]. rewrite Forall_forall in *. intros y [_ Hy]%list_elem_of_filter. by apply Hx.
Qed.
Lemma sorted_seq_N k n : StronglySorted N.le (N.of_nat <$> seq k n).
Proof using Type.
  revert k. induction n as [|n IH]; intros k; [constructor|]. cbn [seq fmap list_fmap]. constructor; [apply IH|].
  apply Forall_fmap, Forall_forall. intros j Hj%elem_of_seq. simpl. lia.
Qed.
Lemma omap_fmap {A B C} (g : A → B) (f : B → option C) (l : list A) : omap f (g <$> l) = omap (f ∘ g) l.
Proof using Type. induction l as [|x l IH]; [done|]. cbn. by rewrite IH. Qed.

(** Numbers in order that include 1 .. n, with nothing at the others. *)
Lemma omap_in_order {A} (f : N → option A) (qs : list N) (l : list A) :
  StronglySorted N.le qs → NoDup qs → (∀ i, i < length l → N.of_nat (S i) ∈ qs) →
  (∀ i, i < length l → f (N.of_nat (S i)) = l !! i) →
  (∀ q, q = 0%N ∨ (N.of_nat (length l) < q)%N → f q = None) → omap f qs = l.
Proof using Type.
  intros Hs Hnd Hin Hf Hout.
  set (inr := λ q, (1 <= q)%N ∧ (q <= N.of_nat (length l))%N).
  assert (omap f qs = omap f (filter inr qs)) as ->.
  { clear Hs Hnd Hin. induction qs as [|q qs IH]; [done|]. cbn [omap list_omap]. rewrite filter_cons.
    destruct (decide (inr q)) as [Hq|Hq]; cbn [omap list_omap]; rewrite IH; [done|].
    rewrite Hout; [done|]. unfold inr in Hq. lia. }
  assert (filter inr qs = N.of_nat <$> seq 1 (length l)) as ->.
  { apply (StronglySorted_unique N.le).
    - by apply sorted_filter.
    - apply sorted_seq_N.
    - apply NoDup_Permutation; [by apply NoDup_filter| |].
      + apply (NoDup_fmap_2 N.of_nat), NoDup_seq.
      + intros q. rewrite list_elem_of_filter, list_elem_of_fmap. setoid_rewrite elem_of_seq. split.
        * intros [[? ?] _]. exists (N.to_nat q). rewrite N2Nat.id. split; [done|lia].
        * intros (k & -> & Hk). split; [unfold inr; lia|].
          replace k with (S (k - 1)) by lia. apply Hin. lia. }
  clear Hs Hnd Hin Hout. revert f Hf. induction l as [|x l IH] using rev_ind; intros f Hf; [done|].
  rewrite length_app, Nat.add_1_r, seq_S, fmap_app, omap_app. f_equal.
  - apply IH. intros i Hi. rewrite Hf by (rewrite length_app; simpl; lia). by apply lookup_app_l.
  - cbn. change (1 + length l) with (S (length l)). rewrite (Hf (length l)) by (rewrite length_app; simpl; lia).
    rewrite lookup_app_r by lia. by rewrite Nat.sub_diag.
Qed.

Lemma holds_events db sid es :
  holds db sid es → (N.of_nat (length es) ≤ u64_max)%N → Forall (fits tevent_to_vec tevent_from_slice) es →
  events_of db sid = Ok es.
Proof using Type.
  intros [He Hfr] Hlen Hfit.
  assert (∀ i e, es !! i = Some e → ∃ raw, read_blob db (event_base_key sid (N.of_nat (S i))) = Ok (Some raw) ∧
    tevent_from_slice raw = Some e) as Hread.
  { intros i e Hi. destruct (He i e Hi) as (raw & Hto & Hst). exists raw.
    destruct (Forall_lookup_1 _ _ _ _ Hfit Hi) as (raw' & Hto' & Hfrom & Hsz).
    assert (raw' = raw) as -> by congruence. split; [by apply stored_read|done]. }
  set (f := λ q, match read_blob db (event_base_key sid q) with Ok o => o | Err _ => None end).
  assert (∀ q, q = 0%N ∨ (N.of_nat (length es) < q)%N → read_blob db (event_base_key sid q) = Ok None) as Hnone.
  { intros q Hq. apply Hfr in Hq. unfold read_blob, read_value_by_key, cell. by rewrite Hq. }
  assert (∀ q, read_blob db (event_base_key sid q) = Ok (f q)) as Hall.
  { intros q. unfold f. destruct (decide (q = 0 ∨ N.of_nat (length es) < q)%N) as [Hq|Hq]; [by rewrite Hnone|].
    destruct (lookup_lt_is_Some_2 es (N.to_nat q - 1)) as [e Hi]; [lia|].
    destruct (Hread _ _ Hi) as (raw & Hr & _). replace (N.of_nat (S (N.to_nat q - 1))) with q in Hr by lia. by rewrite Hr. }
  unfold events_of. rewrite (read_all_ok _ _ (λ b, match read_blob db b with Ok o => o | Err _ => None end)).
  2: { intros b (q & -> & _)%list_elem_of_fmap. apply Hall. }
  f_equal. rewrite omap_fmap. destruct (event_seqs_sorted db sid) as [Hs Hnd].
  apply omap_in_order; [done..| | |].
  - intros i Hi. apply elem_of_event_seqs; [unfold is_u64; lia|].
    apply lookup_lt_is_Some in Hi as [e Hi]. destruct (He _ _ Hi) as (raw & _ & Hst).
    specialize (Hst (blob_len_key (event_base_key sid (N.of_nat (S i)))) (N.of_nat (length raw))).
    unfold read_value_by_key, cell in Hst.
    destruct (KM.get _ _); [by eexists|]. discriminate Hst. apply elem_of_blob_writes. by left.
  - intros i Hi. apply lookup_lt_is_Some in Hi as [e Hi]. destruct (Hread _ _ Hi) as (raw & Hr & Hp).
    cbn [compose]. rewrite Hr, Hi. simpl. by rewrite Hp.
  - intros q Hq. cbn [compose]. by rewrite Hnone.
Qed.

(** ** The list of sessions *)

Definition sessions_readable db : Prop := is_ok (sessions_of db) = true.

Lemma sessions_readable_iff db :
  sessions_readable db ↔ ∀ b, b ∈ blob_bases db SESSION_PREFIX → is_ok (read_blob db b) = true.
Proof using Type.
  unfold sessions_readable, sessions_of. rewrite <-(read_all_is_ok db session_from_slice).
  by destruct (read_all _ _ _).
Qed.
Lemma elem_of_blob_bases db prefix b :
  b ∈ blob_bases db prefix ↔ ∃ k, is_Some (KM.get (keymap db) k) ∧ starts_with k prefix = true ∧
    ends_with k ":len" = true ∧ b = trim_len k.
Proof using Type.
  unfold blob_bases. rewrite list_elem_of_fmap. setoid_rewrite list_elem_of_filter. setoid_rewrite elem_of_map_keys.
  setoid_rewrite andb_true_iff. unfold KM.get. naive_solver.
Qed.

(** Cutting [:len] leaves the name of the family. *)
Lemma strip_len_family s r :
  starts_with s "halo:session" = true → strip_suffix ":len" s = Some r → starts_with r "halo:session" = true.
Proof using Type.
  intros [u ->]%starts_with_true E%strip_suffix_Some. rewrite !str_app_cons, str_app_nil in E.
  do 12 (destruct r as [|? r]; [discriminate E|rewrite str_app_cons in E; injection E as <- E]).
  apply starts_with_true. by exists r.
Qed.
Lemma trim_len_family k : starts_with k SESSION_PREFIX = true → starts_with (trim_len k) "halo:session" = true.
Proof using Type.
  intros Hk. assert (starts_with k "halo:session" = true) as Hs.
  { apply starts_with_true in Hk as [u ->]. apply starts_with_true. by exists (":" +:+ u). }
  clear Hk. unfold trim_len. generalize (str_len k). intros n. revert k Hs.
  induction n as [|n IH]; intros k Hs; [done|]. cbn [trim_end_matches].
  destruct (strip_suffix ":len" k) as [r|] eqn:E; [|done]. apply IH. by eapply strip_len_family.
Qed.
Lemma family_key b k : starts_with b "halo:session" = true → blob_key b k → starts_with k "halo:session" = true.
Proof using Type.
  intros [u ->]%starts_with_true [t ->]%blob_key_app. apply starts_with_true.
  exists (u +:+ String ":" t). by rewrite str_app_assoc.
Qed.

Lemma sessions_other db ws db' :
  wrote db ws db' → (∀ k, k ∈ ws.*1 → starts_with k "halo:session" = false) →
  sessions_readable db → sessions_readable db'.
Proof using Type.
  rewrite !sessions_readable_iff. intros Hw Hws Hr b Hb.
  apply elem_of_blob_bases in Hb as (k & Hk & Hpre & Hend & ->).
  pose proof (trim_len_family _ Hpre) as Hfam.
  apply (wrote_readable db ws); [done| |].
  - intros k' Hk' Hin. apply family_key in Hk'; [|done]. by rewrite Hws in Hk'.
  - apply Hr, elem_of_blob_bases. exists k. split; [|done]. apply (wr_keys _ _ _ Hw) in Hk as [|Hk]; [done|].
    apply Hws in Hk. apply starts_with_true in Hpre as [u ->]. by rewrite (proj2 (starts_with_true _ "halo:session")) in Hk by (by exists (":" +:+ u)).
Qed.

Lemma session_blob db db' sid raw rest :
  wrote db (blob_writes (session_base_key sid) raw ++ rest) db' →
  (∀ k, k ∈ rest.*1 → starts_with k "halo:session" = false) →
  ends_with (session_base_key sid) ":len" = false → vec_size raw → sessions_readable db →
  sessions_readable db' ∧ stored db' (session_base_key sid) raw ∧
  session_base_key sid ∈ blob_bases db' SESSION_PREFIX.
Proof using Type.
  intros Hw Hrest Hend Hsz Hr.
  assert (∀ k, blob_key (session_base_key sid) k → k ∉ rest.*1) as Hsep.
  { intros k Hk Hin. apply family_key in Hk; [|done]. by rewrite Hrest in Hk. }
  assert (stored db' (session_base_key sid) raw) as Hst.
  { apply (wrote_blob _ _ _ _ _ Hw). intros k v Hk. split; [apply elem_of_app; by left|].
    intros x [Hx|Hx]%elem_of_app; [done|]. destruct (Hsep k).
    - apply (blob_writes_keys _ raw), list_elem_of_fmap. by exists (k, v).
    - apply list_elem_of_fmap. by exists (k, x). }
  assert (session_base_key sid ∈ blob_bases db' SESSION_PREFIX) as Hin.
  { apply elem_of_blob_bases. exists (blob_len_key (session_base_key sid)). split; [|split; [|split]].
    - apply (wr_keys _ _ _ Hw). right. rewrite fmap_app. apply elem_of_app. left. by left.
    - apply starts_with_true. exists (sid +:+ ":len"). unfold blob_len_key, session_base_key. by rewrite str_app_assoc.
    - apply ends_with_app.
    - unfold blob_len_key. by rewrite trim_len_app. }
  split; [|done]. apply sessions_readable_iff. intros b Hb.
  destruct (decide (b = session_base_key sid)) as [->|Hne]; [by rewrite (stored_read _ _ raw)|].
  apply elem_of_blob_bases in Hb as (k & Hk & Hpre & Hel & ->). pose proof (trim_len_family _ Hpre) as Hfam.
  apply (wrote_readable db _ _ _ Hw).
  - intros k' Hk'. rewrite fmap_app, not_elem_of_app. split.
    + intros Hin'%blob_writes_keys. by pose proof (blob_key_inj _ _ _ Hk' Hin').
    + intros Hin'%Hrest. apply family_key in Hk'; [|done]. congruence.
  - rewrite sessions_readable_iff in Hr. apply Hr, elem_of_blob_bases. exists k. split; [|done].
    apply (wr_keys _ _ _ Hw) in Hk as [|Hk]; [done|]. rewrite fmap_app in Hk. apply elem_of_app in Hk as [Hk|Hk].
    + apply blob_writes_keys in Hk as [->|[i ->]].
      * destruct Hne. unfold blob_len_key. by rewrite trim_len_app.
      * apply starts_with_true in Hpre as [u E]. unfold blob_chunk_key, dec_nat in Hel.
        change (pretty i) with (dec (N.of_nat i)) in Hel. rewrite <-str_app_assoc, dec_not_len in Hel. done.
    + apply Hrest in Hk. apply starts_with_true in Hpre as [u ->].
      by rewrite (proj2 (starts_with_true _ "halo:session")) in Hk by (by exists (":" +:+ u)).
Qed.

(** ** The calls of a writer *)

(** The fields of a writer that a call of the session may change. *)
Record recording (w0 : TraceWriter) (meta : SessionMetadata) (es : list TraceEvent) (w : TraceWriter) : Prop := {
  rc_inv : db_inv (tw_db w);
  rc_sessions : sessions_readable (tw_db w);
  rc_holds : holds (tw_db w) (sm_session_id meta) es;
  rc_id : tw_session_id w = sm_session_id meta;
  rc_seq : tw_seq w = N.of_nat (length es);
  rc_summary : tw_summary w = foldl tally (summary_model summary_zero (sm_model meta)) es;
  rc_meta : tw_meta w = Some meta;
  rc_pricing : tw_pricing w = tw_pricing w0
}.

Lemma event_family sid q : starts_with (event_base_key sid q) EVENT_PREFIX = true.
Proof using Type. apply starts_with_true. by eexists. Qed.
Lemma in_family p b k : starts_with b p = true → blob_key b k → starts_with k p = true.
Proof using Type.
  intros [u ->]%starts_with_true [t ->]%blob_key_app. apply starts_with_true.
  exists (u +:+ String ":" t). by rewrite str_app_assoc.
Qed.
(** A text with the prefix of one family has no other. *)
Lemma event_not_session k : starts_with k EVENT_PREFIX = true → starts_with k "halo:session" = false.
Proof using Type. by intros [u ->]%starts_with_true. Qed.

(** Writes of other families keep the events. *)
Lemma holds_frame db ws db' sid es :
  wrote db ws db' → (∀ k, k ∈ ws.*1 → starts_with k EVENT_PREFIX = false) → holds db sid es → holds db' sid es.
Proof using Type.
  intros Hw Hws [He Hf]. split.
  - intros i e Hi. destruct (He i e Hi) as (raw & Hto & Hst). exists raw. split; [done|].
    apply (wrote_frame _ _ _ _ _ Hw); [|done]. intros k Hk Hin. apply (in_family EVENT_PREFIX) in Hk; [|apply event_family].
    by rewrite Hws in Hk.
  - intros q Hq. apply eq_None_not_Some. intros [Hs|Hin]%(wr_keys _ _ _ Hw); [rewrite (Hf q Hq) in Hs; by destruct Hs|].
    apply Hws in Hin. unfold blob_len_key in Hin.
    by rewrite (in_family EVENT_PREFIX (event_base_key sid q)) in Hin; [|apply event_family|left].
Qed.

Lemma write_event_ok w0 meta es e now w w' u :
  recording w0 meta es w → (N.of_nat (length es) < u64_max)%N → write_event e now w = (w', Ok u) →
  recording w0 meta (es ++ [event_final e (N.of_nat (S (length es))) now]) w'.
Proof using Type.
  intros [Hinv Hses [He Hf] Hid Hseq Hsum Hmeta Hpr] Hlen Hw. unfold write_event in Hw. inv_act.
  assert (wrapping_add64 (tw_seq w) 1 = N.of_nat (S (length es))) as Hq.
  { rewrite Hseq. unfold wrapping_add64. rewrite wrap64_small by (unfold is_u64; lia). lia. }
  rewrite Hq in *. set (e' := event_final e _ now) in *. set (q := N.of_nat (S (length es))) in *.
  rewrite Hid in Hw.
  apply commit_writes_ok in Hw as [Hwr Hw']; [|done|done]. simpl in Hwr. rewrite Hw'.
  assert (stored (tw_db w') (event_base_key (sm_session_id meta) q) x2) as Hst.
  { apply (wrote_blob _ _ _ _ _ Hwr). by intros k v Hk. }
  split; simpl; try done.
  - apply (wr_inv _ _ _ Hwr).
  - apply (sessions_other _ _ _ Hwr); [|done]. intros k Hk%blob_writes_keys.
    apply event_not_session, (in_family _ _ _ (event_family _ _) Hk).
  - split.
    + intros i e0 [Hi|[Hi [Hi0 <-]%list_lookup_singleton_Some]]%lookup_app_Some.
      * destruct (He i e0 Hi) as (raw & Hto & Hs). exists raw. split; [done|].
        apply (wrote_frame _ _ _ _ _ Hwr); [|done]. intros k Hk Hin%blob_writes_keys.
        pose proof (blob_key_inj _ _ _ Hk Hin) as E.
        apply (f_equal (λ s, s +:+ String ":" "")) in E. apply event_key_inj in E as [E _].
        apply lookup_lt_Some in Hi. unfold q in E. lia.
      * assert (i = length es) as -> by lia. by exists x2.
    + intros q' Hq'. rewrite length_app in Hq'. simpl in Hq'. apply eq_None_not_Some.
      intros [Hs|Hin]%(wr_keys _ _ _ Hwr).
      * rewrite Hf in Hs by lia. by destruct Hs.
      * apply blob_writes_keys in Hin. pose proof (blob_key_inj _ _ _ (or_introl eq_refl) Hin) as E.
        apply (f_equal (λ s, s +:+ String ":" "")) in E. apply event_key_inj in E as [E _]. unfold q in E. lia.
  - rewrite length_app. unfold q. simpl. lia.
  - rewrite foldl_app. simpl. by rewrite Hsum.
Qed.

(** ** A whole session *)

Fixpoint write_events (es : list (TraceEvent * N)) : action TraceWriter TraceError () :=
  match es with
  | [] => mret tt
  | (e, now) :: es' => _ ← write_event e now; write_events es'
  end.
(** The events as they are stored. *)
Definition recorded (es : list (TraceEvent * N)) : list TraceEvent :=
  imap (λ i et, event_final et.1 (N.of_nat (S i)) et.2) es.
Definition record_session (meta : SessionMetadata) (t0 : N) (es : list (TraceEvent * N)) (status : SessionStatus)
    (t1 : N) : action (TraceWriter * Disk) TraceError SessionSummary :=
  _ ← on_writer (start_session meta t0);
  _ ← on_writer (write_events es);
  end_session status t1.

Lemma on_writer_ok {T} (m : action TraceWriter TraceError T) w d wd x :
  on_writer m (w, d) = (wd, Ok x) ↔ ∃ w', m w = (w', Ok x) ∧ wd = (w', d).
Proof using Type.
  unfold on_writer. destruct (m w) as [w' r]. split; [by intros [= <- ->]; eexists|]. by intros (? & [= -> ->] & ->).
Qed.

Lemma idx_keys meta raw k :
  k ∈ (drop (length (blob_writes (session_base_key (sm_session_id meta)) raw)) (session_writes meta raw)).*1 →
  starts_with k "halo:idx:" = true.
Proof using Type.
  unfold session_writes. cbv zeta. rewrite drop_app_length. intros ((k' & v) & -> & Hk)%list_elem_of_fmap.
  apply elem_of_app in Hk as [Hk|Hk].
  - set_unfold in Hk. destruct Hk as [[= -> ->]|[[= -> ->]|[]]]; apply starts_with_true; by eexists.
  - destruct (sm_model meta); [|by apply not_elem_of_nil in Hk]. apply list_elem_of_singleton in Hk.
    injection Hk as -> ->. apply starts_with_true. by eexists.
Qed.
Lemma idx_family k : starts_with k "halo:idx:" = true →
  starts_with k "halo:session" = false ∧ starts_with k EVENT_PREFIX = false.
Proof using Type. by intros [u ->]%starts_with_true. Qed.
Lemma session_family k : starts_with k "halo:session" = true → starts_with k EVENT_PREFIX = false.
Proof using Type. by intros [u ->]%starts_with_true. Qed.

Lemma start_session_ok meta now w w' u :
  db_inv (tw_db w) → sessions_readable (tw_db w) → holds (tw_db w) (sm_session_id meta) [] →
  ends_with (session_base_key (sm_session_id meta)) ":len" = false →
  fits session_to_vec session_from_slice meta →
  start_session meta now w = (w', Ok u) → recording w meta [] w'.
Proof using Type.
  intros Hinv Hses Hh Hend (raw & Hto & _ & Hsz) Hs. unfold start_session in Hs. inv_act.
  assert (x0 = raw) as -> by congruence.
  set (w1 := mk_TraceWriter _ _ _ _ _ _) in *.
  apply commit_writes_ok in Hs2 as [Hwr Hw']; [|done|done].
  pose proof (take_drop (length (blob_writes (session_base_key (sm_session_id meta)) raw)) (session_writes meta raw)) as Hsplit.
  unfold session_writes in Hsplit at 1. cbv zeta in Hsplit. rewrite take_app_length in Hsplit.
  pose proof (idx_keys meta raw) as Hidx. set (rest := drop _ (session_writes meta raw)) in *.
  rewrite <-Hsplit in Hwr.
  destruct (session_blob _ _ _ _ _ Hwr (λ k Hk, proj1 (idx_family k (Hidx k Hk))) Hend Hsz Hses) as (Hses' & _ & _).
  rewrite Hw'. split; try done.
  - apply (wr_inv _ _ _ Hwr).
  - apply (holds_frame _ _ _ _ _ Hwr); [|done]. intros k. rewrite fmap_app, elem_of_app. intros [Hk|Hk].
    + apply session_family, (in_family _ (session_base_key (sm_session_id meta))); [|by eapply blob_writes_keys].
      apply starts_with_true. by exists (":" +:+ sm_session_id meta).
    + by apply idx_family, Hidx.
Qed.

Lemma write_events_ok w0 meta pre ets w w' u :
  recording w0 meta pre w → (N.of_nat (length pre + length ets) ≤ u64_max)%N → write_events ets w = (w', Ok u) →
  recording w0 meta (pre ++ imap (λ i et, event_final et.1 (N.of_nat (S (length pre + i))) et.2) ets) w'.
Proof using Type.
  revert pre w. induction ets as [|[e t] ets IH]; intros pre w Hr Hlen Hw; cbn [write_events length] in *.
  - inv_act. by rewrite app_nil_r.
  - inv_act. apply (write_event_ok _ _ _ _ _ _ _ _ Hr) in Hw0; [|lia].
    apply (IH _ _ Hw0) in Hw; [|rewrite length_app; simpl; lia]. cbn [imap].
    rewrite <-app_assoc in Hw. cbn [app fst snd] in Hw. rewrite Nat.add_0_r.
    match goal with Hx : recording _ _ ?l _ |- recording _ _ ?l' _ => replace l' with l; [done|] end.
    do 2 f_equal. apply imap_ext. intros i [e' t'] _. cbn. rewrite length_app. simpl. do 2 f_equal. lia.
Qed.

(** ** Ending and reading back *)

Lemma cost_keys w prefix k : k ∈ (cost_aggregate_writes w prefix).*1 → ∃ t, k = prefix +:+ t.
Proof using Type.
  unfold cost_aggregate_writes. cbn [fmap list_fmap fst]. intros Hk. set_unfold in Hk.
  naive_solver.
Qed.
Definition end_rest (w : TraceWriter) (sid : string) (ended : N) (summary_raw : bytes) : list (string * N) :=
  blob_writes (summary_base_key sid) summary_raw ++
  cost_aggregate_writes w (COSTS_DAILY_PREFIX +:+ day_label ended) ++
  cost_aggregate_writes w (COSTS_MONTHLY_PREFIX +:+ month_label ended).
Lemma end_rest_keys w sid ended raw k :
  k ∈ (end_rest w sid ended raw).*1 → blob_key (summary_base_key sid) k ∨ starts_with k "halo:costs:" = true.
Proof using Type.
  unfold end_rest. rewrite !fmap_app, !elem_of_app. intros [Hk|[Hk|Hk]].
  - left. by eapply blob_writes_keys.
  - right. apply cost_keys in Hk as [t ->]. apply starts_with_true. by eexists.
  - right. apply cost_keys in Hk as [t ->]. apply starts_with_true. by eexists.
Qed.
Lemma summary_key_prefix sid k : blob_key (summary_base_key sid) k → starts_with k SUMMARY_PREFIX = true.
Proof using Type. apply in_family, starts_with_true. by eexists. Qed.
Lemma end_rest_family w sid ended raw k : k ∈ (end_rest w sid ended raw).*1 →
  starts_with k "halo:session" = false ∧ starts_with k EVENT_PREFIX = false.
Proof using Type.
  intros [Hk%summary_key_prefix|Hk]%end_rest_keys; by apply starts_with_true in Hk as [u ->].
Qed.

(** What the end of a session leaves in the database. *)
Record ended db (meta : SessionMetadata) (s : SessionSummary) (es : list TraceEvent) : Prop := {
  en_inv : db_inv db;
  en_sessions : sessions_readable db;
  en_holds : holds db (sm_session_id meta) es;
  en_meta : ∃ raw, session_to_vec meta = Some raw ∧ stored db (session_base_key (sm_session_id meta)) raw;
  en_listed : session_base_key (sm_session_id meta) ∈ blob_bases db SESSION_PREFIX;
  en_summary : ∃ raw, summary_to_vec s = Some raw ∧ stored db (summary_base_key (sm_session_id meta)) raw
}.

(** The summary that [end_session] computes. *)
Definition final_summary (w : TraceWriter) (meta : SessionMetadata) (es : list TraceEvent) (now : N) : SessionSummary :=
  let s := foldl tally (summary_model summary_zero (sm_model meta)) es in
  summary_final s (saturating_sub now (sm_started_at meta)) (sm_model meta)
    (Pricing.calculate_cost (default "" (sm_model meta)) (ss_input_tokens s) (ss_output_tokens s)
       (ss_cache_read_tokens s) (tw_pricing w)).

Lemma end_session_ok w0 meta es status now w d wd s :
  recording w0 meta es w → ends_with (session_base_key (sm_session_id meta)) ":len" = false →
  fits session_to_vec session_from_slice (meta_ended meta now status) →
  end_session status now (w, d) = (wd, Ok s) →
  s = final_summary w0 meta es now ∧ ended (tw_db wd.1) (meta_ended meta now status) s es ∧
  persist_snapshot_and_sync_wal (tw_db wd.1) d = (wd.2, Ok tt).
Proof using Type.
  intros [Hinv Hses Hh Hid Hseq Hsum Hmeta Hpr] Hend (mraw & Hto & _ & Hsz) He. unfold end_session in He. inv_act.
  apply on_writer_ok in He0 as (w1 & He0 & ->). unfold end_record in He0. inv_act.
  assert (s1 = (w1, s1.2) ∧ persist_snapshot_and_sync_wal (tw_db w1) d = (s1.2, Ok tt)) as [Es1 Hp].
  { unfold persist in He1. destruct (persist_snapshot_and_sync_wal _ _) as [d' [[]|e]]; by simplify_eq. }
  rewrite Es1. cbn [fst snd].
  assert (x2 = meta) as -> by congruence. assert (x5 = mraw) as -> by congruence.
  set (w2 := tw_set_summary w _) in *.
  assert (tw_summary w2 = final_summary w0 meta es now) as Hs2.
  { unfold w2, final_summary. cbn [tw_summary tw_set_summary]. by rewrite Hsum, Hpr. }
  apply commit_writes_ok in He0 as [Hwr Hw']; [|done|done]. rewrite Hw'. cbn [tw_set_db tw_summary tw_db].
  rewrite Hs2 in He7. split; [done|]. rewrite Hs2.
  change (end_writes w2 (meta_ended meta now status) now mraw x6) with
    (blob_writes (session_base_key (sm_session_id meta)) mraw ++ end_rest w2 (sm_session_id meta) now x6) in Hwr.
  pose proof (end_rest_family w2 (sm_session_id meta) now x6) as Hfam.
  destruct (session_blob _ _ _ _ _ Hwr (λ k Hk, proj1 (Hfam k Hk)) Hend Hsz Hses) as (Hses' & Hmst & Hin).
  split; [|by rewrite Hw' in Hp]. split; [apply (wr_inv _ _ _ Hwr)|done| |by exists mraw|done|].
  - apply (holds_frame _ _ _ _ _ Hwr); [|done]. intros k. rewrite fmap_app, elem_of_app. intros [Hk|Hk].
    + apply session_family, (in_family _ (session_base_key (sm_session_id meta))); [|by eapply blob_writes_keys].
      apply starts_with_true. by exists (":" +:+ sm_session_id meta).
    + by apply Hfam.
  - exists x6. split; [done|]. apply (wrote_blob _ _ _ _ _ Hwr). intros k v Hk.
    split; [apply elem_of_app; right; apply elem_of_app; by left|].
    assert (blob_key (summary_base_key (sm_session_id meta)) k) as Hbk.
    { apply (blob_writes_keys _ x6), list_elem_of_fmap. by exists (k, v). }
    pose proof (summary_key_prefix _ _ Hbk) as Hpre. apply starts_with_true in Hpre as [t Et].
    intros y Hy. apply elem_of_app in Hy.
    assert (∀ l : list (string * N), (k, y) ∈ l → k ∈ l.*1) as Hfst by (intros l Hl; apply list_elem_of_fmap; by exists (k, y)).
    destruct Hy as [Hy|Hy]; [exfalso; apply Hfst in Hy|].
    { apply blob_writes_keys in Hy. pose proof (blob_key_inj _ _ _ Hbk Hy) as E. discriminate E. }
    unfold end_rest in Hy. rewrite !elem_of_app in Hy.
    destruct Hy as [Hy|[Hy|Hy]]; [done|exfalso; apply Hfst in Hy..].
    + apply cost_keys in Hy as [t' ->]. discriminate Et.
    + apply cost_keys in Hy as [t' ->]. discriminate Et.
Qed.

(** Reading depends on the keys and the cells only. *)
Section same_cells.
Context (db db' : NucleusDb) (Hk : keymap db = keymap db') (Hs : state db = state db').

Lemma read_value_cells k : read_value_by_key db k = read_value_by_key db' k.
Proof using All. unfold read_value_by_key. by rewrite Hk, Hs. Qed.
Lemma read_blob_cells b : read_blob db b = read_blob db' b.
Proof using All.
  assert (∀ n i, read_chunks db b n i = read_chunks db' b n i) as Hc.
  { intros n. induction n as [|n IH]; intros i; [done|]. cbn [read_chunks]. by rewrite read_value_cells, IH. }
  unfold read_blob. rewrite read_value_cells. destruct (read_value_by_key _ _); [|done]. by rewrite Hc.
Qed.
Lemma read_all_cells {T} (parse : bytes → option T) bases : read_all db parse bases = read_all db' parse bases.
Proof using All. induction bases as [|b bases IH]; [done|]. cbn [read_all]. by rewrite read_blob_cells, IH. Qed.
Lemma events_of_cells sid : events_of db sid = events_of db' sid.
Proof using All. unfold events_of, event_seqs. by rewrite read_all_cells, Hk. Qed.
Lemma sessions_of_cells : sessions_of db = sessions_of db'.
Proof using All. unfold sessions_of, blob_bases. by rewrite read_all_cells, Hk. Qed.
End same_cells.

(** The saved database passes through its JSON and the checks of its constructor. *)
Definition loads_back (E : TraceEnv) db : Prop :=
  faithful snapshot_to_vec snapshot_from_slice (snapshot_of db) ∧
  is_ok (db_new (te_artifacts E) (te_now E) (state db) (backend db) (halo_witness_cfg (te_env E))) = true.

Lemma persist_snap db d d' :
  persist_snapshot_and_sync_wal db d = (d', Ok tt) → d'.1 = (save_snapshot db d.1).1.
Proof using Type.
  destruct d as [snap wal]. unfold persist_snapshot_and_sync_wal. destruct (save_snapshot db snap) as [snap' [[]|e]] eqn:Es; [|done].
  destruct (truncate_wal db wal) as [wal' r]. intros [= <- _]. simpl. by rewrite Es.
Qed.
Lemma load_persisted `{!Redb_Laws _} E db d d' :
  persist_snapshot_and_sync_wal db d = (d', Ok tt) → loads_back E db →
  load_db E d'.1 = Ok (with_cfg db (halo_witness_cfg (te_env E))).
Proof using Type.
  intros Hp%persist_snap [Hf Hn]. rewrite Hp. unfold load_db.
  pose proof (load_saved (te_artifacts E) (te_now E) db d.1 (halo_witness_cfg (te_env E)) Hf) as Hl.
  destruct (save_snapshot db d.1).1 as [f|] eqn:Ef; [|by destruct (db_new _ _ _ _ _)].
  rewrite Hl. by destruct (db_new _ _ _ _ _).
Qed.

(** Saving does not look at what the files hold. *)
Lemma persist_any `{!Redb_Laws _} db d1 d2 d1' :
  persist_snapshot_and_sync_wal db d1 = (d1', Ok tt) →
  ∃ d2', persist_snapshot_and_sync_wal db d2 = (d2', Ok tt) ∧
    (faithful snapshot_to_vec snapshot_from_slice (snapshot_of db) → ∀ E, load_db E d2'.1 = load_db E d1'.1).
Proof using All.
  intros Hp. pose proof (persist_snap _ _ _ Hp) as H1'. destruct d1 as [snap1 wal1], d2 as [snap2 wal2].
  unfold persist_snapshot_and_sync_wal, save_snapshot, open_write in *.
  destruct (snapshot_to_vec (snapshot_of db)) as [raw|] eqn:Eraw; [|done]. simpl in Hp, H1' |- *.
  unfold truncate_wal in *. destruct (init_wal db None) as [tmp [[]|e]]; [|done].
  eexists. split; [done|]. intros Hf E. simpl. rewrite H1'. simpl.
  pose proof (load_saved (te_artifacts E) (te_now E) db snap1 (halo_witness_cfg (te_env E)) Hf) as Hl1.
  pose proof (load_saved (te_artifacts E) (te_now E) db snap2 (halo_witness_cfg (te_env E)) Hf) as Hl2.
  unfold save_snapshot, open_write in Hl1, Hl2. rewrite Eraw in Hl1, Hl2. simpl in Hl1, Hl2.
  by rewrite Hl1, Hl2.
Qed.

(** The files have no part in what the writer becomes. *)
Lemma persist_writer w d : (persist (w, d)).1.1 = w.
Proof using Type. unfold persist. by destruct (persist_snapshot_and_sync_wal _ _). Qed.
Lemma end_session_writer status now w d : (end_session status now (w, d)).1.1 = (end_record status now w).1.
Proof using Type.
  unfold end_session. unfold mbind at 1, action_bind at 1. unfold on_writer.
  destruct (end_record status now w) as [w' [x|e]]; [|done]. unfold mbind, action_bind.
  pose proof (persist_writer w' d) as Hp. by destruct (persist (w', d)) as [[w2 d2] [x'|e]].
Qed.
Lemma paid_operation_writer op now w d : (record_paid_operation op now (w, d)).1.1 = (paid_record op now w).1.
Proof using Type.
  unfold record_paid_operation. unfold mbind at 1, action_bind at 1. unfold on_writer.
  destruct (paid_record op now w) as [w' [x|e]]; [|done]. apply persist_writer.
Qed.

(** Claim C24. A recorded session reads back as it was written.  On a database in its
    invariant whose session list reads, and for a session identifier without events in it,
    a successful run of [start_session], any [write_event]s and [end_session] leaves files
    from which [session_events] gives exactly the events in order, numbered from 1, with
    time and content hash filled in; [session_summary] gives the summary that was returned,
    which is the tally of the events; and [list_sessions] works and lists the session with
    its end. *)
Theorem trace_session_recorded `{!Redb_Laws _} E w d meta t0 es status t1 wd s :
  let sid := sm_session_id meta in
  let meta' := meta_ended meta t1 status in
  db_inv (tw_db w) → sessions_readable (tw_db w) →
  (∀ q, KM.get (keymap (tw_db w)) (blob_len_key (event_base_key sid q)) = None) →
  ends_with (session_base_key sid) ":len" = false → (N.of_nat (length es) ≤ u64_max)%N →
  fits session_to_vec session_from_slice meta → fits session_to_vec session_from_slice meta' →
  Forall (fits tevent_to_vec tevent_from_slice) (recorded es) → fits summary_to_vec summary_from_slice s →
  record_session meta t0 es status t1 (w, d) = (wd, Ok s) → loads_back E (tw_db wd.1) →
  session_events E wd.2.1 sid = Ok (recorded es) ∧
  session_summary E wd.2.1 sid = Ok (Some s) ∧ s = final_summary w meta (recorded es) t1 ∧
  ∃ l, list_sessions E wd.2.1 = Ok l ∧ meta' ∈ l.
Proof using All.
  cbv zeta. intros Hinv Hses Hfresh Hend Hlen Hfm Hfm' Hfe Hfs Hr Hload. unfold record_session in Hr. inv_act.
  apply on_writer_ok in Hr0 as (w1 & Hr0 & ->). apply on_writer_ok in Hr1 as (w2 & Hr1 & ->).
  apply start_session_ok in Hr0; [|done|done|split; [by intros i e|done]|done|done].
  apply (write_events_ok _ _ _ _ _ _ _ Hr0) in Hr1; [|done]. 
  change (recording w meta (recorded es) w2) in Hr1.
  destruct (end_session_ok _ _ _ _ _ _ _ _ _ Hr1 Hend Hfm' Hr) as (Hs & [_ Hses' Hh (mraw & Hmto & Hmst) Hin (sraw & Hsto & Hsst)] & Hp).
  pose proof (load_persisted E _ _ _ Hp Hload) as Hl.
  unfold session_events, session_summary, list_sessions. rewrite Hl. cbn [mbind result_bind].
  split; [|split; [|split; [done|]]].
  - rewrite (events_of_cells _ (tw_db wd.1)) by done.
    apply holds_events; [done| |done]. unfold recorded. by rewrite length_imap.
  - destruct Hfs as (sraw' & Hto' & Hfrom & Hsz). assert (sraw' = sraw) as -> by congruence.
    pose proof (stored_read _ _ _ Hsst Hsz) as Hrd.
    rewrite (read_blob_cells _ (tw_db wd.1)) by done.
    change (sm_session_id (meta_ended meta t1 status)) with (sm_session_id meta) in Hrd.
    rewrite Hrd. cbn [mbind result_bind]. by rewrite Hfrom.
  - rewrite (sessions_of_cells _ (tw_db wd.1)) by done.
    unfold sessions_readable in Hses'. unfold sessions_of in *.
    destruct (read_all _ _ _) as [out|e] eqn:Er; [|done]. exists (merge_sort (newer sm_started_at) out).
    split; [done|]. rewrite merge_sort_Permutation. destruct Hfm' as (mraw' & Hmto' & Hmfrom & Hsz).
    assert (mraw' = mraw) as -> by congruence. by apply (elem_of_read_all _ _ _ _ _ mraw _ Er Hin); [apply stored_read|].
Qed.

(** A writer saves the database it has held since it was opened.  Ending a session
    returns the same, and leaves files that load as the same database, whatever is in the
    files: what other writers saved in the meantime (payments, sessions, skills) is gone. *)
Theorem trace_end_overwrites `{!Redb_Laws _} E w status now d1 d2 wd s :
  end_session status now (w, d1) = (wd, Ok s) →
  faithful snapshot_to_vec snapshot_from_slice (snapshot_of (tw_db wd.1)) →
  ∃ d2', end_session status now (w, d2) = ((wd.1, d2'), Ok s) ∧ load_db E d2'.1 = load_db E wd.2.1.
Proof using All.
  intros He Hf. unfold end_session in He. inv_act. apply on_writer_ok in He0 as (w1 & He0 & ->).
  assert (s1 = (w1, s1.2) ∧ persist_snapshot_and_sync_wal (tw_db w1) d1 = (s1.2, Ok tt)) as [Es1 Hp].
  { unfold persist in He1. destruct (persist_snapshot_and_sync_wal _ _) as [d' [[]|e]]; by simplify_eq. }
  rewrite Es1 in *. cbn [fst snd] in *.
  destruct (persist_any (tw_db w1) d1 d2 s1.2 Hp) as (d2' & Hp2 & Hl). exists d2'. split; [|by apply Hl].
  unfold end_session. unfold mbind at 1, action_bind at 1. unfold on_writer at 1. rewrite He0.
  unfold mbind at 1, action_bind at 1. unfold persist. by rewrite Hp2.
Qed.
End blobs.

(** ** A concrete session *)

Section witnesses.
#[local] Existing Instances prefix_sha toy_ristretto toy_kzg toy_sig raw_json id_powf toy_redb toy_redb_laws.

Definition plain_access : JsonAccess := {|
  json_from_str := λ s, Some (as_bytes s); json_get := λ _ _, None; json_get_idx := λ _ _, None;
  json_as_str := λ v, Some (of_bytes v); json_as_u64 := λ _, None; json_to_string := λ v, of_bytes v |}.
Definition one_day : ChronoLabels := {| fmt_day := λ _, Some "2026-03-01"; fmt_month := λ _, Some "2026-03" |}.
#[local] Existing Instances plain_access one_day.

Definition ex_E : TraceEnv := mk_TraceEnv ex_load (λ _, None) 1000.
Definition ex_trace_db : NucleusDb :=
  match db_new ex_load 1000 (mk_State []) BkBinaryMerkle (halo_witness_cfg (λ _, None)) with
  | Ok db => db
  | Err _ => ex_db
  end.
Definition ex_writer : TraceWriter :=
  mk_TraceWriter "sess-1000" ex_trace_db 0 summary_zero None Pricing.default_pricing.
Definition ex_meta : SessionMetadata := {|
  sm_session_id := "s1"; sm_agent := "a"; sm_model := Some "o3"; sm_started_at := 1000; sm_ended_at := None;
  sm_prompt := None; sm_status := SRunning; sm_user_id := None; sm_machine_id := None; sm_puf_digest := None |}.
Definition ex_event (text : string) : TraceEvent := {|
  te_seq := 0; te_timestamp := 0; te_event_type := Assistant; te_content := as_bytes text;
  te_input_tokens := Some 1000%N; te_output_tokens := Some 20%N; te_cache_read_tokens := None;
  te_tool_name := None; te_tool_input := None; te_tool_output := None; te_file_path := None;
  te_content_hash := "" |}.
Definition ex_trace_events : list (TraceEvent * N) := [(ex_event "hello", 1001%N); (ex_event "bye", 1002%N)].
Definition ex_meta' : SessionMetadata := meta_ended ex_meta 1010 SCompleted.
Definition ex_summary : SessionSummary := final_summary ex_writer ex_meta (recorded ex_trace_events) 1010.

Definition ex_paid : PaidOperation := {|
  po_operation_id := "op1"; po_timestamp := 1005; po_operation_type := "attest"; po_credits_spent := 10;
  po_usd_equivalent := Pricing.lit 1 10; po_session_id := None; po_result_digest := None; po_success := true;
  po_error := None |}.

(** Records are numbered. *)
Definition ex_trace_json : TraceJson := {|
  session_to_vec := λ m, Some [match sm_ended_at m with Some _ => x01 | None => x00 end];
  session_from_slice := λ b, Some (if bool_decide (b = [x00]) then ex_meta else ex_meta');
  tevent_to_vec := λ e, Some (le_bytes 1 (te_seq e));
  tevent_from_slice := λ b, recorded ex_trace_events !! (N.to_nat (of_le_bytes b) - 1);
  summary_to_vec := λ _, Some [x02]; summary_from_slice := λ _, Some ex_summary;
  paid_to_vec := λ _, Some [x03]; paid_from_slice := λ b, if bool_decide (b = [x03]) then Some ex_paid else None |}.
#[local] Existing Instance ex_trace_json.

(** Snapshots are recognised by their number of cells. *)
Definition known_persist (snaps : list SnapshotV1) : PersistJson := {|
  snapshot_to_vec := λ s, Some (le_bytes 2 (N.of_nat (length (values (snap_state s)))));
  snapshot_from_slice := λ b, List.find (λ s, N.of_nat (length (values (snap_state s))) =? of_le_bytes b)%N snaps;
  meta_to_vec := λ _, Some []; meta_from_slice := λ _, None;
  event_to_vec := λ _, None; event_from_slice := λ _, None |}.

(** A session, and a payment and the end of an empty session on the same database. *)
Definition ex_open : TraceWriter := (start_session ex_meta 1000 ex_writer).1.
Definition ex_written : TraceWriter := (write_events ex_trace_events ex_open).1.
Definition ex_snaps : list SnapshotV1 :=
  [snapshot_of (tw_db (end_record SCompleted 1010 ex_written).1);
   snapshot_of (tw_db (paid_record ex_paid 1005 ex_writer).1);
   snapshot_of (tw_db (end_record SCompleted 1010 ex_open).1)].
Definition ex_persist : PersistJson := known_persist ex_snaps.
#[local] Existing Instance ex_persist.
Definition ex_run : (TraceWriter * Disk) * result TraceError SessionSummary :=
  record_session ex_meta 1000 ex_trace_events SCompleted 1010 (ex_writer, (None, None)).
Definition ex_paid_disk : Disk := (record_paid_operation ex_paid 1005 (ex_writer, (None, None))).1.2.
Definition ex_end (d : Disk) : (TraceWriter * Disk) * result TraceError SessionSummary :=
  end_session SCompleted 1010 (ex_open, d).

Lemma ok_pair {A B} (p : A * result B ()) : is_ok p.2 = true → p = (p.1, Ok tt).
Proof. destruct p as [a [[]|e]]; done. Qed.
Lemma ex_run_end : ex_run = end_session SCompleted 1010 (ex_written, (None, None)).
Proof.
  assert (is_ok (start_session ex_meta 1000 ex_writer).2 = true) as Hs by (vm_compute; reflexivity).
  assert (is_ok (write_events ex_trace_events ex_open).2 = true) as Hw by (vm_compute; reflexivity).
  apply ok_pair in Hs, Hw. fold ex_open in Hs. fold ex_written in Hw.
  unfold ex_run, record_session, mbind, action_bind, on_writer. rewrite Hs, Hw. reflexivity.
Qed.
Lemma ex_run_writer : ex_run.1.1 = (end_record SCompleted 1010 ex_written).1.
Proof. rewrite ex_run_end. exact (end_session_writer SCompleted 1010 ex_written (None, None)). Qed.
Lemma ex_end_writer d : (ex_end d).1.1 = (end_record SCompleted 1010 ex_open).1.
Proof. exact (end_session_writer SCompleted 1010 ex_open d). Qed.
Lemma ex_run_ok : ex_run = (ex_run.1, Ok ex_summary).
Proof. rewrite (surjective_pairing ex_run) at 1. f_equal. Qed.

(** The snapshots of the example are read back. *)
Lemma known_first snaps s pre post :
  snaps = pre ++ s :: post →
  Forall (λ s', length (values (snap_state s')) ≠ length (values (snap_state s))) pre →
  (N.of_nat (length (values (snap_state s))) < 65536)%N →
  faithful (snapshot_to_vec (PersistJson:=known_persist snaps))
    (snapshot_from_slice (PersistJson:=known_persist snaps)) s.
Proof.
  intros -> Hpre Hlt. eexists. split; [reflexivity|]. cbn [snapshot_from_slice known_persist].
  rewrite of_le_bytes_le_bytes by done. induction Hpre as [|s' pre Hs Hpre IH]; cbn [app List.find].
  - by rewrite N.eqb_refl.
  - assert ((N.of_nat (length (values (snap_state s'))) =? N.of_nat (length (values (snap_state s))))%N = false) as ->
      by (apply N.eqb_neq; lia). apply IH.
Qed.
Lemma ex_trace_inv : db_inv ex_trace_db.
Proof.
  unfold ex_trace_db. destruct (db_new _ _ _ _ _) as [db|e] eqn:E; [by eapply db_new_inv|apply ex_db_inv].
Qed.

Lemma fits_small {A} (to_vec : A → option bytes) (from_slice : bytes → option A) a b :
  to_vec a = Some [b] → from_slice [b] = Some a → fits to_vec from_slice a.
Proof. intros Ht Hf. exists [b]. split; [done|]. split; [done|]. by vm_compute. Qed.

Lemma trace_session_recorded_witness :
  session_events ex_E ex_run.1.2.1 "s1" = Ok (recorded ex_trace_events) ∧
  ss_input_tokens ex_summary = 2000%N.
Proof.
  split; [|by vm_compute].
  destruct (trace_session_recorded ex_E ex_writer (None, None) ex_meta 1000 ex_trace_events SCompleted 1010
    ex_run.1 ex_summary) as (Hev & _); [..|exact Hev].
  - apply ex_trace_inv.
  - unfold sessions_readable. vm_compute. reflexivity.
  - intros q. unfold KM.get. assert (forward (keymap (tw_db ex_writer)) = ∅) as -> by (by vm_compute).
    apply lookup_empty.
  - by vm_compute.
  - by vm_compute.
  - by apply (fits_small _ _ _ x00).
  - by apply (fits_small _ _ _ x01).
  - constructor; [|constructor; [|constructor]].
    + apply (fits_small _ _ _ x01); by vm_compute.
    + apply (fits_small _ _ _ x02); by vm_compute.
  - by apply (fits_small _ _ _ x02).
  - apply ex_run_ok.
  - split.
    + rewrite ex_run_writer. apply (known_first _ _ [] _ eq_refl); [constructor|]. by vm_compute.
    + rewrite ex_run_writer. by vm_compute.
Defined.

(** A payment that is recorded while a session is open is there, and is gone once the
    session ends. *)
Example payment_lost :
  paid_operations ex_E ex_paid_disk.1 = Ok [ex_paid] ∧
  paid_operations ex_E (ex_end ex_paid_disk).1.2.1 = Ok [].
Proof. split; vm_compute; reflexivity. Qed.

Lemma trace_end_overwrites_witness :
  ∃ s d, end_session SCompleted 1010 (ex_open, (None, None)) =
           (((ex_end ex_paid_disk).1.1, d), Ok s) ∧
    load_db ex_E d.1 = load_db ex_E (ex_end ex_paid_disk).1.2.1.
Proof.
  destruct (ex_end ex_paid_disk) as [wd r] eqn:E.
  assert (is_ok r = true) as Hr by (change r with (wd, r).2; rewrite <-E; vm_compute; reflexivity).
  destruct r as [s|e]; [|discriminate Hr]. exists s.
  apply (trace_end_overwrites ex_E ex_open SCompleted 1010 ex_paid_disk (None, None) wd s); [exact E|].
  change wd with (wd, Ok (E:=TraceError) s).1. rewrite <-E. rewrite ex_end_writer.
  apply (known_first _ _ (take 2 ex_snaps) [] eq_refl); [|by vm_compute].
  constructor; [by vm_compute|]. constructor; [by vm_compute|constructor].
Defined.
End witnesses.
