(* ===== verification/Attest.v ===== *)
(** * Attestations of recorded sessions: [src/src/halo/attest.rs]

    A session is attested by the Merkle root of its event hashes; an anonymous attestation
    names it by a hash of its identifier and proves that this reference is one of the
    recorded sessions.  The files are those of [Trace]; the texts of errors are
    constructors that carry what they print. *)
From S2P Require Export Trace PairTree.

Record AttestationRequest := mk_AttestationRequest { ar_session_id : string; ar_anonymous : bool }.
Record AnonymousMembershipStep := mk_AnonymousMembershipStep {
  sibling_hash : string;
  sibling_is_left : bool
}.
Record AnonymousMembershipProof := {
  membership_root : string;
  am_leaf_hash : string;
  am_tree_size : N;
  am_leaf_index : N;
  am_steps : list AnonymousMembershipStep
}.
(** The fields that an on-chain submission fills in later are [None] here. *)
Record AttestationResult := {
  at_session_id : option string;
  at_blinded_session_ref : option string;
  at_merkle_root : string;
  at_event_count : N;
  at_content_hashes : list string;
  at_witness_algorithm : string;
  at_attestation_digest : string;
  at_timestamp : N;
  at_anonymous : bool;
  at_proof_type : string;
  at_membership_proof : option AnonymousMembershipProof
}.

Inductive AttestError :=
| AtTrace (e : TraceError)
| AtEmptySessionId
| AtNoSessions
| AtNoEvents (session_id : string)
| AtEmptyContentHash (seq : N)
| AtHashMismatch (seq : N) (expected got : string)
| AtEmptyHashList
| AtHexLength (len : nat)
| AtHexChar (s : string)
| AtNoMembers
| AtNotMember.

Definition hex_decode_var (s : string) : result AttestError bytes :=
  if bool_decide (s = "") || negb (Nat.even (str_len s)) then Err (AtHexLength (str_len s))
  else ok_or (hex_decode s) (AtHexChar s).

(** A step of [collect::<Result<Vec<_>, _>>]. *)
Fixpoint try_map {A B} (f : A → result AttestError B) (l : list A) : result AttestError (list B) :=
  match l with
  | [] => mret []
  | x :: l' => y ← f x; ys ← try_map f l'; mret (y :: ys)
  end.

Section attest.
Context `{Sha2, Ristretto, KzgLib, SigLib, SJ : SerdeJson, Libm, Redb, PersistJson, CL : ChronoLabels,
  JA : !JsonAccess, TJ : !TraceJson}.

Definition resolve_session_id (E : TraceEnv) (file : option RedbFile) (session_id : option string)
  : result AttestError string :=
  match session_id with
  | Some sid => if bool_decide (trim sid = "") then Err AtEmptySessionId else mret (trim sid)
  | None =>
      sessions ← map_err AtTrace (list_sessions E file);
      latest ← ok_or (head sessions) AtNoSessions;
      mret (sm_session_id latest)
  end.

(** ** Hashes *)

(** The algorithm is read off the length of a text. *)
Definition algorithm_of (hex : string) : HashAlgorithm := if 64 <? str_len hex then HashSha512 else HashSha256.
Definition verify_event_hash (event : TraceEvent) : result AttestError () :=
  _ ← throw_if (is_blank (te_content_hash event)) (AtEmptyContentHash (te_seq event));
  let encoded := json_to_vec (te_content event) in
  let expected := hash_hex (algorithm_of (te_content_hash event)) encoded in
  throw_if (negb (bool_decide (expected = to_ascii_lowercase (te_content_hash event))))
    (AtHashMismatch (te_seq event) expected (te_content_hash event)).

Definition blinded_session_reference (session_id : string) : string :=
  hash_hex CURRENT (as_bytes ("agenthalo.attestation.blind.v1:" +:+ session_id)).
Definition digest_attestation (public_session_ref merkle_root : string) (event_count : N) : string :=
  hash_hex CURRENT (as_bytes ("agenthalo.attestation.digest.v1:" +:+ public_session_ref +:+ ":" +:+
    merkle_root +:+ ":" +:+ dec event_count)).

Definition event_leaf (algo : HashAlgorithm) (content_hash : bytes) : bytes := hash_bytes algo (x00 :: content_hash).
Definition event_node (algo : HashAlgorithm) (left right : bytes) : bytes := hash_bytes algo (x01 :: left ++ right).
Definition anon_leaf_hash (algo : HashAlgorithm) (blinded_ref : bytes) : bytes :=
  hash_bytes algo (as_bytes "agenthalo.anon.membership.leaf.v1" ++ x00 :: blinded_ref).
Definition anon_node_hash (algo : HashAlgorithm) (left right : bytes) : bytes :=
  hash_bytes algo (as_bytes "agenthalo.anon.membership.node.v1" ++ x00 :: left ++ right).

Definition merkle_root_from_hashes (content_hashes : list string) : result AttestError string :=
  _ ← throw_if (bool_decide (content_hashes = [])) AtEmptyHashList;
  leaves ← try_map (λ h, b ← hex_decode_var h; mret (event_leaf CURRENT b)) content_hashes;
  mret (hex_encode (default [] (head (pair_rounds (event_node CURRENT) (length leaves) leaves)))).

(** ** Anonymous membership *)

Definition member_leaf (s : SessionMetadata) : result AttestError (string * bytes) :=
  let blinded := blinded_session_reference (sm_session_id s) in
  b ← hex_decode_var blinded;
  mret (blinded, anon_leaf_hash CURRENT b).
Definition step_of (st : bool * bytes) : AnonymousMembershipStep :=
  mk_AnonymousMembershipStep (hex_encode st.2) st.1.
Definition build_anonymous_membership_proof (sessions : list SessionMetadata) (target_blinded_ref_hex : string)
  : result AttestError AnonymousMembershipProof :=
  leaves ← try_map member_leaf sessions;
  _ ← throw_if (bool_decide (leaves = [])) AtNoMembers;
  let leaves := merge_sort key_le leaves in
  target_bytes ← hex_decode_var target_blinded_ref_hex;
  let target_leaf := anon_leaf_hash CURRENT target_bytes in
  let level := leaves.*2 in
  found ← ok_or (list_find (λ leaf, leaf = target_leaf) level) AtNotMember;
  let index := found.1 in
  mret {|
    membership_root :=
      hex_encode (default [] (head (pair_rounds (anon_node_hash CURRENT) (length level) level)));
    am_leaf_hash := hex_encode target_leaf;
    am_tree_size := N.of_nat (length leaves);
    am_leaf_index := N.of_nat index;
    am_steps := step_of <$> pair_path (anon_node_hash CURRENT) (length level) index level |}.

Fixpoint climb_steps (algo : HashAlgorithm) (acc : bytes) (steps : list AnonymousMembershipStep)
  : result AttestError bytes :=
  match steps with
  | [] => mret acc
  | st :: steps' =>
      sibling ← hex_decode_var (sibling_hash st);
      climb_steps algo
        (if sibling_is_left st then anon_node_hash algo sibling acc else anon_node_hash algo acc sibling) steps'
  end.
Definition verify_anonymous_membership_proof (p : AnonymousMembershipProof) : result AttestError bool :=
  let algo := algorithm_of (am_leaf_hash p) in
  acc ← hex_decode_var (am_leaf_hash p);
  acc ← climb_steps algo acc (am_steps p);
  mret (eq_ignore_ascii_case (hex_encode acc) (membership_root p)).

(** ** Attestation *)

Definition verified_hashes (events : list TraceEvent) : result AttestError (list string) :=
  try_map (λ ev, _ ← verify_event_hash ev; mret (to_ascii_lowercase (te_content_hash ev))) events.

Definition attest_session (E : TraceEnv) (file : option RedbFile) (request : AttestationRequest)
  : result AttestError AttestationResult :=
  let sid := ar_session_id request in
  let anonymous := ar_anonymous request in
  events ← map_err AtTrace (session_events E file sid);
  _ ← throw_if (bool_decide (length events = 0)) (AtNoEvents sid);
  hashes ← verified_hashes events;
  root ← merkle_root_from_hashes hashes;
  let blinded := blinded_session_reference sid in
  membership ← (if anonymous then
                  sessions ← map_err AtTrace (list_sessions E file);
                  Some <$> build_anonymous_membership_proof sessions blinded
                else mret None);
  let public_ref := if anonymous then blinded else sid in
  mret {|
    at_session_id := if anonymous then None else Some sid;
    at_blinded_session_ref := if anonymous then Some blinded else None;
    at_merkle_root := root;
    at_event_count := N.of_nat (length hashes);
    at_content_hashes := hashes;
    at_witness_algorithm := "ML-DSA-65";
    at_attestation_digest := digest_attestation public_ref root (N.of_nat (length hashes));
    at_timestamp := te_now E;
    at_anonymous := anonymous;
    at_proof_type := if anonymous then "merkle-sha512+anon-membership" else "merkle-sha512";
    at_membership_proof := membership |}.
End attest.
