(* ===== verification/AttestSpec.v ===== *)
(** * Properties of the attestations of [Attest.v]

    Every recorded session can be attested and its membership proof verifies; what the
    digest of an attestation and an accepted membership proof show, and what they do not. *)
From S2P Require Import Attest TraceSpec LedgerSpec Instances ProtocolSpec.

#[local] Arguments anon_leaf_hash : simpl never.
#[local] Arguments anon_node_hash : simpl never.
#[local] Arguments as_bytes : simpl never.

(** ** Text *)

Lemma hex_digit_lower v : (v < 16)%N → ascii_lower (hex_digit v) = hex_digit v.
Proof.
  intros Hv. assert (Forall (λ k, ascii_lower (hex_digit (N.of_nat k)) = hex_digit (N.of_nat k)) (seq 0 16)) as Hall
    by (by repeat constructor).
  rewrite Forall_forall in Hall. rewrite <-(N2Nat.id v). apply Hall, elem_of_seq. lia.
Qed.
Lemma hex_encode_lower l : to_ascii_lowercase (hex_encode l) = hex_encode l.
Proof.
  induction l as [|b l IH]; [done|]. cbn [hex_encode to_ascii_lowercase].
  rewrite !hex_digit_lower, IH by (by destruct b). done.
Qed.
Lemma hex_decode_var_encode l : l ≠ [] → hex_decode_var (hex_encode l) = Ok l.
Proof.
  intros Hl. unfold hex_decode_var. rewrite bool_decide_eq_false_2 by (by destruct l).
  rewrite length_hex_encode. replace (Nat.even (2 * length l)) with true by (symmetry; apply Nat.even_spec; by eexists).
  simpl. by rewrite hex_decode_encode.
Qed.
Lemma hex_decode_var_ok s b : hex_decode_var s = Ok b → hex_decode s = Some b ∧ s ≠ "".
Proof.
  unfold hex_decode_var. destruct (bool_decide (s = "") || _) eqn:E; [done|]. intros Hb. inv_res.
  apply orb_false_iff in E as [E _]. by apply bool_decide_eq_false in E.
Qed.

Lemma try_map_ok {A B} (f : A → result AttestError B) (g : A → B) l :
  (∀ x, x ∈ l → f x = Ok (g x)) → try_map f l = Ok (g <$> l).
Proof.
  induction l as [|x l IH]; intros Hf; [done|]. cbn [try_map]. rewrite (Hf x) by left. simpl.
  rewrite IH; [done|]. intros y Hy. apply Hf. by right.
Qed.
Lemma try_map_fmap {A B C} (f : A → result AttestError B) (h : C → A) (g : C → B) l :
  Forall (λ x, f (h x) = Ok (g x)) l → try_map f (h <$> l) = Ok (g <$> l).
Proof. induction 1 as [|x l Hx _ IH]; [done|]. cbn [fmap list_fmap try_map]. rewrite Hx. simpl. by rewrite IH. Qed.
Lemma try_map_Forall2 {A B} (f : A → result AttestError B) l ys :
  try_map f l = Ok ys → Forall2 (λ x y, f x = Ok y) l ys.
Proof.
  revert ys. induction l as [|x l IH]; intros ys; cbn [try_map]; intros Hy; inv_res; constructor; [done|]. by apply IH.
Qed.

Section attest_spec.
Context `{Sha2, Ristretto, KzgLib, SigLib, SJ : SerdeJson, Libm, Redb, PersistJson, CL : ChronoLabels,
  JA : !JsonAccess, TJ : !TraceJson}.

(** ** Hashes *)

Definition hash_len (a : HashAlgorithm) : nat := match a with HashSha256 => 32 | HashSha512 => 64 end.
Lemma length_hash_bytes a x : length (hash_bytes a x) = hash_len a.
Proof using Type. destruct a; apply arr_length. Qed.
Lemma collides_any a S : collides (hash_bytes a) S → hash_collides S.
Proof using Type. intros Hc. by exists a. Qed.
Lemma hash_bytes_nonempty a x : hash_bytes a x ≠ [].
Proof using Type. intros E. apply (f_equal length) in E. rewrite length_hash_bytes in E. by destruct a. Qed.
Lemma hash_hex_not_blank a x : is_blank (hash_hex a x) = false.
Proof using Type.
  unfold is_blank, hash_hex. rewrite hex_encode_trim. apply bool_decide_eq_false_2.
  pose proof (hash_bytes_nonempty a x). by destruct (hash_bytes a x).
Qed.

(** ** Attesting *)

(** The content hash of an event is the one [write_event] fills in. *)
Definition self_hashed (ev : TraceEvent) : Prop := te_content_hash ev = event_content_hash (te_content ev).

Lemma recorded_self_hashed es :
  Forall (λ et : TraceEvent * N, is_blank (te_content_hash et.1) = true) es → Forall self_hashed (recorded es).
Proof using Type.
  intros Hb. unfold recorded. apply Forall_lookup. intros i ev Hi. rewrite list_lookup_imap in Hi.
  apply fmap_Some in Hi as ([e t] & He & ->). apply (Forall_lookup_1 _ _ _ _ Hb) in He. simpl in He.
  unfold self_hashed. cbn. by rewrite He.
Qed.

Lemma algorithm_of_hash x : algorithm_of (hash_hex CURRENT x) = CURRENT.
Proof using Type. unfold algorithm_of. by rewrite length_hash_hex. Qed.
Lemma algorithm_of_anon b : algorithm_of (hex_encode (anon_leaf_hash CURRENT b)) = CURRENT.
Proof using Type. apply algorithm_of_hash. Qed.
Lemma hash_hex_lower a x : to_ascii_lowercase (hash_hex a x) = hash_hex a x.
Proof using Type. apply hex_encode_lower. Qed.

(** The root over hashes given as bytes. *)
Definition event_root (hs : list bytes) : bytes :=
  default [] (head (pair_rounds (event_node CURRENT) (length hs) (event_leaf CURRENT <$> hs))).
Lemma merkle_root_ok hs :
  hs ≠ [] → Forall (λ h, h ≠ []) hs → merkle_root_from_hashes (hex_encode <$> hs) = Ok (hex_encode (event_root hs)).
Proof using Type.
  intros Hne Hall. unfold merkle_root_from_hashes. rewrite bool_decide_eq_false_2 by (by destruct hs). simpl.
  rewrite (try_map_fmap _ hex_encode (event_leaf CURRENT)).
  2:{ eapply Forall_impl; [exact Hall|]. intros h Hh. cbv beta. by rewrite hex_decode_var_encode. }
  simpl. by rewrite length_fmap.
Qed.

(** ** Membership *)

Definition blind_bytes (sid : string) : bytes :=
  hash_bytes CURRENT (as_bytes ("agenthalo.attestation.blind.v1:" +:+ sid)).
Definition member_pair (b : bytes) : string * bytes := (hex_encode b, anon_leaf_hash CURRENT b).
(** The references of the sessions, in the order of the tree. *)
Definition member_order (l : list SessionMetadata) : list (string * bytes) :=
  merge_sort key_le ((λ s, member_pair (blind_bytes (sm_session_id s))) <$> l).
Definition members_root (l : list SessionMetadata) : bytes :=
  default [] (head (pair_rounds (anon_node_hash CURRENT) (length l) (member_order l).*2)).

Lemma try_map_members l :
  try_map member_leaf l = Ok ((λ s, member_pair (blind_bytes (sm_session_id s))) <$> l).
Proof using Type.
  apply try_map_ok. intros s _. unfold member_leaf, blinded_session_reference, hash_hex.
  rewrite hex_decode_var_encode by apply hash_bytes_nonempty. done.
Qed.
Lemma length_member_order l : length (member_order l) = length l.
Proof using Type. unfold member_order. by rewrite merge_sort_Permutation, length_fmap. Qed.
Lemma member_order_nonempty l : Forall (λ h : bytes, h ≠ []) (member_order l).*2.
Proof using Type.
  unfold member_order. rewrite merge_sort_Permutation. apply Forall_forall.
  intros h (p & -> & (s & -> & _)%list_elem_of_fmap)%list_elem_of_fmap. apply hash_bytes_nonempty.
Qed.

Lemma climb_steps_of algo acc path :
  Forall (λ st : bool * bytes, st.2 ≠ []) path →
  climb_steps algo acc (step_of <$> path) = Ok (ascend (anon_node_hash algo) acc path).
Proof using Type.
  revert acc. induction path as [|[side s] path IH]; intros acc Hp; [done|].
  apply Forall_cons in Hp as [Hs Hp]. cbn [fmap list_fmap climb_steps step_of sibling_hash sibling_is_left fst snd].
  cbn in Hs. rewrite hex_decode_var_encode by done. cbn [mbind result_bind]. rewrite IH by done. by destruct side.
Qed.

(** The proof for a recorded session is built and accepted. *)
Lemma membership_complete l sid :
  (∃ s, s ∈ l ∧ sm_session_id s = sid) →
  ∃ p, build_anonymous_membership_proof l (blinded_session_reference sid) = Ok p ∧
    verify_anonymous_membership_proof p = Ok true ∧
    membership_root p = hex_encode (members_root l) ∧
    am_leaf_hash p = hex_encode (anon_leaf_hash CURRENT (blind_bytes sid)).
Proof using Type.
  intros (s & Hs & <-). unfold build_anonymous_membership_proof. rewrite try_map_members. simpl.
  rewrite bool_decide_eq_false_2 by (intros E%fmap_nil_inv; by subst; apply not_elem_of_nil in Hs). simpl.
  unfold blinded_session_reference, hash_hex. fold (blind_bytes (sm_session_id s)).
  rewrite hex_decode_var_encode by apply hash_bytes_nonempty. simpl.
  fold (member_order l). set (leaf := anon_leaf_hash CURRENT (blind_bytes (sm_session_id s))).
  assert (leaf ∈ (member_order l).*2) as Hin.
  { apply list_elem_of_fmap. exists (member_pair (blind_bytes (sm_session_id s))). split; [done|].
    unfold member_order. rewrite merge_sort_Permutation. apply list_elem_of_fmap. by exists s. }
  match goal with |- context [list_find ?P ?k] => destruct (list_find_elem_of P k leaf Hin eq_refl) as [[i x] Hfind] end.
  rewrite Hfind. simpl. apply list_find_Some in Hfind as (Hi & -> & _).
  eexists. split; [done|]. cbn [membership_root am_leaf_hash am_steps].
  pose proof (pair_path_climbs (anon_node_hash CURRENT) _ i leaf _ (le_n _) Hi) as Hclimb.
  split; [|split; [|done]].
  - unfold verify_anonymous_membership_proof. cbn [membership_root am_leaf_hash am_steps].
    unfold leaf at 1. rewrite algorithm_of_anon, hex_decode_var_encode by apply hash_bytes_nonempty. cbn [mbind result_bind].
    rewrite climb_steps_of by (apply (pair_path_all _ (λ h : bytes, h ≠ [])); [intros; apply hash_bytes_nonempty|apply member_order_nonempty]).
    cbn [mbind result_bind]. rewrite Hclimb. simpl. by rewrite eq_ignore_refl.
  - unfold members_root. by rewrite length_fmap, length_member_order.
Qed.

(** The strings that are hashed: for a reference, for the leaves and nodes of the two trees
    and for the digest.  Tags keep leaves and nodes apart, and hashes have one length. *)
Definition blind_string (sid : string) : bytes := as_bytes ("agenthalo.attestation.blind.v1:" +:+ sid).
Definition anon_leaf_string (b : bytes) : bytes := as_bytes "agenthalo.anon.membership.leaf.v1" ++ x00 :: b.
Definition anon_node_string (a b : bytes) : bytes := as_bytes "agenthalo.anon.membership.node.v1" ++ x00 :: a ++ b.
Definition event_leaf_string (b : bytes) : bytes := x00 :: b.
Definition event_node_string (a b : bytes) : bytes := x01 :: a ++ b.
Definition digest_string (ref root : string) (n : N) : bytes :=
  as_bytes ("agenthalo.attestation.digest.v1:" +:+ ref +:+ ":" +:+ root +:+ ":" +:+ dec n).

Definition hash_sized (h : bytes) : Prop := length h = 64.
Lemma tagged_inj (tag a b c d : bytes) :
  tag ++ a ++ b = tag ++ c ++ d → (hash_sized a ∧ hash_sized c) ∨ (hash_sized b ∧ hash_sized d) → a = c ∧ b = d.
Proof using Type.
  intros E%app_inv_head [[]|[]]; unfold hash_sized in *; [apply app_inj_1|apply app_inj_2]; by try congruence.
Qed.
Lemma hash_sized_bytes x : hash_sized (hash_bytes CURRENT x).
Proof using Type. apply length_hash_bytes. Qed.
Lemma anon_leaf_inj x y : anon_leaf_string x = anon_leaf_string y → x = y.
Proof using Type. intros E%app_inv_head. by injection E. Qed.
Lemma anon_leaf_node x a b : anon_leaf_string x ≠ anon_node_string a b.
Proof using Type. intros E. discriminate E. Qed.
Lemma anon_node_inj a b c d : anon_node_string a b = anon_node_string c d →
  (hash_sized a ∧ hash_sized c) ∨ (hash_sized b ∧ hash_sized d) → a = c ∧ b = d.
Proof using Type. apply (tagged_inj (as_bytes "agenthalo.anon.membership.node.v1" ++ [x00])). Qed.
Lemma event_leaf_inj x y : event_leaf_string x = event_leaf_string y → x = y.
Proof using Type. intros E. by injection E. Qed.
Lemma event_leaf_node x a b : event_leaf_string x ≠ event_node_string a b.
Proof using Type. intros E. discriminate E. Qed.
Lemma event_node_inj a b c d : event_node_string a b = event_node_string c d →
  (hash_sized a ∧ hash_sized c) ∨ (hash_sized b ∧ hash_sized d) → a = c ∧ b = d.
Proof using Type. apply (tagged_inj [x01]). Qed.
Lemma blind_string_inj s t : blind_string s = blind_string t → s = t.
Proof using Type. intros E. by apply (inj as_bytes), str_app_inv_head in E. Qed.

(** The siblings that a proof names. *)
Definition proof_path (p : AnonymousMembershipProof) : list (bool * bytes) :=
  (λ st, (sibling_is_left st, default [] (hex_decode (sibling_hash st)))) <$> am_steps p.
Lemma climb_steps_ascend algo acc steps z :
  climb_steps algo acc steps = Ok z →
  z = ascend (anon_node_hash algo) acc
        ((λ st, (sibling_is_left st, default [] (hex_decode (sibling_hash st)))) <$> steps).
Proof using Type.
  revert acc. induction steps as [|st steps IH]; intros acc; cbn [climb_steps]; intros Hc; inv_res; [done|].
  match goal with Hx : hex_decode_var _ = _ |- _ => apply hex_decode_var_ok in Hx as [Hx _] end.
  match goal with Hx : climb_steps _ _ _ = _ |- _ => apply IH in Hx as -> end.
  cbn [fmap list_fmap]. match goal with Hx : hex_decode _ = _ |- _ => rewrite Hx end. done.
Qed.

(** The references of the sessions, in the order of the tree. *)
Definition member_refs (l : list SessionMetadata) : list bytes :=
  (λ p : string * bytes, default [] (hex_decode p.1)) <$> member_order l.
Lemma member_leaves l :
  (member_order l).*2 = anon_leaf_hash CURRENT <$> member_refs l ∧
  ∀ b, b ∈ member_refs l → ∃ s, s ∈ l ∧ b = blind_bytes (sm_session_id s).
Proof using Type.
  assert (Forall (λ p, ∃ s, s ∈ l ∧ p = member_pair (blind_bytes (sm_session_id s))) (member_order l)) as Hall.
  { unfold member_order. rewrite merge_sort_Permutation. apply Forall_forall.
    intros p (s & -> & Hs)%list_elem_of_fmap. by exists s. }
  unfold member_refs. induction Hall as [|p k (s & Hs & ->) _ [IH Hin]]; [split; [done|]; by intros b ?%not_elem_of_nil|].
  cbn [fmap list_fmap member_pair fst snd]. rewrite hex_decode_encode. simpl. split; [by f_equal|].
  intros b [->|Hb]%elem_of_cons; [by exists s|by apply Hin].
Qed.

(** What the check of a membership proof hashes, and what making the root did. *)
Definition membership_strings (l : list SessionMetadata) (sid : string) (p : AnonymousMembershipProof) : list bytes :=
  (blind_string <$> sid :: (sm_session_id <$> l)) ++
  (anon_leaf_string (blind_bytes sid) ::
   ascend_strings (hash_bytes CURRENT) anon_node_string (anon_leaf_hash CURRENT (blind_bytes sid)) (proof_path p) ++
   pair_strings (hash_bytes CURRENT) anon_leaf_string anon_node_string (member_refs l)).

(** A membership proof that is accepted, for the leaf of a session and the root of
    a non-empty set of recorded sessions, shows that the session is recorded, unless two
    different ones of the strings hashed for it have one hash. *)
Theorem attest_membership_sound l sid p :
  l ≠ [] → am_leaf_hash p = hex_encode (anon_leaf_hash CURRENT (blind_bytes sid)) →
  eq_ignore_ascii_case (membership_root p) (hex_encode (members_root l)) = true →
  verify_anonymous_membership_proof p = Ok true →
  (∃ s, s ∈ l ∧ sm_session_id s = sid) ∨ collides (hash_bytes CURRENT) (membership_strings l sid p).
Proof using Type.
  intros Hne Hleaf Hroot Hv. unfold verify_anonymous_membership_proof in Hv. rewrite Hleaf in Hv.
  rewrite algorithm_of_anon in Hv.
  rewrite hex_decode_var_encode in Hv by apply hash_bytes_nonempty. inv_res.
  apply climb_steps_ascend in Hv0 as ->. fold (proof_path p) in Hv.
  apply eq_ignore_decode in Hv, Hroot. rewrite Hroot, !hex_decode_encode in Hv. injection Hv as Hv.
  destruct (member_leaves l) as [Hbs Hin]. unfold members_root in Hv.
  rewrite <-(length_member_order l), Hbs in Hv.
  assert (length (member_order l) = length (member_refs l)) as Hlen by (unfold member_refs; by rewrite length_fmap).
  rewrite Hlen in Hv.
  assert (member_refs l ≠ []) as Hrefs.
  { intros E. rewrite E, length_member_order in Hlen. by destruct l. }
  destruct (pair_rounds_one (anon_node_hash CURRENT) (length (member_refs l)) (anon_leaf_hash CURRENT <$> member_refs l))
    as [r Hr]; [by destruct (member_refs l)|by rewrite length_fmap|].
  rewrite Hr in Hv. simpl in Hv.
  assert (∀ T, T ⊆ membership_strings l sid p → collides (hash_bytes CURRENT) T →
    collides (hash_bytes CURRENT) (membership_strings l sid p)) as Hmono by (intros T; apply collides_mono).
  destruct (pair_climb_sound (hash_bytes CURRENT) anon_leaf_string anon_node_string hash_sized hash_sized_bytes
    anon_leaf_inj anon_leaf_node anon_node_inj (blind_bytes sid) (proof_path p) (member_refs l) Hrefs) as [Hm|Hc].
  - etrans; [exact Hr|]. f_equal. symmetry. exact Hv.
  - apply Hin in Hm as (s & Hs & [E|Hc]%(inj_or_collides (hash_bytes CURRENT))).
    + left. exists s. split; [done|]. symmetry. by apply blind_string_inj.
    + right. revert Hc. apply Hmono. unfold membership_strings. intros z. rewrite !elem_of_cons, elem_of_app.
      intros [->|[->|[]%not_elem_of_nil]]; left; apply list_elem_of_fmap.
      * exists sid. split; [done|left].
      * exists (sm_session_id s). split; [done|right]. by apply list_elem_of_fmap_2.
  - right. revert Hc. apply Hmono. unfold membership_strings. intros z Hz. apply elem_of_app. by right.
Qed.

(** Such a proof says nothing on its own: every leaf is accepted under itself as the root,
    whatever the index and the size that it names. *)
Lemma membership_alone b index size :
  b ≠ [] → verify_anonymous_membership_proof {| membership_root := hex_encode b; am_leaf_hash := hex_encode b;
    am_tree_size := size; am_leaf_index := index; am_steps := [] |} = Ok true.
Proof using Type.
  intros Hb. unfold verify_anonymous_membership_proof. cbn. rewrite hex_decode_var_encode by done. simpl.
  by rewrite eq_ignore_refl.
Qed.

(** The hash of the content of an event, by the algorithm that the length of its content
    hash names. *)
Definition content_digest (ev : TraceEvent) : bytes :=
  hash_bytes (algorithm_of (te_content_hash ev)) (json_to_vec (te_content ev)).
Lemma verify_event_hash_ok ev :
  verify_event_hash ev = Ok () → to_ascii_lowercase (te_content_hash ev) = hex_encode (content_digest ev).
Proof using Type.
  unfold verify_event_hash. intros Hv. inv_res. unfold throw_if in Hv. destruct (negb _) eqn:E; [done|].
  apply negb_false_iff, bool_decide_eq_true in E. by symmetry.
Qed.
Lemma verified_hashes_all events :
  Forall (λ ev, verify_event_hash ev = Ok ()) events →
  verified_hashes events = Ok (hex_encode <$> (content_digest <$> events)).
Proof using Type.
  intros Hall. rewrite <-list_fmap_compose. apply try_map_ok. intros ev Hev. rewrite Forall_forall in Hall.
  rewrite (Hall ev Hev). simpl. by rewrite (verify_event_hash_ok ev (Hall ev Hev)).
Qed.
(** The first event whose hash is refused decides. *)
Lemma verified_hashes_err pre ev post x :
  Forall (λ ev, verify_event_hash ev = Ok ()) pre → verify_event_hash ev = Err x →
  verified_hashes (pre ++ ev :: post) = Err x.
Proof using Type.
  intros Hpre Hx. unfold verified_hashes. induction Hpre as [|e pre He _ IH]; cbn [app try_map].
  - by rewrite Hx.
  - rewrite He. cbn [mbind result_bind mret result_ret]. by rewrite IH.
Qed.
Lemma recorded_verified es :
  Forall (λ et : TraceEvent * N, is_blank (te_content_hash et.1) = true) es →
  Forall (λ ev, verify_event_hash ev = Ok ()) (recorded es).
Proof using Type.
  intros Hs%recorded_self_hashed. eapply Forall_impl; [exact Hs|]. intros ev Hev.
  unfold self_hashed, event_content_hash in Hev. unfold verify_event_hash.
  rewrite Hev, hash_hex_not_blank, algorithm_of_hash, hash_hex_lower. simpl. by rewrite bool_decide_eq_true_2.
Qed.

(** Claim C25. What attesting a session gives, from the events that are read for it.  A
    session without events is refused, and so is one with an event whose content hash is
    blank or is not the hash of its content: the first such event gives the error.  All
    other sessions, which are those whose events [write_event] hashed itself, are attested
    (anonymously, if they are listed): the hashes are those of the contents in order, the
    root is the root over them and the digest is over the public reference, the root and
    the number of events; an anonymous attestation names the session by its blinded
    reference only and holds a proof that is accepted and has the root of the listed
    sessions. *)
Theorem attest_recorded_session E file sid anonymous events :
  session_events E file sid = Ok events →
  let attested := attest_session E file (mk_AttestationRequest sid anonymous) in
  (events = [] → attested = Err (AtNoEvents sid)) ∧
  (∀ pre ev post x, events = pre ++ ev :: post → Forall (λ ev, verify_event_hash ev = Ok ()) pre →
     verify_event_hash ev = Err x → attested = Err x) ∧
  (∀ es, Forall (λ et : TraceEvent * N, is_blank (te_content_hash et.1) = true) es →
     Forall (λ ev, verify_event_hash ev = Ok ()) (recorded es)) ∧
  ∀ l, events ≠ [] → Forall (λ ev, verify_event_hash ev = Ok ()) events →
    (anonymous = true → list_sessions E file = Ok l ∧ ∃ s, s ∈ l ∧ sm_session_id s = sid) →
    ∃ r, attested = Ok r ∧
      at_content_hashes r = hex_encode <$> (content_digest <$> events) ∧
      at_merkle_root r = hex_encode (event_root (content_digest <$> events)) ∧
      at_attestation_digest r =
        digest_attestation (if anonymous then blinded_session_reference sid else sid) (at_merkle_root r)
          (N.of_nat (length events)) ∧
      at_session_id r = (if anonymous then None else Some sid) ∧
      if anonymous then
        ∃ p, at_membership_proof r = Some p ∧ verify_anonymous_membership_proof p = Ok true ∧
          membership_root p = hex_encode (members_root l) ∧
          am_leaf_hash p = hex_encode (anon_leaf_hash CURRENT (blind_bytes sid))
      else at_membership_proof r = None.
Proof using Type.
  intros Hev attested. unfold attested, attest_session. cbn [ar_session_id ar_anonymous].
  rewrite Hev. cbn [map_err mbind result_bind]. split_and!.
  - intros ->. done.
  - intros pre ev post x -> Hpre Hx. rewrite bool_decide_eq_false_2 by (rewrite length_app; simpl; lia).
    cbn [throw_if mbind result_bind]. by rewrite (verified_hashes_err _ _ _ _ Hpre Hx).
  - apply recorded_verified.
  - intros l Hne Hall Hl. rewrite bool_decide_eq_false_2 by (by destruct events).
    cbn [throw_if mbind result_bind]. rewrite (verified_hashes_all _ Hall). cbn [mbind result_bind].
    rewrite merkle_root_ok; [|by destruct events|].
    2:{ apply Forall_fmap, Forall_forall. intros ev _. apply hash_bytes_nonempty. }
    cbn [mbind result_bind]. rewrite !length_fmap. destruct anonymous.
    + destruct (Hl eq_refl) as [-> Hin]. destruct (membership_complete l sid Hin) as (p & Hp & Hv & Hr & Hlf).
      cbn [map_err mbind result_bind]. rewrite Hp. eexists. split; [done|]. cbn. repeat (split; [done|]). by exists p.
    + eexists. split; [done|]. cbn. done.
Qed.

(** ** What a digest fixes *)

(** The name of the session in the digest. *)
Definition public_ref (r : AttestationResult) : string :=
  default "" (if at_anonymous r then at_blinded_session_ref r else at_session_id r).

Lemma digest_attestation_inj ref ref' m m' n n' :
  digest_attestation ref (hex_encode m) n = digest_attestation ref' (hex_encode m') n' →
  (ref = ref' ∧ m = m' ∧ n = n') ∨
  hash_collides [digest_string ref (hex_encode m) n; digest_string ref' (hex_encode m') n'].
Proof using Type.
  intros [[_ E]|]%hash_hex_inj; [left|by right]. apply (inj as_bytes), str_app_inv_head in E.
  assert (∀ u (x : bytes) k, u +:+ ":" +:+ hex_encode x +:+ ":" +:+ dec k
    = (u +:+ String ":" (hex_encode x)) +:+ String ":" (dec k)) as Hsplit by (intros; by rewrite str_app_assoc).
  rewrite !Hsplit in E. apply (f_equal (rsplit_once ":")) in E.
  rewrite !rsplit_once_app in E by apply dec_no_colon. injection E as E En%dec_inj.
  apply (f_equal (rsplit_once ":")) in E. rewrite !rsplit_once_app in E by apply hex_no_colon.
  injection E as -> Em%(inj hex_encode). done.
Qed.

Definition hashes_event (ev : TraceEvent) (h : bytes) : Prop := ∃ a, h = hash_bytes a (json_to_vec (te_content ev)).
Lemma verified_hashes_ok events out :
  verified_hashes events = Ok out → ∃ hs, out = hex_encode <$> hs ∧ Forall2 hashes_event events hs.
Proof using Type.
  intros Hv%try_map_Forall2. induction Hv as [|ev y events out Hy _ (hs & -> & Hhs)]; [by exists []|].
  cbv beta in Hy. inv_res. unfold verify_event_hash in Hy0. inv_res. unfold throw_if in Hy0.
  destruct (negb _) eqn:E; [done|]. apply negb_false_iff, bool_decide_eq_true in E.
  eexists (_ :: hs). cbn [fmap list_fmap]. split; [f_equal; symmetry; exact E|].
  constructor; [|done]. by eexists.
Qed.
Definition contents (evs : list TraceEvent) : list bytes := (λ ev, json_to_vec (te_content ev)) <$> evs.
Lemma hashes_event_inj evs evs' hs :
  Forall2 hashes_event evs hs → Forall2 hashes_event evs' hs →
  contents evs = contents evs' ∨ hash_collides (contents evs ++ contents evs').
Proof using Type.
  intros He. revert evs'. induction He as [|ev h evs hs [a Ha] _ IH]; intros evs' He'.
  - apply Forall2_nil_inv_r in He' as ->. by left.
  - apply Forall2_cons_inv_r in He' as (ev' & evs2 & [a' Ha'] & He' & ->).
    apply IH in He' as [He'|Hc].
    2:{ right. revert Hc. apply hash_collides_mono. unfold contents. cbn [fmap list_fmap]. set_solver. }
    assert (hash_hex a (json_to_vec (te_content ev)) = hash_hex a' (json_to_vec (te_content ev'))) as E
      by (unfold hash_hex; congruence).
    apply hash_hex_inj in E as [[_ E]|Hc]; [left; unfold contents; cbn [fmap list_fmap]; by f_equal|].
    right. revert Hc. apply hash_collides_mono. unfold contents. cbn [fmap list_fmap]. set_solver.
Qed.

(** What a successful attestation has put together. *)
Lemma attest_session_ok E file q r :
  attest_session E file q = Ok r →
  ∃ events hs, session_events E file (ar_session_id q) = Ok events ∧ hs ≠ [] ∧
    Forall2 hashes_event events hs ∧ at_content_hashes r = hex_encode <$> hs ∧
    at_merkle_root r = hex_encode (event_root hs) ∧
    public_ref r = (if ar_anonymous q then blinded_session_reference (ar_session_id q) else ar_session_id q) ∧
    at_attestation_digest r = digest_attestation (public_ref r) (at_merkle_root r) (N.of_nat (length hs)).
Proof using Type.
  intros Ha. unfold attest_session in Ha. inv_res.
  match goal with Hx : session_events _ _ _ = Ok ?evs |- _ => rename evs into events, Hx into Hev end.
  match goal with Hx : verified_hashes _ = Ok _ |- _ => apply verified_hashes_ok in Hx as (hs & -> & Hhs) end.
  assert (hs ≠ []) as Hne.
  { intros ->. apply Forall2_nil_inv_r in Hhs. by subst. }
  match goal with Hx : merkle_root_from_hashes _ = Ok _ |- _ => rewrite merkle_root_ok in Hx; [injection Hx as <-|done|] end.
  2:{ eapply Forall2_Forall_r; [exact Hhs|]. apply Forall_forall. intros ev _ h [a ->]. apply hash_bytes_nonempty. }
  exists events, hs. split; [done|]. split; [done|]. split; [done|].
  unfold public_ref. cbn. rewrite length_fmap. split; [done|]. split; [done|]. by destruct (ar_anonymous q).
Qed.

(** The strings hashed for an attestation: the text of the digest, the name of the session,
    the contents of its events and the tree over their hashes. *)
Definition decoded_hashes (r : AttestationResult) : list bytes :=
  (λ h, default [] (hex_decode h)) <$> at_content_hashes r.
Definition attestation_strings E file (q : AttestationRequest) (r : AttestationResult) : list bytes :=
  digest_string (public_ref r) (at_merkle_root r) (N.of_nat (length (at_content_hashes r))) ::
  blind_string (ar_session_id q) ::
  match session_events E file (ar_session_id q) with Ok evs => contents evs | Err _ => [] end ++
  pair_strings (hash_bytes CURRENT) event_leaf_string event_node_string (decoded_hashes r).

Lemma event_root_inj hs hs' :
  hs ≠ [] → hs' ≠ [] → event_root hs = event_root hs' →
  hs = hs' ∨ hash_collides (pair_strings (hash_bytes CURRENT) event_leaf_string event_node_string hs ++
                            pair_strings (hash_bytes CURRENT) event_leaf_string event_node_string hs').
Proof using Type.
  intros Hne Hne' E.
  assert (∀ k : list bytes, k ≠ [] → pair_rounds (event_node CURRENT) (length k) (event_leaf CURRENT <$> k) = [event_root k]) as Hr.
  { intros k Hk. unfold event_root.
    destruct (pair_rounds_one (event_node CURRENT) (length k) (event_leaf CURRENT <$> k)) as [x ->];
      [by destruct k|by rewrite length_fmap|done]. }
  destruct (pair_root_binding (hash_bytes CURRENT) event_leaf_string event_node_string hash_sized hash_sized_bytes
    event_leaf_inj event_leaf_node event_node_inj hs hs' Hne Hne') as [?|?]; [|by left|right; by eapply collides_any].
  etrans; [exact (Hr hs Hne)|]. rewrite E. symmetry. exact (Hr hs' Hne').
Qed.

(** An attestation digest fixes what it attests.  Two attestations with the same
    digest, of whatever files and sessions, name the same public reference and have the same
    root and the same content hashes, made from events with the same encoded contents in
    the same order; if both are anonymous, or neither is, they are of the same session
    identifier; or two different ones of the strings hashed for them have one hash. *)
Theorem attestation_digest_binds E E' file file' q q' r r' :
  attest_session E file q = Ok r → attest_session E' file' q' = Ok r' →
  at_attestation_digest r = at_attestation_digest r' →
  (public_ref r = public_ref r' ∧ at_merkle_root r = at_merkle_root r' ∧
   at_content_hashes r = at_content_hashes r' ∧
   (∃ evs evs', session_events E file (ar_session_id q) = Ok evs ∧
      session_events E' file' (ar_session_id q') = Ok evs' ∧ contents evs = contents evs') ∧
   (ar_anonymous q = ar_anonymous q' → ar_session_id q = ar_session_id q')) ∨
  hash_collides (attestation_strings E file q r ++ attestation_strings E' file' q' r').
Proof using Type.
  intros Ha Ha' Ed. apply attest_session_ok in Ha as (evs & hs & Hev & Hne & Hhs & Hc & Hr & Hp & Hd).
  apply attest_session_ok in Ha' as (evs' & hs' & Hev' & Hne' & Hhs' & Hc' & Hr' & Hp' & Hd').
  assert (∀ k : list bytes, (λ h, default [] (hex_decode h)) <$> (hex_encode <$> k) = k) as Hdec.
  { clear. induction k as [|x k IH]; [done|]. cbn [fmap list_fmap]. rewrite hex_decode_encode. simpl. by f_equal. }
  assert (∀ T, T ⊆ attestation_strings E file q r ++ attestation_strings E' file' q' r' → hash_collides T →
    hash_collides (attestation_strings E file q r ++ attestation_strings E' file' q' r')) as Hmono
    by (intros T; apply hash_collides_mono).
  unfold attestation_strings, decoded_hashes in Hmono |- *. rewrite Hev, Hev', Hc, Hc', !Hdec, !length_fmap in Hmono |- *.
  rewrite Hd, Hd', Hr, Hr' in Ed. rewrite Hr, Hr' in Hmono |- *.
  apply digest_attestation_inj in Ed as [(Eref & Eroot & Elen)|Hx].
  2:{ right. revert Hx. apply Hmono. intros z. rewrite !elem_of_app, !elem_of_cons, elem_of_nil. tauto. }
  apply event_root_inj in Eroot as [<-|Hx]; [| |done..].
  2:{ right. revert Hx. apply Hmono. intros z. rewrite !elem_of_app, !elem_of_cons, !elem_of_app. tauto. }
  destruct (hashes_event_inj _ _ _ Hhs Hhs') as [Econt|Hx].
  2:{ right. revert Hx. apply Hmono. intros z. rewrite !elem_of_app, !elem_of_cons, !elem_of_app. tauto. }
  rewrite Hp, Hp' in Eref.
  destruct (decide (ar_anonymous q = ar_anonymous q')) as [Eq|Nq].
  - assert (ar_session_id q = ar_session_id q' ∨ hash_collides [blind_string (ar_session_id q); blind_string (ar_session_id q')])
      as [Es|Hx].
    { rewrite <-Eq in Eref. destruct (ar_anonymous q); [|by left].
      apply hash_hex_inj in Eref as [[_ Es]|]; [left|by right]. by apply blind_string_inj. }
    + left. rewrite Hp, Hp'. repeat (split; [done|]). split; [by exists evs, evs'|done].
    + right. revert Hx. apply Hmono. intros z. rewrite !elem_of_app, !elem_of_cons, elem_of_nil. tauto.
  - left. rewrite Hp, Hp'. repeat (split; [done|]). split; [by exists evs, evs'|done].
Qed.
End attest_spec.

(** ** A concrete attestation *)

Section witnesses.
#[local] Existing Instances prefix_sha toy_ristretto toy_kzg toy_sig raw_json id_powf toy_redb toy_redb_laws
  plain_access one_day ex_trace_json ex_persist.

Definition ex_file : option RedbFile := ex_run.1.2.1.
Lemma ex_file_events : session_events ex_E ex_file "s1" = Ok (recorded ex_trace_events).
Proof. vm_compute. reflexivity. Qed.
Lemma ex_file_sessions : list_sessions ex_E ex_file = Ok [ex_meta'].
Proof. vm_compute. reflexivity. Qed.

(** The recorded session is attested; a session of which nothing is on file is refused. *)
Lemma attest_recorded_session_witness :
  (∃ r p, attest_session ex_E ex_file (mk_AttestationRequest "s1" true) = Ok r ∧
    at_session_id r = None ∧ at_membership_proof r = Some p ∧ verify_anonymous_membership_proof p = Ok true) ∧
  attest_session ex_E None (mk_AttestationRequest "s1" false) = Err (AtNoEvents "s1").
Proof.
  split.
  - destruct (attest_recorded_session ex_E ex_file "s1" true (recorded ex_trace_events) ex_file_events)
      as (_ & _ & Hrec & Hok).
    destruct (Hok [ex_meta']) as (r & Hr & _ & _ & _ & Hid & p & Hp & Hv & _).
    + done.
    + apply Hrec. by repeat constructor.
    + intros _. split; [apply ex_file_sessions|]. exists ex_meta'. split; [apply list_elem_of_here|reflexivity].
    + exists r, p. split; [exact Hr|]. split; [exact Hid|]. split; [exact Hp|exact Hv].
  - apply (attest_recorded_session ex_E None "s1" false []); [vm_compute; reflexivity|done].
Defined.

Definition ex_member : SessionMetadata := meta_ended ex_meta 1010 SFailed.
Definition ex_proof : AnonymousMembershipProof :=
  match build_anonymous_membership_proof [ex_meta'; ex_member] (blinded_session_reference "s1") with
  | Ok p => p
  | Err _ => {| membership_root := ""; am_leaf_hash := ""; am_tree_size := 0; am_leaf_index := 0; am_steps := [] |}
  end.
Lemma attest_membership_sound_witness :
  length (am_steps ex_proof) = 1 ∧
  ((∃ s, s ∈ [ex_meta'; ex_member] ∧ sm_session_id s = "s1") ∨
   collides (hash_bytes CURRENT) (membership_strings [ex_meta'; ex_member] "s1" ex_proof)).
Proof.
  split; [vm_compute; reflexivity|].
  apply (attest_membership_sound [ex_meta'; ex_member] "s1" ex_proof); [done|vm_compute; reflexivity..].
Defined.

Definition ex_attestation : AttestationResult :=
  match attest_session ex_E ex_file (mk_AttestationRequest "s1" false) with
  | Ok r => r
  | Err _ => {| at_session_id := None; at_blinded_session_ref := None; at_merkle_root := ""; at_event_count := 0;
      at_content_hashes := []; at_witness_algorithm := ""; at_attestation_digest := ""; at_timestamp := 0;
      at_anonymous := false; at_proof_type := ""; at_membership_proof := None |}
  end.
Lemma attestation_digest_binds_witness :
  length (at_content_hashes ex_attestation) = 2 ∧
  (at_content_hashes ex_attestation = at_content_hashes ex_attestation ∨
   hash_collides (attestation_strings ex_E ex_file (mk_AttestationRequest "s1" false) ex_attestation ++
     attestation_strings ex_E ex_file (mk_AttestationRequest "s1" false) ex_attestation)).
Proof.
  split; [vm_compute; reflexivity|].
  assert (attest_session ex_E ex_file (mk_AttestationRequest "s1" false) = Ok ex_attestation) as Hr by (vm_compute; reflexivity).
  destruct (attestation_digest_binds ex_E ex_E ex_file ex_file (mk_AttestationRequest "s1" false)
    (mk_AttestationRequest "s1" false) ex_attestation ex_attestation Hr Hr eq_refl) as [Hb|Hb]; [left|right; exact Hb].
  exact (proj1 (proj2 (proj2 Hb))).
Defined.
End witnesses.
