(* ===== verification/Codec.v ===== *)
(** * A byte encoding for examples

    Every countable type has bytes: the bits of its code.  Stand-ins for encoders outside
    the repository use it. *)
From stdpp Require Export countable.
From S2P Require Export Crypto.

Fixpoint pos_bits (p : positive) : bytes :=
  match p with xH => [] | xO p => x00 :: pos_bits p | xI p => x01 :: pos_bits p end.
Fixpoint bits_pos (l : bytes) : positive :=
  match l with [] => xH | x00 :: l => xO (bits_pos l) | _ :: l => xI (bits_pos l) end.
Lemma bits_pos_bits p : bits_pos (pos_bits p) = p.
Proof. induction p; cbn; by f_equal. Qed.

Definition code {A} `{Countable A} (x : A) : bytes := pos_bits (encode x).
Definition uncode {A} `{Countable A} (b : bytes) : option A := decode (bits_pos b).
Lemma uncode_code {A} `{Countable A} (x : A) : uncode (code x) = Some x.
Proof. unfold uncode, code. rewrite bits_pos_bits. apply decode_encode. Qed.
