(* ===== verification/Kem.v ===== *)
(** * The hybrid key encapsulation: [src/src/halo/hybrid_kem.rs]

    X25519 combined with ML-KEM-768.  The curves, the lattice scheme, HKDF and AES-GCM are
    class parameters; random numbers are arguments. *)
From S2P Require Export Did.

(** [Aes256Gcm]: key, nonce, text; [None] is an [Err].  The cipher text carries its tag. *)
Class AeadLib := {
  aes_encrypt : arr 32 → arr 12 → bytes → option bytes;
  aes_decrypt : arr 32 → arr 12 → bytes → option bytes
}.
Class AeadLib_Laws (A : AeadLib) : Prop := {
  aes_roundtrip k n m c : aes_encrypt k n m = Some c → aes_decrypt k n c = Some m
}.
(** [Hkdf::<H>::new(salt, ikm).expand(info)] into 32 bytes; [None] is an [Err]. *)
Class HkdfLib := {
  hkdf_sha256 : option bytes → bytes → bytes → option (arr 32);
  hkdf_sha512 : option bytes → bytes → bytes → option (arr 32)
}.
(** [x25519_dalek] and [ml_kem]. *)
Class KemLib `{DidLib} := {
  x25519_dh : X25519Secret → arr 32 → arr 32;
  MlKemEk : Type;
  (** [EncapsulationKey::from_bytes] after the length check. *)
  mlkem_ek_from_bytes : bytes → option MlKemEk;
  (** The random bytes, then the cipher text and the shared secret. *)
  mlkem_encapsulate : MlKemEk → bytes → option (bytes * bytes);
  mlkem_decapsulate : MlKemKey → bytes → option bytes
}.
Definition MLKEM768_CT_LEN : nat := 1088.
(** Documented: both sides of an agreement get one secret. *)
Class KemLib_Laws `(K : KemLib) : Prop := {
  x25519_agree a b : x25519_dh a (x25519_public b) = x25519_dh b (x25519_public a);
  mlkem_agree dk : ∃ ek, mlkem_ek_from_bytes (mlkem_public dk) = Some ek ∧
    ∀ r ct ss, mlkem_encapsulate ek r = Some (ct, ss) →
      mlkem_decapsulate dk ct = Some ss ∧ length ct = MLKEM768_CT_LEN
}.

Definition HYBRID_KEM_SALT : bytes := as_bytes "AgentHALO-HybridKEM-v2".

Inductive HybridKemError :=
| MlKemEncapFailed
| MlKemDecapFailed
| MlKemCtDeserFailed (len : nat)
| MlKemEkDeserFailed (len : nat)
| HkdfExpandFailed
| MissingMlKemKey.

Section kem.
Context `{DL : DidLib, K : !KemLib, HK : HkdfLib}.

Record HybridKemEncapResult := {
  shared_secret : arr 32;
  x25519_ephemeral_pk : arr 32;
  mlkem_ciphertext : option bytes
}.

Definition combine_shared_secrets (x25519_ss : arr 32) (mlkem_ss mlkem_ct : option bytes) (info : bytes)
  : result HybridKemError (arr 32) :=
  let ikm := arr_bytes x25519_ss ++
    match mlkem_ss, mlkem_ct with Some ss, Some ct => ss ++ ct | _, _ => [] end in
  ok_or (hkdf_sha512 (Some HYBRID_KEM_SALT) ikm info) HkdfExpandFailed.

(** [eph] and [rnd] are the random numbers of the two schemes. *)
Definition hybrid_encap (recipient_x25519_pk : arr 32) (recipient_mlkem_ek : option MlKemEk) (info : bytes)
    (eph : arr 32) (rnd : bytes) : result HybridKemError HybridKemEncapResult :=
  let esk := x25519_from eph in
  let x25519_ss := x25519_dh esk recipient_x25519_pk in
  kem ← match recipient_mlkem_ek with
        | Some ek => '(ct, ss) ← ok_or (mlkem_encapsulate ek rnd) MlKemEncapFailed; mret (Some ss, Some ct)
        | None => mret (None, None)
        end;
  combined ← combine_shared_secrets x25519_ss kem.1 kem.2 info;
  mret {| shared_secret := combined; x25519_ephemeral_pk := x25519_public esk; mlkem_ciphertext := kem.2 |}.

Definition hybrid_decap (x25519_ephemeral_pk : arr 32) (mlkem_ciphertext : option bytes)
    (own_x25519_sk : X25519Secret) (own_mlkem_dk : option MlKemKey) (info : bytes)
  : result HybridKemError (arr 32) :=
  let x25519_ss := x25519_dh own_x25519_sk x25519_ephemeral_pk in
  ss ← match mlkem_ciphertext with
       | Some ct =>
           dk ← ok_or own_mlkem_dk MissingMlKemKey;
           _ ← throw_if (negb (length ct =? MLKEM768_CT_LEN)) (MlKemCtDeserFailed (length ct));
           ss ← ok_or (mlkem_decapsulate dk ct) MlKemDecapFailed;
           mret (Some ss)
       | None => mret None
       end;
  combine_shared_secrets x25519_ss ss mlkem_ciphertext info.

Definition mlkem768_ek_from_bytes (raw : bytes) : result HybridKemError MlKemEk :=
  ok_or (mlkem_ek_from_bytes raw) (MlKemEkDeserFailed (length raw)).

(** The recipient derives the secret of the sender, with and without ML-KEM. *)
Lemma hybrid_roundtrip `{!KemLib_Laws K} sk dk ek info eph rnd r :
  mlkem_ek_from_bytes (mlkem_public dk) = ek ∨ ek = None →
  hybrid_encap (x25519_public sk) ek info eph rnd = Ok r →
  (is_Some ek ↔ is_Some (mlkem_ciphertext r)) ∧
  hybrid_decap (x25519_ephemeral_pk r) (mlkem_ciphertext r) sk (Some dk) info = Ok (shared_secret r).
Proof.
  intros Hek. unfold hybrid_encap. destruct (mlkem_agree dk) as (ek' & Hek' & Hkem).
  destruct ek as [ek|]; intros Hr; inv_res.
  - destruct Hek as [Hek|]; [|done]. rewrite Hek' in Hek. injection Hek as ->.
    match goal with Hx : mlkem_encapsulate _ _ = Some ?p |- _ => destruct p as [ct ss]; apply Hkem in Hx as [Hdec Hlen] end.
    inv_res. cbn. split; [by split; intros; eexists|].
    unfold hybrid_decap. rewrite Hlen, Nat.eqb_refl. cbn. rewrite Hdec. cbn.
    by rewrite x25519_agree.
  - cbn. split; [by split; intros []|]. unfold hybrid_decap. cbn. by rewrite x25519_agree.
Qed.
End kem.
