(* ===== verification/Didcomm.v ===== *)
(** * Encrypted messages between agents: [src/src/comms/] and the keys of
    [src/src/halo/didcomm.rs]

    The key agreement shared by two envelope formats, and the first of them: [Mesh] is
    [comms/didcomm.rs] with the messages of [comms/envelope.rs] and the sessions of
    [comms/session.rs].  Random numbers and the clock, read once a call, are arguments;
    debug assertions are off. *)
From S2P Require Export Kem Pod TypedValue.

(** [getrandom] fails as [None]. *)
Record DcRng := { rng_eph : arr 32; rng_kem : bytes; rng_nonce : option (arr 12) }.

Inductive DcError :=
| DcNoX25519 | DcX25519Text | DcX25519Prefix | DcX25519Len
| DcSerialize (what : string)
| DcKem (e : HybridKemError)
| DcHkdf | DcEntropy | DcEncrypt
| DcSign (e : string)
| DcBase64 (field : string)
| DcNonceLen | DcEpkLen | DcNoPqCt
| DcVerify (e : string)
| DcBadSignature | DcDecrypt
| DcParse (what : string)
| DcExpired | DcWrongType
| DcMissing (field : string)
| DcNested
| DcKind (kind : string)
| DcUnresolved (did_uri : string)
| DcNoSession (did_uri : string)
| DcNoPending (id : string).

(** [str::contains] of a text. *)
Fixpoint contains (p s : string) : bool :=
  starts_with s p || match s with EmptyString => false | String _ s' => contains p s' end.

(** ** Keys of documents and messages: [halo/didcomm.rs] *)

Section keys.
Context `{DL : DidLib, K : !KemLib, HK : HkdfLib, AE : AeadLib}.

Definition X25519_PREFIX : bytes := [xec; x01].
Definition find_agreement (doc : DIDDocument) (ty : string) : option KeyAgreementMethod :=
  List.find (λ m, bool_decide (vm_type m = ty)) (key_agreement doc).
Definition extract_x25519_public_key_from_doc (doc : DIDDocument) : result DcError (arr 32) :=
  method ← ok_or (find_agreement doc TYPE_X25519) DcNoX25519;
  decoded ← ok_or (multibase_decode (public_key_multibase method)) DcX25519Text;
  _ ← throw_if ((length decoded <? length X25519_PREFIX) ||
        negb (bool_decide (take (length X25519_PREFIX) decoded = X25519_PREFIX))) DcX25519Prefix;
  ok_or (try_arr 32 (drop (length X25519_PREFIX) decoded)) DcX25519Len.
Definition extract_mlkem_encapsulation_key_from_doc (doc : DIDDocument) : option MlKemEk :=
  method ← find_agreement doc TYPE_MLKEM768;
  decoded ← multibase_decode (public_key_multibase method);
  res_ok (mlkem768_ek_from_bytes decoded).

Definition derive_key (secret : arr 32) (info : bytes) : result DcError (arr 32) :=
  ok_or (hkdf_sha256 None (arr_bytes secret) info) DcHkdf.
Definition random_nonce (rng : DcRng) : result DcError (arr 12) := ok_or (rng_nonce rng) DcEntropy.
Definition encrypt_with_key (key : arr 32) (plaintext : bytes) (nonce : arr 12) : result DcError bytes :=
  ok_or (aes_encrypt key nonce plaintext) DcEncrypt.
Definition decrypt_with_key (key : arr 32) (ciphertext : bytes) (nonce : arr 12) : result DcError bytes :=
  ok_or (aes_decrypt key nonce ciphertext) DcDecrypt.

(** The key of an envelope, the key to send with it and the ML-KEM cipher text: hybrid when
    the recipient has an ML-KEM key, or the agreement of [own]. *)
Definition sender_key (own : X25519Secret) (recipient_x25519 : arr 32) (ek : option MlKemEk) (info : bytes)
    (rng : DcRng) : result DcError (arr 32 * arr 32 * option bytes) :=
  match ek with
  | Some ek =>
      encap ← map_err DcKem (hybrid_encap recipient_x25519 (Some ek) info (rng_eph rng) (rng_kem rng));
      mret (shared_secret encap, x25519_ephemeral_pk encap, mlkem_ciphertext encap)
  | None =>
      key ← derive_key (x25519_dh own recipient_x25519) info;
      mret (key, x25519_public own, None)
  end.
(** The same key for the recipient. *)
Definition recipient_key (decode : string → option bytes) (pq_kem pq_ct : option string) (peer : arr 32)
    (recipient : DIDIdentity) (info : bytes) : result DcError (arr 32) :=
  match pq_kem with
  | Some _ =>
      text ← ok_or pq_ct DcNoPqCt;
      ct ← ok_or (decode text) (DcBase64 "ML-KEM ciphertext");
      map_err DcKem (hybrid_decap peer (Some ct) (x25519_agreement_key recipient)
        (Some (mlkem768_decapsulation_key recipient)) info)
  | None => derive_key (x25519_dh (x25519_agreement_key recipient) peer) info
  end.
Definition PQ_KEM : string := "ML-KEM-768".
Definition pq_name (ct : option bytes) : option string := (λ _, PQ_KEM) <$> ct.
End keys.

(** ** The mesh: [comms/didcomm.rs] *)

Module Mesh.
Definition HKDF_MESH_DIDCOMM_INFO : bytes := as_bytes "agenthalo-mesh-didcomm-v2".
Definition CONTENT_TYPE : string := "application/didcomm-encrypted+json".

Inductive MessageType :=
| McpToolCall | McpToolResponse | EnvelopeExchange | CapabilityGrant | CapabilityAccept | PeerAnnounce
| Heartbeat.
#[export] Instance MessageType_eq_dec : EqDecision MessageType.
Proof. solve_decision. Defined.

Section message.
Context `{SerdeJson}.
Record DIDCommMessage := mk_Message {
  m_id : string;
  m_type : MessageType;
  m_from : string;
  m_to : list string;
  m_created_time : N;
  m_expires_time : option N;
  m_body : JsonValue;
  m_thid : option string;
  m_pthid : option string
}.
End message.
Record DIDCommEnvelope := {
  typ : string;
  epk_x25519 : string;
  e_nonce : string;
  e_ciphertext : string;
  tag : string;
  sender_did : string;
  signature_ed25519 : string;
  signature_mldsa65 : string;
  pq_kem : option string;
  pq_ct : option string
}.

(** [comms/envelope.rs]. *)
Record OrchestratorTaskEnvelope := {
  ot_task_id : string;
  source_agent_id : string;
  target_agent_id : string;
  ot_prompt : string;
  ot_timeout_secs : N
}.
Record OrchestratorResultEnvelope := {
  or_task_id : string;
  or_status : string;
  or_result : option string;
  or_error : option string;
  exit_code : option Z
}.

(** [serde_json] on these types; [None] is an [Err]. *)
Class MeshJson `{SerdeJson} := {
  msg_to_vec : DIDCommMessage → option bytes;
  msg_from_slice : bytes → option DIDCommMessage;
  token_to_value : CapabilityToken → option JsonValue;
  token_from_value : JsonValue → option CapabilityToken;
  result_from_value : JsonValue → option OrchestratorResultEnvelope;
  json_as_i64 : JsonValue → option Z;
  json_array : list JsonValue → JsonValue
}.

Section mesh.
Context `{SHA : Sha2, DL : DidLib, K : !KemLib, HK : HkdfLib, AE : AeadLib, B64 : Base64,
  SJ : SerdeJson, JA : !JsonAccess, JB : !JsonBuild, MJ : !MeshJson}.

Definition is_expired (m : DIDCommMessage) (now : N) : bool :=
  match m_expires_time m with Some e => (e <? now)%N | None => false end.

Definition signature_input (ciphertext tag nonce : bytes) : bytes := ciphertext ++ tag ++ nonce.

(** The AES tag is the end of the cipher text. *)
Definition encrypt_message (sender : DIDIdentity) (recipient_doc : DIDDocument) (message : DIDCommMessage)
    (rng : DcRng) : result DcError DIDCommEnvelope :=
  recipient_x25519 ← extract_x25519_public_key_from_doc recipient_doc;
  let ek := extract_mlkem_encapsulation_key_from_doc recipient_doc in
  plaintext ← ok_or (msg_to_vec message) (DcSerialize "DIDComm message");
  '(key, epk, ct) ← sender_key (x25519_from (rng_eph rng)) recipient_x25519 ek HKDF_MESH_DIDCOMM_INFO rng;
  nonce ← random_nonce rng;
  sealed ← encrypt_with_key key plaintext nonce;
  let tag_offset := length sealed - 16 in
  let ciphertext := take tag_offset sealed in
  let tag := drop tag_offset sealed in
  '(ed_sig, pq_sig) ← map_err DcSign (dual_sign sender (signature_input ciphertext tag (arr_bytes nonce)));
  mret {| typ := CONTENT_TYPE; epk_x25519 := b64_encode (arr_bytes epk); e_nonce := b64_encode (arr_bytes nonce);
          e_ciphertext := b64_encode ciphertext; tag := b64_encode tag; sender_did := did sender;
          signature_ed25519 := b64_encode ed_sig; signature_mldsa65 := b64_encode pq_sig;
          pq_kem := pq_name ct; pq_ct := b64_encode <$> ct |}.

Definition field (name text : string) : result DcError bytes := ok_or (b64_decode text) (DcBase64 name).

Definition decrypt_message (recipient : DIDIdentity) (sender_doc : DIDDocument) (envelope : DIDCommEnvelope)
  : result DcError DIDCommMessage :=
  ciphertext ← field "ciphertext" (e_ciphertext envelope);
  tag ← field "tag" (tag envelope);
  nonce_bytes ← field "nonce" (e_nonce envelope);
  nonce ← ok_or (try_arr 12 nonce_bytes) DcNonceLen;
  ed_sig ← field "Ed25519 signature" (signature_ed25519 envelope);
  pq_sig ← field "ML-DSA signature" (signature_mldsa65 envelope);
  sig_ok ← map_err DcVerify (dual_verify sender_doc (signature_input ciphertext tag nonce_bytes) ed_sig pq_sig);
  _ ← throw_if (negb sig_ok) DcBadSignature;
  epk_bytes ← field "ephemeral key" (epk_x25519 envelope);
  epk ← ok_or (try_arr 32 epk_bytes) DcEpkLen;
  key ← recipient_key b64_decode (pq_kem envelope) (pq_ct envelope) epk recipient HKDF_MESH_DIDCOMM_INFO;
  plaintext ← decrypt_with_key key (ciphertext ++ tag) nonce;
  ok_or (msg_from_slice plaintext) (DcParse "DIDComm plaintext").

Definition verify_envelope_signature (sender_doc : DIDDocument) (envelope : DIDCommEnvelope)
  : result DcError bool :=
  ciphertext ← field "ciphertext" (e_ciphertext envelope);
  tag ← field "tag" (tag envelope);
  nonce_bytes ← field "nonce" (e_nonce envelope);
  ed_sig ← field "Ed25519 signature" (signature_ed25519 envelope);
  pq_sig ← field "ML-DSA signature" (signature_mldsa65 envelope);
  map_err DcVerify (dual_verify sender_doc (signature_input ciphertext tag nonce_bytes) ed_sig pq_sig).

(** *** [comms/envelope.rs] *)

(** What [generate_message_id] reads. *)
Record IdSource := { id_nanos : N; id_pid : N; id_counter : N; id_random : arr 16 }.
Definition debug_bytes (l : bytes) : string :=
  "[" +:+ String.concat ", " ((λ b, dec (Byte.to_N b)) <$> l) +:+ "]".
Definition generate_message_id (s : IdSource) : string :=
  let text := dec (id_nanos s) +:+ "-" +:+ dec (id_pid s) +:+ "-" +:+ dec (id_counter s) +:+ "-" +:+
                debug_bytes (arr_bytes (id_random s)) in
  "urn:uuid:" +:+ hex_encode (take 16 (arr_bytes (sha256 (as_bytes text)))).

(** What one call reads from outside. *)
Record MeshIn := { in_now : N; in_id : IdSource; in_rng : DcRng }.
Definition wrap (sender : DIDIdentity) (recipient_doc : DIDDocument) (ty : MessageType) (ttl : N)
    (body : JsonValue) (thid : option string) (i : MeshIn) : result DcError DIDCommEnvelope :=
  encrypt_message sender recipient_doc
    (mk_Message (generate_message_id (in_id i)) ty (did sender) [doc_id recipient_doc] (in_now i)
       (Some (wrapping_add64 (in_now i) ttl)) body thid None) (in_rng i).
(** The message of an envelope that is neither expired nor of another type. *)
Definition unwrap (recipient : DIDIdentity) (sender_doc : DIDDocument) (envelope : DIDCommEnvelope)
    (ty : MessageType) (now : N) : result DcError DIDCommMessage :=
  msg ← decrypt_message recipient sender_doc envelope;
  _ ← throw_if (is_expired msg now) DcExpired;
  _ ← throw_if (negb (bool_decide (m_type msg = ty))) DcWrongType;
  mret msg.

Definition wrap_mcp_call (sender : DIDIdentity) (recipient_doc : DIDDocument) (tool_name : string)
    (arguments : JsonValue) : MeshIn → result DcError DIDCommEnvelope :=
  wrap sender recipient_doc McpToolCall 300
    (json_object [("tool_name", json_str tool_name); ("arguments", arguments)]) None.
Definition wrap_mcp_response (sender : DIDIdentity) (recipient_doc : DIDDocument) (tool_name : string)
    (res : JsonValue) (thread_id : option string) : MeshIn → result DcError DIDCommEnvelope :=
  wrap sender recipient_doc McpToolResponse 300
    (json_object [("tool_name", json_str tool_name); ("result", res)]) thread_id.
Definition tool_and (key : string) (body : JsonValue) : result DcError (string * JsonValue) :=
  tool_name ← ok_or (json_get body "tool_name" ≫= json_as_str) (DcMissing "tool_name");
  mret (tool_name, default json_null (json_get body key)).
Definition unwrap_mcp_call (recipient : DIDIdentity) (sender_doc : DIDDocument) (envelope : DIDCommEnvelope)
    (now : N) : result DcError (string * string * JsonValue) :=
  msg ← unwrap recipient sender_doc envelope McpToolCall now;
  '(tool_name, arguments) ← tool_and "arguments" (m_body msg);
  mret (m_id msg, tool_name, arguments).
Definition unwrap_mcp_response (recipient : DIDIdentity) (sender_doc : DIDDocument) (envelope : DIDCommEnvelope)
    (now : N) : result DcError (string * JsonValue) :=
  msg ← unwrap recipient sender_doc envelope McpToolResponse now;
  tool_and "result" (m_body msg).

Fixpoint token_values (ts : list CapabilityToken) : result DcError (list JsonValue) :=
  match ts with
  | [] => mret []
  | t :: ts' =>
      v ← ok_or (token_to_value t) (DcSerialize "capability token(s)");
      vs ← token_values ts'; mret (v :: vs)
  end.
Definition wrap_orchestrator_task (sender : DIDIdentity) (recipient_doc : DIDDocument)
    (task : OrchestratorTaskEnvelope) (capabilities : list CapabilityToken) (i : MeshIn)
  : result DcError DIDCommEnvelope :=
  caps ← token_values capabilities;
  wrap_mcp_call sender recipient_doc "orchestrator_send_task"
    (json_object [("agent_id", json_str (target_agent_id task)); ("task", json_str (ot_prompt task));
                  ("wait", json_bool true); ("timeout_secs", json_u64 (ot_timeout_secs task));
                  ("orchestrator_task_id", json_str (ot_task_id task)); ("capability_tokens", json_array caps)]) i.

(** [v as i32]. *)
Definition to_i32 (v : Z) : Z := ((v + 2 ^ 31) mod 2 ^ 32 - 2 ^ 31)%Z.
Definition unwrap_orchestrator_result (v : JsonValue) : OrchestratorResultEnvelope :=
  match first_some result_from_value (v :: option_list (json_get v "structuredContent")) with
  | Some parsed => parsed
  | None =>
      let text key := json_get v key ≫= json_as_str in
      {| or_task_id :=
           default "" (match json_get v "task_id" with Some t => Some t | None => json_get v "id" end ≫= json_as_str);
         or_status := default "failed" (text "status");
         or_result := text "result";
         or_error := text "error";
         exit_code := to_i32 <$> (json_get v "exit_code" ≫= json_as_i64) |}
  end.

Definition wrap_proof_envelope (sender : DIDIdentity) (recipient_doc : DIDDocument) (proof_envelope : JsonValue)
  : MeshIn → result DcError DIDCommEnvelope :=
  wrap sender recipient_doc EnvelopeExchange 600 (json_object [("envelope", proof_envelope)]) None.
Definition unwrap_proof_envelope (recipient : DIDIdentity) (sender_doc : DIDDocument)
    (envelope : DIDCommEnvelope) (now : N) : result DcError JsonValue :=
  msg ← unwrap recipient sender_doc envelope EnvelopeExchange now;
  ok_or (json_get (m_body msg) "envelope") (DcMissing "envelope").
Definition wrap_capability_grant (sender : DIDIdentity) (recipient_doc : DIDDocument) (token : CapabilityToken)
    (i : MeshIn) : result DcError DIDCommEnvelope :=
  v ← ok_or (token_to_value token) (DcSerialize "capability token");
  wrap sender recipient_doc CapabilityGrant 600 (json_object [("capability_token", v)]) None i.
Definition unwrap_capability_grant (recipient : DIDIdentity) (sender_doc : DIDDocument)
    (envelope : DIDCommEnvelope) (now : N) : result DcError CapabilityToken :=
  msg ← unwrap recipient sender_doc envelope CapabilityGrant now;
  v ← ok_or (json_get (m_body msg) "capability_token") (DcMissing "capability_token");
  ok_or (token_from_value v) (DcParse "capability token").
Definition wrap_heartbeat (sender : DIDIdentity) (recipient_doc : DIDDocument)
  : MeshIn → result DcError DIDCommEnvelope :=
  wrap sender recipient_doc Heartbeat 60 (json_object [("status", json_str "alive")]) None.
End mesh.

(** *** Sessions with peers: [comms/session.rs] *)

Record PendingRequest := {
  pr_message_id : string;
  sent_at : N;
  pr_type : MessageType;
  pr_timeout_secs : N
}.
Record PeerSession := mk_PeerSession {
  peer_did : string;
  peer_document : DIDDocument;
  established_at : N;
  last_activity : N;
  message_count : N;
  granted_capabilities : list CapabilityToken;
  received_capabilities : list CapabilityToken;
  pending_requests : gmap string PendingRequest
}.
Abbreviation Sessions := (gmap string PeerSession).

Definition establish (ss : Sessions) (peer : string) (doc : DIDDocument) (now : N) : Sessions :=
  match ss !! peer with
  | Some s =>
      <[peer := mk_PeerSession (peer_did s) doc (established_at s) now (message_count s)
                  (granted_capabilities s) (received_capabilities s) (pending_requests s)]> ss
  | None => <[peer := mk_PeerSession peer doc now now 0 [] [] ∅]> ss
  end.
Definition has_session (ss : Sessions) (peer : string) : bool := bool_decide (is_Some (ss !! peer)).
Definition set_pending (s : PeerSession) (p : gmap string PendingRequest) : PeerSession :=
  mk_PeerSession (peer_did s) (peer_document s) (established_at s) (last_activity s) (message_count s)
    (granted_capabilities s) (received_capabilities s) p.
Definition track_request (peer message_id : string) (ty : MessageType) (timeout now : N)
  : action Sessions DcError () := λ ss,
  match ss !! peer with
  | None => (ss, Err (DcNoSession peer))
  | Some s =>
      let r := {| pr_message_id := message_id; sent_at := now; pr_type := ty; pr_timeout_secs := timeout |} in
      (<[peer := mk_PeerSession (peer_did s) (peer_document s) (established_at s) now
                   (wrapping_add64 (message_count s) 1) (granted_capabilities s) (received_capabilities s)
                   (<[message_id := r]> (pending_requests s))]> ss, Ok tt)
  end.
Definition complete_request (peer thread_id : string) : action Sessions DcError PendingRequest := λ ss,
  match ss !! peer with
  | None => (ss, Err (DcNoSession peer))
  | Some s =>
      match pending_requests s !! thread_id with
      | None => (ss, Err (DcNoPending thread_id))
      | Some r => (<[peer := set_pending s (delete thread_id (pending_requests s))]> ss, Ok r)
      end
  end.
Definition add_capability (granted : bool) (ss : Sessions) (peer : string) (token : CapabilityToken) : Sessions :=
  alter (λ s, mk_PeerSession (peer_did s) (peer_document s) (established_at s) (last_activity s)
                (message_count s) (granted_capabilities s ++ if granted then [token] else [])
                (received_capabilities s ++ if granted then [] else [token]) (pending_requests s)) peer ss.
Definition add_granted_capability : Sessions → string → CapabilityToken → Sessions := add_capability true.
Definition add_received_capability : Sessions → string → CapabilityToken → Sessions := add_capability false.
Definition live_request (now : N) (r : PendingRequest) : bool :=
  (saturating_sub now (sent_at r) <? pr_timeout_secs r)%N.
Definition live_session (now timeout : N) (s : PeerSession) : bool :=
  (saturating_sub now (last_activity s) <? timeout)%N.
Definition cleanup (ss : Sessions) (now session_timeout : N) : Sessions * nat :=
  let pruned := (λ s, set_pending s (filter (λ kr, live_request now kr.2 = true) (pending_requests s))) <$> ss in
  let kept := filter (λ ks, live_session now session_timeout ks.2 = true) pruned in
  (kept, size ss - size kept).
Definition active_peers (ss : Sessions) : list string := map_keys ss.
End Mesh.
