(* ===== verification/HaloComm.v ===== *)
(** * Authenticated and anonymous envelopes: [src/src/halo/didcomm.rs] and the message
    handler of [src/src/halo/didcomm_handler.rs]

    The keys and the key derivation are those of [Didcomm].  A handler is a function of the
    message and of what creating its answer reads (an identifier and the clock).  The
    handlers of credential messages and the built-in table are in [CredentialHandler]. *)
From S2P Require Export Didcomm.

Definition HKDF_AUTHCRYPT_INFO : bytes := as_bytes "agenthalo-didcomm-authcrypt-v1".
Definition HKDF_ANONCRYPT_INFO : bytes := as_bytes "agenthalo-didcomm-anoncrypt-v1".

Module message_types.
Definition AGENT_CARD_REQUEST : string := "https://agenthalo.dev/didcomm/agent-card-request/1.0".
Definition AGENT_CARD_RESPONSE : string := "https://agenthalo.dev/didcomm/agent-card-response/1.0".
Definition TASK_SEND : string := "https://agenthalo.dev/didcomm/task-send/1.0".
Definition TASK_STATUS : string := "https://agenthalo.dev/didcomm/task-status/1.0".
Definition TASK_ARTIFACT : string := "https://agenthalo.dev/didcomm/task-artifact/1.0".
Definition ERROR : string := "https://agenthalo.dev/didcomm/error/1.0".
Definition CREDENTIAL_OFFER : string := "https://agenthalo.dev/didcomm/credential-offer/1.0".
Definition CREDENTIAL_REQUEST : string := "https://agenthalo.dev/didcomm/credential-request/1.0".
Definition TASK_CANCEL : string := "https://agenthalo.dev/didcomm/task-cancel/1.0".
Definition PING : string := "https://agenthalo.dev/didcomm/ping/1.0".
Definition ACK : string := "https://agenthalo.dev/didcomm/ack/1.0".
Definition CREDENTIAL_ISSUE : string := "https://agenthalo.dev/didcomm/credential-issue/1.0".
End message_types.

Section messages.
Context `{SerdeJson}.
Inductive AttachmentData :=
| AdJson (json : JsonValue)
| AdBase64 (base64 : string)
| AdLinks (links : list string).
Record DIDCommAttachment := {
  att_id : string;
  media_type : string;
  att_data : AttachmentData
}.
Record DIDCommMessage := mk_HaloMessage {
  h_id : string;
  h_type : string;
  h_from : option string;
  h_to : list string;
  h_created_time : option N;
  h_expires_time : option N;
  h_body : JsonValue;
  h_attachments : option (list DIDCommAttachment)
}.
End messages.

Record AuthcryptProtected := {
  ap_alg : string;
  ap_enc : string;
  ap_sender_did : string;
  ap_sender_x25519_public_key : string;
  ap_sender_evm_address : option string;
  ap_sender_binding_proof_hash : option string;
  ap_pq_kem : option string;
  ap_pq_ct : option string
}.
Record AuthcryptEnvelope := {
  ae_kind : string;
  ae_protected : AuthcryptProtected;
  ae_nonce : string;
  ae_ciphertext : string;
  ed25519_signature : string;
  mldsa65_signature : string
}.
Record AnoncryptProtected := {
  np_alg : string;
  np_enc : string;
  np_epk : string;
  np_pq_kem : option string;
  np_pq_ct : option string
}.
Record AnoncryptEnvelope := {
  ne_kind : string;
  ne_protected : AnoncryptProtected;
  ne_nonce : string;
  ne_ciphertext : string
}.
Record SenderEnrichment := { evm_address : option string; binding_proof_hash : option string }.

(** [serde_json] on these types; [None] is an [Err]. *)
Class HaloJson `{SerdeJson} := {
  hmsg_to_vec : DIDCommMessage → option bytes;
  hmsg_from_slice : bytes → option DIDCommMessage;
  auth_to_vec : AuthcryptEnvelope → option bytes;
  auth_from_value : JsonValue → option AuthcryptEnvelope;
  anon_to_vec : AnoncryptEnvelope → option bytes;
  anon_from_value : JsonValue → option AnoncryptEnvelope
}.

Definition authcrypt_gate_accepts (ed25519_sig_valid mldsa65_sig_valid decrypt_ok is_expired : bool) : bool :=
  ed25519_sig_valid && mldsa65_sig_valid && decrypt_ok && negb is_expired.
Definition anoncrypt_gate_accepts (decrypt_ok is_expired : bool) : bool := decrypt_ok && negb is_expired.

Section halo.
Context `{SHA : Sha2, DL : DidLib, K : !KemLib, HK : HkdfLib, AE : AeadLib, B64 : Base64Std,
  SJ : SerdeJson, JA : !JsonAccess, JB : !JsonBuild, HJ : !HaloJson}.

(** [DIDCommMessage::new]; [id] is the random identifier. *)
Definition message_new (ty : string) (from : option string) (to : list string) (body : JsonValue) (id : string)
    (now : N) : DIDCommMessage :=
  mk_HaloMessage id ty from to (Some now) None body None.
Definition with_expiry (m : DIDCommMessage) (ttl now : N) : DIDCommMessage :=
  mk_HaloMessage (h_id m) (h_type m) (h_from m) (h_to m) (h_created_time m) (Some (saturating_add64 now ttl))
    (h_body m) (h_attachments m).
Definition with_attachment (m : DIDCommMessage) (a : DIDCommAttachment) : DIDCommMessage :=
  mk_HaloMessage (h_id m) (h_type m) (h_from m) (h_to m) (h_created_time m) (h_expires_time m) (h_body m)
    (Some (default [] (h_attachments m) ++ [a])).
Definition h_is_expired (m : DIDCommMessage) (now : N) : bool :=
  match h_expires_time m with Some e => (e <? now)%N | None => false end.

(** ** Packing *)

Definition dquote : string := String (ascii_of_N 34) "".
Definition kind_text (kind : string) : string :=
  dquote +:+ "kind" +:+ dquote +:+ ":" +:+ dquote +:+ kind +:+ dquote.
Definition body_contains_envelope_kind (body : JsonValue) : bool :=
  match json_get body "kind" ≫= json_as_str with
  | Some kind =>
      bool_decide (kind = "authcrypt") || bool_decide (kind = "anoncrypt") || contains "(" kind || contains ")" kind
  | None => false
  end ||
  existsb (λ p, contains p (json_to_string body))
    [kind_text "authcrypt"; kind_text "anoncrypt"; "anoncrypt(authcrypt)"; "authcrypt(anoncrypt)"].

Definition pack_authcrypt_inner (message : DIDCommMessage) (sender : DIDIdentity) (recipient_x25519 : arr 32)
    (ek : option MlKemEk) (enrichment : option SenderEnrichment) (rng : DcRng) : result DcError bytes :=
  plaintext ← ok_or (hmsg_to_vec message) (DcSerialize "DIDComm message");
  '(key, pk, ct) ← sender_key (x25519_agreement_key sender) recipient_x25519 ek HKDF_AUTHCRYPT_INFO rng;
  nonce ← random_nonce rng;
  ciphertext ← encrypt_with_key key plaintext nonce;
  '(ed_sig, pq_sig) ← map_err DcSign (dual_sign sender ciphertext);
  ok_or (auth_to_vec
    {| ae_kind := "authcrypt";
       ae_protected := {|
         ap_alg := "ECDH-ES+A256KW"; ap_enc := "A256GCM"; ap_sender_did := did sender;
         ap_sender_x25519_public_key := b64_std_encode (arr_bytes pk);
         ap_sender_evm_address := enrichment ≫= evm_address;
         ap_sender_binding_proof_hash := enrichment ≫= binding_proof_hash;
         ap_pq_kem := pq_name ct; ap_pq_ct := b64_std_encode <$> ct |};
       ae_nonce := b64_std_encode (arr_bytes nonce); ae_ciphertext := b64_std_encode ciphertext;
       ed25519_signature := b64_std_encode ed_sig; mldsa65_signature := b64_std_encode pq_sig |})
    (DcSerialize "authcrypt envelope").
Definition pack_authcrypt (message : DIDCommMessage) (sender : DIDIdentity) (recipient_x25519 : arr 32)
  : DcRng → result DcError bytes := pack_authcrypt_inner message sender recipient_x25519 None None.
Definition pack_authcrypt_enriched (message : DIDCommMessage) (sender : DIDIdentity) (recipient_x25519 : arr 32)
    (enrichment : option SenderEnrichment) : DcRng → result DcError bytes :=
  pack_authcrypt_inner message sender recipient_x25519 None enrichment.
Definition pack_authcrypt_hybrid (message : DIDCommMessage) (sender : DIDIdentity) (recipient_doc : DIDDocument)
    (enrichment : option SenderEnrichment) (rng : DcRng) : result DcError bytes :=
  recipient_x25519 ← extract_x25519_public_key_from_doc recipient_doc;
  pack_authcrypt_inner message sender recipient_x25519 (extract_mlkem_encapsulation_key_from_doc recipient_doc)
    enrichment rng.

Definition pack_anoncrypt_inner (message : DIDCommMessage) (recipient_x25519 : arr 32) (ek : option MlKemEk)
    (rng : DcRng) : result DcError bytes :=
  _ ← throw_if (body_contains_envelope_kind (h_body message)) DcNested;
  plaintext ← ok_or (hmsg_to_vec message) (DcSerialize "DIDComm message");
  '(key, epk, ct) ← sender_key (x25519_from (rng_eph rng)) recipient_x25519 ek HKDF_ANONCRYPT_INFO rng;
  nonce ← random_nonce rng;
  ciphertext ← encrypt_with_key key plaintext nonce;
  ok_or (anon_to_vec
    {| ne_kind := "anoncrypt";
       ne_protected := {|
         np_alg := "ECDH-ES+A256KW"; np_enc := "A256GCM"; np_epk := b64_std_encode (arr_bytes epk);
         np_pq_kem := pq_name ct; np_pq_ct := b64_std_encode <$> ct |};
       ne_nonce := b64_std_encode (arr_bytes nonce); ne_ciphertext := b64_std_encode ciphertext |})
    (DcSerialize "anoncrypt envelope").
Definition pack_anoncrypt (message : DIDCommMessage) (recipient_x25519 : arr 32) : DcRng → result DcError bytes :=
  pack_anoncrypt_inner message recipient_x25519 None.
Definition pack_anoncrypt_hybrid (message : DIDCommMessage) (recipient_doc : DIDDocument) (rng : DcRng)
  : result DcError bytes :=
  recipient_x25519 ← extract_x25519_public_key_from_doc recipient_doc;
  pack_anoncrypt_inner message recipient_x25519 (extract_mlkem_encapsulation_key_from_doc recipient_doc) rng.

(** ** Unpacking *)

Definition h_field (name text : string) : result DcError bytes := ok_or (b64_std_decode text) (DcBase64 name).
Definition fixed (n : nat) (b : bytes) (e : DcError) : result DcError (arr n) := ok_or (try_arr n b) e.

Definition unpack_authcrypt (envelope : AuthcryptEnvelope) (recipient : DIDIdentity)
    (resolve_document : string → option DIDDocument) (now : N)
  : result DcError (DIDCommMessage * option string) :=
  let p := ae_protected envelope in
  let sender_did := ap_sender_did p in
  sender_doc ← ok_or (resolve_document sender_did) (DcUnresolved sender_did);
  peer_bytes ← h_field "sender X25519 public key" (ap_sender_x25519_public_key p);
  peer ← fixed 32 peer_bytes DcX25519Len;
  ciphertext ← h_field "authcrypt ciphertext" (ae_ciphertext envelope);
  ed_sig ← h_field "authcrypt Ed25519 signature" (ed25519_signature envelope);
  pq_sig ← h_field "authcrypt ML-DSA signature" (mldsa65_signature envelope);
  signatures_ok ← map_err DcVerify (dual_verify sender_doc ciphertext ed_sig pq_sig);
  _ ← throw_if (negb signatures_ok) DcBadSignature;
  nonce_bytes ← h_field "authcrypt nonce" (ae_nonce envelope);
  nonce ← fixed 12 nonce_bytes DcNonceLen;
  key ← recipient_key b64_std_decode (ap_pq_kem p) (ap_pq_ct p) peer recipient HKDF_AUTHCRYPT_INFO;
  plaintext ← decrypt_with_key key ciphertext nonce;
  message ← ok_or (hmsg_from_slice plaintext) (DcParse "authcrypt plaintext message");
  _ ← throw_if (negb (authcrypt_gate_accepts true true true (h_is_expired message now))) DcExpired;
  mret (message, Some sender_did).
Definition unpack_anoncrypt (envelope : AnoncryptEnvelope) (recipient : DIDIdentity) (now : N)
  : result DcError (DIDCommMessage * option string) :=
  let p := ne_protected envelope in
  epk_bytes ← h_field "anoncrypt ephemeral key" (np_epk p);
  epk ← fixed 32 epk_bytes DcEpkLen;
  nonce_bytes ← h_field "anoncrypt nonce" (ne_nonce envelope);
  nonce ← fixed 12 nonce_bytes DcNonceLen;
  ciphertext ← h_field "anoncrypt ciphertext" (ne_ciphertext envelope);
  key ← recipient_key b64_std_decode (np_pq_kem p) (np_pq_ct p) epk recipient HKDF_ANONCRYPT_INFO;
  plaintext ← decrypt_with_key key ciphertext nonce;
  message ← ok_or (hmsg_from_slice plaintext) (DcParse "anoncrypt plaintext message");
  _ ← throw_if (negb (anoncrypt_gate_accepts true (h_is_expired message now))) DcExpired;
  mret (message, None).
Definition unpack_with_resolver (packed : bytes) (recipient : DIDIdentity)
    (resolve_document : string → option DIDDocument) (now : N)
  : result DcError (DIDCommMessage * option string) :=
  value ← ok_or (json_from_slice packed) (DcParse "DIDComm envelope");
  kind ← ok_or (json_get value "kind" ≫= json_as_str) (DcMissing "kind");
  _ ← throw_if (contains "(" kind || contains ")" kind) DcNested;
  if bool_decide (kind = "authcrypt") then
    envelope ← ok_or (auth_from_value value) (DcParse "authcrypt envelope");
    unpack_authcrypt envelope recipient resolve_document now
  else if bool_decide (kind = "anoncrypt") then
    envelope ← ok_or (anon_from_value value) (DcParse "anoncrypt envelope");
    unpack_anoncrypt envelope recipient now
  else Err (DcKind kind).

(** ** The handler *)

(** What creating an answer reads: a random identifier, the clock. *)
Definition MessageHandler : Type := DIDCommMessage → string → N → option DIDCommMessage.
Record DIDCommHandler := mk_Handler { hd_identity : DIDIdentity; hd_handlers : gmap string MessageHandler }.
Definition handler_new (identity : DIDIdentity) : DIDCommHandler := mk_Handler identity ∅.
Definition on_message (ty : string) (h : MessageHandler) (d : DIDCommHandler) : DIDCommHandler :=
  mk_Handler (hd_identity d) (<[ty := h]> (hd_handlers d)).

(** An answer of type [ty] to the sender, with the identifier of the message. *)
Definition reply (ty status : string) : MessageHandler := λ m id now,
  Some (message_new ty None (option_list (h_from m))
          (json_object [("reply_to", json_str (h_id m)); ("status", json_str status)]) id now).
(** [version] is the version of the package. *)
Definition agent_card (version : string) : MessageHandler := λ m id now,
  Some (message_new message_types.AGENT_CARD_RESPONSE None []
          (json_object [("name", json_str "AgentHalo"); ("version", json_str version);
                        ("transport", json_str "didcomm-v2")]) id now).
Record HandlerIn := { hi_now : N; hi_id : string; hi_rng : DcRng }.
Definition handle_incoming (d : DIDCommHandler) (packed : bytes) (resolve_document : string → option DIDDocument)
    (i : HandlerIn) : result DcError (option bytes) :=
  '(message, sender) ← unpack_with_resolver packed (hd_identity d) resolve_document (hi_now i);
  _ ← throw_if (h_is_expired message (hi_now i)) DcExpired;
  match hd_handlers d !! h_type message with
  | None => mret None
  | Some handler =>
      match handler message (hi_id i) (hi_now i), sender with
      | None, _ | _, None => mret None
      | Some response, Some sender_did =>
          sender_doc ← ok_or (resolve_document sender_did) (DcUnresolved sender_did);
          let response := mk_HaloMessage (h_id response) (h_type response) (Some (did (hd_identity d)))
            [sender_did] (h_created_time response) (h_expires_time response) (h_body response)
            (h_attachments response) in
          packed_response ← pack_authcrypt_hybrid response (hd_identity d) sender_doc None (hi_rng i);
          mret (Some packed_response)
      end
  end.
End halo.
