(* ===== verification/DidcommSpec.v ===== *)
(** * Properties of the messages of [Didcomm.v] and [HaloComm.v]

    What one identity seals for another the other opens; calls are delivered within their
    time and under their type; the handler answers to the sender; an envelope can be signed
    again by somebody else; what becomes of requests that wait for an answer. *)
From S2P Require Import HaloComm Instances Codec.

(** Documented round trips of [base64] and of [serde_json] on the messages; a JSON object
    gives back its fields. *)
Class Base64_Laws (B : Base64) : Prop := { b64_roundtrip b : b64_decode (b64_encode b) = Some b }.
Class Base64Std_Laws (B : Base64Std) : Prop := { b64s_roundtrip b : b64_std_decode (b64_std_encode b) = Some b }.
Class JsonObject_Laws `(JA : JsonAccess) `{!JsonBuild} : Prop := {
  json_object_get l k v : NoDup l.*1 → (k, v) ∈ l → json_get (json_object l) k = Some v;
  json_str_get s : json_as_str (json_str s) = Some s
}.
Class MeshJson_Laws `(MJ : Mesh.MeshJson) : Prop := {
  mesh_roundtrip m b : Mesh.msg_to_vec m = Some b → Mesh.msg_from_slice b = Some m
}.
Class HaloJson_Laws `(HJ : HaloJson) `{!JsonAccess} : Prop := {
  hmsg_roundtrip m b : hmsg_to_vec m = Some b → hmsg_from_slice b = Some m;
  auth_roundtrip e b : auth_to_vec e = Some b → ∃ v, json_from_slice b = Some v ∧
    auth_from_value v = Some e ∧ (json_get v "kind" ≫= json_as_str) = Some (ae_kind e);
  anon_roundtrip e b : anon_to_vec e = Some b → ∃ v, json_from_slice b = Some v ∧
    anon_from_value v = Some e ∧ (json_get v "kind" ≫= json_as_str) = Some (ne_kind e)
}.

(** ** Keys *)

Section keys.
Context `{SL : SigLib, DL : !DidLib, K : !KemLib, HK : HkdfLib, AE : AeadLib}.
Context `{!SigLib_Laws SL, !DidLib_Laws DL, !KemLib_Laws K, !AeadLib_Laws AE}.

(** The document lists the agreement keys of the identity, or the first of them. *)
Record agreement_keys_of (i : DIDIdentity) (doc : DIDDocument) : Prop := {
  ak_x : extract_x25519_public_key_from_doc doc = Ok (x25519_public (x25519_agreement_key i));
  ak_kem : mlkem_ek_from_bytes (mlkem_public (mlkem768_decapsulation_key i))
             = extract_mlkem_encapsulation_key_from_doc doc ∨
           extract_mlkem_encapsulation_key_from_doc doc = None
}.

Lemma genesis_agreement_keys seed i :
  did_from_genesis_seed seed = Ok i → agreement_keys_of i (did_document i).
Proof using All.
  intros Hi. destruct (genesis_identity_keys _ _ Hi) as (-> & _ & _). split.
  - unfold extract_x25519_public_key_from_doc.
    assert (find_agreement (build_did_document i) TYPE_X25519 = Some {|
      vm_id := did_fragment (did i) "key-x25519-1"; vm_type := TYPE_X25519; controller := did i;
      public_key_multibase := encode_multibase_key MULTICODEC_X25519_PUB
        (arr_bytes (x25519_public (x25519_agreement_key i))) |}) as -> by done.
    cbn [ok_or mbind result_bind public_key_multibase]. unfold encode_multibase_key.
    rewrite multibase_roundtrip. cbn [ok_or mbind result_bind].
    change MULTICODEC_X25519_PUB with X25519_PREFIX.
    rewrite take_app_length, drop_app_length, bool_decide_eq_true_2, length_app by done.
    rewrite (proj2 (Nat.ltb_ge _ _)) by lia. cbn [throw_if negb orb mbind result_bind]. by rewrite try_arr_bytes.
  - left. unfold extract_mlkem_encapsulation_key_from_doc.
    assert (find_agreement (build_did_document i) TYPE_MLKEM768 = Some {|
      vm_id := did_fragment (did i) "key-mlkem768-1"; vm_type := TYPE_MLKEM768; controller := did i;
      public_key_multibase := encode_multibase_untyped_key (mlkem_public (mlkem768_decapsulation_key i)) |}) as -> by done.
    cbn [mbind option_bind public_key_multibase]. unfold encode_multibase_untyped_key, encode_multibase_key.
    rewrite multibase_roundtrip. cbn. unfold mlkem768_ek_from_bytes. by destruct (mlkem_ek_from_bytes _).
Qed.

(** Both sides derive one key. *)
Lemma agreed_key i doc own pk key peer ct info rng enc dec :
  agreement_keys_of i doc → extract_x25519_public_key_from_doc doc = Ok pk →
  (∀ b, dec (enc b) = Some b) →
  sender_key own pk (extract_mlkem_encapsulation_key_from_doc doc) info rng = Ok (key, peer, ct) →
  recipient_key dec (pq_name ct) (enc <$> ct) peer i info = Ok key.
Proof using All.
  intros [Hx Hk] Hpk Hdec. rewrite Hx in Hpk. injection Hpk as <-. unfold sender_key.
  destruct (extract_mlkem_encapsulation_key_from_doc doc) as [ek|]; intros Hs; inv_res.
  - match goal with He : hybrid_encap _ _ _ _ _ = Ok _ |- _ =>
      pose proof (hybrid_roundtrip _ (mlkem768_decapsulation_key i) _ _ _ _ _ Hk He) as [[Hct _] Hh] end.
    destruct Hct as [c Hc]; [done|]. rewrite Hc in *. unfold recipient_key, pq_name.
    cbn [fmap option_fmap option_map ok_or mbind result_bind]. rewrite Hdec. cbn [ok_or mbind result_bind]. by rewrite Hh.
  - unfold recipient_key. cbn. by rewrite x25519_agree.
Qed.
End keys.

(** ** The mesh *)

Module MeshSpec.
Import Mesh.
Section mesh.
Context `{SHA : Sha2, SL : SigLib, DL : !DidLib, K : !KemLib, HK : HkdfLib, AE : AeadLib, B64 : Base64,
  SJ : SerdeJson, JA : !JsonAccess, JB : !JsonBuild, MJ : !MeshJson}.
Context `{!SigLib_Laws SL, !DidLib_Laws DL, !KemLib_Laws K, !AeadLib_Laws AE, !Base64_Laws B64,
  !MeshJson_Laws MJ, !JsonObject_Laws JA}.

Lemma field_encode name b : field name (b64_encode b) = Ok b.
Proof using All. unfold field. by rewrite b64_roundtrip. Qed.

Lemma decrypt_encrypt sender sdoc recipient rdoc msg rng env :
  doc_keys_of sender sdoc → agreement_keys_of recipient rdoc →
  encrypt_message sender rdoc msg rng = Ok env → decrypt_message recipient sdoc env = Ok msg.
Proof using All.
  intros Hs Hr He. unfold encrypt_message in He. inv_res.
  repeat match goal with p : (_ * _)%type |- _ => destruct p end. cbv beta iota in *. inv_res.
  repeat match goal with p : (_ * _)%type |- _ => destruct p end. cbv beta iota in *. inv_res.
  unfold decrypt_message. cbn [Mesh.e_ciphertext Mesh.tag Mesh.e_nonce Mesh.signature_ed25519 Mesh.signature_mldsa65
    Mesh.epk_x25519 Mesh.pq_kem Mesh.pq_ct].
  rewrite !field_encode. cbn [mbind result_bind]. rewrite !try_arr_bytes. cbn [ok_or mbind result_bind].
  rewrite (dual_sign_verify _ _ _ _ _ Hs) by done. cbn [map_err mbind result_bind negb throw_if].
  rewrite (agreed_key _ rdoc _ _ _ _ _ _ _ b64_encode b64_decode Hr) by (done || apply b64_roundtrip).
  cbn [mbind result_bind]. rewrite take_drop. unfold encrypt_with_key in *. inv_res.
  unfold decrypt_with_key. rewrite (aes_roundtrip _ _ x0) by done. cbn [ok_or mbind result_bind].
  by rewrite (mesh_roundtrip _ _ He1).
Qed.
Lemma sealed_signature sender sdoc rdoc msg rng env :
  doc_keys_of sender sdoc → encrypt_message sender rdoc msg rng = Ok env →
  verify_envelope_signature sdoc env = Ok true.
Proof using All.
  intros Hs He. unfold encrypt_message in He. inv_res.
  repeat match goal with p : (_ * _)%type |- _ => destruct p end. cbv beta iota in *. inv_res.
  repeat match goal with p : (_ * _)%type |- _ => destruct p end. cbv beta iota in *. inv_res.
  unfold verify_envelope_signature. cbn [Mesh.e_ciphertext Mesh.tag Mesh.e_nonce Mesh.signature_ed25519 Mesh.signature_mldsa65].
  rewrite !field_encode. cbn [mbind result_bind]. by rewrite (dual_sign_verify _ _ _ _ _ Hs).
Qed.

(** What [wrap] seals, [unwrap] opens within its time and under its type only. *)
Lemma unwrap_wrap sender sdoc recipient rdoc ty ttl body thid i env ty' now :
  doc_keys_of sender sdoc → agreement_keys_of recipient rdoc → (in_now i + ttl ≤ u64_max)%N →
  wrap sender rdoc ty ttl body thid i = Ok env →
  unwrap recipient sdoc env ty' now =
    if (in_now i + ttl <? now)%N then Err DcExpired
    else if bool_decide (ty = ty') then
      Ok (mk_Message (generate_message_id (in_id i)) ty (did sender) [doc_id rdoc] (in_now i)
            (Some (in_now i + ttl)%N) body thid None)
    else Err DcWrongType.
Proof using All.
  intros Hs Hr Hmax Hw. unfold wrap in Hw. unfold wrapping_add64 in Hw. rewrite wrap64_small in Hw by done.
  unfold unwrap. rewrite (decrypt_encrypt _ _ _ _ _ _ _ Hs Hr Hw). cbn [mbind result_bind].
  unfold is_expired. cbn [Mesh.m_expires_time Mesh.m_type]. destruct (in_now i + ttl <? now)%N; [done|]. cbn.
  by destruct (bool_decide (ty = ty')).
Qed.

Lemma tool_and_object key tool v :
  key ≠ "tool_name" →
  tool_and key (json_object [("tool_name", json_str tool); (key, v)]) = Ok (tool, v).
Proof using All.
  intros Hk. unfold tool_and.
  assert (NoDup [("tool_name", json_str tool); (key, v)].*1) as Hnd.
  { cbn. apply NoDup_cons. split; [by rewrite list_elem_of_singleton|apply NoDup_singleton]. }
  rewrite (json_object_get _ "tool_name" (json_str tool)); [|done|by left].
  rewrite (json_object_get _ key v); [|done|by right; left].
  cbn. by rewrite json_str_get.
Qed.

(** Claim C30. A tool call reaches its recipient.  What one identity from a genesis seed wraps
    for another carries a signature that checks under the sender's document, and opens with
    the recipient's keys as exactly the identifier, tool and arguments that were sent, for
    300 seconds; after that, or as another type of message, it is refused. *)
Theorem mcp_call_delivered seed seed' alice bob tool arguments i env now :
  did_from_genesis_seed seed = Ok alice → did_from_genesis_seed seed' = Ok bob →
  (in_now i + 300 ≤ u64_max)%N →
  wrap_mcp_call alice (did_document bob) tool arguments i = Ok env →
  verify_envelope_signature (did_document alice) env = Ok true ∧
  unwrap_mcp_call bob (did_document alice) env now =
    (if (in_now i + 300 <? now)%N then Err DcExpired
     else Ok (generate_message_id (in_id i), tool, arguments)) ∧
  unwrap_mcp_response bob (did_document alice) env now =
    Err (if (in_now i + 300 <? now)%N then DcExpired else DcWrongType).
Proof using All.
  intros Ha Hb Hmax Hw. destruct (genesis_identity_keys _ _ Ha) as (_ & Hs & _).
  pose proof (genesis_agreement_keys _ _ Hb) as Hr. unfold wrap_mcp_call in Hw.
  split; [by apply (sealed_signature _ _ _ _ _ _ Hs Hw)|]. split.
  - unfold unwrap_mcp_call. rewrite (unwrap_wrap _ _ _ _ _ _ _ _ _ _ _ _ Hs Hr Hmax Hw).
    destruct (in_now i + 300 <? now)%N; [done|]. rewrite bool_decide_eq_true_2 by done. cbn [mbind result_bind Mesh.m_body].
    by rewrite tool_and_object.
  - unfold unwrap_mcp_response. rewrite (unwrap_wrap _ _ _ _ _ _ _ _ _ _ _ _ Hs Hr Hmax Hw).
    by destruct (in_now i + 300 <? now)%N.
Qed.
End mesh.

(** *** Requests that wait *)

(** The request of [peer] under [id]. *)
Definition waiting (ss : Sessions) (peer id : string) : option PendingRequest :=
  s ← ss !! peer; pending_requests s !! id.

(** Claim C32. Pending requests are a map from peers and identifiers.  Tracking needs a
    session, and adds one entry; completing returns the entry and removes it, and fails with
    no change when there is none; establishing a session again keeps the entries, and a clean-up keeps
    exactly those in time of the sessions in time. *)
Theorem pending_requests_refine ss peer peer' id id' :
  (∀ ty timeout now ss' u, track_request peer id ty timeout now ss = (ss', Ok u) →
     has_session ss peer = true ∧
     waiting ss' peer' id' = (if decide (peer = peer' ∧ id = id')
       then Some {| pr_message_id := id; sent_at := now; pr_type := ty; pr_timeout_secs := timeout |}
       else waiting ss peer' id')) ∧
  (∀ r, (complete_request peer id ss).2 = Ok r ↔ waiting ss peer id = Some r) ∧
  (waiting (complete_request peer id ss).1 peer' id' =
     if decide (peer = peer' ∧ id = id') then None else waiting ss peer' id') ∧
  (∀ doc now, waiting (establish ss peer doc now) peer' id' = waiting ss peer' id') ∧
  (∀ now timeout, waiting (cleanup ss now timeout).1 peer id =
     (s ← ss !! peer; if live_session now timeout s then
        r ← pending_requests s !! id; if live_request now r then Some r else None else None)).
Proof.
  unfold waiting. split; [|split; [|split; [|split]]].
  - intros ty timeout now ss' u Ht. unfold track_request in Ht. unfold has_session.
    destruct (ss !! peer) as [s|] eqn:Es; [|done]. injection Ht as <- _. split; [done|].
    destruct (decide (peer = peer')) as [<-|Np]; [|by rewrite lookup_insert_ne, decide_False by naive_solver].
    rewrite lookup_insert_eq, Es. cbn. destruct (decide (id = id')) as [<-|Ni].
    + by rewrite lookup_insert_eq, decide_True.
    + by rewrite lookup_insert_ne, decide_False by naive_solver.
  - intros r. unfold complete_request. destruct (ss !! peer) as [s|]; [|done]. cbn.
    destruct (pending_requests s !! id); cbn; naive_solver.
  - unfold complete_request. destruct (ss !! peer) as [s|] eqn:Es.
    2:{ cbn. case_decide as Hd; [|done]. destruct Hd as [<- <-]. by rewrite Es. }
    destruct (pending_requests s !! id) as [r|] eqn:Er; cbn.
    2:{ case_decide as Hd; [|done]. destruct Hd as [<- <-]. by rewrite Es. }
    destruct (decide (peer = peer')) as [<-|Np]; [|by rewrite lookup_insert_ne, decide_False by naive_solver].
    rewrite lookup_insert_eq, Es. cbn. destruct (decide (id = id')) as [<-|Ni].
    + by rewrite lookup_delete_eq, decide_True.
    + by rewrite lookup_delete_ne, decide_False by naive_solver.
  - intros doc now. unfold establish. destruct (ss !! peer) as [s|] eqn:Es.
    + destruct (decide (peer = peer')) as [<-|Np]; [by rewrite lookup_insert_eq, Es|by rewrite lookup_insert_ne].
    + destruct (decide (peer = peer')) as [<-|Np]; [by rewrite lookup_insert_eq, Es|by rewrite lookup_insert_ne].
  - intros now timeout. unfold cleanup. cbn. rewrite map_lookup_filter, lookup_fmap.
    destruct (ss !! peer) as [s|]; [|done]. cbn.
    change (live_session now timeout (set_pending s _)) with (live_session now timeout s).
    destruct (live_session now timeout s) eqn:El.
    + rewrite option_guard_True by done. cbn. rewrite map_lookup_filter.
      destruct (pending_requests s !! id) as [r|]; [|done]. cbn. by destruct (live_request now r).
    + by rewrite option_guard_False.
Qed.
End MeshSpec.

(** ** Authenticated envelopes *)

Section halo.
Context `{SL : SigLib, DL : !DidLib, K : !KemLib, HK : HkdfLib, AE : AeadLib, B64 : Base64Std,
  SJ : SerdeJson, JA : !JsonAccess, JB : !JsonBuild, HJ : !HaloJson}.
Context `{!SigLib_Laws SL, !DidLib_Laws DL, !KemLib_Laws K, !AeadLib_Laws AE, !Base64Std_Laws B64,
  !HaloJson_Laws HJ}.

Lemma h_field_encode name b : h_field name (b64_std_encode b) = Ok b.
Proof using All. unfold h_field. by rewrite b64s_roundtrip. Qed.
Lemma fixed_bytes {n} (a : arr n) e : fixed n (arr_bytes a) e = Ok a.
Proof using All. unfold fixed. by rewrite try_arr_bytes. Qed.

Lemma unpack_pack sender sdoc recipient rdoc msg enr rng packed resolve now :
  doc_keys_of sender sdoc → agreement_keys_of recipient rdoc → resolve (did sender) = Some sdoc →
  pack_authcrypt_hybrid msg sender rdoc enr rng = Ok packed →
  unpack_with_resolver packed recipient resolve now =
    if h_is_expired msg now then Err DcExpired else Ok (msg, Some (did sender)).
Proof using All.
  intros Hs Hr Hres Hp. unfold pack_authcrypt_hybrid, pack_authcrypt_inner in Hp. inv_res.
  repeat match goal with p : (_ * _)%type |- _ => destruct p end. cbv beta iota in *. inv_res.
  repeat match goal with p : (_ * _)%type |- _ => destruct p end. cbv beta iota in *. inv_res.
  match goal with Ha : auth_to_vec _ = Some _ |- _ => destruct (auth_roundtrip _ _ Ha) as (v & Hv & He & Hk) end.
  unfold unpack_with_resolver. rewrite Hv. cbn [ok_or mbind result_bind]. cbn [ae_kind] in Hk. rewrite Hk.
  cbn [ok_or mbind result_bind]. rewrite (bool_decide_eq_true_2 ("authcrypt" = "authcrypt")) by done.
  rewrite He. cbn [ok_or mbind result_bind throw_if contains starts_with orb].
  unfold unpack_authcrypt. cbn [ae_protected ap_sender_did ap_sender_x25519_public_key ae_ciphertext ed25519_signature
    mldsa65_signature ae_nonce ap_pq_kem ap_pq_ct].
  cbn. rewrite Hres. cbn [ok_or mbind result_bind]. rewrite !h_field_encode. cbn [mbind result_bind].
  rewrite !fixed_bytes. cbn [mbind result_bind].
  rewrite (dual_sign_verify _ _ _ _ _ Hs) by done. cbn [map_err mbind result_bind negb throw_if].
  rewrite (agreed_key _ rdoc _ _ _ _ _ _ _ b64_std_encode b64_std_decode Hr) by (done || apply b64s_roundtrip).
  cbn [mbind result_bind]. unfold encrypt_with_key in *. inv_res.
  match goal with Ha : aes_encrypt _ _ ?x = Some _ |- _ => unfold decrypt_with_key; rewrite (aes_roundtrip _ _ x) by done end.
  cbn [ok_or mbind result_bind]. erewrite hmsg_roundtrip by done. cbn [ok_or mbind result_bind].
  unfold authcrypt_gate_accepts. by destruct (h_is_expired msg now).
Qed.

(** The answer as it is sent. *)
Definition addressed (r : DIDCommMessage) (from to : string) : DIDCommMessage :=
  mk_HaloMessage (h_id r) (h_type r) (Some from) [to] (h_created_time r) (h_expires_time r) (h_body r)
    (h_attachments r).

(** Claim C31. The handler answers the sender.  When one identity from a genesis seed packs a
    message for another that has a handler for its type, [handle_incoming] fails only as
    packing the answer does, and what it returns opens for the sender as exactly the answer
    of the handler, addressed to the sender and from the identity of the handler; without a
    handler there is no answer, and an expired message is refused. *)
Theorem handler_answers_sender seed seed' alice bob d msg enr rng packed resolve i :
  did_from_genesis_seed seed = Ok alice → did_from_genesis_seed seed' = Ok bob → hd_identity d = bob →
  resolve (did alice) = Some (did_document alice) → resolve (did bob) = Some (did_document bob) →
  pack_authcrypt_hybrid msg alice (did_document bob) enr rng = Ok packed →
  handle_incoming d packed resolve i =
    (if h_is_expired msg (hi_now i) then Err DcExpired
     else match h ← hd_handlers d !! h_type msg; h msg (hi_id i) (hi_now i) with
          | None => Ok None
          | Some r => Some <$> pack_authcrypt_hybrid (addressed r (did bob) (did alice)) bob (did_document alice)
                               None (hi_rng i)
          end) ∧
  ∀ out now r, handle_incoming d packed resolve i = Ok (Some out) →
    (h ← hd_handlers d !! h_type msg; h msg (hi_id i) (hi_now i)) = Some r →
    unpack_with_resolver out alice resolve now =
      if h_is_expired r now then Err DcExpired else Ok (addressed r (did bob) (did alice), Some (did bob)).
Proof using All.
  intros Ha Hb Hd Hra Hrb Hp.
  destruct (genesis_identity_keys _ _ Ha) as (_ & Hsa & _). destruct (genesis_identity_keys _ _ Hb) as (_ & Hsb & _).
  pose proof (genesis_agreement_keys _ _ Ha) as Haa. pose proof (genesis_agreement_keys _ _ Hb) as Hab.
  assert (handle_incoming d packed resolve i =
    (if h_is_expired msg (hi_now i) then Err DcExpired
     else match h ← hd_handlers d !! h_type msg; h msg (hi_id i) (hi_now i) with
          | None => Ok None
          | Some r => Some <$> pack_authcrypt_hybrid (addressed r (did bob) (did alice)) bob (did_document alice)
                               None (hi_rng i)
          end)) as Heq.
  { unfold handle_incoming. rewrite Hd, (unpack_pack _ _ _ _ _ _ _ _ _ _ Hsa Hab Hra Hp).
    destruct (h_is_expired msg (hi_now i)) eqn:Ex; [done|]. cbn [mbind result_bind]. rewrite Ex. cbn [throw_if mbind result_bind].
    destruct (hd_handlers d !! h_type msg) as [h|]; [|done]. cbn [mbind option_bind].
    destruct (h msg _ _) as [r|]; [|done]. rewrite Hra. cbn [ok_or mbind result_bind]. fold (addressed r (did bob) (did alice)).
    by destruct (pack_authcrypt_hybrid _ _ _ _ _). }
  split; [done|]. intros out now r Hout Hr. rewrite Heq, Hr in Hout.
  destruct (h_is_expired msg (hi_now i)); [done|].
  destruct (pack_authcrypt_hybrid (addressed r _ _) _ _ _ _) as [out'|] eqn:Ho; [|done]. injection Hout as ->.
  by rewrite (unpack_pack _ _ _ _ _ _ _ _ resolve now Hsb Haa Hrb Ho).
Qed.

(** An envelope that names another sender, with the signatures of that sender. *)
Definition resigned (e : AuthcryptEnvelope) (by_did : string) (ed pq : bytes) : AuthcryptEnvelope :=
  let p := ae_protected e in
  {| ae_kind := ae_kind e;
     ae_protected := {| ap_alg := ap_alg p; ap_enc := ap_enc p; ap_sender_did := by_did;
       ap_sender_x25519_public_key := ap_sender_x25519_public_key p;
       ap_sender_evm_address := ap_sender_evm_address p;
       ap_sender_binding_proof_hash := ap_sender_binding_proof_hash p;
       ap_pq_kem := ap_pq_kem p; ap_pq_ct := ap_pq_ct p |};
     ae_nonce := ae_nonce e; ae_ciphertext := ae_ciphertext e;
     ed25519_signature := b64_std_encode ed; mldsa65_signature := b64_std_encode pq |}.

(** The signature does not bind the sender to the message.  Whoever sees an
    envelope that a recipient accepts can put their own name and their own signatures of the
    cipher text on it, without any secret of the sender or the recipient: the recipient
    accepts it, with the same message, as coming from them. *)
Theorem authcrypt_resign e recipient resolve now m s ct mallory mdoc ed pq :
  unpack_authcrypt e recipient resolve now = Ok (m, s) → b64_std_decode (ae_ciphertext e) = Some ct →
  doc_keys_of mallory mdoc → resolve (did mallory) = Some mdoc → dual_sign mallory ct = Ok (ed, pq) →
  unpack_authcrypt (resigned e (did mallory) ed pq) recipient resolve now = Ok (m, Some (did mallory)).
Proof using All.
  intros Hu Hct Hk Hres Hs. unfold unpack_authcrypt in *. cbn [resigned ae_protected ap_sender_did
    ap_sender_x25519_public_key ae_ciphertext ed25519_signature mldsa65_signature ae_nonce ap_pq_kem ap_pq_ct].
  inv_res. rewrite Hres. cbn [ok_or mbind result_bind].
  match goal with Hx : h_field _ (ae_ciphertext e) = Ok ?x |- _ =>
    assert (x = ct) as -> by (unfold h_field in Hx; rewrite Hct in Hx; by injection Hx) end.
  repeat match goal with Hx : ?t = Ok _ |- context [?t] => rewrite Hx; cbn [mbind result_bind] end.
  rewrite !h_field_encode. cbn [mbind result_bind]. rewrite (dual_sign_verify _ _ _ _ _ Hk Hs).
  cbn [map_err mbind result_bind negb throw_if].
  repeat match goal with Hx : ?t = Ok _ |- context [?t] => rewrite Hx; cbn [mbind result_bind] end.
  match goal with Hx : hmsg_from_slice _ = Some m |- _ => rewrite Hx end. cbn [ok_or mbind result_bind].
  match goal with Hx : negb _ = false |- context [negb (authcrypt_gate_accepts _ _ _ _)] => by rewrite Hx end.
Qed.
End halo.

(** ** Examples *)

Section witnesses.
#[local] Existing Instances prefix_sha toy_sig toy_sig_laws toy_did toy_did_laws.

(** The agreement adds the keys; an encapsulation hides nothing; a cipher text is the text
    with the key as its tag. *)
Definition toy_kem : KemLib := {|
  x25519_dh := λ a b, to_arr 32 (le_bytes 32 (of_le_bytes (arr_bytes a) + of_le_bytes (arr_bytes b))%N);
  MlKemEk := bytes; mlkem_ek_from_bytes := Some;
  mlkem_encapsulate := λ ek _, Some (replicate MLKEM768_CT_LEN x00, ek);
  mlkem_decapsulate := λ dk _, Some (arr_bytes dk) |}.
Lemma toy_kem_laws : KemLib_Laws toy_kem.
Proof.
  split.
  - intros a b. cbn. by rewrite N.add_comm.
  - intros dk. exists (arr_bytes dk). split; [done|]. by intros r ct ss [= <- <-].
Qed.
Definition toy_hkdf : HkdfLib := {|
  hkdf_sha256 := λ _ ikm _, Some (to_arr 32 ikm); hkdf_sha512 := λ _ ikm _, Some (to_arr 32 ikm) |}.
Definition toy_aead : AeadLib := {|
  aes_encrypt := λ k _ m, Some (m ++ arr_bytes k);
  aes_decrypt := λ k _ c, if bool_decide (drop (length c - 32) c = arr_bytes k) then Some (take (length c - 32) c)
                          else None |}.
Lemma toy_aead_laws : AeadLib_Laws toy_aead.
Proof.
  split. intros k n m c [= <-]. cbn. rewrite length_app, arr_length, Nat.add_sub.
  by rewrite drop_app_length, take_app_length, bool_decide_eq_true_2.
Qed.
Definition toy_b64 : Base64 := {| b64_encode := of_bytes; b64_decode := λ s, Some (as_bytes s) |}.
Definition toy_b64s : Base64Std := {| b64_std_encode := of_bytes; b64_std_decode := λ s, Some (as_bytes s) |}.
Lemma toy_b64_laws : Base64_Laws toy_b64.
Proof. split. intros b. exact (f_equal Some (as_of_bytes b)). Qed.
Lemma toy_b64s_laws : Base64Std_Laws toy_b64s.
Proof. split. intros b. exact (f_equal Some (as_of_bytes b)). Qed.

#[local] Existing Instances toy_kem toy_kem_laws toy_hkdf toy_aead toy_aead_laws toy_b64 toy_b64s toy_b64_laws
  toy_b64s_laws.

(** JSON as trees of texts and numbers; its bytes are the bits of its code. *)
Definition tree : Type := gen_tree (string + N).
Definition text (s : string) : tree := GenLeaf (inl s).
Definition num (n : N) : tree := GenLeaf (inr n).
Definition tree_to_bytes (t : tree) : bytes := code t.
Definition tree_of_bytes (b : bytes) : option tree := uncode b.
Lemma tree_bytes_roundtrip t : tree_of_bytes (tree_to_bytes t) = Some t.
Proof. apply uncode_code. Qed.

Definition tree_field (k : string) (t : tree) : option tree :=
  match t with GenNode 1 [GenLeaf (inl k'); v] => if bool_decide (k = k') then Some v else None | _ => None end.
Definition toy_tree : SerdeJson :=
  {| JsonValue := tree; json_to_vec := tree_to_bytes; json_from_slice := tree_of_bytes |}.
#[local] Existing Instance toy_tree.
Definition tree_access : JsonAccess := {|
  json_from_str := λ s, tree_of_bytes (as_bytes s);
  json_get := λ t k, match t with GenNode 0 l => first_some (tree_field k) l | _ => None end;
  json_get_idx := λ t i, match t with GenNode 5 l => l !! N.to_nat i | _ => None end;
  json_as_str := λ t, match t with GenLeaf (inl s) => Some s | _ => None end;
  json_as_u64 := λ t, match t with GenLeaf (inr n) => Some n | _ => None end;
  json_to_string := λ t, of_bytes (tree_to_bytes t) |}.
Definition member (kv : string * tree) : tree := GenNode 1 [text kv.1; kv.2].
Definition tree_build : JsonBuild := {|
  json_null := GenNode 2 []; json_bool := λ b, GenNode 3 [num (if b then 1 else 0)%N];
  json_u64 := num; json_str := text; json_object := λ l, GenNode 0 (member <$> l) |}.
#[local] Existing Instances tree_access tree_build.
Lemma tree_laws : JsonObject_Laws tree_access.
Proof.
  split; [|done]. intros l k v. cbn. induction l as [|[k' v'] l IH]; intros Hnd Hin.
  - inversion Hin.
  - cbn in *. apply NoDup_cons in Hnd as [Hni Hnd]. apply elem_of_cons in Hin as [[= <- <-]|Hin].
    + by rewrite bool_decide_eq_true_2.
    + rewrite bool_decide_eq_false_2; [by apply IH|]. intros <-. apply Hni, list_elem_of_fmap. by exists (k, v).
Qed.

Definition opt {A} (f : A → tree) (o : option A) : tree := GenNode 7 (option_list (f <$> o)).
Definition get_opt {A} (f : tree → option A) (t : tree) : option (option A) :=
  match t with GenNode 7 [] => Some None | GenNode 7 [x] => Some <$> f x | _ => None end.
Lemma get_opt_opt {A} (f : A → tree) g o : (∀ x, g (f x) = Some x) → get_opt g (opt f o) = Some o.
Proof. intros Hg. destruct o; cbn; by rewrite ?Hg. Qed.
Definition get_text (t : tree) : option string := match t with GenLeaf (inl s) => Some s | _ => None end.
Definition get_num (t : tree) : option N := match t with GenLeaf (inr n) => Some n | _ => None end.
Definition texts (l : list string) : tree := GenNode 5 (text <$> l).
Definition get_texts (t : tree) : option (list string) :=
  match t with GenNode 5 l => mapM get_text l | _ => None end.
Lemma get_texts_texts l : get_texts (texts l) = Some l.
Proof. cbn. induction l as [|s l IH]; [done|]. cbn. by rewrite IH. Qed.

(** *** The mesh *)

Definition type_num (t : Mesh.MessageType) : N :=
  match t with
  | Mesh.McpToolCall => 0 | Mesh.McpToolResponse => 1 | Mesh.EnvelopeExchange => 2 | Mesh.CapabilityGrant => 3
  | Mesh.CapabilityAccept => 4 | Mesh.PeerAnnounce => 5 | Mesh.Heartbeat => 6
  end%N.
Definition num_type (n : N) : option Mesh.MessageType :=
  [Mesh.McpToolCall; Mesh.McpToolResponse; Mesh.EnvelopeExchange; Mesh.CapabilityGrant; Mesh.CapabilityAccept;
   Mesh.PeerAnnounce; Mesh.Heartbeat] !! N.to_nat n.
Definition mesh_tree (m : Mesh.DIDCommMessage) : tree :=
  GenNode 5 [text (Mesh.m_id m); num (type_num (Mesh.m_type m)); text (Mesh.m_from m); texts (Mesh.m_to m);
    num (Mesh.m_created_time m); opt num (Mesh.m_expires_time m); Mesh.m_body m; opt text (Mesh.m_thid m);
    opt text (Mesh.m_pthid m)].
Definition mesh_of_tree (t : tree) : option Mesh.DIDCommMessage :=
  match t with
  | GenNode 5 [id; ty; from; to; created; expires; body; thid; pthid] =>
      id ← get_text id; ty ← get_num ty ≫= num_type; from ← get_text from; to ← get_texts to;
      created ← get_num created; expires ← get_opt get_num expires; thid ← get_opt get_text thid;
      pthid ← get_opt get_text pthid;
      Some (Mesh.mk_Message id ty from to created expires body thid pthid)
  | _ => None
  end.
Lemma mesh_of_mesh_tree m : mesh_of_tree (mesh_tree m) = Some m.
Proof.
  destruct m as [id [] from to created expires body thid pthid]; unfold mesh_of_tree, mesh_tree;
    cbn [Mesh.m_id Mesh.m_type Mesh.m_from Mesh.m_to Mesh.m_created_time Mesh.m_expires_time Mesh.m_body
         Mesh.m_thid Mesh.m_pthid]; rewrite get_texts_texts, !get_opt_opt by done; done.
Qed.
Definition tree_mesh : Mesh.MeshJson := {|
  Mesh.msg_to_vec := λ m, Some (tree_to_bytes (mesh_tree m));
  Mesh.msg_from_slice := λ b, tree_of_bytes b ≫= mesh_of_tree;
  Mesh.token_to_value := λ _, None; Mesh.token_from_value := λ _, None; Mesh.result_from_value := λ _, None;
  Mesh.json_as_i64 := λ t, Z.of_N <$> get_num t; Mesh.json_array := GenNode 5 |}.
Lemma tree_mesh_laws : MeshJson_Laws tree_mesh.
Proof.
  split. intros m b [= <-]. cbn [Mesh.msg_from_slice tree_mesh]. rewrite tree_bytes_roundtrip.
  apply mesh_of_mesh_tree.
Qed.
#[local] Existing Instances tree_laws tree_mesh tree_mesh_laws.

Definition ex_alice : result string DIDIdentity := did_from_genesis_seed (to_arr 64 [x01; x02]).
Definition ex_bob : result string DIDIdentity := did_from_genesis_seed (to_arr 64 [x03]).
Definition ex_rng : DcRng := {| rng_eph := to_arr 32 [x07]; rng_kem := []; rng_nonce := Some (to_arr 12 [x05]) |}.
Definition ex_mesh_in : Mesh.MeshIn := {|
  Mesh.in_now := 100; Mesh.in_rng := ex_rng;
  Mesh.in_id := {| Mesh.id_nanos := 5; Mesh.id_pid := 6; Mesh.id_counter := 7; Mesh.id_random := to_arr 16 [] |} |}.
Definition ex_call : result DcError Mesh.DIDCommEnvelope :=
  match ex_alice, ex_bob with
  | Ok a, Ok b => Mesh.wrap_mcp_call a (did_document b) "search" (text "query") ex_mesh_in
  | _, _ => Err DcNested
  end.
Lemma ex_call_ok : is_ok ex_call = true.
Proof. vm_compute. reflexivity. Qed.

Lemma mcp_call_delivered_witness :
  ∃ alice bob env, ex_alice = Ok alice ∧ ex_bob = Ok bob ∧
  Mesh.verify_envelope_signature (did_document alice) env = Ok true ∧
  Mesh.unwrap_mcp_call bob (did_document alice) env 400 =
    Ok (Mesh.generate_message_id (Mesh.in_id ex_mesh_in), "search", text "query") ∧
  Mesh.unwrap_mcp_call bob (did_document alice) env 401 = Err DcExpired.
Proof.
  pose proof ex_call_ok as Hok. unfold ex_call in Hok.
  destruct ex_alice as [a|] eqn:Ea; [|done]. destruct ex_bob as [b|] eqn:Eb; [|done].
  destruct (Mesh.wrap_mcp_call a _ _ _ _) as [env|] eqn:Ee; [|done].
  assert (Mesh.in_now ex_mesh_in + 300 ≤ u64_max)%N as Hm by (vm_compute; discriminate).
  exists a, b, env. do 2 (split; [done|]).
  destruct (MeshSpec.mcp_call_delivered _ _ _ _ _ _ _ _ 400 Ea Eb Hm Ee) as (Hs & H4 & _).
  destruct (MeshSpec.mcp_call_delivered _ _ _ _ _ _ _ _ 401 Ea Eb Hm Ee) as (_ & H5 & _).
  split; [exact Hs|split; [exact H4|exact H5]].
Defined.

(** *** Waiting requests *)

Definition ex_doc : DIDDocument :=
  match ex_bob with
  | Ok b => did_document b
  | Err _ => {| doc_id := ""; also_known_as := []; verification_method := []; key_agreement := [];
                authentication := []; assertion_method := [] |}
  end.
Definition ex_sessions : Mesh.Sessions := Mesh.establish ∅ "did:key:bob" ex_doc 100.

Lemma pending_requests_refine_witness :
  let r := {| Mesh.pr_message_id := "m"; Mesh.sent_at := 110; Mesh.pr_type := Mesh.McpToolCall;
              Mesh.pr_timeout_secs := 30 |} in
  let ss := (Mesh.track_request "did:key:bob" "m" Mesh.McpToolCall 30 110 ex_sessions).1 in
  MeshSpec.waiting ss "did:key:bob" "m" = Some r ∧
  MeshSpec.waiting (Mesh.complete_request "did:key:bob" "m" ss).1 "did:key:bob" "m" = None ∧
  MeshSpec.waiting (Mesh.cleanup ss 140 1000).1 "did:key:bob" "m" = None ∧
  MeshSpec.waiting (Mesh.cleanup ss 139 1000).1 "did:key:bob" "m" = Some r.
Proof.
  cbv zeta. set (ss := (Mesh.track_request _ _ _ _ _ ex_sessions).1).
  assert (Mesh.track_request "did:key:bob" "m" Mesh.McpToolCall 30 110 ex_sessions = (ss, Ok tt)) as Ht by done.
  destruct (MeshSpec.pending_requests_refine ex_sessions "did:key:bob" "did:key:bob" "m" "m") as (H1 & _).
  destruct (H1 _ _ _ _ _ Ht) as [_ H2].
  destruct (MeshSpec.pending_requests_refine ss "did:key:bob" "did:key:bob" "m" "m") as (_ & _ & H3 & _ & H4).
  split; [exact H2|split; [exact H3|split]].
  - rewrite (H4 140%N 1000%N). reflexivity.
  - rewrite (H4 139%N 1000%N). reflexivity.
Defined.

(** *** Authenticated envelopes *)

Definition attachment_tree (a : DIDCommAttachment) : tree :=
  GenNode 5 [text (att_id a); text (media_type a);
    match att_data a with
    | AdJson v => GenNode 10 [v] | AdBase64 s => GenNode 11 [text s] | AdLinks l => GenNode 12 [texts l]
    end].
Definition attachment_of_tree (t : tree) : option DIDCommAttachment :=
  match t with
  | GenNode 5 [id; ty; data] =>
      id ← get_text id; ty ← get_text ty;
      data ← match data with
             | GenNode 10 [v] => Some (AdJson v)
             | GenNode 11 [s] => AdBase64 <$> get_text s
             | GenNode 12 [l] => AdLinks <$> get_texts l
             | _ => None
             end;
      Some {| att_id := id; media_type := ty; att_data := data |}
  | _ => None
  end.
Definition attachments_tree (l : list DIDCommAttachment) : tree := GenNode 5 (attachment_tree <$> l).
Definition attachments_of_tree (t : tree) : option (list DIDCommAttachment) :=
  match t with GenNode 5 l => mapM attachment_of_tree l | _ => None end.
Lemma attachments_roundtrip l : attachments_of_tree (attachments_tree l) = Some l.
Proof.
  cbn [attachments_of_tree attachments_tree]. induction l as [|[id ty []] l IH]; [done|..];
    cbn [fmap list_fmap mapM]; rewrite IH; [done|done|]. unfold attachment_of_tree, attachment_tree.
  cbn [att_id media_type att_data]. by rewrite get_texts_texts.
Qed.

Definition halo_tree (m : DIDCommMessage) : tree :=
  GenNode 5 [text (h_id m); text (h_type m); opt text (h_from m); texts (h_to m); opt num (h_created_time m);
    opt num (h_expires_time m); h_body m; opt attachments_tree (h_attachments m)].
Definition halo_of_tree (t : tree) : option DIDCommMessage :=
  match t with
  | GenNode 5 [id; ty; from; to; created; expires; body; att] =>
      id ← get_text id; ty ← get_text ty; from ← get_opt get_text from; to ← get_texts to;
      created ← get_opt get_num created; expires ← get_opt get_num expires;
      att ← get_opt attachments_of_tree att;
      Some (mk_HaloMessage id ty from to created expires body att)
  | _ => None
  end.
Lemma halo_of_halo_tree m : halo_of_tree (halo_tree m) = Some m.
Proof.
  destruct m as [id ty from to created expires body att]. unfold halo_of_tree, halo_tree.
  cbn [h_id h_type h_from h_to h_created_time h_expires_time h_body h_attachments].
  rewrite get_texts_texts, !get_opt_opt by (done || apply attachments_roundtrip). done.
Qed.

(** The envelopes are objects with their kind and the list of their other fields. *)
Definition auth_tree (e : AuthcryptEnvelope) : tree :=
  let p := ae_protected e in
  GenNode 0 [member ("kind", text (ae_kind e));
    member ("fields", GenNode 5 [text (ap_alg p); text (ap_enc p); text (ap_sender_did p);
      text (ap_sender_x25519_public_key p); opt text (ap_sender_evm_address p);
      opt text (ap_sender_binding_proof_hash p); opt text (ap_pq_kem p); opt text (ap_pq_ct p); text (ae_nonce e);
      text (ae_ciphertext e); text (ed25519_signature e); text (mldsa65_signature e)])].
Definition auth_of_tree (t : tree) : option AuthcryptEnvelope :=
  k ← json_get t "kind" ≫= get_text; f ← json_get t "fields";
  match f with
  | GenNode 5 [alg; enc; sd; pk; evm; hash; kem; ct; nonce; cipher; ed; pq] =>
      alg ← get_text alg; enc ← get_text enc; sd ← get_text sd; pk ← get_text pk; evm ← get_opt get_text evm;
      hash ← get_opt get_text hash; kem ← get_opt get_text kem; ct ← get_opt get_text ct; nonce ← get_text nonce;
      cipher ← get_text cipher; ed ← get_text ed; pq ← get_text pq;
      Some {| ae_kind := k; ae_protected := {| ap_alg := alg; ap_enc := enc; ap_sender_did := sd;
                ap_sender_x25519_public_key := pk; ap_sender_evm_address := evm;
                ap_sender_binding_proof_hash := hash; ap_pq_kem := kem; ap_pq_ct := ct |};
              ae_nonce := nonce; ae_ciphertext := cipher; ed25519_signature := ed; mldsa65_signature := pq |}
  | _ => None
  end.
Lemma auth_of_auth_tree e : auth_of_tree (auth_tree e) = Some e.
Proof. by destruct e as [k [alg enc sd pk [] [] [] []] nonce cipher ed pq]. Qed.
Definition anon_tree (e : AnoncryptEnvelope) : tree :=
  let p := ne_protected e in
  GenNode 0 [member ("kind", text (ne_kind e));
    member ("fields", GenNode 5 [text (np_alg p); text (np_enc p); text (np_epk p); opt text (np_pq_kem p);
      opt text (np_pq_ct p); text (ne_nonce e); text (ne_ciphertext e)])].
Definition anon_of_tree (t : tree) : option AnoncryptEnvelope :=
  k ← json_get t "kind" ≫= get_text; f ← json_get t "fields";
  match f with
  | GenNode 5 [alg; enc; epk; kem; ct; nonce; cipher] =>
      alg ← get_text alg; enc ← get_text enc; epk ← get_text epk; kem ← get_opt get_text kem;
      ct ← get_opt get_text ct; nonce ← get_text nonce; cipher ← get_text cipher;
      Some {| ne_kind := k; ne_protected := {| np_alg := alg; np_enc := enc; np_epk := epk; np_pq_kem := kem;
                np_pq_ct := ct |}; ne_nonce := nonce; ne_ciphertext := cipher |}
  | _ => None
  end.
Lemma anon_of_anon_tree e : anon_of_tree (anon_tree e) = Some e.
Proof. by destruct e as [k [alg enc epk [] []] nonce cipher]. Qed.

Definition tree_halo : HaloJson := {|
  hmsg_to_vec := λ m, Some (tree_to_bytes (halo_tree m)); hmsg_from_slice := λ b, tree_of_bytes b ≫= halo_of_tree;
  auth_to_vec := λ e, Some (tree_to_bytes (auth_tree e)); auth_from_value := auth_of_tree;
  anon_to_vec := λ e, Some (tree_to_bytes (anon_tree e)); anon_from_value := anon_of_tree |}.
Lemma tree_halo_laws : HaloJson_Laws tree_halo.
Proof.
  split.
  - intros m b [= <-]. cbn [hmsg_from_slice tree_halo]. rewrite tree_bytes_roundtrip. apply halo_of_halo_tree.
  - intros e b [= <-]. exists (auth_tree e). split; [apply tree_bytes_roundtrip|]. split; [apply auth_of_auth_tree|done].
  - intros e b [= <-]. exists (anon_tree e). split; [apply tree_bytes_roundtrip|]. split; [apply anon_of_anon_tree|done].
Qed.
#[local] Existing Instances tree_halo tree_halo_laws.

Definition ex_resolve (l : list DIDIdentity) (uri : string) : option DIDDocument :=
  first_some (λ i, if bool_decide (uri = did i) then Some (did_document i) else None) l.
Definition ex_ping : DIDCommMessage :=
  message_new message_types.PING (Some "did:key:alice") [] (GenNode 0 []) "m1" 100.
Definition ex_packed (a b : DIDIdentity) : result DcError bytes :=
  pack_authcrypt_hybrid ex_ping a (did_document b) None ex_rng.
Definition ex_handler_in : HandlerIn := {| hi_now := 101; hi_id := "m2"; hi_rng := ex_rng |}.
Definition ex_handler (b : DIDIdentity) : DIDCommHandler :=
  on_message message_types.PING (reply message_types.ACK "ok") (handler_new b).
Definition ex_answer (a b : DIDIdentity) : result DcError (option bytes) :=
  packed ← ex_packed a b;
  handle_incoming (ex_handler b) packed (ex_resolve [a; b]) ex_handler_in.
Definition ex_with {A} (f : DIDIdentity → DIDIdentity → A) (e : A) : A :=
  match ex_alice, ex_bob with Ok a, Ok b => f a b | _, _ => e end.
Lemma ex_answer_ok : ex_with (λ a b, match ex_answer a b with Ok (Some _) => true | _ => false end) false = true.
Proof. vm_compute. reflexivity. Qed.
Lemma ex_resolve_two a b :
  did a ≠ did b →
  ex_resolve [a; b] (did a) = Some (did_document a) ∧ ex_resolve [a; b] (did b) = Some (did_document b).
Proof.
  intros Hab. unfold ex_resolve. cbn. rewrite bool_decide_eq_true_2 by done.
  by rewrite bool_decide_eq_false_2, bool_decide_eq_true_2 by congruence.
Qed.
Lemma ex_names_differ : ex_with (λ a b, negb (bool_decide (did a = did b))) false = true.
Proof. vm_compute. reflexivity. Qed.

Lemma handler_answers_sender_witness :
  ∃ alice bob out, ex_alice = Ok alice ∧ ex_bob = Ok bob ∧ ex_answer alice bob = Ok (Some out) ∧
  unpack_with_resolver out alice (ex_resolve [alice; bob]) 102 =
    Ok (mk_HaloMessage "m2" message_types.ACK (Some (did bob)) [did alice] (Some 101%N) None
          (json_object [("reply_to", text "m1"); ("status", text "ok")]) None, Some (did bob)).
Proof.
  pose proof ex_answer_ok as Hok. pose proof ex_names_differ as Hne. unfold ex_with in *.
  destruct ex_alice as [a|] eqn:Ea; [|done]. destruct ex_bob as [b|] eqn:Eb; [|done].
  destruct (ex_answer a b) as [[out|]|] eqn:Eo; [|done..].
  apply negb_true_iff, bool_decide_eq_false in Hne. destruct (ex_resolve_two a b Hne) as [Hra Hrb].
  exists a, b, out. do 3 (split; [done|]). unfold ex_answer in Eo.
  destruct (ex_packed a b) as [packed|] eqn:Ep; [|done]. cbn [mbind result_bind] in Eo.
  destruct (handler_answers_sender _ _ _ _ (ex_handler b) _ _ _ _
              (ex_resolve [a; b]) ex_handler_in Ea Eb eq_refl Hra Hrb Ep) as [_ Ho].
  exact (Ho out 102%N _ Eo eq_refl).
Defined.

(** Bob reads the message of Alice as one of somebody else. *)
Definition ex_mallory : result string DIDIdentity := did_from_genesis_seed (to_arr 64 [x09]).
Definition ex_envelope (a b : DIDIdentity) : option AuthcryptEnvelope :=
  match ex_packed a b with Ok p => tree_of_bytes p ≫= auth_of_tree | Err _ => None end.
Definition ex_knows (a m : DIDIdentity) : string → option DIDDocument := ex_resolve [a; m].
Definition ex_resigned (a b m : DIDIdentity) : bool :=
  match ex_envelope a b with
  | Some e =>
      match unpack_authcrypt e b (ex_knows a m) 101, b64_std_decode (ae_ciphertext e) with
      | Ok _, Some ct => is_ok (dual_sign m ct) && negb (bool_decide (did a = did m))
      | _, _ => false
      end
  | None => false
  end.
Lemma ex_resigned_ok :
  match ex_mallory with Ok m => ex_with (λ a b, ex_resigned a b m) false | Err _ => false end = true.
Proof. vm_compute. reflexivity. Qed.

Lemma authcrypt_resign_witness :
  ∃ alice bob mallory e msg s ed pq, ex_alice = Ok alice ∧ ex_bob = Ok bob ∧ ex_mallory = Ok mallory ∧
  unpack_authcrypt e bob (ex_knows alice mallory) 101 = Ok (msg, s) ∧
  unpack_authcrypt (resigned e (did mallory) ed pq) bob (ex_knows alice mallory) 101 =
    Ok (msg, Some (did mallory)).
Proof.
  pose proof ex_resigned_ok as Hok. unfold ex_with, ex_resigned in Hok.
  destruct ex_mallory as [m|] eqn:Em; [|done].
  destruct ex_alice as [a|] eqn:Ea; [|done]. destruct ex_bob as [b|] eqn:Eb; [|done].
  destruct (ex_envelope a b) as [e|]; [|done].
  destruct (unpack_authcrypt e b _ _) as [[msg s]|] eqn:Eu; [|done].
  destruct (b64_std_decode (ae_ciphertext e)) as [ct|] eqn:Ec; [|done].
  destruct (dual_sign m ct) as [[ed pq]|] eqn:Ed; [|done].
  apply negb_true_iff, bool_decide_eq_false in Hok. destruct (ex_resolve_two a m Hok) as [_ Hrm].
  destruct (genesis_identity_keys _ _ Em) as (_ & Hk & _).
  exists a, b, m, e, msg, s, ed, pq. do 4 (split; [done|]).
  exact (authcrypt_resign _ _ _ _ _ _ _ _ _ _ _ Eu Ec Hk Hrm Ed).
Defined.
End witnesses.
