(* ===== verification/R1cs.v ===== *)
(** * Rank-one constraint systems and Groth16, as [ark-relations] and [ark-groth16] have them

    What the circuits of [halo/zk_credential.rs] and [halo/circuit.rs] use: a field, linear
    combinations of variables, the constraint system that a circuit fills, and the proof
    system.  The field and the proof system are class parameters.  The constraint system
    runs in two modes: a setup does not ask for the values of variables. *)
From Stdlib Require Export Ring_theory Ring.
From S2P Require Export Crypto.

(** [ark_bn254::Fr]. *)
Class ArkField := {
  FrB : Type;
  fr_eq_dec : EqDecision FrB;
  fr_zero : FrB; fr_one : FrB;
  fr_add : FrB → FrB → FrB; fr_sub : FrB → FrB → FrB; fr_mul : FrB → FrB → FrB; fr_opp : FrB → FrB;
  (** [Fr::from] of an unsigned integer. *)
  fr_from : N → FrB;
  fr_inverse : FrB → option FrB;
  fr_into_bigint : FrB → N
}.
#[export] Existing Instance fr_eq_dec.
Declare Scope fr_scope.
Delimit Scope fr_scope with fr.
Infix "+" := fr_add : fr_scope.
Infix "-" := fr_sub : fr_scope.
Infix "*" := fr_mul : fr_scope.
Notation "- x" := (fr_opp x) : fr_scope.

(** A field of more than [2 ^ 200] elements, in which integers below that are themselves. *)
Class ArkField_Laws (F : ArkField) : Prop := {
  fr_ring : ring_theory fr_zero fr_one fr_add fr_mul fr_sub fr_opp eq;
  fr_from_one : fr_from 1 = fr_one;
  fr_from_add a b : fr_from (a + b) = fr_add (fr_from a) (fr_from b);
  fr_from_small n : (n < 2 ^ 200)%N → fr_into_bigint (fr_from n) = n;
  fr_inverse_some x : x ≠ fr_zero → ∃ y, fr_inverse x = Some y ∧ fr_mul x y = fr_one
}.

Inductive SynthesisError := AssignmentMissing | Unsatisfiable.

Section r1cs.
Context `{F : ArkField}.

Inductive Variable_ := One | Instance_ (i : nat) | Witness_ (i : nat).
(** [lc!() + v - w]: coefficients and variables. *)
Definition LinearCombination : Type := list (FrB * Variable_).
Definition lc : LinearCombination := [].
Definition lc_add (l : LinearCombination) (v : Variable_) : LinearCombination := l ++ [(fr_one, v)].
Definition lc_sub (l : LinearCombination) (v : Variable_) : LinearCombination := l ++ [(fr_opp fr_one, v)].

(** Their product of the first two is the third. *)
Definition Constraint : Type := LinearCombination * LinearCombination * LinearCombination.
Record ConstraintSystem := mk_CS {
  setup_mode : bool;
  instance_assignment : list FrB;
  witness_assignment : list FrB;
  num_instance_variables : nat;
  num_witness_variables : nat;
  constraints : list Constraint
}.
(** The first instance variable is one. *)
Definition cs_new (setup : bool) : ConstraintSystem := mk_CS setup [fr_one] [] 1 0 [].

(** [value] is what the closure of the circuit returns; a setup does not call it. *)
Definition new_input_variable (value : result SynthesisError FrB)
  : action ConstraintSystem SynthesisError Variable_ := λ cs,
  let add assigned := (mk_CS (setup_mode cs) assigned (witness_assignment cs) (S (num_instance_variables cs))
    (num_witness_variables cs) (constraints cs), Ok (Instance_ (num_instance_variables cs))) in
  if setup_mode cs then add (instance_assignment cs)
  else match value with Ok x => add (instance_assignment cs ++ [x]) | Err e => (cs, Err e) end.
Definition new_witness_variable (value : result SynthesisError FrB)
  : action ConstraintSystem SynthesisError Variable_ := λ cs,
  let add assigned := (mk_CS (setup_mode cs) (instance_assignment cs) assigned (num_instance_variables cs)
    (S (num_witness_variables cs)) (constraints cs), Ok (Witness_ (num_witness_variables cs))) in
  if setup_mode cs then add (witness_assignment cs)
  else match value with Ok x => add (witness_assignment cs ++ [x]) | Err e => (cs, Err e) end.
Definition enforce_constraint (a b c : LinearCombination) : action ConstraintSystem SynthesisError () := λ cs,
  (mk_CS (setup_mode cs) (instance_assignment cs) (witness_assignment cs) (num_instance_variables cs)
     (num_witness_variables cs) (constraints cs ++ [(a, b, c)]), Ok tt).

Definition value_of (inst wit : list FrB) (v : Variable_) : FrB :=
  match v with
  | One => fr_one
  | Instance_ i => nth i inst fr_zero
  | Witness_ i => nth i wit fr_zero
  end.
Definition eval_lc (inst wit : list FrB) (l : LinearCombination) : FrB :=
  foldr (λ cv acc, (cv.1 * value_of inst wit cv.2 + acc)%fr) fr_zero l.
Definition holds (inst wit : list FrB) (k : Constraint) : Prop :=
  (eval_lc inst wit k.1.1 * eval_lc inst wit k.1.2)%fr = eval_lc inst wit k.2.
Definition satisfied (cs : ConstraintSystem) : Prop :=
  Forall (holds (instance_assignment cs) (witness_assignment cs)) (constraints cs).

(** [ConstraintSynthesizer] *)
Definition Circuit : Type := action ConstraintSystem SynthesisError ().
Definition synthesize (setup : bool) (c : Circuit) : result SynthesisError ConstraintSystem :=
  match c (cs_new setup) with (cs, Ok _) => Ok cs | (_, Err e) => Err e end.

(** The assignments that a proof hides and shows: what a constraint system accepts. *)
Definition same_shape (a b : ConstraintSystem) : Prop :=
  constraints a = constraints b ∧ num_instance_variables a = num_instance_variables b ∧
  num_witness_variables a = num_witness_variables b.
End r1cs.

(** [ark_groth16] on BN254 and the compressed form of its proofs; [None] is an [Err].  A
    random generator is its seed. *)
Class ArkGroth16 `{ArkField} := {
  ProvingKey : Type; VerifyingKey : Type; Groth16Proof : Type;
  generate_parameters : ConstraintSystem → arr 32 → option (ProvingKey * VerifyingKey);
  create_proof : ProvingKey → ConstraintSystem → arr 32 → option Groth16Proof;
  groth16_verify : VerifyingKey → list FrB → Groth16Proof → option bool;
  proof_serialize : Groth16Proof → option bytes;
  proof_deserialize : bytes → option Groth16Proof
}.
(** Completeness: with the keys of a system, a satisfied system of its shape has a proof,
    which is accepted with the instance; a proof is read back as written. *)
Class ArkGroth16_Laws `(G : ArkGroth16) : Prop := {
  groth16_complete cs0 seed0 pk vk cs seed :
    generate_parameters cs0 seed0 = Some (pk, vk) → same_shape cs0 cs →
    head (instance_assignment cs) = Some fr_one → satisfied cs →
    ∃ p, create_proof pk cs seed = Some p ∧ groth16_verify vk (tail (instance_assignment cs)) p = Some true;
  groth16_proof_bytes p : ∃ b, proof_serialize p = Some b ∧ proof_deserialize b = Some p
}.

Section groth16.
Context `{G : ArkGroth16}.
(** [Groth16::circuit_specific_setup] and [Groth16::prove] run the circuit. *)
Definition circuit_specific_setup (c : Circuit) (seed : arr 32) : option (ProvingKey * VerifyingKey) :=
  match synthesize true c with Ok cs => generate_parameters cs seed | Err _ => None end.
Definition groth16_prove (pk : ProvingKey) (c : Circuit) (seed : arr 32) : option Groth16Proof :=
  match synthesize false c with Ok cs => create_proof pk cs seed | Err _ => None end.
End groth16.

(** ** Fields *)

Section field.
Context `{F : ArkField, !ArkField_Laws F}.
Add Ring FrRing : fr_ring.

Lemma fr_sub_zero x y : (x - y = fr_zero)%fr ↔ x = y.
Proof using All.
  split; [intros E|intros ->; ring]. transitivity (y + (x - y))%fr; [ring|]. rewrite E. ring.
Qed.
Lemma fr_from_zero : fr_from 0 = fr_zero.
Proof using All.
  pose proof (fr_from_add 0 0) as Ha. change (0 + 0)%N with 0%N in Ha.
  transitivity (fr_from 0 + fr_from 0 - fr_from 0)%fr; [ring|]. rewrite <-Ha. ring.
Qed.
Lemma fr_one_ne : fr_one ≠ fr_zero.
Proof using All.
  intros E. pose proof (fr_from_small 1 eq_refl) as H1.
  by rewrite fr_from_one, E, <-fr_from_zero, fr_from_small in H1.
Qed.
Lemma fr_from_inj a b : (a < 2 ^ 200)%N → (b < 2 ^ 200)%N → fr_from a = fr_from b → a = b.
Proof using All. intros Ha Hb E. rewrite <-(fr_from_small a Ha), <-(fr_from_small b Hb). by rewrite E. Qed.
(** No divisors of zero. *)
Lemma fr_mul_zero x y : (x * y = fr_zero)%fr → x ≠ fr_zero → y = fr_zero.
Proof using All.
  intros E Hx. destruct (fr_inverse_some x Hx) as (z & _ & Hz).
  transitivity (z * (x * y))%fr; [|rewrite E; ring]. transitivity (x * z * y)%fr; [rewrite Hz|]; ring.
Qed.
End field.
