(* ===== verification/ZkEx.v ===== *)
(** * Concrete fields and proofs, for examples

    The rational numbers are a field in which integers are themselves; a proof that hides
    nothing is the witness. *)
From Stdlib Require Import QArith Qcanon.
From S2P Require Export R1cs Codec.

Definition qc_from (n : N) : Qc := Q2Qc (Z.of_N n # 1).
Definition q_field : ArkField := {|
  FrB := Qc; fr_eq_dec := Qc_eq_dec; fr_zero := 0%Qc; fr_one := 1%Qc;
  fr_add := Qcplus; fr_sub := Qcminus; fr_mul := Qcmult; fr_opp := Qcopp;
  fr_from := qc_from;
  fr_inverse := λ x, if Qc_eq_dec x 0%Qc then None else Some (/ x)%Qc;
  fr_into_bigint := λ x, Z.to_N (Qnum (this x)) |}.
Lemma q_field_laws : ArkField_Laws q_field.
Proof.
  split.
  - exact Qcrt.
  - by apply Qc_is_canon.
  - intros a b. cbn. unfold qc_from, Qcplus. apply Qc_is_canon. cbn. rewrite !Qred_correct.
    unfold Qplus, Qeq. cbn. lia.
  - intros n _. cbn. assert (Qred (Z.of_N n # 1) = Z.of_N n # 1) as ->; [|cbn; lia].
    apply Qred_identity. cbn. apply Z.gcd_1_r.
  - intros x Hx. cbn. destruct (Qc_eq_dec x 0%Qc) as [->|Hne]; [done|]. eexists. split; [done|].
    by apply Qcmult_inv_r.
Qed.
#[export] Existing Instances q_field q_field_laws.

Definition holds_dec (inst wit : list Qc) (k : @Constraint q_field) : bool :=
  bool_decide (@fr_mul q_field (eval_lc inst wit k.1.1) (eval_lc inst wit k.1.2) = eval_lc inst wit k.2).
Definition qc_code (x : Qc) : Z * positive := (Qnum (this x), Qden (this x)).
Definition qc_uncode (x : Z * positive) : Qc := Q2Qc (x.1 # x.2).
Lemma qc_uncode_code x : qc_uncode (qc_code x) = x.
Proof. apply Qc_is_canon. cbn. rewrite Qred_correct. by destruct x as [[a b] H]. Qed.

(** The keys are the constraints, a proof is the witness. *)
Definition q_groth16 : @ArkGroth16 q_field := {|
  ProvingKey := unit; VerifyingKey := list (@Constraint q_field); Groth16Proof := list Qc;
  generate_parameters := λ cs _, Some (tt, constraints cs);
  create_proof := λ _ cs _, Some (witness_assignment cs);
  groth16_verify := λ vk inst w, Some (forallb (holds_dec (1%Qc :: inst) w) vk);
  proof_serialize := λ w, Some (code (map qc_code w));
  proof_deserialize := λ b, match uncode (A:=list (Z * positive)) b with Some l => Some (map qc_uncode l) | None => None end |}.
Lemma q_groth16_laws : ArkGroth16_Laws q_groth16.
Proof.
  split.
  - intros cs0 seed0 pk vk cs seed [= <- <-] (Hc & _ & _) Hh Hs. exists (witness_assignment cs). split; [done|].
    cbn. f_equal. apply forallb_forall. intros k Hk. apply list_elem_of_In in Hk. rewrite Hc in Hk.
    unfold satisfied in Hs. rewrite Forall_forall in Hs. specialize (Hs k Hk). unfold holds_dec.
    destruct (instance_assignment cs) as [|o inst]; [done|]. injection Hh as ->. by apply bool_decide_eq_true.
  - intros p. cbn. eexists. split; [done|]. rewrite uncode_code. f_equal. rewrite map_map.
    rewrite <-(map_id p) at 2. apply map_ext. intros x. apply qc_uncode_code.
Qed.
#[export] Existing Instances q_groth16 q_groth16_laws.
