(* ===== verification/Credential.v ===== *)
(** * Zero-knowledge credentials: [src/src/halo/zk_credential.rs]

    The circuit, proving and verifying a credential, and anonymous membership with its
    Merkle trees, in which an odd last element is hashed with itself. *)
From S2P Require Export R1cs Pod.

Definition CREDENTIAL_SETUP_DOMAIN : string := "agenthalo.zk_credential.setup.v1".
Definition CREDENTIAL_PROVE_DOMAIN : string := "agenthalo.zk_credential.prove.v1".
Definition CREDENTIAL_DID_HASH_DOMAIN : string := "agenthalo.zk_credential.did_hash.v1".
Definition CREDENTIAL_KEY_HASH_DOMAIN : string := "agenthalo.zk_credential.key_hash.v1".
Definition CREDENTIAL_MERKLE_DOMAIN : string := "agenthalo.zk_credential.merkle.v1".
Definition CREDENTIAL_MEMBERSHIP_DOMAIN : string := "agenthalo.zk_credential.membership.v1".
Definition CREDENTIAL_SCHEMA_VERSION : N := 2.

(** [halo/util.rs] *)
Definition digest_domain `{Sha2} (domain : string) (payload : bytes) : arr 32 :=
  sha256 (as_bytes domain ++ [x00] ++ payload).
Inductive HexError := HexLen (len : nat) | HexOdd | HexInvalid (text : string).
Definition hex_decode_32 (hex : string) : result HexError (arr 32) :=
  let s := default hex (strip_prefix "0x" hex) in
  _ ← throw_if (negb (str_len s =? 64)) (HexLen (str_len s));
  ok_or (hex_decode s ≫= try_arr 32) (HexInvalid hex).
Definition hex_decode_any (hex : string) : result HexError bytes :=
  let s := default hex (strip_prefix "0x" hex) in
  _ ← throw_if (negb (Nat.even (str_len s))) HexOdd;
  ok_or (hex_decode s) (HexInvalid hex).

(** A hash as two integers of sixteen bytes. *)
Definition split_hash (hash : arr 32) : N * N :=
  (of_le_bytes (take 16 (arr_bytes hash)), of_le_bytes (drop 16 (arr_bytes hash))).

(** ** The circuit *)

Section circuit.
Context `{F : ArkField}.

Record CredentialCircuit := {
  grantee_did_lo_public : option FrB; grantee_did_hi_public : option FrB;
  key_pattern_lo_public : option FrB; key_pattern_hi_public : option FrB;
  req_read_public : option FrB; req_write_public : option FrB;
  req_append_public : option FrB; req_control_public : option FrB;
  current_time_public : option FrB;
  grantee_did_lo_witness : option FrB; grantee_did_hi_witness : option FrB;
  key_pattern_lo_witness : option FrB; key_pattern_hi_witness : option FrB;
  grant_read_witness : option FrB; grant_write_witness : option FrB;
  grant_append_witness : option FrB; grant_control_witness : option FrB;
  revoked_witness : option FrB;
  expires_at_witness : option FrB;
  created_at_witness : option FrB;
  nonce_witness : option FrB;
  grant_id_lo_witness : option FrB; grant_id_hi_witness : option FrB;
  grantor_hash_lo_witness : option FrB; grantor_hash_hi_witness : option FrB
}.
Definition credential_blank : CredentialCircuit :=
  let z := Some (fr_from 0) in
  Build_CredentialCircuit z z z z z z z z z z z z z z z z z z z z z z z z z.

Definition enforce_equal (left right : Variable_) : action ConstraintSystem SynthesisError () :=
  enforce_constraint (lc_sub (lc_add lc left) right) (lc_add lc One) lc.
Definition enforce_boolean (v : Variable_) : action ConstraintSystem SynthesisError () :=
  enforce_constraint (lc_add lc v) (lc_sub (lc_add lc v) One) lc.
Definition enforce_subset (requested granted : Variable_) : action ConstraintSystem SynthesisError () :=
  enforce_constraint (lc_add lc requested) (lc_sub (lc_add lc One) granted) lc.

Definition assigned (o : option FrB) : result SynthesisError FrB := ok_or o AssignmentMissing.
Definition new_input (o : option FrB) : action ConstraintSystem SynthesisError Variable_ :=
  new_input_variable (assigned o).
Definition new_witness (o : option FrB) : action ConstraintSystem SynthesisError Variable_ :=
  new_witness_variable (assigned o).
Definition fr_to_u64 (value : FrB) : option N :=
  let n := fr_into_bigint value in if (n <? u64_mod)%N then Some n else None.
Definition bit_fr (b : bool) : FrB := fr_from (if b then 1 else 0).

(** The values of the further variables. *)
Definition u64_of (o : option FrB) : result SynthesisError N :=
  v ← assigned o; ok_or (fr_to_u64 v) Unsatisfiable.
Definition inverse_of (x : result SynthesisError FrB) : result SynthesisError FrB :=
  v ← x; ok_or (fr_inverse v) Unsatisfiable.
Definition mix_of (lo hi : option FrB) : result SynthesisError FrB :=
  l ← assigned lo; h ← assigned hi; mret (l + h + fr_from 1)%fr.
Definition created_delta (c : CredentialCircuit) : result SynthesisError FrB :=
  current ← u64_of (current_time_public c); created ← u64_of (created_at_witness c);
  if (current <? created)%N then Err Unsatisfiable else mret (fr_from (current - created)).
Definition has_expiry (c : CredentialCircuit) : result SynthesisError FrB :=
  expires ← u64_of (expires_at_witness c); mret (fr_from (if (expires =? 0)%N then 0 else 1)).
Definition expiry_delta (c : CredentialCircuit) : result SynthesisError FrB :=
  expires ← u64_of (expires_at_witness c);
  if (expires =? 0)%N then mret (fr_from 0)
  else
    current ← u64_of (current_time_public c);
    if (expires <=? current)%N then Err Unsatisfiable else mret (fr_from (expires - current - 1)).

Definition credential_constraints (c : CredentialCircuit) : Circuit :=
  grantee_did_lo ← new_input (grantee_did_lo_public c);
  grantee_did_hi ← new_input (grantee_did_hi_public c);
  key_pattern_lo ← new_input (key_pattern_lo_public c);
  key_pattern_hi ← new_input (key_pattern_hi_public c);
  req_read ← new_input (req_read_public c);
  req_write ← new_input (req_write_public c);
  req_append ← new_input (req_append_public c);
  req_control ← new_input (req_control_public c);
  current_time ← new_input (current_time_public c);
  grantee_did_lo_w ← new_witness (grantee_did_lo_witness c);
  grantee_did_hi_w ← new_witness (grantee_did_hi_witness c);
  key_pattern_lo_w ← new_witness (key_pattern_lo_witness c);
  key_pattern_hi_w ← new_witness (key_pattern_hi_witness c);
  grant_read ← new_witness (grant_read_witness c);
  grant_write ← new_witness (grant_write_witness c);
  grant_append ← new_witness (grant_append_witness c);
  grant_control ← new_witness (grant_control_witness c);
  revoked ← new_witness (revoked_witness c);
  expires_at ← new_witness (expires_at_witness c);
  created_at ← new_witness (created_at_witness c);
  nonce ← new_witness (nonce_witness c);
  grant_id_lo ← new_witness (grant_id_lo_witness c);
  grant_id_hi ← new_witness (grant_id_hi_witness c);
  grantor_lo ← new_witness (grantor_hash_lo_witness c);
  grantor_hi ← new_witness (grantor_hash_hi_witness c);
  _ ← enforce_equal grantee_did_lo grantee_did_lo_w;
  _ ← enforce_equal grantee_did_hi grantee_did_hi_w;
  _ ← enforce_equal key_pattern_lo key_pattern_lo_w;
  _ ← enforce_equal key_pattern_hi key_pattern_hi_w;
  _ ← enforce_boolean req_read; _ ← enforce_boolean req_write;
  _ ← enforce_boolean req_append; _ ← enforce_boolean req_control;
  _ ← enforce_boolean grant_read; _ ← enforce_boolean grant_write;
  _ ← enforce_boolean grant_append; _ ← enforce_boolean grant_control;
  _ ← enforce_boolean revoked;
  _ ← enforce_subset req_read grant_read; _ ← enforce_subset req_write grant_write;
  _ ← enforce_subset req_append grant_append; _ ← enforce_subset req_control grant_control;
  _ ← enforce_constraint (lc_add lc revoked) (lc_add lc One) lc;
  nonce_inv ← new_witness_variable (inverse_of (assigned (nonce_witness c)));
  _ ← enforce_constraint (lc_add lc nonce) (lc_add lc nonce_inv) (lc_add lc One);
  created_delta_w ← new_witness_variable (created_delta c);
  _ ← enforce_constraint (lc_sub (lc_sub (lc_add lc current_time) created_at) created_delta_w) (lc_add lc One) lc;
  has_expiry_w ← new_witness_variable (has_expiry c);
  _ ← enforce_boolean has_expiry_w;
  expiry_delta_w ← new_witness_variable (expiry_delta c);
  _ ← enforce_constraint (lc_add lc expires_at) (lc_sub (lc_add lc One) has_expiry_w) lc;
  _ ← enforce_constraint
        (lc_sub (lc_sub (lc_sub (lc_add lc expires_at) current_time) expiry_delta_w) One)
        (lc_add lc has_expiry_w) lc;
  grant_id_mix_inv ←
    new_witness_variable (inverse_of (mix_of (grant_id_lo_witness c) (grant_id_hi_witness c)));
  _ ← enforce_constraint (lc_add (lc_add (lc_add lc grant_id_lo) grant_id_hi) One) (lc_add lc grant_id_mix_inv)
        (lc_add lc One);
  grantor_mix_inv ←
    new_witness_variable (inverse_of (mix_of (grantor_hash_lo_witness c) (grantor_hash_hi_witness c)));
  enforce_constraint (lc_add (lc_add (lc_add lc grantor_lo) grantor_hi) One) (lc_add lc grantor_mix_inv)
    (lc_add lc One).
End circuit.

(** ** Permissions *)

Definition permissions_subset (requested granted : GrantPermissions) : bool :=
  (negb (p_read requested) || p_read granted) && (negb (p_write requested) || p_write granted) &&
  (negb (p_append requested) || p_append granted) && (negb (p_control requested) || p_control granted).
Definition permission_flags (p : GrantPermissions) : N :=
  N.lor (N.lor (N.lor (if p_read p then 1 else 0) (if p_write p then 2 else 0)) (if p_append p then 4 else 0))
    (if p_control p then 8 else 0).
(** [flags & !0b1111] on a byte. *)
Definition flags_to_permissions (flags : N) : option GrantPermissions :=
  if (N.land flags 240 =? 0)%N then
    let bit m := negb (N.land flags m =? 0)%N in
    Some {| p_read := bit 1%N; p_write := bit 2%N; p_append := bit 4%N; p_control := bit 8%N |}
  else None.

(** ** Merkle trees *)

Section merkle.
Context `{Sha2}.

Definition merkle_parent (left right : arr 32) : arr 32 :=
  digest_domain CREDENTIAL_MERKLE_DOMAIN (arr_bytes left ++ arr_bytes right).
(** One level; an odd last element is its own neighbour. *)
Fixpoint cred_level (l : list (arr 32)) : list (arr 32) :=
  match l with
  | [] => []
  | [x] => [merkle_parent x x]
  | x :: y :: l' => merkle_parent x y :: cred_level l'
  end.
(** [while level.len() > 1]: a level is shorter than the one below, so the length is fuel
    enough ([cred_path_climbs]). *)
Fixpoint cred_rounds (fuel : nat) (l : list (arr 32)) : list (arr 32) :=
  match fuel, l with
  | S f, _ :: _ :: _ => cred_rounds f (cred_level l)
  | _, _ => l
  end.
Definition cred_root (leaves : list (arr 32)) : arr 32 :=
  match cred_rounds (length leaves) leaves with
  | r :: _ => r
  | [] => digest_domain CREDENTIAL_MERKLE_DOMAIN (as_bytes "empty")
  end.
Definition cred_sibling (idx len : nat) : nat :=
  if Nat.even idx then (if idx + 1 <? len then idx + 1 else idx) else idx - 1.
Fixpoint cred_path_from (fuel idx : nat) (level : list (arr 32)) : list (arr 32) :=
  match fuel, level with
  | S f, _ :: _ :: _ =>
      option_list (level !! cred_sibling idx (length level)) ++ cred_path_from f (idx / 2) (cred_level level)
  | _, _ => []
  end.

Inductive CredentialError :=
| CeEmptyLeaves | CeIndex (index len : nat)
| CeRevoked | CeExpired (at_ now : N) | CeFuture (created now : N) | CeNonce | CeNotSubset | CeGrantId
| CeNoMode | CeProve | CeEncode
| CeSchema (got : N) | CeHex (e : HexError) | CeFlags (flags : N) | CeDecode | CeVerify
| CeLeaf | CePath | CeSetup.

Definition cred_path (leaves : list (arr 32)) (index : nat) : result CredentialError (list (arr 32)) :=
  _ ← throw_if (length leaves =? 0) CeEmptyLeaves;
  _ ← throw_if (length leaves <=? index) (CeIndex index (length leaves));
  mret (cred_path_from (length leaves) index leaves).
Fixpoint cred_climb (cur : arr 32) (path : list (arr 32)) (index : N) : arr 32 :=
  match path with
  | [] => cur
  | sibling :: path' =>
      cred_climb (if N.even index then merkle_parent cur sibling else merkle_parent sibling cur) path' (index / 2)
  end.
Definition verify_merkle_membership (leaf : arr 32) (path : list (arr 32)) (index : N) (root : arr 32) : bool :=
  bool_decide (cred_climb leaf path index = root).

(** ** Proofs *)

Definition validate_grant_for_proof (grant : AccessGrant) (requested : GrantPermissions) (now : N)
  : result CredentialError () :=
  _ ← throw_if (g_revoked grant) CeRevoked;
  _ ← match g_expires_at grant with
      | Some exp => throw_if (exp <=? now)%N (CeExpired exp now)
      | None => mret ()
      end;
  _ ← throw_if (now <? g_created_at grant)%N (CeFuture (g_created_at grant) now);
  _ ← throw_if (g_nonce grant =? 0)%N CeNonce;
  _ ← throw_if (negb (permissions_subset requested (permissions grant))) CeNotSubset;
  throw_if (negb (bool_decide (grant_id grant =
    compute_id (grantor_puf grant) (grantee_puf grant) (key_pattern grant) (g_created_at grant) (g_nonce grant))))
    CeGrantId.
End merkle.

Record CredentialProofBundle := {
  proof_hex : string;
  grantee_did_hash : string;
  key_pattern_hash : string;
  cp_permission_flags : N;
  cp_current_time : N;
  cp_schema_version : N
}.
Record AnonymousMembershipWitness := {
  aw_leaf_did_hash : string;
  aw_merkle_path : list string;
  aw_merkle_index : N;
  aw_merkle_root_hash : string
}.
Record AnonymousCredentialProofBundle := {
  credential_proof : CredentialProofBundle;
  ab_merkle_root_hash : string;
  membership_commitment_hash : string;
  ab_leaf_did_hash : string;
  ab_merkle_path : list string;
  ab_merkle_index : N;
  ab_schema_version : N
}.

Section credential.
Context `{SHA : Sha2, F : ArkField, G : !ArkGroth16}.

Definition credential_setup_seed : arr 32 := digest_domain CREDENTIAL_SETUP_DOMAIN (as_bytes "credential-setup").
Definition setup_credential_circuit : result CredentialError (ProvingKey * VerifyingKey) :=
  ok_or (circuit_specific_setup (credential_constraints credential_blank) credential_setup_seed) CeSetup.

Definition did_hash (did : string) : arr 32 := digest_domain CREDENTIAL_DID_HASH_DOMAIN (as_bytes did).
Definition key_hash (pattern : string) : arr 32 := digest_domain CREDENTIAL_KEY_HASH_DOMAIN (as_bytes pattern).

(** The circuit of a grant and a request. *)
Definition credential_circuit (grant : AccessGrant) (grantee_hash key_hash : arr 32) (requested : GrantPermissions)
    (now : N) : CredentialCircuit :=
  let grantee := split_hash grantee_hash in
  let key := split_hash key_hash in
  let grantor := split_hash (digest_domain CREDENTIAL_DID_HASH_DOMAIN (arr_bytes (grantor_puf grant))) in
  let id := split_hash (grant_id grant) in
  let granted := permissions grant in
  {| grantee_did_lo_public := Some (fr_from grantee.1); grantee_did_hi_public := Some (fr_from grantee.2);
     key_pattern_lo_public := Some (fr_from key.1); key_pattern_hi_public := Some (fr_from key.2);
     req_read_public := Some (bit_fr (p_read requested)); req_write_public := Some (bit_fr (p_write requested));
     req_append_public := Some (bit_fr (p_append requested)); req_control_public := Some (bit_fr (p_control requested));
     current_time_public := Some (fr_from now);
     grantee_did_lo_witness := Some (fr_from grantee.1); grantee_did_hi_witness := Some (fr_from grantee.2);
     key_pattern_lo_witness := Some (fr_from key.1); key_pattern_hi_witness := Some (fr_from key.2);
     grant_read_witness := Some (bit_fr (p_read granted)); grant_write_witness := Some (bit_fr (p_write granted));
     grant_append_witness := Some (bit_fr (p_append granted)); grant_control_witness := Some (bit_fr (p_control granted));
     revoked_witness := Some (bit_fr (g_revoked grant));
     expires_at_witness := Some (fr_from (default 0%N (g_expires_at grant)));
     created_at_witness := Some (fr_from (g_created_at grant));
     nonce_witness := Some (fr_from (g_nonce grant));
     grant_id_lo_witness := Some (fr_from id.1); grant_id_hi_witness := Some (fr_from id.2);
     grantor_hash_lo_witness := Some (fr_from grantor.1); grantor_hash_hi_witness := Some (fr_from grantor.2) |}.

Definition prove_credential (pk : ProvingKey) (grant : AccessGrant) (grantee_did : string)
    (requested : GrantPermissions) (now : N) : result CredentialError CredentialProofBundle :=
  _ ← validate_grant_for_proof grant requested now;
  let requested_flags := permission_flags requested in
  _ ← throw_if (requested_flags =? 0)%N CeNoMode;
  let grantee_hash := did_hash grantee_did in
  let key_hash := key_hash (key_pattern grant) in
  let circuit := credential_circuit grant grantee_hash key_hash requested now in
  let prove_seed := digest_domain CREDENTIAL_PROVE_DOMAIN
    (arr_bytes (grant_id grant) ++ arr_bytes grantee_hash ++ arr_bytes key_hash ++
     le_bytes 1 requested_flags ++ le_bytes 8 now) in
  proof ← ok_or (groth16_prove pk (credential_constraints circuit) prove_seed) CeProve;
  proof_raw ← ok_or (proof_serialize proof) CeEncode;
  mret {| proof_hex := hex_encode proof_raw; grantee_did_hash := hex_encode (arr_bytes grantee_hash);
          key_pattern_hash := hex_encode (arr_bytes key_hash); cp_permission_flags := requested_flags;
          cp_current_time := now; cp_schema_version := CREDENTIAL_SCHEMA_VERSION |}.

Definition verify_credential_proof (vk : VerifyingKey) (bundle : CredentialProofBundle)
  : result CredentialError bool :=
  _ ← throw_if (negb (cp_schema_version bundle =? CREDENTIAL_SCHEMA_VERSION)%N) (CeSchema (cp_schema_version bundle));
  grantee_hash ← map_err CeHex (hex_decode_32 (grantee_did_hash bundle));
  key_hash ← map_err CeHex (hex_decode_32 (key_pattern_hash bundle));
  let grantee := split_hash grantee_hash in
  let key := split_hash key_hash in
  requested ← ok_or (flags_to_permissions (cp_permission_flags bundle)) (CeFlags (cp_permission_flags bundle));
  let public_inputs :=
    [fr_from grantee.1; fr_from grantee.2; fr_from key.1; fr_from key.2; bit_fr (p_read requested);
     bit_fr (p_write requested); bit_fr (p_append requested); bit_fr (p_control requested);
     fr_from (cp_current_time bundle)] in
  proof_raw ← map_err CeHex (hex_decode_any (proof_hex bundle));
  proof ← ok_or (proof_deserialize proof_raw) CeDecode;
  ok_or (groth16_verify vk public_inputs proof) CeVerify.

(** ** Anonymous membership *)

Definition membership_commitment_hex (did_hash root : arr 32) (merkle_index : N) (path : list (arr 32)) : string :=
  hex_encode (arr_bytes (digest_domain CREDENTIAL_MEMBERSHIP_DOMAIN
    (arr_bytes did_hash ++ arr_bytes root ++ le_bytes 8 merkle_index ++ (path ≫= arr_bytes)))).
Fixpoint decode_path (path : list string) : result CredentialError (list (arr 32)) :=
  match path with
  | [] => mret []
  | h :: path' => x ← map_err CeHex (hex_decode_32 h); xs ← decode_path path'; mret (x :: xs)
  end.

Definition prove_anonymous_membership (pk : ProvingKey) (grant : AccessGrant) (grantee_did : string)
    (requested : GrantPermissions) (now : N) (witness : AnonymousMembershipWitness)
  : result CredentialError AnonymousCredentialProofBundle :=
  let did_hash := did_hash grantee_did in
  let did_hash_hex := hex_encode (arr_bytes did_hash) in
  _ ← throw_if (negb (bool_decide (aw_leaf_did_hash witness = did_hash_hex))) CeLeaf;
  root ← map_err CeHex (hex_decode_32 (aw_merkle_root_hash witness));
  path ← decode_path (aw_merkle_path witness);
  _ ← throw_if (negb (verify_merkle_membership did_hash path (aw_merkle_index witness) root)) CePath;
  proof ← prove_credential pk grant grantee_did requested now;
  mret {| credential_proof := proof; ab_merkle_root_hash := aw_merkle_root_hash witness;
          membership_commitment_hash := membership_commitment_hex did_hash root (aw_merkle_index witness) path;
          ab_leaf_did_hash := did_hash_hex; ab_merkle_path := aw_merkle_path witness;
          ab_merkle_index := aw_merkle_index witness; ab_schema_version := CREDENTIAL_SCHEMA_VERSION |}.

Definition verify_anonymous_membership_proof (vk : VerifyingKey) (bundle : AnonymousCredentialProofBundle)
  : result CredentialError bool :=
  _ ← throw_if (negb (ab_schema_version bundle =? CREDENTIAL_SCHEMA_VERSION)%N) (CeSchema (ab_schema_version bundle));
  root ← map_err CeHex (hex_decode_32 (ab_merkle_root_hash bundle));
  membership_commitment ← map_err CeHex (hex_decode_32 (membership_commitment_hash bundle));
  leaf ← map_err CeHex (hex_decode_32 (ab_leaf_did_hash bundle));
  if negb (bool_decide (grantee_did_hash (credential_proof bundle) = ab_leaf_did_hash bundle)) then mret false
  else
    path ← decode_path (ab_merkle_path bundle);
    if negb (verify_merkle_membership leaf path (ab_merkle_index bundle) root) then mret false
    else
      recomputed ← map_err CeHex (hex_decode_32 (membership_commitment_hex leaf root (ab_merkle_index bundle) path));
      if negb (bool_decide (recomputed = membership_commitment)) then mret false
      else verify_credential_proof vk (credential_proof bundle).
End credential.
