(* ===== verification/CredentialSpec.v ===== *)
(** * Properties of the zero-knowledge credentials of [Credential.v]

    What the circuit accepts, exactly; that proofs of valid grants are accepted, and that
    nobody has to grant anything for one; Merkle paths of anonymous members. *)
From S2P Require Import Credential PairTree Instances ZkEx.

Section circuit.
Context `{F : ArkField, !ArkField_Laws F}.
Add Ring FrRing2 : fr_ring.

(** The constraints do not depend on the values. *)
Definition credential_system : ConstraintSystem :=
  match synthesize true (credential_constraints credential_blank) with Ok cs => cs | Err _ => cs_new true end.
Definition credential_rules : list Constraint := constraints credential_system.
Lemma credential_setup c : synthesize true (credential_constraints c) = Ok credential_system.
Proof using Type. vm_compute. reflexivity. Qed.

(** The values of the public inputs and of the witness of a grant. *)
Record PublicInputs := {
  x_did_lo : FrB; x_did_hi : FrB; x_key_lo : FrB; x_key_hi : FrB;
  x_read : FrB; x_write : FrB; x_append : FrB; x_control : FrB; x_time : FrB
}.
Record GrantWitness := {
  w_did_lo : FrB; w_did_hi : FrB; w_key_lo : FrB; w_key_hi : FrB;
  w_read : FrB; w_write : FrB; w_append : FrB; w_control : FrB; w_revoked : FrB;
  w_expires : FrB; w_created : FrB; w_nonce : FrB;
  w_id_lo : FrB; w_id_hi : FrB; w_grantor_lo : FrB; w_grantor_hi : FrB
}.
(** The variables that the circuit computes. *)
Record Auxiliary := {
  a_nonce_inv : FrB; a_created_delta : FrB; a_has_expiry : FrB; a_expiry_delta : FrB;
  a_id_inv : FrB; a_grantor_inv : FrB
}.
Definition instance_of (x : PublicInputs) : list FrB :=
  [fr_one; x_did_lo x; x_did_hi x; x_key_lo x; x_key_hi x; x_read x; x_write x; x_append x; x_control x; x_time x].
Definition witness_of (w : GrantWitness) (a : Auxiliary) : list FrB :=
  [w_did_lo w; w_did_hi w; w_key_lo w; w_key_hi w; w_read w; w_write w; w_append w; w_control w; w_revoked w;
   w_expires w; w_created w; w_nonce w; w_id_lo w; w_id_hi w; w_grantor_lo w; w_grantor_hi w;
   a_nonce_inv a; a_created_delta a; a_has_expiry a; a_expiry_delta a; a_id_inv a; a_grantor_inv a].
Definition circuit_holds (x : PublicInputs) (w : GrantWitness) (a : Auxiliary) : Prop :=
  Forall (holds (instance_of x) (witness_of w a)) credential_rules.

(** The shapes of the constraints. *)
Definition is_bit (v : FrB) : Prop := v = fr_zero ∨ v = fr_one.
Lemma equal_shape x y :
  ((fr_one * x + (- fr_one * y + fr_zero)) * (fr_one * fr_one + fr_zero))%fr = fr_zero ↔ x = y.
Proof using All.
  rewrite <-(fr_sub_zero x y). split; intros E; [rewrite <-E|transitivity (x - y)%fr; [|done]]; ring.
Qed.
Lemma boolean_shape v :
  ((fr_one * v + fr_zero) * (fr_one * v + (- fr_one * fr_one + fr_zero)))%fr = fr_zero ↔ is_bit v.
Proof using All.
  split; [|intros [-> | ->]; ring]. intros E. destruct (decide (v = fr_zero)) as [|Hv]; [by left|right].
  apply fr_sub_zero, (fr_mul_zero v); [|done]. rewrite <-E. ring.
Qed.
Lemma subset_shape r g :
  ((fr_one * r + fr_zero) * (fr_one * fr_one + (- fr_one * g + fr_zero)))%fr = fr_zero ↔ r = fr_zero ∨ g = fr_one.
Proof using All.
  split; [|intros [-> | ->]; ring]. intros E. destruct (decide (r = fr_zero)) as [|Hr]; [by left|right].
  symmetry. apply fr_sub_zero, (fr_mul_zero r); [|done]. rewrite <-E. ring.
Qed.
Lemma zero_shape v : ((fr_one * v + fr_zero) * (fr_one * fr_one + fr_zero))%fr = fr_zero ↔ v = fr_zero.
Proof using All. split; [intros E; rewrite <-E|intros ->]; ring. Qed.
Lemma inverse_shape v i :
  ((fr_one * v + fr_zero) * (fr_one * i + fr_zero))%fr = (fr_one * fr_one + fr_zero)%fr ↔ (v * i)%fr = fr_one.
Proof using All. split; intros E; [transitivity (fr_one * fr_one + fr_zero)%fr; [rewrite <-E|]|transitivity (v * i)%fr; [|rewrite E]]; ring. Qed.
Lemma mix_shape lo hi i :
  ((fr_one * lo + (fr_one * hi + (fr_one * fr_one + fr_zero))) * (fr_one * i + fr_zero))%fr
    = (fr_one * fr_one + fr_zero)%fr ↔ ((lo + hi + fr_one) * i)%fr = fr_one.
Proof using All.
  split; intros E; [transitivity (fr_one * fr_one + fr_zero)%fr; [rewrite <-E|]
                   |transitivity ((lo + hi + fr_one) * i)%fr; [|rewrite E]]; ring.
Qed.
Lemma created_shape t c d :
  ((fr_one * t + (- fr_one * c + (- fr_one * d + fr_zero))) * (fr_one * fr_one + fr_zero))%fr = fr_zero ↔
  d = (t - c)%fr.
Proof using All.
  split; [intros E|intros ->; ring]. symmetry. apply fr_sub_zero. rewrite <-E. ring.
Qed.
Lemma expiry_shape e t d h :
  ((fr_one * e + (- fr_one * t + (- fr_one * d + (- fr_one * fr_one + fr_zero)))) * (fr_one * h + fr_zero))%fr = fr_zero ↔
  ((e - t - d - fr_one) * h)%fr = fr_zero.
Proof using All. match goal with |- ?a = _ ↔ ?b = _ => replace a with b by ring end. done. Qed.

(** The constraints, simplified. *)
Lemma circuit_equations x w a :
  circuit_holds x w a ↔
  (x_did_lo x = w_did_lo w ∧ x_did_hi x = w_did_hi w ∧ x_key_lo x = w_key_lo w ∧ x_key_hi x = w_key_hi w) ∧
  (is_bit (x_read x) ∧ is_bit (x_write x) ∧ is_bit (x_append x) ∧ is_bit (x_control x)) ∧
  (is_bit (w_read w) ∧ is_bit (w_write w) ∧ is_bit (w_append w) ∧ is_bit (w_control w)) ∧
  ((x_read x = fr_zero ∨ w_read w = fr_one) ∧ (x_write x = fr_zero ∨ w_write w = fr_one) ∧
   (x_append x = fr_zero ∨ w_append w = fr_one) ∧ (x_control x = fr_zero ∨ w_control w = fr_one)) ∧
  w_revoked w = fr_zero ∧
  (w_nonce w * a_nonce_inv a)%fr = fr_one ∧
  a_created_delta a = (x_time x - w_created w)%fr ∧
  is_bit (a_has_expiry a) ∧ (w_expires w = fr_zero ∨ a_has_expiry a = fr_one) ∧
  ((w_expires w - x_time x - a_expiry_delta a - fr_one) * a_has_expiry a)%fr = fr_zero ∧
  ((w_id_lo w + w_id_hi w + fr_one) * a_id_inv a)%fr = fr_one ∧
  ((w_grantor_lo w + w_grantor_hi w + fr_one) * a_grantor_inv a)%fr = fr_one.
Proof using All.
  destruct x, w, a. unfold circuit_holds. rewrite Forall_fold_right.
  cbv -[FrB fr_one fr_add fr_mul fr_opp fr_zero fr_sub is_bit iff].
  rewrite !equal_shape, !boolean_shape, !subset_shape, zero_shape, inverse_shape, !mix_shape, created_shape, expiry_shape.
  split; intros; destruct_and!; split_and!; try assumption; [by left|done].
Qed.

(** The conditions a grant and a request have to meet in the circuit. *)
Definition circuit_admits (x : PublicInputs) (w : GrantWitness) : Prop :=
  (x_did_lo x = w_did_lo w ∧ x_did_hi x = w_did_hi w ∧ x_key_lo x = w_key_lo w ∧ x_key_hi x = w_key_hi w) ∧
  (is_bit (x_read x) ∧ is_bit (x_write x) ∧ is_bit (x_append x) ∧ is_bit (x_control x)) ∧
  (is_bit (w_read w) ∧ is_bit (w_write w) ∧ is_bit (w_append w) ∧ is_bit (w_control w)) ∧
  ((x_read x = fr_zero ∨ w_read w = fr_one) ∧ (x_write x = fr_zero ∨ w_write w = fr_one) ∧
   (x_append x = fr_zero ∨ w_append w = fr_one) ∧ (x_control x = fr_zero ∨ w_control w = fr_one)) ∧
  w_revoked w = fr_zero ∧ w_nonce w ≠ fr_zero ∧
  (w_id_lo w + w_id_hi w + fr_one)%fr ≠ fr_zero ∧ (w_grantor_lo w + w_grantor_hi w + fr_one)%fr ≠ fr_zero.

(** Claim C27. What the credential circuit accepts.  Values for the variables that the circuit
    adds exist exactly when the hashes of the grantee and the resource match, the permission
    bits are bits and the requested ones granted, the grant is not revoked, and its nonce, its identifier and the
    hash of its grantor are not the one excluded value.  Neither the time of the request nor
    the times of creation and expiry of the grant are constrained: a grant that has expired,
    or that is not created yet, is accepted at every time. *)
Theorem credential_circuit_accepts x w : (∃ a, circuit_holds x w a) ↔ circuit_admits x w.
Proof using All.
  unfold circuit_admits. split.
  - intros [a Ha]. apply circuit_equations in Ha as (H1 & H2 & H3 & H4 & H5 & H6 & _ & _ & _ & _ & H7 & H8).
    assert (∀ v i, (v * i)%fr = fr_one → v ≠ fr_zero) as Hne.
    { intros v i E ->. apply fr_one_ne. rewrite <-E. ring. }
    do 5 (split; [done|]). split; [by eapply Hne|]. split; by eapply Hne.
  - intros (H1 & H2 & H3 & H4 & H5 & H6 & H7 & H8).
    destruct (fr_inverse_some _ H6) as (i & _ & Hi), (fr_inverse_some _ H7) as (j & _ & Hj),
      (fr_inverse_some _ H8) as (k & _ & Hk).
    set (h := if decide (w_expires w = fr_zero) then fr_zero else fr_one).
    exists {| a_nonce_inv := i; a_created_delta := (x_time x - w_created w)%fr; a_has_expiry := h;
              a_expiry_delta := (w_expires w - x_time x - fr_one)%fr; a_id_inv := j; a_grantor_inv := k |}.
    apply circuit_equations. cbn. do 7 (split; [done|]).
    split; [unfold h; case_decide; [by left|by right]|].
    split; [unfold h; case_decide; [by left|by right]|]. split; [ring|done].
Qed.

(** *** Honest values *)

Lemma credential_synthesize x w a :
  let c := {|
    grantee_did_lo_public := Some (x_did_lo x); grantee_did_hi_public := Some (x_did_hi x);
    key_pattern_lo_public := Some (x_key_lo x); key_pattern_hi_public := Some (x_key_hi x);
    req_read_public := Some (x_read x); req_write_public := Some (x_write x);
    req_append_public := Some (x_append x); req_control_public := Some (x_control x);
    current_time_public := Some (x_time x);
    grantee_did_lo_witness := Some (w_did_lo w); grantee_did_hi_witness := Some (w_did_hi w);
    key_pattern_lo_witness := Some (w_key_lo w); key_pattern_hi_witness := Some (w_key_hi w);
    grant_read_witness := Some (w_read w); grant_write_witness := Some (w_write w);
    grant_append_witness := Some (w_append w); grant_control_witness := Some (w_control w);
    revoked_witness := Some (w_revoked w); expires_at_witness := Some (w_expires w);
    created_at_witness := Some (w_created w); nonce_witness := Some (w_nonce w);
    grant_id_lo_witness := Some (w_id_lo w); grant_id_hi_witness := Some (w_id_hi w);
    grantor_hash_lo_witness := Some (w_grantor_lo w); grantor_hash_hi_witness := Some (w_grantor_hi w) |} in
  inverse_of (assigned (nonce_witness c)) = Ok (a_nonce_inv a) →
  created_delta c = Ok (a_created_delta a) → has_expiry c = Ok (a_has_expiry a) →
  expiry_delta c = Ok (a_expiry_delta a) →
  inverse_of (mix_of (grant_id_lo_witness c) (grant_id_hi_witness c)) = Ok (a_id_inv a) →
  inverse_of (mix_of (grantor_hash_lo_witness c) (grantor_hash_hi_witness c)) = Ok (a_grantor_inv a) →
  synthesize false (credential_constraints c) =
    Ok (mk_CS false (instance_of x) (witness_of w a) 10 22 credential_rules).
Proof using Type.
  intros c H1 H2 H3 H4 H5 H6. unfold credential_constraints.
  rewrite H1, H2, H3, H4, H5, H6. vm_compute. reflexivity.
Qed.

Lemma credential_shape i w : same_shape credential_system (mk_CS false i w 10 22 credential_rules).
Proof using Type.
  split; [|split]; vm_compute; reflexivity.
Qed.

Lemma fr_from_sub a b : (b ≤ a)%N → fr_from (a - b) = (fr_from a - fr_from b)%fr.
Proof using All.
  intros Hba. replace (fr_from a) with (fr_from (b + (a - b))) by (f_equal; lia). rewrite fr_from_add. ring.
Qed.
Lemma fr_from_ne n : (0 < n < 2 ^ 200)%N → fr_from n ≠ fr_zero.
Proof using All.
  intros Hn E. rewrite <-fr_from_zero in E. apply fr_from_inj in E; [lia|lia|done].
Qed.
Lemma u64_of_from n : is_u64 n → u64_of (Some (fr_from n)) = Ok n.
Proof using All.
  unfold is_u64, u64_max. intros Hn. unfold u64_of, assigned, fr_to_u64. cbn [ok_or mbind result_bind].
  rewrite fr_from_small by lia. unfold u64_mod. by rewrite (proj2 (N.ltb_lt _ _)) by lia.
Qed.
Lemma inverse_of_ok v : v ≠ fr_zero → ∃ i, inverse_of (Ok v) = Ok i ∧ (v * i)%fr = fr_one.
Proof using All. intros Hv. destruct (fr_inverse_some v Hv) as (i & Hi & E). exists i. unfold inverse_of. cbn. by rewrite Hi. Qed.
Lemma mix_ne lo hi :
  (lo < 2 ^ 128)%N → (hi < 2 ^ 128)%N →
  mix_of (Some (fr_from lo)) (Some (fr_from hi)) = Ok (fr_from lo + fr_from hi + fr_one)%fr ∧
  (fr_from lo + fr_from hi + fr_one)%fr ≠ fr_zero.
Proof using All.
  intros Hlo Hhi. unfold mix_of, assigned. cbn. rewrite fr_from_one. split; [done|].
  rewrite <-fr_from_one, <-!fr_from_add. apply fr_from_ne. change (2 ^ 200)%N with (2 ^ 128 * 2 ^ 72)%N. nia.
Qed.
Lemma split_hash_bound h : ((split_hash h).1 < 2 ^ 128)%N ∧ ((split_hash h).2 < 2 ^ 128)%N.
Proof using Type.
  unfold split_hash. cbn [fst snd]. change (2 ^ 128)%N with (256 ^ N.of_nat 16)%N.
  pose proof (arr_length h) as Hl. split.
  - pose proof (of_le_bytes_bound (take 16 (arr_bytes h))) as Hb. by rewrite length_take, Hl in Hb.
  - pose proof (of_le_bytes_bound (drop 16 (arr_bytes h))) as Hb. by rewrite length_drop, Hl in Hb.
Qed.
Lemma bit_fr_is_bit b : is_bit (bit_fr b).
Proof using All. destruct b; [right; apply fr_from_one|left; apply fr_from_zero]. Qed.
Lemma bit_fr_subset r g : negb r || g = true → bit_fr r = fr_zero ∨ bit_fr g = fr_one.
Proof using All. destruct r, g; intros; try done; unfold bit_fr; rewrite ?fr_from_zero, ?fr_from_one; auto. Qed.

(** A grant with the widths of its fields. *)
Definition grant_u64 (g : AccessGrant) : Prop :=
  is_u64 (g_created_at g) ∧ is_u64 (g_nonce g) ∧ is_u64 (default 0%N (g_expires_at g)).

Definition public_of (gh kh : arr 32) (p : GrantPermissions) (now : N) : PublicInputs := {|
  x_did_lo := fr_from (split_hash gh).1; x_did_hi := fr_from (split_hash gh).2;
  x_key_lo := fr_from (split_hash kh).1; x_key_hi := fr_from (split_hash kh).2;
  x_read := bit_fr (p_read p); x_write := bit_fr (p_write p); x_append := bit_fr (p_append p);
  x_control := bit_fr (p_control p); x_time := fr_from now |}.

Context `{SHA : Sha2}.
Lemma validate_ok grant requested now :
  validate_grant_for_proof grant requested now = Ok () →
  g_revoked grant = false ∧ (g_expires_at grant = None ∨ ∃ e, g_expires_at grant = Some e ∧ (now < e)%N) ∧
  (g_created_at grant ≤ now)%N ∧ g_nonce grant ≠ 0%N ∧ permissions_subset requested (permissions grant) = true.
Proof using Type.
  unfold validate_grant_for_proof. intros Hv. inv_res.
  repeat match goal with Hx : negb _ = false |- _ => apply negb_false_iff in Hx end.
  split; [done|]. split.
  - destruct (g_expires_at grant) as [e|]; [right|by left]. exists e. inv_res. split; [done|]. by apply N.leb_gt.
  - split; [by apply N.ltb_ge|]. split; [by apply N.eqb_neq|done].
Qed.

(** The values of the further variables, for an expiry of 0 for none. *)
Lemma time_values c e now created :
  current_time_public c = Some (fr_from now) → expires_at_witness c = Some (fr_from e) →
  created_at_witness c = Some (fr_from created) → is_u64 now → is_u64 e → (created ≤ now)%N →
  e = 0%N ∨ (now < e)%N →
  created_delta c = Ok (fr_from now - fr_from created)%fr ∧
  ∃ h d, has_expiry c = Ok h ∧ expiry_delta c = Ok d ∧ is_bit h ∧ (fr_from e = fr_zero ∨ h = fr_one) ∧
    ((fr_from e - fr_from now - d - fr_one) * h)%fr = fr_zero.
Proof using All.
  intros Et Ee Ec Hnow He Hc Hexp. unfold created_delta, has_expiry, expiry_delta.
  rewrite Et, Ee, Ec, !u64_of_from by (unfold is_u64 in *; lia). cbn [mbind result_bind].
  rewrite (proj2 (N.ltb_ge _ _)) by done. split; [by rewrite <-fr_from_sub|].
  destruct (N.eqb_spec e 0) as [->|Hne]; do 2 eexists; (split; [reflexivity|]).
  - split; [reflexivity|]. rewrite fr_from_zero. split; [by left|]. split; [by left|]. ring.
  - rewrite (proj2 (N.leb_gt _ _)) by lia. split; [reflexivity|]. rewrite fr_from_one.
    split; [by right|]. split; [by right|].
    replace (e - now - 1)%N with (e - (now + 1))%N by lia. rewrite fr_from_sub by lia.
    rewrite fr_from_add, fr_from_one. ring.
Qed.

Lemma credential_satisfied grant gh kh requested now :
  validate_grant_for_proof grant requested now = Ok () → grant_u64 grant → is_u64 now →
  ∃ cs, synthesize false (credential_constraints (credential_circuit grant gh kh requested now)) = Ok cs ∧
    satisfied cs ∧ same_shape credential_system cs ∧
    instance_assignment cs = instance_of (public_of gh kh requested now).
Proof using All.
  intros Hv (Hc & Hn & He) Hnow. apply validate_ok in Hv as (Hr & Hexp & Hcr & Hnz & Hsub).
  set (grantor := digest_domain CREDENTIAL_DID_HASH_DOMAIN (arr_bytes (grantor_puf grant))).
  set (c := credential_circuit grant gh kh requested now).
  destruct (mix_ne _ _ (proj1 (split_hash_bound (grant_id grant))) (proj2 (split_hash_bound (grant_id grant))))
    as [Hm1 Hm1'].
  destruct (mix_ne _ _ (proj1 (split_hash_bound grantor)) (proj2 (split_hash_bound grantor))) as [Hm2 Hm2'].
  destruct (inverse_of_ok _ Hm1') as (i1 & Hi1 & Ei1). destruct (inverse_of_ok _ Hm2') as (i2 & Hi2 & Ei2).
  assert (fr_from (g_nonce grant) ≠ fr_zero) as Hnf by (apply fr_from_ne; unfold is_u64, u64_max in *; lia).
  destruct (inverse_of_ok _ Hnf) as (i0 & Hi0 & Ei0).
  destruct (time_values c (default 0%N (g_expires_at grant)) now (g_created_at grant)) as (Hd & h & d & Hh & Hx & Hb & He1 & He2);
    [done..| |].
  { destruct Hexp as [-> |(e & -> & Hlt)]; [by left|by right]. }
  set (w := {|
    w_did_lo := fr_from (split_hash gh).1; w_did_hi := fr_from (split_hash gh).2;
    w_key_lo := fr_from (split_hash kh).1; w_key_hi := fr_from (split_hash kh).2;
    w_read := bit_fr (p_read (permissions grant)); w_write := bit_fr (p_write (permissions grant));
    w_append := bit_fr (p_append (permissions grant)); w_control := bit_fr (p_control (permissions grant));
    w_revoked := bit_fr (g_revoked grant); w_expires := fr_from (default 0%N (g_expires_at grant));
    w_created := fr_from (g_created_at grant); w_nonce := fr_from (g_nonce grant);
    w_id_lo := fr_from (split_hash (grant_id grant)).1; w_id_hi := fr_from (split_hash (grant_id grant)).2;
    w_grantor_lo := fr_from (split_hash grantor).1; w_grantor_hi := fr_from (split_hash grantor).2 |}).
  set (a := {| a_nonce_inv := i0; a_created_delta := (fr_from now - fr_from (g_created_at grant))%fr;
               a_has_expiry := h; a_expiry_delta := d; a_id_inv := i1; a_grantor_inv := i2 |}).
  assert (circuit_holds (public_of gh kh requested now) w a) as Hsat.
  { apply circuit_equations. cbn. rewrite Hr.
    apply andb_true_iff in Hsub as [Hsub S4]. apply andb_true_iff in Hsub as [Hsub S3].
    apply andb_true_iff in Hsub as [S1 S2].
    split_and!; try done; try apply bit_fr_is_bit; try (by apply bit_fr_subset). apply fr_from_zero. }
  exists (mk_CS false (instance_of (public_of gh kh requested now)) (witness_of w a) 10 22 credential_rules).
  split; [|split; [exact Hsat|split; [by apply credential_shape|done]]].
  - apply (credential_synthesize (public_of gh kh requested now) w a Hi0 Hd Hh Hx); cbn [a_id_inv a_grantor_inv a].
    + rewrite <-Hi1. f_equal. exact Hm1.
    + rewrite <-Hi2. f_equal. exact Hm2.
Qed.
End circuit.

#[local] Opaque credential_system credential_constraints.

(** ** Hexadecimal text and flags *)

Lemma hex_decode_32_encode (h : arr 32) : hex_decode_32 (hex_encode (arr_bytes h)) = Ok h.
Proof.
  unfold hex_decode_32. rewrite strip_0x_hex. cbn [default]. rewrite length_hex_encode, arr_length. cbn [Nat.mul Nat.add Nat.eqb negb throw_if mbind result_bind].
  rewrite hex_decode_encode. cbn [mbind option_bind]. by rewrite try_arr_bytes.
Qed.
Lemma hex_decode_any_encode b : hex_decode_any (hex_encode b) = Ok b.
Proof.
  unfold hex_decode_any. rewrite strip_0x_hex. cbn [default]. rewrite length_hex_encode.
  replace (Nat.even _) with true by (symmetry; apply Nat.even_spec; by exists (length b)).
  cbn [negb throw_if mbind result_bind]. by rewrite hex_decode_encode.
Qed.
Lemma flags_roundtrip p : flags_to_permissions (permission_flags p) = Some p.
Proof. by destruct p as [[] [] [] []]. Qed.
Lemma decode_path_encode path : decode_path ((λ h, hex_encode (arr_bytes h)) <$> path) = Ok path.
Proof.
  induction path as [|h path IH]; [done|]. cbn [fmap list_fmap decode_path]. rewrite hex_decode_32_encode.
  cbn [map_err mbind result_bind]. by rewrite IH.
Qed.

(** ** Paths *)

Section paths.
Context `{Sha2}.

Lemma cred_level_length l : length (cred_level l) = (length l + 1) / 2.
Proof using Type.
  induction l as [|x|x y l IH] using pair_ind; [done..|]. cbn [cred_level length]. rewrite IH.
  replace (S (S (length l)) + 1) with (length l + 1 + 1 * 2) by lia. rewrite Nat.div_add by done. lia.
Qed.
Lemma cred_level_shorter x y l : length (cred_level (x :: y :: l)) ≤ S (length l).
Proof using Type.
  rewrite cred_level_length. cbn [length]. pose proof (Nat.Div0.mul_div_le (S (S (length l)) + 1) 2). lia.
Qed.

(** Where an element of a level goes. *)
Lemma cred_level_lookup i x l :
  l !! i = Some x →
  ∃ s, l !! cred_sibling i (length l) = Some s ∧
    cred_level l !! (i / 2) = Some (if Nat.even i then merkle_parent x s else merkle_parent s x).
Proof using Type.
  revert i. induction l as [|z|z y l IH] using pair_ind; intros i Hi; [done| |].
  - apply list_lookup_singleton_Some in Hi as [-> <-]. by exists z.
  - destruct i as [|[|i]]; [injection Hi as ->; by exists y|injection Hi as ->; by exists z|].
    destruct (IH i Hi) as (s & Hs & Hl). exists s. split.
    + unfold cred_sibling in *. change (Nat.even (S (S i))) with (Nat.even i). cbn [length].
      destruct (Nat.even i) eqn:Ev.
      * replace (S (S i) + 1 <? S (S (length l))) with (i + 1 <? length l)
          by (apply eq_true_iff_eq; rewrite !Nat.ltb_lt; lia).
        destruct (i + 1 <? length l); done.
      * destruct i as [|i]; [done|]. replace (S (S (S i)) - 1) with (S (S (S i - 1))) by lia. done.
    + change (S (S i)) with (2 + i). replace ((2 + i) / 2) with (S (i / 2)) by
        (replace (2 + i) with (i + 1 * 2) by lia; rewrite Nat.div_add by done; lia).
      cbn [cred_level]. rewrite lookup_cons. replace (Nat.even (2 + i)) with (Nat.even i) by done. done.
Qed.
Lemma even_of_nat i : N.even (N.of_nat i) = Nat.even i.
Proof using Type.
  apply eq_true_iff_eq. rewrite N.even_spec, Nat.even_spec. split; intros [k Hk].
  - exists (N.to_nat k). lia.
  - exists (N.of_nat k). lia.
Qed.

(** The path of any position climbs to the root. *)
Lemma cred_path_climbs fuel i x l :
  length l ≤ fuel → l !! i = Some x →
  cred_rounds fuel l = [cred_climb x (cred_path_from fuel i l) (N.of_nat i)].
Proof using Type.
  revert i x l. induction fuel as [|f IH]; intros i x [|y [|z l]] Hl Hi; cbn [cred_rounds cred_path_from];
    [done|simpl in Hl; lia..|done| |].
  - by apply list_lookup_singleton_Some in Hi as [-> <-].
  - destruct (cred_level_lookup _ _ _ Hi) as (s & Hs & Hn). rewrite Hs.
    change (option_list (Some s) ++ ?p) with (s :: p). cbn [cred_climb].
    rewrite even_of_nat. replace (N.of_nat i / 2)%N with (N.of_nat (i / 2)) by (rewrite Nat2N.inj_div; done).
    apply IH; [|by destruct (Nat.even i)]. pose proof (cred_level_shorter y z l). simpl in Hl. lia.
Qed.
Lemma cred_path_ok leaves i x :
  leaves !! i = Some x →
  ∃ path, cred_path leaves i = Ok path ∧ cred_climb x path (N.of_nat i) = cred_root leaves.
Proof using Type.
  intros Hi. exists (cred_path_from (length leaves) i leaves). apply lookup_lt_Some in Hi as Hlt. split.
  - unfold cred_path. rewrite (proj2 (Nat.eqb_neq _ _)) by lia. rewrite (proj2 (Nat.leb_gt _ _)) by lia. done.
  - unfold cred_root. by rewrite (cred_path_climbs _ i x) by done.
Qed.

(** The elements of a level are the leaves that a path of its height reaches. *)
Fixpoint cred_height (fuel : nat) (l : list (arr 32)) : nat :=
  match fuel, l with S f, _ :: _ :: _ => S (cred_height f (cred_level l)) | _, _ => 0 end.
(** The strings hashed for a node, by the levels of the tree, and by a climb. *)
Definition parent_string (a b : arr 32) : bytes :=
  as_bytes CREDENTIAL_MERKLE_DOMAIN ++ [x00] ++ arr_bytes a ++ arr_bytes b.
Fixpoint cred_level_strings (l : list (arr 32)) : list bytes :=
  match l with
  | [] => []
  | [x] => [parent_string x x]
  | x :: y :: l' => parent_string x y :: cred_level_strings l'
  end.
Fixpoint cred_strings (fuel : nat) (l : list (arr 32)) : list bytes :=
  match fuel, l with
  | S f, _ :: _ :: _ => cred_level_strings l ++ cred_strings f (cred_level l)
  | _, _ => []
  end.
Fixpoint climb_strings (cur : arr 32) (path : list (arr 32)) (index : N) : list bytes :=
  match path with
  | [] => []
  | s :: path' =>
      (if N.even index then parent_string cur s else parent_string s cur) ::
      climb_strings (if N.even index then merkle_parent cur s else merkle_parent s cur) path' (index / 2)
  end.

Lemma merkle_parent_inj a b c d :
  merkle_parent a b = merkle_parent c d → (a = c ∧ b = d) ∨ collides sha256 [parent_string a b; parent_string c d].
Proof using Type.
  intros E. change (sha256 (parent_string a b) = sha256 (parent_string c d)) in E.
  apply sha256_inj_or_collides in E as [E|]; [left|by right].
  apply app_inv_head, app_inv_head in E. apply app_inj_1 in E as [E1 E]; [|by rewrite !arr_length].
  split; by apply arr_eq.
Qed.
Lemma cred_level_string l y :
  y ∈ cred_level l → ∃ a b, y = merkle_parent a b ∧ a ∈ l ∧ b ∈ l ∧ parent_string a b ∈ cred_level_strings l.
Proof using Type.
  induction l as [|x|x z l IH] using pair_ind; cbn [cred_level cred_level_strings];
    rewrite ?elem_of_cons, ?elem_of_nil.
  - done.
  - intros [-> |[]]. exists x, x. rewrite !elem_of_cons. auto 6.
  - intros [-> |Hy]; [exists x, z; rewrite !elem_of_cons; auto 6|].
    destruct (IH Hy) as (a & b & -> & Ha & Hb & Hs). exists a, b. rewrite !elem_of_cons. auto 8.
Qed.

(** A path of the height of the tree starts at a leaf.  When [verify_merkle_membership]
    accepts a path as long as those of the tree, at any index, the member is among the leaves, or two
    of the strings hashed by the climb and for the tree have one hash; the code checks no length, and
    shorter paths accept inner nodes. *)
Theorem credential_path_sound leaves x path index :
  leaves ≠ [] → length path = cred_height (length leaves) leaves →
  verify_merkle_membership x path index (cred_root leaves) = true →
  x ∈ leaves ∨ collides sha256 (climb_strings x path index ++ cred_strings (length leaves) leaves).
Proof using Type.
  intros Hne Hl Hv. apply bool_decide_eq_true in Hv. unfold cred_root in Hv.
  assert (∀ fuel l r, length l ≤ fuel → l ≠ [] → length path = cred_height fuel l →
    head (cred_rounds fuel l) = Some r → cred_climb x path index = r →
    x ∈ l ∨ collides sha256 (climb_strings x path index ++ cred_strings fuel l)) as Hgen.
  { clear. revert x index. induction path as [|s path IH]; intros x index [|f] [|y [|z l]] r Hf Hne Hl Hr Hc;
      cbn in Hf, Hl; try done; try lia; cbn in Hr.
    - injection Hr as <-. cbn in Hc. subst. left. apply list_elem_of_here.
    - cbn [cred_climb] in Hc. injection Hl as Hl. pose proof (cred_level_shorter y z l).
      change (cred_strings (S f) (y :: z :: l)) with
        (cred_level_strings (y :: z :: l) ++ cred_strings f (cred_level (y :: z :: l))).
      cbn [climb_strings].
      apply (IH _ _ f (cred_level (y :: z :: l)) r) in Hc as [Hc|Hx]; [|right|lia|done|done|done].
      + destruct (cred_level_string _ _ Hc) as (a & b & E & Ha & Hb & Hs).
        destruct (N.even index); apply merkle_parent_inj in E as [[-> ->]|Hx]; auto; right;
          (eapply collides_pair; [| |exact Hx]; [left|apply elem_of_app; right; by apply elem_of_app; left]).
      + revert Hx. apply collides_mono. intros w. rewrite !elem_of_app, elem_of_cons. tauto. }
  destruct (cred_rounds (length leaves) leaves) as [|r rs] eqn:Er.
  - destruct leaves as [|y l]; [done|]. pose proof (cred_path_climbs (length (y :: l)) 0 y (y :: l)) as E.
    rewrite Er in E. by specialize (E (le_n _) eq_refl).
  - apply (Hgen (length leaves) leaves r); [done..| |done]. by rewrite Er.
Qed.
End paths.

(** ** Proofs *)

Section proofs.
Context `{SHA : Sha2, F : ArkField, G : !ArkGroth16, !ArkField_Laws F, !ArkGroth16_Laws G}.

(** The bundle of a proof for the two hashes. *)
Definition bundle_of (raw : bytes) (gh kh : arr 32) (requested : GrantPermissions) (now : N)
  : CredentialProofBundle := {|
  proof_hex := hex_encode raw; grantee_did_hash := hex_encode (arr_bytes gh);
  key_pattern_hash := hex_encode (arr_bytes kh); cp_permission_flags := permission_flags requested;
  cp_current_time := now; cp_schema_version := CREDENTIAL_SCHEMA_VERSION |}.

(** A valid grant proves any two hashes. *)
Lemma circuit_accepted pk vk grant gh kh requested now seed :
  setup_credential_circuit = Ok (pk, vk) → grant_u64 grant → is_u64 now →
  validate_grant_for_proof grant requested now = Ok () →
  ∃ p raw, groth16_prove pk (credential_constraints (credential_circuit grant gh kh requested now)) seed = Some p ∧
    proof_serialize p = Some raw ∧ verify_credential_proof vk (bundle_of raw gh kh requested now) = Ok true.
Proof using All.
  intros Hs Hg Hnow Hv. unfold setup_credential_circuit, circuit_specific_setup in Hs.
  rewrite credential_setup in Hs. apply ok_or_ok in Hs.
  destruct (credential_satisfied grant gh kh requested now Hv Hg Hnow) as (cs & Hcs & Hsat & Hshape & Hinst).
  unfold groth16_prove. rewrite Hcs.
  destruct (groth16_complete _ _ _ _ _ seed Hs Hshape ltac:(by rewrite Hinst) Hsat) as (p & Hp & Hver).
  destruct (groth16_proof_bytes p) as (raw & Hraw & Hde). exists p, raw. do 2 (split; [done|]).
  unfold verify_credential_proof, bundle_of. cbn [cp_schema_version grantee_did_hash key_pattern_hash
    cp_permission_flags cp_current_time proof_hex].
  cbn [N.eqb CREDENTIAL_SCHEMA_VERSION Pos.eqb negb throw_if mbind result_bind].
  rewrite !hex_decode_32_encode. cbn [map_err mbind result_bind]. rewrite flags_roundtrip.
  cbn [ok_or mbind result_bind]. rewrite hex_decode_any_encode. cbn [map_err mbind result_bind]. rewrite Hde.
  cbn [ok_or mbind result_bind]. rewrite Hinst in Hver. unfold instance_of, public_of in Hver. cbn [tail] in Hver.
  cbn [x_did_lo x_did_hi x_key_lo x_key_hi x_read x_write x_append x_control x_time] in Hver. by rewrite Hver.
Qed.

Lemma prove_verify pk vk grant grantee requested now :
  setup_credential_circuit = Ok (pk, vk) → grant_u64 grant → is_u64 now →
  validate_grant_for_proof grant requested now = Ok () → permission_flags requested ≠ 0%N →
  ∃ raw, let b := bundle_of raw (did_hash grantee) (key_hash (key_pattern grant)) requested now in
    prove_credential pk grant grantee requested now = Ok b ∧ verify_credential_proof vk b = Ok true.
Proof using All.
  intros Hs Hg Hnow Hv Hf. unfold prove_credential. cbv zeta.
  match goal with |- context [groth16_prove _ _ ?seed] =>
    destruct (circuit_accepted pk vk grant (did_hash grantee) (key_hash (key_pattern grant)) requested now seed
                Hs Hg Hnow Hv) as (p & raw & Hp & Hraw & Hver) end.
  exists raw. split; [|done]. rewrite Hp, Hv, (proj2 (N.eqb_neq _ _)) by done. cbn [throw_if ok_or mbind result_bind].
  by rewrite Hraw.
Qed.

(** Claim C28. Proving a credential is complete.  With the keys of the set-up, a grant that
    passes the checks and a request for at least one mode give a proof, which is
    accepted and names the hashes of the grantee and of the resource pattern, the requested modes and the
    time; otherwise proving fails with the error of the check that fails. *)
Theorem credential_complete pk vk grant grantee requested now :
  setup_credential_circuit = Ok (pk, vk) → grant_u64 grant → is_u64 now →
  match validate_grant_for_proof grant requested now with
  | Err e => prove_credential pk grant grantee requested now = Err e
  | Ok _ =>
      if (permission_flags requested =? 0)%N then prove_credential pk grant grantee requested now = Err CeNoMode
      else ∃ raw, let b := bundle_of raw (did_hash grantee) (key_hash (key_pattern grant)) requested now in
        prove_credential pk grant grantee requested now = Ok b ∧ verify_credential_proof vk b = Ok true
  end.
Proof using All.
  intros Hs Hg Hnow. destruct (validate_grant_for_proof grant requested now) as [[]|e] eqn:Hv.
  - destruct (N.eqb_spec (permission_flags requested) 0) as [E|Hf]; [|by apply prove_verify].
    unfold prove_credential. rewrite Hv, E. done.
  - unfold prove_credential. by rewrite Hv.
Qed.

(** A grant that nobody has given. *)
Definition made_up (grantor : arr 32) (pattern : string) (perms : GrantPermissions) : AccessGrant := {|
  grant_id := compute_id grantor grantor pattern 0 1; grantor_puf := grantor; grantee_puf := grantor;
  key_pattern := pattern; permissions := perms; g_expires_at := None; g_created_at := 0; g_nonce := 1;
  g_revoked := false |}.

Lemma made_up_valid grantor pattern perms now :
  validate_grant_for_proof (made_up grantor pattern perms) perms now = Ok ().
Proof using Type.
  unfold validate_grant_for_proof, made_up. cbn [g_revoked g_expires_at g_created_at g_nonce permissions grant_id
    grantor_puf grantee_puf key_pattern throw_if mbind result_bind N.eqb].
  replace (now <? 0)%N with false by (symmetry; apply N.ltb_ge; lia). cbn [throw_if mbind result_bind].
  replace (permissions_subset perms perms) with true by (by destruct perms as [[] [] [] []]).
  cbn [negb throw_if mbind result_bind]. by rewrite bool_decide_eq_true_2.
Qed.
Lemma made_up_u64 grantor pattern perms : grant_u64 (made_up grantor pattern perms).
Proof using Type. by vm_compute. Qed.

(** A credential shows no grant.  For every grantor, grantee, resource pattern, non-empty
    set of modes and time, a grant made up from public values, without any secret or any act of
    the grantor, gives a proof that is accepted for that grantee, pattern, modes and time. *)
Theorem credential_needs_no_grantor pk vk grantor grantee pattern requested now :
  setup_credential_circuit = Ok (pk, vk) → is_u64 now → permission_flags requested ≠ 0%N →
  ∃ raw, let b := bundle_of raw (did_hash grantee) (key_hash pattern) requested now in
    prove_credential pk (made_up grantor pattern requested) grantee requested now = Ok b ∧
    verify_credential_proof vk b = Ok true.
Proof using All.
  intros Hs Hnow Hf. apply (prove_verify pk vk (made_up grantor pattern requested));
    [done|apply made_up_u64|done|apply made_up_valid|done].
Qed.

(** ** Members *)

Definition path_texts (path : list (arr 32)) : list string := (λ h, hex_encode (arr_bytes h)) <$> path.
Definition anonymous_of (b : CredentialProofBundle) (leaf root : arr 32) (path : list (arr 32)) (index : N)
  : AnonymousCredentialProofBundle := {|
  credential_proof := b; ab_merkle_root_hash := hex_encode (arr_bytes root);
  membership_commitment_hash := membership_commitment_hex leaf root index path;
  ab_leaf_did_hash := hex_encode (arr_bytes leaf); ab_merkle_path := path_texts path; ab_merkle_index := index;
  ab_schema_version := CREDENTIAL_SCHEMA_VERSION |}.
Lemma anonymous_accepted vk b leaf root path index :
  grantee_did_hash b = hex_encode (arr_bytes leaf) → cred_climb leaf path index = root →
  verify_anonymous_membership_proof vk (anonymous_of b leaf root path index) = verify_credential_proof vk b.
Proof using All.
  intros Hb Hp. unfold verify_anonymous_membership_proof, anonymous_of. cbn [ab_schema_version ab_merkle_root_hash
    membership_commitment_hash ab_leaf_did_hash credential_proof ab_merkle_path ab_merkle_index].
  cbn [N.eqb CREDENTIAL_SCHEMA_VERSION Pos.eqb negb throw_if mbind result_bind].
  unfold membership_commitment_hex. rewrite !hex_decode_32_encode. cbn [map_err mbind result_bind].
  rewrite bool_decide_eq_true_2 by done. cbn [negb]. unfold path_texts. rewrite decode_path_encode.
  cbn [mbind result_bind]. unfold verify_merkle_membership. rewrite bool_decide_eq_true_2 by done. cbn [negb].
  rewrite hex_decode_32_encode. cbn [map_err mbind result_bind]. by rewrite bool_decide_eq_true_2.
Qed.

(** Anonymous membership is complete.  Whoever's DID hash is among the leaves gets a path, and with a
    grant that passes the checks a bundle under the root of the leaves, which is accepted. *)
Theorem anonymous_member_complete pk vk leaves i grant grantee requested now :
  setup_credential_circuit = Ok (pk, vk) → grant_u64 grant → is_u64 now →
  validate_grant_for_proof grant requested now = Ok () → permission_flags requested ≠ 0%N →
  leaves !! i = Some (did_hash grantee) →
  ∃ path b, cred_path leaves i = Ok path ∧
    prove_anonymous_membership pk grant grantee requested now {|
      aw_leaf_did_hash := hex_encode (arr_bytes (did_hash grantee)); aw_merkle_path := path_texts path;
      aw_merkle_index := N.of_nat i; aw_merkle_root_hash := hex_encode (arr_bytes (cred_root leaves)) |} = Ok b ∧
    ab_merkle_root_hash b = hex_encode (arr_bytes (cred_root leaves)) ∧
    verify_anonymous_membership_proof vk b = Ok true.
Proof using All.
  intros Hs Hg Hnow Hv Hf Hi. destruct (cred_path_ok leaves i _ Hi) as (path & Hpath & Hclimb).
  destruct (prove_verify pk vk grant grantee requested now Hs Hg Hnow Hv Hf) as (raw & Hp & Hver). cbv zeta in Hp, Hver.
  exists path. eexists. split; [done|]. unfold prove_anonymous_membership.
  cbn [aw_leaf_did_hash aw_merkle_path aw_merkle_index aw_merkle_root_hash].
  rewrite bool_decide_eq_true_2 by done. cbn [negb throw_if mbind result_bind].
  rewrite hex_decode_32_encode. cbn [map_err mbind result_bind]. unfold path_texts at 1. rewrite decode_path_encode.
  cbn [mbind result_bind]. unfold verify_merkle_membership. rewrite bool_decide_eq_true_2 by done.
  cbn [negb throw_if mbind result_bind]. rewrite Hp. cbn [mbind result_bind].
  split; [reflexivity|]. split; [done|].
  rewrite <-Hver.
  exact (anonymous_accepted vk (bundle_of raw (did_hash grantee) (key_hash (key_pattern grant)) requested now)
           (did_hash grantee) (cred_root leaves) path (N.of_nat i) eq_refl Hclimb).
Qed.

(** An anonymous member need not be one.  For every root, the root itself with an
    empty path and a proof from a made-up grant is accepted as an anonymous member with any modes at any
    time: neither the length of the path is checked, nor that a DID hashes to the leaf. *)
Theorem anonymous_root_member pk vk root pattern requested now :
  setup_credential_circuit = Ok (pk, vk) → is_u64 now →
  ∃ raw, verify_anonymous_membership_proof vk
    (anonymous_of (bundle_of raw root (key_hash pattern) requested now) root root [] 0) = Ok true.
Proof using All.
  intros Hs Hnow.
  destruct (circuit_accepted pk vk (made_up root pattern requested) root (key_hash pattern) requested now root Hs
              (made_up_u64 _ _ _) Hnow (made_up_valid _ _ _ _)) as (p & raw & _ & _ & Hver).
  exists raw. by rewrite anonymous_accepted.
Qed.
End proofs.

(** ** Examples *)

#[local] Existing Instance prefix_sha.
Lemma ex_credential_keys : setup_credential_circuit (G:=q_groth16) = Ok (tt, credential_rules).
Proof. unfold setup_credential_circuit, circuit_specific_setup. rewrite credential_setup. reflexivity. Qed.
Definition ex_grantor : arr 32 := to_arr 32 [x01; x02].
Definition ex_read : GrantPermissions := perms_read_only.
Definition ex_grant : AccessGrant := made_up ex_grantor "results/*" perms_read_write.

(** Asked at the time 1000 with a grant that has expired at 5 and is created at 2000. *)
Definition ex_public : PublicInputs := public_of ex_grantor ex_grantor ex_read 1000.
Definition ex_witness : GrantWitness := {|
  w_did_lo := x_did_lo ex_public; w_did_hi := x_did_hi ex_public;
  w_key_lo := x_key_lo ex_public; w_key_hi := x_key_hi ex_public;
  w_read := fr_one; w_write := fr_zero; w_append := fr_zero; w_control := fr_zero; w_revoked := fr_zero;
  w_expires := fr_from 5; w_created := fr_from 2000; w_nonce := fr_one;
  w_id_lo := fr_zero; w_id_hi := fr_zero; w_grantor_lo := fr_zero; w_grantor_hi := fr_zero |}.
Lemma credential_circuit_accepts_witness : ∃ a, circuit_holds ex_public ex_witness a.
Proof.
  apply (proj2 (credential_circuit_accepts ex_public ex_witness)).
  assert (∀ b, is_bit (bit_fr b)) as Hb by apply bit_fr_is_bit.
  unfold circuit_admits. cbn [w_did_lo w_did_hi w_key_lo w_key_hi w_read w_write w_append w_control w_revoked w_nonce
    w_id_lo w_id_hi w_grantor_lo w_grantor_hi ex_witness].
  split_and!; try reflexivity; try apply Hb; try (by left); try (by right).
  - by vm_compute.
  - by vm_compute.
  - by vm_compute.
Defined.

Lemma ex_valid : validate_grant_for_proof ex_grant ex_read 1000 = Ok ().
Proof. by vm_compute. Qed.
Lemma credential_complete_witness :
  ∃ raw, verify_credential_proof (G:=q_groth16) credential_rules
    (bundle_of raw (did_hash "did:key:bob") (key_hash "results/*") ex_read 1000) = Ok true.
Proof.
  pose proof (credential_complete _ _ ex_grant "did:key:bob" ex_read 1000 ex_credential_keys
                (made_up_u64 _ _ _) ltac:(by vm_compute)) as H.
  rewrite ex_valid in H. cbn [permission_flags ex_read perms_read_only p_read p_write p_append p_control] in H.
  destruct H as (raw & _ & H). exists raw. exact H.
Defined.
Lemma credential_needs_no_grantor_witness :
  ∃ raw, verify_credential_proof (G:=q_groth16) credential_rules
    (bundle_of raw (did_hash "did:key:mallory") (key_hash "secret/*") perms_owner 1000) = Ok true.
Proof.
  destruct (credential_needs_no_grantor _ _ ex_grantor "did:key:mallory" "secret/*" perms_owner 1000
              ex_credential_keys ltac:(by vm_compute) ltac:(by vm_compute)) as (raw & _ & H).
  exists raw. exact H.
Defined.

Definition ex_leaves : list (arr 32) := [did_hash "did:key:alice"; did_hash "did:key:bob"; did_hash "did:key:carol"].
Lemma anonymous_member_complete_witness :
  ∃ b, ab_merkle_root_hash b = hex_encode (arr_bytes (cred_root ex_leaves)) ∧
    verify_anonymous_membership_proof (G:=q_groth16) credential_rules b = Ok true.
Proof.
  destruct (anonymous_member_complete _ _ ex_leaves 2 ex_grant "did:key:carol" ex_read 1000
              ex_credential_keys (made_up_u64 _ _ _) ltac:(by vm_compute) ex_valid ltac:(by vm_compute) eq_refl)
    as (path & b & _ & _ & H1 & H2).
  exists b. split; [exact H1|exact H2].
Defined.
Lemma anonymous_root_member_witness :
  ∃ raw, verify_anonymous_membership_proof (G:=q_groth16) credential_rules
    (anonymous_of (bundle_of raw (cred_root ex_leaves) (key_hash "secret/*") perms_owner 1000)
       (cred_root ex_leaves) (cred_root ex_leaves) [] 0) = Ok true.
Proof. exact (anonymous_root_member _ _ (cred_root ex_leaves) "secret/*" perms_owner 1000 ex_credential_keys ltac:(by vm_compute)). Defined.
Lemma credential_path_sound_witness :
  did_hash "did:key:carol" ∈ ex_leaves ∨
  collides sha256 (climb_strings (did_hash "did:key:carol") (cred_path_from 3 2 ex_leaves) 2 ++ cred_strings 3 ex_leaves).
Proof.
  apply (credential_path_sound ex_leaves (did_hash "did:key:carol") (cred_path_from 3 2 ex_leaves) 2);
    [done|reflexivity|by vm_compute].
Defined.
