(* ===== verification/Circuit.v ===== *)
(** * The attestation circuit: [src/src/halo/circuit.rs], [halo/circuit_policy.rs] and
    [halo/public_input_schema.rs]

    The circuit, its key files with the policy that guards them, and proofs of attestations.
    The three files are their contents; faults of the file system are left out. *)
From S2P Require Export Credential Attest.

Definition CIRCUIT_SETUP_DOMAIN : string := "agenthalo.circuit.setup.v1".
Definition CIRCUIT_PROVE_DOMAIN : string := "agenthalo.circuit.prove.v1".
Definition MAX_EVENTS_DEFAULT : N := 256.
Definition CIRCUIT_METADATA_SCHEMA_VERSION : N := 1.
Definition PUBLIC_INPUT_SCHEMA_VERSION : N := 1.
Definition REQUIRED_PUBLIC_INPUTS : nat := 5.

(** ** Policies *)

Inductive CircuitPolicy := DevDeterministic | ProductionRequired.
#[export] Instance CircuitPolicy_eq_dec : EqDecision CircuitPolicy.
Proof. solve_decision. Defined.
Definition policy_str (p : CircuitPolicy) : string :=
  match p with DevDeterministic => "dev" | ProductionRequired => "production" end.
(** [None] is the error. *)
Definition policy_parse (raw : string) : option CircuitPolicy :=
  let s := to_ascii_lowercase (trim raw) in
  if bool_decide (s = "dev") || bool_decide (s = "deterministic") then Some DevDeterministic
  else if bool_decide (s = "production") || bool_decide (s = "prod") then Some ProductionRequired
  else None.
Record CircuitArtifactMetadata := mk_Metadata {
  cm_schema_version : N;
  setup_mode_of : CircuitPolicy;
  cm_created_at : N;
  cm_max_events : N;
  cm_public_input_schema_version : N;
  pk_sha256 : string;
  vk_sha256 : string
}.

(** The five inputs in their order. *)
Definition build_public_inputs (merkle_lo merkle_hi digest_lo digest_hi event_count : N) : list string :=
  [dec merkle_lo; dec merkle_hi; dec digest_lo; dec digest_hi; dec event_count].

Record AttestationProofBundle := {
  ap_proof_hex : string;
  ap_proof_words : list string;
  ap_public_inputs : list string;
  ap_schema_version : N
}.
Record CircuitKeyInfo := {
  ki_max_events : N;
  ki_policy : CircuitPolicy;
  ki_public_input_schema_version : N;
  ki_pk_sha256 : string;
  ki_vk_sha256 : string
}.
Definition join_array (l : list string) : string := "[" +:+ String.concat "," l +:+ "]".
Definition proof_words_json_array (b : AttestationProofBundle) : string := join_array (ap_proof_words b).
Definition public_inputs_json_array (b : AttestationProofBundle) : string := join_array (ap_public_inputs b).

Inductive CircuitError :=
| CiPartial (has_pk has_vk : bool)
| CiNoArtifacts
| CiDecodePk | CiDecodeVk
| CiNoMetadata | CiParseMetadata | CiSerializeMetadata
| CiSchema (got : N) | CiInputSchema (got : N)
| CiHashMismatch
| CiMaxEvents (expected got : N)
| CiSetup | CiEncode | CiProve
| CiHex (e : HexError)
| CiHashLen (len : nat)
| CiInputCount (got : nat)
| CiDecodeProof | CiInput (text : string) | CiVerify.

(** The text of a field element, the coordinates of a proof in decimal, key files and the
    JSON of the metadata; [None] is an [Err]. *)
Class CircuitLib `{G : ArkGroth16} := {
  frb_parse : string → option FrB;
  proof_coordinates : Groth16Proof → list string;
  pk_serialize : ProvingKey → option bytes; pk_deserialize : bytes → option ProvingKey;
  vk_serialize : VerifyingKey → option bytes; vk_deserialize : bytes → option VerifyingKey;
  metadata_to_vec : CircuitArtifactMetadata → option bytes;
  metadata_parse : bytes → option CircuitArtifactMetadata
}.

(** ** The circuit *)

Section circuit.
Context `{F : ArkField}.
Record AttestationCircuit := {
  merkle_lo_public : option FrB; merkle_hi_public : option FrB;
  digest_lo_public : option FrB; digest_hi_public : option FrB;
  event_count_public : option FrB;
  merkle_lo_witness : option FrB; merkle_hi_witness : option FrB;
  digest_lo_witness : option FrB; digest_hi_witness : option FrB;
  event_count_witness : option FrB
}.
Definition attestation_blank : AttestationCircuit :=
  let z := Some (fr_from 0) in Build_AttestationCircuit z z z z z z z z z z.
Definition attestation_constraints (c : AttestationCircuit) : Circuit :=
  merkle_lo ← new_input (merkle_lo_public c);
  merkle_hi ← new_input (merkle_hi_public c);
  digest_lo ← new_input (digest_lo_public c);
  digest_hi ← new_input (digest_hi_public c);
  event_count ← new_input (event_count_public c);
  merkle_lo_w ← new_witness (merkle_lo_witness c);
  merkle_hi_w ← new_witness (merkle_hi_witness c);
  digest_lo_w ← new_witness (digest_lo_witness c);
  digest_hi_w ← new_witness (digest_hi_witness c);
  event_count_w ← new_witness (event_count_witness c);
  _ ← enforce_equal merkle_lo merkle_lo_w;
  _ ← enforce_equal merkle_hi merkle_hi_w;
  _ ← enforce_equal digest_lo digest_lo_w;
  _ ← enforce_equal digest_hi digest_hi_w;
  enforce_equal event_count event_count_w.
End circuit.

(** ** Keys *)

(** The three files. *)
Record KeyFiles := mk_KeyFiles { pk_file : option bytes; vk_file : option bytes; metadata_file : option bytes }.

Section keys.
Context `{SHA : Sha2, F : ArkField, G : !ArkGroth16, CL : !CircuitLib}.

Definition key_hash_hex (raw : bytes) : string := hex_encode (arr_bytes (sha256 raw)).
Definition attestation_setup_seed (max_events : N) : arr 32 :=
  digest_domain CIRCUIT_SETUP_DOMAIN (le_bytes 8 max_events).
Definition setup_attestation_circuit (max_events : N) : result CircuitError (ProvingKey * VerifyingKey) :=
  ok_or (circuit_specific_setup (attestation_constraints attestation_blank) (attestation_setup_seed max_events))
    CiSetup.

Definition save_metadata (m : CircuitArtifactMetadata) : action KeyFiles CircuitError () :=
  raw ← lift_res (ok_or (metadata_to_vec m) CiSerializeMetadata);
  modify (λ fs, mk_KeyFiles (pk_file fs) (vk_file fs) (Some raw)).
Definition key_info (m : CircuitArtifactMetadata) (policy : CircuitPolicy) : CircuitKeyInfo := {|
  ki_max_events := cm_max_events m; ki_policy := policy;
  ki_public_input_schema_version := cm_public_input_schema_version m;
  ki_pk_sha256 := pk_sha256 m; ki_vk_sha256 := vk_sha256 m |}.

Definition new_metadata (max_events : N) (pk_raw vk_raw : bytes) (now : N) : CircuitArtifactMetadata :=
  mk_Metadata CIRCUIT_METADATA_SCHEMA_VERSION DevDeterministic now max_events PUBLIC_INPUT_SCHEMA_VERSION
    (key_hash_hex pk_raw) (key_hash_hex vk_raw).
Definition create_and_persist_keys (max_events now : N)
  : action KeyFiles CircuitError (ProvingKey * VerifyingKey * CircuitKeyInfo) :=
  '(pk, vk) ← lift_res (setup_attestation_circuit max_events);
  pk_raw ← lift_res (ok_or (pk_serialize pk) CiEncode);
  vk_raw ← lift_res (ok_or (vk_serialize vk) CiEncode);
  _ ← modify (λ fs, mk_KeyFiles (Some pk_raw) (vk_file fs) (metadata_file fs));
  _ ← modify (λ fs, mk_KeyFiles (pk_file fs) (Some vk_raw) (metadata_file fs));
  let metadata := new_metadata max_events pk_raw vk_raw now in
  _ ← save_metadata metadata;
  mret (pk, vk, key_info metadata DevDeterministic).

(** The metadata, read or, for a development policy, made. *)
Definition read_metadata (requested : N) (policy : CircuitPolicy) (pk_raw vk_raw : bytes) (now : N)
  : action KeyFiles CircuitError CircuitArtifactMetadata :=
  fs ← get_state;
  match metadata_file fs with
  | Some raw => lift_res (ok_or (metadata_parse raw) CiParseMetadata)
  | None =>
      _ ← lift_res (throw_if (bool_decide (policy = ProductionRequired)) CiNoMetadata);
      let m := new_metadata requested pk_raw vk_raw now in
      _ ← save_metadata m; mret m
  end.
Definition load_or_setup_from_paths (requested : N) (policy : CircuitPolicy) (now : N)
  : action KeyFiles CircuitError (ProvingKey * VerifyingKey * CircuitKeyInfo) :=
  fs ← get_state;
  match pk_file fs, vk_file fs with
  | Some pk_raw, Some vk_raw =>
      pk ← lift_res (ok_or (pk_deserialize pk_raw) CiDecodePk);
      vk ← lift_res (ok_or (vk_deserialize vk_raw) CiDecodeVk);
      metadata ← read_metadata requested policy pk_raw vk_raw now;
      _ ← lift_res (throw_if (negb (cm_schema_version metadata =? CIRCUIT_METADATA_SCHEMA_VERSION)%N)
            (CiSchema (cm_schema_version metadata)));
      _ ← lift_res (throw_if (negb (cm_public_input_schema_version metadata =? PUBLIC_INPUT_SCHEMA_VERSION)%N)
            (CiInputSchema (cm_public_input_schema_version metadata)));
      _ ← lift_res (throw_if (negb (bool_decide (pk_sha256 metadata = key_hash_hex pk_raw)) ||
                              negb (bool_decide (vk_sha256 metadata = key_hash_hex vk_raw))) CiHashMismatch);
      let other := negb (cm_max_events metadata =? requested)%N in
      _ ← lift_res (throw_if (bool_decide (policy = ProductionRequired) && other)
            (CiMaxEvents requested (cm_max_events metadata)));
      let metadata' := if bool_decide (policy = DevDeterministic) && other then
          mk_Metadata (cm_schema_version metadata) (setup_mode_of metadata) (cm_created_at metadata) requested
            (cm_public_input_schema_version metadata) (pk_sha256 metadata) (vk_sha256 metadata)
        else metadata in
      _ ← (if bool_decide (policy = DevDeterministic) && other then save_metadata metadata' else mret ());
      mret (pk, vk, {| ki_max_events := cm_max_events metadata'; ki_policy := policy;
                       ki_public_input_schema_version := cm_public_input_schema_version metadata';
                       ki_pk_sha256 := key_hash_hex pk_raw; ki_vk_sha256 := key_hash_hex vk_raw |})
  | None, None =>
      _ ← lift_res (throw_if (bool_decide (policy = ProductionRequired)) CiNoArtifacts);
      create_and_persist_keys requested now
  | pk, vk => lift_res (Err (CiPartial (bool_decide (is_Some pk)) (bool_decide (is_Some vk))))
  end.
Definition load_or_setup_attestation_keys_with_policy (max_events : option N) (policy : CircuitPolicy) (now : N)
  : action KeyFiles CircuitError (ProvingKey * VerifyingKey * CircuitKeyInfo) :=
  load_or_setup_from_paths (default MAX_EVENTS_DEFAULT max_events) policy now.
Definition load_or_setup_attestation_keys (max_events : option N) (now : N)
  : action KeyFiles CircuitError (ProvingKey * VerifyingKey * CircuitKeyInfo) :=
  load_or_setup_attestation_keys_with_policy max_events DevDeterministic now.

(** ** Proofs *)

Definition split_hash_u128 (hex : string) : result CircuitError (N * N) :=
  raw ← map_err CiHex (hex_decode_any hex);
  match try_arr 32 raw with
  | Some b => mret (split_hash b)
  | None =>
      if length raw =? 64 then mret (split_hash (digest_domain "agenthalo.circuit.hash_compress.v1" raw))
      else Err (CiHashLen (length raw))
  end.

Definition attestation_circuit (merkle digest : N * N) (event_count : N) : AttestationCircuit :=
  let ml := Some (fr_from merkle.1) in let mh := Some (fr_from merkle.2) in
  let dl := Some (fr_from digest.1) in let dh := Some (fr_from digest.2) in
  let ec := Some (fr_from event_count) in
  Build_AttestationCircuit ml mh dl dh ec ml mh dl dh ec.

Definition prove_attestation (pk : ProvingKey) (attestation : AttestationResult)
  : result CircuitError AttestationProofBundle :=
  merkle ← split_hash_u128 (at_merkle_root attestation);
  digest ← split_hash_u128 (at_attestation_digest attestation);
  let event_count := at_event_count attestation in
  let circuit := attestation_circuit merkle digest event_count in
  digest_raw ← map_err CiHex (hex_decode_any (at_attestation_digest attestation));
  proof ← ok_or (groth16_prove pk (attestation_constraints circuit) (digest_domain CIRCUIT_PROVE_DOMAIN digest_raw))
            CiProve;
  proof_raw ← ok_or (proof_serialize proof) CiEncode;
  mret {| ap_proof_hex := hex_encode proof_raw; ap_proof_words := proof_coordinates proof;
          ap_public_inputs := build_public_inputs merkle.1 merkle.2 digest.1 digest.2 event_count;
          ap_schema_version := PUBLIC_INPUT_SCHEMA_VERSION |}.

Fixpoint parse_inputs (l : list string) : result CircuitError (list FrB) :=
  match l with
  | [] => mret []
  | s :: l' => x ← ok_or (frb_parse s) (CiInput s); xs ← parse_inputs l'; mret (x :: xs)
  end.
Definition verify_attestation_proof (vk : VerifyingKey) (bundle : AttestationProofBundle)
  : result CircuitError bool :=
  _ ← throw_if (negb (ap_schema_version bundle =? PUBLIC_INPUT_SCHEMA_VERSION)%N)
        (CiInputSchema (ap_schema_version bundle));
  _ ← throw_if (length (ap_public_inputs bundle) <? REQUIRED_PUBLIC_INPUTS)
        (CiInputCount (length (ap_public_inputs bundle)));
  proof_raw ← map_err CiHex (hex_decode_any (ap_proof_hex bundle));
  proof ← ok_or (proof_deserialize proof_raw) CiDecodeProof;
  public_inputs ← parse_inputs (ap_public_inputs bundle);
  ok_or (groth16_verify vk public_inputs proof) CiVerify.
End keys.
