(* ===== verification/CircuitSpec.v ===== *)
(** * Properties of the attestation circuit and its keys

    What the circuit accepts and what its proofs show; which key files a production policy
    takes. *)
From S2P Require Import Circuit CredentialSpec Instances ZkEx.

(** Documented round trips of the external encodings. *)
Class CircuitLib_Laws `(CL : CircuitLib) : Prop := {
  frb_parse_dec n : (n < 2 ^ 200)%N → frb_parse (dec n) = Some (fr_from n);
  pk_bytes pk b : pk_serialize pk = Some b → pk_deserialize b = Some pk;
  vk_bytes vk b : vk_serialize vk = Some b → vk_deserialize b = Some vk;
  metadata_bytes m b : metadata_to_vec m = Some b → metadata_parse b = Some m
}.

Section circuit.
Context `{F : ArkField, !ArkField_Laws F}.

Definition attestation_system : ConstraintSystem :=
  match synthesize true (attestation_constraints attestation_blank) with Ok cs => cs | Err _ => cs_new true end.
Definition attestation_rules : list Constraint := constraints attestation_system.
Lemma attestation_setup c : synthesize true (attestation_constraints c) = Ok attestation_system.
Proof using Type. vm_compute. reflexivity. Qed.
Lemma attestation_shape i w : same_shape attestation_system (mk_CS false i w 6 5 attestation_rules).
Proof using Type. split; [|split]; vm_compute; reflexivity. Qed.

Lemma attestation_equations x1 x2 x3 x4 x5 w1 w2 w3 w4 w5 :
  Forall (holds [fr_one; x1; x2; x3; x4; x5] [w1; w2; w3; w4; w5]) attestation_rules ↔
  [x1; x2; x3; x4; x5] = [w1; w2; w3; w4; w5].
Proof using All.
  rewrite Forall_fold_right. cbv -[FrB fr_one fr_add fr_mul fr_opp fr_zero fr_sub iff].
  rewrite !equal_shape. naive_solver.
Qed.
Lemma attestation_synthesize x1 x2 x3 x4 x5 :
  synthesize false (attestation_constraints
    (Build_AttestationCircuit (Some x1) (Some x2) (Some x3) (Some x4) (Some x5)
                              (Some x1) (Some x2) (Some x3) (Some x4) (Some x5))) =
    Ok (mk_CS false [fr_one; x1; x2; x3; x4; x5] [x1; x2; x3; x4; x5] 6 5 attestation_rules).
Proof using Type. vm_compute. reflexivity. Qed.
End circuit.
#[local] Opaque attestation_system attestation_constraints.

Section proofs.
Context `{SHA : Sha2, F : ArkField, G : !ArkGroth16, CL : !CircuitLib}.
Context `{!ArkField_Laws F, !ArkGroth16_Laws G, !CircuitLib_Laws CL}.

Lemma parse_build a b c d e :
  (a < 2 ^ 200)%N → (b < 2 ^ 200)%N → (c < 2 ^ 200)%N → (d < 2 ^ 200)%N → (e < 2 ^ 200)%N →
  parse_inputs (build_public_inputs a b c d e) = Ok [fr_from a; fr_from b; fr_from c; fr_from d; fr_from e].
Proof using All.
  intros. unfold build_public_inputs, parse_inputs. by rewrite !frb_parse_dec.
Qed.

(** A proof of an attestation shows no attestation.  The circuit compares its public inputs
    with a copy of themselves: for every record whose root and digest are hashes in hexadecimal, of a
    session or made up, and every count, proving succeeds and the proof is accepted, with the
    halves of the two hashes and the count as its inputs. *)
Theorem attestation_proof_complete max_events pk vk a merkle digest :
  setup_attestation_circuit max_events = Ok (pk, vk) →
  split_hash_u128 (at_merkle_root a) = Ok merkle → split_hash_u128 (at_attestation_digest a) = Ok digest →
  is_u64 (at_event_count a) →
  ∃ b, prove_attestation pk a = Ok b ∧ verify_attestation_proof vk b = Ok true ∧
    ap_public_inputs b = build_public_inputs merkle.1 merkle.2 digest.1 digest.2 (at_event_count a).
Proof using All.
  intros Hs Hm Hd Hc. unfold setup_attestation_circuit, circuit_specific_setup in Hs.
  rewrite attestation_setup in Hs. apply ok_or_ok in Hs.
  assert (∃ raw, hex_decode_any (at_attestation_digest a) = Ok raw) as [raw Hraw].
  { unfold split_hash_u128 in Hd. destruct (hex_decode_any (at_attestation_digest a)); [by eexists|done]. }
  assert (∀ s p, split_hash_u128 s = Ok p → (p.1 < 2 ^ 200)%N ∧ (p.2 < 2 ^ 200)%N) as Hb.
  { intros s p Hp. unfold split_hash_u128 in Hp. destruct (hex_decode_any s) as [r|]; [|done].
    cbn [map_err mbind result_bind] in Hp.
    assert (∀ h, ((split_hash h).1 < 2 ^ 200)%N ∧ ((split_hash h).2 < 2 ^ 200)%N) as Hh.
    { intros h. destruct (split_hash_bound h). change (2 ^ 200)%N with (2 ^ 128 * 2 ^ 72)%N. lia. }
    destruct (try_arr 32 r); [injection Hp as <-; apply Hh|]. destruct (length r =? 64); [|done]. injection Hp as <-. apply Hh. }
  destruct (Hb _ _ Hm) as [Hm1 Hm2]. destruct (Hb _ _ Hd) as [Hd1 Hd2].
  assert (at_event_count a < 2 ^ 200)%N as Hc' by (unfold is_u64, u64_max in Hc; lia).
  set (seed := digest_domain CIRCUIT_PROVE_DOMAIN raw).
  set (cs := mk_CS false [fr_one; fr_from merkle.1; fr_from merkle.2; fr_from digest.1; fr_from digest.2;
                          fr_from (at_event_count a)]
               [fr_from merkle.1; fr_from merkle.2; fr_from digest.1; fr_from digest.2; fr_from (at_event_count a)]
               6 5 attestation_rules).
  assert (satisfied cs) as Hsat by (apply attestation_equations; reflexivity).
  destruct (groth16_complete _ _ _ _ cs seed Hs (attestation_shape _ _) eq_refl Hsat) as (p & Hp & Hver).
  destruct (groth16_proof_bytes p) as (praw & Hpraw & Hde).
  assert (groth16_prove pk (attestation_constraints (attestation_circuit merkle digest (at_event_count a))) seed
          = Some p) as Hprove by (unfold groth16_prove, attestation_circuit; by rewrite attestation_synthesize).
  eexists. split; [|split].
  - unfold prove_attestation. revert Hprove. generalize (@groth16_prove F G). intros prove Hprove. cbv zeta.
    rewrite Hm, Hd, Hraw. cbn [map_err mbind result_bind]. fold seed. rewrite Hprove. cbn [ok_or mbind result_bind]. rewrite Hpraw. reflexivity.
  - unfold verify_attestation_proof. cbn [ap_schema_version ap_public_inputs ap_proof_hex].
    cbn [N.eqb PUBLIC_INPUT_SCHEMA_VERSION Pos.eqb negb throw_if mbind result_bind build_public_inputs length
         REQUIRED_PUBLIC_INPUTS Nat.ltb Nat.leb].
    rewrite hex_decode_any_encode. cbn [map_err mbind result_bind]. rewrite Hde. cbn [ok_or mbind result_bind].
    rewrite parse_build by done. cbn [mbind result_bind].
    exact (f_equal (λ o, ok_or o CiVerify) Hver).
  - done.
Qed.

(** *** Key files *)

(** What a production policy asks of the files. *)
Definition production_files (fs : KeyFiles) (requested : N) (pk : ProvingKey) (vk : VerifyingKey) : Prop :=
  ∃ pk_raw vk_raw raw m,
    pk_file fs = Some pk_raw ∧ pk_deserialize pk_raw = Some pk ∧
    vk_file fs = Some vk_raw ∧ vk_deserialize vk_raw = Some vk ∧
    metadata_file fs = Some raw ∧ metadata_parse raw = Some m ∧
    cm_schema_version m = CIRCUIT_METADATA_SCHEMA_VERSION ∧
    cm_public_input_schema_version m = PUBLIC_INPUT_SCHEMA_VERSION ∧
    pk_sha256 m = key_hash_hex pk_raw ∧ vk_sha256 m = key_hash_hex vk_raw ∧ cm_max_events m = requested.

Lemma production_load fs requested now :
  (load_or_setup_from_paths requested ProductionRequired now fs).1 = fs ∧
  ∀ pk vk info, (load_or_setup_from_paths requested ProductionRequired now fs).2 = Ok (pk, vk, info) →
    production_files fs requested pk vk.
Proof using Type.
  unfold load_or_setup_from_paths, production_files. destruct fs as [[pr|] [vr|] [mr|]]; unfold read_metadata;
    cbv [mbind action_bind get_state lift_res ok_or throw_if mret action_ret pk_file vk_file metadata_file];
    rewrite ?(bool_decide_eq_true_2 (ProductionRequired = ProductionRequired)),
      ?(bool_decide_eq_false_2 (ProductionRequired = DevDeterministic)) by done; cbn [andb];
    repeat (case_match; simplify_eq); try done.
  all: bool_hyps.
  all: repeat match goal with Hx : negb _ = false |- _ => apply negb_false_iff in Hx end.
  all: repeat match goal with Hx : (_ =? _)%N = true |- _ => apply N.eqb_eq in Hx end.
  all: split; [done|]; intros pk vk info [= <- <- <-]; do 4 eexists; split_and!; try done.
Qed.

Lemma production_ok fs requested now pk vk :
  production_files fs requested pk vk →
  ∃ info, (load_or_setup_from_paths requested ProductionRequired now fs).2 = Ok (pk, vk, info).
Proof using Type.
  intros (pr & vr & mr & m & H1 & H2 & H3 & H4 & H5 & H6 & H7 & H8 & H9 & H10 & H11). eexists.
  unfold load_or_setup_from_paths, read_metadata.
  cbv [mbind action_bind get_state lift_res ok_or throw_if mret action_ret].
  rewrite H1, H3, H2, H4, H5, H6, H7, H8, H9, H10, H11, !N.eqb_refl.
  rewrite (bool_decide_eq_true_2 (key_hash_hex pr = _)), (bool_decide_eq_true_2 (key_hash_hex vr = _)),
    !(bool_decide_eq_true_2 (ProductionRequired = _)),
    !(bool_decide_eq_false_2 (ProductionRequired = DevDeterministic)) by done. reflexivity.
Qed.

(** Claim C33. What a production policy takes.  It changes no file, and gives keys exactly when both
    key files and the metadata are there and readable, the metadata have the current versions and the
    requested number of events, and their hashes are those of the key files. *)
Theorem production_keys_exact fs requested now pk vk :
  (load_or_setup_from_paths requested ProductionRequired now fs).1 = fs ∧
  ((∃ info, (load_or_setup_from_paths requested ProductionRequired now fs).2 = Ok (pk, vk, info)) ↔
   production_files fs requested pk vk).
Proof using Type.
  destruct (production_load fs requested now) as [Hfs Hok]. split; [done|].
  split; [intros [info Hi]; by apply (Hok _ _ info)|]. apply production_ok.
Qed.

(** A production policy takes development keys.  The keys that a development policy makes from a public
    seed, where there are none, pass a later production policy for as many events: the recorded way of their
    set-up is never looked at. *)
Theorem production_accepts_dev_keys meta requested now later fs pk vk info :
  load_or_setup_from_paths requested DevDeterministic now (mk_KeyFiles None None meta) = (fs, Ok (pk, vk, info)) →
  (∃ raw m, metadata_file fs = Some raw ∧ metadata_parse raw = Some m ∧ setup_mode_of m = DevDeterministic) ∧
  setup_attestation_circuit requested = Ok (pk, vk) ∧
  ∃ info', load_or_setup_from_paths requested ProductionRequired later fs = (fs, Ok (pk, vk, info')).
Proof using All.
  intros Hl. unfold load_or_setup_from_paths, create_and_persist_keys, save_metadata in Hl.
  destruct (setup_attestation_circuit requested) as [[pk0 vk0]|] eqn:Hset; [|done].
  cbv [mbind action_bind get_state lift_res ok_or throw_if modify mret action_ret pk_file vk_file metadata_file] in Hl.
  destruct (pk_serialize pk0) as [pr|] eqn:Hpr; [|done]. destruct (vk_serialize vk0) as [vr|] eqn:Hvr; [|done].
  destruct (metadata_to_vec _) as [mr|] eqn:Hmr; [|done]. injection Hl as <- <- <- <-.
  apply metadata_bytes in Hmr. apply pk_bytes in Hpr as Hpr'. apply vk_bytes in Hvr as Hvr'.
  split; [exists mr; eexists; split; [reflexivity|split; [exact Hmr|reflexivity]]|]. split; [reflexivity|].
  clear Hset. match goal with |- context [load_or_setup_from_paths _ _ _ ?fs] =>
    destruct (production_ok fs requested later pk0 vk0) as [info' Hi];
      [|exists info'; destruct (production_load fs requested later) as [Hfs _]] end.
  - exists pr, vr, mr. eexists. split_and!; reflexivity || eassumption.
  - by rewrite (surjective_pairing (load_or_setup_from_paths _ _ _ _)), Hi, Hfs.
Qed.
End proofs.

(** ** Examples *)

Fixpoint digits_value (acc : N) (s : string) : N :=
  match s with
  | EmptyString => acc
  | String c s' => digits_value (acc * 10 + default 0 (digit_val c))%N s'
  end.
Lemma digits_value_go x s : digits_value 0 (pretty_N_go x s) = digits_value x s.
Proof.
  revert s. induction (N.lt_wf_0 x) as [x _ IH]; intros s.
  destruct (decide (x = 0)%N) as [->|]; [by rewrite pretty_N_go_0|].
  rewrite pretty_N_go_step by lia. rewrite IH by (apply N.div_lt; lia).
  simpl. rewrite digit_val_char by (apply N.mod_lt; lia). simpl. f_equal. clear IH. lia_div.
Qed.
Lemma digits_value_dec n : digits_value 0 (dec n) = n.
Proof.
  destruct (decide (n = 0)%N) as [->|Hn]; [done|]. unfold dec, pretty, pretty_N. rewrite decide_False by done.
  apply digits_value_go.
Qed.

Definition var_code (v : Variable_) : N * N :=
  match v with One => (0, 0) | Instance_ i => (1, N.of_nat i) | Witness_ i => (2, N.of_nat i) end%N.
Definition var_uncode (c : N * N) : Variable_ :=
  match c with (0, _) => One | (1, i) => Instance_ (N.to_nat i) | (_, i) => Witness_ (N.to_nat i) end%N.
Lemma var_uncode_code v : var_uncode (var_code v) = v.
Proof. destruct v; cbn; by rewrite ?Nat2N.id. Qed.
Abbreviation LcCode := (list (Z * positive * (N * N))).
Definition lc_code (l : LinearCombination (F:=q_field)) : LcCode := map (λ cv, (qc_code cv.1, var_code cv.2)) l.
Definition lc_uncode (l : LcCode) : LinearCombination (F:=q_field) := map (λ cv, (qc_uncode cv.1, var_uncode cv.2)) l.
Lemma lc_uncode_code l : lc_uncode (lc_code l) = l.
Proof.
  unfold lc_uncode, lc_code. rewrite map_map. rewrite <-(map_id l) at 2. apply map_ext. intros [q v]. cbn [fst snd].
  f_equal; [apply qc_uncode_code|apply var_uncode_code].
Qed.
Definition keys_code (l : list (Constraint (F:=q_field))) : list (LcCode * LcCode * LcCode) :=
  map (λ k, (lc_code k.1.1, lc_code k.1.2, lc_code k.2)) l.
Definition keys_uncode (l : list (LcCode * LcCode * LcCode)) : list (Constraint (F:=q_field)) :=
  map (λ k, (lc_uncode k.1.1, lc_uncode k.1.2, lc_uncode k.2)) l.
Lemma keys_uncode_code l : keys_uncode (keys_code l) = l.
Proof.
  unfold keys_uncode, keys_code. rewrite map_map. rewrite <-(map_id l) at 2. apply map_ext. intros [[a b] c].
  cbn [fst snd]. by rewrite !lc_uncode_code.
Qed.

Definition metadata_code (m : CircuitArtifactMetadata) : N * bool * N * N * N * string * string :=
  (cm_schema_version m, bool_decide (setup_mode_of m = DevDeterministic), cm_created_at m, cm_max_events m,
   cm_public_input_schema_version m, pk_sha256 m, vk_sha256 m).
Definition metadata_uncode (c : N * bool * N * N * N * string * string) : CircuitArtifactMetadata :=
  let '(v, d, t, e, p, a, b) := c in mk_Metadata v (if d then DevDeterministic else ProductionRequired) t e p a b.
Lemma metadata_uncode_code m : metadata_uncode (metadata_code m) = m.
Proof. by destruct m as [v []]. Qed.

Definition toy_circuit_lib : CircuitLib (G:=q_groth16) := {|
  frb_parse := λ s, Some (qc_from (digits_value 0 s)); proof_coordinates := λ p, [];
  pk_serialize := λ k, Some []; pk_deserialize := λ b, Some tt;
  vk_serialize := λ k, Some (code (keys_code k)); vk_deserialize := λ b, keys_uncode <$> uncode b;
  metadata_to_vec := λ m, Some (code (metadata_code m)); metadata_parse := λ b, metadata_uncode <$> uncode b |}.
Lemma toy_circuit_laws : CircuitLib_Laws toy_circuit_lib.
Proof.
  split.
  - intros n _. cbn. by rewrite digits_value_dec.
  - by intros [] b _.
  - intros vk b [= <-]. cbn [vk_deserialize toy_circuit_lib]. rewrite uncode_code. exact (f_equal Some (keys_uncode_code vk)).
  - intros m b [= <-]. cbn [metadata_parse toy_circuit_lib]. rewrite uncode_code. exact (f_equal Some (metadata_uncode_code m)).
Qed.
#[local] Existing Instances prefix_sha toy_circuit_lib toy_circuit_laws.

Lemma ex_attestation_setup n : setup_attestation_circuit (G:=q_groth16) n = Ok (tt, attestation_rules).
Proof. unfold setup_attestation_circuit, circuit_specific_setup. rewrite attestation_setup. reflexivity. Qed.
(** An attestation of no session. *)
Definition ex_attestation : AttestationResult := {|
  at_session_id := None; at_blinded_session_ref := None;
  at_merkle_root := hex_encode (replicate 32 x01); at_event_count := 7; at_content_hashes := [];
  at_witness_algorithm := ""; at_attestation_digest := hex_encode (replicate 32 x02); at_timestamp := 0;
  at_anonymous := false; at_proof_type := ""; at_membership_proof := None |}.
Lemma attestation_proof_complete_witness :
  ∃ b, prove_attestation (G:=q_groth16) tt ex_attestation = Ok b ∧
    verify_attestation_proof (G:=q_groth16) attestation_rules b = Ok true.
Proof.
  destruct (attestation_proof_complete 64 _ _ ex_attestation (split_hash (to_arr 32 (replicate 32 x01)))
    (split_hash (to_arr 32 (replicate 32 x02))) (ex_attestation_setup 64) ltac:(by vm_compute) ltac:(by vm_compute)
    ltac:(by vm_compute)) as (b & H1 & H2 & _).
  exists b. split; [exact H1|exact H2].
Defined.

Definition ex_no_files : KeyFiles := mk_KeyFiles None None None.
Lemma ex_dev_ok : is_ok (load_or_setup_from_paths (G:=q_groth16) 64 DevDeterministic 5 ex_no_files).2 = true.
Proof. vm_compute. reflexivity. Qed.
Lemma production_accepts_dev_keys_witness :
  ∃ fs pk vk info, load_or_setup_from_paths (G:=q_groth16) 64 DevDeterministic 5 ex_no_files = (fs, Ok (pk, vk, info)) ∧
  ∃ info', load_or_setup_from_paths (G:=q_groth16) 64 ProductionRequired 6 fs = (fs, Ok (pk, vk, info')).
Proof.
  pose proof ex_dev_ok as Hok.
  destruct (load_or_setup_from_paths 64 DevDeterministic 5 ex_no_files) as [fs [[[pk vk] info]|]] eqn:Er; [|done].
  exists fs, pk, vk, info. split; [reflexivity|].
  exact (proj2 (proj2 (production_accepts_dev_keys None 64 5 6 fs pk vk info Er))).
Defined.
Lemma production_keys_exact_witness :
  (load_or_setup_from_paths (G:=q_groth16) 64 ProductionRequired 6 ex_no_files).1 = ex_no_files.
Proof. exact (proj1 (production_keys_exact (G:=q_groth16) ex_no_files 64 6 (tt : @ProvingKey _ q_groth16) [])). Defined.
