(* ===== verification/ZkCompute.v ===== *)
(** * Receipts of computations: [src/src/halo/zk_compute.rs] and [src/src/halo/zk_guests/]

    The four built-in guests and the receipts of their runs, in the default build, without
    the feature [zk-compute]: a guest that is not built in is an error, and so is a receipt
    that carries a proof of the zkVM.  [u64] sums wrap around, as they do in a release build. *)
From S2P Require Export Credential.

(** ** Guests *)

Module image_ids.
Definition RANGE_PROOF : string := "3e1d1b08116d621ca0755117e6a4c5fcaefa3215d1736deec0585cc2ac310f2e".
Definition SET_MEMBERSHIP : string := "9fe3af2bc810892bf5a56d61ab8ad644b77dfc4c636ecc42a5da4c1167eccf5b".
Definition SECURE_AGGREGATION : string := "a74d48ed6ba291c62229b9f6aa28d866cc89456953a28481792076ab3ef98cb1".
Definition ALGORITHM_COMPLIANCE : string := "8553a57cf70bdaaac134ee951801d34c1c1440a57c7e394b8e625e9f1cd8cc8c".
Section ids.
Context `{Sha2}.
Definition compute_image_id (guest_name : string) : string :=
  hex_encode (arr_bytes (sha256 (as_bytes "agenthalo.guest_image." ++ as_bytes guest_name ++ as_bytes ".v1"))).
Definition has_unresolved_images : bool :=
  negb (bool_decide (RANGE_PROOF = compute_image_id "range_proof")) ||
  negb (bool_decide (SET_MEMBERSHIP = compute_image_id "set_membership")) ||
  negb (bool_decide (SECURE_AGGREGATION = compute_image_id "secure_aggregation")) ||
  negb (bool_decide (ALGORITHM_COMPLIANCE = compute_image_id "algorithm_compliance")).
End ids.
End image_ids.

Inductive GuestError :=
| GuInvalidRange (min max : N)
| GuOutside (value min max : N)
| GuNotMember
| GuNoValues
| GuUnsupported (algorithm_id : string)
| GuMismatch.
Inductive AggregationPolicy := Sum | Mean | Min | Max.
Definition policy_name (p : AggregationPolicy) : string :=
  match p with Sum => "Sum" | Mean => "Mean" | Min => "Min" | Max => "Max" end.

Section guests.
Context `{Sha2}.

Definition range_commitment (value min max : N) : bytes :=
  arr_bytes (sha256 (as_bytes "agenthalo.range_proof.v1" ++ le_bytes 8 value ++ le_bytes 8 min ++ le_bytes 8 max)).
Definition range_execute (value min max : N) : result GuestError bytes :=
  _ ← throw_if (max <? min)%N (GuInvalidRange min max);
  _ ← throw_if ((value <? min) || (max <? value))%N (GuOutside value min max);
  mret (range_commitment value min max).

Definition membership_execute (candidate root : arr 32) (path : list (arr 32)) (index : N)
  : result GuestError bytes :=
  _ ← throw_if (negb (verify_merkle_membership candidate path index root)) GuNotMember;
  mret (arr_bytes (sha256 (as_bytes "agenthalo.set_membership.v1" ++ arr_bytes candidate ++ arr_bytes root ++
          le_bytes 8 index ++ (path ≫= arr_bytes)))).

Definition wrapping_sum (values : list N) : N := foldl wrapping_add64 0%N values.
Definition aggregate (values : list N) (policy : AggregationPolicy) : result GuestError N :=
  match values with
  | [] => Err GuNoValues
  | v :: vs =>
      mret match policy with
           | Sum => wrapping_sum values
           | Mean => (wrapping_sum values / N.of_nat (length values))%N
           | Min => foldl N.min v vs
           | Max => foldl N.max v vs
           end
  end.
Definition aggregation_execute (values : list N) (policy : AggregationPolicy) : result GuestError bytes :=
  v ← aggregate values policy;
  mret (arr_bytes (sha256 (as_bytes "agenthalo.secure_aggregation.v1" ++ le_bytes 8 (N.of_nat (length values)) ++
          le_bytes 8 v ++ as_bytes (policy_name policy)))).

Definition compliance_execute (algorithm_id : string) (input expected_output : bytes) : result GuestError bytes :=
  let normalized := to_ascii_lowercase (trim algorithm_id) in
  _ ← throw_if (negb (bool_decide (normalized = "sha256"))) (GuUnsupported algorithm_id);
  let computed := arr_bytes (sha256 input) in
  _ ← throw_if (negb (bool_decide (computed = expected_output))) GuMismatch;
  mret (arr_bytes (sha256 (as_bytes "agenthalo.algorithm_compliance.v1" ++ computed))).
End guests.

(** ** Requests and receipts *)

Definition COMPUTE_PRIVATE_DOMAIN : string := "agenthalo.zk_compute.private.v1".
Definition COMPUTE_RECEIPT_DOMAIN : string := "agenthalo.zk_compute.receipt.v1".
Definition COMPUTE_RECEIPT_SCHEMA : N := 1.

Record ComputeRequest := {
  rq_compute_id : string;
  guest_elf : bytes;
  public_inputs : bytes;
  private_inputs : bytes;
  requester_did : string
}.
Record ComputeReceipt := mk_ComputeReceipt {
  rc_compute_id : string;
  receipt_bytes : bytes;
  journal : bytes;
  image_id : string;
  rc_timestamp : N;
  signer_did : string;
  rc_signature : bytes;
  rc_schema_version : N
}.
Inductive BuiltinGuest := RangeProof | SetMembership | SecureAggregation | AlgorithmCompliance.
Definition guest_image_id (g : BuiltinGuest) : string :=
  match g with
  | RangeProof => image_ids.RANGE_PROOF
  | SetMembership => image_ids.SET_MEMBERSHIP
  | SecureAggregation => image_ids.SECURE_AGGREGATION
  | AlgorithmCompliance => image_ids.ALGORITHM_COMPLIANCE
  end.
Record ReceiptEnvelope := mk_ReceiptEnvelope {
  re_schema_version : N;
  re_compute_id : string;
  re_image_id : string;
  journal_hex : string;
  zk_receipt_hex : option string;
  public_inputs_hash : string;
  private_inputs_commitment : string;
  re_timestamp : N
}.
Record SetMembershipPublicInputs := {
  sm_merkle_root_hash : string;
  sm_merkle_path : list string;
  sm_merkle_index : N
}.
Record AlgorithmCompliancePublicInputs := { algorithm_id : string; expected_output_hex : string }.

Inductive ComputeError :=
| ZcInputs (what : string)
| ZcPrivateLength
| ZcNotText
| ZcHex (e : HexError)
| ZcPath (e : CredentialError)
| ZcGuest (e : GuestError)
| ZcNoFeature
| ZcNoComputeId | ZcNoGuest
| ZcSerialize | ZcDecodeEnvelope
| ZcSchema (got : N) | ZcEnvelopeSchema (got : N)
| ZcRange.

(** [serde_json] on these types; [None] is an [Err]. *)
Class ComputeJson := {
  range_to_vec : N * N → option bytes; range_from_slice : bytes → option (N * N);
  membership_to_vec : SetMembershipPublicInputs → option bytes;
  membership_from_slice : bytes → option SetMembershipPublicInputs;
  policy_from_slice : bytes → option AggregationPolicy;
  values_from_slice : bytes → option (list N);
  compliance_to_vec : AlgorithmCompliancePublicInputs → option bytes;
  compliance_from_slice : bytes → option AlgorithmCompliancePublicInputs;
  envelope_to_vec : ReceiptEnvelope → option bytes;
  envelope_from_slice : bytes → option ReceiptEnvelope
}.

(** [str::from_utf8]. *)
Definition str_from_utf8 (b : bytes) : option string := if utf8_valid b then Some (of_bytes b) else None.
Definition decode_builtin_kind (guest_elf : bytes) : option BuiltinGuest :=
  candidate ← trim <$> str_from_utf8 guest_elf;
  List.find (λ g, bool_decide (candidate = guest_image_id g))
    [RangeProof; SetMembership; SecureAggregation; AlgorithmCompliance].

Section compute.
Context `{SHA : Sha2, CJ : ComputeJson}.

Definition candidate_hash (private_ : bytes) : result ComputeError (arr 32) :=
  match try_arr 32 private_ with
  | Some h => mret h
  | None =>
      raw ← ok_or (str_from_utf8 private_) ZcNotText;
      map_err ZcHex (hex_decode_32 (trim raw))
  end.
Definition execute_builtin_guest (kind : BuiltinGuest) (request : ComputeRequest) : result ComputeError bytes :=
  match kind with
  | RangeProof =>
      '(min, max) ← ok_or (range_from_slice (public_inputs request)) (ZcInputs "range public inputs");
      value_bytes ← ok_or (try_arr 8 (private_inputs request)) ZcPrivateLength;
      map_err ZcGuest (range_execute (of_le_bytes (arr_bytes value_bytes)) min max)
  | SetMembership =>
      public ← ok_or (membership_from_slice (public_inputs request)) (ZcInputs "set-membership public inputs");
      candidate ← candidate_hash (private_inputs request);
      root ← map_err ZcHex (hex_decode_32 (sm_merkle_root_hash public));
      path ← map_err ZcPath (decode_path (sm_merkle_path public));
      map_err ZcGuest (membership_execute candidate root path (sm_merkle_index public))
  | SecureAggregation =>
      policy ← ok_or (policy_from_slice (public_inputs request)) (ZcInputs "secure-aggregation public inputs");
      values ← ok_or (values_from_slice (private_inputs request)) (ZcInputs "secure-aggregation private inputs");
      map_err ZcGuest (aggregation_execute values policy)
  | AlgorithmCompliance =>
      public ← ok_or (compliance_from_slice (public_inputs request)) (ZcInputs "algorithm-compliance public inputs");
      expected ← map_err ZcHex (hex_decode_any (expected_output_hex public));
      map_err ZcGuest (compliance_execute (algorithm_id public) (private_inputs request) expected)
  end.
(** Without the feature. *)
Definition prove_custom_elf (request : ComputeRequest) : result ComputeError (string * bytes * option string) :=
  Err ZcNoFeature.

Definition prove_computation (request : ComputeRequest) (now : N) : result ComputeError ComputeReceipt :=
  _ ← throw_if (bool_decide (trim (rq_compute_id request) = "")) ZcNoComputeId;
  _ ← throw_if (bool_decide (guest_elf request = [])) ZcNoGuest;
  '(image, journal, zk) ←
    match decode_builtin_kind (guest_elf request) with
    | Some kind => journal ← execute_builtin_guest kind request; mret (guest_image_id kind, journal, None)
    | None => prove_custom_elf request
    end;
  let envelope := mk_ReceiptEnvelope COMPUTE_RECEIPT_SCHEMA (rq_compute_id request) image (hex_encode journal) zk
    (hex_encode (arr_bytes (digest_domain COMPUTE_RECEIPT_DOMAIN (public_inputs request))))
    (hex_encode (arr_bytes (digest_domain COMPUTE_PRIVATE_DOMAIN (private_inputs request)))) now in
  raw ← ok_or (envelope_to_vec envelope) ZcSerialize;
  mret (mk_ComputeReceipt (rq_compute_id request) raw journal image now (requester_did request) []
          COMPUTE_RECEIPT_SCHEMA).

Definition verify_receipt_minimal (receipt_bytes : bytes) (expected_image_id : string) (expected_journal : bytes)
  : result ComputeError bool :=
  envelope ← ok_or (envelope_from_slice receipt_bytes) ZcDecodeEnvelope;
  _ ← throw_if (negb (re_schema_version envelope =? COMPUTE_RECEIPT_SCHEMA)%N)
        (ZcEnvelopeSchema (re_schema_version envelope));
  mret (bool_decide (re_image_id envelope = expected_image_id) &&
        bool_decide (journal_hex envelope = hex_encode expected_journal)).
Definition verify_computation (receipt : ComputeReceipt) : result ComputeError bool :=
  _ ← throw_if (negb (rc_schema_version receipt =? COMPUTE_RECEIPT_SCHEMA)%N) (ZcSchema (rc_schema_version receipt));
  minimal_ok ← verify_receipt_minimal (receipt_bytes receipt) (image_id receipt) (journal receipt);
  if negb minimal_ok then mret false
  else
    envelope ← ok_or (envelope_from_slice (receipt_bytes receipt)) ZcDecodeEnvelope;
    match zk_receipt_hex envelope with Some _ => Err ZcNoFeature | None => mret true end.

Definition prove_builtin_range (value min max : N) (requester : string) (now : N) : result ComputeError ComputeReceipt :=
  _ ← throw_if (max <? min)%N ZcRange;
  inputs ← ok_or (range_to_vec (min, max)) (ZcInputs "range inputs");
  prove_computation {|
    rq_compute_id := "builtin-range-" +:+ dec value +:+ "-" +:+ dec min +:+ "-" +:+ dec max;
    guest_elf := as_bytes (guest_image_id RangeProof); public_inputs := inputs;
    private_inputs := le_bytes 8 value; requester_did := requester |} now.
Definition prove_builtin_set_membership (candidate root : arr 32) (path : list (arr 32)) (index : N)
    (requester : string) (now : N) : result ComputeError ComputeReceipt :=
  inputs ← ok_or (membership_to_vec {|
      sm_merkle_root_hash := hex_encode (arr_bytes root);
      sm_merkle_path := (λ node, hex_encode (arr_bytes node)) <$> path; sm_merkle_index := index |})
    (ZcInputs "set-membership inputs");
  prove_computation {|
    rq_compute_id := "builtin-set-membership-" +:+ dec index;
    guest_elf := as_bytes (guest_image_id SetMembership); public_inputs := inputs;
    private_inputs := arr_bytes candidate; requester_did := requester |} now.
Definition prove_builtin_algorithm_compliance_sha256 (input : bytes) (requester : string) (now : N)
  : result ComputeError ComputeReceipt :=
  inputs ← ok_or (compliance_to_vec {|
      algorithm_id := "sha256"; expected_output_hex := hex_encode (arr_bytes (sha256 input)) |})
    (ZcInputs "algorithm-compliance inputs");
  prove_computation {|
    rq_compute_id := "builtin-algorithm-compliance-sha256";
    guest_elf := as_bytes (guest_image_id AlgorithmCompliance); public_inputs := inputs;
    private_inputs := input; requester_did := requester |} now.
End compute.
