(* ===== verification/ZkComputeSpec.v ===== *)
(** * Properties of the receipts of [ZkCompute.v]

    What the guests accept, that receipts of runs verify, and that receipts nobody ran do
    too. *)
From S2P Require Import ZkCompute CredentialSpec ShaRef Codec.

Class ComputeJson_Laws `(CJ : ComputeJson) : Prop := {
  envelope_roundtrip e b : envelope_to_vec e = Some b → envelope_from_slice b = Some e;
  range_roundtrip m b : range_to_vec m = Some b → range_from_slice b = Some m;
  membership_roundtrip m b : membership_to_vec m = Some b → membership_from_slice b = Some m;
  compliance_roundtrip m b : compliance_to_vec m = Some b → compliance_from_slice b = Some m
}.

Lemma builtin_kind k : decode_builtin_kind (as_bytes (guest_image_id k)) = Some k.
Proof. by destruct k; vm_compute. Qed.

(** The image identifiers of the built-in guests are those that their names give. *)
Theorem builtin_images_resolved : @image_ids.has_unresolved_images real_sha256 = false.
Proof. vm_compute. reflexivity. Qed.

Section compute.
Context `{SHA : Sha2, CJ : !ComputeJson, !ComputeJson_Laws CJ}.

(** What is in the envelope of a receipt is what is checked against it. *)
Lemma envelope_verifies id raw journal image now signer sig e :
  envelope_to_vec e = Some raw → re_schema_version e = COMPUTE_RECEIPT_SCHEMA → re_image_id e = image →
  journal_hex e = hex_encode journal → zk_receipt_hex e = None →
  verify_computation (mk_ComputeReceipt id raw journal image now signer sig COMPUTE_RECEIPT_SCHEMA) = Ok true.
Proof using All.
  intros Hraw Hs Hi Hj Hz. apply envelope_roundtrip in Hraw. unfold verify_computation, verify_receipt_minimal.
  cbn [rc_schema_version receipt_bytes image_id ZkCompute.journal]. rewrite Hraw. cbn [N.eqb COMPUTE_RECEIPT_SCHEMA Pos.eqb negb throw_if ok_or mbind result_bind].
  rewrite Hs, Hi, Hj, !bool_decide_eq_true_2 by done. cbn. by rewrite Hz.
Qed.

Lemma computation_runs request now r :
  prove_computation request now = Ok r →
  verify_computation r = Ok true ∧ rc_compute_id r = rq_compute_id request ∧ signer_did r = requester_did request ∧
  ∃ kind, decode_builtin_kind (guest_elf request) = Some kind ∧ image_id r = guest_image_id kind ∧
    execute_builtin_guest kind request = Ok (journal r).
Proof using All.
  intros Hp. unfold prove_computation in Hp. inv_res.
  destruct (decode_builtin_kind (guest_elf request)) as [kind|] eqn:Hk; [|done].
  repeat match goal with p : (_ * _)%type |- _ => destruct p end. inv_res. cbv beta iota in *. inv_res.
  split; [by eapply envelope_verifies|]. do 2 (split; [done|]). by exists kind.
Qed.

(** The envelope around the journal of a run of the guest [k]. *)
Definition envelope_of (request : ComputeRequest) (k : BuiltinGuest) (j : bytes) (now : N) : ReceiptEnvelope :=
  mk_ReceiptEnvelope COMPUTE_RECEIPT_SCHEMA (rq_compute_id request) (guest_image_id k) (hex_encode j) None
    (hex_encode (arr_bytes (digest_domain COMPUTE_RECEIPT_DOMAIN (public_inputs request))))
    (hex_encode (arr_bytes (digest_domain COMPUTE_PRIVATE_DOMAIN (private_inputs request)))) now.
Lemma prove_builtin request now k :
  trim (rq_compute_id request) ≠ "" → guest_elf request ≠ [] → decode_builtin_kind (guest_elf request) = Some k →
  match execute_builtin_guest k request with
  | Err e => prove_computation request now = Err e
  | Ok j =>
      match envelope_to_vec (envelope_of request k j now) with
      | None => prove_computation request now = Err ZcSerialize
      | Some _ => ∃ r, prove_computation request now = Ok r ∧ verify_computation r = Ok true ∧ journal r = j
      end
  end.
Proof using All.
  intros Hid Helf Hk. pose proof (computation_runs request now) as Hrun.
  assert (match execute_builtin_guest k request with
          | Err e => prove_computation request now = Err e
          | Ok j =>
              match envelope_to_vec (envelope_of request k j now) with
              | None => prove_computation request now = Err ZcSerialize
              | Some _ => ∃ r, prove_computation request now = Ok r
              end
          end) as Hcases.
  { unfold prove_computation.
    rewrite (bool_decide_eq_false_2 (trim _ = "")), (bool_decide_eq_false_2 (guest_elf _ = [])), Hk by assumption.
    cbn [throw_if mbind result_bind]. destruct (execute_builtin_guest k request) as [j|e]; cbn [mbind result_bind mret result_ret];
      [|done]. unfold envelope_of. destruct (envelope_to_vec _); [by eexists|done]. }
  destruct (execute_builtin_guest k request) as [j|e] eqn:Ej; [|done].
  destruct (envelope_to_vec _); [|done]. destruct Hcases as [r Hr]. exists r. split; [done|].
  destruct (Hrun _ Hr) as (Hv & _ & _ & k' & Hk' & _ & Hj). split; [done|]. congruence.
Qed.

(** A receipt shows a run, when it comes from [prove_computation].  A successful call has run
    the built-in guest that its image names on the inputs of the request; the journal of the receipt is what the guest
    returned, and the receipt verifies. *)
Theorem computation_verifies request now r :
  prove_computation request now = Ok r →
  verify_computation r = Ok true ∧ rc_compute_id r = rq_compute_id request ∧ signer_did r = requester_did request ∧
  ∃ kind, decode_builtin_kind (guest_elf request) = Some kind ∧ image_id r = guest_image_id kind ∧
    execute_builtin_guest kind request = Ok (journal r).
Proof using All. apply computation_runs. Qed.

(** A receipt need not come from a run.  For every image and every journal there is a receipt that
    verifies, which whoever writes the envelope makes without running anything: verification compares the
    receipt only with itself. *)
Theorem receipt_forged id journal image now signer raw :
  envelope_to_vec (mk_ReceiptEnvelope COMPUTE_RECEIPT_SCHEMA id image (hex_encode journal) None "" "" now) = Some raw →
  verify_computation (mk_ComputeReceipt id raw journal image now signer [] COMPUTE_RECEIPT_SCHEMA) = Ok true ∧
  verify_receipt_minimal raw image journal = Ok true.
Proof using All.
  intros Hraw. split; [by eapply envelope_verifies|]. apply envelope_roundtrip in Hraw.
  unfold verify_receipt_minimal. rewrite Hraw. cbn. by rewrite !bool_decide_eq_true_2.
Qed.

Lemma range_id_named a b c : trim ("builtin-range-" +:+ dec a +:+ "-" +:+ dec b +:+ "-" +:+ dec c) ≠ "".
Proof using Type.
  rewrite trim_graphic; [done|done|]. rewrite <-!str_app_assoc.
  apply word_last, dec_word.
Qed.

(** The string that the commitment is a hash of, and the request of a range proof. *)
Definition range_input (value min max : N) : bytes :=
  as_bytes "agenthalo.range_proof.v1" ++ le_bytes 8 value ++ le_bytes 8 min ++ le_bytes 8 max.
Definition range_request (value min max : N) (requester : string) (inputs : bytes) : ComputeRequest := {|
  rq_compute_id := "builtin-range-" +:+ dec value +:+ "-" +:+ dec min +:+ "-" +:+ dec max;
  guest_elf := as_bytes (guest_image_id RangeProof); public_inputs := inputs;
  private_inputs := le_bytes 8 value; requester_did := requester |}.

Lemma range_commitment_inj v a b v' a' b' :
  is_u64 v → is_u64 a → is_u64 b → is_u64 v' → is_u64 a' → is_u64 b' →
  range_commitment v a b = range_commitment v' a' b' →
  (v = v' ∧ a = a' ∧ b = b') ∨ collides sha256 [range_input v a b; range_input v' a' b'].
Proof using Type.
  intros. apply arr_eq in H5. change (sha256 (range_input v a b) = sha256 (range_input v' a' b')) in H5.
  apply sha256_inj_or_collides in H5 as [E|]; [left|by right].
  apply app_inv_head in E. apply app_inj_1 in E as [E1 E]; [|by rewrite !length_le_bytes].
  apply app_inj_1 in E as [E2 E3]; [|by rewrite !length_le_bytes].
  assert (∀ x y, is_u64 x → is_u64 y → le_bytes 8 x = le_bytes 8 y → x = y) as Hle.
  { intros x y Hx Hy E. rewrite <-(of_le_bytes_le_bytes 8 x), <-(of_le_bytes_le_bytes 8 y), E; [done|..];
      unfold is_u64, u64_max in *; change (256 ^ N.of_nat 8)%N with 18446744073709551616%N; lia. }
  auto.
Qed.

(** Claim C34. A range receipt is made exactly for values in the range: proving a range fails with its own error for an
    empty range and with the error of the guest for a value outside; otherwise, if the envelope around the commitment to
    the value and the bounds can be serialised, the receipt verifies and that commitment is its journal, and if not the
    error says so; and equal commitments are to equal
    values and bounds, or the two different strings that stand for them have one SHA-256 hash. *)
Theorem range_receipt_exact value min max requester now inputs :
  is_u64 value → is_u64 min → is_u64 max → range_to_vec (min, max) = Some inputs →
  ((max < min)%N → prove_builtin_range value min max requester now = Err ZcRange) ∧
  ((min ≤ max)%N → (value < min ∨ max < value)%N →
   prove_builtin_range value min max requester now = Err (ZcGuest (GuOutside value min max))) ∧
  ((min ≤ value ≤ max)%N →
   match envelope_to_vec (envelope_of (range_request value min max requester inputs) RangeProof
                            (range_commitment value min max) now) with
   | None => prove_builtin_range value min max requester now = Err ZcSerialize
   | Some _ => ∃ r, prove_builtin_range value min max requester now = Ok r ∧ verify_computation r = Ok true ∧
       journal r = range_commitment value min max
   end) ∧
  ∀ value' min' max', is_u64 value' → is_u64 min' → is_u64 max' →
    range_commitment value min max = range_commitment value' min' max' →
    (value = value' ∧ min = min' ∧ max = max') ∨
    collides sha256 [range_input value min max; range_input value' min' max'].
Proof using All.
  intros Hv Hmin Hmax Hi. apply range_roundtrip in Hi as Hr.
  assert (∀ n, is_u64 n → try_arr 8 (le_bytes 8 n) = Some (to_arr 8 (le_bytes 8 n))) as Hle.
  { intros n _. apply try_arr_Some, to_arr_bytes, length_le_bytes. }
  set (request := range_request value min max requester inputs).
  assert (prove_builtin_range value min max requester now =
          if (max <? min)%N then Err ZcRange else prove_computation request now) as ->.
  { unfold prove_builtin_range. rewrite Hi. by destruct (max <? min)%N. }
  assert (execute_builtin_guest RangeProof request = map_err ZcGuest (range_execute value min max)) as He.
  { cbn [execute_builtin_guest public_inputs private_inputs range_request request]. rewrite Hr. cbn [ok_or mbind result_bind].
    rewrite Hle by done. cbn [ok_or mbind result_bind]. rewrite to_arr_bytes by apply length_le_bytes.
    rewrite of_le_bytes_le_bytes; [done|]. unfold is_u64, u64_max in Hv.
    change (256 ^ N.of_nat 8)%N with 18446744073709551616%N. lia. }
  pose proof (prove_builtin request now RangeProof (range_id_named _ _ _) ltac:(by vm_compute) (builtin_kind RangeProof))
    as Hp. rewrite He in Hp. clear He. unfold range_execute in Hp.
  split; [|split; [|split]].
  - intros Hlt. by rewrite (proj2 (N.ltb_lt _ _)).
  - intros Hge Hout. rewrite (proj2 (N.ltb_ge max min)) in * by lia. cbn [throw_if mbind result_bind] in Hp.
    replace ((value <? min) || (max <? value))%N with true in Hp; [done|].
    symmetry. apply orb_true_iff. rewrite !N.ltb_lt. done.
  - intros [H1 H2]. rewrite (proj2 (N.ltb_ge max min)) in * by lia.
    rewrite (proj2 (N.ltb_ge value min)), (proj2 (N.ltb_ge max value)) in Hp by lia. exact Hp.
  - intros. by apply range_commitment_inj.
Qed.
End compute.

(** ** Examples *)

#[local] Existing Instance prefix_sha.
Definition envelope_code (e : ReceiptEnvelope) :=
  (re_schema_version e, re_compute_id e, re_image_id e, journal_hex e, zk_receipt_hex e, public_inputs_hash e,
   private_inputs_commitment e, re_timestamp e).
Definition envelope_uncode (c : N * string * string * string * option string * string * string * N)
  : ReceiptEnvelope :=
  let '(v, i, m, j, z, p, q, t) := c in mk_ReceiptEnvelope v i m j z p q t.
Definition policy_of (n : N) : AggregationPolicy := match n with 0 => Sum | 1 => Mean | 2 => Min | _ => Max end%N.
Definition toy_compute_json : ComputeJson := {|
  range_to_vec := λ m, Some (code m); range_from_slice := uncode;
  membership_to_vec := λ m, Some (code (sm_merkle_root_hash m, sm_merkle_path m, sm_merkle_index m));
  membership_from_slice := λ b, (λ '(r, p, i), Build_SetMembershipPublicInputs r p i) <$> uncode b;
  policy_from_slice := λ b, policy_of <$> uncode b; values_from_slice := uncode;
  compliance_to_vec := λ m, Some (code (algorithm_id m, expected_output_hex m));
  compliance_from_slice := λ b, (λ '(a, e), Build_AlgorithmCompliancePublicInputs a e) <$> uncode b;
  envelope_to_vec := λ e, Some (code (envelope_code e));
  envelope_from_slice := λ b, envelope_uncode <$> uncode b |}.
Lemma toy_compute_laws : ComputeJson_Laws toy_compute_json.
Proof.
  split; intros m b [= <-].
  - cbn [envelope_from_slice toy_compute_json]. rewrite uncode_code. by destruct m.
  - cbn [range_from_slice toy_compute_json]. apply uncode_code.
  - cbn [membership_from_slice toy_compute_json]. rewrite uncode_code. by destruct m.
  - cbn [compliance_from_slice toy_compute_json]. rewrite uncode_code. by destruct m.
Qed.
#[local] Existing Instances toy_compute_json toy_compute_laws.

Lemma ex_range_ok : is_ok (prove_builtin_range 42 1 100 "did:key:alice" 5) = true.
Proof. vm_compute. reflexivity. Qed.
Lemma computation_verifies_witness :
  ∃ r, prove_builtin_range 42 1 100 "did:key:alice" 5 = Ok r ∧ verify_computation r = Ok true.
Proof.
  pose proof ex_range_ok as Hok.
  destruct (prove_builtin_range 42 1 100 "did:key:alice" 5) as [r|] eqn:Er; [|done]. exists r. split; [reflexivity|].
  exact (proj1 (computation_verifies _ _ _ Er)).
Defined.
Lemma range_receipt_exact_witness :
  prove_builtin_range 101 1 100 "did:key:alice" 5 = Err (ZcGuest (GuOutside 101 1 100)) ∧
  ∃ r, prove_builtin_range 100 1 100 "did:key:alice" 5 = Ok r ∧ verify_computation r = Ok true ∧
    journal r = range_commitment 100 1 100.
Proof.
  split.
  - apply (range_receipt_exact 101 1 100 "did:key:alice" 5 (code (1%N, 100%N)));
      [by vm_compute|by vm_compute|by vm_compute|reflexivity|lia|right; lia].
  - refine (proj1 (proj2 (proj2 (range_receipt_exact 100 1 100 "did:key:alice" 5 (code (1%N, 100%N)) _ _ _ _))) _);
      [by vm_compute|by vm_compute|by vm_compute|reflexivity|lia].
Defined.
Lemma receipt_forged_witness :
  ∃ raw, verify_computation (mk_ComputeReceipt "id" raw (as_bytes "any") image_ids.RANGE_PROOF 5 "did:key:mallory" []
                               COMPUTE_RECEIPT_SCHEMA) = Ok true.
Proof.
  eexists. exact (proj1 (receipt_forged "id" (as_bytes "any") image_ids.RANGE_PROOF 5 "did:key:mallory" _ eq_refl)).
Defined.
