(* ===== verification/CredentialHandler.v ===== *)
(** * Credential messages: the handlers of [src/src/halo/didcomm_handler.rs] that run proofs

    An offer is answered with a proof of the offered grant, a request with a check of the
    proof in it.  The keys are those of [Credential]; every call computes them again, as
    the set-up has no secret. *)
From S2P Require Export HaloComm Credential.

Record DIDCommCredentialAttachment := mk_CredentialAttachment {
  proof_bundle : CredentialProofBundle;
  ca_resource_uri : string;
  ca_requested_action : string
}.
Record CredentialOfferBody := {
  of_grant : AccessGrant;
  of_resource_uri : string;
  of_requested_action : string;
  of_current_time : option N
}.
Definition CREDENTIAL_ATTACHMENT_MEDIA_TYPE : string := "application/agenthalo.credential-proof+json".

Inductive CredentialHandlerError :=
| ChOffer
| ChAction (other : string)
| ChNoAttachment | ChNotJson | ChAttachment
| ChSchema (got : N)
| ChNoResource | ChNoAction
| ChSerialize
| ChCredential (e : CredentialError)
| ChNotVerified.

(** [serde_json] on these types, where [None] is an [Err], and the texts of errors, which
    quote those of the libraries. *)
Class CredentialJson `{SerdeJson} := {
  offer_from_value : JsonValue → option CredentialOfferBody;
  credential_from_value : JsonValue → option DIDCommCredentialAttachment;
  credential_to_value : DIDCommCredentialAttachment → option JsonValue;
  handler_error_text : CredentialHandlerError → string
}.

Definition requested_permissions (action : string) : result CredentialHandlerError GrantPermissions :=
  let a := to_ascii_lowercase (trim action) in
  if bool_decide (a = "read") then
    mret {| p_read := true; p_write := false; p_append := false; p_control := false |}
  else if bool_decide (a = "write") then
    mret {| p_read := false; p_write := true; p_append := false; p_control := false |}
  else if bool_decide (a = "append") then
    mret {| p_read := false; p_write := false; p_append := true; p_control := false |}
  else if bool_decide (a = "control") then
    mret {| p_read := false; p_write := false; p_append := false; p_control := true |}
  else Err (ChAction a).

Section handlers.
Context `{SHA : Sha2, DL : DidLib, F : ArkField, G : !ArkGroth16, SJ : SerdeJson, JA : !JsonAccess, JB : !JsonBuild,
  CJ : !CredentialJson}.

Definition credential_keys : result CredentialHandlerError (ProvingKey * VerifyingKey) :=
  map_err ChCredential setup_credential_circuit.

Definition extract_credential_attachment (m : DIDCommMessage)
  : result CredentialHandlerError DIDCommCredentialAttachment :=
  a ← ok_or (h_attachments m ≫= List.find (λ item, bool_decide (media_type item = CREDENTIAL_ATTACHMENT_MEDIA_TYPE)))
        ChNoAttachment;
  json ← match att_data a with AdJson json => mret json | _ => Err ChNotJson end;
  ok_or (credential_from_value json) ChAttachment.
Definition validate_credential_attachment_for_request (a : DIDCommCredentialAttachment)
  : result CredentialHandlerError () :=
  _ ← throw_if (negb (cp_schema_version (proof_bundle a) =? 2)%N) (ChSchema (cp_schema_version (proof_bundle a)));
  _ ← throw_if (bool_decide (trim (ca_resource_uri a) = "")) ChNoResource;
  throw_if (bool_decide (trim (ca_requested_action a) = "")) ChNoAction.
Definition build_credential_attachment (a : DIDCommCredentialAttachment)
  : result CredentialHandlerError DIDCommAttachment :=
  payload ← ok_or (credential_to_value a) ChSerialize;
  mret {| att_id := "credential-proof-1"; media_type := CREDENTIAL_ATTACHMENT_MEDIA_TYPE; att_data := AdJson payload |}.

(** [id] and [now] are those of the answer; the time of the offer defaults to [now]. *)
Definition handle_credential_offer (holder_did : string) (m : DIDCommMessage) (id : string) (now : N)
  : result CredentialHandlerError DIDCommMessage :=
  offer ← ok_or (offer_from_value (h_body m)) ChOffer;
  let action := of_requested_action offer in
  requested ← requested_permissions action;
  let current_time := default now (of_current_time offer) in
  keys ← credential_keys;
  bundle ← map_err ChCredential (prove_credential keys.1 (of_grant offer) holder_did requested current_time);
  let response := message_new message_types.CREDENTIAL_REQUEST None (option_list (h_from m))
    (json_object [("reply_to", json_str (h_id m)); ("resource_uri", json_str (of_resource_uri offer));
                  ("requested_action", json_str action); ("current_time", json_u64 current_time)]) id now in
  a ← build_credential_attachment (mk_CredentialAttachment bundle (of_resource_uri offer) action);
  mret (with_attachment response a).

Definition handle_credential_request (m : DIDCommMessage) (id : string) (now : N)
  : result CredentialHandlerError DIDCommMessage :=
  attachment ← extract_credential_attachment m;
  _ ← validate_credential_attachment_for_request attachment;
  keys ← credential_keys;
  verified ← map_err ChCredential (verify_credential_proof keys.2 (proof_bundle attachment));
  _ ← throw_if (negb verified) ChNotVerified;
  let response := message_new message_types.CREDENTIAL_ISSUE None (option_list (h_from m))
    (json_object [("reply_to", json_str (h_id m)); ("status", json_str "issued"); ("verified", json_bool true);
                  ("resource_uri", json_str (ca_resource_uri attachment));
                  ("requested_action", json_str (ca_requested_action attachment))]) id now in
  a ← build_credential_attachment attachment;
  mret (with_attachment response a).

Definition error_response (error : string) (id : string) (now : N) : DIDCommMessage :=
  message_new message_types.ERROR None [] (json_object [("error", json_str error)]) id now.
(** The answer, or the error as an answer. *)
Definition answer_or_error (f : DIDCommMessage → string → N → result CredentialHandlerError DIDCommMessage)
  : MessageHandler := λ m id now,
  Some match f m id now with Ok r => r | Err e => error_response (handler_error_text e) id now end.

Definition register_builtin_handlers (version : string) (d : DIDCommHandler) : DIDCommHandler :=
  on_message message_types.TASK_CANCEL (reply message_types.TASK_STATUS "canceled")
    (on_message message_types.TASK_SEND (reply message_types.TASK_STATUS "submitted")
      (on_message message_types.CREDENTIAL_ISSUE (reply message_types.ACK "credential_ack")
        (on_message message_types.CREDENTIAL_REQUEST (answer_or_error handle_credential_request)
          (on_message message_types.CREDENTIAL_OFFER
             (answer_or_error (handle_credential_offer (did (hd_identity d))))
            (on_message message_types.AGENT_CARD_REQUEST (agent_card version)
              (on_message message_types.PING (reply message_types.ACK "ok") d)))))).
End handlers.
