(* ===== verification/CredentialHandlerSpec.v ===== *)
(** * Properties of the credential messages of [CredentialHandler.v]

    The exchange of an offer, a request and an issued credential; what an issued credential
    does not say. *)
From S2P Require Import CredentialHandler CredentialSpec DidcommSpec Instances Codec ZkEx.

Class CredentialJson_Laws `(CJ : CredentialJson) : Prop := {
  credential_roundtrip a : ∃ v, credential_to_value a = Some v ∧ credential_from_value v = Some a
}.

#[local] Opaque setup_credential_circuit verify_credential_proof prove_credential.
(** Steps of the error monad. *)
Lemma ok_bind {E A B} (x : A) (f : A → result E B) : (Ok x ≫= f) = f x.
Proof. done. Qed.
Lemma map_err_ok_eq {E E' A} (x : A) (f : E → E') : map_err f (Ok x) = Ok x.
Proof. done. Qed.
Lemma ok_or_some {E A} (x : A) (e : E) : ok_or (Some x) e = Ok x.
Proof. done. Qed.

Section exchange.
Context `{SHA : Sha2, DL : DidLib, F : ArkField, G : !ArkGroth16, SJ : SerdeJson, JA : !JsonAccess, JB : !JsonBuild,
  CJ : !CredentialJson}.
Context `{!ArkField_Laws F, !ArkGroth16_Laws G, !CredentialJson_Laws CJ}.

(** A message whose only attachment is a credential. *)
Definition carries (m : DIDCommMessage) (a : DIDCommCredentialAttachment) : Prop :=
  ∃ v, credential_from_value v = Some a ∧ h_attachments m = Some
    [{| att_id := "credential-proof-1"; media_type := CREDENTIAL_ATTACHMENT_MEDIA_TYPE; att_data := AdJson v |}].
Lemma carries_extract m a : carries m a → extract_credential_attachment m = Ok a.
Proof using Type.
  intros (v & Hv & Hm). unfold extract_credential_attachment. rewrite Hm. cbn [mbind option_bind List.find media_type].
  rewrite bool_decide_eq_true_2 by done. cbn [ok_or mbind result_bind att_data mret result_ret]. by rewrite Hv.
Qed.
Lemma attachment_built ty to body id now a :
  ∃ x, build_credential_attachment a = Ok x ∧ carries (with_attachment (message_new ty None to body id now) x) a.
Proof using All.
  destruct (credential_roundtrip a) as (v & Hv & Ha). eexists. split.
  - unfold build_credential_attachment. rewrite Hv. reflexivity.
  - exists v. split; [done|]. reflexivity.
Qed.

(** A request with a proof that verifies is answered. *)
Lemma request_answered pk vk m a id now :
  setup_credential_circuit = Ok (pk, vk) → extract_credential_attachment m = Ok a →
  validate_credential_attachment_for_request a = Ok () → verify_credential_proof vk (proof_bundle a) = Ok true →
  ∃ r, handle_credential_request m id now = Ok r ∧ carries r a ∧ h_type r = message_types.CREDENTIAL_ISSUE ∧
    h_to r = option_list (h_from m) ∧
    h_body r = json_object [("reply_to", json_str (h_id m)); ("status", json_str "issued"); ("verified", json_bool true);
      ("resource_uri", json_str (ca_resource_uri a)); ("requested_action", json_str (ca_requested_action a))].
Proof using All.
  intros Hs He Hv Hp. unfold handle_credential_request, credential_keys. rewrite He, Hs, ok_bind, Hv, ok_bind,
    map_err_ok_eq, ok_bind. change ((pk, vk).2) with vk. rewrite Hp, map_err_ok_eq, ok_bind. change (throw_if (negb true) ChNotVerified) with (Ok (E:=CredentialHandlerError) ()).
  rewrite ok_bind. cbv zeta.
  match goal with |- context [message_new ?ty None ?to ?body _ _] =>
    destruct (attachment_built ty to body id now a) as (x & Hx & Hc) end.
  rewrite Hx, ok_bind. eexists. split; [reflexivity|]. split; [exact Hc|]. split; [reflexivity|split; reflexivity].
Qed.

(** Claim C29. Offer, request, credential.  A holder who gets an offer of a grant that passes the checks
    for a named action answers with a proof; the issuer who gets this answer accepts the proof
    and issues the credential, with the same proof, resource and action. *)
Theorem credential_exchange pk vk holder m o requested id now id' now' :
  setup_credential_circuit = Ok (pk, vk) → offer_from_value (h_body m) = Some o →
  requested_permissions (of_requested_action o) = Ok requested →
  trim (of_resource_uri o) ≠ "" →
  let time := default now (of_current_time o) in
  grant_u64 (of_grant o) → is_u64 time → validate_grant_for_proof (of_grant o) requested time = Ok () →
  ∃ request b, handle_credential_offer holder m id now = Ok request ∧
    h_type request = message_types.CREDENTIAL_REQUEST ∧
    grantee_did_hash b = hex_encode (arr_bytes (did_hash holder)) ∧
    cp_permission_flags b = permission_flags requested ∧ cp_current_time b = time ∧
    carries request (mk_CredentialAttachment b (of_resource_uri o) (of_requested_action o)) ∧
    ∃ issue, handle_credential_request request id' now' = Ok issue ∧
      h_type issue = message_types.CREDENTIAL_ISSUE ∧
      carries issue (mk_CredentialAttachment b (of_resource_uri o) (of_requested_action o)).
Proof using All.
  intros Hs Ho Hr Hu time Hg Ht Hv.
  assert (permission_flags requested ≠ 0%N ∧ trim (of_requested_action o) ≠ "") as [Hf Ha].
  { unfold requested_permissions in Hr. split.
    - repeat (case_bool_decide; [by injection Hr as <-|]). done.
    - intros E. rewrite E in Hr. done. }
  destruct (prove_verify pk vk (of_grant o) holder requested time Hs Hg Ht Hv Hf) as (raw & Hp & Hver).
  cbv zeta in Hp, Hver. set (b := bundle_of raw _ _ requested time) in *.
  destruct (attachment_built message_types.CREDENTIAL_REQUEST (option_list (h_from m))
    (json_object [("reply_to", json_str (h_id m)); ("resource_uri", json_str (of_resource_uri o));
                  ("requested_action", json_str (of_requested_action o)); ("current_time", json_u64 time)]) id now
    (mk_CredentialAttachment b (of_resource_uri o) (of_requested_action o))) as (x & Hx & Hc).
  eexists. exists b. split.
  - unfold handle_credential_offer, credential_keys. rewrite Ho, ok_or_some, ok_bind. cbv zeta.
    rewrite Hr, ok_bind, Hs, map_err_ok_eq, ok_bind. fold time. change ((pk, vk).1) with pk. rewrite Hp, map_err_ok_eq, ok_bind, Hx, ok_bind.
    reflexivity.
  - split; [done|]. do 3 (split; [done|]). split; [exact Hc|].
    match type of Hc with carries ?req ?att =>
      destruct (request_answered pk vk req att id' now' Hs (carries_extract _ _ Hc)) as (issue & H1 & H2 & H3 & _) end;
      [|exact Hver|exists issue; split; [exact H1|split; [exact H3|exact H2]]].
    unfold validate_credential_attachment_for_request. cbn [proof_bundle ca_resource_uri ca_requested_action].
    rewrite (bool_decide_eq_false_2 (trim (of_resource_uri o) = "")),
      (bool_decide_eq_false_2 (trim (of_requested_action o) = "")) by assumption. reflexivity.
Qed.

(** The message with another credential in it. *)
Definition with_credential (m : DIDCommMessage) (v : JsonValue) : DIDCommMessage :=
  mk_HaloMessage (h_id m) (h_type m) (h_from m) (h_to m) (h_created_time m) (h_expires_time m) (h_body m)
    (Some [{| att_id := "credential-proof-1"; media_type := CREDENTIAL_ATTACHMENT_MEDIA_TYPE; att_data := AdJson v |}]).

(** An issued credential names any resource and action.  Whoever has one request that is
    accepted gets a credential issued, as verified, for every resource and every action
    that are not blank, with the same proof: the proof is never compared with them. *)
Theorem issue_action_unbound m a r id now uri action :
  handle_credential_request m id now = Ok r → extract_credential_attachment m = Ok a →
  trim uri ≠ "" → trim action ≠ "" →
  ∃ v r', handle_credential_request (with_credential m v) id now = Ok r' ∧
    carries r' (mk_CredentialAttachment (proof_bundle a) uri action) ∧
    h_body r' = json_object [("reply_to", json_str (h_id m)); ("status", json_str "issued");
      ("verified", json_bool true); ("resource_uri", json_str uri); ("requested_action", json_str action)].
Proof using All.
  intros Hr He Hu Ha. unfold handle_credential_request, credential_keys in Hr. rewrite He, ok_bind in Hr.
  destruct (validate_credential_attachment_for_request a) as [[]|] eqn:Hv; [|done].
  rewrite ok_bind in Hr.
  destruct setup_credential_circuit as [[pk vk]|] eqn:Hs; [|done]. rewrite map_err_ok_eq, ok_bind in Hr. change ((pk, vk).2) with vk in Hr.
  destruct (verify_credential_proof vk (proof_bundle a)) as [[]|] eqn:Hp; [|done..]. clear Hr.
  destruct (credential_roundtrip (mk_CredentialAttachment (proof_bundle a) uri action)) as (v & _ & Hfrom).
  assert (carries (with_credential m v) (mk_CredentialAttachment (proof_bundle a) uri action)) as Hc
    by (exists v; split; [exact Hfrom|reflexivity]).
  assert (validate_credential_attachment_for_request (mk_CredentialAttachment (proof_bundle a) uri action) = Ok ()) as Hv'.
  { unfold validate_credential_attachment_for_request in *. cbn [proof_bundle ca_resource_uri ca_requested_action].
    destruct (negb (cp_schema_version (proof_bundle a) =? 2)%N); [discriminate Hv|].
    rewrite (bool_decide_eq_false_2 (trim uri = "")), (bool_decide_eq_false_2 (trim action = "")) by assumption.
    reflexivity. }
  destruct (request_answered pk vk (with_credential m v) _ id now Hs (carries_extract _ _ Hc) Hv' Hp)
    as (r' & H1 & H2 & _ & _ & H3).
  exists v, r'. split; [exact H1|split; [exact H2|exact H3]].
Qed.
End exchange.

(** ** Examples *)

#[local] Existing Instances prefix_sha toy_sig toy_did toy_tree tree_access tree_build.
Definition attachment_code (a : DIDCommCredentialAttachment) :=
  let b := proof_bundle a in
  (proof_hex b, grantee_did_hash b, key_pattern_hash b, cp_permission_flags b, cp_current_time b,
   cp_schema_version b, ca_resource_uri a, ca_requested_action a).
Definition attachment_uncode (c : string * string * string * N * N * N * string * string)
  : DIDCommCredentialAttachment :=
  let '(p, g, k, f, t, v, u, a) := c in
  mk_CredentialAttachment {| proof_hex := p; grantee_did_hash := g; key_pattern_hash := k; cp_permission_flags := f;
    cp_current_time := t; cp_schema_version := v |} u a.
Lemma attachment_uncode_code a : attachment_uncode (attachment_code a) = a.
Proof. by destruct a as [[]]. Qed.
(** An offer of a made-up grant to read: its pattern, resource and time. *)
Definition offer_code (pattern uri : string) (time : N) : tree := text (of_bytes (code (pattern, uri, time))).
Definition offer_uncode (t : tree) : option CredentialOfferBody :=
  s ← get_text t; c ← uncode (A:=string * string * N) (as_bytes s);
  Some {| of_grant := made_up ex_grantor c.1.1 perms_read_write; of_resource_uri := c.1.2;
          of_requested_action := " Read"; of_current_time := Some c.2 |}.
Definition credential_tree (a : DIDCommCredentialAttachment) : tree := text (of_bytes (code (attachment_code a))).
Definition credential_of_tree (t : tree) : option DIDCommCredentialAttachment :=
  match get_text t with
  | Some s => match uncode (as_bytes s) with Some c => Some (attachment_uncode c) | None => None end
  | None => None
  end.
Definition toy_credential_json : @CredentialJson toy_tree :=
  @Build_CredentialJson toy_tree offer_uncode credential_of_tree (λ a, Some (credential_tree a)) (λ _, "error").
Lemma toy_credential_laws : CredentialJson_Laws toy_credential_json.
Proof.
  split. intros a. exists (credential_tree a). split; [reflexivity|].
  change (credential_of_tree (credential_tree a) = Some a). unfold credential_of_tree, credential_tree. cbn [get_text text].
  by rewrite as_of_bytes, uncode_code, attachment_uncode_code.
Qed.
#[local] Existing Instances toy_credential_json toy_credential_laws.

Definition ex_offer : DIDCommMessage :=
  message_new message_types.CREDENTIAL_OFFER (Some "did:key:issuer") ["did:key:holder"]
    (offer_code "results/*" "pod://results/1" 1000) "m1" 900.
Lemma ex_offer_body : ∃ o, offer_from_value (h_body ex_offer) = Some o ∧
  of_grant o = made_up ex_grantor "results/*" perms_read_write ∧ of_resource_uri o = "pod://results/1" ∧
  of_requested_action o = " Read" ∧ of_current_time o = Some 1000%N.
Proof. eexists. split; [vm_compute; reflexivity|]. split_and!; by vm_compute. Qed.
Lemma ex_offer_grant now : validate_grant_for_proof (made_up ex_grantor "results/*" perms_read_write) ex_read now = Ok ().
Proof.
  unfold validate_grant_for_proof, made_up. cbn [g_revoked g_expires_at g_created_at g_nonce permissions grant_id
    grantor_puf grantee_puf key_pattern throw_if mbind result_bind N.eqb].
  replace (now <? 0)%N with false by (symmetry; apply N.ltb_ge; lia). cbn [throw_if mbind result_bind].
  change (permissions_subset ex_read perms_read_write) with true.
  cbn [negb throw_if mbind result_bind]. by rewrite bool_decide_eq_true_2.
Qed.

Lemma credential_exchange_witness :
  ∃ request issue, handle_credential_offer (G:=q_groth16) "did:key:holder" ex_offer "m2" 901 = Ok request ∧
    handle_credential_request (G:=q_groth16) request "m3" 902 = Ok issue ∧
    h_type issue = message_types.CREDENTIAL_ISSUE.
Proof.
  destruct ex_offer_body as (o & Ho & Hg & Hu & Ha & Ht).
  destruct (credential_exchange (G:=q_groth16) _ _ "did:key:holder" ex_offer o ex_read "m2" 901 "m3" 902 ex_credential_keys Ho)
    as (request & b & H1 & _ & _ & _ & _ & _ & issue & H2 & H3 & _).
  - rewrite Ha. by vm_compute.
  - rewrite Hu. by vm_compute.
  - rewrite Hg. apply made_up_u64.
  - rewrite Ht. by vm_compute.
  - rewrite Hg. apply ex_offer_grant.
  - exists request, issue. split; [exact H1|split; [exact H2|exact H3]].
Defined.

(** The request of the holder, again for the secrets of the issuer. *)
Lemma issue_action_unbound_witness :
  ∃ v r', handle_credential_request (G:=q_groth16) (with_credential ex_offer v) "m3" 902 = Ok r' ∧
    h_body r' = json_object [("reply_to", text "m1"); ("status", text "issued"); ("verified", json_bool true);
      ("resource_uri", text "pod://secret/1"); ("requested_action", text "control")].
Proof.
  destruct (circuit_accepted (G:=q_groth16) _ _ (made_up ex_grantor "results/*" perms_read_write) ex_grantor ex_grantor ex_read 1000
              ex_grantor ex_credential_keys (made_up_u64 _ _ _) ltac:(by vm_compute) (ex_offer_grant 1000))
    as (p & raw & _ & _ & Hver).
  set (a := mk_CredentialAttachment (bundle_of raw ex_grantor ex_grantor ex_read 1000) "pod://results/1" "read").
  set (m := with_credential ex_offer (credential_tree a)).
  assert (carries m a) as Hc.
  { exists (credential_tree a). split; [|reflexivity]. destruct (credential_roundtrip a) as (v & Hv & Hf).
    injection Hv as <-. exact Hf. }
  assert (validate_credential_attachment_for_request a = Ok ()) as Hv by (vm_compute; reflexivity).
  destruct (request_answered _ _ m a "m3" 902 ex_credential_keys (carries_extract _ _ Hc) Hv Hver) as (r & Hr & _).
  destruct (issue_action_unbound m a r "m3" 902 "pod://secret/1" "control" Hr (carries_extract _ _ Hc))
    as (v & r' & H1 & _ & H2); [by vm_compute|by vm_compute|].
  exists v, r'. split; [exact H1|exact H2].
Defined.
